(* ===== verification/_CoqProject ===== *)
-Q . S2P
Prelude.v
RustStr.v
StringMap.v
Frame.v
Padding.v
Engine.v
Pipe.v
Deadline.v
Writer.v
Session.v
Multiplex.v
Connection.v
Client.v
Users.v
Api.v
Uot.v
Panel.v
Server.v
Allowlist.v
Relay.v
Outbound.v
UotSelect.v
Handshake.v
Races.v
ParseUrl.v
ClientRunner.v
TrojanKiller.v
Programs.v
EndToEnd.v
