(* ===== verification/Prelude.v ===== *)
(** * AnyTLS-RS: a verification library

    ** The program

    AnyTLS-RS is a proxy.  A client program accepts SOCKS5 and HTTP CONNECT
    connections, opens a TLS connection to a server, authenticates with a
    password hash and multiplexes the connections as streams over it; the server
    relays each stream to its target.  Traffic is cut into records whose sizes
    follow a padding scheme.  The parts, bottom up:

    - frames and settings (core/frame.rs, core/string_map.rs), the padding scheme
      (core/padding.rs) and the protocol engine that turns a received frame into
      actions (core/engine.rs, core/state.rs, core/action.rs);
    - pipes (proxy/pipe), the writer task (runtime/mod.rs), sessions and streams
      (proxy/session/inner.rs, stream.rs), the client's pool of sessions
      (proxy/session/client.rs);
    - the user registry and its HTTP API (node_api), the panel synchronisation
      (panel_sync), UDP over TCP (uot), share links (util/parse_url.rs);
    - the programs: bin/server.rs, client_runner.rs, bin/client.rs, and the
      auditing proxy examples/trojan-killer.rs.

    ** Files and what they model

    - [Prelude]: bytes, machine integers with wrap-around and saturation,
      results, the state-and-error monad [ioM], generic lemmas, tactics, hints.
    - [RustStr]: the string routines of the Rust standard library the source
      calls, UTF-8 decoding among them.
    - [StringMap], [Frame], [Padding], [Engine]: one function per function of
      the files of the same names; hash-map iteration order, MD5 and the random
      generator are type classes.
    - [Pipe]: io_pipe.rs.  A read is split at its await points, so the pipe is a
      step relation in which reads, writes, the end of the stream, deadlines and
      cancellation interleave; [read_now] is the read without interleaving.
      [Deadline]: deadline.rs, the timer and the tasks it wakes.
    - [Writer]: the writer task and write_conn of runtime/mod.rs, with the bytes
      it puts on the wire and its acknowledgements.
    - [Session]: inner.rs, stream.rs and the frame handling of runtime/mod.rs.
      Streams are shared, so they live on a heap and the map holds pointers; the
      writer task behind the channel is the class [WriterPeer], with the task of
      [Writer] as an instance.  [Multiplex]: the session's tasks as a step
      relation, with what follows for all interleavings.  [Connection]: a client's
      and a server's session joined by the frames on their way in both directions;
      its state and steps are specification, its operations those of [Session].
    - [Client]: client.rs, the pool with its index map, its idle waiters and its
      cleanup; dialling is a parameter.
    - [Users], [Api], [Panel], [Uot]: users.rs, api.rs, panel_sync and uot.
      SHA-256, JSON, HTTP and the SOCKS address codec are parameters or classes
      with laws; a concrete instance of each shows that the laws can hold.
    - [Server]: start-up decisions, authentication, camouflage and policing of
      bin/server.rs, and the client's authentication block; [Allowlist]: the
      choice of the certificate and the names a probe may be sent to; [Relay]:
      the stream adapter and the relay loops; [Outbound]: direct and proxied
      outbound calls; [UotSelect]: the packet reader as [select!] polls and drops
      it; [Handshake]: the handler of a stream and its answer to the client.
    - [Races]: [Stream::write] and [push_stream_data] cut at their await points,
      with runs of [Multiplex] in between, and the frames that end a session.
    - [ParseUrl]: printing and parsing of share links, the url and
      percent-encoding crates being a class.  [ClientRunner]: configuration,
      protocol detection, upstream-proxy handshake, stream adapters, SOCKS relay
      and UDP association of client_runner.rs.
    - [TrojanKiller]: the example's request, tunnel and verdict.  [Programs]: main
      and run of both programs, the accept loops, the management listener, the
      users file, the public address and the printed link, the client's TLS
      configuration.
    - [EndToEnd]: no code of its own; it joins the client program, the two
      sessions and the server's relay, and below them the TLS connection.

    ** What the theorems show

    - Wire: frames survive any chunking ([Frame]); the padded wire decodes to the
      queued frames and padding is invisible ([Writer], [Multiplex]); the packet
      counter never wraps.
    - Streams: a pipe is a first-in first-out byte stream that ends only when
      everything was delivered, and its reads return ([Pipe]); in any
      interleaving of a session a stream's reader gets exactly the payload of its
      frames in order, frames leave other streams alone, the bookkeeping of the
      session is consistent in every reachable state, and a run that ends closes
      everything ([Session], [Multiplex]).  End to end, in both directions, what
      one side writes to a stream is what the other side reads, and the wire may be
      cut into reads anywhere ([Connection]).  A received frame ends a session for
      exactly four causes, and payload racing with the end of its stream is not one
      of them ([Races]).
    - Tunnel: what a SOCKS client sends reaches the target it named and the
      target's answer reaches it, across both programs; an admitted client's frames
      reach the server's session from the first byte of its connection
      ([EndToEnd]).
    - Pool: what create_stream returns, at most three dials, exact cleanup and
      final closing ([Client]).
    - Accounts: replacing users, retiring connections, exact connection counts,
      machine ranges of every counter ([Users]), the effects of every route
      ([Api]), traffic reported once ([Panel]).
    - Connections: the client's opening block is read as it was meant, everybody
      else sees the camouflage, a connection counts exactly while it is served
      ([Server], [Allowlist]); relays forward and bill what they read and stop at
      a denied tick ([Relay]); whole UOT packets survive the dropping of their
      reader ([UotSelect]); an outbound proxy is never bypassed ([Outbound]); a
      target that cannot be reached is reported to the client's reader
      ([Handshake]).
    - Client: SOCKS bytes reach the target they name, datagrams travel both ways,
      loops terminate, links are read back ([ClientRunner], [ParseUrl]).
    - Programs: the link a server prints leads a client back to it, booting from a
      users file equals pushing it, the public address is the first acceptable
      answer, certificates are checked unless told otherwise ([Programs]); the
      auditing proxy reports exactly the exchange it watches for and lets the
      client through ([TrojanKiller]).
    - Theorems named after a defect ([oversized_frame_desyncs],
      [stream_id_reused_after_wrap], [stale_idle_signal],
      [cleanup_ends_busy_session], [rekey_race_keeps_old_session],
      [abandoned_read_panics], [split_packet_panics], [accept_errors],
      [public_ip_first], [failed_shutdown_skips_cancel],
      [failed_handler_leaves_stream_open], [association_error_leaks_stream],
      [link_password_stays_encoded], [passed_deadline_is_forgotten],
      [dropped_read_ends_session], [target_error_strands_stream],
      [late_write_is_lost]) show where the code does not do what it means to.

    ** Bounds and fuel

    A frame takes at least seven bytes, so [drain] and [frames_loop] run on the
    length of the pending bytes; [take_reusable] on one more than the idle
    sessions; [create_stream] makes the code's three attempts; [read_loop] reads
    at most the bytes it asks for; [skip_headers] on one more than the bytes
    left, which is proved enough; [poll_loop] needs two rounds, proved as well;
    [poll_packet] on one more than the bytes at hand, since every read that
    returns takes at least one.
    Integers are [Z] with the width's wrap-around or saturation written out.

    ** Approximations

    - In the step relations of [Multiplex] and [Connection] a method is one step:
      a write that passes its check while another task closes the stream is ordered
      before the closing.  [Races] has the other order, and payload pushed while its
      stream is closed.  Elsewhere, where the code releases a lock in between and it
      matters, the operation is split: removing a stream's entry and publishing
      idleness, the phases of an idle waiter, looking up a user and reading its
      generation, the await points of a read.
    - The task [close_with_error] spawns runs at once; weak references can be
      upgraded while their owner is in the model; the frame channel's bound
      (back-pressure) is not modelled.
    - A [select!] loop is a function of the branches that fired, each with its
      outcome; the loops' theorems are about reads that return.  Branches that are
      dropped unfinished are the subject of [UotSelect].
    - Calls whose failure the code ignores or only logs, and socket options, are
      left out; texts of errors made by libraries are opaque.
    - Data a [BufReader] has buffered when it is dropped is not modelled.

    ** Not modelled

    Sockets and their options, TLS itself and the TLS configuration the server
    uses towards a camouflage target (the system's roots), the SOCKS5 and HTTP
    proxy servers and the HTTP server of the API (third-party), certificate
    generation (util/mkcert.rs), proxy/system_dialer.rs, argument parsing, logging
    and the signal handler: they call into libraries and hold no logic of the
    program's own. *)

From stdpp Require Export base tactics list gmap numbers strings.
From Stdlib Require Export ZArith Lia.
From Stdlib Require Import Strings.Byte.

(** ** Scope, hint databases *)

Declare Scope anytls_scope.
Delimit Scope anytls_scope with anytls.
Open Scope anytls_scope.

Create HintDb anytls.
Create Rewrite HintDb anytls_len.

(** ** Bytes and byte strings

    A Rust [u8] is [byte]; [Vec<u8>], [Bytes], [&[u8]] are [list byte]; a Rust
    [String] or [&str] is the list of its UTF-8 bytes. *)

Abbreviation byte := Corelib.Init.Byte.byte.
Abbreviation bytes := (list byte).

#[global] Instance byte_eq_dec : EqDecision byte := Byte.byte_eq_dec.

#[global] Program Instance byte_countable : Countable byte :=
  inj_countable Byte.to_N Byte.of_N _.
Next Obligation. intros b. apply Byte.of_to_N. Qed.

#[global] Instance byte_inhabited : Inhabited byte := populate Byte.x00.

(** A string literal of the source, as its bytes. *)
Definition str (s : string) : bytes := String.list_byte_of_string s.

(** [b as u64] for a byte, and [z as u8] for an integer. *)
Definition byte_to_Z (b : byte) : Z := Z.of_N (Byte.to_N b).
Definition Z_to_byte (z : Z) : byte :=
  default Byte.x00 (Byte.of_N (Z.to_N (z mod 256))).

Lemma byte_to_Z_range b : (0 ≤ byte_to_Z b < 256)%Z.
Proof. unfold byte_to_Z. pose proof (Byte.to_N_bounded b). lia. Qed.

Lemma Z_to_byte_to_Z b : Z_to_byte (byte_to_Z b) = b.
Proof.
  unfold Z_to_byte. rewrite Z.mod_small by apply byte_to_Z_range.
  unfold byte_to_Z. by rewrite N2Z.id, Byte.of_to_N.
Qed.

Lemma byte_to_Z_to_byte z : byte_to_Z (Z_to_byte z) = (z mod 256)%Z.
Proof.
  unfold Z_to_byte, byte_to_Z.
  pose proof (Z.mod_pos_bound z 256 eq_refl) as Hb.
  destruct (Byte.of_N (Z.to_N (z mod 256))) as [b|] eqn:E; simpl.
  - apply Byte.to_of_N in E. rewrite E. lia.
  - apply Byte.of_N_None_iff in E. lia.
Qed.

Lemma byte_to_Z_inj b1 b2 : byte_to_Z b1 = byte_to_Z b2 → b1 = b2.
Proof.
  intros H. by rewrite <- (Z_to_byte_to_Z b1), <- (Z_to_byte_to_Z b2), H.
Qed.

#[export] Hint Resolve byte_to_Z_range : anytls.

(** ** Machine integers

    A [w]-bit unsigned value is a [Z] in [0, 2^w); arithmetic that may leave
    the range is written with the source's own wrap-around or saturation. *)

Definition wrap (w : Z) (z : Z) : Z := (z mod 2 ^ w)%Z.
Definition in_u (w : Z) (z : Z) : Prop := (0 ≤ z < 2 ^ w)%Z.

Abbreviation u8_max := 255%Z.
Abbreviation u16_max := 65535%Z.
Abbreviation u32_max := 4294967295%Z.
Abbreviation u64_max := 18446744073709551615%Z.
Abbreviation i64_max := 9223372036854775807%Z.
Abbreviation i64_min := (-9223372036854775808)%Z.

(** [as i32] on a wider integer: keep the low 32 bits, two's complement. *)
Definition as_i32 (z : Z) : Z :=
  let m := wrap 32 z in if (m <? 2 ^ 31)%Z then m else (m - 2 ^ 32)%Z.

(** [u64::saturating_add] and [u64::saturating_sub]. *)
Definition sat_add64 (a b : Z) : Z := Z.min (a + b) u64_max.
Definition sat_sub64 (a b : Z) : Z := Z.max (a - b) 0.

#[global] Instance in_u_dec w z : Decision (in_u w z).
Proof. unfold in_u. apply _. Defined.

Lemma wrap_range w z : (0 ≤ w)%Z → in_u w (wrap w z).
Proof. intros. unfold wrap, in_u. apply Z.mod_pos_bound. lia. Qed.

Lemma wrap_small w z : in_u w z → wrap w z = z.
Proof. unfold wrap, in_u. intros. by apply Z.mod_small. Qed.

Lemma as_i32_small z : (0 ≤ z < 2 ^ 31)%Z → as_i32 z = z.
Proof.
  intros H. unfold as_i32. rewrite wrap_small by (unfold in_u; lia).
  by rewrite (proj2 (Z.ltb_lt _ _)) by lia.
Qed.

#[export] Hint Resolve wrap_range wrap_small : anytls.

(** ** Big-endian integers (`put_u16`, `put_u32`, `get_u16`, `get_u32`) *)

Fixpoint be_encode (n : nat) (z : Z) : bytes :=
  match n with
  | O => []
  | S n' => be_encode n' (z / 256) ++ [Z_to_byte z]
  end.

Definition be_decode (l : bytes) : Z :=
  fold_left (fun acc b => acc * 256 + byte_to_Z b)%Z l 0%Z.

Lemma length_be_encode n z : length (be_encode n z) = n.
Proof. revert z; induction n; intros z; simpl; [done|]. rewrite length_app, IHn. simpl. lia. Qed.

Lemma be_decode_snoc l b : be_decode (l ++ [b]) = (be_decode l * 256 + byte_to_Z b)%Z.
Proof. unfold be_decode. by rewrite fold_left_app. Qed.

Lemma be_decode_encode n z : be_decode (be_encode n z) = (z mod 256 ^ Z.of_nat n)%Z.
Proof.
  revert z. induction n as [|n IH]; intros z; simpl.
  - by rewrite Z.mod_1_r.
  - rewrite be_decode_snoc, IH, byte_to_Z_to_byte.
    rewrite Nat2Z.inj_succ, Z.pow_succ_r by lia.
    rewrite (Z.rem_mul_r z 256) by lia. lia.
Qed.

Lemma be_decode_encode_u w n z :
  w = (8 * Z.of_nat n)%Z → in_u w z → be_decode (be_encode n z) = z.
Proof.
  intros -> Hz. rewrite be_decode_encode.
  replace (256 ^ Z.of_nat n)%Z with (2 ^ (8 * Z.of_nat n))%Z.
  - by apply Z.mod_small.
  - rewrite Z.pow_mul_r by lia. done.
Qed.

Lemma be_decode_range l : (0 ≤ be_decode l < 256 ^ Z.of_nat (length l))%Z.
Proof.
  induction l as [|b l IH] using rev_ind; [done|].
  rewrite be_decode_snoc, length_app; simpl.
  rewrite Nat.add_1_r, Nat2Z.inj_succ, Z.pow_succ_r by lia.
  pose proof (byte_to_Z_range b). nia.
Qed.

Lemma be_encode_decode l : be_encode (length l) (be_decode l) = l.
Proof.
  induction l as [|b l IH] using rev_ind; [done|].
  rewrite length_app, Nat.add_1_r; simpl. rewrite be_decode_snoc.
  pose proof (byte_to_Z_range b) as Hb.
  rewrite Z.div_add_l, (Z.div_small (byte_to_Z b)), Z.add_0_r, IH by lia.
  f_equal. f_equal. apply byte_to_Z_inj. rewrite byte_to_Z_to_byte.
  rewrite Z.add_comm, Z.mod_add, Z.mod_small by lia. done.
Qed.

#[global] Arguments be_encode : simpl never.
#[global] Arguments be_decode : simpl never.

#[export] Hint Rewrite length_be_encode @length_app @length_cons @length_drop
  @length_take @length_replicate : anytls_len.

(** ** Results and errors

    [std::io::Result<T>]: an [io::Error] is its kind and its message; errors
    produced by code outside the repository keep an opaque message. *)

Inductive ErrorKind : Type :=
  | BrokenPipe | WouldBlock | TimedOut | UnexpectedEof | InvalidData
  | InvalidInput | Other.

Record io_error : Type := IoError { err_kind : ErrorKind; err_msg : bytes }.

Inductive result (A : Type) : Type :=
  | Ok (a : A)
  | Err (e : io_error).
Arguments Ok {A} a.
Arguments Err {A} e.

Lemma Ok_inj {A} (a b : A) : Ok a = Ok b → a = b.
Proof. by intros [=]. Qed.

Definition err_other (s : bytes) : io_error := IoError Other s.

#[global] Instance error_kind_eq_dec : EqDecision ErrorKind.
Proof. solve_decision. Defined.
#[global] Instance io_error_eq_dec : EqDecision io_error.
Proof. solve_decision. Defined.
#[global] Instance result_eq_dec {A} `{EqDecision A} : EqDecision (result A).
Proof. solve_decision. Defined.

Definition is_ok {A} (r : result A) : bool := if r is Ok _ then true else false.

Definition map_err {A} (f : io_error → io_error) (r : result A) : result A :=
  match r with Ok a => Ok a | Err e => Err (f e) end.

(** Pure fallible code: the [?] operator is [mbind]. *)
#[global] Instance result_ret : MRet result := @Ok.
#[global] Instance result_bind : MBind result := fun A B k r =>
  match r with Ok a => k a | Err e => Err e end.

(** Fallible code over a mutable state: [?] returns early but keeps every
    update made before the failure. *)
Definition ioM (S A : Type) : Type := S → result A * S.

#[global] Instance ioM_ret {S} : MRet (ioM S) := fun A a s => (Ok a, s).
#[global] Instance ioM_bind {S} : MBind (ioM S) := fun A B k m s =>
  match m s with
  | (Ok a, s') => k a s'
  | (Err e, s') => (Err e, s')
  end.

Definition io_fail {S A} (e : io_error) : ioM S A := fun s => (Err e, s).
Definition io_get {S} : ioM S S := fun s => (Ok s, s).
Definition io_modify {S} (f : S → S) : ioM S unit := fun s => (Ok tt, f s).
Definition io_lift {S A} (r : result A) : ioM S A := fun s => (r, s).
(** [let _ = m;]: run [m] and forget whether it failed. *)
Definition io_ignore {S A} (m : ioM S A) : ioM S unit := fun s => (Ok tt, snd (m s)).

Fixpoint io_iter {S A} (f : A → ioM S unit) (l : list A) : ioM S unit :=
  match l with
  | [] => mret tt
  | a :: l' => f a ≫= fun _ => io_iter f l'
  end.

Lemma ioM_bind_ok {S A B} (k : A → ioM S B) (m : ioM S A) s b s' :
  (m ≫= k) s = (Ok b, s') ↔ ∃ a s1, m s = (Ok a, s1) ∧ k a s1 = (Ok b, s').
Proof.
  unfold mbind, ioM_bind. destruct (m s) as [[a|e] s1]; naive_solver.
Qed.

(** Running a bind whose first part is known. *)
Lemma ioM_bind_run {S A B} (k : A → ioM S B) (m : ioM S A) s a s' :
  m s = (Ok a, s') → (m ≫= k) s = k a s'.
Proof. intros H. unfold mbind, ioM_bind. by rewrite H. Qed.

Lemma ioM_bind_fail {S A B} (k : A → ioM S B) (m : ioM S A) s e s' :
  m s = (Err e, s') → (m ≫= k) s = (Err e, s').
Proof. intros H. unfold mbind, ioM_bind. by rewrite H. Qed.

(** ** Generic lemmas on lists *)

Lemma take_drop_app_length {A} (l k : list A) : take (length l) (l ++ k) = l ∧ drop (length l) (l ++ k) = k.
Proof. split; [apply take_app_length | apply drop_app_length]. Qed.

Lemma concat_snoc {A} (ls : list (list A)) (l : list A) : concat (ls ++ [l]) = concat ls ++ l.
Proof. rewrite concat_app; simpl. by rewrite app_nil_r. Qed.

(** ** Tactics *)

(** Split every conjunction and existential of the context. *)
Ltac split_ex :=
  repeat match goal with
  | H : _ ∧ _ |- _ => destruct H
  | H : ∃ _, _ |- _ => destruct H
  end.

(** Length goals: normalise with the length database, then [lia]. *)
Ltac len := autorewrite with anytls_len in *; simpl in *; lia.

(** Case analysis on the scrutinee of the first [match]/[if] of the goal. *)
Ltac case_goal :=
  match goal with
  | |- context [match ?x with _ => _ end] => destruct x eqn:?
  end.

(** The same in a hypothesis. *)
Ltac case_hyp H :=
  match type of H with
  | context [match ?x with _ => _ end] => destruct x eqn:?
  end.
