(* ===== verification/RustStr.v ===== *)
(** * The part of Rust's [str] and integer parsing the program uses

    Strings are lists of UTF-8 bytes.  Each definition is the standard-library
    routine the source calls: [String::from_utf8_lossy], [str::from_utf8],
    [str::lines], [str::split], [str::split_once], [strip_prefix],
    [strip_suffix], [trim_end_matches], [join], [parse::<uN>], [to_string],
    [eq_ignore_ascii_case], [trim]. *)

From S2P Require Import Prelude.
From Stdlib Require Import Strings.Byte.

Definition nl : byte := Byte.x0a.
Definition cr : byte := Byte.x0d.

(** ** Searching and splitting *)

(** [s.split_once(c)] for an ASCII [c]. *)
Fixpoint split_once (c : byte) (s : bytes) : option (bytes * bytes) :=
  match s with
  | [] => None
  | b :: s' =>
      if decide (b = c) then Some ([], s')
      else match split_once c s' with
           | Some (k, v) => Some (b :: k, v)
           | None => None
           end
  end.

(** [s.split(c)] for an ASCII [c]: never empty. *)
Fixpoint split (c : byte) (s : bytes) : list bytes :=
  match s with
  | [] => [[]]
  | b :: s' =>
      if decide (b = c) then [] :: split c s'
      else match split c s' with
           | w :: ws => (b :: w) :: ws
           | [] => [[b]]
           end
  end.

(** [words.join(sep)] for a one-byte separator. *)
Fixpoint join (c : byte) (ws : list bytes) : bytes :=
  match ws with
  | [] => []
  | [w] => w
  | w :: ws' => w ++ c :: join c ws'
  end.

Fixpoint strip_prefix (p s : bytes) : option bytes :=
  match p, s with
  | [], _ => Some s
  | _ :: _, [] => None
  | a :: p', b :: s' => if decide (a = b) then strip_prefix p' s' else None
  end.

Definition strip_suffix (p s : bytes) : option bytes :=
  match strip_prefix (reverse p) (reverse s) with
  | Some r => Some (reverse r)
  | None => None
  end.

Definition starts_with (p s : bytes) : bool :=
  if strip_prefix p s is Some _ then true else false.

(** [s.contains(c)] for an ASCII [c]. *)
Definition contains (c : byte) (s : bytes) : bool := bool_decide (c ∈ s).

(** [str::lines]: split at every newline, drop one carriage return before a
    newline; a last piece that no newline ends is a line only when it is not
    empty. *)
Definition strip_cr (s : bytes) : bytes := default s (strip_suffix [cr] s).

Fixpoint lines_of (segs : list bytes) : list bytes :=
  match segs with
  | [] => []
  | [last] => match last with [] => [] | _ => [last] end
  | seg :: rest => strip_cr seg :: lines_of rest
  end.

Definition lines (s : bytes) : list bytes := lines_of (split nl s).

(** ** Decimal integers *)

Definition digit_val (b : byte) : option Z :=
  let d := (byte_to_Z b - 48)%Z in
  if ((0 <=? d) && (d <=? 9))%Z then Some d else None.

(** The checked accumulation of [from_str_radix(_, 10)]: [neg] selects the
    subtracting loop of a negative literal; a step that leaves [[lo, hi]] is an
    overflow error. *)
Fixpoint parse_digits (lo hi : Z) (neg : bool) (acc : Z) (s : bytes) : option Z :=
  match s with
  | [] => Some acc
  | b :: s' =>
      d ← digit_val b;
      let m := (acc * 10)%Z in
      if ((lo <=? m) && (m <=? hi))%Z then
        let r := if neg then (m - d)%Z else (m + d)%Z in
        if ((lo <=? r) && (r <=? hi))%Z then parse_digits lo hi neg r s' else None
      else None
  end.

(** [s.parse::<T>().ok()] for an unsigned [T] with maximum [hi]. *)
Definition parse_unsigned (hi : Z) (s : bytes) : option Z :=
  match s with
  | [] => None
  | b :: s' =>
      if decide (b = "+"%byte) then
        match s' with [] => None | _ => parse_digits 0 hi false 0 s' end
      else parse_digits 0 hi false 0 s
  end.

(** [s.parse::<T>().ok()] for a signed [T] with range [[lo, hi]]. *)
Definition parse_signed (lo hi : Z) (s : bytes) : option Z :=
  match s with
  | [] => None
  | b :: s' =>
      if decide (b = "+"%byte) then
        match s' with [] => None | _ => parse_digits lo hi false 0 s' end
      else if decide (b = "-"%byte) then
        match s' with [] => None | _ => parse_digits lo hi true 0 s' end
      else parse_digits lo hi false 0 s
  end.

Definition parse_u8 : bytes → option Z := parse_unsigned u8_max.
Definition parse_u16 : bytes → option Z := parse_unsigned u16_max.
Definition parse_u32 : bytes → option Z := parse_unsigned u32_max.
Definition parse_i64 : bytes → option Z := parse_signed i64_min i64_max.

(** [z.to_string()] of an unsigned integer.  The fuel bounds the number of
    decimal digits by the number of binary ones. *)
Definition digit_byte (d : Z) : byte := Z_to_byte (d + 48).

Fixpoint dec_go (fuel : nat) (z : Z) : bytes :=
  match fuel with
  | O => []
  | S f =>
      if (z <? 10)%Z then [digit_byte z]
      else dec_go f (z / 10)%Z ++ [digit_byte (z mod 10)%Z]
  end.

Definition to_dec (z : Z) : bytes := dec_go (S (Z.to_nat (Z.log2 z))) z.

(** ** UTF-8 *)

Definition zget (i : nat) (l : bytes) : Z :=
  match l !! i with Some b => byte_to_Z b | None => 0%Z end.

Definition is_cont (z : Z) : bool := ((128 <=? z) && (z <? 192))%Z.

Definition between (lo hi z : Z) : bool := ((lo <=? z) && (z <=? hi))%Z.

(** The second byte allowed after the first byte of a three-byte and of a
    four-byte sequence. *)
Definition second3 (c d : Z) : bool :=
  if (c =? 224)%Z then between 160 191 d
  else if (c =? 237)%Z then between 128 159 d
  else between 128 191 d.

Definition second4 (c d : Z) : bool :=
  if (c =? 240)%Z then between 144 191 d
  else if (c =? 244)%Z then between 128 143 d
  else between 128 191 d.

(** One step of the UTF-8 scanner at first byte [b0]: is the sequence well
    formed, and how many bytes after [b0] belong to it (for an ill-formed one,
    to its maximal prefix). *)
Definition utf8_scan (b0 : byte) (rest : bytes) : bool * nat :=
  let c := byte_to_Z b0 in
  if (c <? 128)%Z then (true, 0)
  else if between 194 223 c then
    if is_cont (zget 0 rest) then (true, 1) else (false, 0)
  else if between 224 239 c then
    if second3 c (zget 0 rest) then
      if is_cont (zget 1 rest) then (true, 2) else (false, 1)
    else (false, 0)
  else if between 240 244 c then
    if second4 c (zget 0 rest) then
      if is_cont (zget 1 rest) then
        if is_cont (zget 2 rest) then (true, 3) else (false, 2)
      else (false, 1)
    else (false, 0)
  else (false, 0).

(** U+FFFD, the replacement character. *)
Definition replacement : bytes := [Byte.xef; Byte.xbf; Byte.xbd].

(** [String::from_utf8_lossy]: [k] more bytes of the current sequence are
    copied or dropped. *)
Fixpoint lossy_go (copy : bool) (k : nat) (s : bytes) : bytes :=
  match s with
  | [] => []
  | b :: s' =>
      match k with
      | S k' => (if copy then [b] else []) ++ lossy_go copy k' s'
      | O =>
          match utf8_scan b s' with
          | (true, n) => b :: lossy_go true n s'
          | (false, n) => replacement ++ lossy_go false n s'
          end
      end
  end.

Definition from_utf8_lossy (s : bytes) : bytes := lossy_go false 0 s.

(** [str::from_utf8(s).is_ok()]. *)
Fixpoint utf8_valid_go (k : nat) (s : bytes) : bool :=
  match s with
  | [] => true
  | b :: s' =>
      match k with
      | S k' => utf8_valid_go k' s'
      | O => let '(ok, n) := utf8_scan b s' in ok && utf8_valid_go n s'
      end
  end.

Definition utf8_valid (s : bytes) : bool := utf8_valid_go 0 s.

(** ** ASCII case *)

Definition to_ascii_lowercase (b : byte) : byte :=
  let z := byte_to_Z b in
  if between 65 90 z then Z_to_byte (z + 32) else b.

Definition eq_ignore_ascii_case (s t : bytes) : bool :=
  bool_decide (to_ascii_lowercase <$> s = to_ascii_lowercase <$> t).

(** [s.trim_end_matches(c)] for an ASCII [c]. *)
Fixpoint drop_while (c : byte) (s : bytes) : bytes :=
  match s with
  | [] => []
  | b :: s' => if decide (b = c) then drop_while c s' else s
  end.

Definition trim_end_matches (c : byte) (s : bytes) : bytes :=
  reverse (drop_while c (reverse s)).

(** ** Lemmas: splitting *)

Lemma split_once_spec c s k v :
  split_once c s = Some (k, v) ↔ s = k ++ c :: v ∧ c ∉ k.
Proof.
  revert k v. induction s as [|b s IH]; intros k v; simpl.
  - split; [done|]. intros [H _]. by destruct k.
  - case_decide as Hb.
    + subst b. split.
      * intros [= <- <-]. split; [done|]. apply not_elem_of_nil.
      * intros [H Hc]. destruct k as [|x k]; simplify_eq/=; [done|].
        exfalso. apply Hc. left.
    + split.
      * destruct (split_once c s) as [[k' v']|] eqn:E; [|done].
        intros [= <- <-]. destruct (proj1 (IH k' v') eq_refl) as [-> Hc]. split; [done|].
        apply not_elem_of_cons. naive_solver.
      * intros [H Hc]. destruct k as [|x k]; simplify_eq/=.
        apply not_elem_of_cons in Hc as [? Hc].
        by rewrite (proj2 (IH k v)).
Qed.

Lemma split_once_None c s : split_once c s = None ↔ c ∉ s.
Proof.
  induction s as [|b s IH]; simpl.
  - split; [intros _; apply not_elem_of_nil|done].
  - rewrite not_elem_of_cons. case_decide as Hb; [naive_solver|].
    destruct (split_once c s) as [[? ?]|] eqn:E; naive_solver.
Qed.

Lemma split_no_sep c w : c ∉ w → split c w = [w].
Proof.
  induction w as [|b w IH]; [done|]. rewrite not_elem_of_cons. intros [? Hw]. simpl.
  rewrite decide_False by congruence. by rewrite IH.
Qed.

Lemma split_app_sep c w s : c ∉ w → split c (w ++ c :: s) = w :: split c s.
Proof.
  induction w as [|b w IH]; simpl; intros Hw.
  - by rewrite decide_True.
  - apply not_elem_of_cons in Hw as [? Hw].
    rewrite decide_False by congruence. by rewrite IH.
Qed.

Lemma split_join c ws : ws ≠ [] → Forall (fun w => c ∉ w) ws → split c (join c ws) = ws.
Proof.
  induction ws as [|w [|w' ws] IH]; intros Hne Hall; [done| |].
  - inversion Hall; subst; simpl. by apply split_no_sep.
  - inversion Hall as [|? ? Hw Hrest]; subst.
    change (join c (w :: w' :: ws)) with (w ++ c :: join c (w' :: ws)).
    rewrite split_app_sep by done. by rewrite IH.
Qed.

Lemma strip_prefix_spec p s r : strip_prefix p s = Some r ↔ s = p ++ r.
Proof.
  revert s. induction p as [|a p IH]; intros s; simpl; [naive_solver|].
  destruct s as [|b s]; [naive_solver|]. case_decide; [|naive_solver].
  subst. rewrite IH. naive_solver.
Qed.

Lemma strip_suffix_spec p s r : strip_suffix p s = Some r ↔ s = r ++ p.
Proof.
  unfold strip_suffix. destruct (strip_prefix _ _) as [q|] eqn:E.
  - apply strip_prefix_spec in E. apply (f_equal reverse) in E.
    rewrite reverse_involutive, reverse_app, reverse_involutive in E. subst s.
    split; [intros [= <-]; done|].
    intros H. apply app_inv_tail in H. by subst.
  - split; [done|]. intros ->. exfalso.
    assert (strip_prefix (reverse p) (reverse (r ++ p)) = Some (reverse r)) as H.
    { apply strip_prefix_spec. by rewrite reverse_app. }
    congruence.
Qed.

Lemma strip_cr_id s : last s ≠ Some cr → strip_cr s = s.
Proof.
  intros H. unfold strip_cr. destruct (strip_suffix [cr] s) as [r|] eqn:E; [|done].
  apply strip_suffix_spec in E. subst s. by rewrite last_snoc in H.
Qed.

(** The lines of joined words are the words. *)
Lemma lines_join ws :
  Forall (fun w => w ≠ [] ∧ nl ∉ w ∧ last w ≠ Some cr) ws →
  lines (join nl ws) = ws.
Proof.
  intros Hall. destruct ws as [|w ws]; [done|].
  unfold lines. rewrite split_join; [|done|].
  2:{ eapply Forall_impl; [exact Hall|]. naive_solver. }
  induction Hall as [|x l (Hx & _ & Hcr) Hall IH]; [done|].
  destruct l as [|y l]; simpl.
  - by destruct x.
  - rewrite strip_cr_id by done. f_equal. apply IH.
Qed.

(** ** Lemmas: decimal integers *)

Lemma digit_val_byte d : (0 ≤ d ≤ 9)%Z → digit_val (digit_byte d) = Some d.
Proof.
  intros H. unfold digit_val, digit_byte. rewrite byte_to_Z_to_byte, Z.mod_small by lia.
  replace (d + 48 - 48)%Z with d by lia.
  by rewrite (proj2 (Z.leb_le 0 d)), (proj2 (Z.leb_le d 9)) by lia.
Qed.

Lemma digit_byte_cases d : (0 ≤ d ≤ 9)%Z → digit_byte d ∈ str "0123456789".
Proof.
  intros H. assert (d = 0 ∨ d = 1 ∨ d = 2 ∨ d = 3 ∨ d = 4 ∨ d = 5 ∨ d = 6 ∨ d = 7 ∨ d = 8 ∨ d = 9)%Z as Hd by lia.
  destruct_or! Hd; subst d; vm_compute; repeat constructor.
Qed.

Lemma parse_digits_app lo hi neg acc s t :
  parse_digits lo hi neg acc (s ++ t) =
  match parse_digits lo hi neg acc s with
  | Some a => parse_digits lo hi neg a t
  | None => None
  end.
Proof.
  revert acc. induction s as [|b s IH]; intros acc; simpl; [done|].
  destruct (digit_val b); simpl; [|done]. do 2 (case_match; [|done]). apply IH.
Qed.

Lemma parse_digits_range lo hi neg acc s z :
  (lo ≤ acc ≤ hi)%Z → parse_digits lo hi neg acc s = Some z → (lo ≤ z ≤ hi)%Z.
Proof.
  revert acc. induction s as [|b s IH]; intros acc Hacc; simpl; [naive_solver|].
  destruct (digit_val b) as [d|]; simpl; [|done].
  case_match; [|done]. case_match eqn:E; [|done].
  apply andb_true_iff in E as [E1%Z.leb_le E2%Z.leb_le]. by apply IH.
Qed.

Lemma parse_unsigned_range hi s z :
  (0 ≤ hi)%Z → parse_unsigned hi s = Some z → (0 ≤ z ≤ hi)%Z.
Proof.
  intros Hhi. unfold parse_unsigned. destruct s as [|b s]; [done|].
  case_decide; [destruct s; [done|]|]; apply parse_digits_range; lia.
Qed.

Lemma dec_go_parse fuel hi z :
  (0 ≤ z ≤ hi)%Z → (z < 2 ^ Z.of_nat fuel)%Z →
  parse_digits 0 hi false 0 (dec_go fuel z) = Some z.
Proof.
  revert z. induction fuel as [|f IH]; intros z Hz Hf; [simpl in *; f_equal; lia|].
  simpl. destruct (Z.ltb_spec z 10).
  - simpl. rewrite digit_val_byte by lia. simpl.
    by rewrite !(proj2 (Z.leb_le _ _)) by lia.
  - rewrite parse_digits_app, IH.
    + pose proof (Z.div_mod z 10). pose proof (Z.mod_pos_bound z 10).
      simpl. rewrite digit_val_byte by lia. simpl.
      rewrite !(proj2 (Z.leb_le _ _)) by lia. f_equal. lia.
    + split; [apply Z.div_pos; lia|]. apply Z.div_le_upper_bound; lia.
    + rewrite Nat2Z.inj_succ, Z.pow_succ_r in Hf by lia.
      apply Z.div_lt_upper_bound; lia.
Qed.

Lemma dec_go_digits fuel z :
  (0 ≤ z)%Z → Forall (fun b => b ∈ str "0123456789") (dec_go fuel z).
Proof.
  revert z. induction fuel as [|f IH]; intros z Hz; [constructor|]. simpl.
  destruct (Z.ltb_spec z 10).
  - apply Forall_singleton, digit_byte_cases. lia.
  - apply Forall_app; split; [apply IH, Z.div_pos; lia|].
    apply Forall_singleton, digit_byte_cases.
    pose proof (Z.mod_pos_bound z 10). lia.
Qed.

Lemma to_dec_digits z : (0 ≤ z)%Z → Forall (fun b => b ∈ str "0123456789") (to_dec z).
Proof. apply dec_go_digits. Qed.

Lemma to_dec_nonempty z : to_dec z ≠ [].
Proof.
  unfold to_dec. simpl. destruct (z <? 10)%Z; [done|]. by destruct (dec_go _ _).
Qed.

(** Parsing the printed form of an integer gives it back. *)
Lemma parse_to_dec hi z : (0 ≤ z ≤ hi)%Z → parse_unsigned hi (to_dec z) = Some z.
Proof.
  intros Hz. assert (parse_digits 0 hi false 0 (to_dec z) = Some z) as Hp.
  { apply dec_go_parse; [done|]. rewrite Nat2Z.inj_succ, Z2Nat.id by apply Z.log2_nonneg.
    destruct (Z.eq_dec z 0) as [->|]; [done|]. apply Z.log2_spec. lia. }
  unfold parse_unsigned. pose proof (to_dec_nonempty z) as Hne.
  pose proof (to_dec_digits z (proj1 Hz)) as Hd.
  destruct (to_dec z) as [|b s] eqn:E; [done|].
  inversion Hd as [|? ? Hb _]; subst. case_decide as Hplus; [|done].
  subst b. exfalso. revert Hb. apply (bool_decide_unpack (¬ ("+"%byte ∈ str "0123456789"))). done.
Qed.

(** ** Lemmas: UTF-8 *)

Lemma zget_app_l i l t : i < length l → zget i (l ++ t) = zget i l.
Proof. intros. unfold zget. by rewrite lookup_app_l. Qed.

Lemma zget_pos i l : zget i l ≠ 0%Z → i < length l.
Proof.
  unfold zget. destruct (l !! i) eqn:E; [|done]. intros _. by eapply lookup_lt_Some.
Qed.

Lemma is_cont_len i l : is_cont (zget i l) = true → i < length l.
Proof.
  unfold is_cont. rewrite andb_true_iff, Z.leb_le. intros [H _].
  apply zget_pos. lia.
Qed.

Lemma second3_len i c l : second3 c (zget i l) = true → i < length l.
Proof.
  unfold second3, between. intros H. apply zget_pos.
  repeat case_match; apply andb_true_iff in H as [H _]; apply Z.leb_le in H; lia.
Qed.

Lemma second4_len i c l : second4 c (zget i l) = true → i < length l.
Proof.
  unfold second4, between. intros H. apply zget_pos.
  repeat case_match; apply andb_true_iff in H as [H _]; apply Z.leb_le in H; lia.
Qed.

(** A well-formed sequence lies inside the string and its recognition only
    looks at its own bytes. *)
Lemma utf8_scan_ok b s n :
  utf8_scan b s = (true, n) →
  n ≤ length s ∧ ∀ t, take n t = take n s → n ≤ length t → utf8_scan b t = (true, n).
Proof.
  intros H.
  assert (∀ i t, take n t = take n s → i < n → zget i t = zget i s) as Hz.
  { intros i t Ht Hi. unfold zget.
    by rewrite <- (lookup_take_lt t n i), <- (lookup_take_lt s n i), Ht by lia. }
  unfold utf8_scan in *.
  repeat match type of H with
  | (if ?c then _ else _) = _ => destruct c eqn:?
  | (_, _) = (_, _) => inversion H; subst; clear H
  end;
  repeat match goal with
  | E : is_cont (zget _ _) = true |- _ => pose proof (is_cont_len _ _ E); revert E
  | E : second3 _ (zget _ _) = true |- _ => pose proof (second3_len _ _ _ E); revert E
  | E : second4 _ (zget _ _) = true |- _ => pose proof (second4_len _ _ _ E); revert E
  end; intros; (split; [lia|]); intros t Ht _; rewrite ?(Hz _ t Ht) by lia;
  by repeat match goal with E : _ = true |- _ => rewrite E end.
Qed.

Lemma utf8_valid_lossy_go k s : utf8_valid_go k s = true → lossy_go true k s = s.
Proof.
  revert k. induction s as [|b s IH]; intros k H; [done|]. simpl in *.
  destruct k as [|k]; simpl; [|by rewrite IH].
  destruct (utf8_scan b s) as [[] n]; [|done]. by rewrite IH.
Qed.

(** Lossy decoding does not change a valid string. *)
Lemma from_utf8_lossy_valid s : utf8_valid s = true → from_utf8_lossy s = s.
Proof.
  intros H. unfold from_utf8_lossy, utf8_valid in *. destruct s as [|b s]; [done|].
  simpl in *. destruct (utf8_scan b s) as [[] n]; [|done].
  by rewrite utf8_valid_lossy_go.
Qed.

Lemma utf8_valid_go_app k s t :
  k ≤ length s → utf8_valid_go k s = true → utf8_valid t = true →
  utf8_valid_go k (s ++ t) = true.
Proof.
  revert k. induction s as [|b s IH]; intros k Hk Hs Ht; simpl in *.
  - by replace k with 0 by lia.
  - destruct k as [|k]; [|apply IH; auto; lia].
    destruct (utf8_scan b s) as [[] n] eqn:E; [|done].
    apply utf8_scan_ok in E as [Hn E].
    rewrite (E (s ++ t)); [|by rewrite take_app_le|rewrite length_app; lia].
    simpl. by apply IH.
Qed.

Lemma utf8_valid_app s t :
  utf8_valid s = true → utf8_valid t = true → utf8_valid (s ++ t) = true.
Proof. intros. apply utf8_valid_go_app; [lia|done..]. Qed.

Definition ascii_only (s : bytes) : bool := forallb (fun b => byte_to_Z b <? 128)%Z s.

Lemma utf8_valid_ascii s : ascii_only s = true → utf8_valid s = true.
Proof.
  unfold utf8_valid, ascii_only. induction s as [|b s IH]; [done|]. simpl.
  rewrite andb_true_iff. intros [Hb Hs]. unfold utf8_scan. rewrite Hb. simpl. auto.
Qed.

Lemma utf8_valid_cons_ascii b s :
  (byte_to_Z b <? 128)%Z = true → utf8_valid s = true → utf8_valid (b :: s) = true.
Proof. intros Hb Hs. unfold utf8_valid. simpl. unfold utf8_scan. by rewrite Hb. Qed.

Lemma utf8_valid_join c ws :
  (byte_to_Z c <? 128)%Z = true → Forall (fun w => utf8_valid w = true) ws →
  utf8_valid (join c ws) = true.
Proof.
  intros Hc. induction ws as [|w [|w' ws] IH]; intros Hall; [done| |].
  - by inversion Hall.
  - inversion Hall; subst. change (join c (w :: w' :: ws)) with (w ++ c :: join c (w' :: ws)).
    apply utf8_valid_app; [done|]. apply utf8_valid_cons_ascii; auto.
Qed.

Lemma take_lossy_go n s : n ≤ length s → take n (lossy_go true n s) = take n s ∧ n ≤ length (lossy_go true n s).
Proof.
  revert n. induction s as [|b s IH]; intros n Hn; simpl in *.
  - by replace n with 0 by lia.
  - destruct n as [|n]; simpl; [split; [done|lia]|].
    destruct (IH n) as [H1 H2]; [lia|]. rewrite H1. split; [done|lia].
Qed.

Lemma lossy_go_valid copy k s :
  k ≤ length s ∨ copy = false →
  utf8_valid_go (if copy then k else 0) (lossy_go copy k s) = true.
Proof.
  revert copy k. induction s as [|b s IH]; intros copy k Hk; simpl in *; [done|].
  destruct k as [|k].
  - replace (if copy then 0 else 0) with 0 by by destruct copy.
    destruct (utf8_scan b s) as [[] n] eqn:E.
    + apply utf8_scan_ok in E as [Hn E]. simpl.
      destruct (take_lossy_go n s Hn) as [H1 H2]. rewrite (E _ H1 H2). simpl.
      apply (IH true n). by left.
    + apply (utf8_valid_app replacement); [done|]. apply (IH false n). by right.
  - destruct copy; simpl.
    + apply (IH true k). destruct Hk; [left; lia|done].
    + apply (IH false k). by right.
Qed.

(** The result of a lossy decoding is a valid string. *)
Lemma from_utf8_lossy_is_valid s : utf8_valid (from_utf8_lossy s) = true.
Proof. apply (lossy_go_valid false 0 s). by right. Qed.

(** ** [str::trim]

    The characters of the Unicode property White_Space, as their UTF-8 bytes. *)
Definition ws_chars : list bytes :=
  [ [Byte.x09]; [Byte.x0a]; [Byte.x0b]; [Byte.x0c]; [Byte.x0d]; [Byte.x20];
    [Byte.xc2; Byte.x85]; [Byte.xc2; Byte.xa0]; [Byte.xe1; Byte.x9a; Byte.x80];
    [Byte.xe2; Byte.x80; Byte.x80]; [Byte.xe2; Byte.x80; Byte.x81]; [Byte.xe2; Byte.x80; Byte.x82];
    [Byte.xe2; Byte.x80; Byte.x83]; [Byte.xe2; Byte.x80; Byte.x84]; [Byte.xe2; Byte.x80; Byte.x85];
    [Byte.xe2; Byte.x80; Byte.x86]; [Byte.xe2; Byte.x80; Byte.x87]; [Byte.xe2; Byte.x80; Byte.x88];
    [Byte.xe2; Byte.x80; Byte.x89]; [Byte.xe2; Byte.x80; Byte.x8a]; [Byte.xe2; Byte.x80; Byte.xa8];
    [Byte.xe2; Byte.x80; Byte.xa9]; [Byte.xe2; Byte.x80; Byte.xaf]; [Byte.xe2; Byte.x81; Byte.x9f];
    [Byte.xe3; Byte.x80; Byte.x80] ].

(** Strip the first of [ps] that is a prefix. *)
Fixpoint strip_any (ps : list bytes) (s : bytes) : option bytes :=
  match ps with
  | [] => None
  | p :: ps' => match strip_prefix p s with Some r => Some r | None => strip_any ps' s end
  end.

Fixpoint strip_all (fuel : nat) (ps : list bytes) (s : bytes) : bytes :=
  match fuel with
  | O => s
  | S f => match strip_any ps s with Some r => strip_all f ps r | None => s end
  end.

(** Every step removes at least one byte, so the length is fuel enough. *)
Definition trim_start (s : bytes) : bytes := strip_all (length s) ws_chars s.
Definition trim_end (s : bytes) : bytes := reverse (strip_all (length s) (reverse <$> ws_chars) (reverse s)).
Definition trim (s : bytes) : bytes := trim_end (trim_start s).

Lemma strip_any_head ps s :
  (∀ b, head s = Some b → Forall (fun p => p ≠ [] ∧ head p ≠ Some b) ps) → s ≠ [] → strip_any ps s = None.
Proof.
  intros Hh Hs. destruct s as [|b s]; [done|]. specialize (Hh b eq_refl).
  induction Hh as [|p ps [Hp Hb] _ IH]; [done|]. simpl.
  destruct p as [|c p]; [done|]. simpl in *. by rewrite decide_False by congruence.
Qed.

(** A string whose first and last byte belong to no white space is trimmed to itself. *)
Lemma trim_id s :
  (∀ b, head s = Some b ∨ last s = Some b → b ∉ concat ws_chars) → trim s = s.
Proof.
  intros H. destruct (decide (s = [])) as [->|Hs]; [done|].
  assert (∀ ps, Forall (fun p => p ≠ [] ∧ ∀ b, head p = Some b → b ∈ concat ws_chars) ps →
    ∀ t, t ≠ [] → (∀ b, head t = Some b → b ∉ concat ws_chars) → strip_all (length t) ps t = t) as Hall.
  { intros ps Hps t Ht Hb. destruct t as [|c t]; [done|]. simpl.
    rewrite strip_any_head; [done| |done]. intros b Hc. eapply Forall_impl; [exact Hps|].
    intros p [? Hp]. split; [done|]. intros Hp'. by apply (Hb b), Hp. }
  unfold trim, trim_end, trim_start.
  assert (Forall (fun p => p ≠ [] ∧ ∀ b, head p = Some b → b ∈ concat ws_chars) ws_chars ∧
          Forall (fun p => p ≠ [] ∧ ∀ b, head p = Some b → b ∈ concat ws_chars) (reverse <$> ws_chars)) as [H1 H2].
  { assert (∀ ps, forallb (fun p => if head p is Some b then bool_decide (b ∈ concat ws_chars) else false) ps = true →
      Forall (fun p => p ≠ [] ∧ ∀ b, head p = Some b → b ∈ concat ws_chars) ps) as Hb.
    { intros ps Hps. apply Forall_forall. intros p Hp.
      pose proof (proj1 (forallb_forall _ ps) Hps p (proj1 (list_elem_of_In _ _) Hp)) as Hb.
      destruct p as [|b p]; simpl in Hb; [done|]. split; [done|]. intros ? [= <-]. by apply bool_decide_eq_true in Hb. }
    split; apply Hb; by vm_compute. }
  rewrite (Hall ws_chars) by (try done; intros b Hb; apply H; by left).
  rewrite <- (length_reverse s), (Hall (reverse <$> ws_chars)); [apply reverse_involutive|done| |].
  - intros Hr. apply Hs. by rewrite <- (reverse_involutive s), Hr.
  - intros b Hb. apply H. right. by rewrite <- head_reverse.
Qed.

(** Trailing bytes equal to [c] only. *)
Lemma trim_end_matches_replicate c n : trim_end_matches c (replicate n c) = [].
Proof.
  unfold trim_end_matches. rewrite reverse_replicate.
  induction n as [|n IH]; [done|]. simpl. by rewrite decide_True.
Qed.

Lemma trim_end_matches_id c s : last s ≠ Some c → trim_end_matches c s = s.
Proof.
  intros H. unfold trim_end_matches. rewrite <- head_reverse in H.
  destruct (reverse s) as [|b t] eqn:E; simpl in *.
  - apply (f_equal reverse) in E. by rewrite reverse_involutive in E.
  - rewrite decide_False by congruence. by rewrite <- E, reverse_involutive.
Qed.
