(* ===== verification/StringMap.v ===== *)
(** * Settings maps ([src/core/string_map.rs])

    A [HashMap<String, String>] written as [key=value] lines.  The order in
    which a hash map is iterated is not specified, so the serialiser is stated
    over an arbitrary order ([IterOrder]). *)

From S2P Require Import Prelude RustStr.
From Stdlib Require Import Strings.Byte.

Abbreviation StringMap := (gmap bytes bytes).

(** [HashMap::iter]: every entry exactly once, in any order. *)
Class IterOrder : Type := {
  iter_order : StringMap → list (bytes * bytes);
  iter_order_perm : ∀ m, iter_order m ≡ₚ map_to_list m;
}.

(** One order that exists: that of the map's own representation. *)
Definition map_order : IterOrder :=
  {| iter_order := map_to_list; iter_order_perm := fun m => reflexivity _ |}.

(** The opposite order, for checking that results do not depend on it. *)
Program Definition rev_order : IterOrder :=
  {| iter_order := fun m => reverse (map_to_list m) |}.
Next Obligation. intros m. simpl. apply reverse_Permutation. Qed.

(** [format!("{}={}", k, v)]. *)
Definition entry_line (kv : bytes * bytes) : bytes := kv.1 ++ "="%byte :: kv.2.

(** [StringMapExt::to_bytes]. *)
Definition to_bytes `{IterOrder} (m : StringMap) : bytes :=
  join nl (entry_line <$> iter_order m).

(** The loop body of [StringMapExt::from_bytes]. *)
Definition insert_line (m : StringMap) (line : bytes) : StringMap :=
  match split_once "="%byte line with
  | Some (key, value) => <[key := value]> m
  | None => m
  end.

(** [StringMapExt::from_bytes]. *)
Definition from_bytes (data : bytes) : StringMap :=
  foldl insert_line ∅ (lines (from_utf8_lossy data)).

(** An entry that survives a round trip: the key has no ['='], neither side a
    newline, the value does not end in a carriage return. *)
Definition clean_entry (k v : bytes) : Prop :=
  "="%byte ∉ k ∧ nl ∉ k ∧ nl ∉ v ∧ last v ≠ Some cr ∧
  utf8_valid k = true ∧ utf8_valid v = true.

#[global] Instance clean_entry_dec k v : Decision (clean_entry k v).
Proof. unfold clean_entry. apply _. Defined.

Definition clean_map (m : StringMap) : Prop := map_Forall clean_entry m.

#[global] Instance clean_map_dec m : Decision (clean_map m).
Proof. unfold clean_map. apply _. Defined.

(** ** Lemmas *)

Lemma insert_line_entry m k v :
  "="%byte ∉ k → insert_line m (entry_line (k, v)) = <[k := v]> m.
Proof.
  intros Hk. unfold insert_line, entry_line; simpl.
  by rewrite (proj2 (split_once_spec "="%byte (k ++ "="%byte :: v) k v)).
Qed.

Lemma clean_entry_line k v :
  clean_entry k v →
  entry_line (k, v) ≠ [] ∧ nl ∉ entry_line (k, v) ∧ last (entry_line (k, v)) ≠ Some cr
  ∧ utf8_valid (entry_line (k, v)) = true.
Proof.
  intros (Hk & Hnk & Hnv & Hcr & Uk & Uv). unfold entry_line; simpl. split_and!.
  - by destruct k.
  - rewrite elem_of_app, elem_of_cons. intros [?|[H|?]]; [done|by vm_compute in H|done].
  - rewrite last_app_cons. destruct v as [|x v]; [done|by rewrite last_cons_cons].
  - apply utf8_valid_app; [done|]. by apply utf8_valid_cons_ascii.
Qed.

Lemma foldl_insert_entries l :
  Forall (fun kv => clean_entry kv.1 kv.2) l → ∀ m,
  foldl insert_line m (entry_line <$> l) = foldl (fun m kv => <[kv.1 := kv.2]> m) m l.
Proof.
  induction 1 as [|[k v] l Hkv _ IH]; intros m; simpl; [done|].
  rewrite insert_line_entry by apply Hkv. apply IH.
Qed.

Lemma foldl_insert_list_to_map (l : list (bytes * bytes)) (m : StringMap) :
  foldl (fun m kv => <[kv.1 := kv.2]> m) m l = list_to_map (reverse l) ∪ m.
Proof.
  revert m. induction l as [|[k v] l IH]; intros m; simpl.
  - by rewrite (left_id_L ∅ (∪)).
  - rewrite IH, reverse_cons, list_to_map_app; simpl.
    by rewrite insert_empty, <- (assoc_L (∪)), <- insert_union_singleton_l.
Qed.

(** A hash map serialised in any iteration order and read back is the same map. *)
Lemma map_from_to_bytes `{IterOrder} m : clean_map m → from_bytes (to_bytes m) = m.
Proof.
  intros Hm. pose proof (iter_order_perm m) as Hp.
  assert (Forall (fun kv => clean_entry kv.1 kv.2) (iter_order m)) as Hc.
  { rewrite Hp. apply Forall_forall. intros [k v] Hkv%elem_of_map_to_list. by apply Hm. }
  unfold from_bytes, to_bytes.
  rewrite from_utf8_lossy_valid, lines_join.
  - rewrite foldl_insert_entries by done.
    rewrite foldl_insert_list_to_map, (right_id_L ∅ (∪)).
    rewrite <- (list_to_map_to_list m) at 2. apply list_to_map_proper.
    + rewrite fmap_reverse, reverse_Permutation, Hp. apply NoDup_fst_map_to_list.
    + by rewrite reverse_Permutation.
  - apply Forall_fmap. eapply Forall_impl; [exact Hc|].
    intros [k v] (? & ? & ? & _)%clean_entry_line. done.
  - apply utf8_valid_join; [done|]. apply Forall_fmap. eapply Forall_impl; [exact Hc|].
    intros [k v] (_ & _ & _ & ?)%clean_entry_line. done.
Qed.

(** ** Properties *)

(** A settings map survives the wire: written in whatever order the sender's
    hash map iterates and parsed by the receiver, it is the same map, whenever
    its entries are free of the format's separators. *)
Theorem settings_map_roundtrip (O : IterOrder) m :
  clean_map m → from_bytes (to_bytes m) = m.
Proof. apply map_from_to_bytes. Qed.

Lemma settings_map_roundtrip_witness :
  let m : StringMap := {[ str "v" := str "2"; str "client" := str "anytls/0.4.0"; str "pad" := str "a=b" ]} in
  from_bytes (to_bytes (H := rev_order) m) = m.
Proof.
  intros m. apply (settings_map_roundtrip rev_order). apply (bool_decide_unpack _). vm_compute. done.
Defined.
