(* ===== verification/Frame.v ===== *)
(** * Frames ([src/core/frame.rs]) and the receive buffer

    A frame is [command : u8][sid : u32be][length : u16be][data].  [drain] is
    the inner loop of [Session::recv_loop] ([src/proxy/session/inner.rs]),
    which cuts complete frames off the front of the pending bytes. *)

From S2P Require Import Prelude.
From Stdlib Require Import Strings.Byte.

(** [HEADER_OVERHEAD_SIZE]. *)
Definition HEADER_OVERHEAD_SIZE : nat := 1 + 4 + 2.

Inductive Command : Type :=
  | Waste | Syn | Psh | Fin | Settings | Alert | UpdatePaddingScheme | SynAck
  | HeartRequest | HeartResponse | ServerSettings
  | Unknown (value : byte).

#[global] Instance command_eq_dec : EqDecision Command.
Proof. solve_decision. Defined.

(** [impl From<u8> for Command]. *)
Definition Command_from (value : byte) : Command :=
  match byte_to_Z value with
  | 0%Z => Waste | 1%Z => Syn | 2%Z => Psh | 3%Z => Fin | 4%Z => Settings
  | 5%Z => Alert | 6%Z => UpdatePaddingScheme | 7%Z => SynAck
  | 8%Z => HeartRequest | 9%Z => HeartResponse | 10%Z => ServerSettings
  | _ => Unknown value
  end.

(** [impl From<Command> for u8]. *)
Definition u8_from (cmd : Command) : byte :=
  match cmd with
  | Waste => Byte.x00 | Syn => Byte.x01 | Psh => Byte.x02 | Fin => Byte.x03
  | Settings => Byte.x04 | Alert => Byte.x05 | UpdatePaddingScheme => Byte.x06
  | SynAck => Byte.x07 | HeartRequest => Byte.x08 | HeartResponse => Byte.x09
  | ServerSettings => Byte.x0a
  | Unknown value => value
  end.

Record Frame : Type := mkFrame { cmd : Command; sid : Z; data : bytes }.

#[global] Instance frame_eq_dec : EqDecision Frame.
Proof. solve_decision. Defined.

(** [Frame::new] and [Frame::with_data]. *)
Definition Frame_new (c : Command) (s : Z) : Frame := mkFrame c s [].
Definition Frame_with_data (c : Command) (s : Z) (d : bytes) : Frame := mkFrame c s d.

(** [Frame::to_bytes]; [self.data.len() as u16] drops the high bits. *)
Definition to_bytes (f : Frame) : bytes :=
  [u8_from (cmd f)] ++ be_encode 4 (sid f)
  ++ be_encode 2 (wrap 16 (Z.of_nat (length (data f)))) ++ data f.

Record RawHeader : Type := mkHeader { h_cmd : Command; h_sid : Z; h_length : Z }.

(** [RawHeader::from_bytes]. *)
Definition RawHeader_from_bytes (s : bytes) : option RawHeader :=
  if decide (length s < HEADER_OVERHEAD_SIZE) then None
  else
    let c := Command_from (default Byte.x00 (head s)) in
    let sid := be_decode (take 4 (drop 1 s)) in
    let len := be_decode (take 2 (drop 5 s)) in
    Some (mkHeader c sid len).

(** [Frame::from_bytes]. *)
Definition from_bytes (s : bytes) : option Frame :=
  header ← RawHeader_from_bytes s;
  let length' := Z.to_nat (h_length header) in
  let rest := drop HEADER_OVERHEAD_SIZE s in
  if decide (length rest < length') then None
  else Some (mkFrame (h_cmd header) (h_sid header) (take length' rest)).

(** The [while let Some(frame) = Frame::from_bytes(&pending)] loop: the frames
    it takes and the bytes it leaves.  A frame takes at least seven bytes, so
    [length s] rounds are enough (see [drain_done]). *)
Fixpoint drain_go (fuel : nat) (s : bytes) : list Frame * bytes :=
  match fuel with
  | O => ([], s)
  | S n =>
      match from_bytes s with
      | None => ([], s)
      | Some f =>
          let '(fs, r) := drain_go n (drop (HEADER_OVERHEAD_SIZE + length (data f)) s) in
          (f :: fs, r)
      end
  end.

Definition drain (s : bytes) : list Frame * bytes := drain_go (length s) s.

#[global] Arguments HEADER_OVERHEAD_SIZE : simpl never.
#[global] Arguments to_bytes : simpl never.

(** ** Well-formed frames *)

(** The commands a byte decodes to. *)
Definition canonical (c : Command) : Prop := Command_from (u8_from c) = c.

Definition wf_frame (f : Frame) : Prop := canonical (cmd f) ∧ in_u 32 (sid f).

(** A frame whose length field can hold its length. *)
Definition fits (f : Frame) : Prop := (Z.of_nat (length (data f)) ≤ u16_max)%Z.

Definition sendable (f : Frame) : Prop := wf_frame f ∧ fits f.

#[global] Instance canonical_dec c : Decision (canonical c).
Proof. unfold canonical. apply _. Defined.
#[global] Instance wf_frame_dec f : Decision (wf_frame f).
Proof. unfold wf_frame. apply _. Defined.
#[global] Instance fits_dec f : Decision (fits f).
Proof. unfold fits. apply _. Defined.
#[global] Instance sendable_dec f : Decision (sendable f).
Proof. unfold sendable. apply _. Defined.

(** ** Lemmas *)

Lemma u8_from_Command_from b : u8_from (Command_from b) = b.
Proof. by destruct b. Qed.

Lemma canonical_Command_from b : canonical (Command_from b).
Proof. unfold canonical. by rewrite u8_from_Command_from. Qed.

Lemma length_to_bytes f : length (to_bytes f) = HEADER_OVERHEAD_SIZE + length (data f).
Proof. unfold to_bytes. autorewrite with anytls_len. simpl. lia. Qed.

#[export] Hint Rewrite length_to_bytes : anytls_len.

(** The encoding splits after its header fields. *)
Lemma to_bytes_fields f rest :
  let s := to_bytes f ++ rest in
  head s = Some (u8_from (cmd f)) ∧
  take 4 (drop 1 s) = be_encode 4 (sid f) ∧
  take 2 (drop 5 s) = be_encode 2 (wrap 16 (Z.of_nat (length (data f)))) ∧
  drop HEADER_OVERHEAD_SIZE s = data f ++ rest.
Proof.
  unfold to_bytes. set (a := be_encode 4 (sid f)). set (b := be_encode 2 _).
  assert (length a = 4) as Ha by apply length_be_encode.
  assert (length b = 2) as Hb by apply length_be_encode.
  cbn zeta. unfold HEADER_OVERHEAD_SIZE.
  change (1 + 4 + 2) with (S 6). rewrite <- !app_assoc; cbn [app head drop].
  rewrite drop_0, take_app_length' by done. rewrite drop_app_length' by done.
  rewrite take_app_length' by done.
  rewrite (drop_app_ge a), Ha by lia. simpl (6 - 4). by rewrite drop_app_length'.
Qed.

Lemma RawHeader_to_bytes f rest :
  wf_frame f →
  RawHeader_from_bytes (to_bytes f ++ rest) =
    Some (mkHeader (cmd f) (sid f) (wrap 16 (Z.of_nat (length (data f))))).
Proof.
  intros [Hc Hs]. destruct (to_bytes_fields f rest) as (H0 & H1 & H2 & _).
  unfold RawHeader_from_bytes.
  rewrite decide_False by (rewrite length_app, length_to_bytes; unfold HEADER_OVERHEAD_SIZE; lia).
  rewrite H0, H1, H2; simpl. rewrite Hc.
  rewrite (be_decode_encode_u 32), (be_decode_encode_u 16) by (done || by apply wrap_range).
  done.
Qed.

(** What a receiver reads back from the encoding of any frame with a valid
    header: the declared length decides, not the data that follows. *)
Lemma from_to_bytes_gen f rest :
  wf_frame f →
  from_bytes (to_bytes f ++ rest) =
    Some (mkFrame (cmd f) (sid f)
            (take (Z.to_nat (wrap 16 (Z.of_nat (length (data f))))) (data f ++ rest))).
Proof.
  intros Hwf. unfold from_bytes. rewrite RawHeader_to_bytes by done.
  cbn [mbind option_bind h_cmd h_sid h_length].
  destruct (to_bytes_fields f rest) as (_ & _ & _ & ->).
  rewrite decide_False; [done|].
  assert (wrap 16 (Z.of_nat (length (data f))) ≤ Z.of_nat (length (data f)))%Z
    by (apply Z.mod_le; lia).
  rewrite length_app. lia.
Qed.

Lemma from_to_bytes f rest : sendable f → from_bytes (to_bytes f ++ rest) = Some f.
Proof.
  intros [Hwf Hfit]. rewrite from_to_bytes_gen by done.
  rewrite wrap_small by (unfold fits, in_u in *; lia).
  rewrite Nat2Z.id, take_app_length. by destruct f.
Qed.

Lemma from_bytes_short s : length s < HEADER_OVERHEAD_SIZE → from_bytes s = None.
Proof. intros H. unfold from_bytes, RawHeader_from_bytes. by rewrite decide_True. Qed.

Lemma from_bytes_nil : from_bytes [] = None.
Proof. reflexivity. Qed.

Lemma from_bytes_header b0 b1 b2 b3 b4 b5 b6 s :
  from_bytes (b0 :: b1 :: b2 :: b3 :: b4 :: b5 :: b6 :: s) =
    let n := Z.to_nat (be_decode [b5; b6]) in
    if decide (length s < n) then None
    else Some (mkFrame (Command_from b0) (be_decode [b1; b2; b3; b4]) (take n s)).
Proof.
  unfold from_bytes, RawHeader_from_bytes.
  rewrite decide_False by (unfold HEADER_OVERHEAD_SIZE; simpl; lia). reflexivity.
Qed.

(** Decoding only succeeds on an encoding: the frame returned is well formed,
    fits its length field, and its own bytes are the prefix consumed. *)
Lemma from_bytes_sound s f :
  from_bytes s = Some f → sendable f ∧ ∃ rest, s = to_bytes f ++ rest.
Proof.
  intros H. destruct (decide (length s < HEADER_OVERHEAD_SIZE)) as [Hs|Hs].
  { by rewrite from_bytes_short in H. }
  unfold HEADER_OVERHEAD_SIZE in Hs.
  do 7 (destruct s as [|? s]; [simpl in Hs; lia|]). clear Hs.
  rewrite from_bytes_header in H. cbn zeta in H. case_decide as Hd; [done|].
  injection H as <-. set (n := be_decode [b4; b5]) in *.
  pose proof (be_decode_range [b0; b1; b2; b3]) as R4.
  pose proof (be_decode_range [b4; b5]) as R2. fold n in R2. cbn [length] in R4, R2.
  assert (length (take (Z.to_nat n) s) = Z.to_nat n) as Hlen by (rewrite length_take; lia).
  split; [split|].
  - split; [apply canonical_Command_from|]. unfold in_u; simpl; lia.
  - unfold fits; cbn [data]. lia.
  - exists (drop (Z.to_nat n) s). unfold to_bytes; cbn [cmd sid data].
    rewrite Hlen, Z2Nat.id, (wrap_small 16) by (unfold in_u; lia).
    rewrite u8_from_Command_from, <- !app_assoc, take_drop.
    pose proof (be_encode_decode [b0; b1; b2; b3]) as E4.
    pose proof (be_encode_decode [b4; b5]) as E2. fold n in E2.
    cbn [length] in E4, E2. by rewrite E4, E2.
Qed.

Lemma from_bytes_app s t f : from_bytes s = Some f → from_bytes (s ++ t) = Some f.
Proof.
  intros [Hf [rest ->]]%from_bytes_sound. rewrite <- app_assoc. by apply from_to_bytes.
Qed.

Lemma from_bytes_length s f :
  from_bytes s = Some f → HEADER_OVERHEAD_SIZE + length (data f) ≤ length s.
Proof. intros [_ [rest ->]]%from_bytes_sound. len. Qed.

(** ** The receive buffer *)

Lemma drain_go_fuel n m s :
  length s ≤ n → length s ≤ m → drain_go n s = drain_go m s.
Proof.
  revert m s. induction n as [|n IH]; intros m s Hn Hm.
  - destruct s; [|simpl in Hn; lia]. by destruct m.
  - destruct m as [|m]; [destruct s; [done|simpl in Hm; lia]|].
    simpl. destruct (from_bytes s) as [f|] eqn:E; [|done].
    apply from_bytes_length in E. unfold HEADER_OVERHEAD_SIZE in *.
    rewrite (IH m); [done|rewrite length_drop; lia..].
Qed.

Lemma drain_step s f :
  from_bytes s = Some f →
  drain s = let '(fs, r) := drain (drop (HEADER_OVERHEAD_SIZE + length (data f)) s) in (f :: fs, r).
Proof.
  intros E. pose proof (from_bytes_length _ _ E) as Hl. unfold HEADER_OVERHEAD_SIZE in Hl.
  unfold drain at 1. destruct (length s) as [|n] eqn:Hs; [lia|].
  simpl drain_go. rewrite E. unfold drain.
  rewrite (drain_go_fuel n (length (drop (HEADER_OVERHEAD_SIZE + length (data f)) s)));
    [done| |done]. rewrite length_drop. unfold HEADER_OVERHEAD_SIZE. lia.
Qed.

Lemma drain_stop s : from_bytes s = None → drain s = ([], s).
Proof. intros E. unfold drain. destruct (length s); simpl; [done|]. by rewrite E. Qed.

(** Induction along the loop: either nothing is complete, or one frame is cut
    off the front. *)
Lemma drain_ind (P : bytes → list Frame → bytes → Prop) :
  (∀ s, from_bytes s = None → P s [] s) →
  (∀ f s fs r, sendable f → P s fs r → P (to_bytes f ++ s) (f :: fs) r) →
  ∀ s, P s (drain s).1 (drain s).2.
Proof.
  intros Hstop Hcons s. induction s as [s IH] using (well_founded_induction
    (Wf_nat.well_founded_ltof _ length)). unfold Wf_nat.ltof in IH.
  destruct (from_bytes s) as [f|] eqn:E; [|by rewrite drain_stop; auto].
  rewrite (drain_step _ _ E). apply from_bytes_sound in E as [Hf [rest ->]].
  rewrite drop_app_length' by apply length_to_bytes.
  specialize (IH rest). destruct (drain rest) as [fs r]; cbn [fst snd] in *.
  apply Hcons; [done|]. apply IH. rewrite length_app, length_to_bytes.
  unfold HEADER_OVERHEAD_SIZE. lia.
Qed.

Lemma drain_cons f s :
  sendable f → drain (to_bytes f ++ s) = (f :: (drain s).1, (drain s).2).
Proof.
  intros Hf. rewrite (drain_step _ f) by by apply from_to_bytes.
  rewrite drop_app_length' by apply length_to_bytes. by destruct (drain s).
Qed.

(** The loop runs until no complete frame is left. *)
Lemma drain_done s : from_bytes (drain s).2 = None.
Proof. apply (drain_ind (fun _ _ r => from_bytes r = None)); auto. Qed.

(** Nothing is lost or invented: the frames taken and the bytes left are the input. *)
Lemma drain_bytes s : s = concat (to_bytes <$> (drain s).1) ++ (drain s).2.
Proof.
  apply (drain_ind (fun s fs r => s = concat (to_bytes <$> fs) ++ r)); [done|].
  intros f s' fs r _ ->. simpl. by rewrite <- app_assoc.
Qed.

Lemma drain_sendable s : Forall sendable (drain s).1.
Proof. apply (drain_ind (fun _ fs _ => Forall sendable fs)); auto. Qed.

Lemma drain_encoded fs r :
  Forall sendable fs → from_bytes r = None →
  drain (concat (to_bytes <$> fs) ++ r) = (fs, r).
Proof.
  intros Hfs Hr. induction Hfs as [|f fs Hf Hfs IH]; [by apply drain_stop|].
  rewrite fmap_cons. cbn [concat]. rewrite <- app_assoc, drain_cons by done. by rewrite IH.
Qed.

(** Splitting the input does not change what is decoded. *)
Lemma drain_app s t :
  drain (s ++ t) =
    ((drain s).1 ++ (drain ((drain s).2 ++ t)).1, (drain ((drain s).2 ++ t)).2).
Proof.
  apply (drain_ind (fun s fs r => drain (s ++ t) =
     (fs ++ (drain (r ++ t)).1, (drain (r ++ t)).2))).
  - intros s' _. simpl. by destruct (drain (s' ++ t)).
  - intros f s' fs r Hf IH. rewrite <- app_assoc, drain_cons by done. by rewrite IH.
Qed.

(** The receive loop over the chunks [read_some] returns: [pending] grows by
    each chunk and is drained. *)
Fixpoint feed (pending : bytes) (chunks : list bytes) : list Frame * bytes :=
  match chunks with
  | [] => ([], pending)
  | c :: cs =>
      let '(fs, pending') := drain (pending ++ c) in
      let '(fs', r) := feed pending' cs in (fs ++ fs', r)
  end.

Lemma feed_drain pending chunks :
  from_bytes pending = None → feed pending chunks = drain (pending ++ concat chunks).
Proof.
  revert pending. induction chunks as [|c cs IH]; intros pending Hp; cbn [feed concat].
  { rewrite app_nil_r. by rewrite drain_stop. }
  rewrite app_assoc, (drain_app (pending ++ c)). pose proof (drain_done (pending ++ c)) as Hd.
  destruct (drain (pending ++ c)) as [fs p'] eqn:E; cbn [fst snd] in *. rewrite IH by done.
  by destruct (drain (p' ++ concat cs)).
Qed.

(** ** Properties *)

(** C7. Framing is transparent to how the transport cuts the byte stream: for
    any split of the encodings of sendable frames into chunks, the receiver
    decodes exactly those frames, in order, and keeps no bytes. *)
Theorem frames_survive_chunking fs chunks :
  Forall sendable fs → concat chunks = concat (to_bytes <$> fs) → feed [] chunks = (fs, []).
Proof.
  intros Hfs E. rewrite feed_drain by apply from_bytes_nil. cbn [app]. rewrite E.
  rewrite <- (app_nil_r (concat _)). apply drain_encoded; [done|apply from_bytes_nil].
Qed.

(** [Frame::from_bytes] accepts exactly the byte strings that start with the
    encoding of a frame, and returns that frame. *)
Theorem from_bytes_exact s f :
  from_bytes s = Some f ↔ sendable f ∧ ∃ rest, s = to_bytes f ++ rest.
Proof.
  split; [apply from_bytes_sound|]. intros [Hf [rest ->]]. by apply from_to_bytes.
Qed.

(** The receiver waits for the whole frame: no proper prefix of an encoding
    is decoded, so the bytes stay pending until the rest arrives. *)
Theorem from_bytes_incomplete f k :
  sendable f → k < length (to_bytes f) → from_bytes (take k (to_bytes f)) = None.
Proof.
  intros Hf Hk. destruct (from_bytes (take k (to_bytes f))) as [g|] eqn:E; [|done]. exfalso.
  pose proof (from_bytes_length _ _ E) as Hl.
  apply (from_bytes_app _ (drop k (to_bytes f))) in E. rewrite take_drop in E.
  pose proof (from_to_bytes f [] Hf) as E'. rewrite app_nil_r in E'.
  assert (g = f) as -> by congruence. rewrite length_take, length_to_bytes in *. lia.
Qed.

(** A frame whose data does not fit the 16-bit length field is encoded with
    a truncated length: the receiver takes a shorter frame and misreads the tail
    of the data as the next frame's header. *)
Theorem oversized_frame_desyncs f :
  wf_frame f → (65536 ≤ Z.of_nat (length (data f)))%Z →
  ∃ k, Z.of_nat k = (Z.of_nat (length (data f)) mod 65536)%Z ∧ k < length (data f) ∧
    drain (to_bytes f) =
      (mkFrame (cmd f) (sid f) (take k (data f)) :: (drain (drop k (data f))).1,
       (drain (drop k (data f))).2).
Proof.
  intros Hwf Hbig. set (m := wrap 16 (Z.of_nat (length (data f)))).
  pose proof (wrap_range 16 (Z.of_nat (length (data f))) ltac:(lia)) as Hm. fold m in Hm.
  unfold in_u in Hm. exists (Z.to_nat m). split; [by rewrite Z2Nat.id by lia|]. split; [lia|].
  pose proof (from_to_bytes_gen f [] Hwf) as E. rewrite !app_nil_r in E. fold m in E.
  rewrite (drain_step _ _ E). cbn [data].
  rewrite length_take_le by lia. destruct (to_bytes_fields f []) as (_ & _ & _ & Hd).
  rewrite !app_nil_r in Hd. rewrite <- drop_drop, Hd.
  by destruct (drain (drop (Z.to_nat m) (data f))).
Qed.

(** *** Witnesses *)

Lemma frames_survive_chunking_witness :
  feed [] [[Byte.x01; Byte.x00]; [Byte.x00; Byte.x00; Byte.x07; Byte.x00; Byte.x00; Byte.x02];
           [Byte.x00; Byte.x00; Byte.x00; Byte.x07; Byte.x00; Byte.x02; "h"%byte]; ["i"%byte]] =
  ([Frame_new Syn 7; Frame_with_data Psh 7 (str "hi")], []).
Proof.
  apply frames_survive_chunking.
  - repeat constructor; by vm_compute.
  - by vm_compute.
Defined.

Lemma from_bytes_incomplete_witness :
  from_bytes (take 8 (to_bytes (Frame_with_data Psh 7 (str "hi")))) = None.
Proof. apply from_bytes_incomplete; [by apply (bool_decide_unpack _)|by vm_compute; lia]. Defined.

Lemma oversized_frame_desyncs_witness :
  let f := Frame_with_data Psh 1 (replicate (Z.to_nat 65536) Byte.x00) in
  ∃ k, Z.of_nat k = (Z.of_nat (length (data f)) mod 65536)%Z ∧ k < length (data f) ∧
    drain (to_bytes f) =
      (mkFrame Psh 1 (take k (data f)) :: (drain (drop k (data f))).1, (drain (drop k (data f))).2).
Proof.
  intros f. apply (oversized_frame_desyncs f).
  - by apply (bool_decide_unpack _).
  - unfold f, Frame_with_data; cbn [data]. rewrite length_replicate. lia.
Defined.
