(* ===== verification/Padding.v ===== *)
(** * Padding schemes ([src/core/padding.rs], [src/runtime/padding.rs])

    A scheme is a [StringMap]: [stop] and, per packet number, a list of record
    sizes.  MD5 and the random generator are third-party crates: [Md5] and
    [Rng] state what the program relies on. *)

From S2P Require Import Prelude RustStr StringMap.
From Stdlib Require Import Strings.Byte.

(** [format!("{:x}", md5::compute(_))]: lower-case hexadecimal digits. *)
Class Md5 : Type := {
  md5_hex : bytes → bytes;
  md5_hex_digits : ∀ s, Forall (fun b => b ∈ str "0123456789abcdef") (md5_hex s);
}.

(** [rand::rng()] and [random_range(lo..=hi)]: a value of the range. *)
Class Rng : Type := {
  rng : Type;
  random_range : rng → Z → Z → Z * rng;
  random_range_bounds : ∀ g lo hi, (lo ≤ hi)%Z → (lo ≤ (random_range g lo hi).1 ≤ hi)%Z;
}.

(** A generator that always takes the lower bound, and one that counts. *)
Program Definition min_rng : Rng :=
  {| rng := unit; random_range := fun g lo hi => (lo, g) |}.
Next Obligation. simpl. lia. Qed.

Program Definition counter_rng : Rng :=
  {| rng := Z; random_range := fun g lo hi => ((lo + g mod (hi - lo + 1))%Z, (g + 1)%Z) |}.
Next Obligation.
  intros g lo hi H; simpl. pose proof (Z.mod_pos_bound g (hi - lo + 1)). lia.
Qed.

(** A stand-in digest for evaluating examples: the length, in decimal digits. *)
Program Definition toy_md5 : Md5 :=
  {| md5_hex := fun s => to_dec (Z.of_nat (length s)) |}.
Next Obligation.
  intros s; simpl. eapply Forall_impl; [apply to_dec_digits; lia|].
  intros b Hb. change (b ∈ str "0123456789" ++ str "abcdef"). apply elem_of_app. by left.
Qed.

Definition CHECK_MARK : Z := (-1)%Z.

(** The scheme text, line by line. *)
Definition DEFAULT_PADDING_SCHEME : bytes :=
  join nl
    [ str "stop=8"; str "0=30-30"; str "1=100-400";
      str "2=400-500,c,500-1000,c,500-1000,c,500-1000,c,500-1000";
      str "3=9-9,500-1000"; str "4=500-1000"; str "5=500-1000";
      str "6=500-1000"; str "7=500-1000" ].

Record PaddingFactory : Type := mkPadding {
  scheme : StringMap;
  raw_scheme : bytes;
  stop : Z;
  md5 : bytes;
}.

Section padding.
  Context `{Md5, Rng}.

(** [PaddingFactory::new]. *)
Definition PaddingFactory_new (raw : bytes) : option PaddingFactory :=
  let scheme := from_bytes raw in
  if decide (scheme = ∅) then None
  else
    s ← scheme !! str "stop";
    stop ← parse_u32 s;
    Some (mkPadding scheme raw stop (md5_hex raw)).

(** The body of the loop over the comma-separated ranges. *)
Definition range_size (s_range : bytes) (g : rng) : option Z * rng :=
  if decide (s_range = str "c") then (Some CHECK_MARK, g)
  else
    match split_once "-"%byte s_range with
    | None => (None, g)
    | Some (min_str, max_str) =>
        match parse_i64 min_str, parse_i64 max_str with
        | Some a, Some b =>
            let lo := Z.min a b in
            let hi := Z.max a b in
            if ((0 <? lo) && (0 <? hi))%Z then
              if (lo =? hi)%Z then (Some (as_i32 lo), g)
              else let '(size, g') := random_range g lo hi in (Some (as_i32 size), g')
            else (None, g)
        | _, _ => (None, g)
        end
    end.

Fixpoint range_sizes (ranges : list bytes) (g : rng) : list Z * rng :=
  match ranges with
  | [] => ([], g)
  | r :: rs =>
      let '(o, g1) := range_size r g in
      let '(sizes, g2) := range_sizes rs g1 in
      (match o with Some z => z :: sizes | None => sizes end, g2)
  end.

(** [PaddingFactory::generate_record_payload_sizes]. *)
Definition generate_record_payload_sizes (pf : PaddingFactory) (pkt : Z) (g : rng) : list Z * rng :=
  match scheme pf !! to_dec pkt with
  | Some s => range_sizes (split ","%byte s) g
  | None => ([], g)
  end.

(** [DefaultPaddingFactory]: the process-wide factory, initialised on first
    use; [update] replaces it when the new scheme parses. *)
Definition PaddingFactory_default : option PaddingFactory := PaddingFactory_new DEFAULT_PADDING_SCHEME.

Definition DefaultPaddingFactory_load (g : option PaddingFactory) : option PaddingFactory :=
  match g with Some pf => Some pf | None => PaddingFactory_default end.

Definition DefaultPaddingFactory_update (g : option PaddingFactory) (raw : bytes)
  : bool * option PaddingFactory :=
  match PaddingFactory_new raw with
  | Some pf => (true, Some pf)
  | None => (false, g)
  end.

(** ** What a scheme line means *)

Inductive item : Type := Check | Range (lo hi : Z).

(** The items of a line, in order: a check mark, or a range of two positive
    integers, in either order; anything else is skipped. *)
Definition item_of (s_range : bytes) : option item :=
  if decide (s_range = str "c") then Some Check
  else
    '(a, b) ← split_once "-"%byte s_range;
    x ← parse_i64 a; y ← parse_i64 b;
    if decide (0 < x ∧ 0 < y)%Z then Some (Range (Z.min x y) (Z.max x y)) else None.

Definition items (pf : PaddingFactory) (pkt : Z) : list item :=
  match scheme pf !! to_dec pkt with
  | Some s => omap item_of (split ","%byte s)
  | None => []
  end.

(** The sizes an item may produce. *)
Definition item_allows (i : item) (z : Z) : Prop :=
  match i with
  | Check => z = CHECK_MARK
  | Range lo hi => ∃ v, (lo ≤ v ≤ hi)%Z ∧ z = as_i32 v
  end.

(** ** Lemmas *)

Lemma PaddingFactory_new_fields raw pf :
  PaddingFactory_new raw = Some pf →
  raw_scheme pf = raw ∧ md5 pf = md5_hex raw ∧ scheme pf = from_bytes raw ∧ in_u 32 (stop pf).
Proof.
  unfold PaddingFactory_new. case_decide; [done|].
  destruct (from_bytes raw !! str "stop") as [s|] eqn:Es; [|done]; simpl.
  destruct (parse_u32 s) as [st|] eqn:Ep; [|done]; simpl. intros [= <-]. simpl.
  split_and!; [done..|]. apply parse_unsigned_range in Ep; unfold in_u; lia.
Qed.

Lemma PaddingFactory_new_again pf raw :
  PaddingFactory_new raw = Some pf → PaddingFactory_new (raw_scheme pf) = Some pf.
Proof. intros E. by destruct (PaddingFactory_new_fields _ _ E) as [-> _]. Qed.

(** One range and its item: the loop body yields a size exactly when the text is
    an item, and the size is one the item allows. *)
Lemma range_size_item s g :
  match item_of s with
  | Some i => ∃ z, (range_size s g).1 = Some z ∧ item_allows i z
  | None => (range_size s g).1 = None
  end.
Proof.
  unfold item_of, range_size. case_decide; [by eexists|].
  destruct (split_once "-"%byte s) as [[a b]|]; simpl; [|done].
  destruct (parse_i64 a) as [x|]; simpl; [|done].
  destruct (parse_i64 b) as [y|]; simpl; [|done].
  case_decide as Hpos.
  - rewrite !(proj2 (Z.ltb_lt 0 _)) by lia. simpl.
    destruct (Z.eqb_spec (Z.min x y) (Z.max x y)).
    + exists (as_i32 (Z.min x y)). split; [done|]. exists (Z.min x y). split; [lia|done].
    + pose proof (random_range_bounds g (Z.min x y) (Z.max x y)) as Hr.
      destruct (random_range _ _ _) as [v g']; simpl in *.
      exists (as_i32 v). split; [done|]. exists v. split; [apply Hr; lia|done].
  - assert (((0 <? Z.min x y) && (0 <? Z.max x y))%Z = false) as ->; [|done].
    apply not_true_iff_false. rewrite andb_true_iff, !Z.ltb_lt. lia.
Qed.

Lemma range_sizes_items rs g : Forall2 item_allows (omap item_of rs) (range_sizes rs g).1.
Proof.
  revert g. induction rs as [|r rs IH]; intros g; simpl; [constructor|].
  pose proof (range_size_item r g) as Hr.
  destruct (range_size r g) as [o g1]; simpl in Hr. specialize (IH g1).
  destruct (range_sizes rs g1) as [zs g2]; simpl in *.
  destruct (item_of r) as [i|]; simpl; [|by subst o].
  destruct Hr as (z & -> & Hz). by constructor.
Qed.

Lemma generate_items pf pkt g :
  Forall2 item_allows (items pf pkt) (generate_record_payload_sizes pf pkt g).1.
Proof.
  unfold items, generate_record_payload_sizes.
  destruct (scheme pf !! to_dec pkt); [apply range_sizes_items|constructor].
Qed.

(** A scheme all of whose ranges fit the length field of a padding frame. *)
Definition item_bounded (m : Z) (i : item) : Prop :=
  match i with Check => True | Range lo hi => (0 < lo)%Z ∧ (hi ≤ m)%Z end.

Definition line_items (v : bytes) : list item := omap item_of (split ","%byte v).

Definition scheme_bounded (pf : PaddingFactory) : Prop :=
  map_Forall (fun _ v => Forall (item_bounded u16_max) (line_items v)) (scheme pf).

#[global] Instance item_bounded_dec m i : Decision (item_bounded m i).
Proof. destruct i; simpl; apply _. Defined.
#[global] Instance scheme_bounded_dec pf : Decision (scheme_bounded pf).
Proof. unfold scheme_bounded. apply _. Defined.

Lemma scheme_bounded_items pf pkt :
  scheme_bounded pf → Forall (item_bounded u16_max) (items pf pkt).
Proof.
  intros Hb. unfold items. destruct (scheme pf !! to_dec pkt) as [v|] eqn:E; [|constructor].
  by apply (Hb _ _ E).
Qed.

Lemma item_allows_bounded i z :
  item_bounded u16_max i → item_allows i z → (z = CHECK_MARK ∨ 0 < z ≤ u16_max)%Z.
Proof.
  destruct i as [|lo hi]; simpl; [by left|]. intros [? ?] (v & ? & ->).
  right. rewrite as_i32_small; lia.
Qed.

Lemma generate_bounded pf pkt g :
  scheme_bounded pf →
  Forall (fun z => z = CHECK_MARK ∨ 0 < z ≤ u16_max)%Z (generate_record_payload_sizes pf pkt g).1.
Proof.
  intros Hb%(scheme_bounded_items _ pkt). pose proof (generate_items pf pkt g) as Hi.
  induction Hi as [|i z l zs Hiz _ IH]; [constructor|].
  inversion Hb; subst. constructor; [by eapply item_allows_bounded|auto].
Qed.

(** The compiled-in scheme, as parsed. *)
Lemma default_is_some :
  ∃ pf, PaddingFactory_default = Some pf ∧ stop pf = 8%Z ∧ scheme_bounded pf.
Proof.
  unfold PaddingFactory_default, PaddingFactory_new.
  destruct (decide (from_bytes DEFAULT_PADDING_SCHEME = ∅)) as [E|_].
  { exfalso. apply (f_equal (lookup (str "stop"))) in E. vm_compute in E. done. }
  eexists. split; [vm_compute (from_bytes _ !! _); vm_compute (parse_u32 _); reflexivity|].
  split; [done|]. unfold scheme_bounded. simpl scheme.
  apply (bool_decide_unpack _). vm_compute. done.
Qed.
End padding.

(** ** Properties *)

(** The record sizes drawn for a packet follow the scheme's line for that
    packet: one size per recognised item, in order, the check mark for [c], and
    a value of the range (as an [i32]) for a range, whatever the generator. *)
Theorem sizes_follow_scheme (M : Md5) (R : Rng) pf pkt g :
  Forall2 item_allows (items pf pkt) (generate_record_payload_sizes pf pkt g).1.
Proof. apply generate_items. Qed.

(** The factory of the compiled-in scheme. *)
Definition default_factory (M : Md5) : PaddingFactory :=
  default (mkPadding ∅ [] 0 []) PaddingFactory_default.

Definition item_within (a b : Z) (i : item) : Prop :=
  match i with Check => True | Range lo hi => (a ≤ lo)%Z ∧ (hi ≤ b)%Z end.

#[global] Instance item_within_dec a b i : Decision (item_within a b i).
Proof. destruct i; simpl; apply _. Defined.

(** The compiled-in scheme parses, pads packets 1 to 7 and no others, and
    every record size it can draw is between 9 and 1000 bytes, so it always fits
    a frame's length field. *)
Theorem default_scheme_sizes (M : Md5) (R : Rng) pkt g :
  let pf := default_factory M in
  PaddingFactory_default = Some pf ∧ stop pf = 8%Z ∧
  Forall (fun z => z = CHECK_MARK ∨ 9 ≤ z ≤ 1000)%Z (generate_record_payload_sizes pf pkt g).1 ∧
  ((1 ≤ pkt < stop pf)%Z → items pf pkt ≠ []).
Proof.
  intros pf. destruct default_is_some as (pf' & E & Hstop & _).
  assert (pf = pf') as -> by (unfold pf, default_factory; by rewrite E).
  split_and!; [done..| |].
  - assert (map_Forall (fun _ v => Forall (item_within 9 1000) (line_items v)) (scheme pf')) as Hb.
    { destruct (PaddingFactory_new_fields _ _ E) as (_ & _ & -> & _).
      apply (bool_decide_unpack _). vm_compute. done. }
    pose proof (generate_items pf' pkt g) as Hi. unfold items in Hi.
    destruct (scheme pf' !! to_dec pkt) as [v|] eqn:Ev; [|by inversion Hi; constructor].
    specialize (Hb _ _ Ev). fold (line_items v) in Hi. simpl in Hb.
    clear -Hi Hb. induction Hi as [|i z l zs Hiz _ IH]; [constructor|]. apply Forall_cons in Hb as [Hbi Hb].
    constructor; [|auto]. destruct i as [|lo hi]; [by left|]. simpl in Hiz, Hbi.
    destruct Hiz as (v' & Hv' & ->). right. rewrite as_i32_small; lia.
  - rewrite Hstop. intros Hp. destruct (PaddingFactory_new_fields _ _ E) as (_ & _ & Es & _).
    unfold items. rewrite Es.
    assert (pkt = 1 ∨ pkt = 2 ∨ pkt = 3 ∨ pkt = 4 ∨ pkt = 5 ∨ pkt = 6 ∨ pkt = 7)%Z as Hc by lia.
    by destruct Hc as [->|[->|[->|[->|[->|[->| ->]]]]]]; vm_compute.
Qed.

Lemma default_scheme_sizes_witness :
  let pf := default_factory toy_md5 in
  Forall (fun z => z = CHECK_MARK ∨ 9 ≤ z ≤ 1000)%Z
    (generate_record_payload_sizes (H0 := counter_rng) pf 2 5%Z).1 ∧ items pf 2 ≠ [].
Proof.
  destruct (default_scheme_sizes toy_md5 counter_rng 2 5%Z) as (_ & _ & Hs & Hi).
  split; [exact Hs|]. apply Hi. vm_compute. by split.
Defined.
