(* ===== verification/Engine.v ===== *)
(** * The protocol engine ([src/core/engine.rs], [state.rs], [action.rs])

    A pure function from the session's negotiated state and one received frame
    to the new state and the actions the runtime must perform. *)

From S2P Require Import Prelude RustStr StringMap Frame Padding.
From Stdlib Require Import Strings.Byte.

(** [PROTOCOL_VERSION], [MIN_PROTOCOL_VERSION], [PROGRAM_VERSION_NAME] of
    [src/lib.rs] (the last from the package name and version). *)
Definition PROTOCOL_VERSION : Z := 2.
Definition MIN_PROTOCOL_VERSION : Z := 2.
Definition PROGRAM_VERSION_NAME : bytes := str "anytls/0.4.0".

Record State : Type := mkState {
  padding : PaddingFactory;
  peer_version : Z;
  received_settings_from_client : bool;
}.

Definition State_new (pf : PaddingFactory) : State := mkState pf 0 false.
Definition set_padding (s : State) (pf : PaddingFactory) : State :=
  mkState pf (peer_version s) (received_settings_from_client s).
Definition set_peer_version (s : State) (v : Z) : State :=
  mkState (padding s) v (received_settings_from_client s).
Definition mark_received_settings_from_client (s : State) : State :=
  mkState (padding s) (peer_version s) true.

Inductive ProtocolAction : Type :=
  | SendFrame (f : Frame)
  | SendFrameSync (f : Frame)
  | PushStreamData (sid : Z) (data : bytes)
  | EnsureIncomingStream (sid : Z)
  | CloseLocalStream (sid : Z)
  | CloseRemoteStream (sid : Z) (message : bytes)
  | ReleaseWriteBuffering
  | AlertAndFail (message : bytes).

#[global] Instance action_eq_dec : EqDecision ProtocolAction.
Proof. solve_decision. Defined.

Definition settings_missing : bytes := str "client did not send its settings".

(** [settings.get("v").and_then(|value| value.parse::<u8>().ok())]. *)
Definition declared_version (settings : StringMap) : option Z :=
  (settings !! str "v") ≫= parse_u8.

Section engine.
  Context `{IterOrder, Md5}.

(** The settings map of [Engine::on_session_start]. *)
Definition client_settings (pf : PaddingFactory) (client_name : bytes) : StringMap :=
  <[str "padding-md5" := md5 pf]> (<[str "client" := client_name]>
    (<[str "v" := to_dec PROTOCOL_VERSION]> ∅)).

(** [Engine::on_session_start]. *)
Definition on_session_start (state : State) (is_client : bool) (client_name : bytes)
  : list ProtocolAction :=
  if is_client then
    [SendFrame (Frame_with_data Settings 0
       (StringMap.to_bytes (client_settings (padding state) client_name)))]
  else [].

(** The [ServerSettings] reply to a declared version. *)
Definition server_settings_frame (version : Z) : Frame :=
  Frame_with_data ServerSettings 0 (StringMap.to_bytes {[str "v" := to_dec version]}).

(** The arm of [Command::Settings] on a server. *)
Definition on_settings (state : State) (d : bytes) : State * list ProtocolAction :=
  let settings := StringMap.from_bytes d in
  let state := mark_received_settings_from_client state in
  let pf := padding state in
  let update :=
    if decide (settings !! str "padding-md5" = Some (md5 pf)) then []
    else [SendFrameSync (Frame_with_data UpdatePaddingScheme 0 (raw_scheme pf))] in
  match declared_version settings with
  | Some version =>
      if (MIN_PROTOCOL_VERSION <=? version)%Z then
        (set_peer_version state version,
         update ++ [SendFrameSync (server_settings_frame version)])
      else (state, update)
  | None => (state, update)
  end.

(** [Engine::on_frame].  The last arm only logs. *)
Definition on_frame (state : State) (is_client : bool) (frame : Frame)
  : State * list ProtocolAction :=
  let empty := bool_decide (data frame = []) in
  match cmd frame with
  | Waste | HeartResponse => (state, [])
  | Psh => if empty then (state, []) else (state, [PushStreamData (sid frame) (data frame)])
  | Syn =>
      if is_client then (state, [])
      else if received_settings_from_client state
           then (state, [EnsureIncomingStream (sid frame)])
           else (state, [AlertAndFail settings_missing])
  | Fin => (state, [CloseLocalStream (sid frame)])
  | Settings =>
      if is_client || empty then (state, []) else on_settings state (data frame)
  | UpdatePaddingScheme =>
      if is_client && negb empty then
        match PaddingFactory_new (data frame) with
        | Some factory => (set_padding state factory, [])
        | None => (state, [])
        end
      else (state, [])
  | HeartRequest => (state, [SendFrame (Frame_new HeartResponse (sid frame))])
  | ServerSettings =>
      if is_client && negb empty then
        match declared_version (StringMap.from_bytes (data frame)) with
        | Some version => (set_peer_version state version, [])
        | None => (state, [])
        end
      else (state, [])
  | SynAck =>
      if empty then (state, [])
      else (state, [CloseRemoteStream (sid frame) (from_utf8_lossy (data frame))])
  | Alert | Unknown _ => (state, [])
  end.

(** The engine over a sequence of frames: final state, all actions in order. *)
Fixpoint on_frames (state : State) (is_client : bool) (fs : list Frame)
  : State * list ProtocolAction :=
  match fs with
  | [] => (state, [])
  | f :: fs' =>
      let '(s1, a1) := on_frame state is_client f in
      let '(s2, a2) := on_frames s1 is_client fs' in
      (s2, a1 ++ a2)
  end.

(** The frames an action list puts on the wire. *)
Definition action_frame (a : ProtocolAction) : option Frame :=
  match a with
  | SendFrame f | SendFrameSync f => Some f
  | AlertAndFail m => Some (Frame_with_data Alert 0 m)
  | _ => None
  end.

(** ** Lemmas *)

Lemma on_settings_cases s d :
  ∃ upd ver, on_settings s d = (match ver with
      | Some v => set_peer_version (mark_received_settings_from_client s) v
      | None => mark_received_settings_from_client s end,
      upd ++ match ver with Some v => [SendFrameSync (server_settings_frame v)] | None => [] end)
  ∧ upd = (if decide (StringMap.from_bytes d !! str "padding-md5" = Some (md5 (padding s))) then []
           else [SendFrameSync (Frame_with_data UpdatePaddingScheme 0 (raw_scheme (padding s)))])
  ∧ (∀ v, ver = Some v ↔ declared_version (StringMap.from_bytes d) = Some v ∧ (MIN_PROTOCOL_VERSION ≤ v)%Z).
Proof.
  unfold on_settings. set (upd := if decide _ then _ else _).
  destruct (declared_version (StringMap.from_bytes d)) as [v|].
  - destruct (Z.leb_spec MIN_PROTOCOL_VERSION v).
    + exists upd, (Some v). naive_solver.
    + exists upd, None. rewrite app_nil_r. split_and!; [done..|].
      intros v'. split; [done|]. intros [[= ->] ?]. lia.
  - exists upd, None. rewrite app_nil_r. naive_solver.
Qed.

(** Which state components a frame may change. *)
Lemma on_frame_padding s c f :
  padding (on_frame s c f).1 = padding s ∨ (c = true ∧ cmd f = UpdatePaddingScheme).
Proof.
  unfold on_frame. destruct (cmd f); try (repeat case_match; simpl; by auto).
  - case_match; [by left|].
    destruct (on_settings_cases s (data f)) as (u & [v|] & -> & _); by left.
  - destruct c; simpl; [by right|by left].
Qed.

Lemma on_frame_settings s c f :
  received_settings_from_client (on_frame s c f).1 =
    received_settings_from_client s ||
    (negb c && bool_decide (cmd f = Settings) && negb (bool_decide (data f = []))).
Proof.
  unfold on_frame. destruct (cmd f) eqn:E; simpl;
    rewrite ?(bool_decide_eq_false_2 (_ = Settings)), ?andb_false_r, ?orb_false_r by congruence;
    try (repeat case_match; done).
  destruct c; simpl; [by rewrite orb_false_r|]. case_bool_decide; simpl; [by rewrite orb_false_r|].
  destruct (on_settings_cases s (data f)) as (u & [v|] & -> & _); by rewrite orb_true_r.
Qed.

Lemma on_frame_peer_version s c f :
  in_u 8 (peer_version s) → in_u 8 (peer_version (on_frame s c f).1).
Proof.
  intros Hs.
  assert (∀ d v, declared_version d = Some v → in_u 8 v) as Hv.
  { unfold declared_version. intros d v. destruct (d !! _); simpl; [|done].
    intros ?%parse_unsigned_range; unfold in_u; lia. }
  unfold on_frame. destruct (cmd f); try (repeat case_match; simpl; by eauto).
  case_match; [done|]. destruct (on_settings_cases s (data f)) as (u & [v|] & -> & _ & Hver); simpl; [|done].
  destruct (proj1 (Hver v) eq_refl). eauto.
Qed.

Lemma clean_digits k s :
  ("="%byte ∉ k) → nl ∉ k → utf8_valid k = true →
  Forall (fun b => b ∈ str "0123456789abcdef") s → clean_entry k s.
Proof.
  intros ? ? ? Hs. assert (∀ b, b ∈ s → b ∈ str "0123456789abcdef") as Hin by by apply Forall_forall.
  split_and!; auto.
  - intros Hn%Hin. revert Hn. by apply (bool_decide_unpack (¬ _)).
  - intros Hl%last_Some_elem_of%Hin. revert Hl. by apply (bool_decide_unpack (¬ _)).
  - apply utf8_valid_ascii. unfold ascii_only. apply forallb_forall. intros b Hb.
    apply list_elem_of_In, Hin in Hb. revert b Hb. apply Forall_forall.
    apply (bool_decide_unpack _). vm_compute. done.
Qed.

(** A factory in use was built by [PaddingFactory::new]. *)
Definition wf_padding (pf : PaddingFactory) : Prop := ∃ raw, PaddingFactory_new raw = Some pf.

Lemma wf_padding_raw pf : wf_padding pf → PaddingFactory_new (raw_scheme pf) = Some pf ∧ raw_scheme pf ≠ [].
Proof.
  intros [raw E]. pose proof (PaddingFactory_new_again _ _ E) as E'. split; [done|].
  intros Hr. rewrite Hr in E'. vm_compute in E'. done.
Qed.

Lemma clean_client_settings pf name :
  wf_padding pf → clean_entry (str "client") name → clean_map (client_settings pf name).
Proof.
  intros [raw E] Hname. destruct (PaddingFactory_new_fields _ _ E) as (_ & Hmd5 & _).
  unfold clean_map, client_settings. repeat apply map_Forall_insert_2; [|done| |apply map_Forall_empty].
  - rewrite Hmd5. apply clean_digits; [by apply (bool_decide_unpack (¬ _))..|done|apply md5_hex_digits].
  - by apply (bool_decide_unpack (clean_entry _ _)).
Qed.

Lemma clean_version v : (0 ≤ v)%Z → clean_map {[str "v" := to_dec v]}.
Proof.
  intros Hv. unfold clean_map. apply map_Forall_singleton.
  apply clean_digits; [by apply (bool_decide_unpack (¬ _))..|done|].
  eapply Forall_impl; [by apply to_dec_digits|]. intros b Hb.
  change (b ∈ str "0123456789" ++ str "abcdef"). apply elem_of_app. by left.
Qed.

Lemma to_bytes_nonempty m : clean_map m → m ≠ ∅ → StringMap.to_bytes m ≠ [].
Proof. intros Hc Hm E. apply Hm. rewrite <- (StringMap.map_from_to_bytes m Hc), E. done. Qed.

(** What a client makes of the server's two possible replies. *)
Lemma on_frame_update_padding s pf :
  wf_padding pf →
  on_frame s true (Frame_with_data UpdatePaddingScheme 0 (raw_scheme pf)) = (set_padding s pf, []).
Proof.
  intros [E Hne]%wf_padding_raw. unfold on_frame; simpl.
  rewrite bool_decide_eq_false_2 by done. simpl. by rewrite E.
Qed.
End engine.

Lemma on_frame_server_settings (Oc Os : IterOrder) `{Md5} s v :
  in_u 8 v → on_frame (H := Oc) s true (server_settings_frame (H := Os) v) = (set_peer_version s v, []).
Proof.
  intros Hv. unfold on_frame, server_settings_frame; simpl.
  rewrite bool_decide_eq_false_2 by (apply to_bytes_nonempty;
    [apply clean_version; unfold in_u in *; lia|apply insert_non_empty]). simpl.
  rewrite StringMap.map_from_to_bytes by (apply clean_version; unfold in_u in *; lia).
  unfold declared_version. rewrite lookup_singleton_eq. simpl.
  unfold parse_u8. rewrite parse_to_dec; [done|unfold in_u in *; lia].
Qed.

(** The server's reaction to a client's opening settings, whatever the order in
    which the two sides iterate their hash maps. *)
Lemma on_frame_client_settings (Oc Os : IterOrder) `{Md5} pf name s :
  wf_padding pf → clean_entry (str "client") name →
  on_frame (H := Os) s false
    (Frame_with_data Settings 0 (StringMap.to_bytes (H := Oc) (client_settings pf name))) =
  (set_peer_version (mark_received_settings_from_client s) PROTOCOL_VERSION,
   (if decide (md5 pf = md5 (padding s)) then []
    else [SendFrameSync (Frame_with_data UpdatePaddingScheme 0 (raw_scheme (padding s)))]) ++
   [SendFrameSync (server_settings_frame (H := Os) PROTOCOL_VERSION)]).
Proof.
  intros Hpf Hname. pose proof (clean_client_settings pf name Hpf Hname) as Hc.
  unfold on_frame; simpl. rewrite bool_decide_eq_false_2 by (apply to_bytes_nonempty; [done|apply insert_non_empty]).
  unfold on_settings, declared_version. rewrite StringMap.map_from_to_bytes by done.
  assert (client_settings pf name !! str "v" = Some (to_dec PROTOCOL_VERSION)) as ->.
  { unfold client_settings.
    by rewrite !(lookup_insert_ne _ _ (str "v")), lookup_insert_eq by by vm_compute. }
  assert (client_settings pf name !! str "padding-md5" = Some (md5 pf)) as ->
    by apply lookup_insert_eq.
  destruct (decide (md5 pf = md5 (padding s))) as [E|E].
  - by rewrite decide_True by by rewrite E.
  - by rewrite decide_False by (simpl; congruence).
Qed.

(** ** Sequences of frames *)

Section frames.
  Context `{IterOrder, Md5}.

Lemma on_frames_app s c fs1 fs2 :
  on_frames s c (fs1 ++ fs2) =
    let '(s1, a1) := on_frames s c fs1 in
    let '(s2, a2) := on_frames s1 c fs2 in (s2, a1 ++ a2).
Proof.
  revert s. induction fs1 as [|f fs1 IH]; intros s; simpl.
  { by destruct (on_frames s c fs2). }
  destruct (on_frame s c f) as [s1 a1]. rewrite IH. destruct (on_frames s1 c fs1) as [s2 a2].
  destruct (on_frames s2 c fs2) as [s3 a3]. by rewrite app_assoc.
Qed.

(** Which frame of a sequence an action comes from. *)
Lemma on_frames_origin s c fs a :
  a ∈ (on_frames s c fs).2 →
  ∃ fs1 f fs2, fs = fs1 ++ f :: fs2 ∧ a ∈ (on_frame (on_frames s c fs1).1 c f).2.
Proof.
  revert s. induction fs as [|f fs IH]; intros s; simpl; [by intros ?%not_elem_of_nil|].
  destruct (on_frame s c f) as [s1 a1] eqn:E. destruct (on_frames s1 c fs) as [s2 a2] eqn:E2. simpl.
  intros [Ha|Ha]%elem_of_app.
  - exists [], f, fs. simpl. by rewrite E.
  - destruct (IH s1) as (fs1 & g & fs2 & -> & Hg); [by rewrite E2|].
    exists (f :: fs1), g, fs2. simpl. rewrite E. by destruct (on_frames s1 c fs1).
Qed.

(** The settings flag records whether a non-empty [Settings] frame was seen. *)
Lemma on_frames_settings s fs :
  received_settings_from_client (on_frames s false fs).1 = true →
  received_settings_from_client s = true ∨ ∃ f, f ∈ fs ∧ cmd f = Settings ∧ data f ≠ [].
Proof.
  revert s. induction fs as [|f fs IH]; intros s; simpl; [by left|].
  pose proof (on_frame_settings s false f) as Hf.
  destruct (on_frame s false f) as [s1 a1]; simpl in Hf. specialize (IH s1).
  destruct (on_frames s1 false fs) as [s2 a2]; simpl in *. intros [Hs|(g & Hg & ?)]%IH.
  - rewrite Hf in Hs. apply orb_true_iff in Hs as [?|Hs]; [by left|right].
    apply andb_true_iff in Hs as [Hc Hd]. apply bool_decide_eq_true in Hc.
    apply negb_true_iff, bool_decide_eq_false in Hd. exists f. split; [left|done].
  - right. exists g. split; [by right|done].
Qed.

Lemma on_frame_incoming s c f i :
  EnsureIncomingStream i ∈ (on_frame s c f).2 →
  c = false ∧ cmd f = Syn ∧ sid f = i ∧ received_settings_from_client s = true.
Proof.
  unfold on_frame. destruct (cmd f) eqn:Hc; try (repeat case_match; set_solver).
  case_match; [set_solver|].
  destruct (on_settings_cases s (data f)) as (u & v & -> & -> & _). simpl.
  destruct (decide _), v; set_solver.
Qed.

(** The stream an action acts on. *)
Definition action_sid (a : ProtocolAction) : option Z :=
  match a with
  | PushStreamData i _ | EnsureIncomingStream i | CloseLocalStream i | CloseRemoteStream i _ => Some i
  | _ => None
  end.

(** ** Properties *)

(** A server opens an incoming stream only for a [Syn] that follows a
    non-empty [Settings] frame of the same session. *)
Theorem stream_needs_settings pf fs i :
  EnsureIncomingStream i ∈ (on_frames (State_new pf) false fs).2 →
  ∃ fs1 f fs2 g, fs = fs1 ++ f :: fs2 ∧ cmd f = Syn ∧ sid f = i ∧
    g ∈ fs1 ∧ cmd g = Settings ∧ data g ≠ [].
Proof.
  intros (fs1 & f & fs2 & -> & (_ & Hc & Hi & Hs)%on_frame_incoming)%on_frames_origin.
  apply on_frames_settings in Hs as [Hs|(g & ? & ? & ?)]; [done|].
  by exists fs1, f, fs2, g.
Qed.

(** A [Syn] before the client's settings makes the server raise exactly the
    documented alert and change nothing. *)
Theorem early_syn_is_refused pf fs i d :
  Forall (fun f => cmd f ≠ Settings ∨ data f = []) fs →
  let s := (on_frames (State_new pf) false fs).1 in
  on_frame s false (Frame_with_data Syn i d) = (s, [AlertAndFail settings_missing]).
Proof.
  intros Hfs s. unfold on_frame; simpl.
  destruct (received_settings_from_client s) eqn:Hs; [|done].
  apply on_frames_settings in Hs as [?|(g & Hg & Hc & Hd)]; [done|].
  rewrite Forall_forall in Hfs. naive_solver.
Qed.

(** Frames act only on the stream they name: every stream action carries the
    frame's own stream id, a frame produces at most one of them, and [Waste],
    [Settings], heartbeats and unknown commands produce none. *)
Theorem frame_acts_on_its_stream s c f :
  let acts := omap action_sid (on_frame s c f).2 in
  (acts = [] ∨ acts = [sid f]) ∧ (acts ≠ [] → cmd f ∈ [Psh; Syn; Fin; SynAck]).
Proof.
  unfold on_frame. destruct (cmd f) eqn:Hc; try (repeat case_match; simpl; set_solver).
  destruct (_ || _); [simpl; set_solver|].
  destruct (on_settings_cases s (data f)) as (u & v & -> & -> & _). simpl.
  destruct (decide _), v; simpl; set_solver.
Qed.

(** The server's padding scheme is not influenced by the peer, and the
    negotiated version stays a byte, whatever frames arrive. *)
Theorem server_state_invariant pf fs :
  let s := (on_frames (State_new pf) false fs).1 in
  padding s = pf ∧ in_u 8 (peer_version s).
Proof.
  simpl. assert (∀ s, padding s = pf → in_u 8 (peer_version s) →
    padding (on_frames s false fs).1 = pf ∧ in_u 8 (peer_version (on_frames s false fs).1)) as Hg.
  { induction fs as [|f fs IH]; intros s Hp Hv; [done|]. simpl.
    pose proof (on_frame_padding s false f) as [Hp'|[? _]]; [|done].
    pose proof (on_frame_peer_version s false f Hv) as Hv'.
    destruct (on_frame s false f) as [s1 a1]; simpl in *. specialize (IH s1).
    destruct (on_frames s1 false fs); simpl in *. apply IH; congruence. }
  apply Hg; done.
Qed.
End frames.

(** C23. Settings negotiation.  Whatever order the two peers' hash maps iterate
    in, the server's answer to the client's opening frame leaves both sides with
    the protocol version agreed and the same padding digest; the client adopts
    the server's scheme exactly when the digests differed. *)
Theorem settings_negotiation (Oc Os : IterOrder) (M : Md5) pfc pfs name :
  wf_padding pfc → wf_padding pfs → clean_entry (str "client") name →
  let hello := omap action_frame (on_session_start (H := Oc) (State_new pfc) true name) in
  let '(ss, acts) := on_frames (H := Os) (State_new pfs) false hello in
  let '(sc, acts') := on_frames (H := Oc) (State_new pfc) true (omap action_frame acts) in
  received_settings_from_client ss = true ∧ acts' = [] ∧
  peer_version ss = PROTOCOL_VERSION ∧ peer_version sc = PROTOCOL_VERSION ∧
  padding ss = pfs ∧ padding sc = (if decide (md5 pfc = md5 pfs) then pfc else pfs).
Proof.
  intros Hc Hs Hname. cbn zeta.
  change (omap action_frame (on_session_start (H := Oc) (State_new pfc) true name)) with
    [Frame_with_data Settings 0 (StringMap.to_bytes (H := Oc) (client_settings pfc name))].
  cbn [on_frames]. rewrite (on_frame_client_settings Oc Os) by done. simpl padding.
  pose proof (fun s => on_frame_server_settings Oc Os s PROTOCOL_VERSION ltac:(done)) as Hss.
  destruct (decide (md5 pfc = md5 pfs)); cbn [app omap list_omap action_frame on_frames].
  - by rewrite Hss.
  - rewrite on_frame_update_padding by done. by rewrite Hss.
Qed.

(** *** Witnesses *)

Definition toy_scheme (s : string) : PaddingFactory :=
  default (mkPadding ∅ [] 0 []) (PaddingFactory_new (H := toy_md5) (str s)).

(** A session of a server: heartbeat, settings, a stream. *)
Definition toy_frames : list Frame :=
  [Frame_new HeartRequest 0; Frame_with_data Settings 0 (str "v=2"); Frame_new Syn 5].

Lemma stream_needs_settings_witness :
  ∃ fs1 f fs2 g, toy_frames = fs1 ++ f :: fs2 ∧ cmd f = Syn ∧ sid f = 5%Z ∧
    g ∈ fs1 ∧ cmd g = Settings ∧ data g ≠ [].
Proof.
  apply (stream_needs_settings (H := map_order) (H0 := toy_md5) (toy_scheme "stop=8")).
  apply (bool_decide_unpack _). vm_compute. done.
Defined.

Lemma early_syn_is_refused_witness :
  let s := (on_frames (H := map_order) (H0 := toy_md5) (State_new (toy_scheme "stop=8")) false
              [Frame_new HeartRequest 0; Frame_new Settings 0]).1 in
  on_frame (H := map_order) (H0 := toy_md5) s false (Frame_with_data Syn 5 []) =
    (s, [AlertAndFail settings_missing]).
Proof.
  apply (early_syn_is_refused (H := map_order) (H0 := toy_md5) (toy_scheme "stop=8")).
  constructor; [by left|]. constructor; [by right|constructor].
Defined.

Lemma frame_acts_on_its_stream_witness :
  cmd (Frame_with_data Psh 3 (str "x")) ∈ [Psh; Syn; Fin; SynAck].
Proof.
  apply (frame_acts_on_its_stream (H := map_order) (H0 := toy_md5)
    (State_new (toy_scheme "stop=8")) true (Frame_with_data Psh 3 (str "x"))). by vm_compute.
Defined.

Lemma settings_negotiation_witness :
  let pfc := toy_scheme "stop=8" in
  let pfs := toy_scheme "stop=10" in
  let hello := omap action_frame (on_session_start (H := map_order) (State_new pfc) true PROGRAM_VERSION_NAME) in
  let '(ss, acts) := on_frames (H := rev_order) (H0 := toy_md5) (State_new pfs) false hello in
  let '(sc, acts') := on_frames (H := map_order) (H0 := toy_md5) (State_new pfc) true (omap action_frame acts) in
  received_settings_from_client ss = true ∧ acts' = [] ∧
  peer_version ss = PROTOCOL_VERSION ∧ peer_version sc = PROTOCOL_VERSION ∧
  padding ss = pfs ∧ padding sc = (if decide (md5 pfc = md5 pfs) then pfc else pfs).
Proof.
  apply (settings_negotiation map_order rev_order toy_md5 (toy_scheme "stop=8") (toy_scheme "stop=10")).
  - exists (str "stop=8"). by vm_compute.
  - exists (str "stop=10"). by vm_compute.
  - apply (bool_decide_unpack _). by vm_compute.
Defined.
