(* ===== verification/Pipe.v ===== *)
(** * The in-memory pipe of a stream ([src/proxy/pipe/io_pipe.rs])

    The pipe carries received payload from the session's receive loop (the
    writer side) to the task that reads the stream.  [PipeReader::read] gives
    up the lock several times, so it is a small state machine ([Phase]) whose
    steps interleave with [write], [finish_stream], [close_with_error], the
    read deadline, and the cancellation of the reading future. *)

From S2P Require Import Prelude.

Inductive PipeEvent : Type :=
  | Data (d : bytes)
  | StreamEnd (error : option io_error).

(** [PipeInner].  [data_sender] and [data_receiver] say whether the option holds
    its channel half; [queue] is what the channel holds; [rx_alive] is false
    once the receiving half has been dropped. *)
Record PipeInner : Type := mkPipe {
  closed : bool;
  stream_end_queued : bool;
  read_error : option io_error;
  data_sender : bool;
  data_receiver : bool;
  queue : list PipeEvent;
  rx_alive : bool;
  buffer : bytes;
}.

(** [pipe()]. *)
Definition pipe : PipeInner := mkPipe false false None true true [] true [].

Definition set_buffer (p : PipeInner) (b : bytes) : PipeInner :=
  mkPipe (closed p) (stream_end_queued p) (read_error p) (data_sender p)
    (data_receiver p) (queue p) (rx_alive p) b.
Definition set_queue (p : PipeInner) (q : list PipeEvent) : PipeInner :=
  mkPipe (closed p) (stream_end_queued p) (read_error p) (data_sender p)
    (data_receiver p) q (rx_alive p) (buffer p).
Definition set_receiver (p : PipeInner) (r : bool) : PipeInner :=
  mkPipe (closed p) (stream_end_queued p) (read_error p) (data_sender p)
    r (queue p) (rx_alive p) (buffer p).
Definition set_read_error (p : PipeInner) (e : option io_error) : PipeInner :=
  mkPipe (closed p) (stream_end_queued p) e (data_sender p)
    (data_receiver p) (queue p) (rx_alive p) (buffer p).
(** [closed = true; data_sender = None]. *)
Definition shut (p : PipeInner) : PipeInner :=
  mkPipe true (stream_end_queued p) (read_error p) false
    (data_receiver p) (queue p) (rx_alive p) (buffer p).
Definition set_end_queued (p : PipeInner) : PipeInner :=
  mkPipe (closed p) true (read_error p) (data_sender p)
    (data_receiver p) (queue p) (rx_alive p) (buffer p).
(** The receiving half is dropped: the channel and what it holds are gone. *)
Definition drop_receiver (p : PipeInner) : PipeInner :=
  mkPipe (closed p) (stream_end_queued p) (read_error p) (data_sender p)
    (data_receiver p) [] false (buffer p).

Definition pipe_closed : io_error := IoError BrokenPipe (str "Pipe closed").
Definition channel_closed : io_error :=
  IoError BrokenPipe (str "Channel closed: channel closed").
Definition reader_in_use : io_error := IoError BrokenPipe (str "Pipe reader already in use").
Definition deadline_reached : io_error := IoError TimedOut (str "read deadline reached").

(** [PipeWriter::write]. *)
Definition write (p : PipeInner) (buf : bytes) : result nat * PipeInner :=
  if closed p || stream_end_queued p then (Err pipe_closed, p)
  else if data_sender p then
    if rx_alive p then (Ok (length buf), set_queue p (queue p ++ [Data buf]))
    else (Err channel_closed, p)
  else (Err pipe_closed, p).

(** [PipeReader::finish_stream]. *)
Definition finish_stream (p : PipeInner) (error : option io_error) : PipeInner :=
  if closed p || stream_end_queued p then p
  else
    let p1 := set_end_queued p in
    let sent := data_sender p1 && rx_alive p1 in
    if sent then set_queue p1 (queue p1 ++ [StreamEnd error]) else shut p1.

(** The body of the task [PipeReader::close_with_error] spawns. *)
Definition close_with_error (p : PipeInner) (error : option io_error) : PipeInner :=
  shut (set_read_error p error).

(** ** [PipeReader::read] with a buffer of [n] bytes *)

Inductive Phase : Type :=
  | Idle                                      (* no read in progress *)
  | Checking (n : nat)                        (* about to take the lock of step 1 *)
  | WaitReceiver (n : nat)                    (* waiting for [read_waiter] *)
  | TakeReceiver (n : nat)                    (* about to take the receiver *)
  | WaitData (n : nat)                        (* holds the receiver, in [select!] *)
  | GotEvent (n : nat) (res : option PipeEvent). (* about to restore the receiver *)

(** Step 1, under the lock: buffered data, end of stream, or on to step 2. *)
Definition read_check (n : nat) (p : PipeInner) : (result bytes + Phase) * PipeInner :=
  match buffer p with
  | _ :: _ =>
      let len := length (buffer p) `min` n in
      (inl (Ok (take len (buffer p))), set_buffer p (drop len (buffer p)))
  | [] =>
      if closed p && negb (data_sender p) then
        match read_error p with
        | Some err => (inl (Err err), set_read_error p None)
        | None => (inl (Ok []), p)
        end
      else if data_receiver p then (inr (TakeReceiver n), p)
      else (inr (WaitReceiver n), p)
  end.

Definition read_take (n : nat) (p : PipeInner) : (result bytes + Phase) * PipeInner :=
  if data_receiver p then (inr (WaitData n), set_receiver p false)
  else (inl (Err reader_in_use), p).

(** [receiver.recv()]: [None] while it blocks; [Some None] once every sender is
    dropped and the queue is empty. *)
Definition recv (p : PipeInner) : option (option PipeEvent * PipeInner) :=
  match queue p with
  | e :: q => Some (Some e, set_queue p q)
  | [] => if data_sender p then None else Some (None, p)
  end.

(** The code after the [select!]: restore the receiver and return. *)
Definition read_finish (n : nat) (res : option PipeEvent) (p : PipeInner) : result bytes * PipeInner :=
  let p := set_receiver p true in
  match res with
  | Some (Data d) =>
      let len := length d `min` n in
      (Ok (take len d), if len <? length d then set_buffer p (buffer p ++ drop len d) else p)
  | Some (StreamEnd error) =>
      let p := shut p in
      (match error with Some err => Err err | None => Ok [] end, p)
  | None =>
      match read_error p with
      | Some err => (Err err, set_read_error p None)
      | None => if data_sender p then (Err deadline_reached, p) else (Ok [], p)
      end
  end.

(** ** The pipe as a transition system: one reader, any writers *)

Record PipeState : Type := mkPS { inner : PipeInner; phase : Phase }.

Inductive plabel : Type :=
  | LCall (n : nat)
  | LTau
  | LRet (n : nat) (r : result bytes)
  | LWrite (d : bytes) (r : result nat)
  | LFinish (e : option io_error)
  | LClose (e : option io_error)
  | LDeadline
  | LCancel (held : bool).

Inductive pstep : PipeState → plabel → PipeState → Prop :=
  | ps_call p n : pstep (mkPS p Idle) (LCall n) (mkPS p (Checking n))
  | ps_check_ret p n r p' :
      read_check n p = (inl r, p') →
      pstep (mkPS p (Checking n)) (LRet n r) (mkPS p' Idle)
  | ps_check_go p n ph p' :
      read_check n p = (inr ph, p') →
      pstep (mkPS p (Checking n)) LTau (mkPS p' ph)
  | ps_notified p n : pstep (mkPS p (WaitReceiver n)) LTau (mkPS p (Checking n))
  | ps_wait_deadline p n :
      pstep (mkPS p (WaitReceiver n)) (LRet n (Err deadline_reached)) (mkPS p Idle)
  | ps_take_ret p n r p' :
      read_take n p = (inl r, p') →
      pstep (mkPS p (TakeReceiver n)) (LRet n r) (mkPS p' Idle)
  | ps_take_go p n ph p' :
      read_take n p = (inr ph, p') →
      pstep (mkPS p (TakeReceiver n)) LTau (mkPS p' ph)
  | ps_recv p n res p' :
      recv p = Some (res, p') →
      pstep (mkPS p (WaitData n)) LTau (mkPS p' (GotEvent n res))
  | ps_deadline p n :
      pstep (mkPS p (WaitData n)) LDeadline (mkPS p (GotEvent n None))
  | ps_finish p n res r p' :
      read_finish n res p = (r, p') →
      pstep (mkPS p (GotEvent n res)) (LRet n r) (mkPS p' Idle)
  | ps_cancel_holding p n :
      pstep (mkPS p (WaitData n)) (LCancel true) (mkPS (drop_receiver p) Idle)
  | ps_cancel_got p n res :
      pstep (mkPS p (GotEvent n res)) (LCancel true) (mkPS (drop_receiver p) Idle)
  | ps_cancel_free p ph n :
      ph = Checking n ∨ ph = WaitReceiver n ∨ ph = TakeReceiver n →
      pstep (mkPS p ph) (LCancel false) (mkPS p Idle)
  | ps_write p ph d r p' :
      write p d = (r, p') → pstep (mkPS p ph) (LWrite d r) (mkPS p' ph)
  | ps_finish_stream p ph e :
      pstep (mkPS p ph) (LFinish e) (mkPS (finish_stream p e) ph)
  | ps_close p ph e :
      pstep (mkPS p ph) (LClose e) (mkPS (close_with_error p e) ph).

(** Runs, extended on the right. *)
Inductive psteps (s0 : PipeState) : list plabel → PipeState → Prop :=
  | psteps_nil : psteps s0 [] s0
  | psteps_snoc tr s l s' : psteps s0 tr s → pstep s l s' → psteps s0 (tr ++ [l]) s'.

Definition pipe_init : PipeState := mkPS pipe Idle.

(** Bytes accepted by successful writes, bytes handed out by successful reads. *)
Definition label_written (l : plabel) : bytes :=
  match l with LWrite d (Ok _) => d | _ => [] end.
Definition label_read (l : plabel) : bytes :=
  match l with LRet _ (Ok d) => d | _ => [] end.
Definition written (tr : list plabel) : bytes := concat (label_written <$> tr).
Definition delivered (tr : list plabel) : bytes := concat (label_read <$> tr).

(** A step that throws received data away: a local close or a read cancelled
    while it holds the receiver. *)
Definition lossy_label (l : plabel) : bool :=
  match l with LClose _ | LCancel true => true | _ => false end.

(** A write that carries no data (the engine never issues one). *)
Definition empty_write (l : plabel) : bool :=
  match l with LWrite [] _ => true | _ => false end.

(** ** The invariant *)

Definition event_data (e : PipeEvent) : bytes := match e with Data d => d | StreamEnd _ => [] end.
Definition queue_data (q : list PipeEvent) : bytes := concat (event_data <$> q).

Definition inflight (ph : Phase) : list PipeEvent :=
  match ph with GotEvent _ (Some e) => [e] | _ => [] end.

(** The events not yet handed to the reader's buffer, in order. *)
Definition pending (s : PipeState) : list PipeEvent := inflight (phase s) ++ queue (inner s).

Definition holding (ph : Phase) : bool :=
  match ph with WaitData _ | GotEvent _ _ => true | _ => false end.

Definition before_data (ph : Phase) : bool :=
  match ph with TakeReceiver _ | WaitData _ | GotEvent _ _ => true | _ => false end.

Definition is_data (e : PipeEvent) : Prop := match e with Data d => d ≠ [] | StreamEnd _ => False end.

(** The shape of the pending events: while the stream is open, data only; once
    its end is queued, data followed by the end; once the end is read, nothing. *)
Definition pending_shape (p : PipeInner) (l : list PipeEvent) : Prop :=
  if closed p then l = []
  else if stream_end_queued p then ∃ ds e, l = ds ++ [StreamEnd e] ∧ Forall is_data ds
  else Forall is_data l.

Definition pipe_inv (tr : list plabel) (s : PipeState) : Prop :=
  delivered tr ++ buffer (inner s) ++ queue_data (pending s) = written tr ∧
  pending_shape (inner s) (pending s) ∧
  data_sender (inner s) = negb (closed (inner s)) ∧
  read_error (inner s) = None ∧
  rx_alive (inner s) = true ∧
  data_receiver (inner s) = negb (holding (phase s)) ∧
  (before_data (phase s) = true → buffer (inner s) = [] ∧ closed (inner s) = false) ∧
  (∀ n, phase s ≠ WaitReceiver n).

(** ** Lemmas *)

Lemma written_snoc tr l : written (tr ++ [l]) = written tr ++ label_written l.
Proof. unfold written. rewrite fmap_app. apply concat_snoc. Qed.

Lemma delivered_snoc tr l : delivered (tr ++ [l]) = delivered tr ++ label_read l.
Proof. unfold delivered. rewrite fmap_app. apply concat_snoc. Qed.

Lemma queue_data_app q1 q2 : queue_data (q1 ++ q2) = queue_data q1 ++ queue_data q2.
Proof. unfold queue_data. by rewrite fmap_app, concat_app. Qed.

Lemma queue_data_one d : queue_data [Data d] = d.
Proof. apply app_nil_r. Qed.

Lemma pipe_inv_init : pipe_inv [] pipe_init.
Proof. unfold pipe_inv, pending_shape. simpl. split_and!; (done || constructor). Qed.

Lemma write_cases p d :
  (closed p = false ∧ stream_end_queued p = false ∧ data_sender p = true ∧ rx_alive p = true ∧
     write p d = (Ok (length d), set_queue p (queue p ++ [Data d]))) ∨
  (∃ e, err_kind e = BrokenPipe ∧ write p d = (Err e, p)).
Proof.
  unfold write. destruct (closed p), (stream_end_queued p), (data_sender p), (rx_alive p); simpl;
    (by left) || (right; by exists pipe_closed) || (right; by exists channel_closed).
Qed.

(** Appending an event to the channel. *)
Lemma pending_enqueue p ph q e :
  pending (mkPS (set_queue p (q ++ [e])) ph) = (inflight ph ++ q) ++ [e].
Proof. unfold pending; simpl. by rewrite app_assoc. Qed.

(** Open the invariant of a hypothesis and of the goal. *)
Ltac pipe_open H :=
  destruct H as (Hb & Hsh & Hsend & Herr & Hrx & Hrecv & Hbd & Hw);
  unfold pipe_inv; cbn [inner phase] in *.

(** The components of the invariant a step leaves alone. *)
Ltac pipe_side :=
  repeat match goal with
  | E : closed ?p = ?b, H : context [closed ?p] |- _ =>
      lazymatch type of H with closed p = b => fail | _ => rewrite E in H end
  | E : closed ?p = _ |- context [closed ?p] => rewrite E
  | E : buffer ?p = _ |- context [buffer ?p] => rewrite E
  end; split_and!; (done || naive_solver).

Lemma pipe_inv_write tr p ph d r p' :
  d ≠ [] → pipe_inv tr (mkPS p ph) → write p d = (r, p') →
  pipe_inv (tr ++ [LWrite d r]) (mkPS p' ph).
Proof.
  intros Hd Hinv E. pipe_open Hinv.
  destruct (write_cases p d) as [(C & Q & _ & _ & W)|(e & _ & W)]; rewrite W in E; simplify_eq.
  - split; [|split; [|simpl; pipe_side]].
    + rewrite written_snoc, delivered_snoc, pending_enqueue, queue_data_app, <- Hb. simpl.
      by rewrite queue_data_one, app_nil_r, <- !app_assoc.
    + unfold pending_shape in *. simpl in *. rewrite C, Q in *.
      rewrite pending_enqueue. apply Forall_app; split; [done|]. by repeat constructor.
  - split; [|pipe_side]. rewrite written_snoc, delivered_snoc; simpl. by rewrite !app_nil_r.
Qed.

Lemma pipe_inv_finish tr p ph e :
  pipe_inv tr (mkPS p ph) → pipe_inv (tr ++ [LFinish e]) (mkPS (finish_stream p e) ph).
Proof.
  intros Hinv. pipe_open Hinv.
  unfold finish_stream. destruct (closed p) eqn:C; simpl.
  { split; [|pipe_side]. rewrite written_snoc, delivered_snoc; simpl. by rewrite !app_nil_r. }
  destruct (stream_end_queued p) eqn:Q.
  { split; [|pipe_side]. rewrite written_snoc, delivered_snoc; simpl. by rewrite !app_nil_r. }
  rewrite Hsend, Hrx; simpl.
  split; [|split; [|simpl; pipe_side]].
  - rewrite written_snoc, delivered_snoc, pending_enqueue, queue_data_app. simpl.
    rewrite !app_nil_r. exact Hb.
  - unfold pending_shape in *. simpl in *. rewrite C, Q in *.
    exists (pending (mkPS p ph)), e. split; [|done]. unfold pending; simpl. by rewrite app_assoc.
Qed.

Lemma pipe_inv_check tr p n :
  pipe_inv tr (mkPS p (Checking n)) →
  match read_check n p with
  | (inl r, p') => pipe_inv (tr ++ [LRet n r]) (mkPS p' Idle)
  | (inr ph, p') => pipe_inv (tr ++ [LTau]) (mkPS p' ph)
  end.
Proof.
  intros Hinv. pipe_open Hinv.
  unfold read_check. destruct (buffer p) as [|x b] eqn:B.
  - rewrite Hsend, Herr. destruct (closed p) eqn:C; simpl.
    + split; [|pipe_side]. rewrite written_snoc, delivered_snoc, B; simpl. by rewrite !app_nil_r.
    + rewrite Hrecv; simpl.
      split; [|simpl; pipe_side].
      rewrite written_snoc, delivered_snoc, B; simpl. by rewrite !app_nil_r.
  - rewrite <- B. split; [|pipe_side]. rewrite written_snoc, delivered_snoc; simpl.
    rewrite app_nil_r, <- app_assoc, (app_assoc (take _ _)), take_drop, B. exact Hb.
Qed.

Lemma pipe_inv_take tr p n :
  pipe_inv tr (mkPS p (TakeReceiver n)) →
  read_take n p = (inr (WaitData n), set_receiver p false) ∧
  pipe_inv (tr ++ [LTau]) (mkPS (set_receiver p false) (WaitData n)).
Proof.
  intros Hinv. pipe_open Hinv.
  unfold read_take. rewrite Hrecv; simpl. split; [done|].
  split; [|pipe_side]. rewrite written_snoc, delivered_snoc; simpl. by rewrite !app_nil_r.
Qed.

Lemma pipe_inv_recv tr p n res p' :
  pipe_inv tr (mkPS p (WaitData n)) → recv p = Some (res, p') →
  pipe_inv (tr ++ [LTau]) (mkPS p' (GotEvent n res)).
Proof.
  intros Hinv E. pipe_open Hinv.
  destruct (Hbd eq_refl) as [_ C]. simpl in *. unfold recv in E.
  destruct (queue p) as [|e q] eqn:Q; [rewrite Hsend, C in E; done|]. simplify_eq.
  unfold pending in *; simpl in *. rewrite Q in *.
  split; [|pipe_side]. rewrite written_snoc, delivered_snoc; simpl. by rewrite !app_nil_r.
Qed.

Lemma pipe_inv_ret tr p n res r p' :
  pipe_inv tr (mkPS p (GotEvent n res)) → read_finish n res p = (r, p') →
  pipe_inv (tr ++ [LRet n r]) (mkPS p' Idle).
Proof.
  intros Hinv E. pipe_open Hinv.
  destruct (Hbd eq_refl) as [B C]. unfold pending_shape, pending in *. simpl in *.
  rewrite C, B in *. unfold read_finish in E; simpl in E.
  destruct res as [[d|e]|]; simpl in *.
  - assert (r = Ok (take n d) ∧ p' = set_buffer (set_receiver p true) (drop n d)) as [-> ->].
    { rewrite (Nat.min_comm (length d) n), <- take_take, firstn_all in E.
      destruct (Nat.ltb_spec (n `min` length d) (length d)); simplify_eq; (split; [done|]).
      - rewrite B. by rewrite Nat.min_l by lia.
      - unfold set_buffer, set_receiver; simpl. by rewrite drop_ge, B by lia. }
    unfold pipe_inv, pending_shape, pending; simpl. rewrite C.
    split; [|split; [|simpl; pipe_side]].
    + rewrite written_snoc, delivered_snoc; simpl. rewrite app_nil_r, <- Hb. unfold queue_data; simpl.
      by rewrite <- (app_assoc _ (take n d)), (app_assoc (take n d)), take_drop.
    + destruct (stream_end_queued p).
      * destruct Hsh as ([|d' ds] & e & Hl & Hds); simplify_eq/=. inversion Hds; subst. eauto.
      * by inversion Hsh.
  - simplify_eq. destruct (stream_end_queued p); [|by inversion Hsh].
    destruct Hsh as ([|d' ds] & e' & Hl & Hds); simplify_eq/=; [|inversion Hds; subst; done].
    unfold pipe_inv, pending_shape, pending; simpl.
    split; [|pipe_side]. rewrite written_snoc, delivered_snoc, B, <- Hb.
    match goal with Q : queue p = [] |- _ => rewrite Q end. destruct e'; simpl; by rewrite !app_nil_r.
  - rewrite Herr, Hsend in E. simplify_eq.
    unfold pipe_inv, pending_shape, pending; simpl. rewrite C.
    split; [|pipe_side]. rewrite written_snoc, delivered_snoc; simpl. by rewrite B, !app_nil_r.
Qed.

Lemma pipe_inv_quiet tr l s s' :
  label_written l = [] → label_read l = [] →
  inner s' = inner s → inflight (phase s') = inflight (phase s) →
  holding (phase s') = holding (phase s) →
  (before_data (phase s') = true → before_data (phase s) = true) →
  (∀ n, phase s' ≠ WaitReceiver n) →
  pipe_inv tr s → pipe_inv (tr ++ [l]) s'.
Proof.
  intros Hl1 Hl2 Hi Hf Hh Hd Hw' (Hb & Hsh & Hsend & Herr & Hrx & Hrecv & Hbd & Hw).
  unfold pipe_inv, pending in *. rewrite Hi, Hf, Hh.
  split; [|split_and!; auto]. by rewrite written_snoc, delivered_snoc, Hl1, Hl2, !app_nil_r.
Qed.

(** Every step that loses nothing preserves the invariant. *)
Lemma pipe_inv_step tr s l s' :
  lossy_label l = false → empty_write l = false →
  pipe_inv tr s → pstep s l s' → pipe_inv (tr ++ [l]) s'.
Proof.
  intros Hl He Hinv Hstep. destruct Hstep; try discriminate Hl.
  - by apply (pipe_inv_quiet _ _ (mkPS p Idle)).
  - pose proof (pipe_inv_check _ _ _ Hinv) as Hc. by rewrite H in Hc.
  - pose proof (pipe_inv_check _ _ _ Hinv) as Hc. by rewrite H in Hc.
  - exfalso. destruct Hinv as (_ & _ & _ & _ & _ & _ & _ & Hw). by apply (Hw n).
  - exfalso. destruct Hinv as (_ & _ & _ & _ & _ & _ & _ & Hw). by apply (Hw n).
  - destruct (pipe_inv_take _ _ _ Hinv). congruence.
  - destruct (pipe_inv_take _ _ _ Hinv) as [E ?]. rewrite E in H. by simplify_eq.
  - by eapply pipe_inv_recv.
  - by apply (pipe_inv_quiet _ _ (mkPS p (WaitData n))).
  - by eapply pipe_inv_ret.
  - by apply (pipe_inv_quiet _ _ (mkPS p ph)); destruct_or! H; subst.
  - eapply pipe_inv_write; [|done..]. by destruct d.
  - by apply pipe_inv_finish.
Qed.

Definition quiet_trace (tr : list plabel) : bool :=
  forallb (fun l => negb (lossy_label l) && negb (empty_write l)) tr.

Lemma quiet_trace_snoc tr l :
  quiet_trace (tr ++ [l]) = true →
  quiet_trace tr = true ∧ lossy_label l = false ∧ empty_write l = false.
Proof.
  unfold quiet_trace. rewrite forallb_app, andb_true_iff. simpl.
  rewrite andb_true_r, andb_true_iff, !negb_true_iff. naive_solver.
Qed.

Lemma pipe_inv_reach tr s :
  quiet_trace tr = true → psteps pipe_init tr s → pipe_inv tr s.
Proof.
  intros Hq Hr. induction Hr as [|tr s l s' Hr IH Hs]; [apply pipe_inv_init|].
  apply quiet_trace_snoc in Hq as (Hq & Hl & He). eapply pipe_inv_step; eauto.
Qed.

(** A read into a non-empty buffer that returns no data has seen the end. *)
Lemma ret_empty_end tr s n s' :
  0 < n → pipe_inv tr s → pstep s (LRet n (Ok [])) s' →
  buffer (inner s) = [] ∧ queue_data (pending s) = [].
Proof.
  intros Hn Hinv Hstep. inversion Hstep as [|p n' r p' E| | | |p n' r p' E| | | |p n' res r p' E| | | | | |]; subst; simpl.
  - pipe_open Hinv. unfold read_check in E. destruct (buffer p) as [|x b] eqn:B.
    + split; [done|]. destruct (closed p) eqn:C; [|destruct (data_receiver p); by rewrite Hsend in E].
      unfold pending_shape in Hsh. rewrite C in Hsh. by rewrite Hsh.
    + destruct n; [lia|]. done.
  - destruct (pipe_inv_take _ _ _ Hinv) as [E' _]. congruence.
  - pipe_open Hinv. destruct (Hbd eq_refl) as [B C]. split; [done|].
    unfold pending_shape, pending in *. simpl in *. rewrite C in Hsh. unfold read_finish in E.
    destruct res as [[d|e]|]; simpl in *.
    + exfalso. assert (d ≠ []) as Hd.
      { destruct (stream_end_queued p); [destruct Hsh as ([|d' ds] & e & Hl & Hds); simplify_eq/=|];
          by inversion_clear Hds || by inversion_clear Hsh. }
      destruct d; [done|]. destruct n; [lia|]. done.
    + destruct (stream_end_queued p); [|by inversion Hsh].
      destruct Hsh as ([|d' ds] & e' & Hl & Hds); simplify_eq/=; [|by inversion_clear Hds].
      by match goal with Q : queue p = [] |- _ => rewrite Q end.
    + rewrite Herr, Hsend, C in E. done.
Qed.

(** ** An undisturbed read *)

(** [read] run to completion with nothing interleaved: [None] when it blocks. *)
Definition read_now (n : nat) (p : PipeInner) : option (result bytes * PipeInner) :=
  match read_check n p with
  | (inl r, p1) => Some (r, p1)
  | (inr (TakeReceiver _), p1) =>
      match read_take n p1 with
      | (inr _, p2) =>
          match recv p2 with
          | Some (res, p3) => Some (read_finish n res p3)
          | None => None
          end
      | (inl r, p2) => Some (r, p2)
      end
  | (inr _, p1) => None
  end.

(** The three calls of the repository's pipe tests, composed. *)
Definition writes_then_finish (ds : list bytes) (e : option io_error) : PipeInner :=
  finish_stream (foldl (fun p d => (write p d).2) pipe ds) e.

Fixpoint reads (k n : nat) (p : PipeInner) : list (option (result bytes)) :=
  match k with
  | O => []
  | S k' =>
      match read_now n p with
      | Some (r, p') => Some r :: reads k' n p'
      | None => [None]
      end
  end.

(** The unit tests of [io_pipe.rs], evaluated. *)
Example test_drains_before_eof :
  reads 4 16 (writes_then_finish [str "first"; str "second"] None) =
    [Some (Ok (str "first")); Some (Ok (str "second")); Some (Ok []); Some (Ok [])].
Proof. vm_compute. reflexivity. Qed.

Example test_error_after_data :
  reads 3 16 (writes_then_finish [str "payload"] (Some (err_other (str "peer failed")))) =
    [Some (Ok (str "payload")); Some (Err (err_other (str "peer failed"))); Some (Ok [])].
Proof. vm_compute. reflexivity. Qed.

Lemma psteps_trans s0 tr1 s1 tr2 s2 :
  psteps s0 tr1 s1 → psteps s1 tr2 s2 → psteps s0 (tr1 ++ tr2) s2.
Proof.
  intros H1 H2. induction H2 as [|tr s l s' H2 IH Hs]; [by rewrite app_nil_r|].
  rewrite app_assoc. by econstructor.
Qed.

Lemma psteps_one s l s' : pstep s l s' → psteps s [l] s'.
Proof. intros H. apply (psteps_snoc s [] s l s'); [constructor|done]. Qed.

(** An undisturbed read is a run of the transition system. *)
Lemma read_now_steps n p r p' :
  read_now n p = Some (r, p') →
  ∃ k, psteps (mkPS p Idle) (LCall n :: replicate k LTau ++ [LRet n r]) (mkPS p' Idle).
Proof.
  unfold read_now. intros H.
  assert (psteps (mkPS p Idle) [LCall n] (mkPS p (Checking n))) as Hc
    by (apply psteps_one; constructor).
  destruct (read_check n p) as [[r1|ph] p1] eqn:E1.
  { simplify_eq. exists 0. apply (psteps_trans _ [LCall n] _ _ _ Hc), psteps_one. by constructor. }
  destruct ph as [| | |m| |]; try discriminate H.
  assert (m = n) as ->.
  { unfold read_check in E1. repeat case_match; by simplify_eq. }
  assert (psteps (mkPS p Idle) [LCall n; LTau] (mkPS p1 (TakeReceiver n))) as Ht.
  { apply (psteps_trans _ [LCall n] _ _ _ Hc), psteps_one. by constructor. }
  unfold read_take in H. destruct (data_receiver p1) eqn:R.
  - destruct (recv (set_receiver p1 false)) as [[res p3]|] eqn:E3; [|done]. injection H as H.
    exists 3. apply (psteps_trans _ [LCall n; LTau] _ [LTau; LTau; LRet n r] _ Ht).
    apply (psteps_trans _ [LTau] (mkPS (set_receiver p1 false) (WaitData n))).
    { apply psteps_one. constructor. unfold read_take. by rewrite R. }
    apply (psteps_trans _ [LTau] (mkPS p3 (GotEvent n res))).
    { apply psteps_one. by constructor. }
    apply psteps_one. by constructor.
  - simplify_eq. exists 1. apply (psteps_trans _ [LCall n; LTau] _ _ _ Ht), psteps_one.
    constructor. unfold read_take. by rewrite R.
Qed.

(** ** Properties *)

(** The pipe is a first-in first-out byte stream: in any interleaving of
    reads, writes, deadlines and end-of-stream marks in which nothing is thrown
    away, the bytes delivered so far, followed by the bytes still buffered and
    those still queued, are exactly the bytes written. *)
Theorem pipe_fifo tr s :
  quiet_trace tr = true → psteps pipe_init tr s →
  delivered tr ++ buffer (inner s) ++ queue_data (pending s) = written tr.
Proof. intros Hq Hr. by destruct (pipe_inv_reach tr s Hq Hr). Qed.

Definition fifo_trace : list plabel :=
  [LWrite (str "ab") (Ok 2); LCall 1; LTau; LTau; LTau; LRet 1 (Ok (str "a"))].
Definition fifo_state : PipeState :=
  mkPS (set_buffer pipe (str "b")) Idle.

Lemma fifo_run : psteps pipe_init fifo_trace fifo_state.
Proof.
  apply (psteps_trans _ [LWrite (str "ab") (Ok 2)] (mkPS (set_queue pipe [Data (str "ab")]) Idle)).
  { apply psteps_one. by constructor. }
  apply (psteps_trans _ [LCall 1] (mkPS (set_queue pipe [Data (str "ab")]) (Checking 1))).
  { apply psteps_one. constructor. }
  apply (psteps_trans _ [LTau] (mkPS (set_queue pipe [Data (str "ab")]) (TakeReceiver 1))).
  { apply psteps_one. by constructor. }
  apply (psteps_trans _ [LTau] (mkPS (set_receiver (set_queue pipe [Data (str "ab")]) false) (WaitData 1))).
  { apply psteps_one. by constructor. }
  apply (psteps_trans _ [LTau] (mkPS (set_receiver pipe false) (GotEvent 1 (Some (Data (str "ab")))))).
  { apply psteps_one. by constructor. }
  apply psteps_one. by constructor.
Qed.

Lemma pipe_fifo_witness :
  quiet_trace fifo_trace = true ∧
  delivered fifo_trace ++ buffer (inner fifo_state) ++ queue_data (pending fifo_state) = written fifo_trace.
Proof. split; [reflexivity|]. apply pipe_fifo; [reflexivity|apply fifo_run]. Defined.


Definition eof_pipe : PipeInner := finish_stream pipe None.

Lemma eof_run :
  psteps pipe_init [LFinish None; LCall 4; LTau; LTau; LTau]
    (mkPS (set_receiver (set_queue eof_pipe []) false) (GotEvent 4 (Some (StreamEnd None)))).
Proof.
  apply (psteps_trans _ [LFinish None] (mkPS eof_pipe Idle)).
  { apply psteps_one. constructor. }
  apply (psteps_trans _ [LCall 4] (mkPS eof_pipe (Checking 4))).
  { apply psteps_one. constructor. }
  apply (psteps_trans _ [LTau] (mkPS eof_pipe (TakeReceiver 4))).
  { apply psteps_one. by constructor. }
  apply (psteps_trans _ [LTau] (mkPS (set_receiver eof_pipe false) (WaitData 4))).
  { apply psteps_one. by constructor. }
  apply psteps_one. by constructor.
Qed.


(** C19. A read never blocks while there is something to report: after any run
    that loses nothing, an undisturbed read returns, and it only blocks when
    nothing is buffered, nothing is queued and the stream has not ended. *)
Theorem pipe_read_returns tr p n :
  quiet_trace tr = true → psteps pipe_init tr (mkPS p Idle) →
  (read_now n p = None ↔ buffer p = [] ∧ queue p = [] ∧ closed p = false).
Proof.
  intros Hq Hr. pose proof (pipe_inv_reach _ _ Hq Hr) as Hinv. pipe_open Hinv.
  unfold read_now, read_check. destruct (buffer p) as [|x b] eqn:B.
  - rewrite Hsend, Herr. destruct (closed p) eqn:C; simpl; [naive_solver|].
    rewrite Hrecv. simpl. unfold read_take. rewrite Hrecv. simpl.
    unfold recv; simpl. rewrite Hsend. destruct (queue p) eqn:Q; naive_solver.
  - naive_solver.
Qed.

Lemma pipe_read_returns_witness :
  read_now 1 (inner fifo_state) = None ↔
    buffer (inner fifo_state) = [] ∧ queue (inner fifo_state) = [] ∧ closed (inner fifo_state) = false.
Proof. apply (pipe_read_returns fifo_trace); [reflexivity|apply fifo_run]. Defined.

(** Once the end of the stream is queued or the pipe is closed, every write
    fails with [BrokenPipe] and changes nothing. *)
Theorem pipe_no_write_after_end p d e :
  err_kind pipe_closed = BrokenPipe ∧
  write (finish_stream p e) d = (Err pipe_closed, finish_stream p e) ∧
  write (close_with_error p e) d = (Err pipe_closed, close_with_error p e).
Proof.
  split; [done|]. split; [|done]. unfold write.
  assert (closed (finish_stream p e) || stream_end_queued (finish_stream p e) = true) as ->; [|done].
  unfold finish_stream. destruct (closed p || stream_end_queued p) eqn:E; [done|].
  case_match; simpl; by rewrite ?orb_true_r.
Qed.
