(* ===== verification/Deadline.v ===== *)
(** * Read and write deadlines of a pipe ([src/proxy/pipe/deadline.rs])

    A [PipeDeadline] is a [Notify] and the timer task that will call
    [notify_waiters].  [notify_waiters] wakes the tasks that wait at that moment
    and stores nothing for later ones, so the model keeps the tasks waiting and
    those woken; times are points of one clock. *)

From S2P Require Import Prelude.

(** [timer]: when the live timer task fires; [None] when there is none, or when
    it was aborted or has fired. *)
Record PipeDeadline : Type := mkDeadline {
  timer : option Z;
  waiting : list nat;
  woken : list nat;
}.

(** [PipeDeadline::new]. *)
Definition PipeDeadline_new : PipeDeadline := mkDeadline None [] [].

(** [Notify::notify_waiters], with the timer that is left. *)
Definition notify_waiters (t : option Z) (d : PipeDeadline) : PipeDeadline :=
  mkDeadline t [] (woken d ++ waiting d).

(** [PipeDeadline::set] at time [now]. *)
Definition set_deadline (now deadline : Z) (d : PipeDeadline) : PipeDeadline :=
  if (now <=? deadline)%Z then mkDeadline (Some deadline) (waiting d) (woken d)
  else notify_waiters None d.

(** A task begins to wait on [wait_owned().notified()], or stops waiting because
    the other branch of its [select!] fired. *)
Definition wait (w : nat) (d : PipeDeadline) : PipeDeadline := mkDeadline (timer d) (waiting d ++ [w]) (woken d).
Definition leave (w : nat) (d : PipeDeadline) : PipeDeadline :=
  mkDeadline (timer d) (filter (fun x => x ≠ w) (waiting d)) (woken d).

(** The clock reaches [now]: [sleep_until(when)] returns when [when] is reached. *)
Definition tick (now : Z) (d : PipeDeadline) : PipeDeadline :=
  match timer d with
  | Some t => if (t <=? now)%Z then notify_waiters None d else d
  | None => d
  end.

Inductive devent : Type :=
  | DSet (now deadline : Z)
  | DWait (w : nat)
  | DLeave (w : nat)
  | DTick (now : Z).

Definition devent_step (e : devent) (d : PipeDeadline) : PipeDeadline :=
  match e with
  | DSet now deadline => set_deadline now deadline d
  | DWait w => wait w d
  | DLeave w => leave w d
  | DTick now => tick now d
  end.

Definition drun (evs : list devent) (d : PipeDeadline) : PipeDeadline :=
  foldl (fun d e => devent_step e d) d evs.

(** Events between two calls of [set], with the clock short of [limit]. *)
Definition before (limit : Z) (e : devent) : bool :=
  match e with DSet _ _ => false | DTick now => (now <? limit)%Z | _ => true end.
Definition no_set (e : devent) : bool := match e with DSet _ _ => false | _ => true end.

Lemma drun_before limit evs d :
  forallb (before limit) evs = true → timer d = Some limit →
  timer (drun evs d) = Some limit ∧ woken (drun evs d) = woken d.
Proof.
  revert d. induction evs as [|e evs IH]; intros d Hb Ht; [done|]. simpl in Hb.
  apply andb_true_iff in Hb as [He Hb]. unfold drun. simpl.
  assert (timer (devent_step e d) = Some limit ∧ woken (devent_step e d) = woken d) as [H1 H2].
  { destruct e as [| | |now]; simpl in *; [done..|]. unfold tick. rewrite Ht.
    apply Z.ltb_lt in He. by rewrite (proj2 (Z.leb_gt _ _) He). }
  rewrite <- H2. by apply IH.
Qed.

(** Every task waiting when the clock reaches the deadline set last is woken
    then, and no task is woken earlier: a deadline that was set before, and its
    timer, no longer count. *)
Theorem deadline_wakes_on_time d now deadline evs t :
  (now ≤ deadline ≤ t)%Z → forallb (before deadline) evs = true →
  let d' := drun evs (set_deadline now deadline d) in
  woken d' = woken d ∧ drun [DTick t] d' = mkDeadline None [] (woken d ++ waiting d').
Proof.
  intros [Hn Ht] Hb. cbn zeta. unfold set_deadline. rewrite (proj2 (Z.leb_le _ _) Hn).
  destruct (drun_before deadline evs (mkDeadline (Some deadline) (waiting d) (woken d))) as [H1 H2]; [done..|].
  simpl in H2. split; [done|]. unfold drun at 1. simpl. unfold tick. rewrite H1, (proj2 (Z.leb_le _ _) Ht).
  unfold notify_waiters. by rewrite H2.
Qed.

Lemma drun_no_timer evs d :
  forallb no_set evs = true → timer d = None → woken (drun evs d) = woken d.
Proof.
  revert d. induction evs as [|e evs IH]; intros d Hb Ht; [done|]. simpl in Hb.
  apply andb_true_iff in Hb as [He Hb]. unfold drun. simpl.
  destruct e as [| | |now]; simpl in *; [done|by apply (IH (wait _ d))|by apply (IH (leave _ d))|].
  unfold tick. rewrite Ht. by apply IH.
Qed.

(** A deadline that has passed is forgotten: when a time in the past is set, or
    the timer fires, the tasks waiting at that moment are woken, and no task that
    begins to wait afterwards is, however much time passes, until a deadline is
    set again. *)
Theorem passed_deadline_is_forgotten d now deadline evs :
  forallb no_set evs = true →
  ((deadline < now)%Z → woken (drun evs (set_deadline now deadline d)) = woken d ++ waiting d) ∧
  (∀ t, timer d = Some t → (t ≤ now)%Z → woken (drun evs (tick now d)) = woken d ++ waiting d).
Proof.
  intros Hn. split.
  - intros Hlt. unfold set_deadline. rewrite (proj2 (Z.leb_gt _ _) Hlt). by rewrite drun_no_timer.
  - intros t Ht Hle. unfold tick. rewrite Ht, (proj2 (Z.leb_le _ _) Hle). by rewrite drun_no_timer.
Qed.

(** *** Witnesses *)

Lemma deadline_wakes_on_time_witness :
  let d' := drun [DWait 1; DTick 5; DWait 2; DLeave 1] (set_deadline 0 10 (set_deadline 0 3 PipeDeadline_new)) in
  woken d' = [] ∧ drun [DTick 10] d' = mkDeadline None [] ([] ++ waiting d').
Proof.
  apply (deadline_wakes_on_time (set_deadline 0 3 PipeDeadline_new) 0 10 [DWait 1; DTick 5; DWait 2; DLeave 1] 10);
    [lia|reflexivity].
Defined.

Lemma passed_deadline_is_forgotten_witness :
  woken (drun [DWait 7; DTick 100] (set_deadline 5 3 PipeDeadline_new)) = [].
Proof. apply (passed_deadline_is_forgotten PipeDeadline_new 5 3 [DWait 7; DTick 100]); [reflexivity|lia]. Defined.
