(* ===== verification/Writer.v ===== *)
(** * The writer task ([src/runtime/mod.rs]: [WriterRuntimeState], [write_conn],
      [spawn_writer_task])

    One task per session takes frames from the session's channel and writes
    them to the TLS connection; on a client it cuts the first packets into
    records of scheduled sizes and fills them up with [Waste] frames. *)

From S2P Require Import Prelude RustStr StringMap Frame Padding Engine.
From Stdlib Require Import Strings.Byte.

(** What the connection does with a write or a flush, given what was written
    before: [None] when it succeeds. *)
Class Transport : Type := {
  write_fails : list bytes → bytes → option io_error;
  flush_fails : list bytes → option io_error;
}.

(** A connection that never fails, and one that fails from the [n]-th write on. *)
Definition good_transport : Transport :=
  {| write_fails := fun _ _ => None; flush_fails := fun _ => None |}.
Definition failing_transport (n : nat) : Transport :=
  {| write_fails := fun sent _ => if n <=? length sent then Some (IoError BrokenPipe []) else None;
     flush_fails := fun _ => None |}.

(** A frame on the session's channel and whether its sender waits for it. *)
Abbreviation FrameWrite := (Frame * bool)%type.

Section writer.
  Context `{Md5, Rng, Transport}.

(** [WriterRuntimeState], the records written to the connection so far, and the
    generator of random sizes. *)
Record WState : Type := mkW {
  send_padding : bool;
  buffering : bool;
  wbuffer : bytes;
  pkt_counter : Z;
  sent : list bytes;
  gen : rng;
}.

(** [WriterRuntimeState::new]. *)
Definition WState_new (is_client : bool) (g : rng) : WState := mkW is_client false [] 0 [] g.

Definition disable_send_padding (w : WState) : WState :=
  mkW false (buffering w) (wbuffer w) (pkt_counter w) (sent w) (gen w).
Definition set_buffering (w : WState) (b : bool) : WState :=
  mkW (send_padding w) b (wbuffer w) (pkt_counter w) (sent w) (gen w).
Definition append_buffered_bytes (w : WState) (bs : bytes) : WState :=
  mkW (send_padding w) (buffering w) (wbuffer w ++ bs) (pkt_counter w) (sent w) (gen w).
Definition take_buffered_bytes (w : WState) : bytes * WState :=
  (wbuffer w, mkW (send_padding w) (buffering w) [] (pkt_counter w) (sent w) (gen w)).
(** [*counter += 1] on a [u32] (see [counter_no_overflow]). *)
Definition next_packet_counter (w : WState) : Z * WState :=
  let c := wrap 32 (pkt_counter w + 1) in
  (c, mkW (send_padding w) (buffering w) (wbuffer w) c (sent w) (gen w)).
Definition set_gen (w : WState) (g : rng) : WState :=
  mkW (send_padding w) (buffering w) (wbuffer w) (pkt_counter w) (sent w) g.

(** [writer.write_all(&bs)] and [writer.flush()]. *)
Definition write_all (bs : bytes) : ioM WState unit := fun w =>
  match write_fails (sent w) bs with
  | Some e => (Err e, w)
  | None => (Ok tt, mkW (send_padding w) (buffering w) (wbuffer w) (pkt_counter w) (sent w ++ [bs]) (gen w))
  end.

Definition flush : ioM WState unit := fun w =>
  match flush_fails (sent w) with Some e => (Err e, w) | None => (Ok tt, w) end.

(** [vec![0u8; HEADER_OVERHEAD_SIZE + n]] with the command byte and the two
    length bytes overwritten. *)
Definition padding_frame (n : nat) : bytes :=
  [u8_from Waste] ++ replicate 4 Byte.x00 ++ be_encode 2 (wrap 16 (Z.of_nat n)) ++ replicate n Byte.x00.

(** The loop over the record sizes; returns the payload not yet written. *)
Fixpoint pad_loop (specs : list Z) (bs : bytes) : ioM WState bytes :=
  match specs with
  | [] => mret bs
  | spec :: specs' =>
      if (spec =? CHECK_MARK)%Z then
        if decide (bs = []) then mret bs else pad_loop specs' bs
      else
        let frame_len := Z.to_nat (Z.max spec 0) in
        let remain := length bs in
        if frame_len <? remain then
          write_all (take frame_len bs) ≫= fun _ => pad_loop specs' (drop frame_len bs)
        else if 0 <? remain then
          let padding_len := frame_len - remain - HEADER_OVERHEAD_SIZE in
          let bs' := if 0 <? padding_len then bs ++ padding_frame padding_len else bs in
          write_all bs' ≫= fun _ => pad_loop specs' []
        else write_all (padding_frame frame_len) ≫= fun _ => pad_loop specs' []
  end.

(** [AnyTlsProtocol::write_conn]; [pf] is [state.padding()]. *)
Definition write_conn (pf : PaddingFactory) (bs : bytes) : ioM WState nat := fun w =>
  if buffering w then (Ok (length bs), append_buffered_bytes w bs)
  else
    let '(pend, w) := take_buffered_bytes w in
    let bs := if decide (pend = []) then bs else pend ++ bs in
    let payload_len := length bs in
    let unpadded := fun (bs : bytes) (w : WState) =>
      (write_all bs ≫= fun _ => mret payload_len) w in
    if send_padding w then
      let '(pkt, w) := next_packet_counter w in
      if (pkt <? stop pf)%Z then
        let '(specs, g) := generate_record_payload_sizes pf pkt (gen w) in
        (pad_loop specs bs ≫= fun rest =>
           if decide (rest = []) then mret payload_len else unpadded rest) (set_gen w g)
      else unpadded bs (disable_send_padding w)
    else unpadded bs w.

(** One iteration of the writer task. *)
Definition writer_send (pf : PaddingFactory) (f : Frame) : ioM WState unit :=
  write_conn pf (to_bytes f) ≫= fun _ => flush.

Definition write_failed : io_error := IoError BrokenPipe (str "Write failed").

(** The writer task over a queue: the acknowledgements it sends, whether it is
    still running, and the new state.  It stops at the first failure.  Each
    frame comes with the padding scheme in force when it is written, which a
    client's receive loop may replace meanwhile. *)
Fixpoint writer_task (q : list (PaddingFactory * FrameWrite)) (w : WState)
  : list (result unit) * bool * WState :=
  match q with
  | [] => ([], true, w)
  | (pf, (f, ack)) :: q' =>
      let '(res, w') := writer_send pf f w in
      let acks := if ack then [if is_ok res then Ok tt else Err write_failed] else [] in
      if is_ok res then
        let '(acks', alive, w'') := writer_task q' w' in (acks ++ acks', alive, w'')
      else (acks, false, w')
  end.

Definition queue_frames (q : list (PaddingFactory * FrameWrite)) : list Frame := (fun x => x.2.1) <$> q.

(** The frames of a decoded stream that are not filler. *)
Definition payload (fs : list Frame) : list Frame := filter (fun f => cmd f ≠ Waste) fs.

(** ** Lemmas *)

(** The filler is a well-formed [Waste] frame of sid 0. *)
Definition waste (n : nat) : Frame := mkFrame Waste 0 (replicate n Byte.x00).

Lemma padding_frame_waste n : padding_frame n = to_bytes (waste n).
Proof.
  unfold padding_frame, to_bytes, waste; cbn [cmd sid data]. by rewrite length_replicate.
Qed.

Lemma length_padding_frame n : length (padding_frame n) = HEADER_OVERHEAD_SIZE + n.
Proof. rewrite padding_frame_waste, length_to_bytes. unfold waste; cbn [data]. by rewrite length_replicate. Qed.

Lemma waste_sendable n : (Z.of_nat n ≤ u16_max)%Z → sendable (waste n).
Proof.
  intros Hn. split; [split; [done|unfold in_u; simpl; lia]|].
  unfold fits, waste; cbn [data]. by rewrite length_replicate.
Qed.

Lemma write_all_ok bs w u w' :
  write_all bs w = (Ok u, w') →
  w' = mkW (send_padding w) (buffering w) (wbuffer w) (pkt_counter w) (sent w ++ [bs]) (gen w).
Proof. unfold write_all. destruct (write_fails _ _); naive_solver. Qed.

Lemma write_all_frame bs w :
  let w' := (write_all bs w).2 in
  send_padding w' = send_padding w ∧ buffering w' = buffering w ∧ wbuffer w' = wbuffer w ∧
  pkt_counter w' = pkt_counter w.
Proof. unfold write_all. by destruct (write_fails _ _). Qed.

Lemma pad_loop_frame specs bs w :
  let w' := (pad_loop specs bs w).2 in
  send_padding w' = send_padding w ∧ buffering w' = buffering w ∧ wbuffer w' = wbuffer w ∧
  pkt_counter w' = pkt_counter w.
Proof.
  revert bs w. induction specs as [|spec specs IH]; intros bs w; [done|]. simpl.
  case_match; [case_decide; [done|apply IH]|].
  set (k := Z.to_nat (Z.max spec 0)).
  assert (∀ chunk rest,
    let w' := ((write_all chunk ≫= fun _ => pad_loop specs rest) w).2 in
    send_padding w' = send_padding w ∧ buffering w' = buffering w ∧ wbuffer w' = wbuffer w ∧
    pkt_counter w' = pkt_counter w) as Hstep.
  { intros chunk rest. pose proof (write_all_frame chunk w) as Hw. unfold mbind, ioM_bind.
    destruct (write_all chunk w) as [[u|e] w1]; simpl in *; [|done].
    destruct (IH rest w1) as (-> & -> & -> & ->). done. }
  repeat case_match; apply Hstep.
Qed.

Lemma pad_loop_nil specs w rest w' : pad_loop specs [] w = (Ok rest, w') → rest = [].
Proof.
  revert w. induction specs as [|spec specs IH]; intros w; simpl.
  { by intros [= <- _]. }
  case_match; [by intros [= <- _]|].
  intros (u & w1 & _ & E)%ioM_bind_ok. eauto.
Qed.

(** What the padded loop puts on the wire: either the payload is only partly
    written and nothing else, or all of it followed by filler frames. *)
Lemma pad_loop_ok specs bs w rest w' :
  pad_loop specs bs w = (Ok rest, w') →
  (rest ≠ [] ∧ concat (sent w') ++ rest = concat (sent w) ++ bs) ∨
  (rest = [] ∧ ∃ ns, concat (sent w') = concat (sent w) ++ bs ++ concat (padding_frame <$> ns)
     ∧ Forall (fun n => ∃ z, z ∈ specs ∧ n ≤ Z.to_nat (Z.max z 0)) ns).
Proof.
  revert bs w. induction specs as [|spec specs IH]; intros bs w; simpl.
  { unfold mret, ioM_ret. intros [= <- <-]. destruct bs; [right|left]; [|done].
    split; [done|]. exists []. by rewrite !app_nil_r. }
  assert (∀ P : nat → Z → Prop, ∀ ns, Forall (fun n => ∃ z, z ∈ specs ∧ P n z) ns →
            Forall (fun n => ∃ z, z ∈ spec :: specs ∧ P n z) ns) as Hweak.
  { intros P ns Hns. eapply Forall_impl; [exact Hns|]. intros n (z & Hz & ?). exists z.
    split; [by right|done]. }
  destruct (spec =? CHECK_MARK)%Z.
  { case_decide as Hbs.
    - unfold mret, ioM_ret. intros [= <- <-]. right. split; [done|]. exists [].
      by rewrite Hbs, !app_nil_r.
    - intros E. destruct (IH _ _ E) as [?|(? & ns & ? & ?)]; [by left|right]. split; [done|].
      exists ns. auto. }
  set (k := Z.to_nat (Z.max spec 0)).
  destruct (Nat.ltb_spec k (length bs)) as [Hk|Hk].
  { intros (u & w1 & E1 & E)%ioM_bind_ok. apply write_all_ok in E1 as ->.
    apply IH in E. simpl in E. rewrite concat_snoc, <- !app_assoc in E.
    destruct E as [[? E]|(? & ns & E & ?)]; [left|right]; (split; [done|]).
    - by rewrite E, take_drop.
    - exists ns. rewrite E, <- app_assoc, (app_assoc (take _ _)), take_drop. auto. }
  destruct (Nat.ltb_spec 0 (length bs)) as [Hb|Hb].
  - set (pl := k - length bs - HEADER_OVERHEAD_SIZE).
    intros (u & w1 & E1 & E)%ioM_bind_ok. apply write_all_ok in E1 as ->.
    pose proof (pad_loop_nil _ _ _ _ E) as Hnil. apply IH in E. simpl in E. rewrite concat_snoc, <- !app_assoc in E.
    destruct E as [[Hr _]|(Hr & ns & E & Hns)]; [by rewrite Hnil in Hr|].
    right. split; [done|]. destruct (Nat.ltb_spec 0 pl).
    + exists (pl :: ns). rewrite E. cbn [fmap list_fmap concat]. rewrite <- !app_assoc. split; [done|].
      constructor; [|auto]. exists spec. split; [left|]. unfold pl, k. lia.
    + exists ns. rewrite E, <- !app_assoc. auto.
  - assert (bs = []) as -> by (destruct bs; [done|simpl in Hb; lia]).
    intros (u & w1 & E1 & E)%ioM_bind_ok. apply write_all_ok in E1 as ->.
    pose proof (pad_loop_nil _ _ _ _ E) as Hnil. apply IH in E. simpl in E. rewrite concat_snoc, <- !app_assoc in E.
    destruct E as [[Hr _]|(Hr & ns & E & Hns)]; [by rewrite Hnil in Hr|].
    right. split; [done|]. exists (k :: ns). rewrite E, <- app_assoc. split; [done|].
    constructor; [|auto]. exists spec. split; [left|done].
Qed.

Lemma pad_bound pf pkt g ns :
  scheme_bounded pf →
  Forall (fun n => ∃ z, z ∈ (generate_record_payload_sizes pf pkt g).1 ∧ n ≤ Z.to_nat (Z.max z 0)) ns →
  Forall (fun n => Z.of_nat n ≤ u16_max)%Z ns.
Proof.
  intros Hb%(generate_bounded _ pkt g) Hns. eapply Forall_impl; [exact Hns|].
  intros n (z & Hz & Hn). rewrite Forall_forall in Hb. apply Hb in Hz.
  unfold CHECK_MARK in Hz. lia.
Qed.

(** A successful write of a frame: everything pending and the frame itself, then
    only filler. *)
Lemma write_conn_ok pf bs w n w' :
  buffering w = false → write_conn pf bs w = (Ok n, w') →
  n = length (wbuffer w ++ bs) ∧ buffering w' = false ∧ wbuffer w' = [] ∧
  ∃ ns, concat (sent w') = concat (sent w) ++ (wbuffer w ++ bs) ++ concat (padding_frame <$> ns) ∧
        (scheme_bounded pf → Forall (fun n => Z.of_nat n ≤ u16_max)%Z ns).
Proof.
  intros Hbuf. unfold write_conn. rewrite Hbuf. cbn [take_buffered_bytes fst snd send_padding].
  assert ((if decide (wbuffer w = []) then bs else wbuffer w ++ bs) = wbuffer w ++ bs) as ->
    by (case_decide as E; [by rewrite E|done]).
  set (all := wbuffer w ++ bs).
  assert (∀ rest w1 m w2,
    (write_all rest ≫= fun _ => mret (length all)) w1 = (Ok m, w2) →
    m = length all ∧ buffering w2 = buffering w1 ∧ wbuffer w2 = wbuffer w1 ∧
    concat (sent w2) = concat (sent w1) ++ rest) as Hplain.
  { intros rest w1 m w2 (u & w3 & E%write_all_ok & [= <- <-])%ioM_bind_ok. subst w3; simpl.
    by rewrite concat_snoc. }
  destruct (send_padding w); cbn [next_packet_counter].
  - destruct (wrap 32 _ <? stop pf)%Z.
    + set (pkt := wrap 32 _). cbn [gen].
      destruct (generate_record_payload_sizes pf pkt (gen w)) as [specs g'] eqn:Eg.
      intros (rest & w1 & E1 & E)%ioM_bind_ok.
      match type of E1 with pad_loop _ _ ?w0 = _ =>
        destruct (pad_loop_frame specs all w0) as (_ & F2 & F3 & _) end.
      rewrite E1 in F2, F3; simpl in F2, F3.
      apply pad_loop_ok in E1 as [[Hr E1]|(Hr & ns & E1 & Hns)]; simpl in E1.
      * rewrite decide_False in E by done. apply Hplain in E as (-> & B1 & B2 & E2).
        rewrite B1, B2, F2, F3, E2, E1. split_and!; [done..|]. exists []. by rewrite !app_nil_r.
      * rewrite decide_True in E by done. injection E as <- <-. rewrite F2, F3.
        split_and!; [done..|]. exists ns. split; [done|]. intros Hb.
        apply (pad_bound pf pkt (gen w)); [done|by rewrite Eg].
    + intros (-> & B1 & B2 & E2)%Hplain. rewrite B1, B2, E2. split_and!; [done..|].
      exists []. by rewrite !app_nil_r.
  - intros (-> & B1 & B2 & E2)%Hplain. rewrite B1, B2, E2. split_and!; [done..|].
    exists []. by rewrite !app_nil_r.
Qed.

Lemma writer_send_ok pf f w u w' :
  buffering w = false → wbuffer w = [] → writer_send pf f w = (Ok u, w') →
  buffering w' = false ∧ wbuffer w' = [] ∧
  ∃ ns, concat (sent w') = concat (sent w) ++ concat (to_bytes <$> f :: (waste <$> ns)) ∧
        (scheme_bounded pf → Forall (fun n => Z.of_nat n ≤ u16_max)%Z ns).
Proof.
  intros Hb Hw. unfold writer_send. intros (n & w1 & E & Ef)%ioM_bind_ok.
  assert (w1 = w') as -> by (unfold flush in Ef; destruct (flush_fails _); congruence).
  apply write_conn_ok in E as (_ & B1 & B2 & ns & E & Hns); [|done].
  split_and!; [done..|]. exists ns. split; [|done]. rewrite E, Hw, fmap_cons. cbn [concat app].
  do 2 f_equal. rewrite <- (list_fmap_compose waste to_bytes). f_equal.
  apply list_fmap_ext. intros. apply padding_frame_waste.
Qed.

Lemma payload_waste ns : payload (waste <$> ns) = [].
Proof.
  induction ns as [|n ns IH]; [done|]. rewrite fmap_cons. unfold payload in *.
  rewrite filter_cons_False; [done|]. intros Hc. by apply Hc.
Qed.

Lemma payload_app l k : payload (l ++ k) = payload l ++ payload k.
Proof. apply filter_app. Qed.

(** The writer task, as long as it lives, extends the wire by the queued frames
    in order, with filler frames in between. *)
Lemma writer_task_ok q w acks w' :
  Forall (fun x => scheme_bounded x.1 ∧ sendable x.2.1) q →
  buffering w = false → wbuffer w = [] →
  writer_task q w = (acks, true, w') →
  ∃ fs, concat (sent w') = concat (sent w) ++ concat (to_bytes <$> fs) ∧
        Forall sendable fs ∧ payload fs = payload (queue_frames q) ∧ acks = replicate (length acks) (Ok tt).
Proof.
  intros Hq. revert w acks. induction Hq as [|[pf [f ack]] q [Hpf Hf] Hq IH]; intros w acks Hb Hw; simpl.
  { intros [= <- <-]. exists []. by rewrite app_nil_r. }
  destruct (writer_send pf f w) as [[u|e] w1] eqn:E; simpl; [|congruence].
  apply writer_send_ok in E as (Hb1 & Hw1 & ns & E & Hns); [|done..].
  destruct (writer_task q w1) as [[acks' alive] w2] eqn:E2. intros [= <- -> ->].
  destruct (IH _ _ Hb1 Hw1 E2) as (fs & E3 & Hfs & Hpay & Hacks).
  exists ((f :: (waste <$> ns)) ++ fs). split_and!.
  - rewrite E3, E, fmap_app, concat_app. by rewrite app_assoc.
  - apply Forall_app; split; [|done]. constructor; [done|].
    apply Forall_fmap. eapply Forall_impl; [by apply Hns|]. intros n. apply waste_sendable.
  - rewrite payload_app, Hpay. unfold queue_frames. cbn [fmap list_fmap].
    change (f :: (waste <$> ns)) with ([f] ++ (waste <$> ns)).
    rewrite payload_app, payload_waste, app_nil_r. symmetry. apply (payload_app [f]).
  - rewrite Hacks. destruct ack; simpl; by rewrite ?length_replicate.
Qed.

(** On a connection that does not fail the task does not stop. *)
Definition never_fails : Prop :=
  (∀ s b, write_fails s b = None) ∧ ∀ s, flush_fails s = None.

Lemma write_all_never bs w : never_fails → ∃ w', write_all bs w = (Ok tt, w').
Proof. intros [Hw _]. unfold write_all. rewrite Hw. by eexists. Qed.

Lemma pad_loop_never specs bs w : never_fails → ∃ rest w', pad_loop specs bs w = (Ok rest, w').
Proof.
  intros Hn. revert bs w. induction specs as [|spec specs IH]; intros bs w; simpl; [by do 2 eexists|].
  assert (∀ chunk rest, ∃ r w', (write_all chunk ≫= fun _ => pad_loop specs rest) w = (Ok r, w')) as Hstep.
  { intros chunk rest. destruct (write_all_never chunk w Hn) as [w1 E].
    unfold mbind, ioM_bind. rewrite E. apply IH. }
  repeat case_match; try apply Hstep; [by do 2 eexists|apply IH].
Qed.

Lemma writer_send_never pf f w : never_fails → ∃ w', writer_send pf f w = (Ok tt, w').
Proof.
  intros Hn. assert (∃ n w', write_conn pf (to_bytes f) w = (Ok n, w')) as (n & w1 & E).
  { unfold write_conn. destruct (buffering w); [by do 2 eexists|]. cbn [take_buffered_bytes send_padding].
    set (all := if decide _ then _ else _).
    assert (∀ b w1, ∃ n w', (write_all b ≫= fun _ => mret (length all)) w1 = (Ok n, w')) as Hplain.
    { intros b w1. destruct (write_all_never b w1 Hn) as [w2 E]. unfold mbind, ioM_bind. rewrite E.
      by do 2 eexists. }
    destruct (send_padding w); [|apply Hplain]. cbn [next_packet_counter].
    destruct (_ <? stop pf)%Z; [|apply Hplain]. destruct (generate_record_payload_sizes _ _ _) as [specs g].
    unfold mbind at 1, ioM_bind at 1.
    match goal with |- context [pad_loop ?a ?b ?c] =>
      destruct (pad_loop_never a b c Hn) as (r & w2 & ->) end.
    case_decide; [by do 2 eexists|apply Hplain]. }
  unfold writer_send, mbind, ioM_bind. rewrite E. unfold flush. destruct Hn as [_ ->]. by eexists.
Qed.

Lemma writer_task_never q w : never_fails → (writer_task q w).1.2 = true.
Proof.
  intros Hn. revert w. induction q as [|[pf [f ack]] q IH]; intros w; [done|]. simpl.
  destruct (writer_send_never pf f w Hn) as [w1 ->]. simpl. specialize (IH w1).
  by destruct (writer_task q w1) as [[? ?] ?].
Qed.

(** ** The packet counter *)

Definition counter_inv (w : WState) : Prop :=
  in_u 32 (pkt_counter w) ∧ (send_padding w = true → pkt_counter w < u32_max)%Z.

Lemma counter_step w : counter_inv w → send_padding w = true →
  (next_packet_counter w).1 = (pkt_counter w + 1)%Z.
Proof.
  intros [Hc Hp] Hs. simpl. apply wrap_small. specialize (Hp Hs). unfold in_u in *. lia.
Qed.

Lemma write_all_counter_inv bs w : counter_inv w → counter_inv (write_all bs w).2.
Proof.
  unfold counter_inv. by destruct (write_all_frame bs w) as (-> & _ & _ & ->).
Qed.

Lemma plain_counter_inv (n : nat) bs w :
  counter_inv w → counter_inv ((write_all bs ≫= fun _ => mret n) w).2.
Proof.
  intros Hw%(write_all_counter_inv bs). unfold mbind, ioM_bind.
  by destruct (write_all bs w) as [[u|e] w1].
Qed.

Lemma write_conn_counter_inv pf bs w :
  in_u 32 (stop pf) → counter_inv w → counter_inv (write_conn pf bs w).2.
Proof.
  intros Hst Hw. unfold write_conn. destruct (buffering w); [done|].
  cbn [take_buffered_bytes send_padding]. set (all := if decide _ then _ else _).
  destruct (send_padding w) eqn:Hs;
    [|apply plain_counter_inv; destruct Hw; by split].
  pose proof (counter_step w Hw Hs) as Hc. cbn [next_packet_counter fst] in Hc.
  cbn [next_packet_counter pkt_counter]. rewrite Hc.
  destruct Hw as [Hw1 Hw2]. specialize (Hw2 Hs). unfold in_u in *.
  destruct (Z.ltb_spec (pkt_counter w + 1) (stop pf)).
  - destruct (generate_record_payload_sizes _ _ _) as [specs g].
    unfold mbind at 1, ioM_bind at 1.
    match goal with |- context [pad_loop ?a ?b ?c] =>
      pose proof (pad_loop_frame a b c) as (F1 & _ & _ & F4); destruct (pad_loop a b c) as [[r|e] w1] end;
    simpl in F1, F4.
    + assert (counter_inv w1) by (unfold counter_inv, in_u; rewrite F1, F4; lia).
      case_decide; [done|by apply plain_counter_inv].
    + unfold counter_inv, in_u; simpl. rewrite F1, F4. lia.
  - apply plain_counter_inv. unfold counter_inv, in_u; simpl. split; [lia|done].
Qed.

Lemma writer_task_counter_inv q w :
  Forall (fun x => in_u 32 (stop x.1)) q → counter_inv w → counter_inv (writer_task q w).2.
Proof.
  intros Hq. revert w. induction Hq as [|[pf [f ack]] q Hpf Hq IH]; intros w Hw; [done|]. simpl.
  assert (counter_inv (writer_send pf f w).2) as Hsend.
  { unfold writer_send. pose proof (write_conn_counter_inv pf (to_bytes f) w Hpf Hw) as Hc.
    unfold mbind, ioM_bind. destruct (write_conn pf _ w) as [[n|e] w1]; [|done].
    unfold flush. by destruct (flush_fails _). }
  destruct (writer_send pf f w) as [[u|e] w1]; simpl; [|done]. specialize (IH w1 Hsend).
  by destruct (writer_task q w1) as [[? ?] ?].
Qed.

(** ** Record sizes *)

(** A record as long as its scheduled size, give or take one frame header. *)
Definition near (z : Z) (r : bytes) : Prop :=
  (Z.abs (Z.of_nat (length r) - Z.max z 0) ≤ Z.of_nat HEADER_OVERHEAD_SIZE)%Z.

Definition scheduled (specs : list Z) : list Z := filter (fun z => z ≠ CHECK_MARK) specs.

Lemma pad_loop_sizes specs bs w rest w' :
  pad_loop specs bs w = (Ok rest, w') →
  ∃ recs, sent w' = sent w ++ recs ∧ Forall2 near (take (length recs) (scheduled specs)) recs ∧
    (rest ≠ [] → length recs = length (scheduled specs)).
Proof.
  revert bs w. induction specs as [|spec specs IH]; intros bs w; simpl.
  { intros [= <- <-]. exists []. rewrite app_nil_r. split_and!; [done|constructor|done]. }
  unfold scheduled. destruct (Z.eqb_spec spec CHECK_MARK) as [Hc|Hc].
  { rewrite filter_cons_False by auto. case_decide as Hbs; [|apply IH].
    intros [= <- <-]. exists []. rewrite app_nil_r. split_and!; [done|constructor|done]. }
  rewrite filter_cons_True by done. fold (scheduled specs).
  assert (∀ chunk bs' , near spec chunk →
    (write_all chunk ≫= fun _ => pad_loop specs bs') w = (Ok rest, w') →
    ∃ recs, sent w' = sent w ++ recs ∧ Forall2 near (take (length recs) (spec :: scheduled specs)) recs ∧
      (rest ≠ [] → length recs = length (spec :: scheduled specs))) as Hstep.
  { intros chunk bs' Hnear (u & w1 & E1%write_all_ok & E)%ioM_bind_ok. subst w1.
    destruct (IH _ _ E) as (recs & E' & HF & Hl). simpl in E'.
    exists (chunk :: recs). rewrite E', <- app_assoc. split; [done|].
    split; [by constructor|]. intros Hr. simpl. by rewrite Hl. }
  unfold near, HEADER_OVERHEAD_SIZE in Hstep.
  destruct (Nat.ltb_spec (Z.to_nat (Z.max spec 0)) (length bs)).
  { apply Hstep. rewrite length_take. lia. }
  destruct (Nat.ltb_spec 0 (length bs)).
  - apply Hstep. unfold HEADER_OVERHEAD_SIZE.
    destruct (Nat.ltb_spec 0 (Z.to_nat (spec `max` 0) - length bs - (1 + 4 + 2))).
    + rewrite length_app, length_padding_frame. unfold HEADER_OVERHEAD_SIZE. lia.
    + lia.
  - apply Hstep. rewrite length_padding_frame. unfold HEADER_OVERHEAD_SIZE. lia.
Qed.

(** ** After the padded packets *)

(** Without padding a frame is exactly one record. *)
Lemma writer_send_plain pf f w u w' :
  send_padding w = false → buffering w = false → wbuffer w = [] →
  writer_send pf f w = (Ok u, w') →
  sent w' = sent w ++ [to_bytes f] ∧ send_padding w' = false ∧ buffering w' = false ∧ wbuffer w' = [].
Proof.
  intros Hs Hb Hw. unfold writer_send. intros (n & w1 & E & Ef)%ioM_bind_ok.
  assert (w1 = w') as -> by (unfold flush in Ef; destruct (flush_fails _); congruence).
  unfold write_conn in E. rewrite Hb in E. cbn [take_buffered_bytes send_padding] in E.
  rewrite Hw, Hs in E. cbn in E. apply ioM_bind_ok in E as (u' & w2 & E%write_all_ok & [= _ <-]).
  by subst w2.
Qed.

Lemma writer_task_plain q w acks w' :
  send_padding w = false → buffering w = false → wbuffer w = [] →
  writer_task q w = (acks, true, w') → sent w' = sent w ++ (to_bytes <$> queue_frames q).
Proof.
  revert w acks. induction q as [|[pf [f ack]] q IH]; intros w acks Hs Hb Hw; simpl.
  { intros [= <- <-]. by rewrite app_nil_r. }
  destruct (writer_send pf f w) as [[u|e] w1] eqn:E; simpl; [|congruence].
  apply writer_send_plain in E as (E & ? & ? & ?); [|done..].
  destruct (writer_task q w1) as [[acks' alive] w2] eqn:E2. intros [= <- -> ->].
  rewrite (IH w1 _) by eauto. by rewrite E, <- app_assoc.
Qed.

(** A write with padding either counts one packet below [stop], or ends padding. *)
Lemma write_conn_counts pf bs w :
  buffering w = false → send_padding w = true →
  let w' := (write_conn pf bs w).2 in
  pkt_counter w' = wrap 32 (pkt_counter w + 1) ∧
  send_padding w' = (wrap 32 (pkt_counter w + 1) <? stop pf)%Z.
Proof.
  intros Hb Hs. unfold write_conn. rewrite Hb. cbn [take_buffered_bytes send_padding].
  set (all := if decide _ then _ else _). rewrite Hs. cbn [next_packet_counter pkt_counter].
  assert (∀ b w1, let w2 := ((write_all b ≫= fun _ => mret (length all)) w1).2 in
    pkt_counter w2 = pkt_counter w1 ∧ send_padding w2 = send_padding w1) as Hplain.
  { intros b w1. pose proof (write_all_frame b w1) as (F1 & _ & _ & F4). unfold mbind, ioM_bind.
    destruct (write_all b w1) as [[u|e] w2]; simpl in *; by rewrite F1, F4. }
  destruct (wrap 32 _ <? stop pf)%Z eqn:Hlt.
  - destruct (generate_record_payload_sizes _ _ _) as [specs g]. unfold mbind, ioM_bind in *.
    match goal with |- context [pad_loop ?a ?b ?c] =>
      pose proof (pad_loop_frame a b c) as (F1 & _ & _ & F4); destruct (pad_loop a b c) as [[r|e] w1] end;
    simpl in F1, F4; [|by split].
    case_decide; [by split|]. destruct (Hplain r w1) as [G1 G2]. simpl in *. split; congruence.
  - match goal with |- context [(write_all all ≫= _) ?w1] => destruct (Hplain all w1) as [-> ->] end.
    done.
Qed.

(** Packets counted by the task while padding lasts. *)
Lemma writer_task_counts pf q w :
  never_fails → in_u 32 (stop pf) → Forall (fun x => x.1 = pf) q →
  buffering w = false → wbuffer w = [] → counter_inv w → send_padding w = true →
  let w' := (writer_task q w).2 in
  buffering w' = false ∧ wbuffer w' = [] ∧
  (send_padding w' = true → pkt_counter w' = pkt_counter w + Z.of_nat (length q) ∧
    (q ≠ [] → pkt_counter w' < stop pf))%Z.
Proof.
  intros Hn Hst Hq. revert w. induction Hq as [|[pf' [f ack]] q Hpf Hq IH]; intros w Hb Hw Hc Hs.
  { simpl. split_and!; try done. simpl. intros _. split; [lia|done]. }
  simpl in Hpf; subst pf'. simpl. destruct (writer_send_never pf f w Hn) as [w1 E]. rewrite E. simpl.
  pose proof (writer_send_ok pf f w tt w1 Hb Hw E) as (Hb1 & Hw1 & _).
  assert ((write_conn pf (to_bytes f) w).2 = w1) as Ew.
  { unfold writer_send in E. apply ioM_bind_ok in E as (n & w2 & -> & Ef). simpl.
    unfold flush in Ef. destruct (flush_fails _); congruence. }
  destruct (write_conn_counts pf (to_bytes f) w Hb Hs) as [C1 C2].
  pose proof (write_conn_counter_inv pf (to_bytes f) w Hst Hc) as Hc1.
  pose proof (counter_step w Hc Hs) as Hstep. simpl in Hstep. rewrite Ew, Hstep in *.
  destruct (writer_task q w1) as [[acks' alive] w2] eqn:E2; simpl.
  destruct (send_padding w1) eqn:Hs1.
  - specialize (IH w1 Hb1 Hw1 Hc1 Hs1). rewrite E2 in IH. simpl in IH.
    destruct IH as (? & ? & IH). split_and!; [done..|]. intros [I1 I2]%IH. symmetry in C2.
    apply Z.ltb_lt in C2. split; [lia|]. intros _. destruct q; [simpl in I1; lia|by apply I2].
  - clear IH. assert (∀ q w, send_padding w = false → buffering w = false → wbuffer w = [] →
      let w' := (writer_task q w).2 in buffering w' = false ∧ wbuffer w' = [] ∧ send_padding w' = false) as Hp.
    { clear -Hn. induction q as [|[pf [f ack]] q IH]; intros w Hs Hb Hw; [done|]. simpl.
      destruct (writer_send_never pf f w Hn) as [w1 E]. rewrite E. simpl.
      apply writer_send_plain in E as (_ & ? & ? & ?); [|done..]. specialize (IH w1).
      destruct (writer_task q w1) as [[? ?] ?]. auto. }
    specialize (Hp q w1 Hs1 Hb1 Hw1). rewrite E2 in Hp. simpl in Hp. destruct Hp as (? & ? & ->).
    by split_and!.
Qed.

Lemma writer_task_app q1 q2 w acks1 w1 :
  writer_task q1 w = (acks1, true, w1) →
  writer_task (q1 ++ q2) w =
    let '(acks2, alive, w2) := writer_task q2 w1 in (acks1 ++ acks2, alive, w2).
Proof.
  revert w acks1. induction q1 as [|[pf [f ack]] q1 IH]; intros w acks1; simpl.
  { intros [= <- <-]. by destruct (writer_task q2 w) as [[? ?] ?]. }
  destruct (writer_send pf f w) as [[u|e] w2]; simpl; [|congruence].
  destruct (writer_task q1 w2) as [[a1 al] w3] eqn:E. intros [= <- -> ->].
  rewrite (IH _ _ E). destruct (writer_task q2 w1) as [[? ?] ?]. by rewrite app_assoc.
Qed.

Lemma WState_new_inv is_client g : counter_inv (WState_new is_client g).
Proof. split; [done|]. by intros _. Qed.

(** ** Properties *)


(** The scheduled record sizes are respected.  When the [pkt]-th packet is
    written with padding, the records are, in order, as long as the sizes drawn
    for that packet, up to one frame header; only when the payload outlives all
    sizes does one record of arbitrary length follow. *)
Theorem padded_record_sizes pf bs w n w' :
  counter_inv w → buffering w = false → send_padding w = true →
  (pkt_counter w + 1 < stop pf)%Z → write_conn pf bs w = (Ok n, w') →
  let sizes := scheduled (generate_record_payload_sizes pf (pkt_counter w + 1) (gen w)).1 in
  ∃ recs rest, sent w' = sent w ++ recs ++ rest ∧
    Forall2 near (take (length recs) sizes) recs ∧
    (rest ≠ [] → length recs = length sizes ∧ length rest = 1).
Proof.
  intros Hc Hb Hs Hlt. pose proof (counter_step w Hc Hs) as Hstep. simpl in Hstep.
  unfold write_conn. rewrite Hb. cbn [take_buffered_bytes send_padding].
  set (all := if decide _ then _ else _). rewrite Hs. cbn [next_packet_counter pkt_counter gen].
  rewrite Hstep, (proj2 (Z.ltb_lt _ _) Hlt). cbv zeta.
  destruct (generate_record_payload_sizes pf _ _) as [specs g]; simpl.
  intros (rest & w1 & E1 & E)%ioM_bind_ok.
  apply pad_loop_sizes in E1 as (recs & E1 & HF & Hrest). simpl in E1.
  case_decide as Hd.
  - injection E as <- <-. exists recs, []. by rewrite app_nil_r.
  - apply ioM_bind_ok in E as (u & w2 & E2%write_all_ok & [= _ <-]). subst w2. simpl.
    exists recs, [rest]. rewrite E1, <- app_assoc. split_and!; [done..|]. auto.
Qed.

(** C24. The [u32] packet counter never wraps: it is only advanced while padding
    is on, and padding ends no later than the counter's maximum, because every
    scheme's [stop] is a [u32]. *)
Theorem packet_counter_never_wraps is_client g q :
  Forall (fun x => wf_padding x.1) q →
  let w := (writer_task q (WState_new is_client g)).2 in
  send_padding w = true → (next_packet_counter w).1 = (pkt_counter w + 1)%Z.
Proof.
  intros Hq w. apply counter_step. apply writer_task_counter_inv; [|apply WState_new_inv].
  eapply Forall_impl; [exact Hq|]. intros x [raw E]. by apply (PaddingFactory_new_fields _ _ E).
Qed.

(** Padding is confined to the first [stop] packets: after at least [stop]
    frames have been written under one scheme, every later frame is written as
    exactly one record, its own encoding. *)
Theorem padding_ends pf q1 q2 g :
  never_fails → in_u 32 (stop pf) →
  Forall (fun x => x.1 = pf) q1 → q1 ≠ [] → (stop pf ≤ Z.of_nat (length q1))%Z →
  sent (writer_task (q1 ++ q2) (WState_new true g)).2 =
    sent (writer_task q1 (WState_new true g)).2 ++ (to_bytes <$> queue_frames q2).
Proof.
  intros Hn Hst Hq Hne Hlen.
  destruct (writer_task q1 (WState_new true g)) as [[acks al] w1] eqn:E1.
  pose proof (writer_task_never q1 (WState_new true g) Hn) as Ha. rewrite E1 in Ha; simpl in Ha; subst al.
  pose proof (writer_task_counts pf q1 (WState_new true g) Hn Hst Hq eq_refl eq_refl
                (WState_new_inv _ _) eq_refl) as (Hb & Hw & Hcnt).
  rewrite E1 in Hb, Hw, Hcnt; simpl in Hb, Hw, Hcnt.
  assert (send_padding w1 = false) as Hs.
  { destruct (send_padding w1); [|done]. destruct (Hcnt eq_refl) as [? Hlt]. specialize (Hlt Hne). lia. }
  rewrite (writer_task_app _ _ _ _ _ E1). pose proof (writer_task_never q2 w1 Hn) as Ha2.
  destruct (writer_task q2 w1) as [[acks2 al2] w2] eqn:E2; simpl in *. subst al2.
  by apply (writer_task_plain q2 w1 acks2).
Qed.

(** The writer task stops at its first failure: the frames before it were
    written and acknowledged with success, the failing one is acknowledged with
    an error if its sender waits, and no later frame is written or acknowledged. *)
Theorem writer_stops_at_failure q w acks w' :
  writer_task q w = (acks, false, w') →
  ∃ q1 pf f ack q2 acks1 w1 e,
    q = q1 ++ (pf, (f, ack)) :: q2 ∧
    writer_task q1 w = (acks1, true, w1) ∧ writer_send pf f w1 = (Err e, w') ∧
    acks = acks1 ++ (if ack : bool then [Err write_failed] else []).
Proof.
  revert w acks. induction q as [|[pf [f ack]] q IH]; intros w acks; simpl; [done|].
  destruct (writer_send pf f w) as [[u|e] w1] eqn:E; simpl.
  - destruct (writer_task q w1) as [[a1 al] w2] eqn:E1. intros [= <- -> ->].
    destruct (IH _ _ E1) as (q1 & pf' & f' & ack' & q2 & acks1 & w3 & e & -> & Ht & Hs & ->).
    exists ((pf, (f, ack)) :: q1), pf', f', ack', q2, ((if ack then [Ok tt] else []) ++ acks1), w3, e.
    split_and!; [done| |done|by rewrite app_assoc]. simpl. by rewrite E, Ht.
  - intros [= <- ->]. exists [], pf, f, ack, q, [], w, e. by split_and!.
Qed.
End writer.

(** *** Witnesses *)

(** A scheme that pads the first two packets. *)
Definition small_scheme : bytes := join nl [str "stop=3"; str "1=20-30,c,40-40"; str "2=5-5,9-9"].
Definition small_factory : PaddingFactory :=
  default (mkPadding ∅ [] 0 []) (PaddingFactory_new (H := toy_md5) small_scheme).
Definition small_queue : list (PaddingFactory * FrameWrite) :=
  [(small_factory, (Frame_with_data Syn 1 [], true));
   (small_factory, (Frame_with_data Psh 1 (str "hello, world"), false));
   (small_factory, (Frame_with_data Fin 1 [], true))].

Lemma small_queue_ok :
  Forall (fun x => scheme_bounded x.1 ∧ sendable x.2.1 ∧ cmd x.2.1 ≠ Waste) small_queue.
Proof. apply (bool_decide_unpack _). vm_compute. done. Qed.


Lemma padded_record_sizes_witness :
  let w := WState_new (H0 := counter_rng) true 3%Z in
  let w' := (write_conn (H0 := counter_rng) (H1 := good_transport) small_factory (str "a payload of some bytes") w).2 in
  let sizes := scheduled (generate_record_payload_sizes (H0 := counter_rng) small_factory 1 3%Z).1 in
  ∃ recs rest, sent (H0 := counter_rng) w' = [] ++ recs ++ rest ∧
    Forall2 near (take (length recs) sizes) recs ∧
    (rest ≠ [] → length recs = length sizes ∧ length rest = 1).
Proof.
  eapply (padded_record_sizes (H0 := counter_rng) (H1 := good_transport) small_factory
           (str "a payload of some bytes") (WState_new (H0 := counter_rng) true 3%Z));
    [by apply WState_new_inv|done..|vm_compute; reflexivity].
Defined.

Lemma packet_counter_never_wraps_witness :
  let w := (writer_task (H0 := counter_rng) (H1 := good_transport) (take 1 small_queue)
              (WState_new (H0 := counter_rng) true 3%Z)).2 in
  (next_packet_counter (H0 := counter_rng) w).1 = (pkt_counter (H0 := counter_rng) w + 1)%Z.
Proof.
  apply (packet_counter_never_wraps (H := toy_md5) (H0 := counter_rng) (H1 := good_transport) true 3%Z (take 1 small_queue)).
  - repeat constructor. exists small_scheme. vm_compute. reflexivity.
  - vm_compute. reflexivity.
Defined.

Lemma padding_ends_witness :
  sent (H0 := counter_rng) (writer_task (H0 := counter_rng) (H1 := good_transport)
    (small_queue ++ small_queue) (WState_new (H0 := counter_rng) true 3%Z)).2 =
  sent (H0 := counter_rng) (writer_task (H0 := counter_rng) (H1 := good_transport) small_queue
    (WState_new (H0 := counter_rng) true 3%Z)).2 ++ (to_bytes <$> queue_frames small_queue).
Proof.
  apply (padding_ends (H0 := counter_rng) (H1 := good_transport) small_factory small_queue small_queue 3%Z);
    [by split|by vm_compute|by repeat constructor|done|by vm_compute].
Defined.

Lemma writer_stops_at_failure_witness :
  let r := writer_task (H0 := min_rng) (H1 := failing_transport 2) small_queue (WState_new (H0 := min_rng) true tt) in
  ∃ q1 pf f ack q2 acks1 w1 e,
    small_queue = q1 ++ (pf, (f, ack)) :: q2 ∧
    writer_task (H0 := min_rng) (H1 := failing_transport 2) q1 (WState_new (H0 := min_rng) true tt) = (acks1, true, w1) ∧
    writer_send (H0 := min_rng) (H1 := failing_transport 2) pf f w1 = (Err e, r.2) ∧
    r.1.1 = acks1 ++ (if ack : bool then [Err write_failed] else []).
Proof.
  apply (writer_stops_at_failure (H0 := min_rng) (H1 := failing_transport 2)). vm_compute. reflexivity.
Defined.
