(* ===== verification/Session.v ===== *)
(** * Sessions and streams ([src/proxy/session/inner.rs], [stream.rs], and the
      frame handling of [src/runtime/mod.rs])

    A session multiplexes streams over one connection.  An [Arc<Stream>] is
    shared by the session's map, the callback of a server and the code that
    reads and writes it, so streams live on a heap and the map holds pointers
    into it.  The frames accepted by the channel to the writer task are kept in
    order. *)

From S2P Require Import Prelude RustStr StringMap Frame Padding Engine Pipe Writer.
From Stdlib Require Import Strings.Byte.

(** What the writer task at the other end of the channel does: whether it has
    ended when a frame is offered, and the answer to an awaited frame ([None] is
    success).  Both may depend on all frames accepted before. *)
Class WriterPeer : Type := {
  ended : list FrameWrite → Frame → bool;
  ack_error : list FrameWrite → Frame → option io_error;
}.

(** A writer task that serves every frame. *)
Definition good_writer : WriterPeer :=
  {| ended := fun _ _ => false; ack_error := fun _ _ => None |}.

(** The writer task of [Writer], under one padding scheme. *)
Definition task_writer `{Md5, Rng, Transport} (pf : PaddingFactory) (w : WState) : WriterPeer :=
  let run := fun l => writer_task ((fun x => (pf, x)) <$> l) w in
  {| ended := fun l _ => negb (run l).1.2;
     ack_error := fun l f => if (run (l ++ [(f, true)])).1.2 then None else Some write_failed |}.

(** [Stream]: its id, its pipe (with the progress of a read on it) and its
    [closed] flag.  The channel, the map and the idle flag it refers to are
    those of its session. *)
Record Stream : Type := mkStream {
  id : Z;
  st_pipe : PipeState;
  st_closed : bool;
}.

(** [Session].  [frame_tx] lists the frames the channel accepted; [tx_open] is
    false once the writer task has dropped its receiver; [spawned] lists the
    streams handed to [on_new_stream]; [write_buffering] is the writer state's
    flag. *)
Record Session : Type := mkSession {
  heap : list Stream;
  streams : gmap Z nat;
  next_stream_id : Z;
  s_closed : bool;
  started : bool;
  is_client : bool;
  protocol_state : State;
  write_buffering : bool;
  idle_state : bool;
  on_new_stream : bool;
  spawned : list nat;
  frame_tx : list FrameWrite;
  tx_open : bool;
}.

(** [Session::new_with_protocol]. *)
Definition new_with_protocol (is_client on_new_stream : bool) (st : State) : Session :=
  mkSession [] ∅ 0 false false is_client st false true on_new_stream [] [] true.

(** [new_client_session] and [new_server_session] of [src/runtime/mod.rs]. *)
Definition new_client_session (padding : PaddingFactory) : Session :=
  new_with_protocol true false (State_new padding).
Definition new_server_session (padding : PaddingFactory) : Session :=
  new_with_protocol false true (State_new padding).

(** ** Field updates *)

Definition set_heap (h : list Stream) (s : Session) : Session :=
  mkSession h (streams s) (next_stream_id s) (s_closed s) (started s) (is_client s)
    (protocol_state s) (write_buffering s) (idle_state s) (on_new_stream s) (spawned s) (frame_tx s) (tx_open s).
Definition set_streams (m : gmap Z nat) (s : Session) : Session :=
  mkSession (heap s) m (next_stream_id s) (s_closed s) (started s) (is_client s)
    (protocol_state s) (write_buffering s) (idle_state s) (on_new_stream s) (spawned s) (frame_tx s) (tx_open s).
Definition set_next (n : Z) (s : Session) : Session :=
  mkSession (heap s) (streams s) n (s_closed s) (started s) (is_client s)
    (protocol_state s) (write_buffering s) (idle_state s) (on_new_stream s) (spawned s) (frame_tx s) (tx_open s).
Definition set_closed (s : Session) : Session :=
  mkSession (heap s) (streams s) (next_stream_id s) true (started s) (is_client s)
    (protocol_state s) (write_buffering s) (idle_state s) (on_new_stream s) (spawned s) (frame_tx s) (tx_open s).
Definition set_started (b : bool) (s : Session) : Session :=
  mkSession (heap s) (streams s) (next_stream_id s) (s_closed s) b (is_client s)
    (protocol_state s) (write_buffering s) (idle_state s) (on_new_stream s) (spawned s) (frame_tx s) (tx_open s).
Definition set_protocol_state (st : State) (s : Session) : Session :=
  mkSession (heap s) (streams s) (next_stream_id s) (s_closed s) (started s) (is_client s)
    st (write_buffering s) (idle_state s) (on_new_stream s) (spawned s) (frame_tx s) (tx_open s).
Definition set_write_buffering (b : bool) (s : Session) : Session :=
  mkSession (heap s) (streams s) (next_stream_id s) (s_closed s) (started s) (is_client s)
    (protocol_state s) b (idle_state s) (on_new_stream s) (spawned s) (frame_tx s) (tx_open s).
Definition set_idle (b : bool) (s : Session) : Session :=
  mkSession (heap s) (streams s) (next_stream_id s) (s_closed s) (started s) (is_client s)
    (protocol_state s) (write_buffering s) b (on_new_stream s) (spawned s) (frame_tx s) (tx_open s).
Definition add_spawned (p : nat) (s : Session) : Session :=
  mkSession (heap s) (streams s) (next_stream_id s) (s_closed s) (started s) (is_client s)
    (protocol_state s) (write_buffering s) (idle_state s) (on_new_stream s) (spawned s ++ [p]) (frame_tx s) (tx_open s).
Definition add_frame (fw : FrameWrite) (s : Session) : Session :=
  mkSession (heap s) (streams s) (next_stream_id s) (s_closed s) (started s) (is_client s)
    (protocol_state s) (write_buffering s) (idle_state s) (on_new_stream s) (spawned s) (frame_tx s ++ [fw]) (tx_open s).
Definition close_tx (s : Session) : Session :=
  mkSession (heap s) (streams s) (next_stream_id s) (s_closed s) (started s) (is_client s)
    (protocol_state s) (write_buffering s) (idle_state s) (on_new_stream s) (spawned s) (frame_tx s) false.

Definition session_closed : io_error := IoError BrokenPipe (str "Session closed").
Definition stream_closed : io_error := IoError BrokenPipe (str "Stream closed").
Definition stream_limit : io_error := IoError WouldBlock (str "Session stream limit reached").
Definition sid_exhausted : io_error := err_other (str "Stream identifier exhausted").
Definition syn_sid_zero : io_error := IoError InvalidData (str "SYN cannot use control sid 0").
Definition connection_closed : io_error := IoError UnexpectedEof (str "Connection closed").
Definition alert_received : io_error := err_other (str "Alert received").

Section session.
  Context `{IterOrder, Md5, WriterPeer}.

(** ** The channel to the writer task *)

(** [frame_tx.send(fw).await]. *)
Definition tx_send (fw : FrameWrite) : ioM Session unit := fun s =>
  if tx_open s && negb (ended (frame_tx s) fw.1) then (Ok tt, add_frame fw s)
  else (Err session_closed, close_tx s).

(** [Session::write_frame]. *)
Definition write_frame (f : Frame) : ioM Session nat :=
  tx_send (f, false) ≫= fun _ => mret (length (data f)).

(** [Session::write_frame_sync]; a writer task that reports a failure ends. *)
Definition write_frame_sync (f : Frame) : ioM Session nat := fun s =>
  match tx_send (f, true) s with
  | (Err e, s') => (Err e, s')
  | (Ok _, s') =>
      match ack_error (frame_tx s) f with
      | None => (Ok (length (data f)), s')
      | Some e => (Err e, close_tx s')
      end
  end.

(** [Session::is_terminated]. *)
Definition is_terminated (s : Session) : bool := s_closed s || negb (tx_open s).

Definition is_stream_open (s : Session) : bool := negb (bool_decide (streams s = ∅)).
Definition has_stream_capacity (s : Session) (max_streams : nat) : bool :=
  size (streams s) <? max_streams.

(** ** Streams *)

(** [Stream::new], registered on the heap: the new pointer is its length. *)
Definition new_stream (sid : Z) : Stream := mkStream sid pipe_init false.

(** Apply [f] to the pipe of the stream at [p]. *)
Definition map_pipe (f : PipeInner → PipeInner) (st : Stream) : Stream :=
  mkStream (id st) (mkPS (f (inner (st_pipe st))) (phase (st_pipe st))) (st_closed st).

Definition update_stream (p : nat) (f : Stream → Stream) (s : Session) : Session :=
  set_heap (alter f p (heap s)) s.

Definition stream_at (s : Session) (p : nat) : option Stream := heap s !! p.

Definition stream_is_closed (s : Session) (p : nat) : bool :=
  default true (st_closed <$> stream_at s p).

(** [Stream::mark_closed]: whether this call closed it. *)
Definition mark_closed (p : nat) (s : Session) : bool * Session :=
  if stream_is_closed s p then (false, s)
  else (true, update_stream p (fun st => mkStream (id st) (st_pipe st) true) s).

(** [Session::remove_stream] and [Stream::remove_from_session]: under the lock,
    remove the entry and see whether the map is empty; after releasing it, tell
    the idle waiters. *)
Definition remove_entry (sid : Z) (s : Session) : option nat * bool * Session :=
  let s' := set_streams (delete sid (streams s)) s in
  (streams s !! sid, bool_decide (streams s' = ∅), s').

Definition publish_idle (is_idle : bool) (s : Session) : Session :=
  if is_idle then set_idle true s else s.

Definition remove_stream (sid : Z) (s : Session) : option nat * Session :=
  let '(stream, is_idle, s') := remove_entry sid s in (stream, publish_idle is_idle s').

(** [Stream::close_from_peer] and [Stream::close_from_session], which have the
    same body. *)
Definition close_from_peer (p : nat) (error : option io_error) (s : Session) : Session :=
  let '(won, s') := mark_closed p s in
  if won then update_stream p (map_pipe (fun i => finish_stream i error)) s' else s'.

(** [Stream::write]. *)
Definition stream_write (p : nat) (buf : bytes) : ioM Session nat := fun s =>
  if stream_is_closed s p then (Err stream_closed, s)
  else
    let sid := default 0%Z (id <$> stream_at s p) in
    (tx_send (Frame_with_data Psh sid buf, false) ≫= fun _ => mret (length buf)) s.

(** [Stream::push_data]. *)
Definition push_data (p : nat) (buf : bytes) : ioM Session nat := fun s =>
  match stream_at s p with
  | Some st =>
      if st_closed st then (Err stream_closed, s)
      else
        let '(r, i) := Pipe.write (inner (st_pipe st)) buf in
        (r, update_stream p (map_pipe (fun _ => i)) s)
  | None => (Err stream_closed, s)
  end.

(** [Stream::close]. *)
Definition stream_close (p : nat) : ioM Session unit := fun s =>
  let '(won, s1) := mark_closed p s in
  if won then
    let sid := default 0%Z (id <$> stream_at s p) in
    let '(_, s2) := remove_stream sid s1 in
    tx_send (Frame_new Fin sid, false) (update_stream p (map_pipe (fun i => close_with_error i None)) s2)
  else (Ok tt, s1).

(** [AnyTlsStreamProtocolHooks::handshake_failure] and [handshake_success]. *)
Definition handshake_failure (sid : Z) (error : bytes) : ioM Session unit := fun s =>
  if (MIN_PROTOCOL_VERSION <=? peer_version (protocol_state s))%Z
  then tx_send (Frame_with_data SynAck sid error, false) s else (Ok tt, s).
Definition handshake_success (sid : Z) : ioM Session unit := fun s =>
  if (MIN_PROTOCOL_VERSION <=? peer_version (protocol_state s))%Z
  then tx_send (Frame_new SynAck sid, false) s else (Ok tt, s).

(** ** Opening and ending *)

(** Allocate a stream and enter it in the map. *)
Definition insert_stream (sid : Z) (s : Session) : nat * Session :=
  let p := length (heap s) in
  (p, set_idle false (set_streams (<[sid := p]> (streams s)) (set_heap (heap s ++ [new_stream sid]) s))).

(** [Session::open_stream]. *)
Definition open_stream (max_streams : nat) : ioM Session nat := fun s =>
  if is_terminated s then (Err session_closed, s)
  else if s_closed s then (Err session_closed, s)
  else if max_streams <=? size (streams s) then (Err stream_limit, s)
  else
    let sid := wrap 32 (next_stream_id s + 1) in
    let s1 := set_next sid s in
    if (sid =? 0)%Z then (Err sid_exhausted, s1)
    else
      let '(p, s2) := insert_stream sid s1 in
      match write_frame (Frame_new Syn sid) s2 with
      | (Ok _, s3) => (Ok p, s3)
      | (Err e, s3) =>
          let '(_, s4) := remove_stream sid s3 in
          (Err e, close_from_peer p (Some (err_other (err_msg e))) s4)
      end.

(** [Session::terminate]. *)
Definition terminate (s : Session) : Session :=
  if s_closed s then s
  else
    let ps := (map_to_list (streams s)).*2 in
    foldl (fun s p => close_from_peer p None s) (set_idle true (set_streams ∅ (set_closed s))) ps.

(** ** The [ProtocolHost] of a session *)

(** [push_stream_data]. *)
Definition push_stream_data (sid : Z) (d : bytes) : ioM Session unit := fun s =>
  match streams s !! sid with
  | Some p =>
      if stream_is_closed s p then (Ok tt, s)
      else
        match push_data p d s with
        | (Ok _, s') => (Ok tt, s')
        | (Err e, s') => if stream_is_closed s' p then (Ok tt, s') else (Err e, s')
        end
  | None => (Ok tt, s)
  end.

(** [create_incoming_stream]. *)
Definition create_incoming_stream (sid : Z) (s : Session) : option nat * Session :=
  if (sid =? 0)%Z || is_terminated s then (None, s)
  else
    match streams s !! sid with
    | Some p => (Some p, s)
    | None =>
        let '(p, s') := insert_stream sid s in
        (Some p, if on_new_stream s' then add_spawned p s' else s')
    end.

Definition ensure_incoming_stream (sid : Z) : ioM Session unit := fun s =>
  if (sid =? 0)%Z then (Err syn_sid_zero, s) else (Ok tt, (create_incoming_stream sid s).2).

(** [close_logical_stream] and [terminate_session]. *)
Definition close_logical_stream (sid : Z) : ioM Session unit := fun s =>
  match remove_stream sid s with
  | (Some p, s') => (Ok tt, close_from_peer p None s')
  | (None, s') => (Ok tt, s')
  end.

Definition terminate_session (sid : Z) (message : option bytes) : ioM Session unit := fun s =>
  match remove_stream sid s with
  | (Some p, s') => (Ok tt, close_from_peer p ((fun m => err_other (str "remote: " ++ m)) <$> message) s')
  | (None, s') => (Ok tt, s')
  end.

Definition release_write_buffering : ioM Session unit := io_modify (set_write_buffering false).

(** [AnyTlsProtocol::apply_actions]. *)
Definition apply_action (a : ProtocolAction) : ioM Session unit :=
  match a with
  | SendFrame f => write_frame f ≫= fun _ => mret tt
  | SendFrameSync f => write_frame_sync f ≫= fun _ => mret tt
  | PushStreamData sid d => push_stream_data sid d
  | EnsureIncomingStream sid => ensure_incoming_stream sid
  | CloseLocalStream sid => close_logical_stream sid
  | CloseRemoteStream sid message => terminate_session sid (Some message)
  | ReleaseWriteBuffering => release_write_buffering
  | AlertAndFail message =>
      io_ignore (write_frame_sync (Frame_with_data Alert 0 message)) ≫= fun _ => io_fail (err_other message)
  end.

Definition apply_actions (actions : list ProtocolAction) : ioM Session unit := io_iter apply_action actions.

(** [AnyTlsProtocol::on_session_start] and [handle_frame]. *)
Definition proto_session_start : ioM Session unit := fun s =>
  apply_actions (on_session_start (protocol_state s) (is_client s) PROGRAM_VERSION_NAME) s.

Definition handle_frame (f : Frame) : ioM Session unit := fun s =>
  if decide (cmd f = Alert) then (Err alert_received, s)
  else
    let '(st, actions) := on_frame (protocol_state s) (is_client s) f in
    apply_actions actions (set_protocol_state st s).

(** [Session::ensure_started]. *)
Definition ensure_started : ioM Session unit := fun s =>
  if started s then (Ok tt, s)
  else
    match proto_session_start (set_started true s) with
    | (Ok _, s') => (Ok tt, s')
    | (Err e, s') => (Err e, set_started false s')
    end.

(** The [while let] loop of [recv_loop]: the pending bytes left.  A frame takes
    at least seven bytes, so [length pending] rounds are enough. *)
Fixpoint frames_loop (fuel : nat) (pending : bytes) : ioM Session bytes :=
  match fuel with
  | O => mret pending
  | S n =>
      match Frame.from_bytes pending with
      | None => mret pending
      | Some f =>
          handle_frame f ≫= fun _ =>
          frames_loop n (drop (HEADER_OVERHEAD_SIZE + length (data f)) pending)
      end
  end.

(** [Session::recv_loop] over what the reads return: [None] while it still waits
    for more. *)
Fixpoint recv_loop (input : list (result bytes)) (pending : bytes) (s : Session)
  : option io_error * Session :=
  if s_closed s then (Some session_closed, s)
  else
    match input with
    | [] => (None, s)
    | Err e :: _ => (Some e, s)
    | Ok [] :: _ => (Some connection_closed, s)
    | Ok chunk :: input' =>
        match frames_loop (length (pending ++ chunk)) (pending ++ chunk) s with
        | (Ok pending', s') => recv_loop input' pending' s'
        | (Err e, s') => (Some e, s')
        end
    end.

(** [Session::run]: the error it ends with, if it has ended. *)
Definition run (input : list (result bytes)) (s : Session) : option io_error * Session :=
  match ensure_started s with
  | (Err e, s') => (Some e, s')
  | (Ok _, s') =>
      let '(r, s'') := recv_loop input [] s' in
      (r, if r is Some _ then terminate s'' else s'')
  end.

(** ** Closing a stream *)

(** What closing does to a stream object: nothing if it is closed already. *)
Definition close_stream (error : option io_error) (st : Stream) : Stream :=
  if st_closed st then st
  else mkStream (id st) (mkPS (finish_stream (inner (st_pipe st)) error) (phase (st_pipe st))) true.

Lemma set_heap_same s : set_heap (heap s) s = s.
Proof. by destruct s. Qed.

Lemma close_from_peer_eq p e s :
  close_from_peer p e s = set_heap (alter (close_stream e) p (heap s)) s.
Proof.
  unfold close_from_peer, mark_closed, stream_is_closed, stream_at.
  destruct (heap s !! p) as [st|] eqn:Hp; simpl.
  - assert (alter (close_stream e) p (heap s) = <[p := close_stream e st]> (heap s)) as ->.
    { apply list_eq. intros i. destruct (decide (i = p)) as [->|].
      - rewrite list_lookup_alter_eq, Hp, list_lookup_insert_eq by by eapply lookup_lt_Some. done.
      - by rewrite list_lookup_alter_ne, list_lookup_insert_ne by done. }
    unfold close_stream. destruct (st_closed st) eqn:Hc.
    + rewrite list_insert_id by done. by rewrite set_heap_same.
    + unfold update_stream, set_heap; simpl. f_equal. apply list_eq. intros i.
      destruct (decide (i = p)) as [->|].
      * rewrite !list_lookup_alter_eq, Hp, list_lookup_insert_eq by by eapply lookup_lt_Some. done.
      * by rewrite !list_lookup_alter_ne, list_lookup_insert_ne by done.
  - assert (alter (close_stream e) p (heap s) = heap s) as ->; [|by rewrite set_heap_same].
    apply list_eq. intros i. destruct (decide (i = p)) as [->|]; [|by rewrite list_lookup_alter_ne].
    by rewrite list_lookup_alter_eq, Hp.
Qed.

(** ** The invariant *)

(** A pipe on which the stream's end has not been marked. *)
Definition is_data_event (e : PipeEvent) : Prop := match e with Data _ => True | StreamEnd _ => False end.
Definition pipe_open (ps : PipeState) : Prop :=
  Pipe.closed (inner ps) = false ∧ stream_end_queued (inner ps) = false ∧
  data_sender (inner ps) = true ∧ Forall is_data_event (pending ps).

(** The map and the stream objects agree: an entry points to an open stream of
    its own id, every open stream is entered, ids are not 0, the idle flag says
    whether the map is empty, and a closed session has no streams. *)
Record inv (h : list Stream) (m : gmap Z nat) (idle closed : bool) : Prop := mkInv {
  inv_entry : ∀ i p, m !! i = Some p → i ≠ 0%Z ∧ ∃ st, h !! p = Some st ∧ id st = i ∧ st_closed st = false;
  inv_open : ∀ p st, h !! p = Some st → st_closed st = false → m !! id st = Some p ∧ pipe_open (st_pipe st);
  inv_idle : idle = true ↔ m = ∅;
  inv_closed : closed = true → m = ∅;
}.

Definition sess_inv (s : Session) : Prop := inv (heap s) (streams s) (idle_state s) (s_closed s).

Lemma sess_inv_ext s t :
  heap t = heap s → streams t = streams s → idle_state t = idle_state s → s_closed t = s_closed s →
  sess_inv s → sess_inv t.
Proof. unfold sess_inv. by intros -> -> -> ->. Qed.

Lemma sess_inv_init c cb st : sess_inv (new_with_protocol c cb st).
Proof. by split; simpl. Qed.

Lemma pipe_open_init : pipe_open pipe_init.
Proof. split_and!; (done || constructor). Qed.

(** Closing one open stream and taking it out of the map. *)
Lemma inv_close_one h m idle cl p st f :
  inv h m idle cl → h !! p = Some st → st_closed st = false →
  id (f st) = id st → st_closed (f st) = true →
  inv (alter f p h) (delete (id st) m)
      (if bool_decide (delete (id st) m = ∅) then true else idle) cl.
Proof.
  intros [I1 I2 I3 I4] Hp Hc Hid Hcl. destruct (I2 _ _ Hp Hc) as [Hm _]. split.
  - intros i q [Hi Hq]%lookup_delete_Some. destruct (I1 _ _ Hq) as (? & st' & Hst' & ? & ?).
    split; [done|]. exists st'. split_and!; [|done..].
    rewrite list_lookup_alter_ne; [done|]. intros ->. congruence.
  - intros q st' Hq Hc'. destruct (decide (q = p)) as [->|Hne].
    + rewrite list_lookup_alter_eq, Hp in Hq. injection Hq as <-. congruence.
    + rewrite list_lookup_alter_ne in Hq by done. destruct (I2 _ _ Hq Hc') as [Hm' ?].
      split; [|done]. rewrite lookup_delete_ne; [done|]. intros E. congruence.
  - case_bool_decide as E; [by split|]. rewrite I3. split; [|done]. intros ->. by rewrite delete_empty in E.
  - intros ->%I4. apply delete_empty.
Qed.

(** Allocating a stream under an unused id. *)
Lemma inv_insert h m idle i :
  inv h m idle false → i ≠ 0%Z → m !! i = None →
  inv (h ++ [new_stream i]) (<[i := length h]> m) false false.
Proof.
  intros [I1 I2 I3 I4] Hi Hm. split.
  - intros j q [[<- <-]|[Hj Hq]]%lookup_insert_Some.
    + split; [done|]. exists (new_stream i). by rewrite lookup_app_r, Nat.sub_diag by lia.
    + destruct (I1 _ _ Hq) as (? & st & Hst & ?). split; [done|]. exists st.
      by rewrite lookup_app_l by by eapply lookup_lt_Some.
  - intros q st [Hq|[Hge Hq]]%lookup_app_Some Hc.
    + destruct (I2 _ _ Hq Hc) as [Hm' ?]. split; [|done]. rewrite lookup_insert_ne; [done|]. congruence.
    + apply list_lookup_singleton_Some in Hq as [Hz <-]. assert (q = length h) as -> by lia.
      split; [by rewrite lookup_insert_eq|apply pipe_open_init].
  - split; [done|]. by intros ?%insert_non_empty.
  - done.
Qed.

(** A change to one stream's pipe by its reader. *)
Lemma inv_pipe h m idle cl p st ps :
  inv h m idle cl → h !! p = Some st → (pipe_open (st_pipe st) → pipe_open ps) →
  inv (alter (fun st => mkStream (id st) ps (st_closed st)) p h) m idle cl.
Proof.
  intros [I1 I2 I3 I4] Hp Hps. split; [| |done..].
  - intros i q Hq. destruct (I1 _ _ Hq) as (? & st' & Hst' & ? & ?). split; [done|].
    destruct (decide (q = p)) as [->|]; [|exists st'; by rewrite list_lookup_alter_ne].
    rewrite list_lookup_alter_eq, Hst'. by eexists.
  - intros q st' Hq Hc. destruct (decide (q = p)) as [->|].
    + rewrite list_lookup_alter_eq, Hp in Hq. simplify_eq/=. destruct (I2 _ _ Hp Hc). auto.
    + rewrite list_lookup_alter_ne in Hq by done. eauto.
Qed.

(** ** What the operations do to the map and the stream objects *)

(** Operations that only touch the channel, the protocol state and flags. *)
Definition same_streams (s t : Session) : Prop :=
  heap t = heap s ∧ streams t = streams s ∧ idle_state t = idle_state s ∧ s_closed t = s_closed s ∧
  next_stream_id t = next_stream_id s ∧ is_client t = is_client s.

#[local] Instance same_streams_refl : Reflexive same_streams.
Proof. done. Qed.
#[local] Instance same_streams_trans : Transitive same_streams.
Proof. unfold same_streams. intros s t u ? ?. naive_solver congruence. Qed.

Lemma sess_inv_same s t : same_streams s t → sess_inv s → sess_inv t.
Proof. intros (?&?&?&?&_). by apply sess_inv_ext. Qed.

Lemma tx_send_same fw s : same_streams s (tx_send fw s).2.
Proof. unfold tx_send. by case_match. Qed.

Lemma write_frame_same f s : same_streams s (write_frame f s).2.
Proof.
  unfold write_frame, mbind, ioM_bind. pose proof (tx_send_same (f, false) s) as Hs.
  by destruct (tx_send _ s) as [[?|?] ?].
Qed.

Lemma write_frame_sync_same f s : same_streams s (write_frame_sync f s).2.
Proof.
  unfold write_frame_sync. pose proof (tx_send_same (f, true) s) as Hs.
  destruct (tx_send _ s) as [[?|?] ?]; simpl in *; [|done]. by case_match.
Qed.

Lemma sess_inv_closed_one s p st f :
  sess_inv s → heap s !! p = Some st → st_closed st = false →
  id (f st) = id st → st_closed (f st) = true →
  sess_inv (set_heap (alter f p (heap s)) (remove_stream (id st) s).2).
Proof.
  intros Hi Hp Hc H1' H2'. pose proof (inv_close_one _ _ _ _ _ _ f Hi Hp Hc H1' H2') as Hg.
  unfold sess_inv. simpl. unfold publish_idle. by case_bool_decide.
Qed.

(** Removing the entry of an id and closing what it pointed to. *)
Lemma sess_inv_close_sid i e s :
  sess_inv s →
  sess_inv (match remove_stream i s with (Some p, s') => close_from_peer p e s' | (None, s') => s' end).
Proof.
  intros Hi. destruct (remove_stream i s) as [o s'] eqn:E.
  assert (o = streams s !! i ∧ heap s' = heap s) as [Ho Hh].
  { unfold remove_stream in E. simpl in E. injection E as <- <-. unfold publish_idle. by case_bool_decide. }
  destruct o as [p|].
  - destruct (inv_entry _ _ _ _ Hi i p) as (_ & st & Hp & Hid & Hc); [done|].
    pose proof (sess_inv_closed_one s p st (close_stream e) Hi Hp Hc) as Hg.
    rewrite Hid, E in Hg. rewrite close_from_peer_eq, Hh. apply Hg; unfold close_stream; by rewrite Hc.
  - assert (s' = s) as ->; [|done]. unfold remove_stream, remove_entry in E. simpl in E.
    injection E as _ <-. rewrite delete_id by done.
    replace (set_streams (streams s) s) with s by by destruct s.
    clear Hh. unfold publish_idle. case_bool_decide as Hm; [|done].
    apply (inv_idle _ _ _ _ Hi) in Hm. destruct s; simpl in *. by subst.
Qed.

Lemma close_logical_stream_inv i s : sess_inv s → sess_inv (close_logical_stream i s).2.
Proof.
  intros Hi%(sess_inv_close_sid i None). unfold close_logical_stream.
  by destruct (remove_stream i s) as [[p|] s'].
Qed.

Lemma terminate_session_inv i m s : sess_inv s → sess_inv (terminate_session i m s).2.
Proof.
  intros Hi. unfold terminate_session. set (e := _ <$> m).
  pose proof (sess_inv_close_sid i e s Hi). by destruct (remove_stream i s) as [[p|] s'].
Qed.

Lemma insert_stream_inv i s :
  sess_inv s → i ≠ 0%Z → s_closed s = false → streams s !! i = None → sess_inv (insert_stream i s).2.
Proof.
  unfold sess_inv. intros Hi Hn Hc Hm. simpl. rewrite Hc in *. eapply inv_insert; eauto.
Qed.

Lemma create_incoming_stream_inv i s : sess_inv s → sess_inv (create_incoming_stream i s).2.
Proof.
  intros Hi. unfold create_incoming_stream, is_terminated.
  destruct (Z.eqb_spec i 0); simpl; [done|]. destruct (s_closed s) eqn:Hc; simpl; [done|].
  destruct (tx_open s); simpl; [|done]. destruct (streams s !! i) as [p|] eqn:Hm; simpl; [done|].
  pose proof (insert_stream_inv i s Hi n Hc Hm) as Hg. by case_match.
Qed.

Lemma write_inner_open p d : pipe_open p → pipe_open (mkPS (Pipe.write (inner p) d).2 (phase p)).
Proof.
  intros (C & Q & S & P). unfold Pipe.write. rewrite C, Q, S. simpl.
  destruct (rx_alive (inner p)); simpl; [|by destruct p].
  split_and!; [done..|]. rewrite pending_enqueue. apply Forall_app. split; [done|by repeat constructor].
Qed.

Lemma push_data_inv p d s : sess_inv s → sess_inv (push_data p d s).2.
Proof.
  intros Hi. unfold push_data, stream_at. destruct (heap s !! p) as [st|] eqn:Hp; [|done].
  destruct (st_closed st) eqn:Hc; [done|].
  destruct (Pipe.write (inner (st_pipe st)) d) as [r i] eqn:Hw; simpl. unfold sess_inv; simpl.
  assert (alter (map_pipe (fun _ => i)) p (heap s) =
    alter (fun st' => mkStream (id st') (mkPS i (phase (st_pipe st))) (st_closed st')) p (heap s)) as ->.
  { apply list_eq. intros q. destruct (decide (q = p)) as [->|]; [|by rewrite !list_lookup_alter_ne].
    by rewrite !list_lookup_alter_eq, Hp. }
  eapply inv_pipe; [done..|]. intros Ho%(write_inner_open _ d). by rewrite Hw in Ho.
Qed.

Lemma push_stream_data_inv i d s : sess_inv s → sess_inv (push_stream_data i d s).2.
Proof.
  intros Hi. unfold push_stream_data. destruct (streams s !! i) as [p|]; [|done].
  case_match; [done|]. pose proof (push_data_inv p d s Hi).
  destruct (push_data p d s) as [[?|?] s']; [done|]. by case_match.
Qed.

Lemma apply_action_inv a s : sess_inv s → sess_inv (apply_action a s).2.
Proof.
  intros Hi. destruct a as [f|f|i d|i|i|i m| |m]; simpl.
  - unfold mbind, ioM_bind. pose proof (write_frame_same f s) as Hs%sess_inv_same; [|done].
    by destruct (write_frame f s) as [[?|?] ?].
  - unfold mbind, ioM_bind. pose proof (write_frame_sync_same f s) as Hs%sess_inv_same; [|done].
    by destruct (write_frame_sync f s) as [[?|?] ?].
  - by apply push_stream_data_inv.
  - unfold ensure_incoming_stream. case_match; [done|]. by apply create_incoming_stream_inv.
  - by apply close_logical_stream_inv.
  - by apply terminate_session_inv.
  - by eapply sess_inv_same; [|exact Hi].
  - unfold mbind, ioM_bind. simpl. eapply sess_inv_same; [apply write_frame_sync_same|done].
Qed.

Lemma io_iter_inv {A} (P : Session → Prop) (f : A → ioM Session unit) l :
  (∀ a s, P s → P (f a s).2) → ∀ s, P s → P (io_iter f l s).2.
Proof.
  intros Hf. induction l as [|a l IH]; intros s Hs; [done|]. simpl. unfold mbind, ioM_bind.
  specialize (Hf a s Hs). destruct (f a s) as [[u|e] s']; [by apply IH|done].
Qed.

Lemma handle_frame_inv f s : sess_inv s → sess_inv (handle_frame f s).2.
Proof.
  intros Hi. unfold handle_frame. case_decide; [done|].
  destruct (on_frame _ _ _) as [st acts].
  apply (io_iter_inv sess_inv); [apply apply_action_inv|].
  by eapply sess_inv_same; [|exact Hi].
Qed.

(** [close] by the stream's owner. *)
Definition close_locally (st : Stream) : Stream :=
  mkStream (id st) (mkPS (close_with_error (inner (st_pipe st)) None) (phase (st_pipe st))) true.

Lemma alter_alter_list {A} (f g : A → A) p (l : list A) :
  alter g p (alter f p l) = alter (g ∘ f) p l.
Proof.
  apply list_eq. intros i. destruct (decide (i = p)) as [->|]; [|by rewrite !list_lookup_alter_ne].
  rewrite !list_lookup_alter_eq. by destruct (l !! p).
Qed.

Lemma stream_close_eq p s st :
  heap s !! p = Some st → st_closed st = false →
  stream_close p s =
    tx_send (Frame_new Fin (id st), false)
      (set_heap (alter close_locally p (heap s)) (remove_stream (id st) s).2).
Proof.
  intros Hp Hc. unfold stream_close, mark_closed, stream_is_closed, stream_at. rewrite Hp. simpl.
  rewrite Hc. f_equal. unfold update_stream, publish_idle. simpl.
  case_bool_decide; unfold set_heap; simpl; f_equal; by rewrite alter_alter_list.
Qed.

Lemma stream_close_noop p s : stream_is_closed s p = true → stream_close p s = (Ok tt, s).
Proof. intros Hc. unfold stream_close, mark_closed. by rewrite Hc. Qed.

Lemma stream_close_inv p s : sess_inv s → sess_inv (stream_close p s).2.
Proof.
  intros Hi. destruct (stream_is_closed s p) eqn:Hc; [by rewrite stream_close_noop|].
  unfold stream_is_closed, stream_at in Hc. destruct (heap s !! p) as [st|] eqn:Hp; [|done]. simpl in Hc.
  rewrite (stream_close_eq p s st) by done. eapply sess_inv_same; [apply tx_send_same|].
  by apply sess_inv_closed_one.
Qed.

(** [open_stream], once its guards pass: the stream is entered and announced, or
    withdrawn and closed when the announcement fails. *)
Definition next_sid (s : Session) : Z := wrap 32 (next_stream_id s + 1).

Definition opened (s : Session) : Session := (insert_stream (next_sid s) (set_next (next_sid s) s)).2.

Lemma open_stream_cases max s :
  (∃ e t, open_stream max s = (Err e, t) ∧ (t = s ∨ t = set_next (next_sid s) s)) ∨
  (is_terminated s = false ∧ s_closed s = false ∧ size (streams s) < max ∧ next_sid s ≠ 0%Z ∧
   open_stream max s =
     match tx_send (Frame_new Syn (next_sid s), false) (opened s) with
     | (Ok _, t) => (Ok (length (heap s)), t)
     | (Err e, t) => (Err e, close_from_peer (length (heap s)) (Some (err_other (err_msg e)))
                               (remove_stream (next_sid s) t).2)
     end).
Proof.
  unfold open_stream. destruct (is_terminated s) eqn:Ht; [left; eauto|].
  destruct (s_closed s) eqn:Hc; [left; eauto|].
  destruct (Nat.leb_spec max (size (streams s))); [left; eauto|].
  fold (next_sid s). destruct (Z.eqb_spec (next_sid s) 0) as [E|E]; [left; eauto|].
  right. split_and!; [done..|]. unfold write_frame, mbind, ioM_bind, opened. simpl.
  match goal with |- context [tx_send ?a ?b] => by destruct (tx_send a b) as [[u|e] t] end.
Qed.

Lemma opened_inv s :
  sess_inv s → s_closed s = false → next_sid s ≠ 0%Z → streams s !! next_sid s = None → sess_inv (opened s).
Proof. intros Hi Hc Hn Hm. unfold opened. by apply insert_stream_inv. Qed.

Lemma open_stream_inv max s :
  sess_inv s → streams s !! next_sid s = None → sess_inv (open_stream max s).2.
Proof.
  intros Hi Hm. destruct (open_stream_cases max s) as [(e & t & -> & [->| ->])|(Ht & Hc & Hs & Hn & ->)];
    [done|exact Hi|].
  pose proof (opened_inv s Hi Hc Hn Hm) as Ho.
  pose proof (tx_send_same (Frame_new Syn (next_sid s), false) (opened s)) as Hsame.
  destruct (tx_send _ (opened s)) as [[u|e] t]; cbn [fst snd] in *; [by eapply sess_inv_same|].
  pose proof (sess_inv_close_sid (next_sid s) (Some (err_other (err_msg e))) t
                (sess_inv_same _ _ Hsame Ho)) as Hg.
  assert ((remove_stream (next_sid s) t).1 = Some (length (heap s))) as E.
  { simpl. destruct Hsame as (_ & -> & _). simpl. apply lookup_insert_eq. }
  destruct (remove_stream (next_sid s) t) as [o t']. cbn [fst snd] in *. by subst o.
Qed.

(** ** Ending the session *)

Lemma close_all_heap ps s :
  foldl (fun s p => close_from_peer p None s) s ps =
    set_heap (foldl (fun h p => alter (close_stream None) p h) (heap s) ps) s.
Proof.
  revert s. induction ps as [|p ps IH]; intros s; simpl; [by rewrite set_heap_same|].
  rewrite IH, close_from_peer_eq. done.
Qed.

Lemma close_stream_idem e st : close_stream e (close_stream e st) = close_stream e st.
Proof. unfold close_stream at 1. unfold close_stream. destruct (st_closed st) eqn:E; [by rewrite E|done]. Qed.

Lemma close_all_lookup (ps : list nat) (h : list Stream) (q : nat) :
  foldl (fun h p => alter (close_stream None) p h) h ps !! q =
    if decide (q ∈ ps) then close_stream None <$> h !! q else h !! q.
Proof.
  revert h. induction ps as [|p ps IH]; intros h; cbn [foldl]; [by rewrite decide_False by set_solver|].
  rewrite IH. destruct (decide (q = p)) as [->|Hne].
  - rewrite list_lookup_alter_eq. rewrite (decide_True (P := p ∈ p :: ps)) by set_solver.
    case_decide; [|done]. destruct (h !! p); simpl; [by rewrite close_stream_idem|done].
  - rewrite list_lookup_alter_ne by done. by rewrite (decide_ext (q ∈ p :: ps) (q ∈ ps)) by set_solver.
Qed.

(** Whatever order the map is traversed in, ending a session closes every stream
    object that is still open. *)
Lemma terminate_eq s :
  sess_inv s →
  terminate s = set_heap (close_stream None <$> heap s) (set_idle true (set_streams ∅ (set_closed s))).
Proof.
  intros [I1 I2 I3 I4]. unfold terminate. destruct (s_closed s) eqn:Hc.
  - rewrite (I4 eq_refl) in *. assert (idle_state s = true) as Hid by by apply I3.
    assert (close_stream None <$> heap s = heap s) as ->.
    { apply list_eq. intros p. rewrite list_lookup_fmap. destruct (heap s !! p) as [st|] eqn:Hp; [|done].
      simpl. unfold close_stream. destruct (st_closed st) eqn:Hst; [done|].
      destruct (I2 _ _ Hp Hst) as [Hm _]. by rewrite lookup_empty in Hm. }
    destruct s; simpl in *. rewrite Hid, Hc, (I4 eq_refl). done.
  - rewrite close_all_heap. simpl. unfold set_heap; simpl. f_equal. apply list_eq. intros p.
    rewrite close_all_lookup, list_lookup_fmap. case_decide as Hin; [done|].
    destruct (heap s !! p) as [st|] eqn:Hp; [|done]. simpl. unfold close_stream.
    destruct (st_closed st) eqn:Hst; [done|]. destruct (I2 _ _ Hp Hst) as [Hm _].
    exfalso. apply Hin. apply list_elem_of_fmap. exists (id st, p). split; [done|].
    by apply elem_of_map_to_list.
Qed.

Lemma close_stream_closed e st : st_closed (close_stream e st) = true.
Proof. unfold close_stream. by destruct (st_closed st) eqn:E. Qed.

Lemma terminate_inv s : sess_inv s → sess_inv (terminate s).
Proof.
  intros Hi. rewrite terminate_eq by done. split; simpl; [done| |done|done].
  intros p st Hp. rewrite list_lookup_fmap in Hp. destruct (heap s !! p); simplify_eq/=.
  by rewrite close_stream_closed.
Qed.

(** ** Properties *)

(** Opening a stream, on every branch.  A terminated session and a session
    at its limit refuse and are unchanged; an exhausted id counter refuses; a
    session whose writer accepts the [Syn] gets one new open stream under the
    next id, never more streams than the limit, the [Syn] as its last queued
    frame and every other stream untouched; a failing writer leaves the map as
    it was and the new stream object closed. *)
Theorem open_stream_branches max s :
  sess_inv s → in_u 32 (next_stream_id s) → streams s !! next_sid s = None →
  match open_stream max s with
  | (Ok p, t) =>
      p = length (heap s) ∧ heap t = heap s ++ [new_stream (next_sid s)] ∧
      streams t = <[next_sid s := p]> (streams s) ∧ size (streams t) ≤ max ∧
      frame_tx t = frame_tx s ++ [(Frame_new Syn (next_sid s), false)] ∧ idle_state t = false ∧
      is_terminated s = false
  | (Err e, t) =>
      streams t = streams s ∧ frame_tx t = frame_tx s ∧
      (e = session_closed ∨ e = stream_limit ∧ max ≤ size (streams s) ∧ t = s ∨
       e = sid_exhausted ∧ next_stream_id s = u32_max) ∧
      (∀ p st, heap t !! p = Some st → length (heap s) ≤ p → st_closed st = true)
  end.
Proof.
  intros Hi Hu Hm.
  assert (∀ p st, heap s !! p = Some st → length (heap s) ≤ p → st_closed st = true) as Hlt
    by (intros p st ?%lookup_lt_Some ?; lia).
  unfold open_stream. destruct (is_terminated s) eqn:Ht; [by split_and!; auto|].
  destruct (s_closed s) eqn:Hc; [by split_and!; auto|].
  destruct (Nat.leb_spec max (size (streams s))); [by split_and!; auto|].
  fold (next_sid s). destruct (Z.eqb_spec (next_sid s) 0) as [E|E].
  { split_and!; [done..| |done]. right; right. split; [done|].
    unfold next_sid, wrap, in_u in *. destruct (decide (next_stream_id s = u32_max)); [done|].
    rewrite Z.mod_small in E by lia. lia. }
  unfold write_frame, mbind, ioM_bind, tx_send. simpl.
  destruct (tx_open s && _); simpl.
  - split_and!; [done..| |done|done|done]. rewrite map_size_insert_None by done. lia.
  - rewrite close_from_peer_eq, delete_insert_id by done.
    unfold publish_idle. case_bool_decide; simpl; (split_and!; [done..|by left|]);
      intros p st Hp Hge; rewrite alter_app_r_alt in Hp by lia;
      rewrite Nat.sub_diag, lookup_app_r in Hp by lia; simpl in Hp;
      apply list_lookup_singleton_Some in Hp as [_ <-]; apply close_stream_closed.
Qed.

(** Ending a session closes everything exactly once: every stream object
    ever created is closed (those still open get the end-of-stream mark, the
    others are left alone), the map is empty, idle waiters are released, and
    ending it again changes nothing. *)
Theorem terminate_closes_all s :
  sess_inv s →
  let t := terminate s in
  heap t = (close_stream None <$> heap s) ∧ streams t = ∅ ∧ idle_state t = true ∧ s_closed t = true ∧
  Forall (fun st => st_closed st = true) (heap t) ∧ terminate t = t ∧
  ∀ max, open_stream max t = (Err session_closed, t).
Proof.
  intros Hi. cbn zeta. rewrite terminate_eq by done. split_and!; try done. simpl.
  apply Forall_fmap, Forall_forall. intros st _. apply close_stream_closed.
Qed.

(** Closing a stream is idempotent and final: the first [close] takes the
    stream out of the session and queues one [Fin]; later ones succeed without
    queueing anything; a closed stream refuses to be written or fed. *)
Theorem stream_close_once s p st :
  sess_inv s → heap s !! p = Some st → st_closed st = false → tx_open s = true →
  ended (frame_tx s) (Frame_new Fin (id st)) = false →
  let '(r, t) := stream_close p s in
  r = Ok tt ∧ frame_tx t = frame_tx s ++ [(Frame_new Fin (id st), false)] ∧
  streams t = delete (id st) (streams s) ∧ (idle_state t = true ↔ streams t = ∅) ∧
  stream_close p t = (Ok tt, t) ∧
  (∀ d, stream_write p d t = (Err stream_closed, t)) ∧ (∀ d, push_data p d t = (Err stream_closed, t)).
Proof.
  intros Hi Hp Hc Ho He. pose proof (stream_close_inv p s Hi) as Hinv.
  rewrite (stream_close_eq p s st Hp Hc) in Hinv |- *.
  set (u := set_heap _ _) in *.
  assert (tx_open u = true ∧ frame_tx u = frame_tx s ∧ streams u = delete (id st) (streams s) ∧
          heap u = alter close_locally p (heap s)) as (U1 & U2 & U3 & U4).
  { unfold u, publish_idle; simpl. by case_bool_decide. }
  clearbody u. unfold tx_send in *. rewrite U1, U2 in Hinv |- *. cbn [fst] in *. rewrite He in Hinv |- *. cbn [negb andb fst snd] in *.
  assert (stream_at (add_frame (Frame_new Fin (id st), false) u) p = Some (close_locally st)) as Hat.
  { unfold stream_at; simpl. by rewrite U4, list_lookup_alter_eq, Hp. }
  assert (stream_is_closed (add_frame (Frame_new Fin (id st), false) u) p = true) as Hcl.
  { unfold stream_is_closed. by rewrite Hat. }
  split_and!; [done|simpl; by rewrite U2|done|by apply Hinv|by apply stream_close_noop| |]; intros d.
  - unfold stream_write. by rewrite Hcl.
  - unfold push_data. by rewrite Hat.
Qed.

(** A server that receives a [Syn] before the client's settings fails the
    session with the documented alert: the alert is queued, no stream is
    created and the receive loop gets the error. *)
Theorem early_syn_fails_session s i d :
  is_client s = false → received_settings_from_client (protocol_state s) = false →
  tx_open s = true →
  let alert := Frame_with_data Alert 0 settings_missing in
  ended (frame_tx s) alert = false →
  let '(r, t) := handle_frame (Frame_with_data Syn i d) s in
  r = Err (err_other settings_missing) ∧ frame_tx t = frame_tx s ++ [(alert, true)] ∧
  heap t = heap s ∧ streams t = streams s.
Proof.
  intros Hcl Hrs Ho alert He. unfold handle_frame. rewrite decide_False by done.
  unfold on_frame; simpl. rewrite Hcl, Hrs. simpl. unfold apply_actions; simpl.
  unfold mbind, ioM_bind, io_ignore, write_frame_sync, tx_send. simpl. fold alert. rewrite Ho, He. simpl.
  by case_match.
Qed.

(** An id is handed out again after the counter wraps: with the counter
    exhausted, the first [open_stream] fails, and the second one gives id 1,
    replacing in the map the stream that already has it.  The old stream is
    still open but no longer receives its payload. *)
Theorem stream_id_reused_after_wrap max s p :
  next_stream_id s = u32_max → streams s !! 1%Z = Some p → p < length (heap s) →
  is_terminated s = false → size (streams s) < max →
  ended (frame_tx s) (Frame_new Syn 1) = false →
  let '(r1, s1) := open_stream max s in
  let '(r2, s2) := open_stream max s1 in
  r1 = Err sid_exhausted ∧ r2 = Ok (length (heap s)) ∧
  streams s2 !! 1%Z = Some (length (heap s)) ∧ heap s2 !! p = heap s !! p ∧
  stream_is_closed s2 p = stream_is_closed s p.
Proof.
  intros Hn Hp Hlt Ht Hs He. assert (s_closed s = false ∧ tx_open s = true) as [Hc Ho].
  { unfold is_terminated in Ht. by destruct (s_closed s), (tx_open s). }
  unfold open_stream at 1. rewrite Ht, Hc, (proj2 (Nat.leb_gt _ _) Hs), Hn.
  change (wrap 32 (u32_max + 1)) with 0%Z. simpl.
  unfold open_stream, is_terminated; simpl. rewrite Hc, Ho; simpl. rewrite (proj2 (Nat.leb_gt _ _) Hs).
  change (wrap 32 (0 + 1)) with 1%Z. simpl.
  unfold write_frame, mbind, ioM_bind, tx_send; simpl. rewrite Ho, He. simpl.
  unfold stream_is_closed, stream_at; simpl. rewrite lookup_app_l by done.
  split_and!; [done..|apply lookup_insert_eq|done|done].
Qed.

(** The idle flag can go wrong: [remove_stream] publishes idleness after it
    has released the map, so a stream opened in between is overwritten by a
    stale idle signal.  The session then counts as idle with a stream open. *)
Theorem stale_idle_signal max s i p :
  streams s = {[ i := p ]} → is_terminated s = false → 0 < max →
  next_sid s ≠ 0%Z → ended (frame_tx s) (Frame_new Syn (next_sid s)) = false →
  let '(_, is_idle, s1) := remove_entry i s in
  let '(r, s2) := open_stream max s1 in
  let s3 := publish_idle is_idle s2 in
  is_ok r = true ∧ idle_state s3 = true ∧ is_stream_open s3 = true.
Proof.
  intros Hm Ht Hmax Hn He. assert (s_closed s = false ∧ tx_open s = true) as [Hc Ho].
  { unfold is_terminated in Ht. by destruct (s_closed s), (tx_open s). }
  unfold remove_entry. simpl. rewrite Hm, delete_singleton_eq.
  rewrite (bool_decide_eq_true_2 (∅ = ∅)) by done.
  unfold open_stream, is_terminated; simpl. rewrite Hc, Ho; simpl. rewrite map_size_empty.
  destruct max; [lia|]. simpl. fold (next_sid s). destruct (Z.eqb_spec (next_sid s) 0); [done|].
  unfold write_frame, mbind, ioM_bind, tx_send; simpl. rewrite Ho, He. simpl.
  split_and!; [done..|]. unfold is_stream_open; simpl.
  rewrite bool_decide_eq_false_2; [done|]. apply insert_non_empty.
Qed.
End session.

(** *** Witnesses *)

(** A client session with two streams, and a fresh server session. *)
Definition demo_factory : PaddingFactory := toy_scheme "stop=8".
Definition demo_client : Session :=
  (open_stream (H1 := good_writer) 4 (open_stream (H1 := good_writer) 4 (new_client_session demo_factory)).2).2.
Definition demo_server : Session := new_server_session demo_factory.

Lemma demo_client_inv : sess_inv demo_client.
Proof.
  apply (open_stream_inv (H1 := good_writer)); [|by vm_compute].
  apply (open_stream_inv (H1 := good_writer)); [|by vm_compute].
  apply sess_inv_init.
Qed.

Lemma open_stream_branches_witness :
  match open_stream (H1 := good_writer) 3 demo_client with
  | (Ok p, t) =>
      p = length (heap demo_client) ∧ heap t = heap demo_client ++ [new_stream (next_sid demo_client)] ∧
      streams t = <[next_sid demo_client := p]> (streams demo_client) ∧ size (streams t) ≤ 3 ∧
      frame_tx t = frame_tx demo_client ++ [(Frame_new Syn (next_sid demo_client), false)] ∧
      idle_state t = false ∧ is_terminated demo_client = false
  | (Err e, t) =>
      streams t = streams demo_client ∧ frame_tx t = frame_tx demo_client ∧
      (e = session_closed ∨ e = stream_limit ∧ 3 ≤ size (streams demo_client) ∧ t = demo_client ∨
       e = sid_exhausted ∧ next_stream_id demo_client = u32_max) ∧
      (∀ p st, heap t !! p = Some st → length (heap demo_client) ≤ p → st_closed st = true)
  end.
Proof.
  apply (open_stream_branches (H1 := good_writer)); [apply demo_client_inv|by vm_compute|by vm_compute].
Defined.

Lemma terminate_closes_all_witness :
  let t := terminate demo_client in
  heap t = (close_stream None <$> heap demo_client) ∧ streams t = ∅ ∧ idle_state t = true ∧ s_closed t = true ∧
  Forall (fun st => st_closed st = true) (heap t) ∧ terminate t = t ∧
  ∀ max, open_stream (H1 := good_writer) max t = (Err session_closed, t).
Proof. apply (terminate_closes_all (H1 := good_writer)), demo_client_inv. Defined.

Lemma stream_close_once_witness :
  let '(r, t) := stream_close (H1 := good_writer) 1 demo_client in
  r = Ok tt ∧ frame_tx t = frame_tx demo_client ++ [(Frame_new Fin (id (new_stream 2)), false)] ∧
  streams t = delete (id (new_stream 2)) (streams demo_client) ∧ (idle_state t = true ↔ streams t = ∅) ∧
  stream_close (H1 := good_writer) 1 t = (Ok tt, t) ∧
  (∀ d, stream_write (H1 := good_writer) 1 d t = (Err stream_closed, t)) ∧
  (∀ d, push_data 1 d t = (Err stream_closed, t)).
Proof.
  apply (stream_close_once (H1 := good_writer)); [apply demo_client_inv|by vm_compute..].
Defined.

Lemma early_syn_fails_session_witness :
  let alert := Frame_with_data Alert 0 settings_missing in
  let '(r, t) := handle_frame (H := map_order) (H0 := toy_md5) (H1 := good_writer) (Frame_with_data Syn 5 []) demo_server in
  r = Err (err_other settings_missing) ∧ frame_tx t = frame_tx demo_server ++ [(alert, true)] ∧
  heap t = heap demo_server ∧ streams t = streams demo_server.
Proof. apply (early_syn_fails_session (H1 := good_writer)); by vm_compute. Defined.

Lemma stream_id_reused_after_wrap_witness :
  let s := set_next u32_max demo_client in
  let '(r1, s1) := open_stream (H1 := good_writer) 4 s in
  let '(r2, s2) := open_stream (H1 := good_writer) 4 s1 in
  r1 = Err sid_exhausted ∧ r2 = Ok (length (heap s)) ∧
  streams s2 !! 1%Z = Some (length (heap s)) ∧ heap s2 !! 0 = heap s !! 0 ∧
  stream_is_closed s2 0 = stream_is_closed s 0.
Proof.
  apply (stream_id_reused_after_wrap (H1 := good_writer) 4 (set_next u32_max demo_client) 0);
    vm_compute; (reflexivity || lia).
Defined.

Lemma stale_idle_signal_witness :
  let s := (open_stream (H1 := good_writer) 4 (new_client_session demo_factory)).2 in
  let '(_, is_idle, s1) := remove_entry 1 s in
  let '(r, s2) := open_stream (H1 := good_writer) 4 s1 in
  let s3 := publish_idle is_idle s2 in
  is_ok r = true ∧ idle_state s3 = true ∧ is_stream_open s3 = true.
Proof.
  apply (stale_idle_signal (H1 := good_writer) 4
    (open_stream (H1 := good_writer) 4 (new_client_session demo_factory)).2 1 0); vm_compute; (done || lia).
Defined.
