(* ===== verification/Multiplex.v ===== *)
(** * Runs of a session

    The operations of [Session] interleaved by the tasks that share it: the
    receive loop (frame by frame), the openers, readers, writers and closers of
    streams, the end of the writer task and of the session.  Each stream's pipe
    sees a run of [Pipe]'s transition system; its payload is exactly the payload
    of the [Psh] frames addressed to it. *)

From S2P Require Import Prelude RustStr StringMap Frame Padding Engine Pipe Writer Session.
From Stdlib Require Import Strings.Byte.

(** The steps of [PipeReader::read]. *)
Definition reader_label (l : plabel) : bool :=
  match l with LCall _ | LTau | LRet _ _ | LDeadline | LCancel _ => true | _ => false end.

Inductive slabel : Type :=
  | SStart (r : result unit)
  | SOpen (max : nat) (r : result nat)
  | SFrame (f : Frame) (r : result unit)
  | SWrite (p : nat) (buf : bytes) (r : result nat)
  | SClose (p : nat) (r : result unit)
  | SAck (p : nat) (refusal : option bytes) (r : result unit)
  | SRead (p : nat) (l : plabel)
  | STerminate
  | SWriterEnds.

Section runs.
  Context `{IterOrder, Md5, WriterPeer}.

(** A server's answer to the [Syn] of the stream at [p]
    ([Stream::handshake_success] and [handshake_failure]). *)
Definition stream_ack (p : nat) (refusal : option bytes) : ioM Session unit := fun s =>
  let sid := default 0%Z (id <$> stream_at s p) in
  match refusal with
  | None => handshake_success sid s
  | Some message => handshake_failure sid message s
  end.

(** One step of one of the tasks.  Streams are opened under ids not in use (see
    [client_ids_fresh]). *)
Inductive sstep : Session → slabel → Session → Prop :=
  | ss_start s r s' : ensure_started s = (r, s') → sstep s (SStart r) s'
  | ss_open s max r s' :
      streams s !! next_sid s = None → open_stream max s = (r, s') → sstep s (SOpen max r) s'
  | ss_frame s f r s' : handle_frame f s = (r, s') → sstep s (SFrame f r) s'
  | ss_write s p buf r s' : stream_write p buf s = (r, s') → sstep s (SWrite p buf r) s'
  | ss_close s p r s' : stream_close p s = (r, s') → sstep s (SClose p r) s'
  | ss_ack s p refusal r s' : stream_ack p refusal s = (r, s') → sstep s (SAck p refusal r) s'
  | ss_read s p st l ps :
      heap s !! p = Some st → reader_label l = true → pstep (st_pipe st) l ps →
      sstep s (SRead p l) (update_stream p (fun st => mkStream (id st) ps (st_closed st)) s)
  | ss_terminate s : sstep s STerminate (terminate s)
  | ss_writer_ends s : sstep s SWriterEnds (close_tx s).

(** Runs, with the state in which each step was taken. *)
Inductive sruns (s0 : Session) : list (Session * slabel) → Session → Prop :=
  | sruns_nil : sruns s0 [] s0
  | sruns_snoc tr s l s' : sruns s0 tr s → sstep s l s' → sruns s0 (tr ++ [(s, l)]) s'.

(** ** What a step does to one stream's pipe *)

Definition pipe_at (s : Session) (p : nat) : PipeState := default pipe_init (st_pipe <$> heap s !! p).

Definition registered (s : Session) (p : nat) (i : Z) : bool := bool_decide (streams s !! i = Some p).

(** The error a peer's [SynAck] ends a stream with. *)
Definition remote_error (d : bytes) : io_error := err_other (str "remote: " ++ from_utf8_lossy d).

Definition frame_events (p : nat) (s : Session) (f : Frame) : list plabel :=
  if registered s p (sid f) then
    match cmd f with
    | Psh => if decide (data f = []) then []
             else [LWrite (data f) (Pipe.write (inner (pipe_at s p)) (data f)).1]
    | Fin => [LFinish None]
    | SynAck => if decide (data f = []) then [] else [LFinish (Some (remote_error (data f)))]
    | _ => []
    end
  else [].

Definition stream_events (p : nat) (s : Session) (l : slabel) : list plabel :=
  match l with
  | SFrame f _ => frame_events p s f
  | SClose q _ => if decide (q = p) then if stream_is_closed s p then [] else [LClose None] else []
  | SRead q l => if decide (q = p) then [l] else []
  | STerminate =>
      if s_closed s then [] else if stream_is_closed s p then [] else [LFinish None]
  | SOpen max (Err e) =>
      if decide (p = length (heap s) ∧ length (heap s) < length (heap (open_stream max s).2))
      then [LFinish (Some (err_other (err_msg e)))] else []
  | _ => []
  end.

(** The payload routed to a stream by a step. *)
Definition routed (p : nat) (x : Session * slabel) : bytes :=
  match x.2 with
  | SFrame f _ => if decide (cmd f = Psh) then if registered x.1 p (sid f) then data f else [] else []
  | _ => []
  end.

Definition stream_trace (p : nat) (tr : list (Session * slabel)) : list plabel :=
  concat ((fun x => stream_events p x.1 x.2) <$> tr).

(** ** Lemmas *)

Lemma reader_step_open ps l ps' :
  reader_label l = true → pstep ps l ps' → pipe_open ps → pipe_open ps'.
Proof.
  intros Hl Hs (C & Q & S & P). destruct Hs; try discriminate Hl; unfold pipe_open, pending in *; simpl in *.
  - done.
  - unfold read_check in *. rewrite C in *. simpl in *. repeat case_match; by simplify_eq/=.
  - unfold read_check in *. rewrite C in *. simpl in *. repeat case_match; by simplify_eq/=.
  - done.
  - done.
  - unfold read_take in *. repeat case_match; by simplify_eq/=.
  - unfold read_take in *. repeat case_match; by simplify_eq/=.
  - unfold recv in *. rewrite S in *. destruct (queue p) as [|e q] eqn:Eq; simplify_eq/=.
    by split_and!.
  - done.
  - destruct res as [[d|e]|]; simpl in *.
    + inversion P; subst. unfold read_finish in *. simplify_eq/=. case_match; by simplify_eq/=.
    + by inversion P.
    + unfold read_finish in *. repeat case_match; by simplify_eq/=.
  - split_and!; [done..|constructor].
  - split_and!; [done..|constructor].
  - by destruct_or!; subst.
Qed.

Lemma ensure_started_same s : same_streams s (ensure_started s).2.
Proof.
  unfold ensure_started. destruct (started s); [done|].
  unfold proto_session_start, on_session_start. simpl. destruct (is_client s) eqn:Hc; [|done].
  unfold apply_actions. cbn [io_iter apply_action]. unfold mbind, ioM_bind.
  match goal with |- context [write_frame ?f ?t] =>
    pose proof (write_frame_same f t) as Hs; destruct (write_frame f t) as [[?|?] ?] end; exact Hs.
Qed.

Lemma stream_write_same p buf s : same_streams s (stream_write p buf s).2.
Proof.
  unfold stream_write. case_match; [done|]. unfold mbind, ioM_bind.
  match goal with |- context [tx_send ?f s] =>
    pose proof (tx_send_same f s) as Hs; by destruct (tx_send f s) as [[?|?] ?] end.
Qed.

Lemma stream_ack_same p refusal s : same_streams s (stream_ack p refusal s).2.
Proof.
  unfold stream_ack, handshake_success, handshake_failure.
  destruct refusal; case_match; try done; apply tx_send_same.
Qed.

Lemma sess_inv_step s l s' : sstep s l s' → sess_inv s → sess_inv s'.
Proof.
  intros Hs Hi. destruct Hs as [s r s' E|s max r s' Hm E|s f r s' E|s p buf r s' E|s p r s' E|s p m r s' E|s p st l ps Hp Hl Hs|s|s].
  - replace s' with (ensure_started s).2 by by rewrite E.
    by eapply sess_inv_same; [apply ensure_started_same|].
  - replace s' with (open_stream max s).2 by by rewrite E. by apply open_stream_inv.
  - replace s' with (handle_frame f s).2 by by rewrite E. by apply handle_frame_inv.
  - replace s' with (stream_write p buf s).2 by by rewrite E.
    by eapply sess_inv_same; [apply stream_write_same|].
  - replace s' with (stream_close p s).2 by by rewrite E. by apply stream_close_inv.
  - replace s' with (stream_ack p m s).2 by by rewrite E.
    by eapply sess_inv_same; [apply stream_ack_same|].
  - unfold sess_inv. simpl. eapply inv_pipe; [done..|]. by apply reader_step_open with (l := l).
  - by apply terminate_inv.
  - by eapply sess_inv_same; [|exact Hi].
Qed.

(** *** The pipe of a stream, step by step *)

Lemma pipe_at_heap s t p : heap t = heap s → pipe_at t p = pipe_at s p.
Proof. unfold pipe_at. by intros ->. Qed.

Lemma pipe_at_alter s t p q f :
  heap t = alter f q (heap s) →
  pipe_at t p = if decide (p = q) then default pipe_init (st_pipe ∘ f <$> heap s !! q) else pipe_at s p.
Proof.
  intros Hh. unfold pipe_at. rewrite Hh. case_decide as Hpq.
  - subst q. rewrite list_lookup_alter_eq, <- option_fmap_compose. done.
  - by rewrite list_lookup_alter_ne.
Qed.

Lemma pipe_at_stream s p st : heap s !! p = Some st → pipe_at s p = st_pipe st.
Proof. unfold pipe_at. by intros ->. Qed.

Lemma pipe_at_new s t p i :
  heap t = heap s ++ [new_stream i] → pipe_at t p = pipe_at s p.
Proof.
  intros Hh. unfold pipe_at. rewrite Hh. destruct (decide (p < length (heap s))) as [Hlt|Hge].
  - by rewrite lookup_app_l.
  - rewrite lookup_app_r, (lookup_ge_None_2 (heap s) p) by lia.
    by destruct (p - length (heap s)) as [|[|k]].
Qed.

(** Closing the stream that an id points to marks the end on its pipe and on no
    other. *)
Lemma close_sid_steps p i e s :
  sess_inv s →
  psteps (pipe_at s p) (if registered s p i then [LFinish e] else [])
    (pipe_at (match remove_stream i s with
              | (Some q, s') => close_from_peer q e s' | (None, s') => s' end) p).
Proof.
  intros Hi. destruct (remove_stream i s) as [o s'] eqn:E.
  assert (o = streams s !! i ∧ heap s' = heap s) as [Ho Hh].
  { unfold remove_stream in E. simpl in E. injection E as <- <-. unfold publish_idle. by case_bool_decide. }
  unfold registered. destruct o as [q|]; [|].
  - destruct (inv_entry _ _ _ _ Hi i q) as (_ & st & Hq & _ & Hc); [done|].
    rewrite close_from_peer_eq.
    rewrite (pipe_at_alter s (set_heap _ s') p q (close_stream e)) by (simpl; by rewrite Hh).
    destruct (decide (p = q)) as [->|Hne].
    + rewrite bool_decide_eq_true_2 by done. rewrite Hq, (pipe_at_stream _ _ _ Hq). simpl.
      unfold close_stream. rewrite Hc. simpl. destruct (st_pipe st). apply psteps_one. constructor.
    + rewrite bool_decide_eq_false_2 by congruence. constructor.
  - rewrite bool_decide_eq_false_2 by congruence. rewrite (pipe_at_heap s s') by done. constructor.
Qed.

Lemma push_steps p i d s :
  sess_inv s →
  psteps (pipe_at s p)
    (if registered s p i then [LWrite d (Pipe.write (inner (pipe_at s p)) d).1] else [])
    (pipe_at (push_stream_data i d s).2 p).
Proof.
  intros Hi. unfold push_stream_data, registered. destruct (streams s !! i) as [q|] eqn:Hm.
  2:{ rewrite bool_decide_eq_false_2 by congruence. constructor. }
  destruct (inv_entry _ _ _ _ Hi i q Hm) as (_ & st & Hq & _ & Hc).
  unfold stream_is_closed at 1. unfold push_data, stream_at. rewrite Hq. simpl. rewrite Hc.
  destruct (Pipe.write (inner (st_pipe st)) d) as [r pi] eqn:Hw.
  assert (∀ x, (match r with
      | Ok _ => (Ok tt, update_stream q (map_pipe (fun _ => pi)) s)
      | Err e => if stream_is_closed (update_stream q (map_pipe (fun _ => pi)) s) q
                 then (Ok tt, update_stream q (map_pipe (fun _ => pi)) s)
                 else (Err e, update_stream q (map_pipe (fun _ => pi)) s) end).2 = x →
      x = update_stream q (map_pipe (fun _ => pi)) s) as Hres.
  { intros x <-. destruct r; [done|]. by case_match. }
  rewrite (Hres _ eq_refl). clear Hres.
  rewrite (pipe_at_alter s (update_stream _ _ s) p q (map_pipe (fun _ => pi))) by done.
  destruct (decide (p = q)) as [->|Hne].
  - rewrite bool_decide_eq_true_2, Hq, (pipe_at_stream _ _ _ Hq), Hw by done. simpl.
    destruct (st_pipe st). apply psteps_one. by constructor.
  - rewrite bool_decide_eq_false_2 by congruence. constructor.
Qed.

Lemma create_heap i s :
  heap (create_incoming_stream i s).2 = heap s ∨
  heap (create_incoming_stream i s).2 = heap s ++ [new_stream i].
Proof.
  unfold create_incoming_stream. case_match; [by left|]. case_match; [by left|]. simpl.
  case_match; by right.
Qed.

(** Actions that leave every stream alone. *)
Definition quiet_action (a : ProtocolAction) : bool :=
  match a with SendFrame _ | SendFrameSync _ | AlertAndFail _ | ReleaseWriteBuffering => true | _ => false end.

Lemma quiet_action_same a s : quiet_action a = true → same_streams s (apply_action a s).2.
Proof.
  destruct a; try done; intros _; simpl; unfold mbind, ioM_bind.
  - pose proof (write_frame_same f s) as Hs. by destruct (write_frame f s) as [[?|?] ?].
  - pose proof (write_frame_sync_same f s) as Hs. by destruct (write_frame_sync f s) as [[?|?] ?].
  - simpl. apply write_frame_sync_same.
Qed.

Lemma quiet_actions_same acts s :
  forallb quiet_action acts = true → same_streams s (apply_actions acts s).2.
Proof.
  revert s. unfold apply_actions. induction acts as [|a acts IH]; intros s; [done|]. simpl.
  intros [Ha Hacts]%andb_true_iff. pose proof (quiet_action_same a s Ha) as Hs.
  unfold mbind, ioM_bind. destruct (apply_action a s) as [[u|e] s1]; simpl in *; [|done].
  specialize (IH s1 Hacts). unfold same_streams in *. naive_solver congruence.
Qed.

Lemma on_settings_quiet st d : forallb quiet_action (on_settings st d).2 = true.
Proof.
  destruct (on_settings_cases st d) as (u & v & -> & -> & _). simpl.
  case_decide; by destruct v.
Qed.

(** A single action. *)
Lemma apply_one a s : (apply_actions [a] s).2 = (apply_action a s).2.
Proof.
  unfold apply_actions; simpl. unfold mbind, ioM_bind. by destruct (apply_action a s) as [[[]|e] s'].
Qed.

Lemma frame_steps p f s :
  sess_inv s → psteps (pipe_at s p) (frame_events p s f) (pipe_at (handle_frame f s).2 p).
Proof.
  intros Hi. unfold handle_frame.
  assert (∀ st acts, forallb quiet_action acts = true →
    psteps (pipe_at s p) [] (pipe_at (apply_actions acts (set_protocol_state st s)).2 p)) as Hquiet.
  { intros st acts Ha. pose proof (quiet_actions_same acts (set_protocol_state st s) Ha) as (Hh & _).
    rewrite (pipe_at_heap s _ p Hh). constructor. }
  unfold frame_events. destruct (decide (cmd f = Alert)) as [Ha|Ha].
  { rewrite Ha. destruct (registered _ _ _); constructor. }
  unfold on_frame. set (b := bool_decide (data f = [])).
  assert (∀ A (x y : A), (if decide (data f = []) then x else y) = if b then x else y) as Hb.
  { intros A x y. unfold b. by case_decide; case_bool_decide. }
  rewrite !Hb. clearbody b. clear Hb.
  destruct (cmd f) eqn:Hc; try done;
    try (destruct (registered _ _ _); repeat case_match; simplify_eq; by apply Hquiet).
  - (* Syn *)
    assert ((if registered s p (sid f) then @nil plabel else []) = []) as -> by by case_match.
    destruct (is_client s); [by apply Hquiet|].
    destruct (received_settings_from_client _); [|by apply Hquiet]. rewrite apply_one. simpl.
    unfold ensure_incoming_stream. case_match; [constructor|]. simpl.
    destruct (create_heap (sid f) (set_protocol_state (protocol_state s) s)) as [Hh|Hh].
    + rewrite (pipe_at_heap s _ p Hh). constructor.
    + rewrite (pipe_at_new s _ p (sid f) Hh). constructor.
  - (* Psh *)
    destruct b; [by destruct (registered _ _ _); apply Hquiet|]. rewrite apply_one.
    by apply (push_steps p (sid f) (data f) (set_protocol_state (protocol_state s) s)).
  - (* Fin *)
    rewrite apply_one. simpl. unfold close_logical_stream.
    pose proof (close_sid_steps p (sid f) None (set_protocol_state (protocol_state s) s) Hi) as Hs.
    by destruct (remove_stream _ _) as [[q|] s'].
  - (* Settings *)
    assert ((if registered s p (sid f) then @nil plabel else []) = []) as -> by by case_match.
    destruct (is_client s || b); [by apply Hquiet|].
    pose proof (on_settings_quiet (protocol_state s) (data f)) as Hq.
    destruct (on_settings _ _) as [st acts]. by apply Hquiet.
  - (* SynAck *)
    destruct b; [by destruct (registered _ _ _); apply Hquiet|]. rewrite apply_one.
    cbn [apply_action]. unfold terminate_session.
    pose proof (close_sid_steps p (sid f) (Some (remote_error (data f)))
                  (set_protocol_state (protocol_state s) s) Hi) as Hs.
    destruct (remove_stream _ _) as [[q|] s']; exact Hs.
Qed.

Lemma open_steps p max r s s' :
  open_stream max s = (r, s') →
  psteps (pipe_at s p) (stream_events p s (SOpen max r)) (pipe_at s' p).
Proof.
  intros E. simpl. rewrite E. cbn [snd].
  destruct (open_stream_cases max s) as [(e & t & E' & Ht)|(_ & _ & _ & _ & E')]; rewrite E in E'.
  { simplify_eq. assert (heap t = heap s) as Hh by (destruct Ht; by subst).
    rewrite decide_False by (rewrite Hh; lia). rewrite (pipe_at_heap s t p Hh). constructor. }
  pose proof (tx_send_same (Frame_new Syn (next_sid s), false) (opened s)) as (Hh & _).
  destruct (tx_send _ (opened s)) as [[u|e] t]; cbn [snd] in Hh; simplify_eq.
  { rewrite (pipe_at_new s t p (next_sid s) Hh). constructor. }
  assert (heap (remove_stream (next_sid s) t).2 = heap s ++ [new_stream (next_sid s)]) as Hh'.
  { simpl. unfold publish_idle. case_bool_decide; exact Hh. }
  set (t' := (remove_stream _ t).2) in *. clearbody t'.
  assert (length (heap (close_from_peer (length (heap s)) (Some (err_other (err_msg e))) t')) =
          S (length (heap s))) as Hl.
  { rewrite close_from_peer_eq. simpl. rewrite length_alter, Hh', length_app. simpl. lia. }
  rewrite Hl. rewrite close_from_peer_eq.
  rewrite (pipe_at_alter t' (set_heap _ t') p (length (heap s)) (close_stream (Some (err_other (err_msg e))))) by done.
  rewrite (pipe_at_new s t' p (next_sid s) Hh').
  destruct (decide (p = length (heap s))) as [->|Hne].
  - rewrite decide_True by (split; [done|lia]). rewrite Hh', lookup_app_r, Nat.sub_diag by lia. simpl.
    unfold pipe_at. rewrite lookup_ge_None_2 by lia. apply psteps_one. constructor.
  - rewrite decide_False by naive_solver. constructor.
Qed.

Lemma close_steps p q r s s' :
  stream_close q s = (r, s') →
  psteps (pipe_at s p) (stream_events p s (SClose q r)) (pipe_at s' p).
Proof.
  intros E. simpl. destruct (stream_is_closed s q) eqn:Hc.
  { rewrite stream_close_noop in E by done. simplify_eq.
    assert ((if decide (q = p) then if stream_is_closed s' p then [] else [LClose None] else []) = []) as ->;
      [|constructor]. case_decide; [subst; by rewrite Hc|done]. }
  assert (∃ st, heap s !! q = Some st ∧ st_closed st = false) as (st & Hq & Hst).
  { unfold stream_is_closed, stream_at in Hc. destruct (heap s !! q) as [st|]; [by exists st|done]. }
  rewrite (stream_close_eq q s st Hq Hst) in E.
  match type of E with tx_send ?a ?b = _ => pose proof (tx_send_same a b) as (Hh & _) end.
  rewrite E in Hh. cbn [snd heap set_heap] in Hh.
  rewrite (pipe_at_alter s s' p q _ Hh). destruct (decide (q = p)) as [->|Hne].
  - rewrite Hc, decide_True, Hq by done. simpl. rewrite (pipe_at_stream _ _ _ Hq).
    destruct (st_pipe st). apply psteps_one. constructor.
  - rewrite decide_False by done. constructor.
Qed.

Lemma terminate_steps p s :
  sess_inv s → psteps (pipe_at s p) (stream_events p s STerminate) (pipe_at (terminate s) p).
Proof.
  intros Hi. simpl. destruct (s_closed s) eqn:Hc; [unfold terminate; rewrite Hc; constructor|].
  rewrite terminate_eq by done. unfold stream_is_closed, stream_at, pipe_at; simpl.
  rewrite list_lookup_fmap. destruct (heap s !! p) as [st|]; simpl; [|constructor].
  unfold close_stream. destruct (st_closed st); [constructor|]. simpl.
  destruct (st_pipe st). apply psteps_one. constructor.
Qed.

(** Every step is a run of each stream's pipe. *)
Lemma step_pipe s l s' p :
  sess_inv s → sstep s l s' → psteps (pipe_at s p) (stream_events p s l) (pipe_at s' p).
Proof.
  intros Hi Hs. destruct Hs as [s r s' E|s max r s' Hm E|s f r s' E|s q buf r s' E|s q r s' E|s q m r s' E|s q st l ps Hp Hl Hs|s|s].
  - pose proof (ensure_started_same s) as (Hh & _). rewrite E in Hh. simpl.
    rewrite (pipe_at_heap s s' p Hh). constructor.
  - by apply open_steps.
  - replace s' with (handle_frame f s).2 by by rewrite E. by apply frame_steps.
  - pose proof (stream_write_same q buf s) as (Hh & _). rewrite E in Hh. simpl.
    rewrite (pipe_at_heap s s' p Hh). constructor.
  - by apply close_steps.
  - pose proof (stream_ack_same q m s) as (Hh & _). rewrite E in Hh. simpl.
    rewrite (pipe_at_heap s s' p Hh). constructor.
  - simpl. rewrite (pipe_at_alter s (update_stream q _ s) p q
      (fun st => mkStream (id st) ps (st_closed st))) by done. destruct (decide (q = p)) as [->|].
    + rewrite decide_True, Hp by done. simpl. rewrite (pipe_at_stream _ _ _ Hp). by apply psteps_one.
    + rewrite decide_False by done. constructor.
  - by apply terminate_steps.
  - simpl. constructor.
Qed.

Lemma stream_trace_snoc p tr x : stream_trace p (tr ++ [x]) = stream_trace p tr ++ stream_events p x.1 x.2.
Proof. unfold stream_trace. rewrite fmap_app. apply concat_snoc. Qed.

Lemma sruns_inv s0 tr s : sess_inv s0 → sruns s0 tr s → sess_inv s.
Proof. intros Hi Hr. induction Hr; [done|]. by eapply sess_inv_step. Qed.

Lemma sruns_pipe s0 tr s p :
  sess_inv s0 → heap s0 = [] → sruns s0 tr s → psteps pipe_init (stream_trace p tr) (pipe_at s p).
Proof.
  intros Hi Hh Hr. induction Hr as [|tr s l s' Hr IH Hs].
  - unfold pipe_at. rewrite Hh. constructor.
  - rewrite stream_trace_snoc. eapply psteps_trans; [exact IH|].
    apply step_pipe; [|done]. by eapply sruns_inv.
Qed.

(** *** Routing *)

Lemma reader_label_written l : reader_label l = true → label_written l = [].
Proof. by destruct l. Qed.

Lemma written_frame_events p f s :
  sess_inv s → rx_alive (inner (pipe_at s p)) = true →
  written (frame_events p s f) = if decide (cmd f = Psh) then if registered s p (sid f) then data f else [] else [].
Proof.
  intros Hi Hrx. unfold frame_events. destruct (registered s p (sid f)) eqn:Hreg.
  2:{ by case_decide. }
  destruct (cmd f); try rewrite decide_False by done; try done; try (by case_decide).
  rewrite (decide_True (P := Psh = Psh)) by done. case_decide as Hd; [by rewrite Hd|].
  apply bool_decide_eq_true in Hreg.
  destruct (inv_entry _ _ _ _ Hi _ _ Hreg) as (_ & st & Hp & _ & Hc).
  destruct (inv_open _ _ _ _ Hi _ _ Hp Hc) as [_ (C & Q & S & _)].
  rewrite (pipe_at_stream _ _ _ Hp) in *. unfold Pipe.write. rewrite C, Q, S, Hrx.
  unfold written; simpl. apply app_nil_r.
Qed.

Lemma written_step p s l s' :
  sess_inv s → rx_alive (inner (pipe_at s p)) = true → sstep s l s' →
  written (stream_events p s l) = routed p (s, l).
Proof.
  intros Hi Hrx Hs. destruct Hs as [|s max r s' Hm E| |s q buf r s' E|s q r s' E|s q m r s' E|s q st l ps Hp Hl Hs| |]; simpl.
  - done.
  - destruct r; [done|]. by case_decide.
  - rewrite written_frame_events by done. done.
  - done.
  - repeat case_match; done.
  - done.
  - case_decide; [|done]. unfold written; simpl. by rewrite reader_label_written.
  - repeat case_match; done.
  - done.
Qed.

Lemma quiet_trace_app tr1 tr2 :
  quiet_trace (tr1 ++ tr2) = true → quiet_trace tr1 = true ∧ quiet_trace tr2 = true.
Proof. unfold quiet_trace. rewrite forallb_app. apply andb_true_iff. Qed.

Lemma written_app tr1 tr2 : written (tr1 ++ tr2) = written tr1 ++ written tr2.
Proof. unfold written. by rewrite fmap_app, concat_app. Qed.

Lemma written_routed s0 tr s p :
  sess_inv s0 → heap s0 = [] → sruns s0 tr s → quiet_trace (stream_trace p tr) = true →
  written (stream_trace p tr) = concat (routed p <$> tr).
Proof.
  intros Hi Hh Hr. induction Hr as [|tr s l s' Hr IH Hs]; [done|].
  rewrite stream_trace_snoc. intros [Hq _]%quiet_trace_app.
  rewrite written_app, fmap_app, concat_app, IH by done. f_equal. simpl. rewrite app_nil_r.
  eapply written_step; [by eapply sruns_inv| |done].
  by apply (pipe_inv_reach _ _ Hq (sruns_pipe s0 tr s p Hi Hh Hr)).
Qed.

Lemma stream_fifo s0 tr s p :
  sess_inv s0 → heap s0 = [] → sruns s0 tr s → quiet_trace (stream_trace p tr) = true →
  delivered (stream_trace p tr) ++ buffer (inner (pipe_at s p)) ++ queue_data (pending (pipe_at s p)) =
    concat (routed p <$> tr).
Proof.
  intros Hi Hh Hr Hq. rewrite <- (written_routed _ _ _ _ Hi Hh Hr Hq).
  by apply (pipe_inv_reach _ _ Hq (sruns_pipe _ _ _ p Hi Hh Hr)).
Qed.

(** A frame leaves alone every stream of another id. *)
Lemma other_action p st a s :
  sess_inv s → heap s !! p = Some st → action_sid a ≠ Some (id st) →
  heap (apply_action a s).2 !! p = Some st.
Proof.
  intros Hi Hp Ha.
  assert (∀ i e, i ≠ id st → heap (match remove_stream i s with
            | (Some q, s') => close_from_peer q e s' | (None, s') => s' end) !! p = Some st) as Hclose.
  { intros i e Hne. destruct (remove_stream i s) as [o s'] eqn:E.
    assert (o = streams s !! i ∧ heap s' = heap s) as [Ho Hh].
    { unfold remove_stream in E. simpl in E. injection E as <- <-. unfold publish_idle. by case_bool_decide. }
    destruct o as [q|]; [|by rewrite Hh]. rewrite close_from_peer_eq. simpl. rewrite Hh.
    destruct (inv_entry _ _ _ _ Hi i q) as (_ & st' & Hq & Hid & _); [done|].
    rewrite list_lookup_alter_ne; [done|]. intros ->. simplify_eq. }
  destruct a as [f|f|i d|i|i|i m| |m]; simpl in Ha; try (match goal with |- context [apply_action ?b s] =>
         destruct (quiet_action_same b s eq_refl) as [-> _]; done end).
  - cbn [apply_action]. unfold push_stream_data. destruct (streams s !! i) as [q|] eqn:Hm; [|done].
    destruct (inv_entry _ _ _ _ Hi i q Hm) as (_ & st' & Hq & Hid & Hc).
    unfold stream_is_closed at 1. unfold push_data, stream_at. rewrite Hq. simpl. rewrite Hc.
    destruct (Pipe.write _ d) as [r pi]. destruct r; repeat case_match; simpl;
      (rewrite list_lookup_alter_ne; [done|]; intros ->; congruence).
  - cbn [apply_action]. unfold ensure_incoming_stream. case_match; [done|]. simpl.
    destruct (create_heap i s) as [-> | ->]; [done|]. apply lookup_app_l_Some. done.
  - cbn [apply_action]. unfold close_logical_stream. specialize (Hclose i None ltac:(congruence)).
    by destruct (remove_stream i s) as [[q|] s'].
  - cbn [apply_action]. unfold terminate_session.
    specialize (Hclose i ((fun m => err_other (str "remote: " ++ m)) <$> Some m) ltac:(congruence)).
    by destruct (remove_stream i s) as [[q|] s'].
Qed.

Lemma other_actions p st acts s :
  sess_inv s → heap s !! p = Some st → Forall (fun a => action_sid a ≠ Some (id st)) acts →
  heap (apply_actions acts s).2 !! p = Some st.
Proof.
  intros Hi Hp Ha. revert s Hi Hp. unfold apply_actions.
  induction Ha as [|a acts Ha Hacts IH]; intros s Hi Hp; [done|]. simpl. unfold mbind, ioM_bind.
  pose proof (other_action p st a s Hi Hp Ha). pose proof (apply_action_inv a s Hi).
  destruct (apply_action a s) as [[u|e] s']; [by apply IH|done].
Qed.

Lemma on_frame_other st c f i :
  i ≠ sid f → Forall (fun a => action_sid a ≠ Some i) (on_frame st c f).2.
Proof.
  intros Hi. apply Forall_forall. intros a Ha Hsid.
  assert (i ∈ omap action_sid (on_frame st c f).2) as Hin by (apply list_elem_of_omap; eauto).
  clear Ha Hsid. revert Hin. unfold on_frame.
  destruct (cmd f); try (repeat case_match; simpl; set_solver).
  destruct (_ || _); [simpl; set_solver|].
  destruct (on_settings_cases st (data f)) as (u & v & -> & -> & _). simpl.
  destruct (decide _), v; simpl; set_solver.
Qed.

(** *** The receive loop *)

Lemma frames_loop_drain fuel pending s :
  frames_loop fuel pending s =
    match io_iter handle_frame (drain_go fuel pending).1 s with
    | (Ok _, s') => (Ok (drain_go fuel pending).2, s')
    | (Err e, s') => (Err e, s')
    end.
Proof.
  revert pending s. induction fuel as [|n IH]; intros pending s; simpl; [done|].
  destruct (Frame.from_bytes pending) as [f|]; [|done].
  destruct (drain_go n _) as [fs r] eqn:E. simpl. unfold mbind, ioM_bind.
  destruct (handle_frame f s) as [[u|e] s1]; [|done]. rewrite IH, E. done.
Qed.

(** Nothing the receive loop does ends the session or changes its role. *)
Lemma apply_action_flags a s :
  s_closed (apply_action a s).2 = s_closed s ∧ is_client (apply_action a s).2 = is_client s ∧
  next_stream_id (apply_action a s).2 = next_stream_id s.
Proof.
  destruct (quiet_action a) eqn:Hq.
  { by destruct (quiet_action_same a s Hq) as (_ & _ & _ & -> & -> & ->). }
  assert (∀ i e, let t := match remove_stream i s with
            | (Some q, s') => close_from_peer q e s' | (None, s') => s' end in
            s_closed t = s_closed s ∧ is_client t = is_client s ∧ next_stream_id t = next_stream_id s) as Hclose.
  { intros i e. unfold remove_stream. simpl. destruct (streams s !! i);
      rewrite ?close_from_peer_eq; unfold publish_idle; by case_bool_decide. }
  destruct a as [f|f|i d|i|i|i m| |m]; try discriminate Hq; cbn [apply_action].
  - unfold push_stream_data. destruct (streams s !! i) as [q|]; [|done]. case_match; [done|].
    unfold push_data. destruct (stream_at s q) as [st|]; [|by repeat case_match].
    destruct (st_closed st); [by repeat case_match|]. destruct (Pipe.write _ d) as [[?|?] ?]; [done|].
    by case_match.
  - unfold ensure_incoming_stream. case_match; [done|]. simpl. unfold create_incoming_stream.
    case_match; [done|]. case_match; [done|]. simpl. by case_match.
  - unfold close_logical_stream. specialize (Hclose i None). by destruct (remove_stream i s) as [[q|] s'].
  - unfold terminate_session. specialize (Hclose i ((fun m => err_other (str "remote: " ++ m)) <$> Some m)).
    by destruct (remove_stream i s) as [[q|] s'].
Qed.

Lemma handle_frame_flags f s :
  s_closed (handle_frame f s).2 = s_closed s ∧ is_client (handle_frame f s).2 = is_client s ∧
  next_stream_id (handle_frame f s).2 = next_stream_id s.
Proof.
  unfold handle_frame. case_decide; [done|]. destruct (on_frame _ _ _) as [st acts].
  apply (io_iter_inv (fun t => s_closed t = s_closed s ∧ is_client t = is_client s ∧
                               next_stream_id t = next_stream_id s)); [|done].
  intros a t. destruct (apply_action_flags a t) as (-> & -> & ->). done.
Qed.

Lemma iter_handle_closed fs s : s_closed (io_iter handle_frame fs s).2 = s_closed s.
Proof.
  apply (io_iter_inv (fun t => s_closed t = s_closed s)); [|done].
  intros f t. by destruct (handle_frame_flags f t) as (-> & _).
Qed.

Lemma io_iter_app {S A} (f : A → ioM S unit) l k (s : S) :
  io_iter f (l ++ k) s = (io_iter f l ≫= fun _ => io_iter f k) s.
Proof.
  revert s. induction l as [|a l IH]; intros s; simpl; [done|]. unfold mbind, ioM_bind in *.
  destruct (f a s) as [[u|e] s']; [|done]. apply IH.
Qed.

(** The loop handles the frames of the byte stream, however it is cut. *)
Lemma recv_loop_frames chunks pending s :
  Forall (fun c => c ≠ []) chunks → s_closed s = false → Frame.from_bytes pending = None →
  recv_loop (Ok <$> chunks) pending s =
    match io_iter handle_frame (drain (pending ++ concat chunks)).1 s with
    | (Ok _, s') => (None, s')
    | (Err e, s') => (Some e, s')
    end.
Proof.
  intros Hne. revert pending s. induction Hne as [|c cs Hc Hne IH]; intros pending s Hcl Hp.
  { simpl. rewrite Hcl, app_nil_r, drain_stop by done. done. }
  cbn [fmap list_fmap recv_loop concat]. rewrite Hcl. destruct c as [|b c]; [done|].
  rewrite frames_loop_drain. fold (drain (pending ++ b :: c)).
  rewrite app_assoc, (drain_app (pending ++ b :: c)). cbn [fst].
  pose proof (drain_done (pending ++ b :: c)) as Hd.
  destruct (drain (pending ++ b :: c)) as [fs r] eqn:E. cbn [fst snd] in *.
  rewrite io_iter_app. unfold mbind, ioM_bind.
  pose proof (iter_handle_closed fs s) as Hcl'.
  destruct (io_iter handle_frame fs s) as [[u|e] s1]; cbn [snd] in *; [|done].
  apply IH; [by rewrite Hcl'|done].
Qed.

(** Filler frames change nothing. *)
Lemma handle_waste f s : cmd f = Waste → handle_frame f s = (Ok tt, s).
Proof.
  intros Hc. unfold handle_frame. rewrite decide_False by (by rewrite Hc).
  unfold on_frame. rewrite Hc. unfold apply_actions; simpl. by destruct s.
Qed.

Lemma iter_payload fs s : io_iter handle_frame fs s = io_iter handle_frame (payload fs) s.
Proof.
  revert s. induction fs as [|f fs IH]; intros s; [done|]. unfold payload in *.
  destruct (decide (cmd f = Waste)) as [Hc|Hc].
  - rewrite filter_cons_False by auto. rewrite <- IH. simpl. unfold mbind, ioM_bind.
    by rewrite handle_waste.
  - rewrite filter_cons_True by done. simpl. unfold mbind, ioM_bind.
    destruct (handle_frame f s) as [[u|e] s']; [apply IH|done].
Qed.

(** *** Stream ids of a client *)

Lemma ids_alter f p (h : list Stream) :
  (∀ st, id (f st) = id st) → id <$> alter f p h = id <$> h.
Proof.
  intros Hf. apply list_eq. intros q. rewrite !list_lookup_fmap.
  destruct (decide (q = p)) as [->|]; [|by rewrite list_lookup_alter_ne].
  rewrite list_lookup_alter_eq. destruct (h !! p); simpl; by rewrite ?Hf.
Qed.

Lemma close_stream_id e st : id (close_stream e st) = id st.
Proof. unfold close_stream. by destruct (st_closed st). Qed.

Lemma apply_action_ids a s :
  (∀ i, a ≠ EnsureIncomingStream i) → id <$> heap (apply_action a s).2 = id <$> heap s.
Proof.
  intros Ha. destruct (quiet_action a) eqn:Hq.
  { by destruct (quiet_action_same a s Hq) as (-> & _). }
  assert (∀ i e, id <$> heap (match remove_stream i s with
            | (Some q, s') => close_from_peer q e s' | (None, s') => s' end) = id <$> heap s) as Hclose.
  { intros i e. unfold remove_stream. simpl. destruct (streams s !! i); rewrite ?close_from_peer_eq;
      unfold publish_idle; case_bool_decide; simpl; rewrite ?(ids_alter (close_stream e)); auto using close_stream_id. }
  destruct a as [f|f|i d|i|i|i m| |m]; try discriminate Hq; cbn [apply_action].
  - unfold push_stream_data. destruct (streams s !! i) as [q|]; [|done]. case_match; [done|].
    unfold push_data. destruct (stream_at s q) as [st|]; [|by repeat case_match].
    destruct (st_closed st); [by repeat case_match|].
    destruct (Pipe.write _ d) as [[?|?] ?]; repeat case_match; simpl; by apply ids_alter.
  - by destruct (Ha i).
  - unfold close_logical_stream. specialize (Hclose i None). by destruct (remove_stream i s) as [[q|] s'].
  - unfold terminate_session. specialize (Hclose i ((fun m => err_other (str "remote: " ++ m)) <$> Some m)).
    by destruct (remove_stream i s) as [[q|] s'].
Qed.

Lemma client_frame_ids f s :
  is_client s = true → id <$> heap (handle_frame f s).2 = id <$> heap s.
Proof.
  intros Hc. unfold handle_frame. case_decide; [done|].
  destruct (on_frame (protocol_state s) (is_client s) f) as [st acts] eqn:E.
  assert (Forall (fun a => ∀ i, a ≠ EnsureIncomingStream i) acts) as Hacts.
  { apply Forall_forall. intros a Ha i ->. destruct (on_frame_incoming (protocol_state s) (is_client s) f i).
    - by rewrite E.
    - congruence. }
  clear E. unfold apply_actions. change (heap s) with (heap (set_protocol_state st s)).
  generalize (set_protocol_state st s). clear -Hacts. induction Hacts as [|a acts Ha Hacts IH]; intros s; [done|].
  simpl. unfold mbind, ioM_bind. pose proof (apply_action_ids a s Ha) as Hid.
  destruct (apply_action a s) as [[u|e] s']; [|done]. by rewrite IH.
Qed.

(** On a client, a step adds at most the stream of the next id. *)
Lemma client_step_ids s l s' :
  is_client s = true → sess_inv s → sstep s l s' →
  is_client s' = true ∧
  ((id <$> heap s' = id <$> heap s ∧ (next_stream_id s' = next_stream_id s ∨ next_stream_id s' = next_sid s)) ∨
   (id <$> heap s' = (id <$> heap s) ++ [next_sid s] ∧ next_stream_id s' = next_sid s ∧ next_sid s ≠ 0%Z)).
Proof.
  intros Hcl Hi Hs.
  destruct Hs as [s r s' E|s max r s' Hm E|s f r s' E|s q buf r s' E|s q r s' E|s q m r s' E|s q st l ps Hp Hl Hs|s|s].
  - pose proof (ensure_started_same s) as (Hh & _ & _ & _ & Hn & Hc). rewrite E in *. simpl in *.
    rewrite Hh, Hn, Hc. auto.
  - destruct (open_stream_cases max s) as [(e & t & E' & Ht)|(_ & _ & _ & Hne & E')]; rewrite E in E'.
    { simplify_eq. destruct Ht; subst; simpl; auto. }
    pose proof (tx_send_same (Frame_new Syn (next_sid s), false) (opened s)) as (Hh & _ & _ & _ & Hn & Hc).
    destruct (tx_send _ (opened s)) as [[u|e] t]; cbn [snd] in *; simplify_eq.
    + rewrite Hh, Hn, Hc. simpl. split; [done|]. right. by rewrite fmap_app.
    + rewrite close_from_peer_eq. simpl. unfold publish_idle. case_bool_decide; simpl;
        rewrite (ids_alter (close_stream _)), Hh, Hn, Hc by apply close_stream_id; simpl;
        (split; [done|]; right; by rewrite fmap_app).
  - replace s' with (handle_frame f s).2 by by rewrite E. rewrite client_frame_ids by done.
    destruct (handle_frame_flags f s) as (_ & -> & ->). auto.
  - pose proof (stream_write_same q buf s) as (Hh & _ & _ & _ & Hn & Hc). rewrite E in *. simpl in *.
    rewrite Hh, Hn, Hc. auto.
  - destruct (stream_is_closed s q) eqn:Hc.
    { rewrite stream_close_noop in E by done. simplify_eq. auto. }
    unfold stream_is_closed, stream_at in Hc. destruct (heap s !! q) as [st|] eqn:Hq; [|done]. simpl in Hc.
    rewrite (stream_close_eq q s st Hq Hc) in E.
    match type of E with tx_send ?a ?b = _ => pose proof (tx_send_same a b) as (Hh & _ & _ & _ & Hn & Hcc) end.
    rewrite E in *. cbn [snd] in *. rewrite Hh, Hn, Hcc. simpl. unfold publish_idle.
    rewrite ids_alter by done. case_bool_decide; simpl; auto.
  - pose proof (stream_ack_same q m s) as (Hh & _ & _ & _ & Hn & Hc). rewrite E in *. simpl in *.
    rewrite Hh, Hn, Hc. auto.
  - simpl. rewrite ids_alter by done. auto.
  - rewrite terminate_eq by done. simpl. rewrite <- list_fmap_compose.
    rewrite (list_fmap_ext (id ∘ close_stream None) id) by (intros; apply close_stream_id). auto.
  - simpl. auto.
Qed.

Definition ids_inv (s : Session) : Prop :=
  (0 ≤ next_stream_id s ≤ u32_max)%Z ∧ NoDup (id <$> heap s) ∧
  Forall (fun i => 1 ≤ i ≤ next_stream_id s)%Z (id <$> heap s).

Lemma client_ids s0 tr s :
  sess_inv s0 → is_client s0 = true → ids_inv s0 → sruns s0 tr s →
  Forall (fun x => next_stream_id x.1 < u32_max)%Z tr →
  is_client s = true ∧ ids_inv s.
Proof.
  intros Hi Hc Hid Hr. induction Hr as [|tr s l s' Hr IH Hs]; [done|].
  intros [Htr Hb]%Forall_app. rewrite Forall_singleton in Hb. simpl in Hb.
  destruct (IH Htr) as (Hc' & Hn & Hnd & Hall).
  assert (next_sid s = next_stream_id s + 1)%Z as Hsid
    by (unfold next_sid; apply wrap_small; unfold in_u; lia).
  assert (Forall (fun i => 1 ≤ i ≤ next_stream_id s + 1)%Z (id <$> heap s)) as Hall'.
  { eapply Forall_impl; [exact Hall|]. simpl. lia. }
  destruct (client_step_ids s l s' Hc') as (Hc2 & [(Hh & Hnext)|(Hh & Hnext & _)]);
    [by eapply sruns_inv|done|split; [done|]..]; unfold ids_inv; rewrite Hh.
  - destruct Hnext as [-> | ->]; rewrite ?Hsid; (split_and!; [lia..|done|done]).
  - rewrite Hnext, Hsid. split_and!; [lia..| |].
    + apply NoDup_app. split_and!; [done| |apply NoDup_singleton].
      intros i Hin ->%list_elem_of_singleton. rewrite Forall_forall in Hall. apply Hall in Hin. lia.
    + apply Forall_app. split; [done|]. apply Forall_singleton. lia.
Qed.

(** ** Properties *)


(** C2. Multiplexing is transparent: in any interleaving, what a stream's reader
    has been given, followed by what is still buffered and queued for it, is
    exactly the payload of the [Psh] frames that arrived under its id while it
    was registered, in order, provided nobody closed the stream locally or
    abandoned a read that held the pipe's receiver. *)
Theorem stream_payload_fifo c cb st tr s p :
  sruns (new_with_protocol c cb st) tr s → quiet_trace (stream_trace p tr) = true →
  delivered (stream_trace p tr) ++ buffer (inner (pipe_at s p)) ++ queue_data (pending (pipe_at s p)) =
    concat (routed p <$> tr).
Proof.
  intros Hr Hq. by apply (stream_fifo (new_with_protocol c cb st) tr s p (sess_inv_init c cb st) eq_refl).
Qed.

(** Streams are isolated: a frame never changes a stream object of another
    id, neither its pipe nor its closed flag. *)
Theorem frames_leave_other_streams c cb st tr s f p o :
  sruns (new_with_protocol c cb st) tr s → heap s !! p = Some o → id o ≠ sid f →
  heap (handle_frame f s).2 !! p = Some o.
Proof.
  intros Hr Hp Hne. pose proof (sruns_inv _ _ _ (sess_inv_init c cb st) Hr) as Hi.
  unfold handle_frame. case_decide; [done|].
  pose proof (on_frame_other (protocol_state s) (is_client s) f (id o) Hne) as Ho.
  destruct (on_frame _ _ _) as [st' acts]. by apply other_actions.
Qed.

(** Late or stray payload is ignored: a [Psh], [Fin] or [SynAck] for an id
    that has no stream succeeds and leaves the session as it was. *)
Theorem stray_frames_ignored c cb st tr s f :
  sruns (new_with_protocol c cb st) tr s →
  cmd f ∈ [Psh; Fin; SynAck] → streams s !! sid f = None →
  handle_frame f s = (Ok tt, s).
Proof.
  intros Hr Hf Hm. pose proof (sruns_inv _ _ _ (sess_inv_init c cb st) Hr) as Hi.
  assert (set_protocol_state (protocol_state s) s = s) as Hs by by destruct s.
  assert (∀ x : option io_error, remove_stream (sid f) s = (None, s)) as Hrem.
  { intros _. unfold remove_stream, remove_entry; simpl. rewrite delete_id, Hm by done.
    replace (set_streams (streams s) s) with s by by destruct s. f_equal.
    unfold publish_idle. case_bool_decide as E; [|done]. apply (inv_idle _ _ _ _ Hi) in E.
    destruct s; simpl in *. by subst. }
  unfold handle_frame. rewrite decide_False by (intros E; rewrite E in Hf; set_solver).
  unfold on_frame. destruct (cmd f); try (exfalso; set_solver); try case_bool_decide;
    unfold apply_actions; cbn [io_iter apply_action]; rewrite ?Hs; try done;
    unfold mbind, ioM_bind, push_stream_data, close_logical_stream, terminate_session;
    rewrite ?Hm, ?(Hrem None); done.
Qed.

(** Receiving does not depend on how the connection cuts the bytes: the
    loop handles exactly the frames of the byte stream in order, stops with the
    first error, and otherwise waits for more. *)
Theorem recv_loop_chunk_independent chunks s :
  Forall (fun c => c ≠ []) chunks → s_closed s = false →
  recv_loop (Ok <$> chunks) [] s =
    match io_iter handle_frame (drain (concat chunks)).1 s with
    | (Ok _, s') => (None, s')
    | (Err e, s') => (Some e, s')
    end.
Proof. intros Hne Hc. by apply (recv_loop_frames chunks [] s). Qed.

(** C22. The receive loop ends with an error whenever the connection does, and
    [run] then closes every stream; a read error is reported as it is. *)
Theorem run_ends_clean chunks e s :
  sess_inv s → s_closed s = false → Forall (fun c => c ≠ []) chunks →
  let '(r, t) := run ((Ok <$> chunks) ++ [e]) s in
  (e = Ok [] ∨ is_ok e = false) →
  ∃ err, r = Some err ∧ (is_ok (ensure_started s).1 = true →
    s_closed t = true ∧ streams t = ∅ ∧ Forall (fun o => st_closed o = true) (heap t)).
Proof.
  intros Hi Hc Hne. unfold run. pose proof (ensure_started_same s) as Hsame.
  pose proof (sess_inv_same _ _ Hsame Hi) as Hi'.
  destruct (ensure_started s) as [[u|e0] s1]; cbn [fst snd] in *; [|intros _; exists e0; by split].
  assert (s_closed s1 = false) as Hc1 by (destruct Hsame as (_&_&_&->&_); done).
  assert (∀ pend, e = Ok [] ∨ is_ok e = false →
    ∃ err t, recv_loop ((Ok <$> chunks) ++ [e]) pend s1 = (Some err, t) ∧ sess_inv t) as Hrecv.
  { clear -Hi' Hc1 Hne. revert s1 Hi' Hc1. induction Hne as [|c cs Hc Hne IH]; intros s Hi Hcl pend He; simpl; rewrite Hcl.
    - destruct e as [[|b l]|e]; [by eauto|by destruct He|by eauto].
    - destruct c as [|b c]; [done|]. rewrite frames_loop_drain.
      set (fs := (drain_go _ _).1). pose proof (io_iter_inv sess_inv handle_frame fs handle_frame_inv s Hi) as Hi'.
      pose proof (iter_handle_closed fs s) as Hcl'.
      destruct (io_iter handle_frame fs s) as [[u|e'] s']; cbn [snd] in *; [|by eauto].
      apply IH; [done|by rewrite Hcl'|done]. }
  destruct (recv_loop _ [] s1) as [r t] eqn:E. intros He.
  destruct (Hrecv [] He) as (err & t' & E' & Hit). rewrite E in E'. simplify_eq.
  exists err. split; [done|]. intros _. rewrite terminate_eq by done. split_and!; [done..|].
  simpl. apply Forall_fmap, Forall_forall. intros o _. apply close_stream_closed.
Qed.

(** A client never reuses a stream id before the counter is exhausted: all
    stream objects ever created have distinct ids between 1 and the counter, so
    the next id is free. *)
Theorem client_ids_fresh st tr s :
  sruns (new_with_protocol true false st) tr s →
  Forall (fun x => next_stream_id x.1 < u32_max)%Z tr →
  NoDup (id <$> heap s) ∧
  ((next_stream_id s < u32_max)%Z → streams s !! next_sid s = None).
Proof.
  intros Hr Hb. pose proof (sess_inv_init true false st) as Hi0.
  destruct (client_ids _ tr s Hi0 eq_refl) as (_ & Hn & Hnd & Hall); [|done..|].
  { split_and!; [done..|apply NoDup_nil_2|constructor]. }
  split; [done|]. intros Hlt. pose proof (sruns_inv _ _ _ Hi0 Hr) as Hi.
  destruct (streams s !! next_sid s) as [p|] eqn:Hm; [|done].
  destruct (inv_entry _ _ _ _ Hi _ _ Hm) as (_ & o & Hp & Hid & _).
  rewrite Forall_fmap, Forall_forall in Hall. apply list_elem_of_lookup_2, Hall in Hp. simpl in Hp.
  assert (next_sid s = next_stream_id s + 1)%Z by (unfold next_sid; apply wrap_small; unfold in_u; lia).
  lia.
Qed.
End runs.

Lemma wire_transparent (O : IterOrder) (M : Md5) (R : Rng) (T : Transport) (W : WriterPeer)
    is_client g q chunks s :
  never_fails → Forall (fun x => scheme_bounded x.1 ∧ sendable x.2.1) q →
  concat chunks = concat (sent (writer_task q (WState_new is_client g)).2) →
  Forall (fun c => c ≠ []) chunks → s_closed s = false →
  recv_loop (Ok <$> chunks) [] s =
    match io_iter handle_frame (queue_frames q) s with
    | (Ok _, s') => (None, s')
    | (Err e, s') => (Some e, s')
    end.
Proof.
  intros Hn Hq Hch Hne Hc. pose proof (writer_task_never q (WState_new is_client g) Hn) as Ha.
  destruct (writer_task q _) as [[acks alive] w] eqn:E. cbn [fst snd] in *. subst alive.
  apply writer_task_ok in E as (fs & E & Hfs & Hp & _);
    [|done..].
  rewrite (recv_loop_frames chunks [] s) by done. cbn [app]. rewrite Hch, E. cbn [sent WState_new concat app].
  rewrite <- (app_nil_r (concat _)), drain_encoded by (done || apply from_bytes_nil). cbn [fst].
  rewrite (iter_payload fs), Hp, <- (iter_payload (queue_frames q)). done.
Qed.

(** C6. From one session to the other: the frames a sender's writer task puts
    on the wire, padded under whatever schemes and cut by the network into
    whatever chunks, have on the receiving session exactly the effect of the
    queued frames themselves. *)
Theorem wire_is_transparent (O : IterOrder) (M : Md5) (R : Rng) (T : Transport) (W : WriterPeer)
    is_client g q chunks s :
  never_fails → Forall (fun x => scheme_bounded x.1 ∧ sendable x.2.1) q →
  concat chunks = concat (sent (writer_task q (WState_new is_client g)).2) →
  Forall (fun c => c ≠ []) chunks → s_closed s = false →
  recv_loop (Ok <$> chunks) [] s =
    match io_iter handle_frame (queue_frames q) s with
    | (Ok _, s') => (None, s')
    | (Err e, s') => (Some e, s')
    end.
Proof. apply wire_transparent. Qed.

(** *** Witnesses *)

(** The run of a session that only receives. *)
Fixpoint frame_run `{IterOrder, Md5, WriterPeer} (s : Session) (fs : list Frame) : list (Session * slabel) * Session :=
  match fs with
  | [] => ([], s)
  | f :: fs' =>
      let '(r, s') := handle_frame f s in
      let '(tr, t) := frame_run s' fs' in ((s, SFrame f r) :: tr, t)
  end.

Lemma sruns_trans `{IterOrder, Md5, WriterPeer} s0 tr1 s1 tr2 s2 :
  sruns s0 tr1 s1 → sruns s1 tr2 s2 → sruns s0 (tr1 ++ tr2) s2.
Proof.
  intros H1' H2'. induction H2' as [|tr s l s' H2' IH Hs]; [by rewrite app_nil_r|].
  rewrite app_assoc. by econstructor.
Qed.

Lemma frame_run_runs `{IterOrder, Md5, WriterPeer} s fs : sruns s (frame_run s fs).1 (frame_run s fs).2.
Proof.
  revert s. induction fs as [|f fs IH]; intros s; [constructor|]. simpl.
  destruct (handle_frame f s) as [r s'] eqn:E. specialize (IH s').
  destruct (frame_run s' fs) as [tr t]; simpl in *.
  apply (sruns_trans s [(s, SFrame f r)] s'); [|done].
  apply (sruns_snoc s [] s); [constructor|by constructor].
Qed.

Definition demo_frames : list Frame :=
  [Frame_with_data Settings 0 (str "v=2"); Frame_new Syn 5; Frame_new Syn 7;
   Frame_with_data Psh 5 (str "hello"); Frame_with_data Psh 7 (str "other"); Frame_new Fin 7].

Definition demo_run : list (Session * slabel) * Session :=
  frame_run (H := map_order) (H0 := toy_md5) (H1 := good_writer) demo_server demo_frames.

Lemma demo_runs : sruns (H := map_order) (H0 := toy_md5) (H1 := good_writer) demo_server demo_run.1 demo_run.2.
Proof. apply frame_run_runs. Qed.


Lemma stream_payload_fifo_witness :
  delivered (stream_trace (H1 := good_writer) 0 demo_run.1) ++ buffer (inner (pipe_at demo_run.2 0)) ++
    queue_data (pending (pipe_at demo_run.2 0)) = concat (routed 0 <$> demo_run.1).
Proof.
  eapply (stream_payload_fifo (H := map_order) (H0 := toy_md5) (H1 := good_writer));
    [apply demo_runs|vm_compute; reflexivity].
Defined.

Lemma frames_leave_other_streams_witness :
  ∃ o, heap demo_run.2 !! 0 = Some o ∧
    heap (handle_frame (H := map_order) (H0 := toy_md5) (H1 := good_writer) (Frame_new Fin 7) demo_run.2).2 !! 0 = Some o.
Proof.
  eexists. split; [vm_compute; reflexivity|].
  eapply (frames_leave_other_streams (H := map_order) (H0 := toy_md5) (H1 := good_writer));
    [apply demo_runs|vm_compute; reflexivity|by vm_compute].
Defined.

Lemma stray_frames_ignored_witness :
  handle_frame (H := map_order) (H0 := toy_md5) (H1 := good_writer) (Frame_with_data Psh 7 (str "late")) demo_run.2 =
    (Ok tt, demo_run.2).
Proof.
  eapply (stray_frames_ignored (H := map_order) (H0 := toy_md5) (H1 := good_writer)); [apply demo_runs|simpl; set_solver|by vm_compute].
Defined.

Definition demo_chunks : list bytes :=
  let l := concat (Frame.to_bytes <$> demo_frames) in [take 9 l; drop 9 l].

Lemma recv_loop_chunk_independent_witness :
  recv_loop (H := map_order) (H0 := toy_md5) (H1 := good_writer) (Ok <$> demo_chunks) [] demo_server =
    match io_iter (handle_frame (H := map_order) (H0 := toy_md5) (H1 := good_writer))
            (drain (concat demo_chunks)).1 demo_server with
    | (Ok _, s') => (None, s')
    | (Err e, s') => (Some e, s')
    end.
Proof. apply recv_loop_chunk_independent; [repeat constructor; by vm_compute|by vm_compute]. Defined.

Lemma run_ends_clean_witness :
  let '(r, t) := run (H := map_order) (H0 := toy_md5) (H1 := good_writer) ((Ok <$> demo_chunks) ++ [Ok []]) demo_server in
  ∃ err, r = Some err ∧ s_closed t = true ∧ streams t = ∅ ∧ Forall (fun o => st_closed o = true) (heap t).
Proof.
  pose proof (run_ends_clean (H := map_order) (H0 := toy_md5) (H1 := good_writer) demo_chunks (Ok []) demo_server
    (sess_inv_init _ _ _) eq_refl ltac:(repeat constructor; by vm_compute)) as Hr.
  destruct (run _ demo_server) as [r t]. destruct (Hr (or_introl eq_refl)) as (err & -> & Ht).
  exists err. split; [done|]. by apply Ht.
Defined.

Lemma client_ids_fresh_witness :
  let s := (open_stream (H1 := good_writer) 4 (new_client_session demo_factory)).2 in
  NoDup (id <$> heap s) ∧ streams s !! next_sid s = None.
Proof.
  destruct (client_ids_fresh (H := map_order) (H0 := toy_md5) (H1 := good_writer) (State_new demo_factory)
    [(new_client_session demo_factory, SOpen 4 (Ok 0))]
    (open_stream (H1 := good_writer) 4 (new_client_session demo_factory)).2) as [Hnd Hf].
  - apply (sruns_snoc _ [] (new_client_session demo_factory)); [constructor|].
    constructor; [by vm_compute|vm_compute; reflexivity].
  - repeat constructor.
  - split; [exact Hnd|]. apply Hf. by vm_compute.
Defined.

Lemma wire_is_transparent_witness :
  let wire := concat (sent (H0 := counter_rng) (writer_task (H0 := counter_rng) (H1 := good_transport) small_queue
                (WState_new (H0 := counter_rng) true 3%Z)).2) in
  recv_loop (H := map_order) (H0 := toy_md5) (H1 := good_writer) (Ok <$> [take 10 wire; drop 10 wire]) [] demo_server =
    match io_iter (handle_frame (H := map_order) (H0 := toy_md5) (H1 := good_writer))
            (queue_frames small_queue) demo_server with
    | (Ok _, s') => (None, s')
    | (Err e, s') => (Some e, s')
    end.
Proof.
  intros wire.
  apply (wire_is_transparent map_order toy_md5 counter_rng good_transport good_writer true 3%Z small_queue).
  - by split.
  - eapply Forall_impl; [apply small_queue_ok|]. naive_solver.
  - cbn [concat]. by rewrite app_nil_r, take_drop.
  - repeat constructor; by vm_compute.
  - done.
Defined.
