(* ===== verification/Connection.v ===== *)
(** * A connection: a client session and a server session

    The two sessions of a connection, joined by the frames their writer tasks
    accepted: each side takes its own steps ([Multiplex]) in any interleaving,
    and the frames of either side are handled by the other in the order they were
    accepted (what [Writer] and the receive loop make of the bytes in between is
    the subject of [wire_is_transparent]).  Here: what one side's users write to
    a stream is what the other side's users read from it. *)

From S2P Require Import Prelude RustStr StringMap Frame Padding Engine Pipe Writer Session Multiplex.
From Stdlib Require Import Strings.Byte.

(** ** Frames in the channel *)

Definition tx (s : Session) : list Frame := (frame_tx s).*1.

(** The frames users of a stream cause: the engine sends none of them. *)
Definition stream_cmd (f : Frame) : bool :=
  match cmd f with Syn | Psh | Fin | SynAck => true | _ => false end.

(** The payload of stream [i] among some frames. *)
Definition psh (i : Z) (fs : list Frame) : bytes :=
  concat (omap (fun f => if decide (cmd f = Psh ∧ sid f = i) then Some (data f) else None) fs).

Lemma psh_app i fs gs : psh i (fs ++ gs) = psh i fs ++ psh i gs.
Proof. unfold psh. by rewrite omap_app, concat_app. Qed.

Lemma psh_other i fs : Forall (fun f => stream_cmd f = false) fs → psh i fs = [].
Proof.
  induction 1 as [|f fs Hf _ IH]; [done|]. unfold psh in *. simpl. rewrite decide_False; [done|].
  intros [E _]. unfold stream_cmd in Hf. by rewrite E in Hf.
Qed.

Lemma psh_nil i fs : (∀ f, f ∈ fs → cmd f = Psh → sid f ≠ i) → psh i fs = [].
Proof.
  induction fs as [|f fs IH]; intros Hf; [done|]. unfold psh in *. simpl. rewrite decide_False.
  - apply IH. set_solver.
  - intros [Hc Hs]. by apply (Hf f); [set_solver|..].
Qed.

Lemma psh_one i f : psh i [f] = if decide (cmd f = Psh ∧ sid f = i) then data f else [].
Proof. unfold psh. simpl. case_decide; simpl; [by rewrite app_nil_r|done]. Qed.

Section frames.
  Context `{IterOrder, Md5, WriterPeer}.

(** ** What a step adds to the channel *)

Definition quiet_frames (new : list FrameWrite) : Prop := Forall (fun x => stream_cmd x.1 = false) new.

Lemma tx_send_tx fw s :
  frame_tx (tx_send fw s).2 = frame_tx s ++ (if is_ok (tx_send fw s).1 then [fw] else []).
Proof. unfold tx_send. case_match; simpl; [done|by rewrite app_nil_r]. Qed.

Lemma write_frame_tx f s :
  stream_cmd f = false → ∃ new, frame_tx (write_frame f s).2 = frame_tx s ++ new ∧ quiet_frames new.
Proof.
  intros Hf. unfold write_frame, mbind, ioM_bind. pose proof (tx_send_tx (f, false) s) as Ht.
  destruct (tx_send _ s) as [[u|e] t]; simpl in *; rewrite Ht; eexists; (split; [done|]); by repeat constructor.
Qed.

Lemma write_frame_sync_tx f s :
  stream_cmd f = false → ∃ new, frame_tx (write_frame_sync f s).2 = frame_tx s ++ new ∧ quiet_frames new.
Proof.
  intros Hf. unfold write_frame_sync. pose proof (tx_send_tx (f, true) s) as Ht.
  destruct (tx_send _ s) as [[u|e] t]; simpl in *; [case_match; simpl|];
    rewrite Ht; eexists; (split; [done|]); by repeat constructor.
Qed.

Lemma close_sid_tx i e s :
  frame_tx (match remove_stream i s with (Some p, t) => close_from_peer p e t | (None, t) => t end) = frame_tx s.
Proof.
  unfold remove_stream. simpl. destruct (streams s !! i); rewrite ?close_from_peer_eq;
    unfold publish_idle; by case_bool_decide.
Qed.

Lemma push_data_tx p d s : frame_tx (push_data p d s).2 = frame_tx s.
Proof.
  unfold push_data. destruct (stream_at s p) as [st|]; [|done]. destruct (st_closed st); [done|].
  by destruct (Pipe.write _ d).
Qed.

(** Actions send only what they name, and the engine names no stream frames. *)
Lemma apply_action_tx a s :
  (∀ f, action_frame a = Some f → stream_cmd f = false) →
  ∃ new, frame_tx (apply_action a s).2 = frame_tx s ++ new ∧ quiet_frames new.
Proof.
  assert (∃ new, frame_tx s = frame_tx s ++ new ∧ quiet_frames new) as Hsame
    by (exists []; rewrite app_nil_r; split; [done|constructor]).
  intros Ha. destruct a as [f|f|i d|i|i|i m| |m]; cbn [apply_action].
  - destruct (write_frame_tx f s) as (new & E & Hq); [by apply Ha|].
    unfold mbind, ioM_bind. destruct (write_frame f s) as [[?|?] ?]; eauto.
  - destruct (write_frame_sync_tx f s) as (new & E & Hq); [by apply Ha|].
    unfold mbind, ioM_bind. destruct (write_frame_sync f s) as [[?|?] ?]; eauto.
  - unfold push_stream_data. destruct (streams s !! i) as [p|]; [|done]. case_match; [done|].
    pose proof (push_data_tx p d s) as E. destruct (push_data p d s) as [[?|?] t]; simpl in E.
    + simpl; by rewrite E.
    + case_match; simpl; by rewrite E.
  - unfold ensure_incoming_stream, create_incoming_stream. case_match; [done|]. simpl.
    case_match; [done|]. case_match; [done|]. by case_match.
  - unfold close_logical_stream. pose proof (close_sid_tx i None s) as E.
    destruct (remove_stream i s) as [[p|] t]; simpl; by rewrite E.
  - unfold terminate_session. set (e := _ <$> Some m). pose proof (close_sid_tx i e s) as E.
    destruct (remove_stream i s) as [[p|] t]; simpl; by rewrite E.
  - done.
  - destruct (write_frame_sync_tx (Frame_with_data Alert 0 m) s) as (new & E & Hq); [done|].
    unfold mbind, ioM_bind, io_ignore. simpl. eauto.
Qed.

Lemma on_frame_sends st c f a g :
  a ∈ (on_frame st c f).2 → action_frame a = Some g → stream_cmd g = false.
Proof.
  unfold on_frame. destruct (cmd f); try (repeat case_match; simpl; set_solver).
  destruct (_ || _); [set_solver|]. unfold on_settings. repeat case_match; simpl; set_solver.
Qed.

Lemma io_iter_tx {A} (f : A → ioM Session unit) l s :
  (∀ a t, a ∈ l → ∃ new, frame_tx (f a t).2 = frame_tx t ++ new ∧ quiet_frames new) →
  ∃ new, frame_tx (io_iter f l s).2 = frame_tx s ++ new ∧ quiet_frames new.
Proof.
  revert s. induction l as [|a l IH]; intros s Hf.
  { exists []. rewrite app_nil_r. split; [done|constructor]. }
  simpl. unfold mbind, ioM_bind. destruct (Hf a s) as (n1 & E1 & Q1); [set_solver|].
  destruct (f a s) as [[u|e] t]; simpl in *; [|eauto].
  destruct (IH t) as (n2 & E2 & Q2); [set_solver|]. exists (n1 ++ n2).
  rewrite E2, E1, app_assoc. split; [done|]. by apply Forall_app.
Qed.

Lemma handle_frame_tx f s :
  ∃ new, frame_tx (handle_frame f s).2 = frame_tx s ++ new ∧ quiet_frames new.
Proof.
  unfold handle_frame. case_decide; [exists []; rewrite app_nil_r; split; [done|constructor]|].
  pose proof (on_frame_sends (protocol_state s) (is_client s) f) as Hs.
  destruct (on_frame _ _ _) as [st acts]. unfold apply_actions.
  apply (io_iter_tx apply_action acts (set_protocol_state st s)).
  intros a t Ha. apply apply_action_tx. intros g. by apply Hs.
Qed.

Lemma ensure_started_tx s :
  ∃ new, frame_tx (ensure_started s).2 = frame_tx s ++ new ∧ quiet_frames new.
Proof.
  assert (∃ new, frame_tx s = frame_tx s ++ new ∧ quiet_frames new) as Hsame
    by (exists []; rewrite app_nil_r; split; [done|constructor]).
  unfold ensure_started. destruct (started s); [done|]. unfold proto_session_start, apply_actions.
  destruct (io_iter_tx apply_action (on_session_start (protocol_state s) (is_client s) PROGRAM_VERSION_NAME)
    (set_started true s)) as (new & E & Q).
  { intros a t Ha. apply apply_action_tx. intros g Hg. unfold on_session_start in Ha.
    destruct (is_client s); [|set_solver]. apply list_elem_of_singleton in Ha as ->. by simplify_eq/=. }
  simpl in *. destruct (io_iter _ _ _) as [[u|e] t]; simpl in *; eauto.
Qed.

(** The frames a step adds, by its label. *)
Definition added (s : Session) (l : slabel) (new : list FrameWrite) : Prop :=
  match l with
  | SOpen _ (Ok _) => new = [(Frame_new Syn (next_sid s), false)]
  | SOpen _ (Err _) => new = []
  | SWrite p buf (Ok _) =>
      ∃ o, heap s !! p = Some o ∧ st_closed o = false ∧ new = [(Frame_with_data Psh (id o) buf, false)]
  | SWrite _ _ (Err _) => new = []
  | SClose p _ =>
      new = [] ∨ ∃ o, heap s !! p = Some o ∧ st_closed o = false ∧ new = [(Frame_new Fin (id o), false)]
  | SAck p refusal _ => new = [] ∨ ∃ i, new = [(Frame_with_data SynAck i (default [] refusal), false)]
  | _ => quiet_frames new
  end.

Lemma tx_step s l s' : sess_inv s → sstep s l s' → ∃ new, frame_tx s' = frame_tx s ++ new ∧ added s l new.
Proof.
  intros Hi Hs. assert (frame_tx s = frame_tx s ++ []) as Hnil by by rewrite app_nil_r.
  destruct Hs as [s r s' E|s max r s' Hm E|s f r s' E|s p buf r s' E|s p r s' E|s p m r s' E|s p st l ps Hp Hl Hs|s|s].
  - pose proof (ensure_started_tx s) as Ht. by rewrite E in Ht.
  - destruct (open_stream_cases max s) as [(e & t & E' & Ht)|(_ & _ & _ & _ & E')]; rewrite E in E'.
    { simplify_eq. exists []. split; [|done]. by destruct Ht; subst. }
    pose proof (tx_send_tx (Frame_new Syn (next_sid s), false) (opened s)) as Ht.
    destruct (tx_send _ (opened s)) as [[u|e] t]; cbn [fst snd is_ok] in *; simplify_eq.
    + eexists. by split; [exact Ht|].
    + exists []. split; [|done]. rewrite close_from_peer_eq. simpl. unfold publish_idle. by case_bool_decide.
  - pose proof (handle_frame_tx f s) as Ht. by rewrite E in Ht.
  - unfold stream_write, stream_is_closed, stream_at in E.
    destruct (heap s !! p) as [o|] eqn:Hp; simpl in E; [|simplify_eq; by exists []].
    destruct (st_closed o) eqn:Hc; [simplify_eq; by exists []|].
    unfold mbind, mret, ioM_bind, ioM_ret in E.
    pose proof (tx_send_tx (Frame_with_data Psh (id o) buf, false) s) as Ht.
    destruct (tx_send _ s) as [[u|e] t]; simpl in *; simplify_eq; eexists; (split; [exact Ht|]); simpl; eauto.
  - destruct (stream_is_closed s p) eqn:Hc.
    { rewrite stream_close_noop in E by done. simplify_eq. exists []. split; [done|by left]. }
    unfold stream_is_closed, stream_at in Hc. destruct (heap s !! p) as [o|] eqn:Hp; [|done]. simpl in Hc.
    rewrite (stream_close_eq p s o Hp Hc) in E.
    match type of E with tx_send ?a ?b = _ => pose proof (tx_send_tx a b) as Ht end. rewrite E in Ht. cbn [fst snd] in Ht.
    eexists. split; [rewrite Ht; unfold set_heap; simpl; unfold publish_idle; case_bool_decide; reflexivity|].
    simpl. destruct (is_ok r); eauto.
  - unfold stream_ack, handshake_success, handshake_failure in E. simpl.
    destruct m as [m|]; (case_match; [|simplify_eq; exists []; split; [done|by left]]);
      (match type of E with tx_send ?a ?b = _ => pose proof (tx_send_tx a b) as Ht end; rewrite E in Ht;
       eexists; split; [exact Ht|]; simpl; destruct (is_ok r); eauto).
  - exists []. split; [done|constructor].
  - exists []. rewrite terminate_eq by done. split; [done|constructor].
  - exists []. split; [done|constructor].
Qed.

(** ** What a step does to the stream objects *)

(** An object and the same object later: closing is final, and where [keep]
    holds it is not closed in between. *)
Definition later (keep : Prop) (o o' : Stream) : Prop :=
  id o' = id o ∧ (st_closed o = true → st_closed o' = true) ∧ (keep → st_closed o' = st_closed o).

Definition older (keep : Prop) (h h' : list Stream) : Prop :=
  ∀ q o, h !! q = Some o → ∃ o', h' !! q = Some o' ∧ later keep o o'.

Lemma older_refl keep h : older keep h h.
Proof. intros q o Hq. by exists o. Qed.

Lemma older_trans keep h1 h2 h3 : older keep h1 h2 → older keep h2 h3 → older keep h1 h3.
Proof.
  intros H12 H23 q o Hq. destruct (H12 _ _ Hq) as (o2 & Hq2 & I1 & C1 & K1).
  destruct (H23 _ _ Hq2) as (o3 & Hq3 & I2 & C2 & K2). exists o3. split; [done|].
  split_and!; [congruence|auto|]. intros Hk. by rewrite K2, K1.
Qed.

Lemma older_app keep h h' : older keep h (h ++ h').
Proof. intros q o Hq. exists o. split; [by apply lookup_app_l_Some|done]. Qed.

Lemma older_alter keep f p h :
  (∀ o, h !! p = Some o → later keep o (f o)) → older keep h (alter f p h).
Proof.
  intros Hf q o Hq. destruct (decide (q = p)) as [->|]; [|exists o; by rewrite list_lookup_alter_ne].
  exists (f o). rewrite list_lookup_alter_eq, Hq. split; [done|by apply Hf].
Qed.

Lemma close_stream_later e o : later False o (close_stream e o).
Proof. unfold later, close_stream. by destruct (st_closed o) eqn:E; rewrite ?E. Qed.

Definition closing (a : ProtocolAction) : bool :=
  match a with CloseLocalStream _ | CloseRemoteStream _ _ => true | _ => false end.

Lemma action_old a s : older (closing a = false) (heap s) (heap (apply_action a s).2).
Proof.
  destruct (quiet_action a) eqn:Hq.
  { destruct (quiet_action_same a s Hq) as (-> & _). apply older_refl. }
  assert (∀ i e, older False (heap s) (heap (match remove_stream i s with
            | (Some q, s') => close_from_peer q e s' | (None, s') => s' end))) as Hclose.
  { intros i e. unfold remove_stream. simpl. destruct (streams s !! i); rewrite ?close_from_peer_eq;
      unfold publish_idle; case_bool_decide; simpl; try apply older_refl; apply older_alter; intros; apply close_stream_later. }
  assert (∀ h, older False (heap s) h → older (true = false) (heap s) h) as Hweak.
  { intros h Hh q o Ho. destruct (Hh q o Ho) as (o' & ? & ? & ? & ?). exists o'. split; [done|]. by split_and!. }
  destruct a as [f|f|i d|i|i|i m| |m]; try discriminate Hq; cbn [apply_action].
  - unfold push_stream_data. destruct (streams s !! i) as [q|]; [|apply older_refl]. case_match; [apply older_refl|].
    unfold push_data. destruct (stream_at s q) as [st|]; [|repeat case_match; apply older_refl].
    destruct (st_closed st); [repeat case_match; apply older_refl|].
    destruct (Pipe.write _ d) as [[?|?] ?]; repeat case_match; apply older_alter; done.
  - unfold ensure_incoming_stream. case_match; [apply older_refl|]. simpl.
    destruct (create_heap i s) as [-> | ->]; [apply older_refl|apply older_app].
  - apply Hweak. unfold close_logical_stream. specialize (Hclose i None). by destruct (remove_stream i s) as [[q|] s'].
  - apply Hweak. unfold terminate_session.
    specialize (Hclose i ((fun m => err_other (str "remote: " ++ m)) <$> Some m)).
    by destruct (remove_stream i s) as [[q|] s'].
Qed.

Lemma older_weaken (k1 k2 : Prop) h h' : (k2 → k1) → older k1 h h' → older k2 h h'.
Proof. intros Hk Hh q o Hq. destruct (Hh q o Hq) as (o' & ? & ? & ? & ?). exists o'. split; [done|]. split_and!; auto. Qed.

Lemma actions_old acts s :
  older (Forall (fun a => closing a = false) acts) (heap s) (heap (apply_actions acts s).2).
Proof.
  revert s. unfold apply_actions. induction acts as [|a acts IH]; intros s; [apply older_refl|]. simpl.
  unfold mbind, ioM_bind. pose proof (action_old a s) as Ha.
  apply (older_weaken _ (Forall (fun a => closing a = false) (a :: acts))) in Ha; [|by intros [? _]%Forall_cons].
  destruct (apply_action a s) as [[u|e] t]; simpl in *; [|done].
  eapply older_trans; [exact Ha|]. eapply older_weaken; [|apply IH]. by intros [_ ?]%Forall_cons.
Qed.

(** The frames that end a stream. *)
Definition ends_stream (f : Frame) : Prop := cmd f = Fin ∨ (cmd f = SynAck ∧ data f ≠ []).

Lemma on_frame_closing st c f :
  ¬ ends_stream f → Forall (fun a => closing a = false) (on_frame st c f).2.
Proof.
  unfold ends_stream, on_frame. intros He.
  destruct (cmd f) eqn:Hc; try (repeat case_match; repeat constructor; done).
  - by destruct He; left.
  - destruct (_ || _); [constructor|]. unfold on_settings. repeat case_match; simpl; repeat constructor.
  - case_bool_decide; [constructor|]. destruct He; right. done.
Qed.

(** The steps that leave the stream [o] at [q] open. *)
Definition keeps (q : nat) (o : Stream) (l : slabel) : Prop :=
  match l with
  | STerminate => False
  | SClose p _ => p ≠ q
  | SFrame f _ => sid f = id o → ¬ ends_stream f
  | _ => True
  end.

Lemma step_old s l s' q o :
  sess_inv s → sstep s l s' → heap s !! q = Some o → ∃ o', heap s' !! q = Some o' ∧ later (keeps q o l) o o'.
Proof.
  intros Hi Hs Hq.
  destruct Hs as [s r s' E|s max r s' Hm E|s f r s' E|s p buf r s' E|s p r s' E|s p m r s' E|s p st l ps Hp Hl Hs|s|s].
  - pose proof (ensure_started_same s) as (Hh & _). rewrite E in Hh. simpl in Hh. rewrite Hh. by exists o.
  - destruct (open_stream_cases max s) as [(e & t & E' & Ht)|(_ & _ & _ & _ & E')]; rewrite E in E'.
    { simplify_eq. exists o. split; [|done]. by destruct Ht; subst. }
    pose proof (tx_send_same (Frame_new Syn (next_sid s), false) (opened s)) as (Hh & _).
    assert (heap (opened s) !! q = Some o) as Hq' by by apply lookup_app_l_Some.
    destruct (tx_send _ (opened s)) as [[u|e] t]; cbn [snd] in *; simplify_eq.
    + exists o. by rewrite Hh.
    + exists o. split; [|done]. rewrite close_from_peer_eq. simpl. unfold publish_idle.
      assert (length (heap s) ≠ q) by (apply lookup_lt_Some in Hq; lia).
      case_bool_decide; simpl; by rewrite Hh, list_lookup_alter_ne.
  - assert (older (¬ ends_stream f) (heap s) (heap s')) as Ho.
    { replace s' with (handle_frame f s).2 by by rewrite E. unfold handle_frame. case_decide; [apply older_refl|].
      pose proof (on_frame_closing (protocol_state s) (is_client s) f) as Hf.
      destruct (on_frame _ _ _) as [st acts]. eapply older_weaken; [exact Hf|]. apply (actions_old acts (set_protocol_state st s)). }
    destruct (Ho q o Hq) as (o' & Ho' & Hid & Hc & Hk). exists o'. split; [done|]. split_and!; [done..|].
    intros Hke. simpl in Hke. destruct (decide (sid f = id o)) as [Hsid|Hne]; [auto|].
    pose proof (on_frame_other (protocol_state s) (is_client s) f (id o) ltac:(done)) as Hother.
    unfold handle_frame in E. case_decide; [simplify_eq; congruence|].
    destruct (on_frame _ _ _) as [st acts] eqn:Eon.
    pose proof (other_actions q o acts (set_protocol_state st s) Hi Hq Hother) as Hsame.
    rewrite E in Hsame. cbn [snd] in Hsame. congruence.
  - pose proof (stream_write_same p buf s) as (Hh & _). rewrite E in Hh. simpl in Hh. rewrite Hh. by exists o.
  - destruct (stream_is_closed s p) eqn:Hc.
    { rewrite stream_close_noop in E by done. simplify_eq. by exists o. }
    unfold stream_is_closed, stream_at in Hc. destruct (heap s !! p) as [st|] eqn:Hp; [|done]. simpl in Hc.
    rewrite (stream_close_eq p s st Hp Hc) in E.
    match type of E with tx_send ?a ?b = _ => pose proof (tx_send_same a b) as (Hh & _) end.
    rewrite E in Hh. cbn [snd] in Hh. rewrite Hh. simpl. destruct (decide (p = q)) as [->|Hne].
    + rewrite list_lookup_alter_eq, Hq. eexists. split; [done|]. split_and!; done.
    + rewrite list_lookup_alter_ne by done. by exists o.
  - pose proof (stream_ack_same p m s) as (Hh & _). rewrite E in Hh. simpl in Hh. rewrite Hh. by exists o.
  - apply (older_alter True (fun st => mkStream (id st) ps (st_closed st)) p (heap s)) in Hq; [|done].
    destruct Hq as (o' & Ho' & ? & ? & ?). exists o'. split; [done|]. by split_and!; auto.
  - rewrite terminate_eq by done. simpl. rewrite list_lookup_fmap, Hq. eexists. split; [done|].
    destruct (close_stream_later None o) as (? & ? & _). by split_and!.
  - by exists o.
Qed.

(** The steps that create a stream object, and the object. *)
Definition created (s : Session) (l : slabel) (o : Stream) : Prop :=
  match l with
  | SOpen _ r => id o = next_sid s ∧ st_closed o = negb (is_ok r)
  | SFrame f _ => cmd f = Syn ∧ id o = sid f ∧ is_client s = false ∧ st_closed o = false
  | _ => False
  end.

Lemma frame_new f r s s' :
  handle_frame f s = (r, s') →
  length (heap s') = length (heap s) ∨
  (heap s' = heap s ++ [new_stream (sid f)] ∧ cmd f = Syn ∧ is_client s = false).
Proof.
  intros E. replace s' with (handle_frame f s).2 by by rewrite E. clear E. unfold handle_frame. case_decide; [by left|].
  destruct (decide (cmd f = Syn)) as [Hc|Hc].
  - unfold on_frame. rewrite Hc. destruct (is_client s) eqn:Hcl; [by left|].
    destruct (received_settings_from_client _); unfold apply_actions; cbn [io_iter apply_action]; unfold mbind, ioM_bind.
    + unfold ensure_incoming_stream. destruct (sid f =? 0)%Z; simpl; [by left|].
      match goal with |- context [create_incoming_stream ?i ?t] => destruct (create_heap i t) as [-> | ->] end; auto.
    + left. simpl. unfold io_ignore. simpl. by destruct (write_frame_sync_same (Frame_with_data Alert 0 settings_missing)
        (set_protocol_state (protocol_state s) s)) as (-> & _).
  - left. destruct (on_frame (protocol_state s) (is_client s) f) as [st acts] eqn:E.
    assert (Forall (fun a => ∀ i, a ≠ EnsureIncomingStream i) acts) as Hacts.
    { apply Forall_forall. intros a Ha i ->.
      destruct (on_frame_incoming (protocol_state s) (is_client s) f i); [by rewrite E|naive_solver]. }
    clear E. unfold apply_actions. change (heap s) with (heap (set_protocol_state st s)).
    generalize (set_protocol_state st s). clear -Hacts. induction Hacts as [|a acts Ha Hacts IH]; intros s; [done|].
    simpl. unfold mbind, ioM_bind. pose proof (f_equal length (apply_action_ids a s Ha)) as Hid.
    rewrite !length_fmap in Hid. destruct (apply_action a s) as [[u|e] s']; [|done]. by rewrite IH.
Qed.

Lemma step_new s l s' :
  sess_inv s → sstep s l s' →
  length (heap s') = length (heap s) ∨
  ∃ o, heap s' !! length (heap s) = Some o ∧ length (heap s') = S (length (heap s)) ∧ created s l o.
Proof.
  intros Hi Hs.
  destruct Hs as [s r s' E|s max r s' Hm E|s f r s' E|s p buf r s' E|s p r s' E|s p m r s' E|s p st l ps Hp Hl Hs|s|s].
  - left. pose proof (ensure_started_same s) as (Hh & _). rewrite E in Hh. simpl in Hh. by rewrite Hh.
  - destruct (open_stream_cases max s) as [(e & t & E' & Ht)|(_ & _ & _ & _ & E')]; rewrite E in E'.
    { left. simplify_eq. by destruct Ht; subst. }
    right. pose proof (tx_send_same (Frame_new Syn (next_sid s), false) (opened s)) as (Hh & _).
    assert (heap (opened s) = heap s ++ [new_stream (next_sid s)]) as Ho by done.
    destruct (tx_send _ (opened s)) as [[u|e] t]; cbn [snd] in *; simplify_eq.
    + exists (new_stream (next_sid s)). rewrite Hh, Ho, length_app, lookup_app_r, Nat.sub_diag by lia. simpl. split_and!; [done|lia|done..].
    + exists (close_stream (Some (err_other (err_msg e))) (new_stream (next_sid s))). rewrite close_from_peer_eq. simpl.
      unfold publish_idle. case_bool_decide; simpl; rewrite Hh, Ho, list_lookup_alter_eq, length_alter, length_app, lookup_app_r, Nat.sub_diag by lia;
        simpl; (split_and!; [done|lia|done..]).
  - destruct (frame_new f r s s' E) as [Hl|(Hh & Hc & Hcl)]; [by left|right].
    exists (new_stream (sid f)). rewrite Hh, length_app, lookup_app_r, Nat.sub_diag by lia. simpl. split_and!; [done|lia|done..].
  - left. pose proof (stream_write_same p buf s) as (Hh & _). rewrite E in Hh. simpl in Hh. by rewrite Hh.
  - left. destruct (stream_is_closed s p) eqn:Hc.
    { rewrite stream_close_noop in E by done. by simplify_eq. }
    unfold stream_is_closed, stream_at in Hc. destruct (heap s !! p) as [st|] eqn:Hp; [|done]. simpl in Hc.
    rewrite (stream_close_eq p s st Hp Hc) in E.
    match type of E with tx_send ?a ?b = _ => pose proof (tx_send_same a b) as (Hh & _) end.
    rewrite E in Hh. cbn [snd] in Hh. rewrite Hh. simpl. apply length_alter.
  - left. pose proof (stream_ack_same p m s) as (Hh & _). rewrite E in Hh. simpl in Hh. by rewrite Hh.
  - left. simpl. apply length_alter.
  - left. rewrite terminate_eq by done. simpl. apply length_fmap.
  - by left.
Qed.

(** What users of stream [i] wrote, as far as the writes succeeded. *)
Definition accepted (i : Z) (x : Session * slabel) : option bytes :=
  match x.2 with
  | SWrite p buf (Ok _) => if decide (id <$> stream_at x.1 p = Some i) then Some buf else None
  | _ => None
  end.
Definition written_by (i : Z) (tr : list (Session * slabel)) : bytes := concat (omap (accepted i) tr).

Lemma written_by_tx i s0 tr s : sess_inv s0 → frame_tx s0 = [] → sruns s0 tr s → psh i (tx s) = written_by i tr.
Proof.
  intros Hi Ht Hr. induction Hr as [|tr s l s' Hr IH Hs]; [unfold tx; by rewrite Ht|].
  destruct (tx_step s l s') as (new & E & Ha); [by eapply sruns_inv|done|].
  unfold tx. rewrite E, fmap_app, psh_app. fold (tx s). rewrite IH.
  unfold written_by. rewrite omap_app, concat_app. f_equal.
  assert (quiet_frames new → psh i new.*1 = []) as Hq by (intros Hq; apply psh_other; by apply Forall_fmap).
  destruct l as [r|max [r|]|f r|p buf [r|]|p r|p m r|p l| |]; simpl in Ha; unfold accepted; cbn [omap list_omap snd fst];
    try (by rewrite Hq); try (by subst new).
  - destruct Ha as (o & Ho & _ & ->). etransitivity; [apply (psh_one i (Frame_with_data Psh (id o) buf))|].
    unfold stream_at. rewrite Ho. cbn [fmap option_fmap option_map cmd sid data Frame_with_data].
    destruct (decide (id o = i)) as [<-|Hne].
    + rewrite !decide_True by done. simpl. by rewrite app_nil_r.
    + rewrite decide_False, decide_False by naive_solver. done.
  - destruct Ha as [->|(o & _ & _ & ->)]; done.
  - destruct Ha as [->|(j & ->)]; done.
Qed.
(** An object after a step is an old one or the one it created. *)
Lemma step_back s l s' q o' :
  sess_inv s → sstep s l s' → heap s' !! q = Some o' →
  (∃ o, heap s !! q = Some o ∧ later (keeps q o l) o o') ∨ (q = length (heap s) ∧ created s l o').
Proof.
  intros Hi Hs Hq. destruct (heap s !! q) as [o|] eqn:Ho.
  - left. exists o. split; [done|]. destruct (step_old s l s' q o Hi Hs Ho) as (o2 & Ho2 & Hl). by simplify_eq.
  - right. apply lookup_ge_None in Ho. pose proof (lookup_lt_Some _ _ _ Hq) as Hlt.
    destruct (step_new s l s' Hi Hs) as [Hlen|(o & Ho2 & Hlen & Hc)]; [lia|].
    assert (q = length (heap s)) as -> by lia. by simplify_eq.
Qed.

Lemma open_ok max p s s' : open_stream max s = (Ok p, s') → heap s' = heap s ++ [new_stream (next_sid s)].
Proof.
  intros E. destruct (open_stream_cases max s) as [(e & t & E' & _)|(_ & _ & _ & _ & E')]; rewrite E in E'; [done|].
  pose proof (tx_send_same (Frame_new Syn (next_sid s), false) (opened s)) as (Hh & _).
  destruct (tx_send _ (opened s)) as [[u|e] t]; cbn [snd] in *; by simplify_eq.
Qed.

Lemma close_closes p r s s' o :
  stream_close p s = (r, s') → heap s !! p = Some o → ∃ o', heap s' !! p = Some o' ∧ st_closed o' = true.
Proof.
  intros E Hp. destruct (st_closed o) eqn:Hc.
  { rewrite stream_close_noop in E by (unfold stream_is_closed, stream_at; by rewrite Hp). simplify_eq. by exists o. }
  rewrite (stream_close_eq p s o Hp Hc) in E.
  match type of E with tx_send ?a ?b = _ => pose proof (tx_send_same a b) as (Hh & _) end.
  rewrite E in Hh. cbn [snd] in Hh. rewrite Hh. simpl. rewrite list_lookup_alter_eq, Hp. by eexists.
Qed.

(** ** What a session has sent

    Every stream frame belongs to a stream object, objects have distinct ids, and
    no payload follows a [Fin]. *)
Record sender (s : Session) : Prop := mkSender {
  snd_inv : sess_inv s;
  snd_own : ∀ f, f ∈ tx s → cmd f = Syn ∨ cmd f = Psh ∨ cmd f = Fin → ∃ p o, heap s !! p = Some o ∧ id o = sid f;
  snd_ids : ∀ p q o o', heap s !! p = Some o → heap s !! q = Some o' → id o = id o' → p = q;
  snd_fin : ∀ f p o, f ∈ tx s → cmd f = Fin → heap s !! p = Some o → id o = sid f → st_closed o = true;
  snd_ord : ∀ k f g, tx s !! k = Some f → cmd f = Psh → g ∈ take k (tx s) → cmd g = Fin → sid g ≠ sid f;
}.

(** A step creates objects under fresh ids only. *)
Definition fresh (s : Session) (l : slabel) : Prop :=
  ∀ o p o1, created s l o → heap s !! p = Some o1 → id o1 ≠ id o.

(** The one stream frame a step adds, if any. *)
Lemma added_cases s l new f :
  added s l new → f ∈ new.*1 → stream_cmd f = true →
  new.*1 = [f] ∧
  ((∃ max p, l = SOpen max (Ok p) ∧ f = Frame_new Syn (next_sid s)) ∨
   (∃ p buf n o, l = SWrite p buf (Ok n) ∧ heap s !! p = Some o ∧ st_closed o = false ∧ f = Frame_with_data Psh (id o) buf) ∨
   (∃ p r o, l = SClose p r ∧ heap s !! p = Some o ∧ st_closed o = false ∧ f = Frame_new Fin (id o)) ∨
   (∃ p m r i, l = SAck p m r ∧ f = Frame_with_data SynAck i (default [] m))).
Proof.
  assert (quiet_frames new → f ∈ new.*1 → stream_cmd f = true → False) as Hq.
  { intros Hq (x & -> & Hx)%list_elem_of_fmap Hf. unfold quiet_frames in Hq. rewrite Forall_forall in Hq.
    apply Hq in Hx. congruence. }
  intros Ha Hin Hf.
  destruct l as [r|max [r|]|g r|p buf [r|]|p r|p m r|p l| |]; simpl in Ha; try (exfalso; by eauto);
    try (subst new; by apply not_elem_of_nil in Hin).
  - subst new. apply list_elem_of_singleton in Hin as ->. split; [done|]. left. eauto.
  - destruct Ha as (o & Hp & Hc & ->). apply list_elem_of_singleton in Hin as ->. split; [done|]. right; left. eauto 10.
  - destruct Ha as [->|(o & Hp & Hc & ->)]; [by apply not_elem_of_nil in Hin|].
    apply list_elem_of_singleton in Hin as ->. split; [done|]. right; right; left. eauto 10.
  - destruct Ha as [->|(i & ->)]; [by apply not_elem_of_nil in Hin|].
    apply list_elem_of_singleton in Hin as ->. split; [done|]. right; right; right. eauto 10.
Qed.

Lemma stream_cmd_data f : cmd f = Syn ∨ cmd f = Psh ∨ cmd f = Fin → stream_cmd f = true.
Proof. unfold stream_cmd. by intros [-> | [-> | ->]]. Qed.

Lemma sender_step s l s' : sender s → sstep s l s' → fresh s l → sender s'.
Proof.
  intros [Hi Hown Hids Hfin Hord] Hs Hfr.
  destruct (tx_step s l s' Hi Hs) as (new & Etx & Hadd).
  assert (tx s' = tx s ++ new.*1) as Ht by (unfold tx; by rewrite Etx, fmap_app).
  assert (∀ p o, heap s !! p = Some o → ∃ p' o', heap s' !! p' = Some o' ∧ id o' = id o) as Hkeep.
  { intros p o Hp. destruct (step_old s l s' p o Hi Hs Hp) as (o' & Ho' & Hid & _). eauto. }
  split.
  - by eapply sess_inv_step.
  - intros f Hin Hcmd. rewrite Ht, elem_of_app in Hin. destruct Hin as [Hin|Hin].
    { destruct (Hown f Hin Hcmd) as (p & o & Hp & Hid). rewrite <- Hid. eauto. }
    destruct (added_cases _ _ _ f Hadd Hin (stream_cmd_data f Hcmd)) as (_ & [(max & p & -> & ->)|[(p & buf & n & o & -> & Hp & _ & ->)|[(p & r & o & -> & Hp & _ & ->)|(p & m & r & i & -> & ->)]]]);
      [|simpl; eauto..|naive_solver].
    inversion Hs; subst. erewrite open_ok by done. exists (length (heap s)), (new_stream (next_sid s)).
    by rewrite lookup_app_r, Nat.sub_diag by lia.
  - intros p q o o' Hp Hq Hid.
    destruct (step_back s l s' p o Hi Hs Hp) as [(o1 & H1' & I1 & _)|[-> Hc1]],
      (step_back s l s' q o' Hi Hs Hq) as [(o2 & H2' & I2 & _)|[-> Hc2]].
    + eapply Hids; [done..|congruence].
    + by destruct (Hfr o' p o1 Hc2 H1'); congruence.
    + by destruct (Hfr o q o2 Hc1 H2'); congruence.
    + done.
  - intros f p o' Hin Hcmd Hp Hid. rewrite Ht, elem_of_app in Hin. destruct Hin as [Hin|Hin].
    + destruct (step_back s l s' p o' Hi Hs Hp) as [(o & Ho & I & C & _)|[_ Hc]].
      * apply C. eapply Hfin; [done..|congruence].
      * destruct (Hown f Hin) as (q & o1 & Hq & Hid1); [auto|]. by destruct (Hfr o' q o1 Hc Hq); congruence.
    + destruct (added_cases _ _ _ f Hadd Hin) as (_ & Hcases); [apply stream_cmd_data; auto|].
      destruct Hcases as [(max & q & -> & ->)|[(q & buf & n & o & -> & Hq & _ & ->)|[(q & r & o & -> & Hq & _ & ->)|(q & m & r & i & -> & ->)]]]; try done.
      destruct (step_back s _ s' p o' Hi Hs Hp) as [(o1 & Ho & I & _)|[_ []]].
      assert (p = q) as -> by (eapply Hids; [done..|simpl in *; congruence]).
      inversion Hs; subst. match goal with E : stream_close _ _ = _ |- _ => destruct (close_closes _ _ _ _ _ E Hq) as (o2 & Ho2 & ?) end.
      by simplify_eq.
  - intros k f g Hk Hf Hg Hgc Hsid. rewrite Ht in Hk, Hg. apply lookup_app_Some in Hk as [Hk|[Hge Hk]].
    + pose proof (lookup_lt_Some _ _ _ Hk). rewrite take_app_le in Hg by lia. by eapply Hord.
    + pose proof (list_elem_of_lookup_2 _ _ _ Hk) as Hin.
      destruct (added_cases _ _ _ f Hadd Hin) as (Hone & Hcases); [apply stream_cmd_data; auto|].
      destruct Hcases as [(max & q & -> & ->)|[(q & buf & n & o & -> & Hq & Hopen & ->)|[(q & r & o & -> & Hq & _ & ->)|(q & m & r & i & -> & ->)]]]; try done.
      rewrite Hone in Hk, Hg. apply list_lookup_singleton_Some in Hk as [Hz _].
      assert (k = length (tx s)) as -> by lia. rewrite take_app_length in Hg.
      assert (st_closed o = true) by (by eapply (Hfin g)). congruence.
Qed.
(** ** What a client has sent

    Each stream is announced once, before its payload. *)
Record announced (s : Session) : Prop := mkAnnounced {
  an_before : ∀ k f, tx s !! k = Some f → cmd f = Psh → ∃ g, g ∈ take k (tx s) ∧ cmd g = Syn ∧ sid g = sid f;
  an_once : ∀ j k f g, tx s !! j = Some f → tx s !! k = Some g → cmd f = Syn → cmd g = Syn → sid f = sid g → j = k;
  an_open : ∀ p o, heap s !! p = Some o → st_closed o = false → ∃ g, g ∈ tx s ∧ cmd g = Syn ∧ sid g = id o;
}.

Lemma next_sid_succ s : ids_inv s → (next_stream_id s < u32_max)%Z → next_sid s = (next_stream_id s + 1)%Z.
Proof. intros [Hn _] Hb. unfold next_sid. apply wrap_small. unfold in_u. lia. Qed.

Lemma ids_bound s p o : ids_inv s → heap s !! p = Some o → (1 ≤ id o ≤ next_stream_id s)%Z.
Proof.
  intros (_ & _ & Hall) Hp. rewrite Forall_fmap, Forall_forall in Hall.
  by apply list_elem_of_lookup_2, Hall in Hp.
Qed.

Lemma client_fresh s l :
  is_client s = true → ids_inv s → (next_stream_id s < u32_max)%Z → fresh s l.
Proof.
  intros Hc Hids Hb o p o1 Hcr Hp. pose proof (ids_bound s p o1 Hids Hp). pose proof (next_sid_succ s Hids Hb).
  destruct l; simpl in Hcr; try done; [|naive_solver congruence]. destruct Hcr as [-> _]. lia.
Qed.

Lemma announced_step s l s' :
  sender s → is_client s = true → ids_inv s → (next_stream_id s < u32_max)%Z → announced s →
  sstep s l s' → announced s'.
Proof.
  intros Hsnd Hcl Hids Hb [Hbef Honce Hopen] Hs. pose proof (snd_inv _ Hsnd) as Hi.
  destruct (tx_step s l s' Hi Hs) as (new & Etx & Hadd).
  assert (tx s' = tx s ++ new.*1) as Ht by (unfold tx; by rewrite Etx, fmap_app).
  pose proof (next_sid_succ s Hids Hb) as Hnext.
  assert (∀ f, f ∈ tx s → cmd f = Syn → sid f ≠ next_sid s) as Hold.
  { intros f Hin Hf E. destruct (snd_own _ Hsnd f Hin) as (p & o & Hp & Hid); [auto|].
    pose proof (ids_bound s p o Hids Hp). lia. }
  assert (∀ k f, new.*1 !! k = Some f → cmd f = Syn → k = 0 ∧ sid f = next_sid s) as Hsyn.
  { intros k f Hk Hf. destruct (added_cases _ _ _ f Hadd) as (Hone & Hcases);
      [by eapply list_elem_of_lookup_2|apply stream_cmd_data; auto|].
    rewrite Hone in Hk. apply list_lookup_singleton_Some in Hk as [-> _]. naive_solver. }
  split.
  - intros k f Hk Hf. rewrite Ht in Hk |- *. apply lookup_app_Some in Hk as [Hk|[Hge Hk]].
    + destruct (Hbef k f Hk Hf) as (g & Hg & ?). exists g. split; [|done].
      rewrite take_app_le by (apply lookup_lt_Some in Hk; lia). done.
    + pose proof (list_elem_of_lookup_2 _ _ _ Hk) as Hin.
      destruct (added_cases _ _ _ f Hadd Hin) as (_ & Hcases); [apply stream_cmd_data; auto|].
      destruct Hcases as [(max & q & -> & ->)|[(q & buf & n & o & -> & Hq & Ho & ->)|[(q & r & o & -> & Hq & _ & ->)|(q & m & r & i & -> & ->)]]]; try done.
      destruct (Hopen q o Hq Ho) as (g & Hg & ?). exists g. split; [|done].
      rewrite take_app_ge by done. apply elem_of_app. by left.
  - intros j k f g Hj Hk Hf Hg Hsid. rewrite Ht in Hj, Hk.
    apply lookup_app_Some in Hj as [Hj|[Hgej Hj]], Hk as [Hk|[Hgek Hk]].
    + by eapply Honce.
    + destruct (Hsyn _ _ Hk Hg) as [_ E]. destruct (Hold f); [by eapply list_elem_of_lookup_2|done|congruence].
    + destruct (Hsyn _ _ Hj Hf) as [_ E]. destruct (Hold g); [by eapply list_elem_of_lookup_2|done|congruence].
    + destruct (Hsyn _ _ Hj Hf), (Hsyn _ _ Hk Hg). lia.
  - intros p o' Hp Hc. rewrite Ht. setoid_rewrite elem_of_app.
    destruct (step_back s l s' p o' Hi Hs Hp) as [(o & Ho & Hid & Hcl' & _)|[_ Hcr]].
    + destruct (Hopen p o Ho) as (g & Hg & Hgc & Hgs).
      { destruct (st_closed o); [|done]. by rewrite Hcl' in Hc. }
      exists g. split_and!; [by left|done|congruence].
    + destruct l as [r|max r|f r|q buf r|q r|q m r|q l| |]; simpl in Hcr; try done; [|naive_solver congruence].
      destruct Hcr as [Hid Hr]. destruct r as [r|]; [|simpl in Hr; congruence]. simpl in Hadd. subst new.
      exists (Frame_new Syn (next_sid s)). split_and!; [right; by apply list_elem_of_singleton|done|done].
Qed.

(** Answers to a [Syn] that refuse nothing. *)
Definition no_refusal (l : slabel) : Prop := match l with SAck _ (Some _) _ => False | _ => True end.
#[global] Instance no_refusal_dec l : Decision (no_refusal l).
Proof. destruct l as [| | | | |p [m|] r| | |]; simpl; apply _. Defined.

Definition acks_empty (s : Session) : Prop := ∀ f, f ∈ tx s → cmd f = SynAck → data f = [].

Lemma acks_empty_step s l s' : sess_inv s → sstep s l s' → no_refusal l → acks_empty s → acks_empty s'.
Proof.
  intros Hi Hs Hl Ha f Hin Hf. destruct (tx_step s l s' Hi Hs) as (new & Etx & Hadd).
  unfold tx in Hin. rewrite Etx, fmap_app, elem_of_app in Hin. destruct Hin as [Hin|Hin]; [by apply Ha|].
  destruct (added_cases _ _ _ f Hadd Hin) as (_ & Hcases); [unfold stream_cmd; by rewrite Hf|].
  destruct Hcases as [(max & q & -> & ->)|[(q & buf & n & o & -> & Hq & Ho & ->)|[(q & r & o & -> & Hq & _ & ->)|(q & m & r & i & -> & ->)]]]; try done.
  by destruct m.
Qed.
End frames.

(** ** What a stream has received *)

Definition got (l : slabel) : list Frame := match l with SFrame f _ => [f] | _ => [] end.

Definition routed_all (q : nat) (tr : list (Session * slabel)) : bytes := concat (routed q <$> tr).

Lemma routed_all_snoc q tr x : routed_all q (tr ++ [x]) = routed_all q tr ++ routed q x.
Proof. unfold routed_all. rewrite fmap_app, concat_app. simpl. by rewrite app_nil_r. Qed.

(** Nobody on this side ended the stream at [q] while it was open, and the peer
    did not refuse it. *)
Definition calm (q : nat) (x : Session * slabel) : Prop :=
  match x.2 with
  | STerminate => stream_is_closed x.1 q = true
  | SClose p _ => p = q → stream_is_closed x.1 q = true
  | SFrame f _ => cmd f = SynAck → data f = []
  | _ => True
  end.

(** The stream [o] at [q] against the frames [rcv] its session has handled: what
    was routed to it is the beginning of its payload, all of it while it is open;
    and if nobody interfered it is all of it also afterwards, closed by a [Fin].
    [live] excludes streams whose announcement failed. *)
Definition received (live : Prop) (q : nat) (o : Stream) (tr : list (Session * slabel)) (rcv : list Frame) : Prop :=
  routed_all q tr `prefix_of` psh (id o) rcv ∧
  (st_closed o = false → routed_all q tr = psh (id o) rcv) ∧
  (live → Forall (calm q) tr →
     (st_closed o = true → ∃ g, g ∈ rcv ∧ cmd g = Fin ∧ sid g = id o) ∧ routed_all q tr = psh (id o) rcv).

Section receiving.
  Context `{IterOrder, Md5, WriterPeer}.

Lemma routed_step s l q o :
  sess_inv s → heap s !! q = Some o →
  routed q (s, l) = if st_closed o then [] else psh (id o) (got l).
Proof.
  intros Hi Hq. unfold routed. simpl. destruct l as [r|max r|f r|p buf r|p r|p m r|p l| |]; simpl; try (by case_match).
  rewrite psh_one. destruct (registered s q (sid f)) eqn:Hreg.
  - apply bool_decide_eq_true in Hreg. destruct (inv_entry _ _ _ _ Hi _ _ Hreg) as (_ & o' & Ho' & Hid & Hc).
    simplify_eq. rewrite Hc. repeat case_decide; naive_solver.
  - destruct (st_closed o) eqn:Hc; [by case_decide|]. rewrite (decide_False (P := cmd f = Psh ∧ _)); [by case_decide|].
    intros [_ Hid]. destruct (inv_open _ _ _ _ Hi _ _ Hq Hc) as [Hm _]. rewrite <- Hid in Hm.
    unfold registered in Hreg. by apply bool_decide_eq_false in Hreg.
Qed.

Lemma routed_unborn s0 tr s q :
  sess_inv s0 → sruns s0 tr s → length (heap s) ≤ q → routed_all q tr = [].
Proof.
  intros Hi Hr. induction Hr as [|tr s l s' Hr IH Hs]; [done|]. intros Hq.
  pose proof (sruns_inv _ _ _ Hi Hr) as Hi'.
  assert (length (heap s) ≤ length (heap s')) by (destruct (step_new s l s' Hi' Hs) as [|(? & ? & ? & ?)]; lia).
  rewrite routed_all_snoc, IH by lia. unfold routed; simpl. destruct l; try done. repeat case_match; try done.
  match goal with Hreg : registered _ _ _ = true |- _ => apply bool_decide_eq_true in Hreg;
    destruct (inv_entry _ _ _ _ Hi' _ _ Hreg) as (_ & o' & Ho'%lookup_lt_Some & _) end. lia.
Qed.

(** A calm step closes an open stream only by a [Fin] of the peer. *)
Lemma closed_by_fin s l q o o' :
  heap s !! q = Some o → st_closed o = false → st_closed o' = true → later (keeps q o l) o o' → calm q (s, l) →
  ∃ g, g ∈ got l ∧ cmd g = Fin ∧ sid g = id o.
Proof.
  intros Hq Hc Hc' (_ & _ & Hk) Hcalm. unfold calm, stream_is_closed, stream_at in Hcalm. simpl in Hcalm.
  destruct l as [r|max r|f r|p buf r|p r|p m r|p l| |]; simpl in Hk, Hcalm; try (rewrite Hk in Hc' by done; congruence).
  - destruct (decide (sid f = id o ∧ cmd f = Fin)) as [[Hs Hf]|Hn]; [exists f; set_solver|].
    rewrite Hk in Hc'; [congruence|]. intros Hs [Hf|[Hf Hd]]; [naive_solver|]. by apply Hd, Hcalm.
  - destruct (decide (p = q)) as [->|Hn]; [|rewrite Hk in Hc' by done; congruence].
    rewrite Hq in Hcalm. simpl in Hcalm. rewrite Hcalm in Hc by done. done.
  - rewrite Hq in Hcalm. simpl in Hcalm. congruence.
Qed.

Lemma received_step (live live' : Prop) s l s' q o o' tr rcv :
  sess_inv s → sstep s l s' → heap s !! q = Some o → heap s' !! q = Some o' → (live' → live) →
  (∀ f g, got l = [f] → cmd f = Psh → g ∈ rcv → cmd g = Fin → sid g ≠ sid f) →
  received live q o tr rcv → received live' q o' (tr ++ [(s, l)]) (rcv ++ got l).
Proof.
  intros Hi Hs Hq Hq' Hlive Hord (Hpre & Hopen & Hcalm). pose proof (routed_step s l q o Hi Hq) as Hr.
  destruct (step_old s l s' q o Hi Hs Hq) as (o2 & Ho2 & Hlat). simplify_eq. pose proof Hlat as (Hid & Hcl & _).
  unfold received. rewrite Hid, routed_all_snoc, psh_app, Hr. destruct (st_closed o) eqn:Hc.
  - rewrite app_nil_r. split_and!.
    + by apply prefix_app_r.
    + intros Hc'. rewrite Hcl in Hc'; done.
    + intros Hl [Htr _]%Forall_app. destruct (Hcalm (Hlive Hl) Htr) as [Hfin Heq].
      destruct (Hfin eq_refl) as (g & Hg & Hgc & Hgs). split; [intros _; exists g; set_solver|].
      rewrite Heq. destruct l; simpl; rewrite ?app_nil_r; try done. rewrite psh_one, decide_False, app_nil_r; [done|].
      intros [Hf Hfs]. by apply (Hord f g eq_refl Hf Hg Hgc); congruence.
  - rewrite (Hopen eq_refl). split_and!; [done..|]. intros Hl [Htr Hx]%Forall_app. split; [|done].
    intros Hc'. destruct (closed_by_fin s l q o o' Hq Hc Hc' Hlat) as (g & Hg & Hgc & Hgs).
    { by rewrite Forall_singleton in Hx. }
    exists g. set_solver.
Qed.
End receiving.

Lemma step_is_client `{IterOrder, Md5, WriterPeer} s l s' :
  sess_inv s → sstep s l s' → is_client s' = is_client s.
Proof.
  intros Hi Hs.
  destruct Hs as [s r s' E|s max r s' Hm E|s f r s' E|s p buf r s' E|s p r s' E|s p m r s' E|s p st l ps Hp Hl Hs|s|s].
  - destruct (ensure_started_same s) as (_&_&_&_&_&Hc). by rewrite E in Hc.
  - destruct (open_stream_cases max s) as [(e & t & E' & Ht)|(_ & _ & _ & _ & E')]; rewrite E in E'.
    { simplify_eq. by destruct Ht; subst. }
    destruct (tx_send_same (Frame_new Syn (next_sid s), false) (opened s)) as (_&_&_&_&_&Hc).
    destruct (tx_send _ (opened s)) as [[u|e] t]; cbn [snd] in *; simplify_eq; [done|].
    rewrite close_from_peer_eq. simpl. unfold publish_idle. by case_bool_decide.
  - destruct (handle_frame_flags f s) as (_ & Hc & _). by rewrite E in Hc.
  - destruct (stream_write_same p buf s) as (_&_&_&_&_&Hc). by rewrite E in Hc.
  - destruct (stream_is_closed s p) eqn:Hc.
    { rewrite stream_close_noop in E by done. by simplify_eq. }
    unfold stream_is_closed, stream_at in Hc. destruct (heap s !! p) as [st|] eqn:Hp; [|done]. simpl in Hc.
    rewrite (stream_close_eq p s st Hp Hc) in E.
    match type of E with tx_send ?a ?b = _ => destruct (tx_send_same a b) as (_&_&_&_&_&Hcl) end.
    rewrite E in Hcl. cbn [snd] in Hcl. rewrite Hcl. simpl. unfold publish_idle. by case_bool_decide.
  - destruct (stream_ack_same p m s) as (_&_&_&_&_&Hc). by rewrite E in Hc.
  - done.
  - by rewrite terminate_eq.
  - done.
Qed.

(** ** The connection *)

(** The two sessions, and how many frames of each the other has handled. *)
Record Conn : Type := mkConn { cl : Session; sv : Session; up : nat; down : nat }.

Inductive clabel : Type :=
  | CClient (l : slabel)
  | CServer (l : slabel)
  | CUp (f : Frame) (r : result unit)
  | CDown (f : Frame) (r : result unit).

(** What the tasks of a client and of a server do besides receiving: only a
    client opens streams, only a server answers. *)
Definition client_label (l : slabel) : bool := match l with SFrame _ _ | SAck _ _ _ => false | _ => true end.
Definition server_label (l : slabel) : bool := match l with SFrame _ _ | SOpen _ _ => false | _ => true end.

Definition conn_start (pfc pfs : PaddingFactory) : Conn :=
  mkConn (new_client_session pfc) (new_server_session pfs) 0 0.

Section connection.
  Context {O : IterOrder} {M : Md5} (Wc Ws : WriterPeer).

Inductive cstep : Conn → clabel → Conn → Prop :=
  | c_client x l c' :
      client_label l = true → sstep (H1 := Wc) (cl x) l c' → cstep x (CClient l) (mkConn c' (sv x) (up x) (down x))
  | c_server x l s' :
      server_label l = true → sstep (H1 := Ws) (sv x) l s' → cstep x (CServer l) (mkConn (cl x) s' (up x) (down x))
  | c_up x f r s' :
      tx (cl x) !! up x = Some f → handle_frame (H1 := Ws) f (sv x) = (r, s') →
      cstep x (CUp f r) (mkConn (cl x) s' (S (up x)) (down x))
  | c_down x f r c' :
      tx (sv x) !! down x = Some f → handle_frame (H1 := Wc) f (cl x) = (r, c') →
      cstep x (CDown f r) (mkConn c' (sv x) (up x) (S (down x))).

Inductive cruns (x0 : Conn) : list (Conn * clabel) → Conn → Prop :=
  | cruns_nil : cruns x0 [] x0
  | cruns_snoc tr x l x' : cruns x0 tr x → cstep x l x' → cruns x0 (tr ++ [(x, l)]) x'.

(** The run of either side. *)
Definition client_part (y : Conn * clabel) : option (Session * slabel) :=
  match y.2 with CClient l => Some (cl y.1, l) | CDown f r => Some (cl y.1, SFrame f r) | _ => None end.
Definition server_part (y : Conn * clabel) : option (Session * slabel) :=
  match y.2 with CServer l => Some (sv y.1, l) | CUp f r => Some (sv y.1, SFrame f r) | _ => None end.
Definition client_trace (tr : list (Conn * clabel)) : list (Session * slabel) := omap client_part tr.
Definition server_trace (tr : list (Conn * clabel)) : list (Session * slabel) := omap server_part tr.

Lemma cruns_client x0 tr x : cruns x0 tr x → sruns (H1 := Wc) (cl x0) (client_trace tr) (cl x).
Proof.
  induction 1 as [|tr x l x' Hr IH Hs]; [constructor|]. unfold client_trace. rewrite omap_app.
  destruct Hs; cbn; rewrite ?app_nil_r; try done; (eapply sruns_snoc; [exact IH|]); [done|by constructor].
Qed.

Lemma cruns_server x0 tr x : cruns x0 tr x → sruns (H1 := Ws) (sv x0) (server_trace tr) (sv x).
Proof.
  induction 1 as [|tr x l x' Hr IH Hs]; [constructor|]. unfold server_trace. rewrite omap_app.
  destruct Hs; cbn; rewrite ?app_nil_r; try done; (eapply sruns_snoc; [exact IH|]); [done|by constructor].
Qed.

(** The id counter of the client is not exhausted. *)
Definition ids_left (tr : list (Conn * clabel)) : Prop :=
  Forall (fun y => next_stream_id (cl y.1) < u32_max)%Z tr.

Record conn_inv (x : Conn) : Prop := mkConnInv {
  ci_up : up x ≤ length (tx (cl x));
  ci_down : down x ≤ length (tx (sv x));
  ci_client : sender (cl x) ∧ is_client (cl x) = true ∧ ids_inv (cl x) ∧ announced (cl x);
  ci_server : sender (sv x) ∧ is_client (sv x) = false;
  ci_syn : ∀ q o, heap (sv x) !! q = Some o → ∃ g, g ∈ take (up x) (tx (cl x)) ∧ cmd g = Syn ∧ sid g = id o;
}.

Lemma sender_start c cb st : sender (new_with_protocol c cb st).
Proof. split; [apply sess_inv_init|..]; by intros; simplify_eq/=; set_solver. Qed.

Lemma conn_inv_start pfc pfs : conn_inv (conn_start pfc pfs).
Proof.
  split; simpl; [done|done| | |done].
  - split_and!; [apply sender_start|done| |].
    + split_and!; [done..|apply NoDup_nil_2|constructor].
    + by split.
  - split; [apply sender_start|done].
Qed.

Lemma tx_grows `{WriterPeer} s l s' : sess_inv s → sstep s l s' → ∃ new, tx s' = tx s ++ new.
Proof.
  intros Hi Hs. destruct (tx_step s l s' Hi Hs) as (new & E & _). exists new.*1. unfold tx. by rewrite E, fmap_app.
Qed.

Lemma client_side_step x l c' :
  conn_inv x → (next_stream_id (cl x) < u32_max)%Z → sstep (H1 := Wc) (cl x) l c' →
  sender c' ∧ is_client c' = true ∧ ids_inv c' ∧ announced c' ∧ up x ≤ length (tx c') ∧
  take (up x) (tx c') = take (up x) (tx (cl x)).
Proof.
  intros [Hup _ (Hsnd & Hc & Hids & Han) _ _] Hb Hs. pose proof (snd_inv _ Hsnd) as Hi.
  destruct (client_ids (H1 := Wc) (cl x) [(cl x, l)] c' Hi Hc Hids) as [Hc' Hids'].
  { apply (sruns_snoc _ [] (cl x)); [constructor|done]. }
  { by constructor. }
  destruct (tx_grows _ _ _ Hi Hs) as (new & Htx). split_and!; [|done|done| | |].
  - apply (sender_step (H1 := Wc) (cl x) l c'); [done..|]. by apply client_fresh.
  - by apply (announced_step (H1 := Wc) (cl x) l c').
  - rewrite Htx, length_app. lia.
  - by rewrite Htx, take_app_le.
Qed.

Lemma server_side_step x l s' :
  conn_inv x → sstep (H1 := Ws) (sv x) l s' → fresh (sv x) l →
  sender s' ∧ is_client s' = false ∧ down x ≤ length (tx s') ∧ take (down x) (tx s') = take (down x) (tx (sv x)).
Proof.
  intros [_ Hdown _ (Hsnd & Hc) _] Hs Hf. pose proof (snd_inv _ Hsnd) as Hi.
  destruct (tx_grows _ _ _ Hi Hs) as (new & Htx). split_and!.
  - by apply (sender_step (H1 := Ws) (sv x) l s').
  - by rewrite (step_is_client _ _ _ Hi Hs).
  - rewrite Htx, length_app. lia.
  - by rewrite Htx, take_app_le.
Qed.

Lemma conn_inv_step x l x' :
  conn_inv x → (next_stream_id (cl x) < u32_max)%Z → cstep x l x' → conn_inv x'.
Proof.
  intros Hx Hb Hs. pose proof Hx as [Hup Hdown (Hsc & Hcl & Hids & Han) (Hss & Hsv) Hsyn].
  destruct Hs as [x l c' Hl Hs|x l s' Hl Hs|x f r s' Hf E|x f r c' Hf E].
  - destruct (client_side_step x l c' Hx Hb Hs) as (? & ? & ? & ? & ? & Htk).
    split; simpl; [done..|by rewrite Htk].
  - assert (fresh (sv x) l) as Hfr by (intros o p o1 Hcr; by destruct l).
    destruct (server_side_step x l s' Hx Hs Hfr) as (? & ? & ? & _). split; simpl; [done..|].
    intros q o' Hq. destruct (step_back _ _ _ _ _ (snd_inv _ Hss) Hs Hq) as [(o & Ho & Hid & _)|[_ Hcr]].
    + rewrite Hid. by eapply Hsyn.
    + by destruct l.
  - assert (sstep (H1 := Ws) (sv x) (SFrame f r) s') as Hs by by constructor.
    assert (fresh (sv x) (SFrame f r)) as Hfr.
    { intros o p o1 (Hcmd & Hid & _) Hp Heq. destruct (Hsyn p o1 Hp) as (g & Hg & Hgc & Hgs).
      apply list_elem_of_lookup in Hg as [j Hj]. apply lookup_take_Some in Hj as [Hj Hlt].
      pose proof (an_once _ Han j (up x) g f Hj Hf Hgc Hcmd ltac:(congruence)). lia. }
    destruct (server_side_step x _ s' Hx Hs Hfr) as (? & ? & ? & _).
    assert (take (S (up x)) (tx (cl x)) = take (up x) (tx (cl x)) ++ [f]) as Htk by by apply take_S_r.
    split; simpl; [by eapply lookup_lt_Some|done..|].
    rewrite Htk. setoid_rewrite elem_of_app.
    intros q o' Hq. destruct (step_back _ _ _ _ _ (snd_inv _ Hss) Hs Hq) as [(o & Ho & Hid & _)|[_ (Hcmd & Hid & _)]].
    + destruct (Hsyn _ _ Ho) as (g & Hg & Hgc & Hgs). exists g. split_and!; [by left|done|congruence].
    + exists f. split_and!; [right; by apply list_elem_of_singleton|done|done].
  - assert (sstep (H1 := Wc) (cl x) (SFrame f r) c') as Hs by by constructor.
    destruct (client_side_step x _ c' Hx Hb Hs) as (? & ? & ? & ? & ? & Htk).
    split; simpl; [done|by eapply lookup_lt_Some|done..|by rewrite Htk].
Qed.

Lemma conn_inv_runs pfc pfs tr x : cruns (conn_start pfc pfs) tr x → ids_left tr → conn_inv x.
Proof.
  induction 1 as [|tr x l x' Hr IH Hs]; [intros _; apply conn_inv_start|].
  intros [Htr Hb]%Forall_app. rewrite Forall_singleton in Hb. eapply conn_inv_step; eauto.
Qed.

(** *** Both directions *)

Lemma received_new `{WriterPeer} (live : Prop) s0 tr s l s' q o :
  sess_inv s0 → sruns s0 tr s → sstep s l s' → q = length (heap s) → routed q (s, l) = [] →
  ∀ rcv, psh (id o) rcv = [] → (live → st_closed o = false) → received live q o (tr ++ [(s, l)]) rcv.
Proof.
  intros Hi Hr Hs -> Hx rcv Hp Hl. unfold received.
  rewrite routed_all_snoc, Hx, (routed_unborn s0 tr s _ Hi Hr), Hp by done.
  split_and!; [done..|]. intros Hlive _. split; [|done]. rewrite Hl by done. done.
Qed.

Lemma upload_received pfc pfs tr x :
  cruns (conn_start pfc pfs) tr x → ids_left tr →
  ∀ q o, heap (sv x) !! q = Some o → received True q o (server_trace tr) (take (up x) (tx (cl x))).
Proof.
  induction 1 as [|tr x l x' Hr IH Hs]; [done|].
  intros [Htr Hb]%Forall_app. rewrite Forall_singleton in Hb. specialize (IH Htr).
  pose proof (conn_inv_runs _ _ _ _ Hr Htr) as Hx. pose proof Hx as [Hup _ (Hsc & _ & _ & Han) (Hss & _) _].
  pose proof (snd_inv _ Hss) as Hi. unfold server_trace. rewrite omap_app.
  destruct Hs as [x l c' Hl Hs|x l s' Hl Hs|x f r s' Hf E|x f r c' Hf E]; cbn [omap list_omap server_part snd fst sv cl up].
  - destruct (client_side_step x l c' Hx Hb Hs) as (_ & _ & _ & _ & _ & Htk). rewrite app_nil_r, Htk. exact IH.
  - intros q o' Hq. destruct (step_back _ _ _ _ _ Hi Hs Hq) as [(o & Ho & _)|[_ Hcr]]; [|by destruct l].
    replace (take (up x) (tx (cl x))) with (take (up x) (tx (cl x)) ++ got l) by (destruct l; try done; by rewrite app_nil_r).
    eapply (received_step (H1 := Ws) True True); [done..| |by apply IH]. by destruct l.
  - assert (sstep (H1 := Ws) (sv x) (SFrame f r) s') as Hs by by constructor.
    intros q o' Hq. rewrite (take_S_r _ _ f) by done.
    destruct (step_back _ _ _ _ _ Hi Hs Hq) as [(o & Ho & _)|[-> (Hcmd & Hid & _ & Hc)]].
    + eapply (received_step (H1 := Ws) True True _ (SFrame f r)); [done..| |by apply IH].
      intros f' g [= <-] Hpsh Hg Hfin. by eapply (snd_ord _ Hsc (up x)).
    + eapply (received_new (H := Ws)); [|by eapply cruns_server|done|done| | |done].
      * apply sess_inv_init.
      * unfold routed; simpl. by rewrite decide_False by congruence.
      * rewrite Hid. apply psh_nil. intros g Hg Hgc Hgs. apply elem_of_app in Hg as [Hg|Hg].
        -- apply list_elem_of_lookup in Hg as [k Hk]. apply lookup_take_Some in Hk as [Hk Hlt].
           destruct (an_before _ Han k g Hk Hgc) as (h & Hh & Hhc & Hhs).
           apply list_elem_of_lookup in Hh as [j Hj]. apply lookup_take_Some in Hj as [Hj Hlt'].
           pose proof (an_once _ Han j (up x) h f Hj Hf Hhc Hcmd ltac:(congruence)). lia.
        -- apply list_elem_of_singleton in Hg as ->. congruence.
  - rewrite app_nil_r. assert (sstep (H1 := Wc) (cl x) (SFrame f r) c') as Hs by by constructor.
    destruct (client_side_step x _ c' Hx Hb Hs) as (_ & _ & _ & _ & _ & Htk). rewrite Htk. exact IH.
Qed.

(** The announcement of a client's stream was accepted. *)
Definition live (x : Conn) (o : Stream) : Prop := ∃ g, g ∈ tx (cl x) ∧ cmd g = Syn ∧ sid g = id o.

Lemma download_received pfc pfs tr x :
  cruns (conn_start pfc pfs) tr x → ids_left tr →
  ∀ q o, heap (cl x) !! q = Some o → received (live x o) q o (client_trace tr) (take (down x) (tx (sv x))).
Proof.
  induction 1 as [|tr x l x' Hr IH Hs]; [done|].
  intros [Htr Hb]%Forall_app. rewrite Forall_singleton in Hb. specialize (IH Htr). simpl in Hb.
  pose proof (conn_inv_runs _ _ _ _ Hr Htr) as Hx. pose proof Hx as [_ Hdown (Hsc & Hcl & Hids & Han) (Hss & _) Hsyn].
  pose proof (snd_inv _ Hsc) as Hi. unfold client_trace. rewrite omap_app.
  assert (∀ l s', sstep (H1 := Ws) (sv x) l s' → take (down x) (tx s') = take (down x) (tx (sv x))) as Hsame.
  { intros l0 s' Hs0. destruct (tx_grows _ _ _ (snd_inv _ Hss) Hs0) as (new & ->). by rewrite take_app_le. }
  destruct Hs as [x l c' Hl Hs|x l s' Hl Hs|x f r s' Hf E|x f r c' Hf E]; cbn [omap list_omap client_part snd fst sv cl down].
  - destruct (tx_step (H1 := Wc) (cl x) l c' Hi Hs) as (new & Etx & Hadd).
    assert (∀ o, live (mkConn c' (sv x) (up x) (down x)) o →
      live x o ∨ (id o = next_sid (cl x) ∧ ∃ max p, l = SOpen max (Ok p))) as Hlive.
    { intros o (g & Hg & Hgc & Hgs). simpl in Hg. unfold tx in Hg. rewrite Etx, fmap_app, elem_of_app in Hg.
      destruct Hg as [Hg|Hg]; [left; by exists g|right].
      destruct (added_cases _ _ _ g Hadd Hg) as (_ & Hcases); [apply stream_cmd_data; auto|]. naive_solver. }
    pose proof (next_sid_succ _ Hids Hb) as Hnext.
    intros q o' Hq. destruct (step_back _ _ _ _ _ Hi Hs Hq) as [(o & Ho & Hlat)|[-> Hcr]].
    + replace (take (down x) (tx (sv x))) with (take (down x) (tx (sv x)) ++ got l) by (destruct l; try done; by rewrite app_nil_r).
      eapply (received_step (H1 := Wc) (live x o)); [done..| | |by apply IH].
      * intros Hl'. destruct (Hlive _ Hl') as [(g & ?)|[Hid _]].
        { exists g. destruct Hlat as [<- _]. done. }
        pose proof (ids_bound _ _ _ Hids Ho). destruct Hlat as [Hido _]. lia.
      * by destruct l.
    + eapply (received_new (H := Wc)); [|by eapply cruns_client|done|done| | |].
      * apply sess_inv_init.
      * unfold routed. simpl. by destruct l.
      * destruct l as [r0|max r0|f r0|p buf r0|p r0|p m r0|p l| |]; simpl in Hcr; try done. destruct Hcr as [Hid _].
        rewrite Hid. apply psh_nil. intros f Hf Hfc Hfs. apply elem_of_take in Hf as (k & Hk & _).
        apply list_elem_of_lookup_2 in Hk. destruct (snd_own _ Hss f Hk) as (p & o1 & Hp & Hid1); [auto|].
        destruct (Hsyn p o1 Hp) as (g & Hg & Hgc & Hgs). apply elem_of_take in Hg as (j & Hj & _).
        apply list_elem_of_lookup_2 in Hj. destruct (snd_own _ Hsc g Hj) as (p2 & o2 & Hp2 & Hid2); [auto|].
        pose proof (ids_bound _ _ _ Hids Hp2). lia.
      * intros Hl'. destruct l as [r0|max r0|f r0|p buf r0|p r0|p m r0|p l| |]; simpl in Hcr; try done. destruct Hcr as [Hid Hc].
        rewrite Hc. destruct (Hlive _ Hl') as [(g & Hg & Hgc & Hgs)|(_ & max' & p' & [= _ ->])]; [|done].
        destruct (snd_own _ Hsc g Hg) as (p2 & o2 & Hp2 & Hid2); [auto|]. pose proof (ids_bound _ _ _ Hids Hp2). lia.
  - rewrite app_nil_r, (Hsame l s' Hs). exact IH.
  - rewrite app_nil_r, (Hsame (SFrame f r) s') by by constructor. exact IH.
  - assert (sstep (H1 := Wc) (cl x) (SFrame f r) c') as Hs by by constructor.
    intros q o' Hq. rewrite (take_S_r _ _ f) by done.
    destruct (step_back _ _ _ _ _ Hi Hs Hq) as [(o & Ho & Hlat)|[_ (_ & _ & Hc & _)]]; [|congruence].
    eapply (received_step (H1 := Wc) (live x o) _ _ (SFrame f r)); [done..| | |by apply IH].
    + intros (g & Hg & Hgc & Hgs). exists g. destruct Hlat as [<- _]. split_and!; [|done..]. simpl in Hg.
      destruct (tx_step (H1 := Wc) (cl x) (SFrame f r) c' Hi Hs) as (new & Etx & Hadd).
      unfold tx in Hg. rewrite Etx, fmap_app, elem_of_app in Hg. destruct Hg as [Hg|Hg]; [done|].
      destruct (added_cases _ _ _ g Hadd Hg) as (_ & Hcases); [apply stream_cmd_data; auto|]. naive_solver.
    + intros f' g [= <-] Hpsh Hg Hfin. by eapply (snd_ord _ Hss (down x)).
Qed.

(** ** Properties *)

(** Nobody on this side ended the stream at [q] while it was open. *)
Definition undisturbed (q : nat) (y : Session * slabel) : Prop :=
  match y.2 with
  | STerminate => stream_is_closed y.1 q = true
  | SClose p _ => p = q → stream_is_closed y.1 q = true
  | _ => True
  end.

#[global] Instance undisturbed_dec q y : Decision (undisturbed q y).
Proof. unfold undisturbed. destruct y as [s []]; simpl; apply _. Defined.

Definition plain_ack (y : Session * slabel) : Prop :=
  match y.2 with SFrame f _ => cmd f = SynAck → data f = [] | _ => True end.

Lemma calm_split q tr : Forall (undisturbed q) tr → Forall plain_ack tr → Forall (calm q) tr.
Proof.
  intros Hu Ha. apply Forall_forall. intros [s l] Hy. rewrite Forall_forall in Hu, Ha.
  specialize (Hu _ Hy). specialize (Ha _ Hy). unfold calm, undisturbed, plain_ack in *. simpl in *. by destruct l.
Qed.

(** A client refuses nothing, so a server sees no refusal. *)
Lemma client_acks pfc pfs tr x :
  cruns (conn_start pfc pfs) tr x → ids_left tr → acks_empty (cl x) ∧ Forall plain_ack (server_trace tr).
Proof.
  induction 1 as [|tr x l x' Hr IH Hs]; [intros _; split; [intros ? ?%not_elem_of_nil; done|constructor]|].
  intros [Htr Hb]%Forall_app. destruct (IH Htr) as [Ha Hp].
  pose proof (snd_inv _ (proj1 (ci_client _ (conn_inv_runs _ _ _ _ Hr Htr)))) as Hi.
  unfold server_trace. rewrite omap_app, Forall_app.
  destruct Hs as [x l c' Hl Hs|x l s' Hl Hs|x f r s' Hf E|x f r c' Hf E]; cbn [omap list_omap server_part snd fst cl];
    rewrite ?Forall_singleton; (split; [|split; [done|]]); try done.
  - apply (acks_empty_step (H1 := Wc) (cl x) l c'); [done..| |done]. by destruct l.
  - by destruct l.
  - unfold plain_ack. simpl. intros Hf'. apply Ha; [by eapply list_elem_of_lookup_2|done].
  - by apply (acks_empty_step (H1 := Wc) (cl x) (SFrame f r) c'); [|constructor|..].
Qed.

Lemma server_acks pfc pfs tr x :
  cruns (conn_start pfc pfs) tr x → ids_left tr → Forall (fun y => no_refusal y.2) (server_trace tr) →
  acks_empty (sv x) ∧ Forall plain_ack (client_trace tr).
Proof.
  induction 1 as [|tr x l x' Hr IH Hs]; [intros _ _; split; [intros ? ?%not_elem_of_nil; done|constructor]|].
  intros [Htr Hb]%Forall_app. unfold server_trace, client_trace. rewrite !omap_app, !Forall_app.
  intros [Hn1 Hn2]. destruct (IH Htr Hn1) as [Ha Hp].
  pose proof (snd_inv _ (proj1 (ci_server _ (conn_inv_runs _ _ _ _ Hr Htr)))) as Hi.
  destruct Hs as [x l c' Hl Hs|x l s' Hl Hs|x f r s' Hf E|x f r c' Hf E];
    cbn [omap list_omap server_part client_part snd fst sv] in *; rewrite ?Forall_singleton in *;
    (split; [|split; [done|]]); try done.
  - by destruct l.
  - by apply (acks_empty_step (H1 := Ws) (sv x) l s').
  - by apply (acks_empty_step (H1 := Ws) (sv x) (SFrame f r) s'); [|constructor|..].
  - unfold plain_ack. simpl. intros Hf'. apply Ha; [by eapply list_elem_of_lookup_2|done].
Qed.

(** After a [Fin] nothing of the stream is on its way. *)
Lemma nothing_after_fin s k g i :
  sender s → g ∈ take k (tx s) → cmd g = Fin → sid g = i → psh i (drop k (tx s)) = [].
Proof.
  intros Hs Hg Hgc <-. apply psh_nil. intros f Hf Hfc Hfs.
  apply list_elem_of_lookup in Hf as [j Hj]. rewrite lookup_drop in Hj.
  eapply (snd_ord _ Hs (k + j) f g); [done..| |done|done].
  apply elem_of_take in Hg as (n & Hn & Hlt). apply elem_of_take. exists n. split; [done|lia].
Qed.

(** What [received] says of the bytes, with those still on their way. *)
Lemma received_bytes (alive : Prop) q o tr (s : Session) k w a :
  sender s → received alive q o tr (take k (tx s)) → psh (id o) (tx s) = w → a `prefix_of` routed_all q tr →
  a `prefix_of` w ∧
  (alive → Forall (calm q) tr →
     routed_all q tr ++ psh (id o) (drop k (tx s)) = w ∧ (st_closed o = true → psh (id o) (drop k (tx s)) = [])).
Proof.
  intros Hs (Hpre & _ & Hcalm) <- Ha.
  assert (psh (id o) (tx s) = psh (id o) (take k (tx s)) ++ psh (id o) (drop k (tx s))) as ->
    by by rewrite <- psh_app, take_drop.
  split.
  - etrans; [exact Ha|]. etrans; [exact Hpre|]. by apply prefix_app_r.
  - intros Hl Hc. destruct (Hcalm Hl Hc) as [Hfin ->]. split; [done|].
    intros (g & Hg & Hgc & Hgs)%Hfin. by eapply nothing_after_fin.
Qed.

Lemma upload_bytes pfc pfs tr x q o :
  cruns (conn_start pfc pfs) tr x → ids_left tr → heap (sv x) !! q = Some o →
  quiet_trace (stream_trace (H1 := Ws) q (server_trace tr)) = true →
  let read := delivered (stream_trace (H1 := Ws) q (server_trace tr)) in
  let ps := pipe_at (sv x) q in
  let wrote := written_by (id o) (client_trace tr) in
  let coming := psh (id o) (drop (up x) (tx (cl x))) in
  read `prefix_of` wrote ∧
  (Forall (undisturbed q) (server_trace tr) →
     (read ++ buffer (inner ps) ++ queue_data (pending ps)) ++ coming = wrote ∧ (st_closed o = true → coming = [])).
Proof.
  intros Hr Hb Ho Hq. cbn zeta. pose proof (conn_inv_runs _ _ _ _ Hr Hb) as [_ _ (Hsc & _) _ _].
  pose proof (upload_received _ _ _ _ Hr Hb q o Ho) as Hrec.
  pose proof (stream_fifo (H1 := Ws) _ _ _ q (sess_inv_init _ _ _) eq_refl (cruns_server _ _ _ Hr) Hq) as Hf.
  fold (routed_all q (server_trace tr)) in Hf. rewrite Hf.
  pose proof (written_by_tx (id o) _ _ _ (sess_inv_init _ _ _) eq_refl (cruns_client _ _ _ Hr)) as Hw.
  destruct (received_bytes True q o _ (cl x) _ _ (delivered (stream_trace (H1 := Ws) q (server_trace tr))) Hsc Hrec Hw) as [H1 H2].
  { rewrite <- Hf. by apply prefix_app_r. }
  split; [done|]. intros Hu. apply H2; [done|]. apply calm_split; [done|]. by apply client_acks in Hr as [_ ?].
Qed.


Lemma download_bytes pfc pfs tr x q o :
  cruns (conn_start pfc pfs) tr x → ids_left tr → heap (cl x) !! q = Some o →
  quiet_trace (stream_trace (H1 := Wc) q (client_trace tr)) = true →
  let read := delivered (stream_trace (H1 := Wc) q (client_trace tr)) in
  let ps := pipe_at (cl x) q in
  let wrote := written_by (id o) (server_trace tr) in
  let coming := psh (id o) (drop (down x) (tx (sv x))) in
  read `prefix_of` wrote ∧
  (live x o → Forall (undisturbed q) (client_trace tr) → Forall (fun y => no_refusal y.2) (server_trace tr) →
     (read ++ buffer (inner ps) ++ queue_data (pending ps)) ++ coming = wrote ∧ (st_closed o = true → coming = [])).
Proof.
  intros Hr Hb Ho Hq. cbn zeta. pose proof (conn_inv_runs _ _ _ _ Hr Hb) as [_ _ _ (Hss & _) _].
  pose proof (download_received _ _ _ _ Hr Hb q o Ho) as Hrec.
  pose proof (stream_fifo (H1 := Wc) _ _ _ q (sess_inv_init _ _ _) eq_refl (cruns_client _ _ _ Hr) Hq) as Hf.
  fold (routed_all q (client_trace tr)) in Hf. rewrite Hf.
  pose proof (written_by_tx (id o) _ _ _ (sess_inv_init _ _ _) eq_refl (cruns_server _ _ _ Hr)) as Hw.
  destruct (received_bytes _ q o _ (sv x) _ _ (delivered (stream_trace (H1 := Wc) q (client_trace tr))) Hss Hrec Hw) as [H1 H2].
  { rewrite <- Hf. by apply prefix_app_r. }
  split; [done|]. intros Hl Hu Hn. apply H2; [done|]. apply calm_split; [done|]. by apply server_acks in Hr as [_ ?].
Qed.

End connection.

(** ** The frames between the two sides *)

Lemma filter_prefix {A} (P : A → Prop) `{∀ a, Decision (P a)} (l m : list A) :
  m `prefix_of` filter P l → ∃ k, m = filter P (take k l).
Proof.
  revert m. induction l as [|a l IH]; intros m Hm.
  { exists 0. by apply prefix_nil_inv in Hm. }
  rewrite filter_cons in Hm. destruct (decide (P a)) as [Ha|Ha].
  - destruct m as [|b m]; [by exists 0|]. apply prefix_cons_inv_1 in Hm as Hab. subst b.
    apply prefix_cons_inv_2, IH in Hm as [k ->]. exists (S k). simpl. by rewrite filter_cons_True.
  - apply IH in Hm as [k ->]. exists (S k). simpl. by rewrite filter_cons_False.
Qed.

(** The wire may be cut anywhere: whatever part of a sender's bytes has arrived,
    in whatever pieces, has on the receiving session the effect of a first part of
    the queued frames.  So the frames one side has handled are at any time the
    first so many that the other side queued, which is how [cstep] delivers
    them. *)
Theorem wire_cut_anywhere (O : IterOrder) (M : Md5) (R : Rng) (T : Transport) (W : WriterPeer)
    is_client g q chunks s :
  never_fails → Forall (fun x => scheme_bounded x.1 ∧ sendable x.2.1) q →
  concat chunks `prefix_of` concat (sent (writer_task q (WState_new is_client g)).2) →
  Forall (fun c => c ≠ []) chunks → s_closed s = false →
  ∃ k, recv_loop (Ok <$> chunks) [] s =
    match io_iter handle_frame (take k (queue_frames q)) s with
    | (Ok _, s') => (None, s')
    | (Err e, s') => (Some e, s')
    end.
Proof.
  intros Hn Hq [rest Hch] Hne Hc. pose proof (writer_task_never q (WState_new is_client g) Hn) as Ha.
  destruct (writer_task q _) as [[acks alive] w] eqn:E. cbn [fst snd] in *. subst alive.
  apply writer_task_ok in E as (fs & E & Hfs & Hp & _); [|done..].
  rewrite (recv_loop_frames chunks [] s) by done. cbn [app].
  rewrite E in Hch. cbn [sent WState_new concat app] in Hch.
  pose proof (drain_encoded fs [] Hfs from_bytes_nil) as Hd. rewrite app_nil_r, Hch, drain_app in Hd.
  assert ((drain (concat chunks)).1 `prefix_of` fs) as Hpre by (eexists; by injection Hd as <- _).
  assert (payload (drain (concat chunks)).1 `prefix_of` payload (queue_frames q)) as Hpp.
  { rewrite <- Hp. destruct Hpre as [m ->]. unfold payload. rewrite filter_app. by eexists. }
  apply filter_prefix in Hpp as [k Hk]. exists k.
  by rewrite (iter_payload (drain _).1), Hk, <- (iter_payload (take k _)).
Qed.

(** *** Witnesses

    Runs are computed from a list of commands. *)
Definition reader_next (n : nat) (ps : PipeState) : option (plabel * PipeState) :=
  let p := inner ps in
  match phase ps with
  | Idle => Some (LCall n, mkPS p (Checking n))
  | Checking n => match read_check n p with
                  | (inl r, p') => Some (LRet n r, mkPS p' Idle)
                  | (inr ph, p') => Some (LTau, mkPS p' ph)
                  end
  | WaitReceiver n => Some (LTau, mkPS p (Checking n))
  | TakeReceiver n => match read_take n p with
                      | (inl r, p') => Some (LRet n r, mkPS p' Idle)
                      | (inr ph, p') => Some (LTau, mkPS p' ph)
                      end
  | WaitData n => match recv p with Some (res, p') => Some (LTau, mkPS p' (GotEvent n res)) | None => None end
  | GotEvent n res => let '(r, p') := read_finish n res p in Some (LRet n r, mkPS p' Idle)
  end.

Lemma reader_next_step n ps l ps' : reader_next n ps = Some (l, ps') → pstep ps l ps' ∧ reader_label l = true.
Proof.
  destruct ps as [p ph]. unfold reader_next; simpl. destruct ph as [|m|m|m|m|m res]; intros E.
  - simplify_eq. by split; [constructor|].
  - destruct (read_check m p) as [[r|ph] p'] eqn:Ec; simplify_eq; by split; [constructor|].
  - simplify_eq. by split; [constructor|].
  - destruct (read_take m p) as [[r|ph] p'] eqn:Ec; simplify_eq; by split; [constructor|].
  - destruct (recv p) as [[res p']|] eqn:Ec; simplify_eq. by split; [constructor|].
  - destruct (read_finish m res p) as [r p'] eqn:Ec; simplify_eq. by split; [constructor|].
Qed.

Inductive sdo : Type :=
  | DoStart | DoOpen (max : nat) | DoWrite (p : nat) (buf : bytes) | DoClose (p : nat)
  | DoAck (p : nat) (refusal : option bytes) | DoRead (p n : nat).

Definition sdo_exec `{IterOrder, Md5, WriterPeer} (c : sdo) (s : Session) : option (slabel * Session) :=
  match c with
  | DoStart => let '(r, s') := ensure_started s in Some (SStart r, s')
  | DoOpen max =>
      if decide (streams s !! next_sid s = None)
      then let '(r, s') := open_stream max s in Some (SOpen max r, s') else None
  | DoWrite p buf => let '(r, s') := stream_write p buf s in Some (SWrite p buf r, s')
  | DoClose p => let '(r, s') := stream_close p s in Some (SClose p r, s')
  | DoAck p m => let '(r, s') := stream_ack p m s in Some (SAck p m r, s')
  | DoRead p n =>
      match heap s !! p with
      | Some st =>
          match reader_next n (st_pipe st) with
          | Some (l, ps) => Some (SRead p l, update_stream p (fun st => mkStream (id st) ps (st_closed st)) s)
          | None => None
          end
      | None => None
      end
  end.

Lemma sdo_exec_step `{IterOrder, Md5, WriterPeer} c s l s' : sdo_exec c s = Some (l, s') → sstep s l s'.
Proof.
  destruct c as [|max|p buf|p|p m|p n]; simpl; intros E.
  - destruct (ensure_started s) eqn:E'. simplify_eq. by constructor.
  - case_decide; [|done]. destruct (open_stream max s) eqn:E'. simplify_eq. by constructor.
  - destruct (stream_write p buf s) eqn:E'. simplify_eq. by constructor.
  - destruct (stream_close p s) eqn:E'. simplify_eq. by constructor.
  - destruct (stream_ack p m s) eqn:E'. simplify_eq. by constructor.
  - destruct (heap s !! p) as [st|] eqn:Hp; [|done]. destruct (reader_next n (st_pipe st)) as [[l' ps]|] eqn:Er; [|done].
    simplify_eq. apply reader_next_step in Er as [Hs Hl]. by econstructor.
Qed.

Inductive cdo : Type := OnClient (c : sdo) | OnServer (c : sdo) | Upward | Downward.

Section executing.
  Context {O : IterOrder} {M : Md5} (Wc Ws : WriterPeer).

Definition cdo_exec (c : cdo) (x : Conn) : option (clabel * Conn) :=
  match c with
  | OnClient c =>
      match sdo_exec (H1 := Wc) c (cl x) with
      | Some (l, c') => if client_label l then Some (CClient l, mkConn c' (sv x) (up x) (down x)) else None
      | None => None
      end
  | OnServer c =>
      match sdo_exec (H1 := Ws) c (sv x) with
      | Some (l, s') => if server_label l then Some (CServer l, mkConn (cl x) s' (up x) (down x)) else None
      | None => None
      end
  | Upward =>
      match tx (cl x) !! up x with
      | Some f => let '(r, s') := handle_frame (H1 := Ws) f (sv x) in Some (CUp f r, mkConn (cl x) s' (S (up x)) (down x))
      | None => None
      end
  | Downward =>
      match tx (sv x) !! down x with
      | Some f => let '(r, c') := handle_frame (H1 := Wc) f (cl x) in Some (CDown f r, mkConn c' (sv x) (up x) (S (down x)))
      | None => None
      end
  end.

Lemma cdo_exec_step c x l x' : cdo_exec c x = Some (l, x') → cstep Wc Ws x l x'.
Proof.
  destruct c as [c|c| |]; simpl; intros E.
  - destruct (sdo_exec c (cl x)) as [[l' c']|] eqn:E'; [|done]. destruct (client_label l') eqn:El; [|done].
    simplify_eq. constructor; [done|by eapply sdo_exec_step].
  - destruct (sdo_exec c (sv x)) as [[l' c']|] eqn:E'; [|done]. destruct (server_label l') eqn:El; [|done].
    simplify_eq. constructor; [done|by eapply sdo_exec_step].
  - destruct (tx (cl x) !! up x) as [f|] eqn:Hf; [|done]. destruct (handle_frame f (sv x)) eqn:E'. simplify_eq. by constructor.
  - destruct (tx (sv x) !! down x) as [f|] eqn:Hf; [|done]. destruct (handle_frame f (cl x)) eqn:E'. simplify_eq. by constructor.
Qed.

(** Commands that cannot be executed are skipped. *)
Fixpoint conn_exec (cs : list cdo) (tr : list (Conn * clabel)) (x : Conn) : list (Conn * clabel) * Conn :=
  match cs with
  | [] => (tr, x)
  | c :: cs' =>
      match cdo_exec c x with
      | Some (l, x') => conn_exec cs' (tr ++ [(x, l)]) x'
      | None => conn_exec cs' tr x
      end
  end.

Lemma conn_exec_runs cs x0 tr x : cruns Wc Ws x0 tr x → cruns Wc Ws x0 (conn_exec cs tr x).1 (conn_exec cs tr x).2.
Proof.
  revert tr x. induction cs as [|c cs IH]; intros tr x Hr; [done|]. simpl.
  destruct (cdo_exec c x) as [[l x']|] eqn:E; [|by apply IH]. apply IH. econstructor; [done|by eapply cdo_exec_step].
Qed.
End executing.

(** A client opens two streams, writes to the first in two pieces and closes it;
    the server answers, reads and writes back. *)
Definition conn_commands : list cdo :=
  [OnClient DoStart; OnClient (DoOpen 4); OnClient (DoWrite 0 (str "hel")); OnClient (DoOpen 4);
   Upward; Upward; OnClient (DoWrite 1 (str "other")); Upward; OnServer (DoAck 0 None)] ++
  replicate 5 (OnServer (DoRead 0 2)) ++
  [OnServer (DoWrite 0 (str "answer")); Downward; Downward; OnClient (DoWrite 0 (str "lo")); Downward] ++
  replicate 5 (OnClient (DoRead 0 16)) ++
  [Upward; Upward; Upward; OnClient (DoWrite 0 (str "!"))].

Definition conn_demo : list (Conn * clabel) * Conn :=
  conn_exec (O := map_order) (M := toy_md5) good_writer good_writer conn_commands [] (conn_start demo_factory demo_factory).

Lemma conn_demo_runs :
  cruns (O := map_order) (M := toy_md5) good_writer good_writer (conn_start demo_factory demo_factory) conn_demo.1 conn_demo.2.
Proof.
  exact (conn_exec_runs (O := map_order) (M := toy_md5) good_writer good_writer conn_commands _ [] _ (cruns_nil _ _ _)).
Qed.

Lemma conn_demo_ids : ids_left conn_demo.1.
Proof. apply (bool_decide_unpack _). vm_compute. exact I. Qed.

Lemma conn_demo_undisturbed :
  Forall (undisturbed 0) (server_trace conn_demo.1) ∧ Forall (undisturbed 0) (client_trace conn_demo.1) ∧
  Forall (fun y => no_refusal y.2) (server_trace conn_demo.1).
Proof. split_and!; apply (bool_decide_unpack _); vm_compute; exact I. Qed.



Lemma wire_cut_anywhere_witness :
  let wire := concat (sent (H0 := counter_rng) (writer_task (H0 := counter_rng) (H1 := good_transport) small_queue
                (WState_new (H0 := counter_rng) true 3%Z)).2) in
  ∃ k, recv_loop (H := map_order) (H0 := toy_md5) (H1 := good_writer) (Ok <$> [take 10 wire]) [] demo_server =
    match io_iter (handle_frame (H := map_order) (H0 := toy_md5) (H1 := good_writer))
            (take k (queue_frames small_queue)) demo_server with
    | (Ok _, s') => (None, s')
    | (Err e, s') => (Some e, s')
    end.
Proof.
  intros wire.
  apply (wire_cut_anywhere map_order toy_md5 counter_rng good_transport good_writer true 3%Z small_queue).
  - by split.
  - eapply Forall_impl; [apply small_queue_ok|]. naive_solver.
  - cbn [concat]. rewrite app_nil_r. apply prefix_take.
  - repeat constructor; by vm_compute.
  - done.
Defined.
