(* ===== verification/Client.v ===== *)
(** * The client's session pool ([src/proxy/session/client.rs])

    A client keeps the sessions it dialled ([active_sessions]) and, among them,
    those that went idle ([IdleSessionPool]), and opens each stream on a reused,
    an active or a new session.  Both maps are [IndexMap]s: association lists in
    insertion order, from which an entry is removed by moving the last entry
    into its place.  Sessions are shared ([Arc<Session>]) and live on a heap. *)

From S2P Require Import Prelude RustStr StringMap Frame Padding Engine Pipe Writer Session.
From Stdlib Require Import Strings.Byte Sorting.Sorted.

(** ** [IndexMap] *)

(** [IndexMap::swap_remove_index]. *)
Definition swap_remove_index {A} (i : nat) (l : list A) : option A * list A :=
  match l !! i, last l with
  | Some x, Some y => (Some x, take (length l - 1) (<[i := y]> l))
  | _, _ => (None, l)
  end.

Definition key_index {A} (k : Z) (l : list (Z * A)) : option nat :=
  fst <$> list_find (fun kv => kv.1 = k) l.

(** [IndexMap::contains_key], [insert] and [swap_remove]. *)
Definition contains_key {A} (k : Z) (l : list (Z * A)) : bool :=
  bool_decide (k ∈ l.*1).
Definition im_insert {A} (k : Z) (v : A) (l : list (Z * A)) : list (Z * A) :=
  match key_index k l with
  | Some i => <[i := (k, v)]> l
  | None => l ++ [(k, v)]
  end.
Definition swap_remove {A} (k : Z) (l : list (Z * A)) : list (Z * A) :=
  match key_index k l with
  | Some i => (swap_remove_index i l).2
  | None => l
  end.

(** ** State *)

(** Where the task of [spawn_idle_return_task] stands. *)
Inductive WaiterPhase : Type := WStart | WWait | WReturn | WDone.

Record Waiter : Type := mkWaiter { w_session : nat; w_seq : Z; w_phase : WaiterPhase }.

(** [Client].  [sessions] is the heap of sessions, [dials] counts the calls of
    [dial_out], [now] is the monotonic clock, [waiters] the idle-return tasks. *)
Record Client : Type := mkClient {
  sessions : list Session;
  active_sessions : list (Z * nat);
  idle_sessions : list (Z * (nat * Z));
  session_seq_number : Z;
  closed_flag : bool;
  cleanup_running : bool;
  client_padding : PaddingFactory;
  idle_session_timeout : Z;
  min_idle_sessions : nat;
  max_streams_per_session : nat;
  dials : nat;
  waiters : list Waiter;
  now : Z;
}.

(** [Client::new]. *)
Definition Client_new (padding : PaddingFactory) (timeout : Z) (min_idle max_streams : nat) : Client :=
  mkClient [] [] [] 0 false true padding timeout min_idle (max_streams `max` 1) 0 [] 0.

Definition set_sessions (l : list Session) (c : Client) : Client :=
  mkClient l (active_sessions c) (idle_sessions c) (session_seq_number c) (closed_flag c) (cleanup_running c)
    (client_padding c) (idle_session_timeout c) (min_idle_sessions c) (max_streams_per_session c) (dials c) (waiters c) (now c).
Definition set_active (l : list (Z * nat)) (c : Client) : Client :=
  mkClient (sessions c) l (idle_sessions c) (session_seq_number c) (closed_flag c) (cleanup_running c)
    (client_padding c) (idle_session_timeout c) (min_idle_sessions c) (max_streams_per_session c) (dials c) (waiters c) (now c).
Definition set_idle_sessions (l : list (Z * (nat * Z))) (c : Client) : Client :=
  mkClient (sessions c) (active_sessions c) l (session_seq_number c) (closed_flag c) (cleanup_running c)
    (client_padding c) (idle_session_timeout c) (min_idle_sessions c) (max_streams_per_session c) (dials c) (waiters c) (now c).
Definition set_seq (n : Z) (c : Client) : Client :=
  mkClient (sessions c) (active_sessions c) (idle_sessions c) n (closed_flag c) (cleanup_running c)
    (client_padding c) (idle_session_timeout c) (min_idle_sessions c) (max_streams_per_session c) (dials c) (waiters c) (now c).
Definition set_client_closed (c : Client) : Client :=
  mkClient (sessions c) (active_sessions c) (idle_sessions c) (session_seq_number c) true false
    (client_padding c) (idle_session_timeout c) (min_idle_sessions c) (max_streams_per_session c) (dials c) (waiters c) (now c).
Definition count_dial (c : Client) : Client :=
  mkClient (sessions c) (active_sessions c) (idle_sessions c) (session_seq_number c) (closed_flag c) (cleanup_running c)
    (client_padding c) (idle_session_timeout c) (min_idle_sessions c) (max_streams_per_session c) (S (dials c)) (waiters c) (now c).
Definition set_waiters (l : list Waiter) (c : Client) : Client :=
  mkClient (sessions c) (active_sessions c) (idle_sessions c) (session_seq_number c) (closed_flag c) (cleanup_running c)
    (client_padding c) (idle_session_timeout c) (min_idle_sessions c) (max_streams_per_session c) (dials c) l (now c).

(** Run an operation on one session. *)
Definition update_session (p : nat) (f : Session → Session) (c : Client) : Client :=
  set_sessions (alter f p (sessions c)) c.

Definition session_terminated (c : Client) (p : nat) : bool :=
  default true (is_terminated <$> sessions c !! p).
Definition session_stream_open (c : Client) (p : nat) : bool :=
  default false (is_stream_open <$> sessions c !! p).

(** [idle_since.elapsed()], [now.duration_since(idle_since)]. *)
Definition elapsed (c : Client) (since : Z) : Z := Z.max 0 (now c - since).

Definition client_closed : io_error := IoError BrokenPipe (str "Client closed").

(** ** [IdleSessionPool] *)

(** [take_reusable].  Each round removes an entry, so as many rounds as there
    are entries are enough. *)
Fixpoint take_reusable_go (fuel : nat) (timeout : Z) (min_idle : nat) (c : Client)
  : option (nat * Z) * Client :=
  match fuel with
  | O => (None, c)
  | S n =>
      let idle := idle_sessions c in
      if decide (idle = []) then (None, c)
      else
        let last_index := length idle - 1 in
        let protected := length idle <=? min_idle in
        match swap_remove_index last_index idle with
        | (None, _) => (None, c)
        | (Some (seq, (session, idle_since)), idle') =>
            let c1 := set_idle_sessions idle' c in
            if session_terminated c1 session then take_reusable_go n timeout min_idle c1
            else if negb protected && (timeout <=? elapsed c1 idle_since)%Z then
              take_reusable_go n timeout min_idle (update_session session terminate c1)
            else (Some (session, seq), c1)
        end
  end.

Definition take_reusable (c : Client) : option (nat * Z) * Client :=
  take_reusable_go (S (length (idle_sessions c))) (idle_session_timeout c) (min_idle_sessions c) c.

(** [return_session]. *)
Definition return_session (seq : Z) (session : nat) (c : Client) : Client :=
  if contains_key seq (idle_sessions c) then c
  else set_idle_sessions (im_insert seq (session, now c) (idle_sessions c)) c.

(** The scan of [cleanup_stale]: the indices of the entries that timed out. *)
Definition stale (timeout : Z) (c : Client) (e : Z * (nat * Z)) : bool :=
  (timeout <=? elapsed c e.2.2)%Z.
Definition stale_at (timeout : Z) (c : Client) (i : nat) : bool :=
  default false (stale timeout c <$> idle_sessions c !! i).
Definition timed_out_indices (timeout : Z) (c : Client) : list nat :=
  filter (fun i => stale_at timeout c i = true) (seq 0 (length (idle_sessions c))).

(** Remove the entries at these indices, one after the other; the sessions
    removed, in order. *)
Fixpoint remove_indices (idxs : list nat) (l : list (Z * (nat * Z))) : list nat * list (Z * (nat * Z)) :=
  match idxs with
  | [] => ([], l)
  | i :: idxs' =>
      let '(o, l1) := swap_remove_index i l in
      let '(ps, l2) := remove_indices idxs' l1 in
      (match o with Some (_, (session, _)) => session :: ps | None => ps end, l2)
  end.

Definition terminate_all (ps : list nat) (c : Client) : Client :=
  foldl (fun c p => update_session p terminate c) c ps.

(** [cleanup_stale]. *)
Definition cleanup_stale (timeout : Z) (min_idle : nat) (c : Client) : Client :=
  let idle := idle_sessions c in
  if length idle <=? min_idle then c
  else
    let timed_out := timed_out_indices timeout c in
    if decide (timed_out = []) then c
    else
      let max_removable := length idle - min_idle in
      let remove_count := max_removable `min` length timed_out in
      let '(ps, idle') := remove_indices (reverse (take remove_count timed_out)) idle in
      terminate_all ps (set_idle_sessions idle' c).

(** [drain]. *)
Definition drain_pool (c : Client) : list nat * Client :=
  ((fun x => x.2.1) <$> idle_sessions c, set_idle_sessions [] c).

(** ** Lemmas on index maps *)

Lemma swap_remove_index_ok {A} i (l : list A) x :
  l !! i = Some x →
  ∃ l', swap_remove_index i l = (Some x, l') ∧ l ≡ₚ x :: l' ∧ length l = S (length l') ∧
        ∀ j, j < i → l' !! j = l !! j.
Proof.
  intros Hi. unfold swap_remove_index. rewrite Hi.
  destruct (last l) as [y|] eqn:Hy; [|by apply last_None in Hy; subst].
  apply last_Some in Hy as [k ->]. eexists. split; [reflexivity|].
  rewrite length_app; simpl. replace (length k + 1 - 1) with (length k) by lia.
  destruct (decide (i < length k)) as [Hlt|Hge].
  - rewrite insert_app_l, take_app_length' by (rewrite ?length_insert; lia).
    rewrite lookup_app_l in Hi by done. split_and!.
    + assert (k ≡ₚ x :: delete i k) as Hk by (by apply delete_Permutation).
      assert (<[i:=y]> k ≡ₚ y :: delete i k) as Hk'.
      { rewrite (delete_Permutation (<[i:=y]> k) i y) by by apply list_lookup_insert_eq.
        f_equiv. rewrite !delete_take_drop, take_insert_ge, drop_insert_lt by lia. done. }
      rewrite Hk', Hk at 1. rewrite <- (Permutation_cons_append _ y). simpl. constructor.
    + rewrite length_insert. lia.
    + intros j Hj. rewrite list_lookup_insert_ne, lookup_app_l by lia. done.
  - apply lookup_app_Some in Hi as [Hi|[_ Hi]]; [by apply lookup_lt_Some in Hi|].
    apply list_lookup_singleton_Some in Hi as [Hz <-]. assert (i = length k) as -> by lia.
    rewrite list_insert_id by (by rewrite lookup_app_r, Nat.sub_diag by lia).
    rewrite take_app_length. split_and!; [|lia|].
    + symmetry. apply Permutation_cons_append.
    + intros j Hj. by rewrite lookup_app_l by lia.
Qed.

Lemma swap_remove_last {A} (l : list A) x :
  swap_remove_index (length (l ++ [x]) - 1) (l ++ [x]) = (Some x, l).
Proof.
  unfold swap_remove_index. rewrite last_snoc, length_app; simpl.
  replace (length l + 1 - 1) with (length l) by lia.
  rewrite lookup_app_r, Nat.sub_diag by lia. simpl. f_equal.
  rewrite list_insert_id by (by rewrite lookup_app_r, Nat.sub_diag by lia). apply take_app_length.
Qed.

(** Removing entries from the highest index down takes out exactly those. *)
Lemma remove_indices_ok idxs l :
  StronglySorted (fun i j => j < i) idxs → Forall (fun i => i < length l) idxs →
  ∃ es, Forall2 (fun i e => l !! i = Some e) idxs es ∧
        (remove_indices idxs l).1 = ((fun e => e.2.1) <$> es) ∧
        l ≡ₚ es ++ (remove_indices idxs l).2.
Proof.
  intros Hs. revert l. induction Hs as [|i idxs Hs IH Hlt]; intros l Hl.
  { exists []. split_and!; [constructor|done|done]. }
  inversion Hl as [|? ? Hi Hl']; subst. apply lookup_lt_is_Some_2 in Hi as [e He].
  destruct (swap_remove_index_ok i l e He) as (l' & E & Hperm & Hlen & Hpre). simpl. rewrite E.
  destruct (IH l') as (es & HF & H1 & H2).
  { eapply Forall_impl; [exact Hlt|]. simpl. apply lookup_lt_Some in He. lia. }
  destruct (remove_indices idxs l') as [ps l2]. simpl in *. exists (e :: es). destruct e as [k [p t]]. split_and!.
  - constructor; [done|]. clear -HF Hlt Hpre. induction HF as [|j e' idxs es Hj HF IH]; constructor.
    + inversion Hlt; subst. by rewrite <- Hpre.
    + apply IH. by inversion Hlt.
  - simpl. by rewrite H1.
  - rewrite Hperm. simpl. by rewrite H2.
Qed.

Section client.
  (** The writer task of each session, and the outcome of each dial. *)
  Context `{IterOrder, Md5} (peer : nat → WriterPeer) (dial_out : nat → option io_error).

(** [create_session]. *)
Definition create_session : ioM Client (nat * Z) := fun c =>
  match dial_out (dials c) with
  | Some e => (Err e, count_dial c)
  | None =>
      let c := count_dial c in
      let p := length (sessions c) in
      let '(r, s) := ensure_started (H1 := peer p) (new_client_session (client_padding c)) in
      let c1 := set_sessions (sessions c ++ [s]) c in
      match r with
      | Err e => (Err e, c1)
      | Ok _ =>
          if closed_flag c1 then (Err client_closed, update_session p terminate c1)
          else
            let seq := session_seq_number c1 in
            let c2 := set_seq (wrap 64 (seq + 1)) c1 in
            (Ok (p, seq), set_active (im_insert seq p (active_sessions c2)) c2)
      end
  end.

(** The scan over the active sessions in [find_or_create_session]. *)
Definition active_with_capacity (c : Client) : option (Z * nat) :=
  snd <$> list_find (fun e => negb (session_terminated c e.2) = true ∧
      default false ((fun s => has_stream_capacity s (max_streams_per_session c)) <$> sessions c !! e.2) = true)
    (active_sessions c).

(** [find_or_create_session]. *)
Definition find_or_create_session : ioM Client (nat * Z) := fun c =>
  if closed_flag c then (Err client_closed, c)
  else
    match take_reusable c with
    | (Some found, c1) => (Ok found, c1)
    | (None, c1) =>
        match active_with_capacity c1 with
        | Some (seq, p) => (Ok (p, seq), c1)
        | None => if closed_flag c1 then (Err client_closed, c1) else create_session c1
        end
    end.

(** The three attempts of [create_stream]; the result is the session and the
    stream object on it. *)
Fixpoint create_attempts (n : nat) (last_error : option io_error) : ioM Client (nat * nat) := fun c =>
  match n with
  | O => (Err (default (err_other (str "Failed to create stream")) last_error), c)
  | S n' =>
      if closed_flag c then (Err client_closed, c)
      else
        match find_or_create_session c with
        | (Err e, c1) => (Err e, c1)
        | (Ok (p, seq), c1) =>
            match sessions c1 !! p with
            | None => (Err client_closed, c1)   (* a handle is never dangling *)
            | Some s =>
                let '(r, s') := open_stream (H1 := peer p) (max_streams_per_session c1) s in
                let c2 := set_sessions (<[p := s']> (sessions c1)) c1 in
                match r with
                | Ok stream => (Ok (p, stream), set_waiters (waiters c2 ++ [mkWaiter p seq WStart]) c2)
                | Err e =>
                    if decide (err_kind e = WouldBlock) then create_attempts n' (Some e) c2
                    else create_attempts n' (Some e) (update_session p terminate c2)
                end
            end
        end
  end.

(** [create_stream]. *)
Definition create_stream : ioM Client (nat * nat) := fun c =>
  if closed_flag c then (Err client_closed, c) else create_attempts 3 None c.

(** One step of an idle-return task: [None] while [wait_for_idle] blocks. *)
Definition waiter_step (w : Waiter) (c : Client) : option (Waiter * Client) :=
  let at_phase := fun ph => mkWaiter (w_session w) (w_seq w) ph in
  match w_phase w with
  | WStart =>
      if session_terminated c (w_session w) then Some (at_phase WDone, c)
      else if session_stream_open c (w_session w) then Some (at_phase WWait, c)
      else Some (at_phase WReturn, c)
  | WWait =>
      if default true (idle_state <$> sessions c !! w_session w) || session_terminated c (w_session w) then
        if session_terminated c (w_session w) then Some (at_phase WDone, c)
        else if session_stream_open c (w_session w) then Some (at_phase WDone, c)
        else Some (at_phase WReturn, c)
      else None
  | WReturn => Some (at_phase WDone, return_session (w_seq w) (w_session w) c)
  | WDone => None
  end.

(** The end of the task that runs a session. *)
Definition session_ended (seq : Z) (c : Client) : Client :=
  set_active (swap_remove seq (active_sessions c)) c.

(** [Client::close]. *)
Definition client_close (c : Client) : Client :=
  if closed_flag c then c
  else
    let c1 := set_client_closed c in
    let ps := (active_sessions c1).*2 in
    let '(qs, c2) := drain_pool (set_active [] c1) in
    terminate_all (ps ++ qs) c2.
End client.

(** ** Ending sessions *)

Lemma close_from_peer_flag p e s : s_closed (close_from_peer p e s) = s_closed s.
Proof. by rewrite close_from_peer_eq. Qed.

Lemma terminate_flag s : s_closed (terminate s) = true.
Proof.
  unfold terminate. destruct (s_closed s) eqn:Hc; [done|].
  generalize (map_to_list (streams s)).*2. intros ps.
  assert (∀ t, s_closed t = true → s_closed (foldl (fun s p => close_from_peer p None s) t ps) = true) as Hf.
  { induction ps as [|p ps IH]; intros t Ht; simpl; [done|]. apply IH. by rewrite close_from_peer_flag. }
  by apply Hf.
Qed.

Lemma terminate_idem s : terminate (terminate s) = terminate s.
Proof. unfold terminate at 1. by rewrite terminate_flag. Qed.

Lemma terminate_is_terminated s : is_terminated (terminate s) = true.
Proof. unfold is_terminated. by rewrite terminate_flag. Qed.

Lemma terminate_all_lookup ps c q :
  sessions (terminate_all ps c) !! q =
    if bool_decide (q ∈ ps) then terminate <$> sessions c !! q else sessions c !! q.
Proof.
  unfold terminate_all. revert c. induction ps as [|p ps IH]; intros c; [done|].
  cbn [foldl]. rewrite IH. simpl. destruct (decide (q = p)) as [->|Hne].
  - rewrite list_lookup_alter_eq. rewrite (bool_decide_eq_true_2 (p ∈ p :: ps)) by set_solver.
    case_bool_decide; [|done]. destruct (sessions c !! p); simpl; [by rewrite terminate_idem|done].
  - rewrite list_lookup_alter_ne by done. by rewrite (bool_decide_ext (q ∈ p :: ps) (q ∈ ps)) by set_solver.
Qed.

Lemma terminate_all_rest ps c :
  active_sessions (terminate_all ps c) = active_sessions c ∧
  idle_sessions (terminate_all ps c) = idle_sessions c ∧
  closed_flag (terminate_all ps c) = closed_flag c.
Proof. unfold terminate_all. revert c. induction ps as [|p ps IH]; intros c; [done|]. apply (IH (update_session p terminate c)). Qed.

(** *** The entries the scan selects *)

Lemma ssorted_snoc {A} (R : A → A → Prop) l x :
  StronglySorted R l → Forall (fun y => R y x) l → StronglySorted R (l ++ [x]).
Proof.
  induction 1 as [|y l Hs IH Hy]; intros Hx; simpl; [by repeat constructor|].
  inversion Hx; subst. constructor; [auto|]. apply Forall_app. by split; [|constructor].
Qed.

Lemma ssorted_reverse (l : list nat) :
  StronglySorted lt l → StronglySorted (fun i j => j < i) (reverse l).
Proof.
  induction 1 as [|x l Hs IH Hx]; [constructor|]. rewrite reverse_cons.
  apply ssorted_snoc; [done|]. by apply Forall_reverse.
Qed.

Lemma ssorted_filter_seq (P : nat → Prop) `{∀ i, Decision (P i)} a n :
  StronglySorted lt (filter P (seq a n)).
Proof.
  revert a. induction n as [|n IH]; intros a; [constructor|]. cbn [seq].
  assert (Forall (lt a) (filter P (seq (S a) n))).
  { apply Forall_forall. intros i [_ Hi]%list_elem_of_filter. apply elem_of_seq in Hi. lia. }
  rewrite filter_cons. case_decide; [by constructor|done].
Qed.

Lemma ssorted_take {A} (R : A → A → Prop) k l : StronglySorted R l → StronglySorted R (take k l).
Proof.
  intros Hs. revert k. induction Hs as [|x l Hs IH Hx]; intros [|k]; simpl; [constructor..|].
  constructor; [auto|by apply Forall_take].
Qed.

Lemma stale_count timeout c :
  length (timed_out_indices timeout c) = length (filter (fun e => stale timeout c e = true) (idle_sessions c)).
Proof.
  unfold timed_out_indices, stale_at. generalize (idle_sessions c). intros l.
  assert (∀ (pre : list (Z * (nat * Z))) l, length (filter (fun i => default false (stale timeout c <$> (pre ++ l) !! i) = true)
      (seq (length pre) (length l))) = length (filter (fun e => stale timeout c e = true) l)) as Hg.
  { clear l. intros pre l. revert pre. induction l as [|e l IH]; intros pre; [done|]. cbn [length seq].
    specialize (IH (pre ++ [e])). rewrite length_app, <- app_assoc in IH. simpl in IH.
    rewrite Nat.add_1_r in IH. rewrite !filter_cons, lookup_app_r, Nat.sub_diag by lia. simpl.
    destruct (decide (stale timeout c e = true)); simpl; by rewrite IH. }
  apply (Hg []).
Qed.

(** ** Properties *)

(** Cleaning up the idle pool removes exactly as many timed-out sessions as
    it may: only entries idle for at least the timeout leave, the pool never
    shrinks below [min_idle], all removable stale entries go, every other entry
    stays, and the sessions ended are exactly the removed ones. *)
Theorem cleanup_stale_exact timeout min_idle c :
  let c' := cleanup_stale timeout min_idle c in
  let stales := filter (fun e => stale timeout c e = true) (idle_sessions c) in
  ∃ removed,
    idle_sessions c ≡ₚ removed ++ idle_sessions c' ∧
    Forall (fun e => stale timeout c e = true) removed ∧
    length removed = (length (idle_sessions c) - min_idle) `min` length stales ∧
    (∀ p, sessions c' !! p = if bool_decide (p ∈ (fun e => e.2.1) <$> removed)
                             then terminate <$> sessions c !! p else sessions c !! p) ∧
    active_sessions c' = active_sessions c.
Proof.
  cbn zeta. rewrite <- stale_count. unfold cleanup_stale.
  destruct (Nat.leb_spec (length (idle_sessions c)) min_idle) as [Hle|Hgt].
  { exists []. split_and!; [done|constructor|simpl; lia|done|done]. }
  case_decide as Ht. { exists []. rewrite Ht. split_and!; [done|constructor|simpl; lia|done|done]. }
  set (n := _ `min` _). set (idx := take n (timed_out_indices timeout c)).
  assert (Forall (fun i => i < length (idle_sessions c) ∧ stale_at timeout c i = true) idx) as Hidx.
  { apply Forall_take, Forall_forall. intros i [Hs Hi]%list_elem_of_filter. apply elem_of_seq in Hi. split; [lia|done]. }
  destruct (remove_indices_ok (reverse idx) (idle_sessions c)) as (es & HF & H1 & H2).
  { apply ssorted_reverse, ssorted_take, ssorted_filter_seq. }
  { apply Forall_reverse. eapply Forall_impl; [exact Hidx|]. by intros i [? _]. }
  destruct (remove_indices (reverse idx) (idle_sessions c)) as [ps l']; simpl in H1, H2. subst ps.
  destruct (terminate_all_rest ((fun e => e.2.1) <$> es) (set_idle_sessions l' c)) as (E1 & E2 & _).
  exists es. rewrite E1, E2. split_and!; [done| | |intros p; apply (terminate_all_lookup _ (set_idle_sessions l' c))|done].
  - apply Forall_reverse in Hidx. clear -HF Hidx. revert Hidx. induction HF as [|i e is' es Hi HF IH]; intros Hidx; [constructor|].
    apply Forall_cons in Hidx as [[_ Hs] Hidx]. constructor; [|auto].
    unfold stale_at in Hs. by rewrite Hi in Hs.
  - apply Forall2_length in HF. rewrite <- HF, length_reverse. unfold idx. rewrite length_take. lia.
Qed.

(** What [take_reusable] did to the entries it passed over: their sessions are
    ended, and they were either ended before or stale. *)
Definition dropped_ok (timeout : Z) (c c' : Client) (e : Z * (nat * Z)) : Prop :=
  session_terminated c' e.2.1 = true ∧
  (session_terminated c e.2.1 = true ∨
   ∃ e', e' ∈ idle_sessions c ∧ e'.2.1 = e.2.1 ∧ stale timeout c e' = true).

Lemma session_terminated_mono p q c :
  session_terminated c q = true → session_terminated (update_session p terminate c) q = true.
Proof.
  unfold session_terminated; simpl. destruct (decide (q = p)) as [->|Hne].
  - rewrite list_lookup_alter_eq. destruct (sessions c !! p); simpl; [|done]. intros _. apply terminate_is_terminated.
  - by rewrite list_lookup_alter_ne.
Qed.

Lemma session_terminated_now p c : session_terminated (update_session p terminate c) p = true.
Proof.
  unfold session_terminated; simpl. rewrite list_lookup_alter_eq.
  destruct (sessions c !! p); simpl; [apply terminate_is_terminated|done].
Qed.

(** The outcome of a search over the entries [l], from [c] to [c']. *)
Definition take_post (timeout : Z) (min_idle : nat) (c c' : Client) (l : list (Z * (nat * Z)))
    (r : option (nat * Z)) : Prop :=
  (∀ q, session_terminated c q = true → session_terminated c' q = true) ∧
  now c' = now c ∧ active_sessions c' = active_sessions c ∧ closed_flag c' = closed_flag c ∧
  match r with
  | Some (p, seq) =>
      ∃ since dropped, l = idle_sessions c' ++ (seq, (p, since)) :: dropped ∧
        session_terminated c' p = false ∧
        (length (idle_sessions c') < min_idle ∨ (elapsed c since < timeout)%Z) ∧
        Forall (dropped_ok timeout c c') dropped
  | None => idle_sessions c' = [] ∧ Forall (dropped_ok timeout c c') l
  end.

(** Passing over the last entry, whose session is ended or becomes so. *)
Lemma take_post_skip timeout min_idle c c2 c' l e r :
  idle_sessions c = l ++ [e] → idle_sessions c2 = l → now c2 = now c →
  active_sessions c2 = active_sessions c → closed_flag c2 = closed_flag c →
  (∀ q, session_terminated c q = true → session_terminated c2 q = true) →
  session_terminated c2 e.2.1 = true →
  (∀ q, session_terminated c2 q = true →
     session_terminated c q = true ∨ q = e.2.1 ∧ stale timeout c e = true) →
  take_post timeout min_idle c2 c' l r → take_post timeout min_idle c c' (l ++ [e]) r.
Proof.
  intros El Hl Hnow Hact Hcl Hmono Hp Hback (I1 & I2 & I3 & I4 & I5).
  assert (∀ x, stale timeout c2 x = stale timeout c x) as Hst by (intros x; unfold stale, elapsed; by rewrite Hnow).
  assert (∀ x, x ∈ l → dropped_ok timeout c2 c' x → dropped_ok timeout c c' x) as Hd.
  { intros x Hin [D1 D2]. split; [done|]. destruct D2 as [[?|[-> ?]]%Hback|(y & Hy & Hs & ?)].
    - by left.
    - right. exists e. rewrite El. split_and!; [set_solver|done..].
    - right. exists y. rewrite El, <- Hst. rewrite Hl in Hy. split_and!; [set_solver|done..]. }
  assert (dropped_ok timeout c c' e) as Hlast.
  { split; [by apply I1|]. destruct (Hback _ Hp) as [?|[_ ?]]; [by left|right]. exists e.
    rewrite El. split_and!; [set_solver|done..]. }
  split_and!; [auto|congruence..|]. destruct r as [[p' seq']|].
  - destruct I5 as (since' & dropped & -> & J1 & J2 & J3). exists since', (dropped ++ [e]).
    rewrite <- app_assoc. unfold elapsed in *. rewrite Hnow in J2. split_and!; [done..|].
    apply Forall_app. split; [|by constructor]. rewrite Forall_forall in *. intros x Hin.
    apply Hd; [set_solver|auto].
  - destruct I5 as [J1 J2]. split; [done|]. apply Forall_app. split; [|by constructor].
    rewrite Forall_forall in *. intros x Hin. apply Hd; auto.
Qed.

Lemma take_reusable_go_spec fuel timeout min_idle c :
  length (idle_sessions c) < fuel →
  let '(r, c') := take_reusable_go fuel timeout min_idle c in
  take_post timeout min_idle c c' (idle_sessions c) r.
Proof.
  revert c. induction fuel as [|n IH]; intros c Hf; [lia|]. cbn [take_reusable_go].
  case_decide as He; [unfold take_post; split_and!; try done; by rewrite He|].
  destruct (exists_last He) as (l & [seq [p since]] & El). rewrite El, swap_remove_last.
  rewrite El, length_app in Hf. simpl in Hf. set (c1 := set_idle_sessions l c).
  destruct (session_terminated c1 p) eqn:Ht.
  { specialize (IH c1 ltac:(simpl; lia)). destruct (take_reusable_go n _ _ c1) as [r c'].
    apply (take_post_skip _ _ c c1); try done. by left. }
  destruct (negb _ && _) eqn:Hs.
  { apply andb_true_iff in Hs as [_ Hs]. set (c2 := update_session p terminate c1).
    specialize (IH c2 ltac:(simpl; lia)). destruct (take_reusable_go n _ _ c2) as [r c'].
    apply (take_post_skip _ _ c c2); try done.
    - intros q Hq. by apply (session_terminated_mono p q c1).
    - apply (session_terminated_now p c1).
    - intros q Hq. destruct (decide (q = p)) as [->|Hne]; [by right|left].
      revert Hq. unfold session_terminated; simpl. by rewrite list_lookup_alter_ne. }
  unfold take_post. split_and!; try done. exists since, []. split_and!; [done|done| |constructor].
  apply andb_false_iff in Hs as [Hs|Hs].
  - left. apply negb_false_iff, Nat.leb_le in Hs. rewrite length_app in Hs. simpl in *. lia.
  - right. by apply Z.leb_gt in Hs.
Qed.

Lemma take_reusable_go_frame fuel timeout min_idle c :
  let c' := (take_reusable_go fuel timeout min_idle c).2 in
  dials c' = dials c ∧ max_streams_per_session c' = max_streams_per_session c ∧
  length (sessions c') = length (sessions c).
Proof.
  revert c. induction fuel as [|n IH]; intros c; [done|]. cbn [take_reusable_go].
  case_decide; [done|]. destruct (swap_remove_index _ _) as [[[seq [p since]]|] idle']; [|done].
  case_match; [apply (IH (set_idle_sessions idle' c))|]. case_match; [|done].
  destruct (IH (update_session p terminate (set_idle_sessions idle' c))) as (-> & -> & ->).
  simpl. by rewrite length_alter.
Qed.

(** Every handle a client holds refers to a session it made. *)
Definition handles_ok (c : Client) : Prop :=
  Forall (fun e => e.2 < length (sessions c)) (active_sessions c) ∧
  Forall (fun e => e.2.1 < length (sessions c)) (idle_sessions c).

Lemma take_reusable_handles c :
  handles_ok c →
  let '(r, c') := take_reusable c in
  handles_ok c' ∧ match r with Some (p, _) => p < length (sessions c') | None => True end.
Proof.
  intros [Ha Hi]. unfold take_reusable.
  pose proof (take_reusable_go_spec (S (length (idle_sessions c))) (idle_session_timeout c) (min_idle_sessions c) c
                ltac:(lia)) as Hs.
  pose proof (take_reusable_go_frame (S (length (idle_sessions c))) (idle_session_timeout c) (min_idle_sessions c) c)
    as (_ & _ & Hlen).
  destruct (take_reusable_go _ _ _ c) as [r c']. simpl in Hlen. destruct Hs as (_ & _ & Hact & _ & Hr).
  unfold handles_ok. rewrite Hlen, Hact. destruct r as [[p seq]|].
  - destruct Hr as (since & dropped & E & _). rewrite E in Hi. apply Forall_app in Hi as [Hi Hp].
    apply Forall_cons in Hp as [Hp _]. by split_and!.
  - destruct Hr as [-> _]. by split_and!.
Qed.

Lemma elem_of_im_insert {A} k (v : A) l e : e ∈ im_insert k v l → e = (k, v) ∨ e ∈ l.
Proof.
  unfold im_insert. destruct (key_index k l) as [i|].
  - intros [j Hj]%list_elem_of_lookup. destruct (decide (i = j)) as [->|Hne].
    + destruct (decide (j < length l)).
      * rewrite list_lookup_insert_eq in Hj by done. left. congruence.
      * rewrite list_insert_ge in Hj by lia. right. by eapply list_elem_of_lookup_2.
    + rewrite list_lookup_insert_ne in Hj by done. right. by eapply list_elem_of_lookup_2.
  - intros [?|?%list_elem_of_singleton]%elem_of_app; auto.
Qed.

Section client_proofs.
  Context `{IterOrder, Md5} (peer : nat → WriterPeer) (dial_out : nat → option io_error).

Abbreviation create_session' := (create_session peer dial_out).

(** What a call that finds or makes a session may do to the client. *)
Definition found_post (c c' : Client) (r : result (nat * Z)) : Prop :=
  dials c' ≤ S (dials c) ∧ max_streams_per_session c' = max_streams_per_session c ∧
  closed_flag c' = closed_flag c ∧ handles_ok c' ∧
  match r with Ok (p, _) => p < length (sessions c') | Err _ => True end.

Lemma create_session_post c :
  handles_ok c → let '(r, c') := create_session' c in found_post c c' r.
Proof.
  intros [Ha Hi]. unfold create_session, found_post. destruct (dial_out (dials c)); [simpl; by split_and!|].
  cbn [sessions count_dial]. destruct (ensure_started _) as [[u|e] s].
  - assert (handles_ok (set_sessions (sessions c ++ [s]) (count_dial c))) as [Ha' Hi'].
    { unfold handles_ok; simpl. rewrite length_app; simpl.
      split; (eapply Forall_impl; [eassumption|simpl; lia]). }
    destruct (closed_flag _) eqn:Hcl; simpl.
    + split_and!; try done. split; simpl; rewrite length_alter; done.
    + split_and!; try done; [|rewrite length_app; simpl; lia]. split; [|done]. simpl.
      apply Forall_forall. intros e [->|He]%elem_of_im_insert; simpl.
      * rewrite length_app; simpl; lia.
      * simpl in Ha'. rewrite Forall_forall in Ha'. by apply Ha'.
  - simpl. split_and!; try done. unfold handles_ok; simpl. rewrite length_app; simpl.
    split; (eapply Forall_impl; [eassumption|simpl; lia]).
Qed.

Lemma find_or_create_post c :
  handles_ok c → let '(r, c') := find_or_create_session peer dial_out c in found_post c c' r.
Proof.
  intros Hh. unfold find_or_create_session. destruct (closed_flag c) eqn:Hcl.
  { unfold found_post. split_and!; try done; lia. }
  pose proof (take_reusable_handles c Hh) as Ht.
  pose proof (take_reusable_go_frame (S (length (idle_sessions c))) (idle_session_timeout c) (min_idle_sessions c) c)
    as (F1 & F2 & F3).
  pose proof (take_reusable_go_spec (S (length (idle_sessions c))) (idle_session_timeout c) (min_idle_sessions c) c
                ltac:(lia)) as Hs.
  fold (take_reusable c) in *. destruct (take_reusable c) as [[[p seq]|] c1]; simpl in *;
    destruct Hs as (_ & _ & _ & F4 & _); destruct Ht as [Ht1 Ht2].
  { unfold found_post. rewrite F1, F2, F4. split_and!; try done; lia. }
  destruct (active_with_capacity c1) as [[seq p]|] eqn:Ea.
  { unfold found_post. rewrite F1, F2, F4. split_and!; try done; [lia|].
    unfold active_with_capacity in Ea. destruct (list_find _ _) as [[i [k q]]|] eqn:El; [|done].
    apply list_find_Some in El as (El & _). simplify_eq/=. destruct Ht1 as [Ha _].
    rewrite Forall_forall in Ha. by apply list_elem_of_lookup_2, Ha in El. }
  rewrite F4, Hcl. pose proof (create_session_post c1 Ht1) as Hc.
  destruct (create_session peer dial_out c1) as [r c']. unfold found_post in *. rewrite F1, F2, F4 in Hc. done.
Qed.

(** A stream just opened: open, registered under its id, within the limit. *)
Definition fresh_stream (max : nat) (c : Client) (p st : nat) : Prop :=
  ∃ s o, sessions c !! p = Some s ∧ heap s !! st = Some o ∧ st_closed o = false ∧
    streams s !! id o = Some st ∧ size (streams s) ≤ max.

Lemma open_stream_fresh {W : WriterPeer} max s st s' :
  open_stream max s = (Ok st, s') →
  heap s' !! st = Some (new_stream (next_sid s)) ∧ streams s' !! next_sid s = Some st ∧ size (streams s') ≤ max.
Proof.
  intros E. destruct (open_stream_cases max s) as [(e & t & E' & _)|(_ & _ & Hs & _ & E')]; [congruence|].
  rewrite E in E'. pose proof (tx_send_same (Frame_new Syn (next_sid s), false) (opened s)) as (Hh & Hm & _).
  destruct (tx_send _ (opened s)) as [[u|e] t]; simpl in *; simplify_eq.
  rewrite Hh, Hm, lookup_app_r, Nat.sub_diag, lookup_insert_eq by lia. split_and!; [done..|].
  rewrite map_size_insert. case_match; simpl; lia.
Qed.

Lemma create_attempts_post n last_error c :
  handles_ok c →
  let '(r, c') := create_attempts peer dial_out n last_error c in
  dials c' ≤ dials c + n ∧ handles_ok c' ∧
  match r with Ok (p, st) => fresh_stream (max_streams_per_session c) c' p st | Err _ => True end.
Proof.
  revert last_error c. induction n as [|n IH]; intros last_error c Hh; simpl; [split_and!; (lia || done)|].
  destruct (closed_flag c); [split_and!; (lia || done)|].
  pose proof (find_or_create_post c Hh) as Hf.
  destruct (find_or_create_session peer dial_out c) as [[[p seq]|e] c1]; destruct Hf as (F1 & F2 & _ & F4 & F5);
    [|split_and!; (lia || done)].
  apply lookup_lt_is_Some_2 in F5 as [s Hs]. rewrite Hs.
  destruct (open_stream (H1 := peer p) (max_streams_per_session c1) s) as [r s'] eqn:Eo.
  assert (∀ x, length x = length (sessions c1) → handles_ok (set_sessions x c1)) as Hset.
  { intros x Hx. unfold handles_ok; simpl. rewrite Hx. exact F4. }
  assert (handles_ok (set_sessions (<[p:=s']> (sessions c1)) c1)) as H1' by (apply Hset; by rewrite length_insert).
  destruct r as [st|e].
  - split_and!; [simpl; lia|exact H1'|]. destruct (open_stream_fresh _ _ _ _ Eo) as (G1 & G2 & G3).
    exists s', (new_stream (next_sid s)). simpl. rewrite <- F2.
    split_and!; [by apply list_lookup_insert_eq; eapply lookup_lt_Some|done..].
  - case_decide.
    + specialize (IH (Some e) _ H1'). destruct (create_attempts _ _ n _ _) as [r c'].
      destruct IH as (I1 & I2 & I3). simpl in I1, I3. rewrite F2 in I3. split_and!; [lia|done|done].
    + set (c2 := update_session p terminate _).
      assert (handles_ok c2) as H2'.
      { change (handles_ok (set_sessions (alter terminate p (<[p:=s']> (sessions c1))) c1)).
        apply Hset. by rewrite length_alter, length_insert. }
      specialize (IH (Some e) c2 H2'). destruct (create_attempts _ _ n _ _) as [r c'].
      destruct IH as (I1 & I2 & I3). simpl in I1, I3. rewrite F2 in I3. split_and!; [lia|done|done].
Qed.

(** C25. [create_stream] makes at most three dials, and a stream it returns is a
    new open stream, registered on its session under its own id, on a session
    that holds no more streams than the configured limit; a closed client
    refuses without dialling. *)
Theorem create_stream_result c :
  handles_ok c →
  let '(r, c') := create_stream peer dial_out c in
  dials c' ≤ dials c + 3 ∧ handles_ok c' ∧
  match r with Ok (p, st) => fresh_stream (max_streams_per_session c) c' p st | Err _ => True end ∧
  (closed_flag c = true → r = Err client_closed ∧ c' = c).
Proof.
  intros Hh. unfold create_stream. destruct (closed_flag c) eqn:Hc; [split_and!; (lia || done)|].
  pose proof (create_attempts_post 3 None c Hh) as Hp.
  destruct (create_attempts peer dial_out 3 None c) as [r c']. destruct Hp as (? & ? & ?). by split_and!.
Qed.

(** Closing a client ends every session it still holds, active or idle,
    empties both maps, stops the cleanup task, is idempotent, and makes every
    later [create_stream] fail. *)
Theorem client_close_ends_all c :
  let c' := client_close c in
  (closed_flag c = false →
     active_sessions c' = [] ∧ idle_sessions c' = [] ∧ closed_flag c' = true ∧
     ∀ p, p ∈ (active_sessions c).*2 ++ ((fun x => x.2.1) <$> idle_sessions c) → session_terminated c' p = true) ∧
  client_close c' = c' ∧ create_stream peer dial_out c' = (Err client_closed, c').
Proof.
  cbn zeta. set (ps := (active_sessions c).*2 ++ ((fun x => x.2.1) <$> idle_sessions c)).
  set (d := set_idle_sessions [] (set_active [] (set_client_closed c))).
  assert (closed_flag c = false → client_close c = terminate_all ps d) as Hcl
    by (intros Ho; unfold client_close; by rewrite Ho).
  destruct (terminate_all_rest ps d) as (E1 & E2 & E3).
  assert (closed_flag (client_close c) = true) as Hc.
  { destruct (closed_flag c) eqn:Ho; [unfold client_close; by rewrite Ho|]. by rewrite Hcl. }
  split_and!.
  - intros Ho. rewrite Hcl by done. split_and!; [done..|]. intros p Hp. unfold session_terminated.
    rewrite terminate_all_lookup, bool_decide_eq_true_2 by done. simpl.
    destruct (sessions c !! p); simpl; [apply terminate_is_terminated|done].
  - unfold client_close at 1. by rewrite Hc.
  - unfold create_stream. by rewrite Hc.
Qed.
End client_proofs.

(** Taking a session from the idle pool terminates, and what it returns is
    sound: the session is not ended, it was the most recently returned entry
    that is still usable, it is fresh or protected by [min_idle], every entry
    passed over is ended, and nothing is returned only if no entry was usable. *)
Theorem take_reusable_sound c :
  let '(r, c') := take_reusable c in
  take_post (idle_session_timeout c) (min_idle_sessions c) c c' (idle_sessions c) r.
Proof. apply take_reusable_go_spec. lia. Qed.

(** ** A busy session in the idle pool

    Between an idle-return task's last look at the session and its
    [return_session], another task may open a stream on that session. *)

Definition race_peer (p : nat) : WriterPeer := good_writer.
Definition race_dial (n : nat) : option io_error := None.
Definition race_open : ioM Client (nat * nat) :=
  create_stream (H := map_order) race_peer race_dial.
Definition race_start : Client := (race_open (Client_new demo_factory 60 0 5)).2.
Definition race_closed : Client :=
  update_session 0 (fun s => (stream_close (H1 := good_writer) 0 s).2) race_start.
Definition race_waiter : Waiter := mkWaiter 0 0 WWait.
Definition race_busy : Client := (race_open race_closed).2.
Definition race_returned : Client := default race_busy (snd <$> waiter_step (mkWaiter 0 0 WReturn) race_busy).
Definition race_later : Client :=
  mkClient (sessions race_returned) (active_sessions race_returned) (idle_sessions race_returned)
    (session_seq_number race_returned) (closed_flag race_returned) (cleanup_running race_returned)
    (client_padding race_returned) (idle_session_timeout race_returned) (min_idle_sessions race_returned)
    (max_streams_per_session race_returned) (dials race_returned) (waiters race_returned) 60.

(** The idle pool can end a session that is in use: a stream opened between
    the idle-return task's check and its [return_session] is on a session that
    sits in the pool, and the next cleanup after the timeout ends it, closing
    the open stream. *)
Theorem cleanup_ends_busy_session :
  waiter_step race_waiter race_closed = Some (mkWaiter 0 0 WReturn, race_closed) ∧
  is_ok (race_open race_closed).1 = true ∧
  waiter_step (mkWaiter 0 0 WReturn) race_busy = Some (mkWaiter 0 0 WDone, race_returned) ∧
  session_stream_open race_later 0 = true ∧
  session_terminated (cleanup_stale 60 0 race_later) 0 = true.
Proof. vm_compute. done. Qed.

(** *** Witnesses *)

Lemma create_stream_result_witness :
  let '(r, c') := race_open (Client_new demo_factory 60 0 5) in
  dials c' ≤ 3 ∧ handles_ok c' ∧
  match r with Ok (p, st) => fresh_stream 5 c' p st | Err _ => True end.
Proof.
  pose proof (create_stream_result (H := map_order) race_peer race_dial
    (Client_new demo_factory 60 0 5) ltac:(split; constructor)) as Hr.
  unfold race_open. destruct (create_stream _ _ _) as [r c']. by destruct Hr as (? & ? & ? & _).
Defined.

Lemma client_close_ends_all_witness : session_terminated (client_close race_start) 0 = true.
Proof.
  destruct (client_close_ends_all (H := map_order) race_peer race_dial race_start) as (Hc & _).
  destruct (Hc ltac:(by vm_compute)) as (_ & _ & _ & Hp). apply Hp. vm_compute. left.
Defined.
