(* ===== verification/Users.v ===== *)
(** * The user registry ([src/node_api/users.rs])

    Each user owns a password; the 32 bytes a client sends identify the user.
    A user's live state is shared by the registry, the management API and every
    connection of the user ([Arc<UserEntry>]), so entries live on a heap and the
    registry's two indices hold pointers. *)

From S2P Require Import Prelude RustStr.
From Stdlib Require Import Strings.Byte.

Definition PASSWORD_HASH_LEN : nat := 32.

(** [Sha256::digest]: 32 bytes. *)
Class Sha256 : Type := {
  sha256 : bytes → bytes;
  sha256_length : ∀ s, length (sha256 s) = PASSWORD_HASH_LEN;
}.

(** A stand-in digest for evaluating examples: the input cut or filled to 32 bytes. *)
Definition fill32 (s : bytes) : bytes := take 32 (s ++ replicate 32 Byte.x00).

Lemma length_fill32 s : length (fill32 s) = PASSWORD_HASH_LEN.
Proof. unfold fill32, PASSWORD_HASH_LEN. rewrite length_take, length_app, length_replicate. lia. Qed.

Definition toy_sha256 : Sha256 := {| sha256 := fill32; sha256_length := length_fill32 |}.

Record UserSpec : Type := mkSpec {
  sp_email : bytes;
  sp_password : bytes;
  sp_quota_bytes : Z;
  sp_expires_unix : Z;
}.

Inductive DenyReason : Type := Revoked | Expired | QuotaExceeded.

#[global] Instance deny_eq_dec : EqDecision DenyReason.
Proof. solve_decision. Defined.

Record UserEntry : Type := mkEntry {
  email : bytes;
  generation : Z;
  up : Z;
  down : Z;
  connections : Z;
  quota_bytes : Z;
  quota_base : Z;
  expires_unix : Z;
  revoked : bool;
}.

(** [UserEntry::new]. *)
Definition UserEntry_new (spec : UserSpec) : UserEntry :=
  mkEntry (sp_email spec) 0 0 0 0 (sp_quota_bytes spec) 0 (sp_expires_unix spec) false.

(** [fetch_add] wraps around. *)
Definition record_up (n : Z) (e : UserEntry) : UserEntry :=
  mkEntry (email e) (generation e) (wrap 64 (up e + n)) (down e) (connections e) (quota_bytes e)
    (quota_base e) (expires_unix e) (revoked e).
Definition record_down (n : Z) (e : UserEntry) : UserEntry :=
  mkEntry (email e) (generation e) (up e) (wrap 64 (down e + n)) (connections e) (quota_bytes e)
    (quota_base e) (expires_unix e) (revoked e).

(** [quota_used] and [reset_quota]. *)
Definition total_bytes (e : UserEntry) : Z := sat_add64 (up e) (down e).
Definition quota_used (e : UserEntry) : Z := sat_sub64 (total_bytes e) (quota_base e).
Definition reset_quota (e : UserEntry) : UserEntry :=
  mkEntry (email e) (generation e) (up e) (down e) (connections e) (quota_bytes e)
    (total_bytes e) (expires_unix e) (revoked e).

Definition apply_limits (spec : UserSpec) (e : UserEntry) : UserEntry :=
  mkEntry (email e) (generation e) (up e) (down e) (connections e) (sp_quota_bytes spec)
    (quota_base e) (sp_expires_unix spec) (revoked e).
Definition bump_generation (e : UserEntry) : UserEntry :=
  mkEntry (email e) (wrap 64 (generation e + 1)) (up e) (down e) (connections e) (quota_bytes e)
    (quota_base e) (expires_unix e) (revoked e).
Definition revoke (e : UserEntry) : UserEntry :=
  mkEntry (email e) (generation e) (up e) (down e) (connections e) (quota_bytes e)
    (quota_base e) (expires_unix e) true.
(** [connections] counts open connections, far below the width of an [i64]. *)
Definition add_connections (n : Z) (e : UserEntry) : UserEntry :=
  mkEntry (email e) (generation e) (up e) (down e) (connections e + n) (quota_bytes e)
    (quota_base e) (expires_unix e) (revoked e).

(** [UserEntry::deny_reason_at]. *)
Definition deny_reason_at (now_unix : Z) (e : UserEntry) : option DenyReason :=
  if revoked e then Some Revoked
  else if (0 <? expires_unix e)%Z && (expires_unix e <=? now_unix)%Z then Some Expired
  else if (0 <? quota_bytes e)%Z && (quota_bytes e <=? quota_used e)%Z then Some QuotaExceeded
  else None.

(** [AuthedUser]: the entry and the generation seen at authentication. *)
Record AuthedUser : Type := mkAuthed { au_entry : nat; au_generation : Z }.

#[global] Instance authed_eq_dec : EqDecision AuthedUser.
Proof. solve_decision. Defined.

(** [UserRegistry]: the entries and the two indices. *)
Record Registry : Type := mkRegistry {
  users : list UserEntry;
  by_email : gmap bytes nat;
  by_hash : gmap bytes nat;
}.

Definition Registry_new : Registry := mkRegistry [] ∅ ∅.

Definition update_user (p : nat) (f : UserEntry → UserEntry) (r : Registry) : Registry :=
  mkRegistry (alter f p (users r)) (by_email r) (by_hash r).

(** [UserRegistry::authenticate]: the lookup, then [AuthedUser::new]. *)
Definition auth_lookup (now : Z) (password_hash : bytes) (r : Registry) : option nat :=
  if decide (length password_hash = PASSWORD_HASH_LEN) then
    p ← by_hash r !! password_hash;
    e ← users r !! p;
    match deny_reason_at now e with Some _ => None | None => Some p end
  else None.

Definition AuthedUser_new (p : nat) (r : Registry) : AuthedUser * Registry :=
  (mkAuthed p (default 0%Z (generation <$> users r !! p)), update_user p (add_connections 1) r).

Definition authenticate (now : Z) (password_hash : bytes) (r : Registry) : option AuthedUser * Registry :=
  match auth_lookup now password_hash r with
  | Some p => let '(u, r') := AuthedUser_new p r in (Some u, r')
  | None => (None, r)
  end.

(** [Drop for AuthedUser] and [AuthedUser::deny_reason]. *)
Definition drop_authed (u : AuthedUser) (r : Registry) : Registry :=
  update_user (au_entry u) (add_connections (-1)) r.

Definition authed_deny_reason (now : Z) (u : AuthedUser) (r : Registry) : option DenyReason :=
  match users r !! au_entry u with
  | None => Some Revoked
  | Some e => if decide (generation e = au_generation u) then deny_reason_at now e else Some Revoked
  end.

Section registry.
  Context `{Sha256}.

Definition hash_password (password : bytes) : bytes := sha256 password.

(** One round of the loop of [replace]: [r] is the registry before, [hs] the
    entries as updated so far, and the two maps are those being built. *)
Definition replace_one (r : Registry) (acc : list UserEntry * gmap bytes nat * gmap bytes nat) (spec : UserSpec)
  : list UserEntry * gmap bytes nat * gmap bytes nat :=
  let '(hs, em, hm) := acc in
  if decide (sp_email spec = [] ∨ sp_password spec = []) then acc
  else
    let hash := hash_password (sp_password spec) in
    if decide (is_Some (hm !! hash)) then acc
    else
      let '(p, hs') :=
        match by_email r !! sp_email spec with
        | Some p =>
            let rekeyed := negb (bool_decide (by_hash r !! hash = Some p)) in
            (p, alter (fun e => let e := apply_limits spec e in if rekeyed then bump_generation e else e) p hs)
        | None => (length hs, hs ++ [UserEntry_new spec])
        end in
      (hs', <[sp_email spec := p]> em, <[hash := p]> hm).

(** [UserRegistry::replace]. *)
Definition replace (specs : list UserSpec) (r : Registry) : Registry :=
  let '(hs, em, hm) := foldl (replace_one r) (users r, ∅, ∅) specs in
  let hs' := foldl (fun hs x => if decide (is_Some (em !! x.1)) then hs else alter revoke x.2 hs)
               hs (map_to_list (by_email r)) in
  mkRegistry hs' em hm.

Definition with_users (specs : list UserSpec) : Registry := replace specs Registry_new.

(** [get], [entries], [len]. *)
Definition get (e : bytes) (r : Registry) : option UserEntry := by_email r !! e ≫= fun p => users r !! p.
Definition entries (r : Registry) : list UserEntry := omap (fun p => users r !! p) (map_to_list (by_email r)).*2.

(** ** Lemmas *)

(** Entries and indices agree. *)
Definition reg_inv (r : Registry) : Prop :=
  (∀ a p, by_email r !! a = Some p →
     ∃ e, users r !! p = Some e ∧ email e = a ∧ revoked e = false ∧ in_u 64 (generation e)) ∧
  (∀ h p, by_hash r !! h = Some p → ∃ a, by_email r !! a = Some p).

Lemma reg_inv_new : reg_inv Registry_new.
Proof. split; simpl; intros ? ? ?; set_solver. Qed.

Lemma by_email_inj r a b p : reg_inv r → by_email r !! a = Some p → by_email r !! b = Some p → a = b.
Proof. intros [R1 _] Ha%R1 Hb%R1. split_ex. congruence. Qed.

Lemma by_email_lt r a p : reg_inv r → by_email r !! a = Some p → p < length (users r).
Proof. intros [R1 _] Ha%R1. split_ex. by eapply lookup_lt_Some. Qed.

(** A user set without the entries [replace] skips. *)
Definition wf_specs (specs : list UserSpec) : Prop :=
  Forall (fun s => sp_email s ≠ [] ∧ sp_password s ≠ []) specs ∧
  NoDup (sp_email <$> specs) ∧ NoDup ((fun s => hash_password (sp_password s)) <$> specs).

#[global] Instance wf_specs_dec specs : Decision (wf_specs specs).
Proof. unfold wf_specs. apply _. Defined.

Abbreviation spec_hash s := (hash_password (sp_password s)).

(** Whether the user of a spec keeps the password it has. *)
Definition keeps_password (r : Registry) (s : UserSpec) (p : nat) : bool :=
  bool_decide (by_hash r !! spec_hash s = Some p).

(** The entry a spec ends up with. *)
Definition outcome (r : Registry) (s : UserSpec) : UserEntry :=
  match by_email r !! sp_email s with
  | Some p =>
      match users r !! p with
      | Some e => if keeps_password r s p then apply_limits s e else bump_generation (apply_limits s e)
      | None => UserEntry_new s
      end
  | None => UserEntry_new s
  end.

(** What the loop has established after the specs [done]. *)
Record loop_inv (r : Registry) (done : list UserSpec) (hs : list UserEntry) (em hm : gmap bytes nat) : Prop := mkLoop {
  l_em : ∀ a p, em !! a = Some p → ∃ s, s ∈ done ∧ sp_email s = a;
  l_hm : ∀ h p, hm !! h = Some p → ∃ s, s ∈ done ∧ spec_hash s = h ∧ em !! sp_email s = Some p;
  l_spec : ∀ s, s ∈ done → ∃ p, em !! sp_email s = Some p ∧ hm !! spec_hash s = Some p ∧
      hs !! p = Some (outcome r s) ∧
      (by_email r !! sp_email s = Some p ∨ by_email r !! sp_email s = None ∧ length (users r) ≤ p);
  l_old : ∀ p e, users r !! p = Some e → (∀ s, s ∈ done → by_email r !! sp_email s ≠ Some p) → hs !! p = Some e;
  l_len : length (users r) ≤ length hs;
}.

Lemma loop_inv_init r : loop_inv r [] (users r) ∅ ∅.
Proof. split; set_solver. Qed.

(** The loop invariant after one more spec, given where its entry went. *)
Lemma loop_inv_extend r done s hs em hm p hs' :
  reg_inv r → loop_inv r done hs em hm →
  sp_email s ∉ sp_email <$> done → spec_hash s ∉ (fun s => spec_hash s) <$> done →
  (by_email r !! sp_email s = Some p ∨ by_email r !! sp_email s = None ∧ p = length hs) →
  hs' !! p = Some (outcome r s) → (∀ q, q ≠ p → hs' !! q = hs !! q) → length hs ≤ length hs' →
  loop_inv r (done ++ [s]) hs' (<[sp_email s := p]> em) (<[spec_hash s := p]> hm).
Proof.
  intros Hr [L1 L2 L3 L4 L5] Hem Hhm Hp Hout Hother Hlen.
  assert (∀ t, t ∈ done → sp_email t ≠ sp_email s ∧ spec_hash t ≠ spec_hash s) as Hne.
  { intros t Ht. split; intros E; [apply Hem|apply Hhm]; rewrite <- E; apply list_elem_of_fmap; eauto. }
  split.
  - intros a q [[<- _]|[_ Hq]]%lookup_insert_Some; [exists s; set_solver|].
    destruct (L1 _ _ Hq) as (t & ? & ?). exists t. set_solver.
  - intros h q [[<- <-]|[_ Hq]]%lookup_insert_Some.
    + exists s. rewrite lookup_insert_eq. set_solver.
    + destruct (L2 _ _ Hq) as (t & Ht & ? & ?). exists t.
      rewrite lookup_insert_ne by (symmetry; by apply Hne). set_solver.
  - intros t [Ht| ->%list_elem_of_singleton]%elem_of_app.
    + destruct (L3 t Ht) as (q & E1 & E2 & E3 & E4). exists q. destruct (Hne t Ht).
      rewrite !lookup_insert_ne by done. split_and!; [done..| |done]. rewrite Hother; [done|]. intros ->.
      destruct E4 as [E4|[E4 E5]], Hp as [Hp|[Hp ->]].
      * by destruct (Hne t Ht) as [[] _]; eapply by_email_inj.
      * apply by_email_lt in E4; [lia|done].
      * apply by_email_lt in Hp; [lia|done].
      * apply lookup_lt_Some in E3. lia.
    + exists p. rewrite !lookup_insert_eq. split_and!; [done..|]. destruct Hp as [?|[? ->]]; [by left|right]. auto.
  - intros q e Hq Hnot. rewrite Hother; [apply L4; [done|set_solver]|]. intros ->.
    destruct Hp as [Hp|[_ ->]]; [by apply (Hnot s); [set_solver|]|]. apply lookup_lt_Some in Hq. lia.
  - lia.
Qed.

Lemma loop_inv_step r done s hs em hm :
  reg_inv r → loop_inv r done hs em hm → sp_email s ≠ [] → sp_password s ≠ [] →
  sp_email s ∉ sp_email <$> done → spec_hash s ∉ (fun s => spec_hash s) <$> done →
  let '(hs', em', hm') := replace_one r (hs, em, hm) s in loop_inv r (done ++ [s]) hs' em' hm'.
Proof.
  intros Hr HL He Hp Hem Hhm. unfold replace_one. rewrite decide_False by tauto.
  rewrite decide_False.
  2:{ intros [p Hs]. destruct (l_hm _ _ _ _ _ HL _ _ Hs) as (t & Ht & E & _). apply Hhm. rewrite <- E.
      apply list_elem_of_fmap. eauto. }
  destruct (by_email r !! sp_email s) as [p|] eqn:Hb.
  - destruct Hr as [R1 R2] eqn:Er. destruct (R1 _ _ Hb) as (e & Hu & Hea & _).
    assert (hs !! p = Some e) as Hhs.
    { apply (l_old _ _ _ _ _ HL); [done|]. intros t Ht Ht'. apply Hem.
      replace (sp_email s) with (sp_email t) by (by eapply by_email_inj). apply list_elem_of_fmap. eauto. }
    apply loop_inv_extend with (hs := hs); [done..|by left| | |by rewrite length_alter].
    + rewrite list_lookup_alter_eq, Hhs. unfold outcome, keeps_password. rewrite Hb, Hu. simpl.
      by case_bool_decide.
    + intros q Hq. by rewrite list_lookup_alter_ne.
  - apply loop_inv_extend with (hs := hs); [done..|by right| | |rewrite length_app; simpl; lia].
    + rewrite lookup_app_r, Nat.sub_diag by lia. unfold outcome. by rewrite Hb.
    + intros q Hq. destruct (decide (q < length hs)) as [Hlt|Hge]; [by rewrite lookup_app_l|].
      rewrite lookup_app_r, (lookup_ge_None_2 hs) by lia.
      apply lookup_ge_None_2. simpl. lia.
Qed.

Lemma loop_inv_all r specs :
  reg_inv r → wf_specs specs →
  let '(hs, em, hm) := foldl (replace_one r) (users r, ∅, ∅) specs in loop_inv r specs hs em hm.
Proof.
  intros Hr. induction specs as [|s specs IH] using rev_ind; [intros _; apply loop_inv_init|].
  intros (Hne & Hem & Hhm). rewrite foldl_app. cbn [foldl].
  rewrite fmap_app in Hem, Hhm. apply Forall_app in Hne as [Hne Hs].
  apply NoDup_app in Hem as (Hem & Hem' & _). apply NoDup_app in Hhm as (Hhm & Hhm' & _).
  specialize (IH ltac:(by split_and!)). destruct (foldl _ _ specs) as [[hs em] hm].
  apply Forall_singleton in Hs as [? ?]. apply loop_inv_step; [done..| |].
  - intros Hin%Hem'. set_solver.
  - intros Hin%Hhm'. set_solver.
Qed.

Lemma revoke_missing (em : gmap bytes nat) l hs p :
  foldl (fun hs (x : bytes * nat) => if decide (is_Some (em !! x.1)) then hs else alter revoke x.2 hs) hs l !! p =
    if decide (Exists (fun x => x.2 = p ∧ em !! x.1 = None) l) then revoke <$> hs !! p
    else (hs : list UserEntry) !! p.
Proof.
  revert hs. induction l as [|[a q] l IH]; intros hs; cbn [foldl].
  { rewrite decide_False; [done|]. intros Hx. inversion Hx. }
  rewrite IH. simpl. destruct (decide (is_Some (em !! a))) as [Hs|Hn].
  - apply decide_ext. rewrite Exists_cons. simpl. destruct Hs as [? Hs]. rewrite Hs. naive_solver.
  - apply eq_None_not_Some in Hn. destruct (decide (q = p)) as [->|Hne].
    + rewrite list_lookup_alter_eq.
      rewrite (decide_True (P := Exists _ (_ :: _))) by (left; by split).
      case_decide; [|done]. by destruct (hs !! p).
    + rewrite list_lookup_alter_ne by done. apply decide_ext. rewrite Exists_cons. simpl. naive_solver.
Qed.

(** The entries after [replace], spelled out. *)
Lemma replace_facts r specs :
  reg_inv r → wf_specs specs →
  let r' := replace specs r in
  (∀ s, s ∈ specs → ∃ p, by_email r' !! sp_email s = Some p ∧ by_hash r' !! spec_hash s = Some p ∧
     users r' !! p = Some (outcome r s) ∧
     (by_email r !! sp_email s = Some p ∨ by_email r !! sp_email s = None ∧ length (users r) ≤ p)) ∧
  (∀ a p, by_email r' !! a = Some p → ∃ s, s ∈ specs ∧ sp_email s = a) ∧
  (∀ h p, by_hash r' !! h = Some p → ∃ s, s ∈ specs ∧ spec_hash s = h ∧ by_email r' !! sp_email s = Some p) ∧
  (∀ a p e, by_email r !! a = Some p → users r !! p = Some e → a ∉ sp_email <$> specs →
     users r' !! p = Some (revoke e)) ∧
  (∀ p e, users r !! p = Some e → (∀ a, by_email r !! a ≠ Some p) → users r' !! p = Some e).
Proof.
  intros Hr Hwf. pose proof (loop_inv_all r specs Hr Hwf) as HL. unfold replace.
  destruct (foldl (replace_one r) _ specs) as [[hs em] hm]. destruct HL as [L1 L2 L3 L4 L5]. simpl.
  split_and!.
  - intros s Hs. destruct (L3 s Hs) as (p & E1 & E2 & E3 & E4). exists p. split_and!; [done..| |done].
    rewrite revoke_missing, decide_False; [done|]. intros Hx. apply Exists_exists in Hx as ([a q] & Hin & E & Hn).
    apply elem_of_map_to_list in Hin. simpl in *. subst q. destruct E4 as [E4|[_ E4]].
    + assert (a = sp_email s) as -> by (by eapply by_email_inj). congruence.
    + apply by_email_lt in Hin; [lia|done].
  - done.
  - done.
  - intros a p e Ha Hu Hnot. assert (em !! a = None) as Hn.
    { destruct (em !! a) as [q|] eqn:E; [|done]. destruct (L1 _ _ E) as (s & Hs & <-).
      exfalso. apply Hnot, list_elem_of_fmap. eauto. }
    rewrite revoke_missing, decide_True.
    + rewrite (L4 p e); [done..|]. intros s Hs Hs'. apply Hnot.
      rewrite (by_email_inj r a (sp_email s) p) by done. apply list_elem_of_fmap. eauto.
    + apply Exists_exists. exists (a, p). split; [by apply elem_of_map_to_list|done].
  - intros p e Hu Hno. rewrite revoke_missing, decide_False.
    + apply L4; [done|]. intros s _. apply Hno.
    + intros Hx. apply Exists_exists in Hx as ([a q] & Hin & E & _). simpl in E. subst q.
      apply elem_of_map_to_list in Hin. by apply Hno in Hin.
Qed.

Lemma outcome_fields r s :
  reg_inv r → email (outcome r s) = sp_email s ∧ revoked (outcome r s) = false ∧ in_u 64 (generation (outcome r s)).
Proof.
  intros [R1 _]. unfold outcome. destruct (by_email r !! sp_email s) as [p|] eqn:Hb; [|done].
  destruct (R1 _ _ Hb) as (e & -> & <- & Hv & Hg). case_match; simpl; split_and!; try done.
  by apply wrap_range.
Qed.

Lemma replace_inv r specs : reg_inv r → wf_specs specs → reg_inv (replace specs r).
Proof.
  intros Hr Hwf. destruct (replace_facts r specs Hr Hwf) as (F1 & F2 & F3 & _). split.
  - intros a p Ha. destruct (F2 _ _ Ha) as (s & Hs & <-). destruct (F1 s Hs) as (q & E1 & _ & E3 & _).
    assert (q = p) as -> by congruence. exists (outcome r s). destruct (outcome_fields r s Hr). naive_solver.
  - intros h p Hh. destruct (F3 _ _ Hh) as (s & _ & _ & E). eauto.
Qed.

(** ** Properties *)

(** C9. Replacing the user set does what the panel expects: exactly the users of
    the set are served, each under its own password and e-mail; a user that
    keeps its password keeps its entry, counters and generation and only gets
    its new limits; a re-keyed user keeps its entry and counters but moves to
    the next generation; a new user starts from zero; a user that left the set
    is revoked; and entries of users that left earlier are untouched. *)
Theorem replace_user_set r specs :
  reg_inv r → wf_specs specs →
  let r' := replace specs r in
  reg_inv r' ∧
  (∀ a, is_Some (by_email r' !! a) ↔ a ∈ sp_email <$> specs) ∧
  (∀ h, is_Some (by_hash r' !! h) ↔ h ∈ (fun s => spec_hash s) <$> specs) ∧
  (∀ s, s ∈ specs → ∃ p, by_email r' !! sp_email s = Some p ∧ by_hash r' !! spec_hash s = Some p ∧
     match by_email r !! sp_email s with
     | Some q => p = q ∧ ∃ e, users r !! p = Some e ∧ users r' !! p =
         Some (if keeps_password r s p then apply_limits s e else bump_generation (apply_limits s e))
     | None => length (users r) ≤ p ∧ users r' !! p = Some (UserEntry_new s)
     end) ∧
  (∀ a p e, by_email r !! a = Some p → users r !! p = Some e → a ∉ sp_email <$> specs →
     users r' !! p = Some (revoke e)) ∧
  (∀ p e, users r !! p = Some e → (∀ a, by_email r !! a ≠ Some p) → users r' !! p = Some e).
Proof.
  intros Hr Hwf. destruct (replace_facts r specs Hr Hwf) as (F1 & F2 & F3 & F4 & F5).
  split; [by apply replace_inv|]. split_and!; [| | |exact F4|exact F5].
  - intros a. split; [intros [p (s & Hs & <-)%F2]; apply list_elem_of_fmap; eauto|].
    intros (s & -> & Hs)%list_elem_of_fmap. destruct (F1 s Hs) as (p & E & _). eauto.
  - intros h. split; [intros [p (s & Hs & <- & _)%F3]; apply list_elem_of_fmap; eauto|].
    intros (s & -> & Hs)%list_elem_of_fmap. destruct (F1 s Hs) as (p & _ & E & _). eauto.
  - intros s Hs. destruct (F1 s Hs) as (p & E1 & E2 & E3 & E4). exists p. split_and!; [done..|].
    unfold outcome in E3. destruct (by_email r !! sp_email s) as [q|] eqn:Hb.
    + destruct E4 as [[= ->]|[? _]]; [|done]. split; [done|]. destruct Hr as [R1 _].
      destruct (R1 _ _ Hb) as (e & He & _). rewrite He in E3. eauto.
    + destruct E4 as [?|[_ ?]]; [done|]. auto.
Qed.

(** C10. A replacement retires exactly the connections it should: a connection of
    a user that stays with its password is judged by the new limits alone; a
    connection of a user that was re-keyed or removed is refused as revoked. *)
Theorem replace_retires_connections r specs now u e :
  reg_inv r → wf_specs specs →
  users r !! au_entry u = Some e → by_email r !! email e = Some (au_entry u) → generation e = au_generation u →
  authed_deny_reason now u (replace specs r) =
    match list_find (fun s => sp_email s = email e) specs with
    | Some (_, s) => if keeps_password r s (au_entry u) then deny_reason_at now (apply_limits s e) else Some Revoked
    | None => Some Revoked
    end.
Proof.
  intros Hr Hwf Hu Hb Hg. destruct (replace_facts r specs Hr Hwf) as (F1 & _ & _ & F4 & _).
  destruct (list_find _ specs) as [[i s]|] eqn:E.
  - apply list_find_Some in E as (Hi & He & _). apply list_elem_of_lookup_2 in Hi.
    destruct (F1 s Hi) as (p & _ & _ & Hp & Hpr). rewrite He, Hb in Hpr.
    destruct Hpr as [[= <-]|[? _]]; [|done]. unfold authed_deny_reason. rewrite Hp.
    unfold outcome. rewrite He, Hb, Hu. destruct (keeps_password r s (au_entry u)).
    + by rewrite decide_True.
    + rewrite decide_False; [done|]. simpl. intros Hc. destruct Hr as [R1 _].
      destruct (R1 _ _ Hb) as (e' & Hu' & _ & _ & Hgen). simplify_eq. rewrite <- Hg in Hc.
      unfold wrap, in_u in *. destruct (decide (generation e = 2 ^ 64 - 1)%Z) as [Heq|].
      * rewrite Heq in Hc. by vm_compute in Hc.
      * rewrite Z.mod_small in Hc by lia. lia.
  - apply list_find_None in E. unfold authed_deny_reason. rewrite (F4 _ _ _ Hb Hu).
    + by case_decide.
    + intros (s & Hs & Hin)%list_elem_of_fmap. rewrite Forall_forall in E. by apply (E s).
Qed.

(** Authentication succeeds exactly for the 32-byte digest of a user's
    password while the user is within its limits; it then counts one more
    connection of that user and changes nothing else. *)
Theorem authenticate_exact now h r u r' :
  authenticate now h r = (Some u, r') ↔
  length h = PASSWORD_HASH_LEN ∧ by_hash r !! h = Some (au_entry u) ∧
  r' = update_user (au_entry u) (add_connections 1) r ∧
  ∃ e, users r !! au_entry u = Some e ∧ deny_reason_at now e = None ∧ au_generation u = generation e.
Proof.
  unfold authenticate, auth_lookup, AuthedUser_new. destruct (decide (length h = _)) as [Hl|Hl]; [|naive_solver].
  destruct (by_hash r !! h) as [p|] eqn:Hh; simpl; [|naive_solver].
  destruct (users r !! p) as [e|] eqn:Hp; simpl.
  - destruct (deny_reason_at now e) eqn:Hd; simpl.
    + split; [done|]. intros (_ & [= <-] & _ & e' & He & ? & _). congruence.
    + rewrite Hp. simpl. split.
      * intros [= <- <-]. simpl. split_and!; [done..|]. eauto.
      * intros (_ & Hpq & -> & e' & He & _ & Hg). destruct u as [q g]; simpl in *. by simplify_eq.
  - split; [done|]. intros (_ & [= <-] & _ & e' & He & _). congruence.
Qed.

(** Resetting the quota reopens a spent user without touching the reported
    counters: nothing is counted against the new window, so the user is refused
    only if it is revoked or expired. *)
Theorem reset_quota_reopens now e :
  let e' := reset_quota e in
  up e' = up e ∧ down e' = down e ∧ quota_used e' = 0%Z ∧ deny_reason_at now e' ≠ Some QuotaExceeded ∧
  (deny_reason_at now e' = None ↔ revoked e = false ∧ ¬ (0 < expires_unix e ≤ now)%Z).
Proof.
  assert (quota_used (reset_quota e) = 0%Z) as Hq.
  { unfold quota_used, reset_quota, sat_sub64; simpl. rewrite Z.sub_diag. done. }
  cbn zeta. split_and!; [done..| |]; unfold deny_reason_at; rewrite Hq; simpl;
    destruct (revoked e); try done; destruct (Z.ltb_spec 0 (expires_unix e)), (Z.leb_spec (expires_unix e) now);
    simpl; try (destruct (Z.ltb_spec 0 (quota_bytes e)), (Z.leb_spec (quota_bytes e) 0); simpl); naive_solver lia.
Qed.

(** A connection can outlive a password change: [authenticate] reads the
    generation after it has released the index, so if the user is re-keyed in
    between, the connection opened with the old password carries the new
    generation and is not retired. *)
Theorem rekey_race_keeps_old_session r specs now h p e s :
  reg_inv r → wf_specs specs → auth_lookup now h r = Some p →
  users r !! p = Some e → by_email r !! email e = Some p →
  s ∈ specs → sp_email s = email e → spec_hash s ≠ h → by_hash r !! spec_hash s = None →
  let r1 := replace specs r in
  let '(u, r2) := AuthedUser_new p r1 in
  auth_lookup now h r1 ≠ Some p ∧
  authed_deny_reason now u r2 = deny_reason_at now (bump_generation (apply_limits s e)).
Proof.
  intros Hr Hwf _ Hu Hb Hs He Hne Hnew. destruct (replace_facts r specs Hr Hwf) as (F1 & _ & F3 & _).
  pose proof (replace_inv r specs Hr Hwf) as Hr'.
  destruct (F1 s Hs) as (q & Hq1 & _ & Hq & Hpr). rewrite He, Hb in Hpr. destruct Hpr as [[= <-]|[? _]]; [|done].
  unfold outcome, keeps_password in Hq. rewrite He, Hb, Hu, Hnew in Hq. simpl in Hq.
  cbn zeta. unfold AuthedUser_new. split.
  - unfold auth_lookup. case_decide; [|done]. destruct (by_hash _ !! h) as [q|] eqn:Hh; simpl; [|done].
    intros Hl. assert (q = p) as ->.
    { destruct (users _ !! q); simpl in Hl; [|done]. case_match; by simplify_eq. }
    destruct (F3 _ _ Hh) as (t & Ht & <- & Ht'). apply Hne.
    assert (sp_email s = sp_email t) as Hst by (by eapply (by_email_inj (replace specs r))).
    destruct Hwf as (_ & Hnd & _). apply list_elem_of_lookup in Hs as [i Hi], Ht as [j Hj].
    assert (i = j) as ->; [|congruence].
    eapply (NoDup_lookup (sp_email <$> specs)); [done|by rewrite list_lookup_fmap, Hi|].
    rewrite list_lookup_fmap, Hj. simpl. by rewrite Hst.
  - unfold authed_deny_reason; simpl. rewrite list_lookup_alter_eq, Hq. simpl. by rewrite decide_True.
Qed.

(** ** Connection counts *)

(** The registry with the guards of the open connections.  Any task may
    authenticate, end a connection, count traffic, reset a quota or replace the
    user set. *)
Inductive ustep : Registry * list AuthedUser → Registry * list AuthedUser → Prop :=
  | us_auth now h u r r' gs :
      authenticate now h r = (Some u, r') → ustep (r, gs) (r', u :: gs)
  | us_drop u r gs gs' : gs ≡ₚ u :: gs' → ustep (r, gs) (drop_authed u r, gs')
  | us_up p n r gs : ustep (r, gs) (update_user p (record_up n) r, gs)
  | us_down p n r gs : ustep (r, gs) (update_user p (record_down n) r, gs)
  | us_reset p r gs : ustep (r, gs) (update_user p reset_quota r, gs)
  | us_replace specs r gs : ustep (r, gs) (replace specs r, gs).

Definition guards_of (p : nat) (gs : list AuthedUser) : list AuthedUser := filter (fun u => au_entry u = p) gs.

Definition counts_ok (x : Registry * list AuthedUser) : Prop :=
  (∀ p e, users x.1 !! p = Some e → connections e = Z.of_nat (length (guards_of p x.2))) ∧
  Forall (fun u => au_entry u < length (users x.1)) x.2.

Lemma alter_connections (f : UserEntry → UserEntry) (p : nat) (hs : list UserEntry) :
  (∀ e, connections (f e) = connections e) → connections <$> alter f p hs = connections <$> hs.
Proof.
  intros Hf. apply list_eq. intros q. rewrite !list_lookup_fmap. destruct (decide (q = p)) as [->|].
  - rewrite list_lookup_alter_eq. destruct (hs !! p); simpl; by rewrite ?Hf.
  - by rewrite list_lookup_alter_ne.
Qed.

Lemma replace_connections specs r :
  ∃ k, connections <$> users (replace specs r) = (connections <$> users r) ++ replicate k 0%Z.
Proof.
  unfold replace.
  assert (∃ k, connections <$> (foldl (replace_one r) (users r, ∅, ∅) specs).1.1 =
    (connections <$> users r) ++ replicate k 0%Z) as [k Hk].
  { induction specs as [|s specs [k IH]] using rev_ind; [exists 0; by rewrite app_nil_r|].
    rewrite foldl_app. cbn [foldl]. destruct (foldl _ _ specs) as [[hs em] hm]. simpl in *.
    case_decide; [by exists k|]. case_decide; [by exists k|].
    destruct (by_email r !! sp_email s) as [p|]; simpl.
    - exists k. rewrite alter_connections; [done|]. intros e. by case_match.
    - exists (k + 1). rewrite fmap_app, IH, replicate_add. simpl. by rewrite app_assoc. }
  exists k. destruct (foldl _ _ specs) as [[hs em] hm]. simpl in *. rewrite <- Hk. clear Hk.
  generalize (map_to_list (by_email r)). intros l. revert hs. induction l as [|x l IH]; intros hs; [done|].
  cbn [foldl]. rewrite IH. case_decide; [done|]. by apply alter_connections.
Qed.

(** An update that leaves the connection counts alone. *)
Lemma counts_ok_update r gs p f :
  (∀ e, connections (f e) = connections e) → counts_ok (r, gs) → counts_ok (update_user p f r, gs).
Proof.
  intros Hf [C1 C2]. split; simpl in *; [|by rewrite length_alter].
  intros q e Hq. destruct (decide (q = p)) as [->|].
  - rewrite list_lookup_alter_eq in Hq. destruct (users r !! p) eqn:E; simplify_eq/=. rewrite Hf. auto.
  - rewrite list_lookup_alter_ne in Hq by done. auto.
Qed.

Lemma counts_ok_step x y : counts_ok x → ustep x y → counts_ok y.
Proof.
  intros Hx Hs. destruct Hs as [now h u r r' gs E|u r gs gs' Hp| | | |specs r gs]; try (by apply counts_ok_update).
  - apply authenticate_exact in E as (_ & _ & -> & e & He & _). destruct Hx as [C1 C2]. split; simpl in *.
    + intros q e' Hq. destruct (decide (q = au_entry u)) as [->|Hne].
      * rewrite list_lookup_alter_eq, He in Hq. simplify_eq/=. rewrite (C1 _ _ He).
        unfold guards_of. rewrite filter_cons_True by done. simpl. lia.
      * rewrite list_lookup_alter_ne in Hq by done. unfold guards_of. rewrite filter_cons_False by done. by apply (C1 q).
    + rewrite length_alter. constructor; [by eapply lookup_lt_Some|done].
  - destruct Hx as [C1 C2]. simpl in *. rewrite Hp in C2. apply Forall_cons in C2 as [_ C2]. split; simpl.
    + intros q e Hq. assert (length (guards_of q gs) = length (guards_of q (u :: gs'))) as Hl
        by (unfold guards_of; by rewrite Hp).
      destruct (decide (q = au_entry u)) as [->|Hne].
      * rewrite list_lookup_alter_eq in Hq. destruct (users r !! au_entry u) as [e0|] eqn:E; simplify_eq/=.
        rewrite (C1 _ _ E), Hl. unfold guards_of. rewrite filter_cons_True by done. simpl. lia.
      * rewrite list_lookup_alter_ne in Hq by done. rewrite (C1 _ _ Hq), Hl. unfold guards_of.
        by rewrite filter_cons_False.
    + by rewrite length_alter.
  - destruct Hx as [C1 C2]. simpl in *. destruct (replace_connections specs r) as [k Hk].
    assert (length (users (replace specs r)) = length (users r) + k) as Hlen.
    { apply (f_equal length) in Hk. by rewrite length_app, length_replicate, !length_fmap in Hk. }
    split; simpl.
    + intros q e Hq. assert ((connections <$> users (replace specs r)) !! q = Some (connections e)) as Hc
        by by rewrite list_lookup_fmap, Hq.
      rewrite Hk in Hc. apply lookup_app_Some in Hc as [Hc|[Hge Hc]].
      * rewrite list_lookup_fmap in Hc. destruct (users r !! q) eqn:E; simplify_eq/=. rewrite <- (C1 _ _ E). done.
      * apply lookup_replicate in Hc as [-> _]. rewrite length_fmap in Hge.
        assert (guards_of q gs = []) as ->; [|done]. apply elem_of_nil_inv.
        intros u [E Hu]%list_elem_of_filter. rewrite Forall_forall in C2. apply C2 in Hu. lia.
    + eapply Forall_impl; [exact C2|]. simpl. lia.
Qed.

(** C11. The live connection count of a user is right at all times: whatever
    interleaving of authentications, disconnections, accounting, quota resets
    and replacements of the user set, it equals the number of open connections
    that were authenticated as that user. *)
Theorem connection_counts specs x :
  rtc ustep (with_users specs, []) x →
  ∀ p e, users x.1 !! p = Some e → connections e = Z.of_nat (length (guards_of p x.2)).
Proof.
  intros Hr. assert (counts_ok x) as [C _]; [|exact C]. remember (with_users specs, []) as x0 eqn:E0.
  assert (counts_ok x0) as H0.
  { subst. apply (counts_ok_step (Registry_new, [])); [|apply us_replace]. split; simpl; [set_solver|constructor]. }
  clear E0. induction Hr; [done|]. eauto using counts_ok_step.
Qed.
(** ** Machine ranges *)

(** The 64-bit fields of an entry hold 64-bit values. *)
Definition entry_typed (e : UserEntry) : Prop :=
  in_u 64 (generation e) ∧ in_u 64 (up e) ∧ in_u 64 (down e) ∧ in_u 64 (quota_base e).

(** Entries are typed, the indices point at entries, and hashes have 32 bytes. *)
Record reg_typed (r : Registry) : Prop := mkTyped {
  rt_entries : Forall entry_typed (users r);
  rt_email : ∀ a p, by_email r !! a = Some p → p < length (users r);
  rt_hash : ∀ h p, by_hash r !! h = Some p → length h = PASSWORD_HASH_LEN ∧ p < length (users r);
}.

Lemma forall_alter {A} (P : A → Prop) f p (l : list A) : (∀ a, P a → P (f a)) → Forall P l → Forall P (alter f p l).
Proof. intros Hf Hl. apply Forall_alter; auto. Qed.

Lemma entry_typed_steps e n spec :
  entry_typed e →
  entry_typed (record_up n e) ∧ entry_typed (record_down n e) ∧ entry_typed (reset_quota e) ∧
  entry_typed (apply_limits spec e) ∧ entry_typed (bump_generation e) ∧ entry_typed (revoke e) ∧
  entry_typed (add_connections n e).
Proof.
  unfold entry_typed. intros (H1 & H2 & H3 & H4). simpl. pose proof (wrap_range 64 (up e + n)).
  pose proof (wrap_range 64 (down e + n)). pose proof (wrap_range 64 (generation e + 1)).
  assert (in_u 64 (total_bytes e)) by (unfold total_bytes, sat_add64, in_u in *; lia).
  split_and!; try done; auto with lia.
Qed.

Lemma reg_typed_update r p f : (∀ e, entry_typed e → entry_typed (f e)) → reg_typed r → reg_typed (update_user p f r).
Proof.
  intros Hf [H1 H2 H3]. split; simpl; rewrite ?length_alter; try done. by apply forall_alter.
Qed.

Lemma replace_loop_typed r specs hs em hm :
  reg_typed r → foldl (replace_one r) (users r, ∅, ∅) specs = (hs, em, hm) →
  length (users r) ≤ length hs ∧ reg_typed (mkRegistry hs em hm).
Proof.
  intros Hr. revert hs em hm. induction specs as [|s specs IH] using rev_ind; intros hs em hm.
  { simpl. intros [= <- <- <-]. split; [done|]. split; simpl; [apply Hr|intros ? ?; by rewrite lookup_empty..]. }
  rewrite foldl_app. cbn [foldl]. destruct (foldl _ _ specs) as [[hs0 em0] hm0].
  destruct (IH _ _ _ eq_refl) as [Hlen [T1 T2 T3]]. simpl in *.
  case_decide; [intros [= <- <- <-]; by split|]. case_decide; [intros [= <- <- <-]; by split|].
  assert (∀ p hs', length hs0 ≤ length hs' → p < length hs' → Forall entry_typed hs' →
    length (users r) ≤ length hs' ∧
    reg_typed (mkRegistry hs' (<[sp_email s := p]> em0) (<[hash_password (sp_password s) := p]> hm0))) as Hext.
  { intros p hs' Hl Hp Hf. split; [lia|]. split; simpl; [done| |].
    - intros a q Hq. apply lookup_insert_Some in Hq as [[_ <-]|[_ Hq]]; [done|]. apply T2 in Hq. lia.
    - intros h q Hq. apply lookup_insert_Some in Hq as [[<- <-]|[_ Hq]]; [split; [apply sha256_length|done]|].
      apply T3 in Hq as [? ?]. split; [done|lia]. }
  destruct (by_email r !! sp_email s) as [p|] eqn:Ep; intros [= <- <- <-]; apply Hext; rewrite ?length_alter, ?length_app; simpl; try lia.
  - apply (rt_email _ Hr) in Ep. lia.
  - apply forall_alter; [|done]. intros e He. destruct (entry_typed_steps e 0 s He) as (_ & _ & _ & Ha & _).
    destruct (negb _); [|done]. by apply (entry_typed_steps _ 0 s).
  - apply Forall_app. split; [done|]. apply Forall_singleton. unfold entry_typed, in_u. simpl. lia.
Qed.

Lemma reg_typed_replace specs r : reg_typed r → reg_typed (replace specs r).
Proof.
  intros Hr. unfold replace. destruct (foldl (replace_one r) _ specs) as [[hs em] hm] eqn:E.
  destruct (replace_loop_typed _ _ _ _ _ Hr E) as [_ Ht]. clear E Hr.
  generalize (map_to_list (by_email r)). intros l. revert hs Ht. induction l as [|x l IH]; intros hs Ht; [done|].
  cbn [foldl]. apply IH. case_decide; [done|].
  apply (reg_typed_update (mkRegistry hs em hm) x.2 revoke); [|done].
  intros e He. by apply (entry_typed_steps e 0 (mkSpec [] [] 0 0)).
Qed.

Lemma reg_typed_step x y : reg_typed x.1 → ustep x y → reg_typed y.1.
Proof.
  intros Hx Hs. pose (sp := mkSpec [] [] 0 0).
  destruct Hs as [now h u r r' gs E|u r gs gs' Hp|p n r gs|p n r gs|p r gs|specs r gs]; simpl in *.
  - apply authenticate_exact in E as (_ & _ & -> & _). apply reg_typed_update; [|done].
    intros e He. by apply (entry_typed_steps e 1 sp).
  - apply reg_typed_update; [|done]. intros e He. by apply (entry_typed_steps e (-1) sp).
  - apply reg_typed_update; [|done]. intros e He. by apply (entry_typed_steps e n sp).
  - apply reg_typed_update; [|done]. intros e He. by apply (entry_typed_steps e n sp).
  - apply reg_typed_update; [|done]. intros e He. by apply (entry_typed_steps e 0 sp).
  - by apply reg_typed_replace.
Qed.

End registry.

(** *** Witnesses *)

Definition alice : UserSpec := mkSpec (str "a@x") (str "pw-a") 100 0.
Definition alice_rekeyed : UserSpec := mkSpec (str "a@x") (str "pw-2") 100 0.
Definition bob : UserSpec := mkSpec (str "b@x") (str "pw-b") 0 50.
Definition demo_users : Registry := with_users (H := toy_sha256) [alice; bob].

Lemma demo_specs_wf : wf_specs (H := toy_sha256) [alice; bob] ∧ wf_specs (H := toy_sha256) [alice_rekeyed].
Proof. split; apply (bool_decide_unpack _); vm_compute; done. Qed.

Lemma demo_users_inv : reg_inv demo_users.
Proof. apply (replace_inv (H := toy_sha256)); [apply reg_inv_new|apply demo_specs_wf]. Qed.

Lemma replace_user_set_witness :
  let r' := replace (H := toy_sha256) [alice_rekeyed] demo_users in
  reg_inv r' ∧ (∀ a, is_Some (by_email r' !! a) ↔ a ∈ sp_email <$> [alice_rekeyed]).
Proof.
  destruct (replace_user_set (H := toy_sha256) demo_users [alice_rekeyed] demo_users_inv (proj2 demo_specs_wf)) as (H1 & H2 & _).
  by split.
Defined.

Lemma replace_retires_connections_witness :
  authed_deny_reason 10 (mkAuthed 0 0) (replace (H := toy_sha256) [alice_rekeyed] demo_users) = Some Revoked ∧
  authed_deny_reason 10 (mkAuthed 0 0) (replace (H := toy_sha256) [alice; bob] demo_users) = None.
Proof.
  split.
  - etrans; [apply (replace_retires_connections (H := toy_sha256) demo_users [alice_rekeyed] 10 (mkAuthed 0 0)
               (UserEntry_new alice) demo_users_inv (proj2 demo_specs_wf)); vm_compute; reflexivity|].
    vm_compute. reflexivity.
  - etrans; [apply (replace_retires_connections (H := toy_sha256) demo_users [alice; bob] 10 (mkAuthed 0 0)
               (UserEntry_new alice) demo_users_inv (proj1 demo_specs_wf)); vm_compute; reflexivity|].
    vm_compute. reflexivity.
Defined.

Lemma rekey_race_keeps_old_session_witness :
  let r1 := replace (H := toy_sha256) [alice_rekeyed] demo_users in
  let '(u, r2) := AuthedUser_new 0 r1 in
  auth_lookup 10 (fill32 (str "pw-a")) r1 ≠ Some 0 ∧
  authed_deny_reason 10 u r2 = deny_reason_at 10 (bump_generation (apply_limits alice_rekeyed (UserEntry_new alice))).
Proof.
  apply (rekey_race_keeps_old_session (H := toy_sha256) demo_users [alice_rekeyed] 10 (fill32 (str "pw-a")) 0
    (UserEntry_new alice) alice_rekeyed);
    [apply demo_users_inv|apply demo_specs_wf|vm_compute; reflexivity..|left|reflexivity|by vm_compute|by vm_compute].
Defined.

Lemma connection_counts_witness :
  ∃ e, users (update_user 0 (add_connections 1) demo_users) !! 0 = Some e ∧ connections e = 1%Z.
Proof.
  eexists. split; [vm_compute; reflexivity|].
  apply (connection_counts (H := toy_sha256) [alice; bob]
    (update_user 0 (add_connections 1) demo_users, [mkAuthed 0 0])) with (p := 0); [|vm_compute; reflexivity].
  apply rtc_once. apply (us_auth (H := toy_sha256) 10 (fill32 (str "pw-a"))). vm_compute. reflexivity.
Defined.

