(* ===== verification/Api.v ===== *)
(** * The management API ([src/node_api/api.rs])

    The routes a supervising panel drives the registry through.  HTTP, JSON and
    percent-decoding are third-party crates: a request carries what they make of
    the wire ([Request]), and [ApiCodec] is their decoding of a path segment and
    of a body. *)

From stdpp Require Import sorting.
From S2P Require Import Prelude RustStr Users.
From Stdlib Require Import Strings.Byte.

Definition MAX_BODY_BYTES : Z := (8 * 1024 * 1024)%Z.

Record UsersPutEntry : Type := mkPut { pe_password : bytes; pe_quota_bytes : Z; pe_expires_unix : Z }.

(** The entries of [UsersPutBody] as the hash map iterates them. *)
Abbreviation UsersPutBody := (list (bytes * UsersPutEntry)).

Class ApiCodec : Type := {
  percent_decode : bytes → bytes;
  percent_decode_plain : ∀ s, "%"%byte ∉ s → percent_decode s = s;
  json_users : bytes → option UsersPutBody;
}.

(** A codec for examples: no escapes, and every body is one user. *)
Program Definition toy_codec : ApiCodec :=
  {| percent_decode := fun s => s;
     json_users := fun b => if decide (b = []) then None else Some [(b, mkPut b 0 0)] |}.
Next Obligation. done. Qed.

Inductive Method : Type := GET | PUT | POST | OtherMethod.

(** A request: [authorization] is the header, if present, and its text, if it is
    printable; [body_upper] the upper size hint; [body] what collecting gives. *)
Record Request : Type := mkRequest {
  method : Method;
  path : bytes;
  authorization : option (option bytes);
  body_upper : option Z;
  body : result bytes;
}.

Record StatsUser : Type := mkStats {
  su_connections : Z;
  bytes_in : Z;
  bytes_out : Z;
  su_quota_used : Z;
  su_quota_bytes : Z;
  su_expires_unix : Z;
}.

Inductive Payload : Type :=
  | ErrorBody (message : bytes)
  | StatusOk
  | StatsBody (stats : gmap bytes StatsUser)
  | UsersBody (n : nat)
  | EmailBody (e : bytes).

Record Response : Type := mkResponse { status : Z; payload_of : Payload }.

(** ** Operations *)

(** Byte-wise lexicographic order, [str::cmp]. *)
Fixpoint bytes_leb (a b : bytes) : bool :=
  match a, b with
  | [], _ => true
  | _ :: _, [] => false
  | x :: a', y :: b' =>
      if (byte_to_Z x <? byte_to_Z y)%Z then true
      else if (byte_to_Z y <? byte_to_Z x)%Z then false else bytes_leb a' b'
  end.

Definition email_le (s t : UserSpec) : Prop := bytes_leb (sp_email s) (sp_email t) = true.

#[global] Instance email_le_dec : RelDecision email_le.
Proof. intros s t. unfold email_le. apply _. Defined.

(** [UsersPutBody::into_specs]. *)
Definition entry_spec (x : bytes * UsersPutEntry) : UserSpec :=
  mkSpec x.1 (pe_password x.2) (pe_quota_bytes x.2) (pe_expires_unix x.2).
Definition into_specs (b : UsersPutBody) : list UserSpec := merge_sort email_le (entry_spec <$> b).

(** [collect_stats]. *)
Definition stats_of (e : UserEntry) : StatsUser :=
  mkStats (connections e) (up e) (down e) (quota_used e) (quota_bytes e) (expires_unix e).
Definition collect_stats (r : Registry) : gmap bytes StatsUser :=
  list_to_map ((fun e => (email e, stats_of e)) <$> entries r).

(** [authorized]: the comparison folds the differing bits of all bytes. *)
Definition same_bytes (a b : bytes) : bool :=
  (foldl (fun acc xy => Z.lor acc (Z.lxor (byte_to_Z xy.1) (byte_to_Z xy.2))) 0 (zip a b) =? 0)%Z.

Definition presented_token (value : bytes) : bytes := default value (strip_prefix (str "Bearer ") value).

Definition authorized (req : Request) (token : option bytes) : bool :=
  match token with
  | None => true
  | Some token =>
      match authorization req with
      | None => false
      | Some None => false
      | Some (Some value) =>
          let a := presented_token value in
          if length a =? length token then same_bytes a token else false
      end
  end.

Section api.
  Context `{Sha256, ApiCodec}.

(** [reset_quota_target]. *)
Definition reset_quota_target (p : bytes) : option bytes :=
  rest ← strip_prefix (str "/users/") p ≫= strip_suffix (str "/reset-quota");
  if bool_decide (rest = []) || contains "/"%byte rest then None
  else
    let decoded := percent_decode rest in
    if utf8_valid decoded then Some decoded else None.

Definition error_response (status : Z) (message : bytes) : Response := mkResponse status (ErrorBody message).

(** [route]; the texts of third-party errors are not part of the model. *)
Definition route (req : Request) (token : option bytes) (r : Registry) : Response * Registry :=
  if negb (authorized req token) then (error_response 401 (str "invalid or missing bearer token"), r)
  else
    let not_found := (error_response 404 (str "no such endpoint"), r) in
    match method req with
    | GET =>
        if decide (path req = str "/healthz") then (mkResponse 200 StatusOk, r)
        else if decide (path req = str "/stats") then (mkResponse 200 (StatsBody (collect_stats r)), r)
        else not_found
    | PUT =>
        if decide (path req = str "/users") then
          if (MAX_BODY_BYTES <? default u64_max (body_upper req))%Z
          then (error_response 413 (str "request body too large"), r)
          else
            match body req with
            | Err e => (error_response 400 (str "cannot read body: " ++ err_msg e), r)
            | Ok b =>
                match json_users b with
                | None => (error_response 400 (str "invalid JSON"), r)
                | Some u =>
                    let r' := replace (into_specs u) r in
                    (mkResponse 200 (UsersBody (size (by_email r'))), r')
                end
            end
        else not_found
    | POST =>
        match reset_quota_target (path req) with
        | Some e =>
            match by_email r !! e with
            | Some p => (mkResponse 200 (EmailBody e), update_user p reset_quota r)
            | None => (error_response 404 (str "unknown user"), r)
            end
        | None => not_found
        end
    | OtherMethod => not_found
    end.
End api.

(** ** Lemmas *)

Lemma bytes_leb_total a b : bytes_leb a b = true ∨ bytes_leb b a = true.
Proof.
  revert b. induction a as [|x a IH]; intros [|y b]; simpl; auto.
  destruct (Z.ltb_spec (byte_to_Z x) (byte_to_Z y)), (Z.ltb_spec (byte_to_Z y) (byte_to_Z x)); auto; lia.
Qed.

Lemma bytes_leb_trans a b c : bytes_leb a b = true → bytes_leb b c = true → bytes_leb a c = true.
Proof.
  revert b c. induction a as [|x a IH]; intros [|y b] [|z c]; simpl; try done.
  destruct (Z.ltb_spec (byte_to_Z x) (byte_to_Z y)), (Z.ltb_spec (byte_to_Z y) (byte_to_Z x)),
    (Z.ltb_spec (byte_to_Z y) (byte_to_Z z)), (Z.ltb_spec (byte_to_Z z) (byte_to_Z y)),
    (Z.ltb_spec (byte_to_Z x) (byte_to_Z z)), (Z.ltb_spec (byte_to_Z z) (byte_to_Z x)); eauto; lia || done.
Qed.

Lemma bytes_leb_antisym a b : bytes_leb a b = true → bytes_leb b a = true → a = b.
Proof.
  revert b. induction a as [|x a IH]; intros [|y b]; simpl; try done.
  destruct (Z.ltb_spec (byte_to_Z x) (byte_to_Z y)), (Z.ltb_spec (byte_to_Z y) (byte_to_Z x)); try (lia || done).
  intros. f_equal; [apply byte_to_Z_inj; lia|auto].
Qed.

#[global] Instance email_le_total : Total email_le.
Proof. intros s t. apply bytes_leb_total. Qed.
#[global] Instance email_le_trans : Transitive email_le.
Proof. intros s t u. apply bytes_leb_trans. Qed.

(** The folded comparison is equality, for strings of one length. *)
Lemma fold_lor_zero (l : list (byte * byte)) acc :
  (0 ≤ acc)%Z →
  foldl (fun acc xy => Z.lor acc (Z.lxor (byte_to_Z xy.1) (byte_to_Z xy.2))) acc l = 0%Z ↔
  acc = 0%Z ∧ Forall (fun xy => xy.1 = xy.2) l.
Proof.
  revert acc. induction l as [|[x y] l IH]; intros acc Ha; simpl; [split; [by split|by intros [? _]]|].
  pose proof (byte_to_Z_range x). pose proof (byte_to_Z_range y).
  rewrite IH by (apply Z.lor_nonneg; split; [done|apply Z.lxor_nonneg; lia]).
  rewrite Z.lor_eq_0_iff, Z.lxor_eq_0_iff, Forall_cons. simpl.
  split; [intros [[? ?%byte_to_Z_inj] ?]; auto|intros (-> & -> & ?); auto].
Qed.

Lemma same_bytes_eq a b : length a = length b → same_bytes a b = true ↔ a = b.
Proof.
  intros Hl. unfold same_bytes. rewrite Z.eqb_eq, fold_lor_zero by done.
  split; [intros [_ HF]|intros ->; split; [done|]].
  - revert b Hl HF. induction a as [|x a IH]; intros [|y b] Hl HF; simplify_eq/=; [done|].
    apply Forall_cons in HF as [Hxy HF]. simpl in Hxy. subst. f_equal. auto.
  - clear Hl. induction b; simpl; by constructor.
Qed.

(** ** Properties *)

(** The bearer check accepts exactly the configured token: with a token set,
    a request is let through if and only if its [Authorization] header is
    printable and its text, less an optional [Bearer ] prefix, equals the
    token; the constant-time fold is equality.  Without a token everyone is. *)
Theorem authorized_iff_token req token :
  authorized req token = true ↔
  match token with
  | None => True
  | Some t => ∃ value, authorization req = Some (Some value) ∧ presented_token value = t
  end.
Proof.
  unfold authorized. destruct token as [t|]; [|done].
  destruct (authorization req) as [[value|]|]; [|naive_solver..].
  destruct (Nat.eqb_spec (length (presented_token value)) (length t)) as [Hl|Hl].
  - rewrite same_bytes_eq by done. naive_solver.
  - split; [done|]. intros (v & [= <-] & <-). done.
Qed.


(** The user set derived from a body does not depend on the order in which
    its hash map is iterated: two nodes given the same body resolve a password
    collision the same way, and the specs are exactly the entries, by e-mail. *)
Theorem into_specs_deterministic (b1 b2 : UsersPutBody) :
  NoDup b1.*1 → b1 ≡ₚ b2 →
  into_specs b1 = into_specs b2 ∧ into_specs b1 ≡ₚ entry_spec <$> b1 ∧ Sorted email_le (into_specs b1).
Proof.
  intros Hnd Hp. split_and!; [|apply merge_sort_Permutation|apply Sorted_merge_sort, _].
  eapply (Sorted_unique_strong email_le); [|apply Sorted_merge_sort, _..|].
  - intros s t Hs Ht Hst Hts. unfold into_specs in Hs, Ht. rewrite merge_sort_Permutation in Hs, Ht.
    apply list_elem_of_fmap in Hs as (x & -> & Hx), Ht as (y & -> & Hy). rewrite <- Hp in Hy.
    assert (x.1 = y.1) as E by (by apply bytes_leb_antisym).
    apply list_elem_of_lookup in Hx as [i Hi], Hy as [j Hj].
    assert (i = j) as ->; [|congruence].
    eapply (NoDup_lookup b1.*1); [done|by rewrite list_lookup_fmap, Hi|]. rewrite list_lookup_fmap, Hj. simpl. by rewrite E.
  - unfold into_specs. rewrite !merge_sort_Permutation. by rewrite Hp.
Qed.

(** The stats report exactly the users served, each with its counters. *)
Theorem stats_are_exact r a :
  reg_inv r → collect_stats r !! a = stats_of <$> get a r.
Proof.
  intros Hr. unfold collect_stats, get.
  assert (∀ e, e ∈ entries r ↔ ∃ p, by_email r !! email e = Some p ∧ users r !! p = Some e) as Hin.
  { intros e. unfold entries. rewrite list_elem_of_omap. split.
    - intros (p & Hp & He). apply list_elem_of_fmap in Hp as ([b q] & -> & Hq%elem_of_map_to_list).
      destruct Hr as [R1 _]. destruct (R1 _ _ Hq) as (e' & He' & <- & _). simpl in *. simplify_eq. eauto.
    - intros (p & Hp & He). exists p. split; [|done]. apply list_elem_of_fmap. exists (email e, p).
      split; [done|]. by apply elem_of_map_to_list. }
  destruct (list_to_map _ !! a) as [st|] eqn:E.
  - apply elem_of_list_to_map_2, list_elem_of_fmap in E as (e & [= -> ->] & (p & Hp & He)%Hin).
    rewrite Hp. simpl. by rewrite He.
  - apply not_elem_of_list_to_map in E. destruct (by_email r !! a) as [p|] eqn:Hp; simpl; [|done].
    destruct (users r !! p) as [e|] eqn:He; simpl; [|done]. exfalso. apply E.
    destruct Hr as [R1 R2]. destruct (R1 _ _ Hp) as (e' & He' & <- & _). simplify_eq.
    rewrite <- list_fmap_compose. apply list_elem_of_fmap. exists e. split; [done|]. apply Hin. eauto.
Qed.

(** *** Witnesses *)

Lemma into_specs_deterministic_witness :
  let b1 := [(str "b@x", mkPut (str "p") 0 0); (str "a@x", mkPut (str "p") 0 0)] in
  let b2 := [(str "a@x", mkPut (str "p") 0 0); (str "b@x", mkPut (str "p") 0 0)] in
  into_specs b1 = into_specs b2 ∧ into_specs b1 ≡ₚ entry_spec <$> b1 ∧ Sorted email_le (into_specs b1).
Proof.
  intros b1 b2. apply (into_specs_deterministic b1 b2).
  - apply (bool_decide_unpack _). vm_compute. done.
  - apply Permutation_swap.
Defined.

Lemma stats_are_exact_witness :
  collect_stats demo_users !! str "a@x" = stats_of <$> get (str "a@x") demo_users.
Proof. apply stats_are_exact, demo_users_inv. Defined.

(** The path tests of [api.rs], evaluated. *)
Example test_reset_path :
  reset_quota_target (H0 := toy_codec) (str "/users/a@x/reset-quota") = Some (str "a@x") ∧
  reset_quota_target (H0 := toy_codec) (str "/users//reset-quota") = None ∧
  reset_quota_target (H0 := toy_codec) (str "/users/a/b/reset-quota") = None ∧
  reset_quota_target (H0 := toy_codec) (str "/users/a@x") = None.
Proof. vm_compute. done. Qed.
