(* ===== verification/Uot.v ===== *)
(** * UDP over TCP (src/src/uot/mod.rs)

    The request and packet codec of the UOT protocol, read from the rest of a
    stream: a reader is the list of the bytes that are still to come before
    its end.  SOCKS addresses belong to the [socks5_impl] crate, so they enter
    as a type class with the laws of their codec. *)

From S2P Require Import Prelude RustStr.
From Stdlib Require Import Strings.Byte.

(** ** Readers *)

Definition read_int_eof : io_error := IoError UnexpectedEof (str "unexpected end of file").
Definition read_exact_eof : io_error := IoError UnexpectedEof (str "early eof").

(** [AsyncReadExt::read_u8], [read_u16], [read_exact]: at the end of the stream
    they fail, and what they had read is gone. *)
Definition read_u8 : ioM bytes Z := fun s =>
  match s with [] => (Err read_int_eof, []) | b :: s' => (Ok (byte_to_Z b), s') end.

Definition read_u16 : ioM bytes Z := fun s =>
  match s with b :: c :: s' => (Ok (be_decode [b; c]), s') | _ => (Err read_int_eof, []) end.

Definition read_exact (n : nat) : ioM bytes bytes := fun s =>
  if decide (n ≤ length s) then (Ok (take n s), drop n s) else (Err read_exact_eof, []).

(** ** SOCKS addresses ([socks5_impl::protocol::Address])

    The operations the program calls. *)
Class AddressCodec (Address : Type) : Type := {
  DomainAddress : bytes → Z → Address;
  as_domain : Address → option (bytes * Z);
  unspecified : Address;
  write_to_buf : Address → bytes;
  retrieve_from_async_stream : ioM bytes Address;
}.

(** What the crate documents about them: reading takes back exactly what
    writing produced, and an address cut short is an unexpected end.
    [addr_wire] singles out the addresses the wire format can hold (a domain of
    at most 255 bytes, a 16-bit port). *)
Class AddressLaws (Address : Type) `{!AddressCodec Address} : Type := {
  addr_wire : Address → Prop;
  as_domain_DomainAddress : ∀ d p, as_domain (DomainAddress d p) = Some (d, p);
  domain_wire : ∀ d p, (length d < 256)%nat → in_u 16 p → addr_wire (DomainAddress d p);
  unspecified_wire : addr_wire unspecified;
  retrieve_write : ∀ a s, addr_wire a → retrieve_from_async_stream (write_to_buf a ++ s) = (Ok a, s);
  retrieve_cut : ∀ a k, addr_wire a → k < length (write_to_buf a) →
    ∃ e s, retrieve_from_async_stream (take k (write_to_buf a)) = (Err e, s) ∧ err_kind e = UnexpectedEof;
}.

(** ** The protocol *)

Definition V2_MAGIC_ADDRESS : bytes := str "sp.v2.udp-over-tcp.arpa".

Inductive UotMode : Type := Datagram | Connected.

#[global] Instance uot_mode_eq_dec : EqDecision UotMode.
Proof. solve_decision. Defined.

(** [UotMode::try_from] and [u8::from(mode)]. *)
Definition mode_try_from (value : Z) : result UotMode :=
  if decide (value = 0%Z) then Ok Datagram
  else if decide (value = 1%Z) then Ok Connected
  else Err (IoError InvalidData (str "invalid UOT mode: " ++ to_dec value)).

Definition mode_into (m : UotMode) : Z := match m with Datagram => 0 | Connected => 1 end.

Definition too_large : io_error := IoError InvalidInput (str "UOT packet too large").
Definition needs_destination : io_error := IoError InvalidInput (str "Datagram mode requires a destination").
Definition forbids_destination : io_error := IoError InvalidInput (str "Connected mode does not allow a destination").

Section Uot.
Context {Address : Type} `{!AddressCodec Address}.

Record UotRequest : Type := mkRequest { req_mode : UotMode; req_destination : Address }.

Definition request_into (r : UotRequest) : bytes :=
  Z_to_byte (mode_into (req_mode r)) :: write_to_buf (req_destination r).

Definition uot_sentinel_destination : Address := DomainAddress V2_MAGIC_ADDRESS 0.

Definition uot_is_sentinel_destination (a : Address) : bool :=
  match as_domain a with Some (domain, _) => bool_decide (domain = V2_MAGIC_ADDRESS) | None => false end.

Definition uot_get_request_from_stream : ioM bytes UotRequest :=
  value ← read_u8;
  mode ← io_lift (mode_try_from value);
  destination ← retrieve_from_async_stream;
  mret (mkRequest mode destination).

Definition uot_encode_packet (mode : UotMode) (destination : option Address) (payload : bytes) : result bytes :=
  if (u16_max <? Z.of_nat (length payload))%Z then Err too_large
  else match mode with
  | Datagram =>
      match destination with
      | None => Err needs_destination
      | Some d => Ok (write_to_buf d ++ be_encode 2 (wrap 16 (Z.of_nat (length payload))) ++ payload)
      end
  | Connected =>
      match destination with
      | Some _ => Err forbids_destination
      | None => Ok (be_encode 2 (wrap 16 (Z.of_nat (length payload))) ++ payload)
      end
  end.

Definition uot_get_packet_from_stream (mode : UotMode) : ioM bytes (option Address * bytes) :=
  match mode with
  | Datagram =>
      destination ← retrieve_from_async_stream;
      payload_len ← read_u16;
      payload ← read_exact (Z.to_nat payload_len);
      mret (Some destination, payload)
  | Connected =>
      payload_len ← read_u16;
      payload ← read_exact (Z.to_nat payload_len);
      mret (None, payload)
  end.

(** Reading [k] packets one after the other, as the relay loops do. *)
Fixpoint get_packets (mode : UotMode) (k : nat) : ioM bytes (list (option Address * bytes)) :=
  match k with
  | O => mret []
  | S k' =>
      p ← uot_get_packet_from_stream mode;
      ps ← get_packets mode k';
      mret (p :: ps)
  end.

(** The opening of a UDP association by the client (handle_udp_associate): the
    sentinel as the stream's destination, then a datagram request. *)
Definition associate_opening : bytes :=
  write_to_buf uot_sentinel_destination ++ request_into (mkRequest Datagram unspecified).

(** How the server reads a new stream (handle_session, then handle_uot_stream):
    the destination, and behind the sentinel a request. *)
Definition read_opening : ioM bytes (Address + UotRequest) :=
  destination ← retrieve_from_async_stream;
  if uot_is_sentinel_destination destination
  then request ← uot_get_request_from_stream; mret (inr request)
  else mret (inl destination).

Definition dest_ok (mode : UotMode) (wire : Address → Prop) (d : option Address) : Prop :=
  match mode, d with
  | Datagram, Some a => wire a
  | Connected, None => True
  | _, _ => False
  end.

(** ** Lemmas *)

Lemma read_u16_be z s : in_u 16 z → read_u16 (be_encode 2 z ++ s) = (Ok z, s).
Proof.
  intros Hz. pose proof (be_decode_encode_u 16 2 z eq_refl Hz) as Hd.
  pose proof (length_be_encode 2 z) as Hl.
  destruct (be_encode 2 z) as [|b [|c [|? ?]]]; try done. simpl. by rewrite Hd.
Qed.

Lemma read_exact_app p s : read_exact (length p) (p ++ s) = (Ok p, s).
Proof.
  unfold read_exact. rewrite decide_True by (rewrite length_app; lia).
  by rewrite take_app_length, drop_app_length.
Qed.

Lemma read_body payload s :
  (Z.of_nat (length payload) ≤ u16_max)%Z →
  (payload_len ← read_u16; read_exact (Z.to_nat payload_len))
    (be_encode 2 (wrap 16 (Z.of_nat (length payload))) ++ payload ++ s) = (Ok payload, s).
Proof.
  intros Hl. rewrite wrap_small by (unfold in_u; lia).
  unfold mbind, ioM_bind. rewrite read_u16_be by (unfold in_u; lia).
  rewrite Nat2Z.id. apply read_exact_app.
Qed.

(** A length field or a payload cut short fails with an unexpected end. *)
Lemma read_body_cut payload k :
  (Z.of_nat (length payload) ≤ u16_max)%Z → k < 2 + length payload →
  ∃ e s, (payload_len ← read_u16; read_exact (Z.to_nat payload_len))
    (take k (be_encode 2 (wrap 16 (Z.of_nat (length payload))) ++ payload)) = (Err e, s) ∧
    err_kind e = UnexpectedEof.
Proof.
  intros Hl Hk. rewrite wrap_small by (unfold in_u; lia).
  destruct (decide (2 ≤ k)) as [H2|H2].
  - rewrite take_app_ge by (rewrite length_be_encode; lia). rewrite length_be_encode.
    unfold mbind, ioM_bind. rewrite read_u16_be by (unfold in_u; lia). rewrite Nat2Z.id.
    unfold read_exact. rewrite decide_False by (rewrite length_take; lia). eauto.
  - rewrite take_app_le by (rewrite length_be_encode; lia).
    assert (length (take k (be_encode 2 (Z.of_nat (length payload)))) < 2) as Hlt
      by (rewrite length_take, length_be_encode; lia).
    unfold mbind, ioM_bind.
    destruct (take k _) as [|b [|c l]]; simpl in *; [eauto..|lia].
Qed.

Context `{!AddressLaws Address}.

Lemma get_packet_bind mode (x : bytes) :
  uot_get_packet_from_stream mode x =
  (match mode with
   | Datagram => d ← retrieve_from_async_stream; payload ← (n ← read_u16; read_exact (Z.to_nat n)); mret (Some d, payload)
   | Connected => payload ← (n ← read_u16; read_exact (Z.to_nat n)); mret (None, payload)
   end) x.
Proof.
  unfold uot_get_packet_from_stream, mbind, ioM_bind.
  destruct mode; [destruct (retrieve_from_async_stream x) as [[?|?] y]; [|done]|rename x into y];
    by destruct (read_u16 y) as [[?|?] ?].
Qed.

Lemma get_packet_encoded mode d payload buf s :
  dest_ok mode addr_wire d → uot_encode_packet mode d payload = Ok buf →
  uot_get_packet_from_stream mode (buf ++ s) = (Ok (d, payload), s).
Proof.
  unfold uot_encode_packet. intros Hd.
  destruct (Z.ltb_spec u16_max (Z.of_nat (length payload))) as [|Hl]; [done|].
  rewrite get_packet_bind.
  destruct mode, d as [a|]; try done; intros <-%Ok_inj; simpl in Hd; rewrite <- ?app_assoc.
  - by rewrite (ioM_bind_run _ _ _ _ _ (retrieve_write a _ Hd)), (ioM_bind_run _ _ _ _ _ (read_body payload s Hl)).
  - by rewrite (ioM_bind_run _ _ _ _ _ (read_body payload s Hl)).
Qed.

Lemma get_packet_cut mode d payload buf k :
  dest_ok mode addr_wire d → uot_encode_packet mode d payload = Ok buf → k < length buf →
  ∃ e s, uot_get_packet_from_stream mode (take k buf) = (Err e, s) ∧ err_kind e = UnexpectedEof.
Proof.
  unfold uot_encode_packet. intros Hd.
  destruct (Z.ltb_spec u16_max (Z.of_nat (length payload))) as [|Hl]; [done|].
  rewrite get_packet_bind.
  destruct mode, d as [a|]; try done; intros <-%Ok_inj; simpl in Hd; intros Hk; rewrite !length_app, ?length_be_encode in Hk.
  - destruct (decide (k < length (write_to_buf a))) as [Hka|Hka].
    + rewrite take_app_le by lia. destruct (retrieve_cut a k Hd Hka) as (e & s & He & Hke).
      exists e, s. by rewrite (ioM_bind_fail _ _ _ _ _ He).
    + rewrite take_app_ge by lia. rewrite (ioM_bind_run _ _ _ _ _ (retrieve_write a _ Hd)).
      destruct (read_body_cut payload (k - length (write_to_buf a)) Hl) as (e & s & He & Hke); [lia|].
      exists e, s. by rewrite (ioM_bind_fail _ _ _ _ _ He).
  - destruct (read_body_cut payload k Hl) as (e & s & He & Hke); [lia|].
    exists e, s. by rewrite (ioM_bind_fail _ _ _ _ _ He).
Qed.

Lemma get_packets_encoded mode ps bufs rest :
  Forall (fun p => dest_ok mode addr_wire p.1) ps →
  Forall2 (fun p buf => uot_encode_packet mode p.1 p.2 = Ok buf) ps bufs →
  get_packets mode (length ps) (concat bufs ++ rest) = (Ok ps, rest).
Proof.
  intros Hd Henc. revert Hd. induction Henc as [|[d p] buf ps bufs Hp Henc IH]; intros Hd; [done|].
  inversion Hd as [|? ? Hd1 Hd2]; subst. simpl in *. rewrite <- app_assoc.
  unfold mbind, ioM_bind. rewrite (get_packet_encoded _ _ _ _ _ Hd1 Hp). by rewrite (IH Hd2).
Qed.

Lemma get_request_into r s :
  addr_wire (req_destination r) → uot_get_request_from_stream (request_into r ++ s) = (Ok r, s).
Proof.
  intros Hr. unfold uot_get_request_from_stream, request_into, mbind, ioM_bind.
  destruct r as [m d]. simpl. rewrite byte_to_Z_to_byte.
  destruct m; simpl; by rewrite retrieve_write by done.
Qed.

Lemma sentinel_is_sentinel : uot_is_sentinel_destination uot_sentinel_destination = true.
Proof.
  unfold uot_is_sentinel_destination, uot_sentinel_destination.
  rewrite as_domain_DomainAddress. by apply bool_decide_eq_true.
Qed.

(** ** Theorems *)

(** C27. A sequence of UOT packets survives the byte stream: whatever packets the
    sender encoded (in either mode, with payloads up to 65535 bytes), the reader
    gets back the same destinations and payloads in the same order, and stops
    exactly behind the last of them; cut anywhere inside a packet, the stream
    ends in an unexpected-end error and never in a packet that was not sent. *)
Theorem uot_packets_roundtrip mode ps bufs rest :
  Forall (fun p => dest_ok mode addr_wire p.1) ps →
  Forall2 (fun p buf => uot_encode_packet mode p.1 p.2 = Ok buf) ps bufs →
  get_packets mode (length ps) (concat bufs ++ rest) = (Ok ps, rest) ∧
  (∀ i buf k, bufs !! i = Some buf → k < length buf →
    ∃ e s s', get_packets mode i (concat (take i bufs) ++ take k buf) = (Ok (take i ps), s) ∧
      uot_get_packet_from_stream mode s = (Err e, s') ∧ err_kind e = UnexpectedEof).
Proof.
  intros Hd Henc.
  split; [by apply get_packets_encoded|].
  clear rest. revert Hd.
  induction Henc as [|[d p] buf ps bufs Hp Henc IH]; intros Hd i buf' k Hi Hk; [done|].
  inversion Hd as [|? ? Hd1 Hd2]; subst. simpl in *.
  destruct i as [|i]; simpl in *.
  - simplify_eq. destruct (get_packet_cut _ _ _ _ k Hd1 Hp Hk) as (e & s & He & Hke).
    exists e, (take k buf'), s. done.
  - destruct (IH Hd2 i buf' k Hi Hk) as (e & s & s' & Hg & He & Hke).
    exists e, s, s'. split; [|done]. rewrite <- app_assoc.
    unfold mbind, ioM_bind. rewrite (get_packet_encoded _ _ _ _ _ Hd1 Hp). by rewrite Hg.
Qed.

(** The encoder's three error branches are exactly these, and are tested in
    this order: a payload over 65535 bytes, a datagram without a destination, a
    connected packet with one; everything else is encoded. *)
Theorem uot_encode_branches mode d payload :
  match uot_encode_packet mode d payload with
  | Err e =>
      (e = too_large ∧ (u16_max < Z.of_nat (length payload))%Z) ∨
      ((Z.of_nat (length payload) ≤ u16_max)%Z ∧ e = needs_destination ∧ mode = Datagram ∧ d = None) ∨
      ((Z.of_nat (length payload) ≤ u16_max)%Z ∧ e = forbids_destination ∧ mode = Connected ∧ is_Some d)
  | Ok buf =>
      (Z.of_nat (length payload) ≤ u16_max)%Z ∧
      length buf = (match d with Some a => length (write_to_buf a) | None => 0 end) + 2 + length payload ∧
      (is_Some d ↔ mode = Datagram)
  end.
Proof.
  unfold uot_encode_packet.
  destruct (Z.ltb_spec u16_max (Z.of_nat (length payload))); [naive_solver|].
  destruct mode, d as [a|]; rewrite ?length_app, ?length_be_encode.
  - split_and!; [done|lia|by split; [|eauto]].
  - right; left. done.
  - right; right. eauto.
  - split_and!; [done|lia|]. split; [by intros []|done].
Qed.

(** A UDP association opens the way the server reads it: the server finds
    the sentinel, takes the datagram request behind it and is left in front of
    the first packet; a stream whose destination is any other address is never
    taken for UOT. *)
Theorem uot_opening_recognised s :
  read_opening (associate_opening ++ s) = (Ok (inr (mkRequest Datagram unspecified)), s) ∧
  ∀ a, addr_wire a → uot_is_sentinel_destination a = false →
    read_opening (write_to_buf a ++ s) = (Ok (inl a), s).
Proof.
  split.
  - unfold read_opening, associate_opening. rewrite <- app_assoc.
    erewrite ioM_bind_run by (apply retrieve_write, domain_wire; [vm_compute; lia|unfold in_u; lia]).
    rewrite sentinel_is_sentinel. by erewrite ioM_bind_run by apply get_request_into, unspecified_wire.
  - intros a Ha Hs. unfold read_opening, mbind, ioM_bind.
    rewrite retrieve_write by done. by rewrite Hs.
Qed.

(** A request is read back as it was written, and a first byte that is not
    a mode is refused as invalid data before any address is read. *)
Theorem uot_request_roundtrip r b s :
  addr_wire (req_destination r) →
  uot_get_request_from_stream (request_into r ++ s) = (Ok r, s) ∧
  ((1 < byte_to_Z b)%Z →
    uot_get_request_from_stream (b :: s) =
      (Err (IoError InvalidData (str "invalid UOT mode: " ++ to_dec (byte_to_Z b))), s)).
Proof.
  intros Hr. split; [by apply get_request_into|]. intros Hb.
  unfold uot_get_request_from_stream, mbind, ioM_bind, read_u8, io_lift, mode_try_from.
  by rewrite !decide_False by lia.
Qed.
End Uot.

Arguments UotRequest : clear implicits.

(** ** RFC 1928 addresses, an instance of the class *)

Inductive SocksAddress : Type :=
  | SocksV4 (ip : bytes) (port : Z)
  | SocksDomain (domain : bytes) (port : Z)
  | SocksV6 (ip : bytes) (port : Z).

#[global] Instance socks_address_eq_dec : EqDecision SocksAddress.
Proof. solve_decision. Defined.

Definition socks_write (a : SocksAddress) : bytes :=
  match a with
  | SocksV4 ip port => Byte.x01 :: ip ++ be_encode 2 port
  | SocksDomain d port => Byte.x03 :: Z_to_byte (Z.of_nat (length d)) :: d ++ be_encode 2 port
  | SocksV6 ip port => Byte.x04 :: ip ++ be_encode 2 port
  end.

Definition socks_read : ioM bytes SocksAddress :=
  atyp ← read_u8;
  if decide (atyp = 1%Z) then ip ← read_exact 4; port ← read_u16; mret (SocksV4 ip port)
  else if decide (atyp = 3%Z) then
    n ← read_u8; d ← read_exact (Z.to_nat n); port ← read_u16; mret (SocksDomain d port)
  else if decide (atyp = 4%Z) then ip ← read_exact 16; port ← read_u16; mret (SocksV6 ip port)
  else io_fail (IoError Other (str "Unsupported address type")).

Definition socks_wire (a : SocksAddress) : Prop :=
  match a with
  | SocksV4 ip port => length ip = 4 ∧ in_u 16 port
  | SocksDomain d port => length d < 256 ∧ in_u 16 port
  | SocksV6 ip port => length ip = 16 ∧ in_u 16 port
  end.

#[global] Instance socks_codec : AddressCodec SocksAddress := {|
  DomainAddress := SocksDomain;
  as_domain a := match a with SocksDomain d p => Some (d, p) | _ => None end;
  unspecified := SocksV4 (replicate 4 Byte.x00) 0;
  write_to_buf := socks_write;
  retrieve_from_async_stream := socks_read;
|}.

(** The tail [ip ++ port] shared by the three forms. *)
Definition read_tail {A} (n : nat) (k : bytes → Z → A) : ioM bytes A :=
  ip ← read_exact n; port ← read_u16; mret (k ip port).

Lemma read_tail_ok {A} (k : bytes → Z → A) ip port s :
  in_u 16 port → read_tail (length ip) k (ip ++ be_encode 2 port ++ s) = (Ok (k ip port), s).
Proof.
  intros Hp. unfold read_tail, mbind, ioM_bind. rewrite read_exact_app. by rewrite read_u16_be.
Qed.

Lemma read_tail_cut {A} (k : bytes → Z → A) ip port i :
  i < length ip + 2 →
  ∃ e s, read_tail (length ip) k (take i (ip ++ be_encode 2 port)) = (Err e, s) ∧ err_kind e = UnexpectedEof.
Proof.
  intros Hi. unfold read_tail, mbind, ioM_bind.
  destruct (decide (length ip ≤ i)) as [Hl|Hl].
  - rewrite take_app_ge by lia. rewrite read_exact_app.
    assert (length (take (i - length ip) (be_encode 2 port)) < 2) as Hlt
      by (rewrite length_take, length_be_encode; lia).
    destruct (take (i - length ip) _) as [|b [|c l]]; simpl in *; [eauto..|lia].
  - unfold read_exact. rewrite decide_False by (rewrite length_take; lia). eauto.
Qed.

Lemma socks_retrieve_write a s : socks_wire a → socks_read (socks_write a ++ s) = (Ok a, s).
Proof.
  destruct a as [ip p|d p|ip p]; intros [Hl Hp]; unfold socks_read; simpl;
    rewrite <- ?app_assoc; unfold mbind at 1, ioM_bind at 1; simpl.
  - rewrite <- Hl. by apply (read_tail_ok SocksV4).
  - erewrite ioM_bind_run by reflexivity.
    rewrite byte_to_Z_to_byte, Z.mod_small, Nat2Z.id by lia. by apply (read_tail_ok SocksDomain).
  - rewrite <- Hl. by apply (read_tail_ok SocksV6).
Qed.

Lemma socks_retrieve_cut a k : socks_wire a → k < length (socks_write a) →
  ∃ e s, socks_read (take k (socks_write a)) = (Err e, s) ∧ err_kind e = UnexpectedEof.
Proof.
  intros Hw Hk. destruct k as [|k]; [simpl; eauto|].
  destruct a as [ip p|d p|ip p]; destruct Hw as [Hl Hp]; simpl in Hk;
    rewrite ?length_app, ?length_be_encode in Hk; unfold socks_read; simpl;
    unfold mbind at 1, ioM_bind at 1; simpl.
  - rewrite <- Hl. apply (read_tail_cut SocksV4). lia.
  - destruct k as [|k]; simpl; [unfold mbind, ioM_bind; simpl; eauto|].
    erewrite ioM_bind_run by reflexivity.
    rewrite byte_to_Z_to_byte, Z.mod_small, Nat2Z.id by lia. apply (read_tail_cut SocksDomain). lia.
  - rewrite <- Hl. apply (read_tail_cut SocksV6). lia.
Qed.

#[global] Instance socks_laws : AddressLaws SocksAddress := {|
  addr_wire := socks_wire;
  as_domain_DomainAddress d p := eq_refl;
  domain_wire d p Hd Hp := conj Hd Hp;
  unspecified_wire := conj eq_refl (conj (Z.le_refl 0) eq_refl);
  retrieve_write := socks_retrieve_write;
  retrieve_cut := socks_retrieve_cut;
|}.

(** ** Witnesses *)

Definition dns_server : SocksAddress := SocksV4 (repeat Byte.x08 4) 53.
Definition two_packets : list (option SocksAddress * bytes) :=
  [(Some dns_server, str "query"); (Some (SocksDomain (str "a.example") 80), [])].
Definition two_buffers : list bytes :=
  [socks_write dns_server ++ be_encode 2 5 ++ str "query"; socks_write (SocksDomain (str "a.example") 80) ++ be_encode 2 0].

Lemma uot_packets_roundtrip_witness :
  get_packets Datagram 2 (concat two_buffers ++ str "tail") = (Ok two_packets, str "tail").
Proof.
  refine (proj1 (uot_packets_roundtrip Datagram two_packets two_buffers (str "tail") _ _)).
  - repeat constructor; vm_compute; intuition (congruence || lia).
  - repeat constructor.
Defined.

Lemma uot_request_roundtrip_witness :
  uot_get_request_from_stream (request_into (mkRequest Connected dns_server) ++ str "x")
    = (Ok (mkRequest Connected dns_server), str "x") ∧
  (uot_get_request_from_stream (Address := SocksAddress) (Byte.x07 :: str "x")).1
    = Err (IoError InvalidData (str "invalid UOT mode: 7")).
Proof.
  destruct (uot_request_roundtrip (mkRequest Connected dns_server) Byte.x07 (str "x")) as [H1 H2].
  - vm_compute. intuition congruence.
  - split; [exact H1|]. rewrite H2; [reflexivity|]. vm_compute. reflexivity.
Defined.
