(* ===== verification/Panel.v ===== *)
(** * Panel synchronisation (src/src/panel_sync/)

    The traffic audit ([traffic_audit.rs]) and the client that fetches the
    enabled users from a panel and reports their traffic back ([core.rs]).  The
    HTTP exchange and the JSON library are parameters: what a request returned
    is an argument of the operation that made it. *)

From S2P Require Import Prelude RustStr.
From Stdlib Require Import Strings.Byte.

(** A [uuid::Uuid] is its sixteen bytes. *)
Abbreviation Uuid := bytes (only parsing).

(** ** The audit *)

Record ClientNode : Type := mkNode { enable : bool; upstream_traffic : Z; downstream_traffic : Z }.

Definition ClientNode_new : ClientNode := mkNode false 0 0.

Definition add_upstream_traffic (n : Z) (c : ClientNode) : ClientNode :=
  mkNode (enable c) (sat_add64 (upstream_traffic c) n) (downstream_traffic c).
Definition add_downstream_traffic (n : Z) (c : ClientNode) : ClientNode :=
  mkNode (enable c) (upstream_traffic c) (sat_add64 (downstream_traffic c) n).
Definition get_total_traffic (c : ClientNode) : Z := sat_add64 (upstream_traffic c) (downstream_traffic c).
Definition set_enable (b : bool) (c : ClientNode) : ClientNode := mkNode b (upstream_traffic c) (downstream_traffic c).
Definition node_reset (c : ClientNode) : ClientNode := mkNode (enable c) 0 0.
Definition node_reset_upstream (c : ClientNode) : ClientNode := mkNode (enable c) 0 (downstream_traffic c).
Definition node_reset_downstream (c : ClientNode) : ClientNode := mkNode (enable c) (upstream_traffic c) 0.

(** [TrafficAudit] is its [client_map]. *)
Abbreviation TrafficAudit := (gmap Uuid ClientNode).

(** [entry(id).or_default()]. *)
Definition or_default (id : Uuid) (a : TrafficAudit) : TrafficAudit :=
  match a !! id with Some _ => a | None => <[id := ClientNode_new]> a end.

Definition add_client (id : Uuid) (a : TrafficAudit) : TrafficAudit := or_default id a.
Definition remove_client (id : Uuid) (a : TrafficAudit) : TrafficAudit := delete id a.
Definition get_client_list (a : TrafficAudit) : list Uuid := (map_to_list a).*1.
Definition contain_client (id : Uuid) (a : TrafficAudit) : bool := bool_decide (is_Some (a !! id)).
Definition add_upstream_traffic_of (id : Uuid) (n : Z) (a : TrafficAudit) : TrafficAudit :=
  alter (add_upstream_traffic n) id a.
Definition add_downstream_traffic_of (id : Uuid) (n : Z) (a : TrafficAudit) : TrafficAudit :=
  alter (add_downstream_traffic n) id a.
Definition get_upstream_traffic_of (id : Uuid) (a : TrafficAudit) : Z := from_option upstream_traffic 0%Z (a !! id).
Definition get_downstream_traffic_of (id : Uuid) (a : TrafficAudit) : Z := from_option downstream_traffic 0%Z (a !! id).
Definition get_traffic_of (id : Uuid) (a : TrafficAudit) : Z := from_option get_total_traffic 0%Z (a !! id).
Definition set_enable_of (id : Uuid) (b : bool) (a : TrafficAudit) : TrafficAudit :=
  alter (set_enable b) id (or_default id a).
Definition get_enable_of (id : Uuid) (a : TrafficAudit) : bool := from_option enable false (a !! id).
Definition audit_reset (a : TrafficAudit) : TrafficAudit := node_reset <$> a.
Definition reset_of (id : Uuid) (a : TrafficAudit) : TrafficAudit := alter node_reset id a.
Definition reset_upstream_traffic (a : TrafficAudit) : TrafficAudit := node_reset_upstream <$> a.
Definition reset_downstream_traffic (a : TrafficAudit) : TrafficAudit := node_reset_downstream <$> a.
Definition reset_upstream_traffic_of (id : Uuid) (a : TrafficAudit) : TrafficAudit := alter node_reset_upstream id a.
Definition reset_downstream_traffic_of (id : Uuid) (a : TrafficAudit) : TrafficAudit := alter node_reset_downstream id a.

(** [check_incoming_client_approved] of the server. *)
Definition check_incoming_client_approved (panel_sync_enabled : bool) (a : TrafficAudit) (client_id : option Uuid) : bool :=
  if negb panel_sync_enabled then true
  else match client_id with Some id => get_enable_of id a | None => false end.

(** ** Configuration and URLs *)

Record PanelSyncConfig : Type := mkConfig {
  webapi_url : option bytes;
  webapi_token : option bytes;
  node_id : option Z;
  api_update_interval_secs : option Z;
}.

Definition interval_secs (c : PanelSyncConfig) : Z := Z.max (default 10%Z (api_update_interval_secs c)) 5.

Definition node_id_unset : io_error := err_other (str "panel sync node_id not set").
Definition webapi_url_unset : io_error := err_other (str "panel sync webapi_url not set").

Definition build_url (c : PanelSyncConfig) (action : bytes) (params : list (bytes * bytes)) : result bytes :=
  match webapi_url c with
  | None => Err webapi_url_unset
  | Some u =>
      let base := trim_end_matches "/"%byte u in
      let token := default [] (webapi_token c) in
      Ok (foldl (fun url kv => url ++ str "&" ++ kv.1 ++ str "=" ++ kv.2)
                (base ++ str "/mod_mu/" ++ action ++ str "?key=" ++ token) params)
  end.

(** The URL a request of the client goes to; the node id is looked at first. *)
Definition request_url (c : PanelSyncConfig) (action : bytes) : result bytes :=
  match node_id c with
  | None => Err node_id_unset
  | Some n => build_url c action [(str "node_id", to_dec n)]
  end.

(** ** Responses *)

(** What the code asks of a JSON value ([serde_json]). *)
Class JsonValue (V : Type) : Type := {
  get_ret : V → option Z;          (** [get("ret").and_then(as_i64)] *)
  get_data : V → option V;         (** [get("data")] *)
  json_debug : V → bytes;          (** [format!("{:?}")] *)
}.

Record Response (V : Type) : Type := mkResponse { status : Z; body : result V }.
Arguments mkResponse {V} _ _.
Arguments status {V} _.
Arguments body {V} _.

Definition parse_payload {V T} `{JsonValue V} (from_value : V → result T) (r : Response V) : result T :=
  if decide (status r = 200%Z) then
    value ← body r;
    if decide (default 0%Z (get_ret value) = 0%Z)
    then Err (err_other (str "Wrong data: " ++ json_debug value))
    else from_value (default value (get_data value))
  else Err (err_other (to_dec (status r))).

(** A user's [client_id] field, as [deserialize_optional_uuid] reads it. *)
Inductive JsonField : Type := JAbsent | JNull | JString (s : bytes) | JOther.

Definition deserialize_optional_uuid (parse_str : bytes → option Uuid) (v : JsonField) : option Uuid :=
  match v with JString s => parse_str s | _ => None end.

Record SyncUser : Type := mkUser { client_id : option Uuid; user_enable : bool }.

(** ** The client *)

Record ReportRecord : Type := mkReport { r_client : Uuid; r_u : Z; r_d : Z }.

Record PanelSyncClient : Type := mkPanel {
  config : PanelSyncConfig;
  reported_traffic : gmap Uuid (Z * Z);
}.

Definition PanelSyncClient_new (c : PanelSyncConfig) : PanelSyncClient := mkPanel c ∅.

(** One user of the fetched list. *)
Definition sync_user (acc : gset Uuid * TrafficAudit) (user : SyncUser) : gset Uuid * TrafficAudit :=
  match client_id user with
  | Some id => ({[id]} ∪ acc.1, set_enable_of id (user_enable user) (add_client id acc.2))
  | None => acc
  end.

(** One client known before the sync. *)
Definition sync_drop (seen : gset Uuid) (acc : TrafficAudit * gmap Uuid (Z * Z)) (id : Uuid) : TrafficAudit * gmap Uuid (Z * Z) :=
  if bool_decide (id ∈ seen) then acc else (remove_client id acc.1, delete id acc.2).

Definition sync_once (fetched : result (list SyncUser)) (a : TrafficAudit) (c : PanelSyncClient)
  : result unit * TrafficAudit * PanelSyncClient :=
  match fetched with
  | Err e => (Err e, a, c)
  | Ok users =>
      let existing := get_client_list a in
      let '(seen, a1) := foldl sync_user (∅, a) users in
      let '(a2, rep) := foldl (sync_drop seen) (a1, reported_traffic c) existing in
      (Ok tt, a2, mkPanel (config c) rep)
  end.

(** [fetch_sync_payload]: [get] is the HTTP exchange up to the parsed list. *)
Definition fetch_sync_payload (get : bytes → result (list SyncUser)) (c : PanelSyncClient) : result (list SyncUser) :=
  url ← request_url (config c) (str "users"); get url.

(** [report_traffic_once], up to the request: the records and the totals they
    bring the panel to. *)
Definition report_entry (a : TrafficAudit) (rep : gmap Uuid (Z * Z))
    (acc : list ReportRecord * gmap Uuid (Z * Z)) (id : Uuid) : list ReportRecord * gmap Uuid (Z * Z) :=
  let upstream := get_upstream_traffic_of id a in
  let downstream := get_downstream_traffic_of id a in
  let last_reported := default (0, 0)%Z (rep !! id) in
  let delta_upstream := sat_sub64 upstream last_reported.1 in
  let delta_downstream := sat_sub64 downstream last_reported.2 in
  if ((delta_upstream =? 0) && (delta_downstream =? 0))%Z then acc
  else (acc.1 ++ [mkReport id delta_upstream delta_downstream], <[id := (upstream, downstream)]> acc.2).

Definition report_collect (a : TrafficAudit) (c : PanelSyncClient) : list ReportRecord * gmap Uuid (Z * Z) :=
  foldl (report_entry a (reported_traffic c)) ([], ∅) (get_client_list a).

(** After the panel has answered [Ok]. *)
Definition report_commit (current : gmap Uuid (Z * Z)) (c : PanelSyncClient) : PanelSyncClient :=
  mkPanel (config c) (current ∪ reported_traffic c).

(** The whole operation, with the request's outcome as a parameter. *)
Definition report_traffic_once (post : bytes → list ReportRecord → result unit) (a : TrafficAudit) (c : PanelSyncClient)
  : result unit * PanelSyncClient :=
  let '(payload, current) := report_collect a c in
  match payload with
  | [] => (Ok tt, c)
  | _ =>
      match request_url (config c) (str "users/traffic") ≫= fun url => post url payload with
      | Ok _ => (Ok tt, report_commit current c)
      | Err e => (Err e, c)
      end
  end.

(** ** The running node

    The synchronisation task runs next to connections that count traffic.  A
    report is in flight between [p_send] and its answer; traffic goes on
    meanwhile.  [received] is what the panel has acknowledged for each client
    since the client was last added. *)
Record Node : Type := mkN {
  audit : TrafficAudit;
  panel : PanelSyncClient;
  in_flight : option (list ReportRecord * gmap Uuid (Z * Z));
  received : gmap Uuid (Z * Z);
}.

Definition receive_one (m : gmap Uuid (Z * Z)) (r : ReportRecord) : gmap Uuid (Z * Z) :=
  let old := default (0, 0)%Z (m !! r_client r) in
  <[r_client r := (old.1 + r_u r, old.2 + r_d r)%Z]> m.
Definition receive (m : gmap Uuid (Z * Z)) (p : list ReportRecord) : gmap Uuid (Z * Z) := foldl receive_one m p.

Inductive nstep : Node → Node → Prop :=
  | n_up a c f m id n : (0 ≤ n)%Z → nstep (mkN a c f m) (mkN (add_upstream_traffic_of id n a) c f m)
  | n_down a c f m id n : (0 ≤ n)%Z → nstep (mkN a c f m) (mkN (add_downstream_traffic_of id n a) c f m)
  | n_sync a c m fetched r a' c' :
      sync_once fetched a c = (r, a', c') →
      nstep (mkN a c None m) (mkN a' c' None (filter (fun kv => is_Some (a' !! kv.1)) m))
  | n_send a c m : nstep (mkN a c None m) (mkN a c (Some (report_collect a c)) m)
  | n_acked a c p cur m : nstep (mkN a c (Some (p, cur)) m) (mkN a (report_commit cur c) None (receive m p))
  | n_failed a c f m : nstep (mkN a c (Some f) m) (mkN a c None m).

Definition node_start (c : PanelSyncConfig) : Node := mkN ∅ (PanelSyncClient_new c) None ∅.

(** ** Lemmas: synchronisation *)

(** The flag the last entry of [users] for [id] carries. *)
Fixpoint last_flag (id : Uuid) (users : list SyncUser) : option bool :=
  match users with
  | [] => None
  | u :: us =>
      match last_flag id us with
      | Some b => Some b
      | None => if decide (client_id u = Some id) then Some (user_enable u) else None
      end
  end.

Lemma last_flag_snoc id us u :
  last_flag id (us ++ [u]) = if decide (client_id u = Some id) then Some (user_enable u) else last_flag id us.
Proof.
  induction us as [|v us IH]; simpl; [by case_decide|]. rewrite IH. by case_decide.
Qed.

Definition synced_node (a : TrafficAudit) (id : Uuid) (b : bool) : ClientNode :=
  set_enable b (default ClientNode_new (a !! id)).

Lemma or_default_lookup id a k :
  or_default id a !! k = if decide (id = k) then Some (default ClientNode_new (a !! id)) else a !! k.
Proof.
  unfold or_default. case_decide as Hk.
  - subst k. destruct (a !! id) eqn:E; [by rewrite E|by rewrite lookup_insert_eq].
  - destruct (a !! id) eqn:E; [done|by rewrite lookup_insert_ne].
Qed.

Lemma set_enable_of_lookup id b a k :
  set_enable_of id b (add_client id a) !! k =
  if decide (id = k) then Some (synced_node a id b) else a !! k.
Proof.
  unfold set_enable_of, add_client, synced_node. case_decide as Hk.
  - subst k. by rewrite lookup_alter_eq, !or_default_lookup, !decide_True.
  - by rewrite lookup_alter_ne, !or_default_lookup, !decide_False.
Qed.

Lemma sync_users_facts users a seen a1 :
  foldl sync_user (∅, a) users = (seen, a1) →
  (∀ id, id ∈ seen ↔ is_Some (last_flag id users)) ∧
  (∀ id, a1 !! id = match last_flag id users with Some b => Some (synced_node a id b) | None => a !! id end).
Proof.
  revert seen a1. induction users as [|u us IH] using rev_ind; intros seen a1.
  - simpl. intros [= <- <-]. split; [|done]. intros id. rewrite is_Some_alt. simpl. set_solver.
  - rewrite foldl_app. simpl. destruct (foldl sync_user (∅, a) us) as [s0 a0].
    destruct (IH s0 a0 eq_refl) as [H1 H2]. unfold sync_user.
    destruct (client_id u) as [i|] eqn:Ei; simpl; intros [= <- <-].
    + split; intros id; rewrite last_flag_snoc, Ei.
      * case_decide as Hd; [simplify_eq; rewrite is_Some_alt; set_solver|].
        rewrite elem_of_union, elem_of_singleton, H1. naive_solver.
      * rewrite set_enable_of_lookup. repeat case_decide; simplify_eq; try done.
        f_equal. unfold synced_node. rewrite H2.
        destruct (last_flag id us) as [b|]; reflexivity.
    + split; intros id; rewrite last_flag_snoc, Ei, decide_False by done; auto.
Qed.

Lemma sync_drop_facts seen l a0 rep0 a1 rep1 :
  foldl (sync_drop seen) (a0, rep0) l = (a1, rep1) →
  ∀ id, (a1 !! id = if decide (id ∈ l ∧ id ∉ seen) then None else a0 !! id) ∧
        (rep1 !! id = if decide (id ∈ l ∧ id ∉ seen) then None else rep0 !! id).
Proof.
  revert a0 rep0. induction l as [|i l IH]; intros a0 rep0.
  - intros [= <- <-] id. split; case_decide; set_solver.
  - simpl foldl. unfold sync_drop at 2. case_bool_decide as Hi; intros H id; destruct (IH _ _ H id) as [-> ->].
    + split; apply decide_ext; rewrite elem_of_cons; naive_solver.
    + destruct (decide (id = i)) as [->|Hne].
      * rewrite !(decide_True (P := i ∈ i :: l ∧ _)) by (split; [left|done]).
        unfold remove_client; simpl. rewrite !lookup_delete_eq. split; by case_decide.
      * unfold remove_client; simpl. rewrite !lookup_delete_ne by done.
        split; apply decide_ext; rewrite elem_of_cons; naive_solver.
Qed.

Lemma elem_of_client_list id a : id ∈ get_client_list a ↔ is_Some (a !! id).
Proof.
  unfold get_client_list. rewrite list_elem_of_fmap. split.
  - intros ([k c] & -> & H). apply elem_of_map_to_list in H. by eexists.
  - intros [c Hc]. exists (id, c). split; [done|]. by apply elem_of_map_to_list.
Qed.

Lemma sync_once_lookup users a c r a' c' :
  sync_once (Ok users) a c = (r, a', c') →
  (∀ id, a' !! id = match last_flag id users with Some b => Some (synced_node a id b) | None => None end) ∧
  (∀ id, reported_traffic c' !! id =
     if decide (is_Some (a !! id) ∧ last_flag id users = None) then None else reported_traffic c !! id).
Proof.
  unfold sync_once. destruct (foldl sync_user (∅, a) users) as [seen a1] eqn:E1.
  destruct (sync_users_facts _ _ _ _ E1) as [Hseen Ha1].
  destruct (foldl (sync_drop seen) _ _) as [a2 rep] eqn:E2. intros [= <- <- <-].
  split; intros id; destruct (sync_drop_facts _ _ _ _ _ _ E2 id) as [Ha Hr]; simpl.
  - rewrite Ha, Ha1. case_decide as Hd.
    + destruct (last_flag id users) eqn:E; [|done].
      exfalso. apply (proj2 Hd), Hseen. by rewrite E.
    + destruct (last_flag id users) eqn:E; [done|].
      rewrite eq_None_not_Some. intros Hs. apply Hd. split; [by apply elem_of_client_list|].
      rewrite Hseen, E. by intros [].
  - rewrite Hr. apply decide_ext. rewrite elem_of_client_list, Hseen, <- eq_None_not_Some. done.
Qed.

(** ** Lemmas: reports *)

Definition counters (a : TrafficAudit) (id : Uuid) : Z * Z := (get_upstream_traffic_of id a, get_downstream_traffic_of id a).
Definition base (m : gmap Uuid (Z * Z)) (id : Uuid) : Z * Z := default (0, 0)%Z (m !! id).
Definition le2 (x y : Z * Z) : Prop := (x.1 ≤ y.1 ∧ x.2 ≤ y.2)%Z.

(** The record [report_entry] makes for a client, if any. *)
Definition record_of (a : TrafficAudit) (rep : gmap Uuid (Z * Z)) (id : Uuid) : option ReportRecord :=
  let du := sat_sub64 (counters a id).1 (base rep id).1 in
  let dd := sat_sub64 (counters a id).2 (base rep id).2 in
  if ((du =? 0) && (dd =? 0))%Z then None else Some (mkReport id du dd).

Lemma report_collect_facts a rep l p cur :
  foldl (report_entry a rep) ([], ∅) l = (p, cur) →
  p = omap (record_of a rep) l ∧
  ∀ id, cur !! id = if decide (id ∈ l ∧ is_Some (record_of a rep id)) then Some (counters a id) else None.
Proof.
  revert p cur. induction l as [|i l IH] using rev_ind; intros p cur.
  - intros [= <- <-]. split; [done|]. intros id. case_decide; set_solver.
  - rewrite foldl_app, omap_app. simpl. destruct (foldl _ _ l) as [p0 cur0].
    destruct (IH p0 cur0 eq_refl) as [-> Hcur]. unfold report_entry.
    destruct (_ && _)%Z eqn:Ez; simpl; intros [= <- <-].
    + assert (record_of a rep i = None) as Hn by (unfold record_of, base; simpl; by rewrite Ez).
      rewrite Hn, app_nil_r. split; [done|]. intros id. rewrite Hcur.
      apply decide_ext. rewrite elem_of_app, list_elem_of_singleton. split; [naive_solver|].
      intros [[?| ->] ?]; [done|]. rewrite Hn in *. by destruct H.
    + assert (is_Some (record_of a rep i)) as Hs by (unfold record_of, base; simpl; rewrite Ez; eauto).
      assert (record_of a rep i = Some (mkReport i (sat_sub64 (get_upstream_traffic_of i a) (base rep i).1)
        (sat_sub64 (get_downstream_traffic_of i a) (base rep i).2))) as ->
        by (unfold record_of, base; simpl; by rewrite Ez).
      split; [done|]. intros id. destruct (decide (i = id)) as [->|Hne].
      * rewrite lookup_insert_eq, decide_True; [done|]. split; [set_solver|done].
      * rewrite lookup_insert_ne, Hcur by done. apply decide_ext. set_solver.
Qed.

Lemma receive_other p m id : Forall (fun r => r_client r ≠ id) p → receive m p !! id = m !! id.
Proof.
  revert m. induction p as [|r p IH]; intros m H; [done|].
  inversion H; subst. unfold receive in *. simpl. rewrite IH by done. unfold receive_one. by rewrite lookup_insert_ne.
Qed.

Lemma receive_base p m r :
  NoDup (r_client <$> p) → r ∈ p →
  base (receive m p) (r_client r) = ((base m (r_client r)).1 + r_u r, (base m (r_client r)).2 + r_d r)%Z.
Proof.
  revert m. induction p as [|q p IH]; intros m Hnd Hr; [by apply not_elem_of_nil in Hr|].
  simpl in Hnd. apply NoDup_cons in Hnd as [Hq Hnd].
  assert (receive m (q :: p) = receive (receive_one m q) p) as -> by done.
  apply elem_of_cons in Hr as [->|Hr].
  - unfold base at 1. rewrite receive_other.
    + unfold receive_one. by rewrite lookup_insert_eq.
    + apply Forall_forall. intros x Hx Heq. apply Hq. rewrite <- Heq. by apply list_elem_of_fmap_2.
  - rewrite IH by done. assert (r_client q ≠ r_client r) as Hne.
    { intros Heq. apply Hq. rewrite Heq. by apply list_elem_of_fmap_2. }
    unfold base, receive_one. by rewrite lookup_insert_ne.
Qed.

Lemma omap_clients a rep (l : list Uuid) : r_client <$> omap (record_of a rep) l = filter (fun id => is_Some (record_of a rep id)) l.
Proof.
  induction l as [|i l IH]; [done|].
  destruct (record_of a rep i) as [r|] eqn:E.
  - rewrite filter_cons_True by (by rewrite E). simpl. rewrite E. apply (f_equal2 cons); [|exact IH].
    unfold record_of in E. case_match; by simplify_eq.
  - rewrite filter_cons_False by (rewrite E; by intros []). simpl. by rewrite E.
Qed.

(** ** The invariant of the running node *)

Definition in_range (x : Z * Z) : Prop := (0 ≤ x.1 ≤ u64_max ∧ 0 ≤ x.2 ≤ u64_max)%Z.

Definition flight_ok (a : TrafficAudit) (rep : gmap Uuid (Z * Z)) (f : list ReportRecord * gmap Uuid (Z * Z)) : Prop :=
  NoDup (r_client <$> f.1) ∧
  (∀ r, r ∈ f.1 → f.2 !! r_client r = Some ((base rep (r_client r)).1 + r_u r, (base rep (r_client r)).2 + r_d r)%Z) ∧
  (∀ id t, f.2 !! id = Some t → (∃ r, r ∈ f.1 ∧ r_client r = id) ∧ is_Some (a !! id) ∧ le2 t (counters a id)).

Record node_inv (n : Node) : Prop := mkNInv {
  ni_range : ∀ id, in_range (counters (audit n) id);
  ni_known : ∀ id, is_Some (reported_traffic (panel n) !! id) → is_Some (audit n !! id);
  ni_le : ∀ id, le2 (base (reported_traffic (panel n)) id) (counters (audit n) id);
  ni_received : ∀ id, base (received n) id = base (reported_traffic (panel n)) id;
  ni_flight : ∀ f, in_flight n = Some f → flight_ok (audit n) (reported_traffic (panel n)) f;
}.

Lemma node_inv_start c : node_inv (node_start c).
Proof.
  split; simpl; try done.
  intros id. rewrite lookup_empty. by intros [].
Qed.

(** Traffic only grows the counters and keeps the set of clients. *)
Lemma node_inv_grow a a' c f m :
  (∀ id, is_Some (a' !! id) ↔ is_Some (a !! id)) →
  (∀ id, le2 (counters a id) (counters a' id) ∧ in_range (counters a' id)) →
  node_inv (mkN a c f m) → node_inv (mkN a' c f m).
Proof.
  intros Hdom Hgrow [H1 H2 H3 H4 H5]. split; simpl in *.
  - intros id. apply Hgrow.
  - intros id Hid. by apply Hdom, H2.
  - intros id. destruct (H3 id), (Hgrow id) as [[] _]. split; lia.
  - done.
  - intros fl Hf. destruct (H5 fl Hf) as (F1 & F2 & F3). split_and!; [done..|].
    intros id t Ht. destruct (F3 id t Ht) as (? & ? & []), (Hgrow id) as [[] _].
    split_and!; [done|by apply Hdom|split; lia].
Qed.

Lemma sat_add64_grow x n : (0 ≤ x ≤ u64_max → 0 ≤ n → x ≤ sat_add64 x n ∧ 0 ≤ sat_add64 x n ≤ u64_max)%Z.
Proof. unfold sat_add64. lia. Qed.

Lemma traffic_grows id n a (g : ClientNode → ClientNode) :
  (0 ≤ n)%Z → g = add_upstream_traffic n ∨ g = add_downstream_traffic n →
  (∀ k, in_range (counters a k)) →
  (∀ k, is_Some (alter g id a !! k) ↔ is_Some (a !! k)) ∧
  (∀ k, le2 (counters a k) (counters (alter g id a) k) ∧ in_range (counters (alter g id a) k)).
Proof.
  intros Hn Hg Hr. split; intros k.
  - destruct (decide (id = k)) as [->|]; [rewrite lookup_alter_eq, fmap_is_Some; done|by rewrite lookup_alter_ne].
  - specialize (Hr k). unfold counters, le2, in_range, get_upstream_traffic_of, get_downstream_traffic_of in *.
    destruct (decide (id = k)) as [->|]; [rewrite lookup_alter_eq|rewrite lookup_alter_ne by done; simpl in *; lia].
    destruct (a !! k) as [c|]; simpl in *; [|lia].
    pose proof (sat_add64_grow (upstream_traffic c) n). pose proof (sat_add64_grow (downstream_traffic c) n).
    destruct Hg as [-> | ->]; simpl; lia.
Qed.

Lemma node_inv_sync a c m fetched r a' c' :
  sync_once fetched a c = (r, a', c') → node_inv (mkN a c None m) →
  node_inv (mkN a' c' None (filter (fun kv => is_Some (a' !! kv.1)) m)).
Proof.
  intros Hs [H1 H2 H3 H4 _]; simpl in *.
  assert (∀ id, base (filter (fun kv => is_Some (a' !! kv.1)) m) id = if decide (is_Some (a' !! id)) then base m id else (0, 0)%Z) as Hfil.
  { intros id. unfold base. case_decide as Hd.
    - destruct (m !! id) as [x|] eqn:E.
      + by rewrite (map_lookup_filter_Some_2 _ m id x E Hd).
      + by rewrite (proj2 (map_lookup_filter_None _ m id)) by (left; exact E).
    - rewrite (proj2 (map_lookup_filter_None _ m id)); [done|]. right. intros x _. exact Hd. }
  destruct fetched as [users|e].
  2:{ simpl in Hs. simplify_eq. split; simpl; try done. intros id. rewrite Hfil. case_decide as Hd; [apply H4|].
      unfold base. destruct (reported_traffic c' !! id) eqn:E; [|done]. exfalso. apply Hd, H2. by rewrite E. }
  destruct (sync_once_lookup _ _ _ _ _ _ Hs) as [Ha Hrep].
  assert (∀ id, is_Some (a' !! id) → counters a' id = counters a id) as Hcnt.
  { intros id Hid. unfold counters, get_upstream_traffic_of, get_downstream_traffic_of.
    rewrite Ha in *. destruct (last_flag id users) as [b|]; [|by destruct Hid].
    simpl. unfold synced_node, set_enable. by destruct (a !! id). }
  assert (∀ id, ¬ is_Some (a' !! id) → counters a' id = (0, 0)%Z ∧ reported_traffic c' !! id = None) as Hgone.
  { intros id Hid. apply eq_None_not_Some in Hid. split.
    - unfold counters, get_upstream_traffic_of, get_downstream_traffic_of. by rewrite Hid.
    - rewrite Hrep. rewrite Ha in Hid. destruct (last_flag id users); [done|].
      case_decide as Hd; [done|]. apply eq_None_not_Some. intros Hx. apply Hd. split; [by apply H2|done]. }
  assert (∀ id, is_Some (a' !! id) → reported_traffic c' !! id = reported_traffic c !! id) as Hkeep.
  { intros id Hid. rewrite Hrep. rewrite Ha in Hid. destruct (last_flag id users); [|by destruct Hid].
    by rewrite decide_False by naive_solver. }
  split; simpl; [| | | |done]; intros id; destruct (decide (is_Some (a' !! id))) as [Hd|Hd].
  - rewrite Hcnt by done. apply H1.
  - destruct (Hgone id Hd) as [-> _]. unfold in_range. simpl. lia.
  - done.
  - destruct (Hgone id Hd) as [_ ->]. by intros [].
  - unfold base. rewrite Hcnt, Hkeep by done. apply H3.
  - unfold base. by destruct (Hgone id Hd) as [-> ->].
  - rewrite Hfil, decide_True by done. unfold base at 2. rewrite Hkeep by done. apply H4.
  - rewrite Hfil, decide_False by done. unfold base. by destruct (Hgone id Hd) as [_ ->].
Qed.

Lemma node_inv_send a c m : node_inv (mkN a c None m) → node_inv (mkN a c (Some (report_collect a c)) m).
Proof.
  intros [H1 H2 H3 H4 _]. split; simpl in *; try done. intros f [= <-].
  unfold report_collect. destruct (foldl _ _ _) as [p cur] eqn:E.
  destruct (report_collect_facts _ _ _ _ _ E) as [-> Hcur]. unfold flight_ok. simpl. split_and!.
  - rewrite omap_clients. apply NoDup_filter. apply NoDup_fst_map_to_list.
  - intros r Hr. apply list_elem_of_omap in Hr as (id & Hid & Hrec).
    assert (r_client r = id ∧ (base (reported_traffic c) id).1 + r_u r = (counters a id).1 ∧
            (base (reported_traffic c) id).2 + r_d r = (counters a id).2)%Z as (-> & -> & ->).
    { unfold record_of in Hrec. case_match; simplify_eq; simpl.
      destruct (H3 id). unfold sat_sub64. simpl in *. split; [done|lia]. }
    rewrite Hcur, decide_True by eauto. by destruct (counters a id).
  - intros id t Ht. rewrite Hcur in Ht. case_decide as Hd; simplify_eq. destruct Hd as [Hid [r Hr]].
    split_and!; [|by apply elem_of_client_list|by split].
    exists r. split; [|unfold record_of in Hr; case_match; by simplify_eq].
    apply list_elem_of_omap. eauto.
Qed.

Lemma base_union cur rep id : base (cur ∪ rep) id = default (base rep id) (cur !! id).
Proof.
  unfold base. rewrite lookup_union. by destruct (cur !! id), (rep !! id).
Qed.

Lemma node_inv_acked a c p cur m :
  node_inv (mkN a c (Some (p, cur)) m) → node_inv (mkN a (report_commit cur c) None (receive m p)).
Proof.
  intros [H1 H2 H3 H4 H5]; simpl in *. destruct (H5 _ eq_refl) as (F1 & F2 & F3). simpl in *.
  split; simpl; [done| | | |done]; intros id.
  - rewrite lookup_union_is_Some. intros [[t Ht]|]; [by apply (F3 id t)|by apply H2].
  - rewrite base_union. destruct (cur !! id) as [t|] eqn:E; simpl; [by apply (F3 id t)|apply H3].
  - rewrite base_union. destruct (cur !! id) as [t|] eqn:E; simpl.
    + destruct (F3 id t E) as ((r & Hr & <-) & _). rewrite F2 in E by done. simplify_eq.
      by rewrite receive_base, H4.
    + unfold base. rewrite receive_other; [apply H4|]. apply Forall_forall. intros r Hr <-.
      rewrite F2 in E by done. done.
Qed.

Lemma node_inv_step n n' : nstep n n' → node_inv n → node_inv n'.
Proof.
  intros Hs Hn. destruct Hs.
  - destruct (traffic_grows id n a (add_upstream_traffic n)) as [Hd Hg]; [done|by left|apply Hn|].
    by apply (node_inv_grow a).
  - destruct (traffic_grows id n a (add_downstream_traffic n)) as [Hd Hg]; [done|by right|apply Hn|].
    by apply (node_inv_grow a).
  - by eapply node_inv_sync.
  - by apply node_inv_send.
  - by eapply node_inv_acked.
  - destruct Hn as [? ? ? ? ?]. by split.
Qed.

Lemma node_inv_reach c n : rtc nstep (node_start c) n → node_inv n.
Proof.
  intros H. pose proof (node_inv_start c) as H0. induction H as [|x y z Hs _ IH]; [done|].
  by apply IH, (node_inv_step x).
Qed.

(** A report collected from consistent records brings the panel exactly to the
    counters of every client. *)
Lemma collect_brings_up_to_date a c m :
  node_inv (mkN a c None m) → ∀ id, base (receive m (report_collect a c).1) id = counters a id.
Proof.
  intros Hn id. pose proof (node_inv_send _ _ _ Hn) as Hf.
  destruct (report_collect a c) as [p cur] eqn:Ep. simpl.
  pose proof (node_inv_acked _ _ _ _ _ Hf) as [_ _ _ Ha _]. simpl in Ha. rewrite Ha, base_union.
  unfold report_collect in Ep. destruct (report_collect_facts _ _ _ _ _ Ep) as [_ ->].
  destruct Hn as [H1 H2 H3 _ _]; simpl in *. case_decide as Hd; simpl; [done|].
  destruct (H3 id) as [L1 L2]. destruct (decide (is_Some (a !! id))) as [Hs|Hs].
  - assert (record_of a (reported_traffic c) id = None) as Hr.
    { apply eq_None_not_Some. intros Hx. apply Hd. split; [by apply elem_of_client_list|done]. }
    unfold record_of in Hr. case_match eqn:Ez; [|done].
    apply andb_true_iff in Ez as [E1%Z.eqb_eq E2%Z.eqb_eq]. unfold sat_sub64 in *.
    destruct (base (reported_traffic c) id), (counters a id). simpl in *. f_equal; lia.
  - apply eq_None_not_Some in Hs. unfold counters, get_upstream_traffic_of, get_downstream_traffic_of.
    unfold base. destruct (reported_traffic c !! id) eqn:Er; [|by rewrite Hs].
    exfalso. destruct (H2 id) as [? Hx]; [by rewrite Er|]. congruence.
Qed.

(** ** Theorems *)

(** C20. Traffic is reported to the panel exactly once: in every state the node
    can reach, with connections counting traffic while a report is in flight,
    with reports that fail and with users that come and go, what the panel has
    acknowledged for a client is what the node believes to have reported and
    never more than the client's counters; and one more report that the panel
    acknowledges brings it exactly up to the counters. *)
Theorem traffic_reported_once cfg n id :
  rtc nstep (node_start cfg) n →
  base (received n) id = base (reported_traffic (panel n)) id ∧
  le2 (base (received n) id) (counters (audit n) id) ∧
  (in_flight n = None →
    base (receive (received n) (report_collect (audit n) (panel n)).1) id = counters (audit n) id).
Proof.
  intros Hr. pose proof (node_inv_reach _ _ Hr) as Hn. pose proof Hn as [_ _ H3 H4 _].
  split_and!; [apply H4|rewrite H4; apply H3|].
  destruct n as [a c f m]. simpl. intros ->. by apply collect_brings_up_to_date.
Qed.

(** C21. A successful synchronisation makes the audit the panel's user list:
    exactly the listed identifiers remain, each enabled as its last entry says
    and with the counters it had (a new one starts at zero), so a client is
    approved exactly when the list's last entry for it enables it; a failed
    fetch changes nothing. *)
Theorem sync_follows_panel fetched a c r a' c' :
  sync_once fetched a c = (r, a', c') →
  match fetched with
  | Err e => r = Err e ∧ a' = a ∧ c' = c
  | Ok users =>
      r = Ok tt ∧
      ∀ id, (is_Some (a' !! id) ↔ ∃ u, u ∈ users ∧ client_id u = Some id) ∧
            (is_Some (a' !! id) → counters a' id = counters a id) ∧
            check_incoming_client_approved true a' (Some id) = default false (last_flag id users)
  end.
Proof.
  intros Hs. destruct fetched as [users|e]; [|simpl in Hs; by simplify_eq].
  split.
  { unfold sync_once in Hs. do 2 case_match. by simplify_eq. }
  intros id. destruct (sync_once_lookup _ _ _ _ _ _ Hs) as [Ha _]. split_and!.
  - rewrite Ha. assert (is_Some (last_flag id users) ↔ ∃ u, u ∈ users ∧ client_id u = Some id) as <-.
    { clear. induction users as [|u us IH]; simpl.
      - split; [by intros []|set_solver].
      - destruct (last_flag id us) as [b|]; [|case_decide]; split; try (by intros []); try by eauto.
        + intros _. destruct (proj1 IH) as (v & ? & ?); [eauto|]. exists v. split; [by right|done].
        + intros _. exists u. split; [left|done].
        + intros (v & [->|Hv]%elem_of_cons & Hc); [done|]. apply IH. eauto. }
    destruct (last_flag id users); split; intros []; eauto; done.
  - unfold counters, get_upstream_traffic_of, get_downstream_traffic_of. rewrite Ha.
    destruct (last_flag id users); [|by intros []]. intros _. simpl. unfold synced_node. by destruct (a !! id).
  - unfold check_incoming_client_approved, get_enable_of. simpl. rewrite Ha. by destruct (last_flag id users).
Qed.

(** What one report operation does: nothing to report is success without a
    request; a configuration without a node id or without a base URL fails
    before anything is sent; and the totals remembered as reported change only
    after the panel has accepted the records. *)
Theorem report_branches post a c :
  let '(payload, current) := report_collect a c in
  report_traffic_once post a c =
    if bool_decide (payload = []) then (Ok tt, c)
    else match node_id (config c), webapi_url (config c) with
         | None, _ => (Err node_id_unset, c)
         | Some _, None => (Err webapi_url_unset, c)
         | Some n, Some u =>
             match post (trim_end_matches "/"%byte u ++ str "/mod_mu/users/traffic?key=" ++ default [] (webapi_token (config c))
                          ++ str "&node_id=" ++ to_dec n) payload with
             | Ok _ => (Ok tt, report_commit current c)
             | Err e => (Err e, c)
             end
         end.
Proof.
  unfold report_traffic_once. destruct (report_collect a c) as [[|r p] current]; [done|].
  unfold request_url, build_url. simpl. destruct (node_id (config c)) as [n|]; [|done].
  destruct (webapi_url (config c)) as [u|]; [|done]. simpl.
  repeat rewrite <- ?app_assoc, <- ?app_comm_cons. simpl. by destruct (post _ _).
Qed.

(** ** Witnesses *)

Definition demo_config : PanelSyncConfig := mkConfig (Some (str "http://panel/")) (Some (str "key")) (Some 7%Z) None.
Definition id_a : Uuid := str "aaaaaaaaaaaaaaaa".
Definition id_b : Uuid := str "bbbbbbbbbbbbbbbb".
Definition panel_users : list SyncUser := [mkUser (Some id_a) true; mkUser None true; mkUser (Some id_b) false].
Definition demo_synced : result unit * TrafficAudit * PanelSyncClient :=
  sync_once (Ok panel_users) ∅ (PanelSyncClient_new demo_config).
Definition demo_audit : TrafficAudit := add_upstream_traffic_of id_a 10 demo_synced.1.2.

(** A sync, ten bytes up, a report, and five more bytes while it is in flight. *)
Definition demo_node : Node :=
  mkN (add_downstream_traffic_of id_a 5 demo_audit) (report_commit (report_collect demo_audit demo_synced.2).2 demo_synced.2)
    None (receive ∅ (report_collect demo_audit demo_synced.2).1).

Lemma demo_run : rtc nstep (node_start demo_config) demo_node.
Proof.
  eapply rtc_l; [apply (n_sync ∅ _ ∅ (Ok panel_users) demo_synced.1.1 demo_synced.1.2 demo_synced.2); reflexivity|].
  rewrite map_filter_empty.
  eapply rtc_l; [apply (n_up _ _ _ _ id_a 10); lia|].
  eapply rtc_l; [apply n_send|].
  eapply rtc_l; [apply (n_down _ _ _ _ id_a 5); lia|].
  rewrite (surjective_pairing (report_collect (add_upstream_traffic_of id_a 10 demo_synced.1.2) demo_synced.2)).
  eapply rtc_l; [apply n_acked|]. apply rtc_refl.
Qed.

Lemma traffic_reported_once_witness :
  base (received demo_node) id_a = (10, 0)%Z ∧
  le2 (base (received demo_node) id_a) (counters (audit demo_node) id_a) ∧
  base (receive (received demo_node) (report_collect (audit demo_node) (panel demo_node)).1) id_a = (10, 5)%Z.
Proof.
  destruct (traffic_reported_once demo_config demo_node id_a demo_run) as (_ & H2 & H3).
  split_and!; [reflexivity|exact H2|]. rewrite (H3 eq_refl). reflexivity.
Defined.

Lemma demo_synced_eq :
  sync_once (Ok panel_users) ∅ (PanelSyncClient_new demo_config) = (demo_synced.1.1, demo_synced.1.2, demo_synced.2).
Proof. unfold demo_synced. by destruct (sync_once _ _ _) as [[? ?] ?]. Qed.

Lemma sync_follows_panel_witness :
  check_incoming_client_approved true demo_synced.1.2 (Some id_a) = true ∧
  check_incoming_client_approved true demo_synced.1.2 (Some id_b) = false ∧
  (is_Some (demo_synced.1.2 !! id_a) ↔ ∃ u, u ∈ panel_users ∧ client_id u = Some id_a).
Proof.
  destruct (sync_follows_panel (Ok panel_users) ∅ (PanelSyncClient_new demo_config)
    demo_synced.1.1 demo_synced.1.2 demo_synced.2 demo_synced_eq) as [_ H].
  destruct (H id_a) as (Ha & _ & Hb). destruct (H id_b) as (_ & _ & Hc).
  split_and!; [rewrite Hb; reflexivity|rewrite Hc; reflexivity|exact Ha].
Defined.
