(* ===== verification/Server.v ===== *)
(** * Connections: the server's side (bin/server.rs) and the client's opening
    (src/src/client_runner.rs)

    What happens between the TLS handshake and the session: the client sends
    its password hash and a padding that may hold its identifier
    ([dail_out_callback]); the server authenticates, sends everybody else to the
    camouflage target, and polices the connection with [ConnCtx].  A TLS stream
    is the list of what its reads will return; the end of the list is the end
    of the stream. *)

From S2P Require Import Prelude RustStr Padding Users Panel.
From Stdlib Require Import Strings.Byte.

(** ** UUID text (crate [uuid]) *)

Class UuidText : Type := {
  parse_str : bytes → option Uuid;
  uuid_to_string : Uuid → bytes;
}.

Definition uuid_alphabet : bytes := str "0123456789abcdef-".

(** The hyphenated lower-case form: 36 characters that parse back. *)
Class UuidLaws `{!UuidText} : Prop := {
  uuid_parse : ∀ u, length u = 16 → parse_str (uuid_to_string u) = Some u;
  uuid_text_length : ∀ u, length u = 16 → length (uuid_to_string u) = 36;
  uuid_text_chars : ∀ u, Forall (fun b => b ∈ uuid_alphabet) (uuid_to_string u);
}.

(** ** Start-up decisions *)

Record Args : Type := mkArgs {
  a_password : option bytes;
  a_forward : option (bytes * bytes);          (** scheme and URL *)
  a_outbound_is_socks5 : option bool;
  a_panel_webapi_url : option bytes;
  a_panel_webapi_token : option bytes;
  a_panel_node_id : option Z;
  a_users_file : option bytes;
  a_api_bind_to : option bytes;
  a_api_token : option bytes;
}.

Definition panel_sync_enabled (a : Args) : bool :=
  bool_decide (is_Some (a_panel_webapi_url a)) && bool_decide (is_Some (a_panel_webapi_token a)) &&
  bool_decide (is_Some (a_panel_node_id a)).

Definition multi_user_enabled (a : Args) : bool :=
  bool_decide (is_Some (a_users_file a)) || bool_decide (is_Some (a_api_bind_to a)).

Inductive Authenticator : Type :=
  | SharedPassword (expected : bytes)
  | ByUser.

(** How [run] goes on after reading its arguments. *)
Inductive Startup : Type :=
  | StartFails (message : bytes)
  | Exits
  | Starts (auth : Authenticator) (registry : Registry) (api_token : option (option bytes)).

Section startup.
  Context `{Sha256}.

(** [load] reads the users file; [env_token] is ANYTLS_API_TOKEN; [serve] tells
    whether the management API could be started with a token. *)
Definition startup (a : Args) (load : bytes → result (list UserSpec)) (env_token : option bytes)
    (serve : option bytes → result unit) : Startup :=
  if decide (a_outbound_is_socks5 a = Some false)
  then StartFails (str "Only SOCKS5 proxy is supported for outbound_socks5")
  else
    let bad_scheme :=
      match a_forward a with
      | Some (scheme, _) => if decide (scheme = str "http" ∨ scheme = str "https") then None else Some scheme
      | None => None
      end in
    match bad_scheme with
    | Some scheme => StartFails (str "Unsupported forward URL scheme: " ++ scheme)
    | None =>
        let multi_user := multi_user_enabled a in
        let shared_password := default [] (a_password a) in
        if bool_decide (shared_password = []) && negb multi_user then Exits
        else if multi_user && panel_sync_enabled a then Exits
        else if multi_user then
          match (match a_users_file a with Some path => load path | None => Ok [] end) with
          | Err e => StartFails (err_msg e)
          | Ok specs =>
              let token :=
                match a_api_bind_to a with
                | None => None
                | Some _ =>
                    Some (match env_token with
                          | Some t => if decide (t = []) then a_api_token a else Some t
                          | None => a_api_token a
                          end)
                end in
              match (match token with Some t => serve t | None => Ok tt end) with
              | Err e => StartFails (err_msg e)
              | Ok _ => Starts ByUser (with_users specs) token
              end
          end
        else Starts (SharedPassword (sha256 shared_password)) Registry_new None
    end.
End startup.

(** ** Authentication and policing *)

Inductive AuthOutcome : Type := Rejected | Anonymous | User (u : AuthedUser).

#[global] Instance auth_outcome_eq_dec : EqDecision AuthOutcome.
Proof. solve_decision. Defined.

(** The state connections share: the user registry and the panel's audit. *)
Record Shared : Type := mkShared { registry : Registry; traffic_audit : TrafficAudit }.

Definition Authenticator_authenticate (a : Authenticator) (now : Z) (password_hash : bytes) (s : Shared)
  : AuthOutcome * Shared :=
  match a with
  | SharedPassword expected => (if decide (password_hash = expected) then Anonymous else Rejected, s)
  | ByUser =>
      match Users.authenticate now password_hash (registry s) with
      | (Some user, r) => (User user, mkShared r (traffic_audit s))
      | (None, r) => (Rejected, mkShared r (traffic_audit s))
      end
  end.

Record ConnCtx : Type := mkCtx {
  ctx_user : option AuthedUser;
  ctx_client_id : option Uuid;
  ctx_panel_sync_enabled : bool;
}.

Definition ctx_record_up (ctx : ConnCtx) (n : Z) (s : Shared) : Shared :=
  match ctx_user ctx, ctx_client_id ctx with
  | Some u, _ => mkShared (update_user (au_entry u) (record_up n) (registry s)) (traffic_audit s)
  | None, Some id => mkShared (registry s) (add_upstream_traffic_of id n (traffic_audit s))
  | None, None => s
  end.

Definition ctx_record_down (ctx : ConnCtx) (n : Z) (s : Shared) : Shared :=
  match ctx_user ctx, ctx_client_id ctx with
  | Some u, _ => mkShared (update_user (au_entry u) (record_down n) (registry s)) (traffic_audit s)
  | None, Some id => mkShared (registry s) (add_downstream_traffic_of id n (traffic_audit s))
  | None, None => s
  end.

Definition ctx_approved (now : Z) (ctx : ConnCtx) (s : Shared) : bool :=
  match ctx_user ctx with
  | Some u => match authed_deny_reason now u (registry s) with Some _ => false | None => true end
  | None => check_incoming_client_approved (ctx_panel_sync_enabled ctx) (traffic_audit s) (ctx_client_id ctx)
  end.

(** The last reference to the context goes: [Drop for AuthedUser]. *)
Definition drop_user (u : option AuthedUser) (s : Shared) : Shared :=
  match u with Some a => mkShared (drop_authed a (registry s)) (traffic_audit s) | None => s end.

(** ** Reading from the TLS stream *)

Abbreviation tls_input := (list (result bytes)).

Definition tls_read (n : nat) : ioM tls_input bytes := fun input =>
  match input with
  | [] => (Ok [], [])
  | Err e :: rest => (Err e, rest)
  | Ok c :: rest => (Ok (take n c), match drop n c with [] => rest | c' => Ok c' :: rest end)
  end.

(** [while read < n { let k = read(..)?; if k == 0 { break } }].  Each round but
    the last adds a byte, so [n] rounds are enough. *)
Fixpoint read_loop (fuel n : nat) (acc : bytes) : ioM tls_input bytes :=
  match fuel with
  | O => mret acc
  | S f =>
      if decide (n ≤ length acc) then mret acc
      else
        chunk ← tls_read (n - length acc);
        match chunk with [] => mret acc | _ => read_loop f n (acc ++ chunk) end
  end.

Definition read_up_to (n : nat) : ioM tls_input bytes := read_loop n n [].

Definition early_eof : io_error := IoError UnexpectedEof (str "early eof").

Definition tls_read_exact (n : nat) : ioM tls_input bytes :=
  data ← read_up_to n;
  if decide (length data = n) then mret data else io_fail early_eof.

(** ** The connection *)

Definition UUID_STR_LEN : nat := 36.

Definition sni_is_allowed (target : bytes) (allowlist : list bytes) : bool :=
  existsb (fun allowed => eq_ignore_ascii_case allowed target) allowlist.

Inductive ConnEnd : Type :=
  | ConnFailed (e : io_error)
  | Forwarded (target_url : bytes) (prefix : bytes) (rest : tls_input)
  | Probed (target_host : bytes) (prefix : bytes) (rest : tls_input)
  | Ignored
  | Denied
  | Serving (ctx : ConnCtx) (rest : tls_input).

(** What a rejected connection turns into. *)
Definition fallback (forward_target probe_target : option bytes) (allowlist : list bytes)
    (prefix : bytes) (rest : tls_input) : ConnEnd :=
  match forward_target with
  | Some url => Forwarded url prefix rest
  | None =>
      match probe_target with
      | Some host => if sni_is_allowed host allowlist then Probed host prefix rest else Ignored
      | None => Ignored
      end
  end.

Definition outcome_user (o : AuthOutcome) : option AuthedUser := match o with User u => Some u | _ => None end.

Section connection.
  Context `{!UuidText}.

Definition extract_client_id_from_padding (padding_data : bytes) : option Uuid :=
  if decide (length padding_data < UUID_STR_LEN) then None
  else
    let text := take UUID_STR_LEN padding_data in
    if utf8_valid text then
      let candidate := trim (trim_end_matches Byte.x00 text) in
      if decide (length candidate = UUID_STR_LEN) then parse_str candidate else None
    else None.

(** [handle_connection] up to the session's run loop; [now1] is the time of the
    authentication, [now2] that of the approval. *)
Definition handle_connection (auth : Authenticator) (forward_target probe_target : option bytes)
    (allowlist : list bytes) (panel_sync : bool) (now1 now2 : Z) (input : tls_input) (s : Shared) : ConnEnd * Shared :=
  match read_up_to 34 input with
  | (Err e, _) => (ConnFailed e, s)
  | (Ok auth_data, rest) =>
      let '(outcome, s1) :=
        if decide (length auth_data = 34)
        then Authenticator_authenticate auth now1 (take 32 auth_data) s
        else (Rejected, s) in
      match outcome with
      | Rejected => (fallback forward_target probe_target allowlist auth_data rest, s1)
      | _ =>
          let user := outcome_user outcome in
          let padding_len := Z.to_nat (be_decode (drop 32 auth_data)) in
          match (if decide (padding_len = 0) then (Ok None, rest)
                 else (padding_data ← tls_read_exact padding_len; mret (extract_client_id_from_padding padding_data)) rest) with
          | (Err e, _) => (ConnFailed e, drop_user user s1)
          | (Ok client_id, rest') =>
              let ctx := mkCtx user client_id panel_sync in
              if ctx_approved now2 ctx s1 then (Serving ctx rest', s1)
              else (Denied, drop_user user s1)
          end
      end
  end.

(** The authentication block of [dail_out_callback]; [sizes] are the padding
    sizes of packet 0. *)
Definition auth_preamble (password_sha256 : bytes) (client_id : option Uuid) (sizes : list Z) : bytes :=
  let client_id_bytes := from_option uuid_to_string [] client_id in
  let padding_len0 := match sizes with [] => 0%Z | z :: _ => wrap 16 z end in
  let padding_len :=
    if decide (client_id_bytes = []) then padding_len0
    else Z.max padding_len0 (wrap 16 (Z.of_nat (length client_id_bytes))) in
  password_sha256 ++ be_encode 2 padding_len ++
  (if (0 <? padding_len)%Z
   then client_id_bytes ++ replicate (Z.to_nat padding_len - length client_id_bytes) Byte.x00
   else []).
End connection.

(** [relay_probe_stream] and [relay_forward_stream]: what the target receives
    when the client's side has ended, given how connecting went. *)
Definition ok_bytes (input : tls_input) : bytes := concat (omap (fun r => if r is Ok c then Some c else None) input).

Definition relay_probe_stream (connected tls : result unit) (prefix : bytes) (rest : tls_input) : result bytes :=
  _ ← connected; _ ← tls; Ok (prefix ++ ok_bytes rest).

Definition relay_forward_stream (host : option bytes) (port : option Z) (scheme : bytes) (connected tls : result unit)
    (prefix : bytes) (rest : tls_input) : result bytes :=
  match host, port with
  | None, _ => Err (err_other (str "Forward target URL must include a host"))
  | Some _, None => Err (err_other (str "Forward target URL must include a port"))
  | Some _, Some _ =>
      _ ← connected;
      if decide (scheme = str "http") then Ok (prefix ++ ok_bytes rest)
      else if decide (scheme = str "https") then _ ← tls; Ok (prefix ++ ok_bytes rest)
      else Err (err_other (str "Unsupported forward target URL scheme: " ++ scheme))
  end.

(** ** Lemmas: reading *)

Definition chunked (cs : list bytes) : tls_input := Ok <$> cs.
Definition nonempty (cs : list bytes) : Prop := Forall (fun c => c ≠ []) cs.

Lemma ok_bytes_chunked cs : ok_bytes (chunked cs) = concat cs.
Proof. unfold ok_bytes, chunked. induction cs as [|c cs IH]; [done|]. simpl. f_equal. exact IH. Qed.

Lemma tls_read_chunked n cs :
  nonempty cs → 0 < n →
  ∃ d cs', tls_read n (chunked cs) = (Ok d, chunked cs') ∧ nonempty cs' ∧ concat cs = d ++ concat cs' ∧
    length d ≤ n ∧ (d = [] ↔ concat cs = []).
Proof.
  intros Hne Hn. destruct Hne as [|c cs Hc Hcs].
  - exists [], []. split_and!; [done|constructor|done|simpl; lia|done].
  - exists (take n c), (match drop n c with [] => cs | c' => c' :: cs end).
    assert (take n c ≠ []) as Ht by (destruct c, n; simpl; [done..|lia|done]).
    unfold tls_read, chunked. simpl. split_and!.
    + destruct (drop n c) eqn:E; done.
    + destruct (drop n c) eqn:E; [done|]. by constructor.
    + rewrite <- (take_drop n c) at 1. rewrite <- app_assoc. f_equal. by destruct (drop n c).
    + rewrite length_take. lia.
    + split; [done|]. intros H. by apply app_nil in H as [-> _].
Qed.

Lemma read_loop_chunked fuel n acc cs :
  nonempty cs → n ≤ fuel + length acc → length acc ≤ n →
  ∃ cs', read_loop fuel n acc (chunked cs) = (Ok (take n (acc ++ concat cs)), chunked cs') ∧
    nonempty cs' ∧ concat cs' = drop (n - length acc) (concat cs).
Proof.
  revert acc cs. induction fuel as [|f IH]; intros acc cs Hne Hf Hacc.
  - exists cs. assert (n = length acc) as -> by (simpl in Hf; lia).
    split_and!; [by rewrite take_app_length|done|]. by rewrite Nat.sub_diag, drop_0.
  - simpl. case_decide as Hd.
    { exists cs. assert (n = length acc) as -> by lia.
      split_and!; [by rewrite take_app_length|done|]. by rewrite Nat.sub_diag, drop_0. }
    destruct (tls_read_chunked (n - length acc) cs Hne) as (d & cs' & Hr & Hne' & Hcat & Hl & Hnil); [lia|].
    rewrite (ioM_bind_run _ _ _ _ _ Hr). destruct d as [|b d].
    + exists cs'. rewrite (proj1 Hnil eq_refl) in *. simpl in Hcat. rewrite <- Hcat, app_nil_r.
      rewrite take_ge by lia. rewrite drop_nil. done.
    + destruct (IH (acc ++ b :: d) cs' Hne') as (cs'' & -> & Hne'' & Hrest).
      { rewrite length_app. simpl in *. lia. }
      { rewrite length_app. simpl in *. lia. }
      exists cs''. rewrite Hcat, <- app_assoc. split_and!; [done|done|].
      rewrite Hrest. rewrite length_app, drop_app_ge by lia. f_equal. simpl in *. lia.
Qed.

(** Reading does not depend on how the bytes were cut into records. *)
Lemma read_up_to_chunked n cs :
  nonempty cs → ∃ cs', read_up_to n (chunked cs) = (Ok (take n (concat cs)), chunked cs') ∧
    nonempty cs' ∧ concat cs' = drop n (concat cs).
Proof.
  intros Hne. destruct (read_loop_chunked n n [] cs Hne) as (cs' & H1 & H2 & H3); [simpl; lia..|].
  exists cs'. by rewrite Nat.sub_0_r in H3.
Qed.

Lemma tls_read_exact_chunked n cs :
  nonempty cs → n ≤ length (concat cs) →
  ∃ cs', tls_read_exact n (chunked cs) = (Ok (take n (concat cs)), chunked cs') ∧
    nonempty cs' ∧ concat cs' = drop n (concat cs).
Proof.
  intros Hne Hn. destruct (read_up_to_chunked n cs Hne) as (cs' & H1 & H2 & H3).
  exists cs'. split; [|done]. unfold tls_read_exact. rewrite (ioM_bind_run _ _ _ _ _ H1).
  by rewrite decide_True by (rewrite length_take; lia).
Qed.

(** ** Lemmas: the identifier in the padding *)

Section uuid.
  Context `{!UuidText, !UuidLaws}.

Lemma alphabet_facts b : b ∈ uuid_alphabet → (byte_to_Z b <? 128)%Z = true ∧ b ∉ concat ws_chars ∧ b ≠ Byte.x00.
Proof.
  assert (Forall (fun b => (byte_to_Z b <? 128)%Z = true ∧ b ∉ concat ws_chars ∧ b ≠ Byte.x00) uuid_alphabet) as Hall.
  { apply (bool_decide_unpack _). by vm_compute. }
  apply (proj1 (Forall_forall _ _) Hall).
Qed.

Lemma extract_embedded u pad :
  length u = 16 → extract_client_id_from_padding (uuid_to_string u ++ pad) = Some u.
Proof.
  intros Hu. pose proof (uuid_text_length u Hu) as Hl. pose proof (uuid_text_chars u) as Hc.
  unfold extract_client_id_from_padding.
  rewrite decide_False by (rewrite length_app, Hl; unfold UUID_STR_LEN; lia).
  assert (take UUID_STR_LEN (uuid_to_string u ++ pad) = uuid_to_string u) as ->
    by (rewrite take_app_le by (unfold UUID_STR_LEN; lia); rewrite take_ge; [done|unfold UUID_STR_LEN; lia]).
  rewrite utf8_valid_ascii.
  2:{ unfold ascii_only. apply forallb_forall. intros b Hb%list_elem_of_In.
      apply alphabet_facts. by apply (proj1 (Forall_forall _ _) Hc). }
  assert (∀ b, head (uuid_to_string u) = Some b ∨ last (uuid_to_string u) = Some b → b ∈ uuid_alphabet) as Hends.
  { intros b Hb. apply (proj1 (Forall_forall _ _) Hc). destruct Hb as [Hb|Hb].
    - by apply head_Some_elem_of.
    - by apply last_Some_elem_of. }
  rewrite trim_end_matches_id.
  2:{ intros Hb. by destruct (alphabet_facts Byte.x00 (Hends _ (or_intror Hb))) as (_ & _ & []). }
  rewrite trim_id by (intros b Hb; by apply alphabet_facts, Hends).
  rewrite decide_True by done. by apply uuid_parse.
Qed.

(** A padding of zeros holds no identifier. *)
Lemma extract_zeros n : extract_client_id_from_padding (replicate n Byte.x00) = None.
Proof.
  unfold extract_client_id_from_padding. case_decide as Hd; [done|].
  rewrite length_replicate in Hd. rewrite take_replicate, Nat.min_l by (unfold UUID_STR_LEN in *; lia).
  case_match; [|done]. rewrite trim_end_matches_replicate. done.
Qed.

(** The padding of a preamble, and what the server finds in it. *)
Lemma preamble_shape h id sizes :
  length h = 32 → (∀ u, id = Some u → length u = 16) →
  ∃ n pad, auth_preamble h id sizes = h ++ be_encode 2 (Z.of_nat n) ++ pad ∧
    in_u 16 (Z.of_nat n) ∧ length pad = n ∧ (n = 0 → id = None) ∧
    (n ≠ 0 → extract_client_id_from_padding pad = id).
Proof.
  intros Hh Hid. unfold auth_preamble.
  set (len0 := match sizes with [] => 0%Z | z :: _ => wrap 16 z end).
  assert (in_u 16 len0) as Hlen0 by (subst len0; destruct sizes; [unfold in_u; lia|apply wrap_range; lia]).
  destruct id as [u|]; simpl.
  - pose proof (uuid_text_length u (Hid u eq_refl)) as Hl.
    rewrite decide_False by (intros E; by rewrite E in Hl). rewrite Hl.
    change (wrap 16 (Z.of_nat 36)) with 36%Z.
    rewrite (proj2 (Z.ltb_lt 0 (Z.max len0 36))) by lia.
    exists (Z.to_nat (Z.max len0 36)), (uuid_to_string u ++ replicate (Z.to_nat (Z.max len0 36) - 36) Byte.x00).
    rewrite Z2Nat.id by lia. split_and!; [done|unfold in_u in *; lia| |lia|].
    + rewrite length_app, length_replicate, Hl. lia.
    + intros _. apply extract_embedded. by apply Hid.
  - exists (Z.to_nat len0), (replicate (Z.to_nat len0) Byte.x00). rewrite Z2Nat.id by (unfold in_u in *; lia).
    split_and!; [|done|by rewrite length_replicate|done|intros _; apply extract_zeros].
    destruct (Z.ltb_spec 0 len0); [by rewrite Nat.sub_0_r|].
    replace len0 with 0%Z by (unfold in_u in *; lia). done.
Qed.
End uuid.

Lemma drop_new_user p s u r :
  AuthedUser_new p (registry s) = (u, r) → drop_user (Some u) (mkShared r (traffic_audit s)) = s.
Proof.
  unfold AuthedUser_new. intros [= <- <-]. destruct s as [[us em hm] a]. simpl.
  unfold drop_authed, update_user. simpl. do 2 f_equal. apply list_eq. intros i.
  destruct (decide (p = i)) as [->|]; [|by rewrite !list_lookup_alter_ne].
  rewrite !list_lookup_alter_eq. destruct (us !! i) as [[]|]; [|done].
  simpl. unfold add_connections. simpl. do 2 f_equal. lia.
Qed.

Lemma authenticate_drop auth now h s o s1 :
  Authenticator_authenticate auth now h s = (o, s1) → drop_user (outcome_user o) s1 = s.
Proof.
  unfold Authenticator_authenticate. destruct auth as [e|]; [case_decide; by intros [= <- <-]|].
  unfold Users.authenticate. destruct (auth_lookup now h (registry s)) as [p|].
  - destruct (AuthedUser_new p (registry s)) as [u r] eqn:E. intros [= <- <-]. by eapply drop_new_user.
  - intros [= <- <-]. by destruct s.
Qed.

(** ** Theorems *)

Section theorems.
  Context `{!UuidText, !UuidLaws}.
  Variables (auth : Authenticator) (forward_target probe_target : option bytes) (allowlist : list bytes)
    (panel_sync : bool) (now1 now2 : Z).

(** [handle_connection] with the environment of this section. *)
#[local] Notation handle := (handle_connection auth forward_target probe_target allowlist panel_sync now1 now2).

(** The whole function, once the password bytes have been read. *)
Lemma handle_authenticated cs s o s1 n pad rest :
  nonempty cs → ∀ h, length h = 32 → concat cs = h ++ be_encode 2 (Z.of_nat n) ++ pad ++ rest →
  in_u 16 (Z.of_nat n) → length pad = n →
  Authenticator_authenticate auth now1 h s = (o, s1) → o ≠ Rejected →
  ∃ cs', nonempty cs' ∧ concat cs' = rest ∧
    let ctx := mkCtx (outcome_user o) (if decide (n = 0) then None else extract_client_id_from_padding pad) panel_sync in
    handle (chunked cs) s =
      if ctx_approved now2 ctx s1 then (Serving ctx (chunked cs'), s1) else (Denied, drop_user (outcome_user o) s1).
Proof.
  intros Hne h Hh Hcat Hn Hpad Ha Ho.
  assert (take 34 (concat cs) = h ++ be_encode 2 (Z.of_nat n) ∧ drop 34 (concat cs) = pad ++ rest) as [Ht Hd].
  { rewrite Hcat, app_assoc.
    assert (34 = length (h ++ be_encode 2 (Z.of_nat n))) as -> by (rewrite length_app, length_be_encode; lia).
    apply take_drop_app_length. }
  destruct (read_up_to_chunked 34 cs Hne) as (cs1 & Hr & Hne1 & Hcat1). rewrite Ht in Hr. rewrite Hd in Hcat1.
  assert (Z.to_nat (be_decode (drop 32 (h ++ be_encode 2 (Z.of_nat n)))) = n) as Hlen.
  { rewrite drop_app_ge, Hh, Nat.sub_diag, drop_0 by lia.
    rewrite (be_decode_encode_u 16) by done. apply Nat2Z.id. }
  unfold handle_connection. rewrite Hr.
  rewrite decide_True by (rewrite length_app, length_be_encode; lia).
  rewrite take_app_le, take_ge, Ha by lia. rewrite Hlen.
  destruct (decide (n = 0)) as [Hz|Hz].
  - exists cs1. rewrite Hcat1. destruct pad; [|simpl in *; lia]. by destruct o.
  - destruct (tls_read_exact_chunked n cs1 Hne1) as (cs2 & Hx & Hne2 & Hcat2);
      [rewrite Hcat1, length_app; lia|].
    rewrite Hcat1, take_app_le, take_ge in Hx by lia.
    exists cs2. split; [done|]. split; [by rewrite Hcat2, Hcat1, <- Hpad, drop_app_length|].
    rewrite (ioM_bind_run _ _ _ _ _ Hx). by destruct o.
Qed.

Lemma preamble_admitted h id sizes cs s data o s1 :
  length h = 32 → (∀ u, id = Some u → length u = 16) →
  nonempty cs → concat cs = auth_preamble h id sizes ++ data →
  Authenticator_authenticate auth now1 h s = (o, s1) → o ≠ Rejected →
  ctx_approved now2 (mkCtx (outcome_user o) id panel_sync) s1 = true →
  ∃ rest, handle (chunked cs) s = (Serving (mkCtx (outcome_user o) id panel_sync) (chunked rest), s1) ∧
    nonempty rest ∧ concat rest = data.
Proof.
  intros Hh Hid Hne Hcat Ha Ho Happ.
  destruct (preamble_shape h id sizes Hh Hid) as (n & pad & Hp & Hn & Hpl & Hz & Hnz).
  rewrite Hp, <- !app_assoc in Hcat.
  destruct (handle_authenticated cs s o s1 n pad data Hne h Hh Hcat Hn Hpl Ha Ho) as (cs' & Hne' & Hcat' & Hr).
  exists cs'. split; [|done]. simpl in Hr. revert Hr.
  assert ((if decide (n = 0) then None else extract_client_id_from_padding pad) = id) as ->.
  { case_decide as Hd; [symmetry; by apply Hz|by apply Hnz]. }
  by rewrite Happ.
Qed.

(** C5. The server admits its clients: however the network cuts the stream, a
    connection that opens with the block the client sends (its password hash, a
    padding as long as its scheme says, its identifier if it has one) is served
    under exactly that identifier when the password is known and the connection
    is approved, and the session starts with the first byte behind the block. *)
Theorem client_preamble_admitted h id sizes cs s data o s1 :
  length h = 32 → (∀ u, id = Some u → length u = 16) →
  nonempty cs → concat cs = auth_preamble h id sizes ++ data →
  Authenticator_authenticate auth now1 h s = (o, s1) → o ≠ Rejected →
  ctx_approved now2 (mkCtx (outcome_user o) id panel_sync) s1 = true →
  ∃ rest, handle (chunked cs) s = (Serving (mkCtx (outcome_user o) id panel_sync) (chunked rest), s1) ∧
    nonempty rest ∧ concat rest = data.
Proof. apply preamble_admitted. Qed.


(** C32. A connection counts against its user exactly while it is served: when
    [handle_connection] returns in any other way (an error at any point of the
    opening, a rejection, a denial), the registry and the audit are what they
    were before; when it serves a user, that user's entry counts one connection
    more and nothing else has changed. *)
Theorem connections_counted_while_served input s e s' :
  handle input s = (e, s') →
  match e with
  | Serving ctx _ => drop_user (ctx_user ctx) s' = s ∧ traffic_audit s' = traffic_audit s ∧ ctx_approved now2 ctx s' = true
  | _ => s' = s
  end.
Proof.
  unfold handle_connection.
  destruct (read_up_to 34 input) as [[data|err] rest]; [|by intros [= <- <-]].
  destruct (if decide (length data = 34) then _ else _) as [o s1] eqn:Ha.
  assert (drop_user (outcome_user o) s1 = s) as Hdrop.
  { case_decide; [by eapply authenticate_drop|by simplify_eq]. }
  assert (traffic_audit s1 = traffic_audit s) as Haud by (by rewrite <- Hdrop; destruct o).
  destruct (decide (o = Rejected)) as [->|Ho].
  { simpl in Hdrop. subst s1. intros [= <- <-]. unfold fallback. by repeat case_match. }
  destruct (if decide (Z.to_nat (be_decode (drop 32 data)) = 0) then _ else _) as [[cid|err] rest'];
    (destruct o; [done|..]); simpl in *; try (intros [= <- <-]; by rewrite ?Hdrop).
  all: destruct (ctx_approved _ _ s1) eqn:E; intros Heq; simplify_eq; by rewrite ?Hdrop.
Qed.
End theorems.

(** The server starts in exactly one way of managing users: with a users
    file or a management API it serves the loaded users and nobody else, never
    together with the panel sync; otherwise it needs a password and accepts only
    that one; the API's token comes from the environment when that is set. *)
Theorem startup_decides `{Sha256} a load env serve :
  match startup a load env serve with
  | Starts ByUser r token =>
      multi_user_enabled a = true ∧ panel_sync_enabled a = false ∧
      (∃ specs, r = with_users specs ∧ (a_users_file a = None → specs = []) ∧
         (∀ path, a_users_file a = Some path → load path = Ok specs)) ∧
      (is_Some token ↔ is_Some (a_api_bind_to a)) ∧
      (∀ tok, token = Some tok → serve tok = Ok tt) ∧
      (∀ t tok, env = Some t → t ≠ [] → token = Some tok → tok = Some t)
  | Starts (SharedPassword h) r token =>
      multi_user_enabled a = false ∧ token = None ∧ r = Registry_new ∧
      ∃ p, a_password a = Some p ∧ p ≠ [] ∧ h = sha256 p
  | _ => True
  end.
Proof.
  unfold startup. case_decide; [done|].
  destruct (match a_forward a with Some _ => _ | None => None end); [done|].
  destruct (multi_user_enabled a) eqn:Hm; simpl.
  - rewrite andb_false_r. destruct (panel_sync_enabled a); [done|].
    destruct (match a_users_file a with Some path => load path | None => Ok [] end) as [specs|e] eqn:Hl; [|done].
    destruct (match (match a_api_bind_to a with Some _ => _ | None => None end) with Some t => serve t | None => Ok tt end)
      as [[]|e] eqn:Hs; [|done].
    split_and!; try done.
    + exists specs. split_and!; [done| |]; intros; simplify_option_eq; congruence.
    + destruct (a_api_bind_to a); [split; eauto|split; by intros []].
    + intros tok Htok. by rewrite Htok in Hs.
    + intros t tok -> Ht. destruct (a_api_bind_to a); [|done]. rewrite decide_False by done. congruence.
  - rewrite andb_true_r. case_bool_decide as Hp; [done|].
    split_and!; [done..|]. destruct (a_password a) as [p|]; [|done]. by exists p.
Qed.

(** ** A concrete UUID text *)

Definition hex_digit (z : Z) : byte := default Byte.x00 (str "0123456789abcdef" !! Z.to_nat z).
Definition hex_value (b : byte) : option Z := Z.of_nat <$> (fst <$> list_find (fun c => c = b) (str "0123456789abcdef")).
Definition hex_byte (b : byte) : bytes := [hex_digit (byte_to_Z b / 16); hex_digit (byte_to_Z b mod 16)].
Definition hex (u : bytes) : bytes := concat (hex_byte <$> u).

Fixpoint unhex (s : bytes) : option bytes :=
  match s with
  | [] => Some []
  | [_] => None
  | a :: b :: s' => x ← hex_value a; y ← hex_value b; r ← unhex s'; Some (Z_to_byte (x * 16 + y) :: r)
  end.

Definition dash : bytes := str "-".

#[global] Instance hyphenated : UuidText := {|
  parse_str s := unhex (filter (fun b => b ∉ dash) s);
  uuid_to_string u :=
    hex (take 4 u) ++ dash ++ hex (take 2 (drop 4 u)) ++ dash ++ hex (take 2 (drop 6 u)) ++ dash ++
    hex (take 2 (drop 8 u)) ++ dash ++ hex (drop 10 u);
|}.

Lemma byte_forall (P : byte → bool) : forallb P (map (fun n => Z_to_byte (Z.of_nat n)) (seq 0 256)) = true → ∀ b, P b = true.
Proof.
  intros H b. rewrite forallb_forall in H. apply H. apply in_map_iff.
  pose proof (byte_to_Z_range b). exists (Z.to_nat (byte_to_Z b)). rewrite Z2Nat.id by lia.
  split; [apply Z_to_byte_to_Z|]. apply in_seq. lia.
Qed.

Lemma hex_byte_facts b :
  (unhex (hex_byte b) = Some [b] ∧ Forall (fun c => c ∈ uuid_alphabet ∧ c ∉ dash) (hex_byte b)).
Proof.
  assert (bool_decide (unhex (hex_byte b) = Some [b] ∧ Forall (fun c => c ∈ uuid_alphabet ∧ c ∉ dash) (hex_byte b)) = true) as Hb.
  { revert b. apply byte_forall. by vm_compute. }
  by apply bool_decide_eq_true in Hb.
Qed.

Lemma unhex_hex_byte b s : unhex (hex_byte b ++ s) = r ← unhex s; Some (b :: r).
Proof.
  destruct (hex_byte_facts b) as [Hb _]. unfold hex_byte in *. simpl in *.
  destruct (hex_value (hex_digit (_ / _))) as [x|]; simpl in *; [|done].
  destruct (hex_value (hex_digit (_ mod _))) as [y|]; simpl in *; [|done].
  injection Hb as ->. by destruct (unhex s).
Qed.

Lemma unhex_hex u : unhex (hex u) = Some u.
Proof.
  induction u as [|b u IH]; [done|]. change (hex (b :: u)) with (hex_byte b ++ hex u).
  by rewrite unhex_hex_byte, IH.
Qed.

Lemma hex_chars u : Forall (fun c => c ∈ uuid_alphabet ∧ c ∉ dash) (hex u).
Proof.
  induction u as [|b u IH]; [constructor|]. change (hex (b :: u)) with (hex_byte b ++ hex u).
  apply Forall_app. split; [apply hex_byte_facts|done].
Qed.

Lemma hex_app u v : hex (u ++ v) = hex u ++ hex v.
Proof. unfold hex. by rewrite fmap_app, concat_app. Qed.

Lemma length_hex u : length (hex u) = 2 * length u.
Proof. induction u as [|b u IH]; [done|]. change (hex (b :: u)) with (hex_byte b ++ hex u). rewrite length_app, IH. simpl. lia. Qed.

Lemma filter_hex u : filter (fun b => b ∉ dash) (hex u) = hex u.
Proof.
  pose proof (hex_chars u) as H. induction H as [|c l [_ Hc] _ IH]; [done|].
  rewrite filter_cons_True by done. by rewrite IH.
Qed.

#[global] Instance hyphenated_laws : UuidLaws.
Proof.
  split.
  - intros u Hu. cbn [parse_str uuid_to_string hyphenated]. rewrite !filter_app, !filter_hex.
    assert (filter (fun b => b ∉ dash) dash = []) as -> by done. rewrite !app_nil_l, <- !hex_app, unhex_hex.
    f_equal. do 16 (destruct u as [|? u]; [done|]). by destruct u.
  - intros u Hu. cbn [uuid_to_string hyphenated]. rewrite !length_app, !length_hex. do 16 (destruct u as [|? u]; [done|]). by destruct u.
  - intros u. assert (∀ v, Forall (fun b => b ∈ uuid_alphabet) (hex v)) as Hh.
    { intros v. eapply Forall_impl; [apply hex_chars|]. by intros ? []. }
    assert (Forall (fun b => b ∈ uuid_alphabet) dash) as Hd by (apply (bool_decide_unpack _); by vm_compute).
    cbn [uuid_to_string hyphenated]. rewrite !Forall_app. split_and!; first [exact Hd|apply Hh].
Qed.

(** ** Witnesses *)

Definition alice_hash : bytes := fill32 (str "pw-a").
Definition shared_auth : Authenticator := SharedPassword alice_hash.
Definition node_uuid : Uuid := str "0123456789abcdef".
Definition opening : bytes := auth_preamble alice_hash (Some node_uuid) [30%Z].
Definition demo_shared : Shared := mkShared Users.demo_users ∅.

Lemma client_preamble_admitted_witness :
  ∃ rest, handle_connection shared_auth None None [] false 0 0 (chunked [opening ++ str "settings"]) demo_shared
    = (Serving (mkCtx None (Some node_uuid) false) (chunked rest), demo_shared) ∧ nonempty rest ∧ concat rest = str "settings".
Proof.
  apply (client_preamble_admitted shared_auth None None [] false 0 0 alice_hash (Some node_uuid) [30%Z]
    [opening ++ str "settings"] demo_shared (str "settings") Anonymous demo_shared).
  - reflexivity.
  - intros u [= <-]. reflexivity.
  - repeat constructor. discriminate.
  - apply app_nil_r.
  - reflexivity.
  - discriminate.
  - reflexivity.
Defined.


Lemma connections_counted_while_served_witness :
  (handle_connection ByUser None None [] false 0 0 (chunked [alice_hash]) demo_shared).2 = demo_shared.
Proof.
  apply (connections_counted_while_served ByUser None None [] false 0 0 (chunked [alice_hash]) demo_shared Ignored).
  reflexivity.
Defined.
