(* ===== verification/Allowlist.v ===== *)
(** * The server's certificates and the names a probe may be sent to
      ([create_tls_config] and [extract_dns_names_from_certs] of [bin/server.rs])

    A server without a forward target hides behind the host a prober asked for,
    but only if one of its own certificate's names (or the configured SNI) is
    that host.  Reading PEM files, parsing certificates and making a rustls
    configuration are parameters. *)

From S2P Require Import Prelude RustStr Padding Users Api Panel Server.
From Stdlib Require Import Strings.Byte.
From stdpp Require Import sorting.

(** What the X.509 parser gives for an extension. *)
Inductive GeneralName : Type := DNSName (name : bytes) | OtherName.
Inductive ParsedExtension : Type := SubjectAlternativeName (names : list GeneralName) | OtherExtension.

(** [Vec::dedup]: of neighbours that are equal, one stays. *)
Fixpoint dedup (l : list bytes) : list bytes :=
  match l with
  | x :: ((y :: _) as t) => if decide (x = y) then dedup t else x :: dedup t
  | _ => l
  end.

Definition name_le (a b : bytes) : Prop := bytes_leb a b = true.

#[global] Instance name_le_dec : RelDecision name_le.
Proof. intros a b. unfold name_le. apply _. Defined.
#[global] Instance name_le_total : Total name_le.
Proof. intros a b. apply bytes_leb_total. Qed.
#[global] Instance name_le_trans : Transitive name_le.
Proof. intros a b c. apply bytes_leb_trans. Qed.
#[global] Instance name_le_antisym : AntiSymm (=) name_le.
Proof. intros a b. apply bytes_leb_antisym. Qed.

Section allowlist.
  Context (parse_x509_certificate : bytes → option (list ParsedExtension)).

Definition general_dns (n : GeneralName) : option bytes := match n with DNSName d => Some d | OtherName => None end.

Definition extension_dns (e : ParsedExtension) : list bytes :=
  match e with SubjectAlternativeName ns => omap general_dns ns | OtherExtension => [] end.

(** The names of the first certificate of the chain. *)
Definition cert_names (certs : list bytes) : list bytes :=
  match certs with
  | c :: _ => match parse_x509_certificate c with Some exts => concat (extension_dns <$> exts) | None => [] end
  | [] => []
  end.

Definition extract_dns_names_from_certs (certs : list bytes) (fallback_sni : option bytes) : list bytes :=
  let names := cert_names certs in
  let names := if decide (names = []) then option_list fallback_sni else names in
  dedup (merge_sort name_le names).

(** What the server presents: a chain from files or an ephemeral certificate. *)
Inductive ServerCert : Type := FromFiles (certs : list bytes) (key : bytes) | Ephemeral (name : bytes).

Context (read_certs : bytes → result (list bytes)) (read_key : bytes → result (option bytes)).
Context (with_single_cert : list bytes → bytes → result unit) (generate_key_pair : bytes → result unit).

Definition create_tls_config (sni cert_path key_path : option bytes) : result (ServerCert * list bytes) :=
  match cert_path, key_path with
  | Some cert_p, Some key_p =>
      certs ← read_certs cert_p;
      key ← read_key key_p;
      match key with
      | None => Err (err_other (str "failed to parse a supported private key"))
      | Some key =>
          if decide (certs = []) then Err (err_other (str "failed to parse cert PEM"))
          else
            with_single_cert certs key ≫= fun _ =>
            Ok (FromFiles certs key, extract_dns_names_from_certs certs sni)
      end
  | _, _ =>
      generate_key_pair (default [] sni) ≫= fun _ => Ok (Ephemeral (default [] sni), option_list sni)
  end.

(** ** Lemmas *)

Lemma elem_dedup n l : n ∈ dedup l ↔ n ∈ l.
Proof.
  induction l as [|x l IH]; [done|]. destruct l as [|y l]; [done|].
  change (dedup (x :: y :: l)) with (if decide (x = y) then dedup (y :: l) else x :: dedup (y :: l)).
  case_decide as E; rewrite ?elem_of_cons, IH; [subst|]; rewrite !elem_of_cons; tauto.
Qed.

(** A sorted list without equal neighbours has no duplicates. *)
Lemma dedup_sorted l : StronglySorted name_le l → StronglySorted (fun a b => name_le a b ∧ a ≠ b) (dedup l).
Proof.
  induction l as [|x l IH]; intros Hs; [constructor|]. destruct l as [|y l]; [repeat constructor|].
  change (dedup (x :: y :: l)) with (if decide (x = y) then dedup (y :: l) else x :: dedup (y :: l)).
  apply StronglySorted_cons in Hs as [Hx Hs]. specialize (IH Hs).
  case_decide as E; [done|]. constructor; [done|]. apply Forall_forall. intros z Hz.
  rewrite elem_dedup in Hz. rewrite Forall_forall in Hx. split; [by apply Hx|]. intros ->.
  apply StronglySorted_cons in Hs as [Hy _]. rewrite elem_of_cons in Hz. destruct Hz as [Hz|Hz]; [done|].
  rewrite Forall_forall in Hy. apply E. apply (anti_symm name_le); [apply Hx; set_solver|by apply Hy].
Qed.

Lemma strict_sorted_NoDup l : StronglySorted (fun a b => name_le a b ∧ a ≠ b) l → NoDup l.
Proof.
  induction 1 as [|x l _ IH Hx]; constructor; [|done]. rewrite Forall_forall in Hx. intros Hin. by apply (Hx x).
Qed.

Lemma strict_sorted_sorted l :
  StronglySorted (fun a b => name_le a b ∧ a ≠ b) l → StronglySorted name_le l.
Proof. induction 1 as [|x l _ IH Hx]; constructor; [done|]. eapply Forall_impl; [exact Hx|]. by intros ? []. Qed.

(** ** The property *)

(** The names a probe may be sent to are those of the server's certificate:
    with certificate and key given, the list holds, in order and without
    duplicates, exactly the DNS names of the first certificate, or the configured
    SNI when it has none; without them, the SNI alone.  A host is allowed exactly
    if it is one of them in some case, so a server without names allows none. *)
Theorem allowlist_exact sni cert_path key_path presented names :
  create_tls_config sni cert_path key_path = Ok (presented, names) →
  NoDup names ∧
  match presented with
  | FromFiles certs key =>
      ∃ cert_p key_p, cert_path = Some cert_p ∧ key_path = Some key_p ∧ read_certs cert_p = Ok certs ∧
        read_key key_p = Ok (Some key) ∧ certs ≠ [] ∧ StronglySorted name_le names ∧
        ∀ n, n ∈ names ↔ n ∈ cert_names certs ∨ cert_names certs = [] ∧ sni = Some n
  | Ephemeral name => (cert_path = None ∨ key_path = None) ∧ name = default [] sni ∧ names = option_list sni
  end ∧
  (∀ host, sni_is_allowed host names = true ↔ ∃ n, n ∈ names ∧ eq_ignore_ascii_case n host = true).
Proof.
  intros Hc.
  assert (∀ host, sni_is_allowed host names = true ↔ ∃ n, n ∈ names ∧ eq_ignore_ascii_case n host = true) as Ha.
  { intros host. unfold sni_is_allowed. rewrite existsb_exists. by setoid_rewrite list_elem_of_In. }
  assert (∀ o : option bytes, NoDup (option_list o)) as Ho by (intros []; repeat constructor; set_solver).
  assert (∀ g : result unit, (g ≫= fun _ => Ok (Ephemeral (default [] sni), option_list sni)) = Ok (presented, names) →
    presented = Ephemeral (default [] sni) ∧ names = option_list sni) as He.
  { intros [|]; [|done]. intros H. by simplify_eq/=. }
  revert Hc. unfold create_tls_config. destruct cert_path as [cp|]; [destruct key_path as [kp|]|].
  2-3: intros [-> ->]%He; split_and!; auto.
  destruct (read_certs cp) as [certs|] eqn:Ec; [|done]. cbn.
  destruct (read_key kp) as [[key|]|] eqn:Ek; [|done..]. cbn. case_decide as Hne; [done|].
  destruct (with_single_cert certs key); [|done]. cbn. intros H. simplify_eq.
  set (l := if decide (cert_names certs = []) then option_list sni else cert_names certs).
  pose proof (dedup_sorted _ (StronglySorted_merge_sort name_le l)) as Hs.
  split_and!; [by apply strict_sorted_NoDup| |done].
  exists cp, kp. split_and!; [done..| |].
  - by apply strict_sorted_sorted.
  - intros n. unfold extract_dns_names_from_certs. fold l. rewrite elem_dedup, (merge_sort_Permutation name_le l).
    unfold l. case_decide as E; [|tauto]. rewrite E. destruct sni as [x|]; simpl; set_solver.
Qed.
End allowlist.

(** *** Witness *)

(** One certificate with two names, one of them twice. *)
Definition demo_x509 (c : bytes) : option (list ParsedExtension) :=
  Some [OtherExtension; SubjectAlternativeName [DNSName (str "www.b.example"); OtherName; DNSName (str "a.example"); DNSName (str "www.b.example")]].

Lemma allowlist_exact_witness :
  NoDup [str "a.example"; str "www.b.example"] ∧
  ∃ n, n ∈ [str "a.example"; str "www.b.example"] ∧ eq_ignore_ascii_case n (str "A.Example") = true.
Proof.
  destruct (allowlist_exact demo_x509 (fun _ => Ok [str "der"]) (fun _ => Ok (Some (str "key"))) (fun _ _ => Ok tt)
    (fun _ => Ok tt) None (Some (str "cert.pem")) (Some (str "key.pem"))
    (FromFiles [str "der"] (str "key")) [str "a.example"; str "www.b.example"]) as (H1 & _ & H3).
  - reflexivity.
  - split; [exact H1|]. apply H3. reflexivity.
Defined.
