(* ===== verification/Relay.v ===== *)
(** * Relaying (bin/server.rs and src/src/client_runner.rs)

    [StreamReader], the [AsyncRead] adapter over a logical stream; the two
    directions of the server's TCP relay; and its two UDP-over-TCP loops.  Each
    loop is a [select!] over sources outside the program, so it is a function of
    the sequence of branches that fired, each with what the environment answered. *)

From S2P Require Import Prelude RustStr Padding Users Panel Server Uot.
From Stdlib Require Import Strings.Byte.

(** ** StreamReader

    [sr_queue] is what [Stream::read] can hand out now, piece by piece, [sr_end]
    how the stream ended if it has; [read_fut] is the size of the buffer of a
    read that was started and has not returned. *)
Record StreamReader : Type := mkReader {
  sr_queue : list bytes;
  sr_end : option (option io_error);
  read_fut : option nat;
}.

Inductive Polled : Type :=
  | Pending
  | Ready (r : result bytes)
  | Panicked.

(** [inner.read(&mut v)] with a buffer of [m] bytes. *)
Definition poll_fut (m remaining : nat) (s : StreamReader) : Polled * StreamReader :=
  match sr_queue s with
  | c :: q =>
      let v := take m c in
      let q' := match drop m c with [] => q | c' => c' :: q end in
      (** [buf.put_slice(&v[..n])] panics when the buffer is too small. *)
      (if decide (length v ≤ remaining) then Ready (Ok v) else Panicked, mkReader q' (sr_end s) None)
  | [] =>
      match sr_end s with
      | None => (Pending, mkReader [] None (Some m))
      | Some None => (Ready (Ok []), mkReader [] (sr_end s) None)
      | Some (Some e) => (Ready (Err e), mkReader [] (sr_end s) None)
      end
  end.

Definition poll_read (remaining : nat) (s : StreamReader) : Polled * StreamReader :=
  match read_fut s with
  | Some m => poll_fut m remaining s
  | None => if decide (remaining = 0) then (Ready (Ok []), s) else poll_fut remaining remaining s
  end.

(** A history of the reader: data arrives, the stream ends, somebody polls. *)
Inductive rop : Type := Arrive (c : bytes) | Finish (e : option io_error) | Poll (remaining : nat).

Definition rop_step (o : rop) (s : StreamReader) : list Polled * StreamReader :=
  match o with
  | Arrive c => ([], match sr_end s, c with
                     | None, _ :: _ => mkReader (sr_queue s ++ [c]) None (read_fut s)
                     | _, _ => s
                     end)
  | Finish e => ([], match sr_end s with None => mkReader (sr_queue s) (Some e) (read_fut s) | _ => s end)
  | Poll n => let '(p, s') := poll_read n s in ([p], s')
  end.

Fixpoint rop_run (ops : list rop) (s : StreamReader) : list Polled * StreamReader :=
  match ops with
  | [] => ([], s)
  | o :: ops' => let '(p, s1) := rop_step o s in let '(ps, s2) := rop_run ops' s1 in (p ++ ps, s2)
  end.

(** Nobody resumes a pending read with a smaller buffer. *)
Fixpoint resumes (ops : list rop) (s : StreamReader) : bool :=
  match ops with
  | [] => true
  | o :: ops' =>
      (match o, read_fut s with Poll n, Some m => bool_decide (m ≤ n) | _, _ => true end) &&
      resumes ops' (rop_step o s).2
  end.

Definition polled_bytes (ps : list Polled) : bytes :=
  concat ((fun p => if p is Ready (Ok d) then d else []) <$> ps).

(** ** The TCP relay *)

Record RelayState : Type := mkRelay {
  shared : Shared;
  outbound : bytes;          (** written to the target *)
  outbound_shut : bool;
  inbound : bytes;           (** written to the logical stream *)
  stream_ended : bool;       (** [close] or [terminate] was called on it *)
  relay_cancel : bool;
}.

Definition set_shared (s : Shared) (st : RelayState) : RelayState :=
  mkRelay s (outbound st) (outbound_shut st) (inbound st) (stream_ended st) (relay_cancel st).
Definition add_outbound (d : bytes) (st : RelayState) : RelayState :=
  mkRelay (shared st) (outbound st ++ d) (outbound_shut st) (inbound st) (stream_ended st) (relay_cancel st).
Definition shut_outbound (st : RelayState) : RelayState :=
  mkRelay (shared st) (outbound st) true (inbound st) (stream_ended st) (relay_cancel st).
Definition add_inbound (d : bytes) (st : RelayState) : RelayState :=
  mkRelay (shared st) (outbound st) (outbound_shut st) (inbound st ++ d) (stream_ended st) (relay_cancel st).
Definition end_stream (st : RelayState) : RelayState :=
  mkRelay (shared st) (outbound st) (outbound_shut st) (inbound st) true (relay_cancel st).
Definition cancel_relay (st : RelayState) : RelayState :=
  mkRelay (shared st) (outbound st) (outbound_shut st) (inbound st) (stream_ended st) true.

(** The answer to a write: done, or failed after some of the bytes. *)
Inductive WriteResult : Type := Written | WriteFailed (k : nat) (e : io_error).

(** The branches of the stream-to-outbound loop. *)
Inductive s2o_event : Type :=
  | SCancelled
  | STick (now : Z)
  | SRead (r : result bytes) (w : WriteResult).

(** What follows the loop: [shutdown] answered [sd]. *)
Definition s2o_end (res : result unit) (cancelled : bool) (sd : result unit) (st : RelayState)
  : result unit * RelayState :=
  let st1 := if cancelled then st else shut_outbound st in
  match (if cancelled then Ok tt else sd) with
  | Err e => (Err e, st1)
  | Ok _ => (Ok tt, if is_ok res then st1 else cancel_relay st1)
  end.

(** [None]: the loop is still waiting. *)
Fixpoint s2o (ctx : ConnCtx) (sd : result unit) (evs : list s2o_event) (st : RelayState)
  : option (result unit) * RelayState :=
  let finish res cancelled st := let '(r, st') := s2o_end res cancelled sd st in (Some r, st') in
  match evs with
  | [] => (None, st)
  | SCancelled :: _ => finish (Ok tt) true st
  | STick now :: evs' =>
      if ctx_approved now ctx (shared st) then s2o ctx sd evs' st
      else finish (Ok tt) false (end_stream st)
  | SRead (Ok []) _ :: _ => finish (Ok tt) false st
  | SRead (Ok d) w :: evs' =>
      let st1 := set_shared (ctx_record_up ctx (Z.of_nat (length d)) (shared st)) st in
      match w with
      | Written => s2o ctx sd evs' (add_outbound d st1)
      | WriteFailed k e => finish (Err e) false (add_outbound (take k d) st1)
      end
  | SRead (Err e) _ :: _ => finish (Err e) false st
  end.

(** The branches of the outbound-to-stream loop; [c] and [w] are the results of
    closing and of writing to the logical stream. *)
Inductive o2s_event : Type :=
  | OCancelled
  | OTick (now : Z)
  | ORead (r : result bytes) (c : result unit) (w : result nat).

Fixpoint o2s (ctx : ConnCtx) (evs : list o2s_event) (st : RelayState) : option (result unit) * RelayState :=
  match evs with
  | [] => (None, st)
  | OCancelled :: _ => (Some (Ok tt), st)
  | OTick now :: evs' =>
      if ctx_approved now ctx (shared st) then o2s ctx evs' st else (Some (Ok tt), end_stream st)
  | ORead (Ok []) c _ :: _ => (Some c, end_stream st)
  | ORead (Ok d) _ w :: evs' =>
      let st1 := set_shared (ctx_record_down ctx (Z.of_nat (length d)) (shared st)) st in
      match w with
      | Ok _ => o2s ctx evs' (add_inbound d st1)
      | Err e => (Some (Ok tt), cancel_relay st1)
      end
  | ORead (Err e) _ _ :: _ => (Some (Ok tt), cancel_relay st)
  end.

Definition is_error_of_session_broken (e : io_error) : bool :=
  match err_kind e with UnexpectedEof | BrokenPipe => true | _ => false end.

(** ** The UDP-over-TCP loops *)

Section uot_loops.
  Context {Address : Type} `{!AddressCodec Address}.

Record UotState : Type := mkUotState {
  us_shared : Shared;
  us_sent : list (Address * bytes);    (** handed to the UDP socket *)
  us_frames : list bytes;              (** written to the logical stream *)
  us_terminated : bool;
}.

(** The branches: the tick, a packet from the stream with the result of sending
    it, a datagram from the socket with the result of the stream write. *)
Inductive uot_event : Type :=
  | UTick (now : Z)
  | UPacket (r : result (option Address * bytes)) (sent : result unit)
  | URecv (r : result (bytes * Address)) (w : result nat).

(** [handle_uot_datagram_stream] and [handle_uot_connected_stream] differ in the
    mode and in where a packet goes: its own destination or the fixed one. *)
Definition packet_target (mode : UotMode) (fixed : Address) (d : option Address) : option Address :=
  match mode with Datagram => d | Connected => Some fixed end.

Definition reply_source (mode : UotMode) (source : Address) : option Address :=
  match mode with Datagram => Some source | Connected => None end.

Fixpoint uot_loop (mode : UotMode) (fixed : Address) (ctx : ConnCtx) (evs : list uot_event) (st : UotState)
  : option (result unit) * UotState :=
  match evs with
  | [] => (None, st)
  | UTick now :: evs' =>
      if ctx_approved now ctx (us_shared st) then uot_loop mode fixed ctx evs' st
      else (Some (Ok tt), mkUotState (us_shared st) (us_sent st) (us_frames st) true)
  | UPacket (Err e) _ :: _ =>
      (Some (if is_error_of_session_broken e then Ok tt else Err e), st)
  | UPacket (Ok (d, payload)) sent :: evs' =>
      let s1 := ctx_record_up ctx (Z.of_nat (length payload)) (us_shared st) in
      match packet_target mode fixed d with
      | None => (Some (Err (err_other (str "UOT datagram destination must be present"))), st)
      | Some target =>
          match sent with
          | Ok _ => uot_loop mode fixed ctx evs' (mkUotState s1 (us_sent st ++ [(target, payload)]) (us_frames st) (us_terminated st))
          | Err e => (Some (Err e), mkUotState s1 (us_sent st) (us_frames st) (us_terminated st))
          end
      end
  | URecv (Err e) _ :: _ => (Some (Err e), st)
  | URecv (Ok (payload, source)) w :: evs' =>
      match uot_encode_packet mode (reply_source mode source) payload with
      | Err e => (Some (Err e), st)
      | Ok frame =>
          let s1 := ctx_record_down ctx (Z.of_nat (length payload)) (us_shared st) in
          match w with
          | Ok _ => uot_loop mode fixed ctx evs' (mkUotState s1 (us_sent st) (us_frames st ++ [frame]) (us_terminated st))
          | Err e => (Some (Err e), mkUotState s1 (us_sent st) (us_frames st) (us_terminated st))
          end
      end
  end.
End uot_loops.
Arguments UotState : clear implicits.
Arguments uot_event : clear implicits.

(** ** Lemmas *)

Lemma poll_fut_facts m n s p s' :
  Forall (fun c => c ≠ []) (sr_queue s) → m ≤ n → poll_fut m n s = (p, s') →
  p ≠ Panicked ∧ polled_bytes [p] ++ concat (sr_queue s') = concat (sr_queue s) ∧
  Forall (fun c => c ≠ []) (sr_queue s').
Proof.
  intros Hne Hmn. unfold poll_fut, polled_bytes. destruct (sr_queue s) as [|c q] eqn:Eq.
  - destruct (sr_end s) as [[e|]|]; intros [= <- <-]; simpl; auto.
  - inversion Hne as [|? ? Hc Hq]; subst.
    rewrite decide_True by (rewrite length_take; lia). intros [= <- <-]. simpl. rewrite app_nil_r.
    split_and!; [done| |].
    + transitivity ((take m c ++ drop m c) ++ concat q); [|by rewrite take_drop].
      rewrite <- app_assoc. f_equal. by destruct (drop m c).
    + destruct (drop m c) eqn:Ed; [done|]. by constructor.
Qed.

Lemma poll_read_facts n s p s' :
  Forall (fun c => c ≠ []) (sr_queue s) → (∀ m, read_fut s = Some m → m ≤ n) → poll_read n s = (p, s') →
  p ≠ Panicked ∧ polled_bytes [p] ++ concat (sr_queue s') = concat (sr_queue s) ∧
  Forall (fun c => c ≠ []) (sr_queue s').
Proof.
  intros Hne Hm. unfold poll_read. destruct (read_fut s) as [m|].
  - apply poll_fut_facts; auto.
  - case_decide; [by intros [= <- <-]|]. by apply poll_fut_facts.
Qed.

Lemma polled_bytes_app p q : polled_bytes (p ++ q) = polled_bytes p ++ polled_bytes q.
Proof. unfold polled_bytes. by rewrite fmap_app, concat_app. Qed.

(** The bytes that arrive before the end. *)
Fixpoint arrived (open : bool) (ops : list rop) : bytes :=
  match ops with
  | [] => []
  | Arrive c :: ops' => (if open then c else []) ++ arrived open ops'
  | Finish _ :: ops' => arrived false ops'
  | Poll _ :: ops' => arrived open ops'
  end.

Definition is_open (s : StreamReader) : bool := if sr_end s is None then true else false.

(** Polling does not end a stream. *)
Lemma poll_read_end n s : sr_end (poll_read n s).2 = sr_end s.
Proof.
  assert (∀ m, sr_end (poll_fut m n s).2 = sr_end s) as Hf.
  { intros m. unfold poll_fut. destruct (sr_queue s); [|done]. by destruct (sr_end s) as [[]|]. }
  unfold poll_read. destruct (read_fut s); [apply Hf|]. case_decide; [done|apply Hf].
Qed.

Lemma rop_step_facts o s ps s1 :
  Forall (fun c => c ≠ []) (sr_queue s) →
  (match o, read_fut s with Poll n, Some m => m ≤ n | _, _ => True end) →
  rop_step o s = (ps, s1) →
  Panicked ∉ ps ∧ Forall (fun c => c ≠ []) (sr_queue s1) ∧
  ∀ ops, polled_bytes ps ++ concat (sr_queue s1) ++ arrived (is_open s1) ops
         = concat (sr_queue s) ++ arrived (is_open s) (o :: ops).
Proof.
  intros Hne Hres. destruct o as [c|e|n]; simpl.
  - destruct (sr_end s) eqn:Ee; [|destruct c as [|b c]]; intros [= <- <-];
      (split_and!; [apply not_elem_of_nil|try done; apply Forall_app; by repeat constructor|]);
      intros ops; unfold is_open; simpl; rewrite ?Ee; try done.
    by rewrite concat_snoc, <- app_assoc.
  - intros [= <- <-]. split_and!; [apply not_elem_of_nil|by destruct (sr_end s)|].
    intros ops. unfold is_open. by destruct (sr_end s) eqn:Ee; simpl; rewrite ?Ee.
  - pose proof (poll_read_end n s) as He. destruct (poll_read n s) as [p s'] eqn:Ep. intros [= <- <-].
    destruct (poll_read_facts n s p s' Hne) as (Hp & Hb & Hne'); [by intros m Hm; rewrite Hm in Hres|done|].
    split_and!; [by rewrite list_elem_of_singleton|done|].
    intros ops. unfold is_open. simpl in He. by rewrite app_assoc, Hb, He.
Qed.

Lemma rop_run_facts ops s ps s' :
  Forall (fun c => c ≠ []) (sr_queue s) → resumes ops s = true → rop_run ops s = (ps, s') →
  Panicked ∉ ps ∧ polled_bytes ps ++ concat (sr_queue s') = concat (sr_queue s) ++ arrived (is_open s) ops.
Proof.
  revert s ps s'. induction ops as [|o ops IH]; intros s ps s' Hne Hres Hrun.
  - simpl in *. simplify_eq. split; [apply not_elem_of_nil|]. by rewrite app_nil_r.
  - simpl in Hres, Hrun. apply andb_true_iff in Hres as [Ho Hres].
    destruct (rop_step o s) as [p s1] eqn:Es. simpl in Hres.
    destruct (rop_run ops s1) as [ps1 s2] eqn:Er. simplify_eq.
    destruct (rop_step_facts o s p s1 Hne) as (Hp & Hne1 & Hb); [|done|].
    { destruct o; [done..|]. destruct (read_fut s); [by apply bool_decide_eq_true in Ho|done]. }
    destruct (IH s1 ps1 s' Hne1 Hres Er) as [Hp1 Hb1].
    split; [rewrite elem_of_app; tauto|].
    by rewrite polled_bytes_app, <- app_assoc, Hb1, Hb.
Qed.

(** ** Theorems *)

Definition new_reader : StreamReader := mkReader [] None None.

(** The stream adapter loses nothing: as long as a read that was left
    pending is resumed with a buffer at least as large, it never panics, and
    what it has handed out followed by what it still holds is exactly what has
    arrived on the stream, in order. *)
Theorem stream_reader_lossless ops ps s :
  resumes ops new_reader = true → rop_run ops new_reader = (ps, s) →
  Panicked ∉ ps ∧ polled_bytes ps ++ concat (sr_queue s) = arrived true ops.
Proof. intros Hr Hrun. by apply (rop_run_facts ops new_reader ps s (Forall_nil_2 _)). Qed.

(** A relay that always reads with the same buffer, as the TCP relay does
    with its 4096 bytes, meets that condition however often its [select!]
    abandons the read. *)
Theorem constant_buffer_resumes n ops :
  Forall (fun o => if o is Poll k then k = n else True) ops → resumes ops new_reader = true.
Proof.
  intros Hall.
  assert (∀ s, (∀ m, read_fut s = Some m → m = n) → resumes ops s = true) as H; [|by apply H].
  induction Hall as [|o ops Ho _ IH]; intros s Hs; [done|]. simpl. apply andb_true_iff. split.
  - destruct o as [| |k]; [done..|]. destruct (read_fut s) as [m|] eqn:E; [|done].
    apply bool_decide_eq_true. rewrite (Hs m eq_refl). lia.
  - apply IH. intros m. destruct o as [c|e|k]; simpl.
    + destruct (sr_end s); [|destruct c]; apply Hs.
    + destruct (sr_end s); apply Hs.
    + subst k. unfold poll_read, poll_fut.
      destruct (read_fut s) as [m'|] eqn:E; [pose proof (Hs m' eq_refl)|case_decide; simpl; [congruence|]];
        destruct (sr_queue s); simpl; try done; destruct (sr_end s) as [[]|]; simpl; congruence.
Qed.

(** A read abandoned inside a UOT packet breaks the reader: when the timer
    fires while a payload of [m] bytes is awaited, the read stays pending with
    its [m]-byte buffer; the next packet starts with a smaller read, and the
    arriving payload is copied into the smaller buffer, which panics. *)
Theorem abandoned_read_panics m n c :
  n < m → 0 < n → n < length c →
  (rop_run [Poll m; Arrive c; Poll n] new_reader).1 = [Pending; Panicked].
Proof.
  intros Hnm Hn Hc. simpl. unfold poll_read, poll_fut. simpl.
  rewrite (decide_False (P := m = 0)) by lia. simpl. destruct c as [|b c]; [simpl in Hc; lia|]. simpl.
  rewrite decide_False; [done|]. rewrite length_take. lia.
Qed.

(** The reads a run of the upload loop has consumed. *)
Definition upload_data (evs : list s2o_event) : list bytes :=
  omap (fun e => if e is SRead (Ok d) _ then Some d else None) evs.

Definition count_up (ctx : ConnCtx) (s : Shared) (ds : list bytes) : Shared :=
  foldl (fun s d => ctx_record_up ctx (Z.of_nat (length d)) s) s ds.

Definition nonempty_reads (evs : list s2o_event) : Prop :=
  Forall (fun e => if e is SRead (Ok d) _ then d ≠ [] else True) evs.

Lemma s2o_running ctx sd evs st st' :
  nonempty_reads evs → s2o ctx sd evs st = (None, st') →
  shared st' = count_up ctx (shared st) (upload_data evs) ∧
  outbound st' = outbound st ++ concat (upload_data evs) ∧
  outbound_shut st' = outbound_shut st ∧ stream_ended st' = stream_ended st ∧ relay_cancel st' = relay_cancel st ∧
  ∀ more, s2o ctx sd (evs ++ more) st = s2o ctx sd more st'.
Proof.
  revert st. induction evs as [|e evs IH]; intros st Hne Hrun.
  { simpl in Hrun. simplify_eq. simpl. by rewrite app_nil_r. }
  assert (∀ res c st0, (let '(r, st1) := s2o_end res c sd st0 in (Some r, st1)) ≠ (None, st')) as Hfin
    by (intros res c st0; by destruct (s2o_end res c sd st0)).
  inversion Hne as [|? ? He Hne']; subst. destruct e as [|now|[d|err] w]; cbn [s2o] in Hrun; cbn [app s2o].
  - by apply Hfin in Hrun.
  - destruct (ctx_approved now ctx (shared st)); [by apply IH|by apply Hfin in Hrun].
  - destruct d as [|b d]; [done|]. destruct w as [|k err]; [|by apply Hfin in Hrun].
    destruct (IH _ Hne' Hrun) as (H1 & H2 & H3 & H4 & H5 & H6). simpl in *.
    split_and!; try done. rewrite H2. simpl. by rewrite <- app_assoc.
  - by apply Hfin in Hrun.
Qed.

(** C31. The upload relay forwards and bills what it reads: while it runs, the
    target has received exactly the bytes read from the stream, in order, and
    the user's counter has been raised by each of them; the first tick at which
    the connection is no longer approved ends the stream and shuts the target
    down, whatever would have been read afterwards being neither forwarded nor
    counted. *)
Theorem relay_forwards_and_polices ctx evs st st' now rest :
  nonempty_reads evs → s2o ctx (Ok tt) evs st = (None, st') → ctx_approved now ctx (shared st') = false →
  outbound st' = outbound st ++ concat (upload_data evs) ∧
  shared st' = count_up ctx (shared st) (upload_data evs) ∧
  s2o ctx (Ok tt) (evs ++ STick now :: rest) st = (Some (Ok tt), shut_outbound (end_stream st')).
Proof.
  intros Hne Hrun Hden. destruct (s2o_running _ _ _ _ _ Hne Hrun) as (H1 & H2 & _ & _ & _ & H6).
  split_and!; [done|done|]. rewrite H6. simpl. by rewrite Hden.
Qed.

(** A failed shutdown hides a relay error: when the upload loop ends with an
    error the other direction is cancelled, but only if shutting the target down
    succeeded; with a target whose connection is gone, for which both fail, the
    cancellation is skipped. *)
Theorem failed_shutdown_skips_cancel ctx evs st st' e e' :
  nonempty_reads evs → s2o ctx (Err e') evs st = (None, st') → relay_cancel st = false →
  s2o ctx (Err e') (evs ++ [SRead (Err e) Written]) st = (Some (Err e'), shut_outbound st') ∧
  relay_cancel (shut_outbound st') = false ∧
  ∀ st2, s2o ctx (Ok tt) [SRead (Err e) Written] st2 = (Some (Ok tt), cancel_relay (shut_outbound st2)).
Proof.
  intros Hne Hrun Hc. destruct (s2o_running _ _ _ _ _ Hne Hrun) as (_ & _ & _ & _ & H5 & H6).
  rewrite H6. simpl. by rewrite H5.
Qed.

(** The reads of the download loop, and the counter they raise. *)
Definition download_data (evs : list o2s_event) : list bytes :=
  omap (fun e => if e is ORead (Ok d) _ _ then Some d else None) evs.

Definition count_down (ctx : ConnCtx) (s : Shared) (ds : list bytes) : Shared :=
  foldl (fun s d => ctx_record_down ctx (Z.of_nat (length d)) s) s ds.

Definition nonempty_downloads (evs : list o2s_event) : Prop :=
  Forall (fun e => if e is ORead (Ok d) _ _ then d ≠ [] else True) evs.

Lemma o2s_running ctx evs st st' :
  nonempty_downloads evs → o2s ctx evs st = (None, st') →
  shared st' = count_down ctx (shared st) (download_data evs) ∧
  inbound st' = inbound st ++ concat (download_data evs) ∧
  stream_ended st' = stream_ended st ∧ relay_cancel st' = relay_cancel st ∧
  ∀ more, o2s ctx (evs ++ more) st = o2s ctx more st'.
Proof.
  revert st. induction evs as [|e evs IH]; intros st Hne Hrun.
  { simpl in Hrun. simplify_eq. simpl. by rewrite app_nil_r. }
  inversion Hne as [|? ? He Hne']; subst. destruct e as [|now|[d|err] c w]; cbn [o2s] in Hrun; cbn [app o2s]; try done.
  - destruct (ctx_approved now ctx (shared st)); [by apply IH|done].
  - destruct d as [|b d]; [done|]. destruct w as [k|err]; [|done].
    destruct (IH _ Hne' Hrun) as (H1 & H2 & H3 & H4 & H5). simpl in *.
    split_and!; try done. rewrite H2. simpl. by rewrite <- app_assoc.
Qed.

(** The download relay does the same in the other direction and ends the
    logical stream properly: the stream has been given exactly what the target
    sent, counted byte by byte; the target's end of file closes the stream, a
    failure on either side cancels the upload, and a denied tick ends the stream
    at once. *)
Theorem download_relay_ends ctx evs st st' now d c w e k rest :
  nonempty_downloads evs → o2s ctx evs st = (None, st') →
  inbound st' = inbound st ++ concat (download_data evs) ∧
  shared st' = count_down ctx (shared st) (download_data evs) ∧
  o2s ctx (evs ++ ORead (Ok []) c w :: rest) st = (Some c, end_stream st') ∧
  o2s ctx (evs ++ ORead (Err e) c w :: rest) st = (Some (Ok tt), cancel_relay st') ∧
  (d ≠ [] → relay_cancel (o2s ctx (evs ++ ORead (Ok d) c (Err k) :: rest) st).2 = true) ∧
  (ctx_approved now ctx (shared st') = false → o2s ctx (evs ++ OTick now :: rest) st = (Some (Ok tt), end_stream st')).
Proof.
  intros Hne Hrun. destruct (o2s_running _ _ _ _ Hne Hrun) as (H1 & H2 & _ & _ & H5).
  rewrite !H5. simpl. split_and!; try done.
  - by destruct d.
  - by intros ->.
Qed.

Section uot_theorems.
  Context {Address : Type} `{!AddressCodec Address, !AddressLaws Address}.

Definition uot_uploads (mode : UotMode) (fixed : Address) (evs : list (uot_event Address)) : list (Address * bytes) :=
  omap (fun e => if e is UPacket (Ok (d, p)) _ then (fun t => (t, p)) <$> packet_target mode fixed d else None) evs.

Definition uot_replies (mode : UotMode) (evs : list (uot_event Address)) : list (option Address * bytes) :=
  omap (fun e => if e is URecv (Ok (p, src)) _ then Some (reply_source mode src, p) else None) evs.

Definition sources_on_wire (evs : list (uot_event Address)) : Prop :=
  Forall (fun e => if e is URecv (Ok (_, src)) _ then addr_wire src else True) evs.

Lemma uot_loop_running mode fixed ctx evs st st' :
  uot_loop mode fixed ctx evs st = (None, st') →
  us_sent st' = us_sent st ++ uot_uploads mode fixed evs ∧ us_terminated st' = us_terminated st ∧
  (∃ new, us_frames st' = us_frames st ++ new ∧
    Forall2 (fun p buf => uot_encode_packet mode p.1 p.2 = Ok buf) (uot_replies mode evs) new) ∧
  ∀ more, uot_loop mode fixed ctx (evs ++ more) st = uot_loop mode fixed ctx more st'.
Proof.
  revert st. induction evs as [|e evs IH]; intros st Hrun.
  { simpl in Hrun. simplify_eq. simpl. rewrite app_nil_r. split_and!; [done|done| |done].
    exists []. by rewrite app_nil_r. }
  destruct e as [now|[[d p]|err] sent|[[p src]|err] w]; cbn [uot_loop] in Hrun; cbn [app uot_loop]; try done.
  - destruct (ctx_approved now ctx (us_shared st)); [by apply IH|done].
  - destruct (packet_target mode fixed d) as [t|] eqn:Et; [|done]. destruct sent; [|done].
    destruct (IH _ Hrun) as (H1 & H2 & H3 & H4). simpl in *. split_and!; try done.
    rewrite H1, <- app_assoc. simpl. by rewrite Et.
  - destruct (uot_encode_packet mode (reply_source mode src) p) as [frame|] eqn:Ee; [|done]. destruct w; [|done].
    destruct (IH _ Hrun) as (H1 & H2 & (new & H3 & H3') & H4). simpl in *. split_and!; try done.
    exists (frame :: new). rewrite H3, <- app_assoc. split; [done|]. by constructor.
Qed.

(** C28. The UOT relay carries datagrams both ways unchanged: while it runs, the
    socket has been given every packet of the stream with its payload and its
    destination (in connected mode the fixed one), in order; and what has been
    written to the stream is read back by the peer's decoder as exactly the
    datagrams the socket received, with their sources in datagram mode; a denied
    tick ends the loop and terminates the stream. *)
Theorem uot_relay_delivers mode fixed ctx evs st st' now more :
  sources_on_wire evs → uot_loop mode fixed ctx evs st = (None, st') →
  us_sent st' = us_sent st ++ uot_uploads mode fixed evs ∧
  (∃ new, us_frames st' = us_frames st ++ new ∧
    ∀ rest, get_packets mode (length (uot_replies mode evs)) (concat new ++ rest) = (Ok (uot_replies mode evs), rest)) ∧
  (ctx_approved now ctx (us_shared st') = false →
    uot_loop mode fixed ctx (evs ++ UTick now :: more) st
      = (Some (Ok tt), mkUotState (us_shared st') (us_sent st') (us_frames st') true)).
Proof.
  intros Hsrc Hrun. destruct (uot_loop_running _ _ _ _ _ _ Hrun) as (H1 & _ & (new & H3 & H3') & H4).
  split_and!; [done| |intros Hd; rewrite H4; simpl; by rewrite Hd].
  exists new. split; [done|]. intros rest. apply get_packets_encoded; [|done].
  clear -Hsrc AddressLaws0. induction Hsrc as [|e evs He _ IH]; [constructor|].
  destruct e as [| |[[p src]|] w]; simpl; try done. constructor; [by destruct mode|done].
Qed.
End uot_theorems.

(** ** Witnesses *)

Definition relay_start : RelayState := mkRelay demo_shared [] false [] false false.
Definition alice_ctx : ConnCtx := mkCtx (Some (mkAuthed 0 0)) None false.

Lemma stream_reader_lossless_witness :
  polled_bytes [Pending; Ready (Ok (str "abc"))] ++ [] = arrived true [Poll 4096; Arrive (str "abc"); Poll 4096].
Proof.
  refine (proj2 (stream_reader_lossless [Poll 4096; Arrive (str "abc"); Poll 4096]
    [Pending; Ready (Ok (str "abc"))] (mkReader [] None None) _ _)); reflexivity.
Defined.

Lemma constant_buffer_resumes_witness : resumes [Poll 64; Arrive (str "abc"); Poll 64; Poll 64] new_reader = true.
Proof. apply (constant_buffer_resumes 64). repeat constructor. Defined.

Lemma abandoned_read_panics_witness :
  (rop_run [Poll 500; Arrive (str "abc"); Poll 1] new_reader).1 = [Pending; Panicked].
Proof. apply (abandoned_read_panics 500 1 (str "abc")); vm_compute; lia. Defined.

(** Alice has a quota of 100 bytes: after 120 of them the next tick ends the relay. *)
Definition upload_120 : list s2o_event := [STick 0; SRead (Ok (replicate 120 Byte.x61)) Written].
Definition after_120 : RelayState := (s2o alice_ctx (Ok tt) upload_120 relay_start).2.

Lemma relay_forwards_and_polices_witness :
  outbound after_120 = replicate 120 Byte.x61 ∧
  s2o alice_ctx (Ok tt) (upload_120 ++ [STick 1; SRead (Ok (str "more")) Written]) relay_start
    = (Some (Ok tt), shut_outbound (end_stream after_120)).
Proof.
  destruct (relay_forwards_and_polices alice_ctx upload_120 relay_start after_120 1 [SRead (Ok (str "more")) Written])
    as (H1 & _ & H3).
  - repeat constructor. discriminate.
  - reflexivity.
  - reflexivity.
  - split; [rewrite H1; reflexivity|exact H3].
Defined.

Lemma failed_shutdown_skips_cancel_witness :
  s2o alice_ctx (Err early_eof) (upload_120 ++ [SRead (Err early_eof) Written]) relay_start
    = (Some (Err early_eof), shut_outbound after_120).
Proof.
  refine (proj1 (failed_shutdown_skips_cancel alice_ctx upload_120 relay_start after_120 early_eof early_eof _ _ _)).
  - repeat constructor. discriminate.
  - reflexivity.
  - reflexivity.
Defined.

Definition download_ab : list o2s_event := [ORead (Ok (str "a")) (Ok tt) (Ok 1); ORead (Ok (str "b")) (Ok tt) (Ok 1)].
Definition after_ab : RelayState := (o2s alice_ctx download_ab relay_start).2.

Lemma download_relay_ends_witness :
  inbound after_ab = str "ab" ∧
  o2s alice_ctx (download_ab ++ [ORead (Ok []) (Ok tt) (Ok 0)]) relay_start = (Some (Ok tt), end_stream after_ab).
Proof.
  destruct (download_relay_ends alice_ctx download_ab relay_start after_ab 0 [] (Ok tt) (Ok 0) early_eof early_eof [])
    as (H1 & _ & H3 & _).
  - repeat constructor; discriminate.
  - reflexivity.
  - split; [rewrite H1; reflexivity|exact H3].
Defined.

Definition uot_events : list (uot_event SocksAddress) :=
  [UPacket (Ok (Some dns_server, str "query")) (Ok tt); URecv (Ok (str "answer", dns_server)) (Ok 15)].
Definition uot_start : UotState SocksAddress := mkUotState demo_shared [] [] false.
Definition uot_after : UotState SocksAddress := (uot_loop Datagram dns_server alice_ctx uot_events uot_start).2.

Lemma uot_relay_delivers_witness :
  us_sent uot_after = [(dns_server, str "query")] ∧
  ∃ new, us_frames uot_after = [] ++ new ∧
    ∀ rest, get_packets Datagram 1 (concat new ++ rest) = (Ok [(Some dns_server, str "answer")], rest).
Proof.
  destruct (uot_relay_delivers Datagram dns_server alice_ctx uot_events uot_start uot_after 0 []) as (H1 & H2 & _).
  - repeat constructor; discriminate.
  - reflexivity.
  - split; [exact H1|exact H2].
Defined.
