(* ===== verification/Outbound.v ===== *)
(** * Outbound connections of the server (bin/server.rs)

    How the server reaches a destination: directly, or through the SOCKS5 proxy
    of [--outbound-proxy], for TCP streams and for the UDP side of UDP over TCP.
    Sockets and the SOCKS client are outside the program: each call to them is
    recorded, and answered by the environment from the calls made so far. *)

From S2P Require Import Prelude RustStr Uot.
From Stdlib Require Import Strings.Byte.

Section outbound.
  Context {Address : Type}.

Record ProxyParameters : Type := mkProxy { px_addr : Address; px_credentials : option (bytes * bytes) }.

Inductive NetCall : Type :=
  | TcpConnect (to : bytes)
  | SocksConnect (destination : Address) (credentials : option (bytes * bytes))
  | UdpBind (local : bytes)
  | SocksAssociate (proxy : bytes) (credentials : option (bytes * bytes))
  | UdpConnect (to : bytes)
  | UdpSendTo (payload to : bytes)
  | SocksSendTo (payload : bytes) (destination : Address)
  | UdpRecvFrom (size : nat)
  | SocksRecvFrom (size : nat).

(** The environment: [setup] answers the calls that set something up, [sent]
    the sends, [received] a receive: the bytes put at the front of the buffer,
    their announced number, and the source. *)
Record Net : Type := mkNet {
  setup : list NetCall → NetCall → result unit;
  sent : list NetCall → NetCall → result nat;
  received : list NetCall → NetCall → result (bytes * nat * Address);
}.

Variable net : Net.
Variable to_string : Address → bytes.                 (** [Address::to_string] *)
Variable to_socket_addr : Address → result bytes.     (** [try_into::<SocketAddr>()] *)

Definition call {A} (ans : list NetCall → NetCall → result A) (c : NetCall) : ioM (list NetCall) A :=
  fun tr => (ans tr c, tr ++ [c]).

Definition connect_outbound_tcp (destination : Address) (outbound_socks5 : option ProxyParameters)
  : ioM (list NetCall) unit :=
  match outbound_socks5 with
  | Some parameters =>
      proxy_addr ← io_lift (to_socket_addr (px_addr parameters));
      _ ← call (setup net) (TcpConnect proxy_addr);
      call (setup net) (SocksConnect destination (px_credentials parameters))
  | None => call (setup net) (TcpConnect (to_string destination))
  end.

(** ** The UDP side *)

Inductive UotUdpOutbound : Type := Direct | Proxied.

Definition create_uot_udp_outbound (outbound_socks5 : option ProxyParameters) : ioM (list NetCall) UotUdpOutbound :=
  match outbound_socks5 with
  | Some proxy_params =>
      proxy_addr ← io_lift (to_socket_addr (px_addr proxy_params));
      _ ← call (setup net) (SocksAssociate proxy_addr (px_credentials proxy_params));
      mret Proxied
  | None =>
      _ ← call (setup net) (UdpBind (str "0.0.0.0:0"));
      mret Direct
  end.

Definition ensure_uot_udp_outbound_ready (outbound : UotUdpOutbound) (destination : Address) : ioM (list NetCall) unit :=
  match outbound with
  | Direct => call (setup net) (UdpConnect (to_string destination))
  | Proxied => mret tt
  end.

(** [std::io::Error::other]. *)
Definition as_other {A} (r : result A) : result A := map_err (fun e => err_other (err_msg e)) r.

Definition send_uot_udp_payload (outbound : UotUdpOutbound) (payload : bytes) (destination : Address)
  : ioM (list NetCall) nat :=
  match outbound with
  | Direct => call (sent net) (UdpSendTo payload (to_string destination))
  | Proxied => call (fun tr c => as_other (sent net tr c)) (SocksSendTo payload destination)
  end.

(** The number of bytes, the source, and the buffer afterwards; the copy panics
    ([None]) when the two slices differ in length. *)
Definition recv_uot_udp_payload (outbound : UotUdpOutbound) (outbound_buf : bytes)
  : ioM (list NetCall) (option (nat * Address * bytes)) :=
  match outbound with
  | Direct =>
      '(d, n, source) ← call (received net) (UdpRecvFrom (length outbound_buf));
      mret (Some (n, source, d ++ drop (length d) outbound_buf))
  | Proxied =>
      '(d, n, source) ← call (fun tr c => as_other (received net tr c)) (SocksRecvFrom (length outbound_buf));
      let raw := take n (d ++ drop (length d) (replicate (length outbound_buf) Byte.x00)) in
      if decide (n ≤ length outbound_buf ∧ length raw = n)
      then mret (Some (n, source, raw ++ drop n outbound_buf))
      else mret None
  end.

(** What a UDP-over-TCP stream does with its outbound. *)
Inductive udp_op : Type := OReady (d : Address) | OSend (payload : bytes) (d : Address) | ORecv (buf : bytes).

Definition run_op (outbound : UotUdpOutbound) (o : udp_op) : ioM (list NetCall) unit :=
  match o with
  | OReady d => ensure_uot_udp_outbound_ready outbound d
  | OSend payload d => _ ← send_uot_udp_payload outbound payload d; mret tt
  | ORecv buf => _ ← recv_uot_udp_payload outbound buf; mret tt
  end.

Definition udp_session (outbound_socks5 : option ProxyParameters) (ops : list udp_op) : ioM (list NetCall) unit :=
  outbound ← create_uot_udp_outbound outbound_socks5;
  io_iter (run_op outbound) ops.

(** ** Lemmas *)

(** A call that goes to the proxy, or that the proxy carries out. *)
Definition via_proxy (p : ProxyParameters) (c : NetCall) : Prop :=
  match c with
  | TcpConnect a => to_socket_addr (px_addr p) = Ok a
  | SocksAssociate a creds => to_socket_addr (px_addr p) = Ok a ∧ creds = px_credentials p
  | SocksConnect _ creds => creds = px_credentials p
  | SocksSendTo _ _ | SocksRecvFrom _ => True
  | UdpBind _ | UdpConnect _ | UdpSendTo _ _ | UdpRecvFrom _ => False
  end.

(** Code that only adds calls that satisfy [P]. *)
Definition only {A} (P : NetCall → Prop) (m : ioM (list NetCall) A) : Prop :=
  ∀ tr, Forall P tr → Forall P (m tr).2.

Lemma only_ret {A} P (a : A) : only P (mret a).
Proof. by intros tr. Qed.
Lemma only_lift {A} P (r : result A) : only P (io_lift r).
Proof. by intros tr. Qed.
Lemma only_call {A} (P : NetCall → Prop) (ans : list NetCall → NetCall → result A) c : P c → only P (call ans c).
Proof. intros Hc tr Htr. simpl. apply Forall_app. by repeat constructor. Qed.
(** Binding: the continuation is run on results the first part can have. *)
Lemma only_bind {A B} P (m : ioM (list NetCall) A) (k : A → ioM (list NetCall) B) :
  only P m → (∀ a, (∃ tr tr', m tr = (Ok a, tr')) → only P (k a)) → only P (m ≫= k).
Proof.
  intros Hm Hk tr Htr. specialize (Hm tr Htr). unfold mbind, ioM_bind.
  destruct (m tr) as [[a|e] tr'] eqn:E; [by apply (Hk a); [exists tr, tr'|]|done].
Qed.

Lemma only_iter {A} P (f : A → ioM (list NetCall) unit) l : (∀ a, only P (f a)) → only P (io_iter f l).
Proof. intros Hf. induction l as [|a l IH]; [apply only_ret|]. by apply only_bind. Qed.

Lemma run_op_proxied p o : only (via_proxy p) (run_op Proxied o).
Proof.
  destruct o as [d|payload d|buf]; simpl; [apply only_ret| |].
  - apply only_bind; [by apply only_call|intros; apply only_ret].
  - apply only_bind; [|intros; apply only_ret]. apply only_bind; [by apply only_call|].
    intros [[d n] src]. case_decide; apply only_ret.
Qed.

Lemma create_proxied p : only (via_proxy p) (create_uot_udp_outbound (Some p)).
Proof.
  apply only_bind; [apply only_lift|]. intros a (tr & tr' & [= Ha _]).
  apply only_bind; [by apply only_call|]. intros _ _. apply only_ret.
Qed.

Lemma create_is_proxied p tr out tr' : create_uot_udp_outbound (Some p) tr = (Ok out, tr') → out = Proxied.
Proof.
  intros (a & s1 & _ & H)%ioM_bind_ok. apply ioM_bind_ok in H as (u & s2 & _ & [= <- _]). done.
Qed.

(** ** Theorems *)

(** C30. With an outbound proxy nothing bypasses it: every call a TCP stream or a
    UDP-over-TCP stream makes to the network, whatever it sends and wherever, and
    whatever the environment answers, either goes to the proxy's address with the
    configured credentials or is carried out by the proxy; no socket of the server
    is ever bound, connected or addressed to a destination. *)
Theorem outbound_stays_behind_proxy p destination ops :
  Forall (via_proxy p) (connect_outbound_tcp destination (Some p) []).2 ∧
  Forall (via_proxy p) (udp_session (Some p) ops []).2.
Proof.
  split.
  - cut (only (via_proxy p) (connect_outbound_tcp destination (Some p))); [intros H; by apply H|].
    apply only_bind; [apply only_lift|]. intros a (tr & tr' & [= Ha _]).
    apply only_bind; [by apply only_call|]. intros _ _. by apply only_call.
  - cut (only (via_proxy p) (udp_session (Some p) ops)); [intros H; by apply H|].
    apply only_bind; [apply create_proxied|]. intros out (tr & tr' & Hout).
    rewrite (create_is_proxied _ _ _ _ Hout). apply only_iter, run_op_proxied.
Qed.

(** Without a proxy the destination is contacted by its own name, with it by the
    proxy on the server's behalf; either way a connection that is reported made
    these calls and no others. *)
Theorem connect_outbound_exact destination socks tr tr' :
  connect_outbound_tcp destination socks tr = (Ok tt, tr') →
  match socks with
  | None => tr' = tr ++ [TcpConnect (to_string destination)]
  | Some p => ∃ a, to_socket_addr (px_addr p) = Ok a ∧
      tr' = tr ++ [TcpConnect a; SocksConnect destination (px_credentials p)]
  end.
Proof.
  destruct socks as [p|]; simpl.
  - unfold io_lift. intros (a & s1 & [= Ha <-] & H)%ioM_bind_ok. exists a. split; [done|].
    apply ioM_bind_ok in H as (u & s2 & [= _ <-] & [= _ <-]). by rewrite <- app_assoc.
  - by intros [= _ <-].
Qed.

(** A received datagram is what the loop sees of its buffer, on both paths, when
    the announced number is the number of bytes put there and fits. *)
Theorem recv_sees_datagram outbound buf tr d src :
  length d ≤ length buf →
  received net tr (match outbound with Direct => UdpRecvFrom (length buf) | Proxied => SocksRecvFrom (length buf) end)
    = Ok (d, length d, src) →
  ∃ buf' tr', recv_uot_udp_payload outbound buf tr = (Ok (Some (length d, src, buf')), tr') ∧
    take (length d) buf' = d ∧ length buf' = length buf.
Proof.
  intros Hl Hr. destruct outbound; unfold recv_uot_udp_payload; erewrite ioM_bind_run by (unfold call, as_other; by rewrite Hr);
    cbv beta iota zeta.
  - eexists _, _. split_and!; [done|by rewrite take_app_length|]. rewrite length_app, length_drop. lia.
  - rewrite take_app_length, decide_True by done. eexists _, _. split_and!; [done|by rewrite take_app_length|].
    rewrite length_app, length_drop. lia.
Qed.
End outbound.

Arguments ProxyParameters : clear implicits.
Arguments NetCall : clear implicits.
Arguments Net : clear implicits.

(** ** Witnesses *)

Definition up_net : Net SocksAddress :=
  mkNet (fun _ _ => Ok tt) (fun _ c => Ok (match c with UdpSendTo p _ | SocksSendTo p _ => length p | _ => 0 end))
    (fun _ _ => Ok (str "answer", 6, dns_server)).
Definition show_address (a : SocksAddress) : bytes :=
  match a with SocksDomain d p | SocksV4 d p | SocksV6 d p => d ++ str ":" ++ to_dec p end.

Lemma connect_outbound_exact_witness :
  (connect_outbound_tcp up_net show_address (fun a => Ok (show_address a)) (SocksDomain (str "x.example") 80) None []).2
    = [TcpConnect (str "x.example:80")].
Proof.
  refine (connect_outbound_exact up_net show_address (fun a => Ok (show_address a)) (SocksDomain (str "x.example") 80) None
    [] [TcpConnect (str "x.example:80")] _). reflexivity.
Defined.

Lemma recv_sees_datagram_witness :
  ∃ buf' tr', recv_uot_udp_payload up_net Proxied (replicate 10 Byte.x00) [] = (Ok (Some (6, dns_server, buf')), tr') ∧
    take 6 buf' = str "answer" ∧ length buf' = 10.
Proof. apply (recv_sees_datagram up_net Proxied (replicate 10 Byte.x00) [] (str "answer") dns_server); [vm_compute; lia|reflexivity]. Defined.
