(* ===== verification/UotSelect.v ===== *)
(** * UDP-over-TCP packets under [select!]
      ([handle_uot_datagram_stream] and [handle_uot_connected_stream] of
      [bin/server.rs], [handle_udp_associate] of [src/client_runner.rs])

    The loops poll [uot_get_packet_from_stream] beside a timer and a socket, and
    drop its future whenever another branch fires; what the future had read is
    then lost, while the read it started stays with the [StreamReader].  Here the
    future is polled step by step: the bytes it has, the read it wants next, and
    the adapter's state. *)

From S2P Require Import Prelude RustStr Padding Users Panel Server Uot Relay.
From Stdlib Require Import Strings.Byte.

(** How the SOCKS crate reads an address: how many bytes the next read asks for,
    [None] once the address is complete. *)
Class AddressReads (Address : Type) `{!AddressCodec Address, !AddressLaws Address} : Type := {
  addr_need : bytes → option nat;
  addr_need_wire : ∀ a s, addr_wire a → addr_need (write_to_buf a ++ s) = None;
  addr_need_cut : ∀ a k, addr_wire a → k < length (write_to_buf a) →
    ∃ n, addr_need (take k (write_to_buf a)) = Some n ∧ 0 < n ≤ length (write_to_buf a) - k;
}.

Section select.
  Context {Address : Type} `{!AddressCodec Address, !AddressLaws Address, !AddressReads Address}.

(** What the future of [uot_get_packet_from_stream] does next, from the bytes it
    has read: ask for [n] more, return a packet, or fail. *)
Inductive Need : Type :=
  | More (n : nat)
  | Complete (p : option Address * bytes)
  | Broken (e : io_error).

(** [read_u16] and [read_exact]. *)
Definition body_need (d : option Address) (rest : bytes) : Need :=
  if decide (length rest < 2) then More (2 - length rest)
  else
    let n := Z.to_nat (be_decode (take 2 rest)) in
    if decide (length rest < 2 + n) then More (2 + n - length rest)
    else Complete (d, take n (drop 2 rest)).

Definition packet_need (mode : UotMode) (have : bytes) : Need :=
  match mode with
  | Connected => body_need None have
  | Datagram =>
      match addr_need have with
      | Some n => More n
      | None =>
          match retrieve_from_async_stream have with
          | (Ok a, rest) => body_need (Some a) rest
          | (Err e, _) => Broken e
          end
      end
  end.

Inductive PacketPoll : Type :=
  | Packet (p : option Address * bytes)
  | Waiting
  | PacketFailed (e : io_error)
  | PacketPanics.

(** The end of the stream: the read fails as it does on these bytes alone. *)
Definition at_eof (mode : UotMode) (have : bytes) : PacketPoll :=
  match (uot_get_packet_from_stream mode have).1 with Ok p => Packet p | Err e => PacketFailed e end.

(** One poll of the branch: the future reads until it waits or returns. *)
Fixpoint poll_packet (fuel : nat) (mode : UotMode) (have : bytes) (r : StreamReader)
  : PacketPoll * bytes * StreamReader :=
  match packet_need mode have with
  | Complete p => (Packet p, [], r)
  | Broken e => (PacketFailed e, [], r)
  | More n =>
      match fuel with
      | O => (Waiting, have, r)
      | S f =>
          match poll_read n r with
          | (Pending, r') => (Waiting, have, r')
          | (Ready (Ok []), r') => (at_eof mode have, [], r')
          | (Ready (Ok d), r') => poll_packet f mode (have ++ d) r'
          | (Ready (Err e), r') => (PacketFailed e, [], r')
          | (Panicked, r') => (PacketPanics, [], r')
          end
      end
  end.

(** Every read that returns takes a byte that was there. *)
Definition poll_fuel (r : StreamReader) : nat := S (length (concat (sr_queue r))).

(** What happens to the branch: a piece of the stream arrives, the branch is
    polled, or another branch fires and the future is dropped. *)
Inductive pevent : Type := PArrive (c : bytes) | PPoll | POther.

Record Branch : Type := mkBranch { br_have : bytes; br_reader : StreamReader }.

Definition branch_step (mode : UotMode) (e : pevent) (b : Branch) : list PacketPoll * Branch :=
  match e with
  | PArrive c => ([], mkBranch (br_have b) (rop_step (Arrive c) (br_reader b)).2)
  | PPoll =>
      let '(out, have, r) := poll_packet (poll_fuel (br_reader b)) mode (br_have b) (br_reader b) in
      ([out], mkBranch have r)
  | POther => ([], mkBranch [] (br_reader b))
  end.

Fixpoint branch_run (mode : UotMode) (evs : list pevent) (b : Branch) : list PacketPoll * Branch :=
  match evs with
  | [] => ([], b)
  | e :: evs' =>
      let '(o, b1) := branch_step mode e b in
      let '(os, b2) := branch_run mode evs' b1 in (o ++ os, b2)
  end.

Definition branch_start : Branch := mkBranch [] new_reader.

Definition packets_of (os : list PacketPoll) : list (option Address * bytes) :=
  omap (fun o => if o is Packet p then Some p else None) os.
Definition arrivals (evs : list pevent) : list bytes :=
  omap (fun e => if e is PArrive c then Some c else None) evs.
Definition harmless (o : PacketPoll) : Prop := match o with Packet _ | Waiting => True | _ => False end.

(** ** Lemmas *)

(** A buffer that is a whole packet. *)
Definition whole (mode : UotMode) (p : option Address * bytes) (buf : bytes) : Prop :=
  dest_ok mode addr_wire p.1 ∧ uot_encode_packet mode p.1 p.2 = Ok buf.

Lemma body_need_whole d payload :
  (Z.of_nat (length payload) ≤ u16_max)%Z →
  let buf := be_encode 2 (wrap 16 (Z.of_nat (length payload))) ++ payload in
  body_need d buf = Complete (d, payload) ∧
  ∀ k, k < length buf → ∃ n, body_need d (take k buf) = More n ∧ 0 < n ≤ length buf - k.
Proof.
  intros Hl buf. assert (length buf = 2 + length payload) as Hlen
    by (unfold buf; rewrite length_app, length_be_encode; lia).
  assert (Z.to_nat (be_decode (take 2 buf)) = length payload) as Hdec.
  { unfold buf. rewrite take_app_length' by (by rewrite length_be_encode). rewrite wrap_small by (unfold in_u; lia).
    rewrite (be_decode_encode_u 16 2) by (done || unfold in_u; lia). apply Nat2Z.id. }
  split.
  - unfold body_need. rewrite decide_False by lia. cbv zeta. rewrite Hdec, decide_False by lia.
    unfold buf. rewrite drop_app_length' by (by rewrite length_be_encode). by rewrite firstn_all.
  - intros k Hk. unfold body_need. rewrite !length_take, Hlen. case_decide as H2; [eexists; split; [done|lia]|].
    assert (take 2 (take k buf) = take 2 buf) as -> by (rewrite take_take; f_equal; lia).
    cbv zeta. rewrite Hdec. case_decide as H3; [|lia]. eexists. split; [done|lia].
Qed.

(** A whole packet is read to its last byte, and no further: the future asks for
    something as long as bytes are missing, and never for more than that. *)
Lemma packet_need_whole mode p buf :
  whole mode p buf →
  packet_need mode buf = Complete p ∧
  ∀ k, k < length buf → ∃ n, packet_need mode (take k buf) = More n ∧ 0 < n ≤ length buf - k.
Proof.
  destruct p as [d payload]. unfold whole, uot_encode_packet, packet_need. cbn [fst snd]. intros [Hd He].
  destruct (Z.ltb_spec u16_max (Z.of_nat (length payload))) as [|Hl]; [done|].
  destruct (body_need_whole d payload Hl) as [Hb Hc].
  remember (be_encode 2 (wrap 16 (Z.of_nat (length payload))) ++ payload) as body eqn:Eb. clear Eb Hl.
  destruct mode, d as [a|]; simplify_eq/=; [|done]. split.
  - by rewrite addr_need_wire, retrieve_write.
  - intros k Hk. rewrite length_app in *. destruct (decide (k < length (write_to_buf a))) as [Hka|Hka].
    + rewrite take_app_le by lia. destruct (addr_need_cut a k Hd Hka) as (n & -> & Hn).
      eexists. split; [done|lia].
    + rewrite take_app_ge by lia. rewrite addr_need_wire, retrieve_write by done.
      destruct (Hc (k - length (write_to_buf a))) as (n & -> & Hn); [lia|]. eexists. split; [done|lia].
Qed.

Lemma whole_nonempty mode p buf : whole mode p buf → 0 < length buf.
Proof.
  destruct p as [d payload]. unfold whole, uot_encode_packet. cbn [fst snd]. intros [_ He].
  destruct (u16_max <? _)%Z; [done|]. destruct mode, d; simplify_eq/=; rewrite ?length_app; simpl; lia.
Qed.

(** Before the first byte the future wants something. *)
Lemma packet_need_nil mode : ∃ n, packet_need mode [] = More n ∧ 0 < n.
Proof.
  destruct mode; [|exists 2; split; [done|lia]]. simpl.
  assert (∃ a, addr_wire a ∧ 0 < length (write_to_buf a)) as (a & Ha & Hl).
  { assert (∀ z, in_u 16 z → addr_wire (DomainAddress [] z)) as Hw by (intros; apply domain_wire; simpl; [lia|done]).
    destruct (write_to_buf (DomainAddress [] 0)) as [|x l] eqn:E0.
    2:{ exists (DomainAddress [] 0). rewrite E0. split; [apply Hw; unfold in_u|simpl]; lia. }
    destruct (write_to_buf (DomainAddress [] 1)) as [|x l] eqn:E1.
    2:{ exists (DomainAddress [] 1). rewrite E1. split; [apply Hw; unfold in_u|simpl]; lia. }
    pose proof (retrieve_write _ [] (Hw 0%Z ltac:(unfold in_u; lia))) as R0.
    pose proof (retrieve_write _ [] (Hw 1%Z ltac:(unfold in_u; lia))) as R1.
    rewrite E0 in R0. rewrite E1 in R1. rewrite R0 in R1. simplify_eq.
    pose proof (as_domain_DomainAddress [] 0) as D0. pose proof (as_domain_DomainAddress [] 1) as D1. congruence. }
  destruct (addr_need_cut a 0 Ha Hl) as (n & Hn & Hn'). rewrite take_0 in Hn. rewrite Hn.
  exists n. split; [done|lia].
Qed.

(** A pending read that a future without bytes may resume. *)
Definition first_read (mode : UotMode) (fut : option nat) : Prop :=
  match fut with None => True | Some n => packet_need mode [] = More n end.

Lemma poll_read_here n c q e fut :
  0 < n → n ≤ length c → fut = None ∨ fut = Some n →
  poll_read n (mkReader (c :: q) e fut) =
    (Ready (Ok (take n c)), mkReader (if decide (n = length c) then q else drop n c :: q) e None).
Proof.
  intros Hn Hc Hf. assert (poll_read n (mkReader (c :: q) e fut) = poll_fut n n (mkReader (c :: q) e fut)) as ->.
  { destruct Hf as [->| ->]; unfold poll_read; simpl; [by rewrite decide_False by lia|done]. }
  unfold poll_fut. simpl. rewrite decide_True by (rewrite length_take; lia). do 2 f_equal.
  case_decide as Hd.
  - by rewrite drop_ge by lia.
  - destruct (drop n c) eqn:E; [|done]. apply (f_equal length) in E. rewrite length_drop in E. simpl in E. lia.
Qed.

(** With a whole packet at hand one poll returns it and takes nothing else. *)
Lemma poll_whole mode p buf q e fuel : whole mode p buf → ∀ k fut,
  k < length buf → (fut = None ∨ (k = 0 ∧ first_read mode fut)) → length buf - k ≤ fuel →
  poll_packet fuel mode (take k buf) (mkReader (drop k buf :: q) e fut) = (Packet p, [], mkReader q e None).
Proof.
  intros Hw. destruct (packet_need_whole _ _ _ Hw) as [Hdone Hcut].
  induction fuel as [|fuel IH]; intros k fut Hk Hf Hfuel; [lia|].
  destruct (Hcut k Hk) as (n & Hn & Hn1). simpl. rewrite Hn.
  assert (fut = None ∨ fut = Some n) as Hfn.
  { destruct Hf as [->|[-> Hr]]; [by left|]. destruct fut; [right|by left]. rewrite take_0 in Hn. simpl in Hr. congruence. }
  rewrite poll_read_here by (done || rewrite ?length_drop; lia).
  assert (take k buf ++ take n (drop k buf) = take (k + n) buf) as Happ by (by rewrite take_take_drop).
  assert (take n (drop k buf) ≠ []) as Hne.
  { intros E. apply (f_equal length) in E. rewrite length_take, length_drop in E. simpl in E. lia. }
  destruct (take n (drop k buf)) as [|x l] eqn:El; [done|]. rewrite Happ. rewrite length_drop.
  case_decide as Hd.
  - rewrite take_ge by lia. destruct fuel; simpl; by rewrite Hdone.
  - rewrite drop_drop. apply IH; [lia|by left|lia].
Qed.

(** The branch between two events: nothing half read, the packets [ps] at hand,
    and at most a first read pending. *)
Definition at_rest (mode : UotMode) (ps : list (option Address * bytes)) (b : Branch) : Prop :=
  ∃ bufs fut, b = mkBranch [] (mkReader bufs None fut) ∧ Forall2 (whole mode) ps bufs ∧ first_read mode fut.

Lemma arrive_at_rest mode ps b p c :
  at_rest mode ps b → whole mode p c → at_rest mode (ps ++ [p]) (branch_step mode (PArrive c) b).2.
Proof.
  intros (bufs & fut & -> & Hps & Hf) Hw. pose proof (whole_nonempty _ _ _ Hw) as Hc. simpl.
  destruct c as [|x c]; [simpl in Hc; lia|]. exists (bufs ++ [x :: c]), fut. split_and!; [done| |done].
  by apply Forall2_app; [|constructor].
Qed.

(** A poll returns the next packet, and waits when there is none. *)
Lemma poll_at_rest mode ps b :
  at_rest mode ps b →
  (branch_step mode PPoll b).1 = [match ps with [] => Waiting | p :: _ => Packet p end] ∧
  at_rest mode (tail ps) (branch_step mode PPoll b).2.
Proof.
  intros (bufs & fut & -> & Hps & Hf). unfold branch_step. cbn [br_have br_reader].
  destruct Hps as [|p buf ps bufs Hw Hps].
  - destruct (packet_need_nil mode) as (n & Hn & Hn0). simpl. rewrite Hn.
    assert (poll_read n (mkReader [] None fut) = (Pending, mkReader [] None (Some n))) as ->.
    { unfold poll_read, poll_fut. simpl. destruct fut as [m|]; simpl in Hf; [congruence|]. by rewrite decide_False by lia. }
    split; [done|]. exists [], (Some n). by split_and!.
  - pose proof (whole_nonempty _ _ _ Hw) as Hl.
    pose proof (poll_whole mode p buf bufs None (poll_fuel (mkReader (buf :: bufs) None fut)) Hw 0 fut Hl) as Hp.
    rewrite take_0, drop_0 in Hp. rewrite Hp; [|by right|unfold poll_fuel; simpl; rewrite length_app; lia].
    split; [done|]. exists bufs, None. by split_and!.
Qed.

Lemma branch_run_at_rest mode evs ps b new os b' :
  at_rest mode ps b → Forall2 (whole mode) new (arrivals evs) → branch_run mode evs b = (os, b') →
  Forall harmless os ∧ ∃ left, at_rest mode left b' ∧ packets_of os ++ left = ps ++ new.
Proof.
  revert ps b new os. induction evs as [|e evs IH]; intros ps b new os Hb Hnew Hrun.
  { inversion Hnew; subst. simpl in Hrun. simplify_eq. split; [constructor|]. exists ps. by rewrite app_nil_r. }
  cbn [branch_run] in Hrun. destruct (branch_step mode e b) as [o b1] eqn:Es.
  destruct (branch_run mode evs b1) as [os1 b2] eqn:Er. simplify_eq. destruct e as [c| |].
  - inversion Hnew as [|p c' new' ? Hw Hnew']; subst.
    pose proof (arrive_at_rest _ _ _ _ _ Hb Hw) as Hb1. rewrite Es in Hb1.
    destruct (IH _ _ _ _ Hb1 Hnew' Er) as (Hh & left & Hl & Heq).
    injection Es as <- _. split; [done|]. exists left. by rewrite <- app_assoc in Heq.
  - destruct (poll_at_rest _ _ _ Hb) as [Ho Hb1]. rewrite Es in Ho, Hb1. cbn [fst snd] in Ho, Hb1. subst o.
    destruct (IH _ _ _ _ Hb1 Hnew Er) as (Hh & left & Hl & Heq).
    split; [constructor; [by destruct ps|done]|]. exists left. split; [done|].
    destruct ps as [|p ps]; simpl in *; by rewrite Heq.
  - assert (at_rest mode ps b1) as Hb1.
    { destruct Hb as (bufs & fut & -> & H). simpl in Es. simplify_eq. by exists bufs, fut. }
    injection Es as <- _. by apply (IH ps b1).
Qed.

Lemma drain_at_rest mode ps b :
  at_rest mode ps b → (branch_run mode (replicate (length ps) PPoll) b).1 = Packet <$> ps.
Proof.
  revert b. induction ps as [|p ps IH]; intros b Hb; [done|].
  destruct (poll_at_rest _ _ _ Hb) as [Ho Hb1]. cbn [length replicate branch_run].
  destruct (branch_step mode PPoll b) as [o b1]. cbn [fst snd tail] in *. subst o.
  specialize (IH b1 Hb1). destruct (branch_run mode (replicate (length ps) PPoll) b1). simpl in *. by rewrite IH.
Qed.

(** ** Theorems *)

(** C29. Packets that arrive whole survive [select!]: the two ends write each
    packet as one frame, so it arrives in one piece; then however the arrivals,
    the polls of the branch and the dropping of its future interleave, no poll
    fails or panics, the packets returned and the ones still to come are together
    exactly those that arrived, in order, none is held half read, and one further
    poll each returns the rest. *)
Theorem whole_packets_survive_select mode evs ps os b :
  Forall2 (whole mode) ps (arrivals evs) → branch_run mode evs branch_start = (os, b) →
  Forall harmless os ∧ br_have b = [] ∧
  ∃ left, packets_of os ++ left = ps ∧
    (branch_run mode (replicate (length left) PPoll) b).1 = Packet <$> left.
Proof.
  intros Hps Hrun. destruct (branch_run_at_rest mode evs [] branch_start ps os b) as (Hh & left & Hl & Heq); [|done..|].
  { exists [], None. by split_and!. }
  split_and!; [done|by destruct Hl as (? & ? & -> & _)|]. exists left. split; [done|]. by apply drain_at_rest.
Qed.

(** A packet that arrives in two pieces does not survive: when the timer fires
    between its length and its payload, the length is lost with the future and the
    read of the payload stays behind; the next packet asks for two bytes, is
    handed the payload, and the copy panics. *)
Theorem split_packet_panics payload buf :
  2 < length payload → uot_encode_packet Connected None payload = Ok buf →
  (branch_run Connected [PArrive (take 2 buf); PPoll; POther; PArrive (drop 2 buf); PPoll] branch_start).1
    = [Waiting; PacketPanics].
Proof.
  intros Hl He. unfold uot_encode_packet in He.
  destruct (Z.ltb_spec u16_max (Z.of_nat (length payload))) as [|Hm]; [done|].
  assert (buf = be_encode 2 (wrap 16 (Z.of_nat (length payload))) ++ payload) as -> by congruence. clear He.
  rewrite take_app_length', drop_app_length' by (by rewrite length_be_encode).
  assert (Z.to_nat (be_decode (be_encode 2 (wrap 16 (Z.of_nat (length payload))))) = length payload) as Hdec.
  { rewrite wrap_small, (be_decode_encode_u 16 2) by (done || unfold in_u; lia). apply Nat2Z.id. }
  destruct (be_encode 2 (wrap 16 (Z.of_nat (length payload)))) as [|h1 [|h2 []]] eqn:Eh; try discriminate.
  destruct payload as [|x payload]; [simpl in Hl; lia|]. remember (x :: payload) as l eqn:El.
  assert (packet_need Connected [h1; h2] = More (length l)) as Hn.
  { unfold packet_need, body_need. rewrite decide_False by (simpl; lia). cbn [take]. cbv zeta. rewrite Hdec.
    rewrite decide_True by (simpl; lia). f_equal. simpl. lia. }
  assert (branch_step Connected PPoll (mkBranch [] (mkReader [[h1; h2]] None None))
          = ([Waiting], mkBranch [h1; h2] (mkReader [] None (Some (length l))))) as H1.
  { unfold branch_step. cbn -[packet_need length]. change (packet_need Connected []) with (More 2).
    cbn -[packet_need length]. rewrite decide_False, decide_True by (simpl; lia).
    cbn -[packet_need]. rewrite Hn. unfold poll_read. simpl. by rewrite decide_False by lia. }
  assert ((branch_step Connected PPoll (mkBranch [] (mkReader [l] None (Some (length l))))).1 = [PacketPanics]) as H2.
  { unfold branch_step, poll_fuel. cbn -[packet_need length]. change (packet_need Connected []) with (More 2).
    unfold poll_read, poll_fut. cbn -[length]. rewrite firstn_all, decide_False by lia. done. }
  cbn [branch_run]. change (branch_step Connected (PArrive [h1; h2]) branch_start)
    with ([] : list PacketPoll, mkBranch [] (mkReader [[h1; h2]] None None)). cbn iota beta. rewrite H1.
  cbn [branch_step br_reader br_have]. rewrite El. cbn [rop_step sr_end snd]. rewrite <- El. cbn [sr_queue app read_fut].
  unfold branch_step in H2. cbn [br_have br_reader] in H2.
  destruct (poll_packet _ Connected _ _) as [[out have] r]. simpl in *. by simplify_eq.
Qed.
End select.
Arguments Need : clear implicits.
Arguments PacketPoll : clear implicits.

(** ** RFC 1928 addresses: the type, for a domain its length, then the rest *)

Definition socks_missing (total : nat) (have : bytes) : option nat :=
  if decide (length have < total) then Some (total - length have) else None.

Definition socks_need (have : bytes) : option nat :=
  match have with
  | [] => Some 1
  | Byte.x01 :: _ => socks_missing 7 have
  | [Byte.x03] => Some 1
  | Byte.x03 :: n :: _ => socks_missing (4 + Z.to_nat (byte_to_Z n)) have
  | Byte.x04 :: _ => socks_missing 19 have
  | _ => None
  end.

Lemma socks_missing_whole total x : total ≤ length x → socks_missing total x = None.
Proof. intros H. unfold socks_missing. by rewrite decide_False by lia. Qed.

Lemma socks_missing_cut total x k :
  length x = total → k < length x →
  ∃ n, socks_missing total (take k x) = Some n ∧ 0 < n ≤ length x - k.
Proof.
  intros Hl Hk. unfold socks_missing. rewrite length_take, decide_True by lia. eexists. split; [done|lia].
Qed.

Lemma socks_need_wire a s : socks_wire a → socks_need (socks_write a ++ s) = None.
Proof.
  destruct a as [ip p|d p|ip p]; intros [Hl Hp]; unfold socks_need; cbn [socks_write app].
  2: rewrite byte_to_Z_to_byte, Z.mod_small, Nat2Z.id by lia.
  all: apply socks_missing_whole; cbn [length]; rewrite !length_app, length_be_encode; lia.
Qed.

Lemma socks_need_cut a k : socks_wire a → k < length (socks_write a) →
  ∃ n, socks_need (take k (socks_write a)) = Some n ∧ 0 < n ≤ length (socks_write a) - k.
Proof.
  intros Hw Hk. destruct k as [|k]; [exists 1; split; [done|lia]|].
  destruct a as [ip p|d p|ip p]; destruct Hw as [Hl Hp].
  - apply (socks_missing_cut 7 _ (S k)); [|done]. cbn [socks_write length]. rewrite length_app, length_be_encode. lia.
  - destruct k as [|k]; [exists 1; split; [done|lia]|].
    pose proof (socks_missing_cut (4 + length d) (socks_write (SocksDomain d p)) (S (S k))) as H.
    unfold socks_need. cbn [socks_write take] in *. rewrite byte_to_Z_to_byte, Z.mod_small, Nat2Z.id by lia.
    apply H; [|done]. cbn [length]. rewrite length_app, length_be_encode. lia.
  - apply (socks_missing_cut 19 _ (S k)); [|done]. cbn [socks_write length]. rewrite length_app, length_be_encode. lia.
Qed.

#[global] Instance socks_reads : AddressReads SocksAddress := {|
  addr_need := socks_need;
  addr_need_wire := socks_need_wire;
  addr_need_cut := socks_need_cut;
|}.

(** ** Witnesses *)

(** The two packets arrive around a dropped future; the second is still to come. *)
Definition select_events : list pevent :=
  [PPoll; POther; PArrive (nth 0 two_buffers []); PArrive (nth 1 two_buffers []); PPoll; POther].

Lemma whole_packets_survive_select_witness :
  packets_of (branch_run (Address := SocksAddress) Datagram select_events branch_start).1 = [nth 0 two_packets (None, [])] ∧
  ∃ left, packets_of (branch_run (Address := SocksAddress) Datagram select_events branch_start).1 ++ left = two_packets.
Proof.
  destruct (branch_run (Address := SocksAddress) Datagram select_events branch_start) as [os b] eqn:E.
  destruct (whole_packets_survive_select Datagram select_events two_packets os b) as (_ & _ & left & Hl & _).
  - repeat constructor; vm_compute; intuition (congruence || lia).
  - exact E.
  - split; [|by exists left]. apply (f_equal (fun x => packets_of x.1)) in E. rewrite <- E. vm_compute. reflexivity.
Defined.

Lemma split_packet_panics_witness :
  (branch_run (Address := SocksAddress) Connected
     [PArrive (be_encode 2 5); PPoll; POther; PArrive (str "query"); PPoll] branch_start).1 = [Waiting; PacketPanics].
Proof. apply (split_packet_panics (str "query") (be_encode 2 5 ++ str "query")); [vm_compute; lia|reflexivity]. Defined.
