(* ===== verification/Handshake.v ===== *)
(** * The handler of a server stream and its answer to the client
      ([handle_session], [handle_uot_stream] and the connecting parts of
      [handle_tcp_stream], [handle_uot_datagram_stream] and
      [handle_uot_connected_stream] in [bin/server.rs])

    The handler is the task a server spawns for every incoming stream.  What it
    reads from the stream, whether the user is approved, and how the outbound
    connections come out are given per round; the relays of [Relay] appear as the
    effect they have on the session. *)

From S2P Require Import Prelude RustStr StringMap Frame Padding Engine Pipe Writer Session Uot Relay.
From Stdlib Require Import Strings.Byte.

Section handshake.
  Context `{IterOrder, Md5, WriterPeer} {Address : Type} `{!AddressCodec Address}.

(** [Stream::is_terminated]. *)
Definition stream_is_terminated (s : Session) (p : nat) : bool := stream_is_closed s p || negb (tx_open s).

Definition stream_id (s : Session) (p : nat) : Z := default 0%Z (id <$> stream_at s p).

(** The target could not be reached: tell the client, close the stream, fail. *)
Definition refuse (p : nat) (e : io_error) : ioM Session unit := fun s =>
  (handshake_failure (stream_id s p) (err_msg e) ≫= fun _ => stream_close p ≫= fun _ => io_fail e) s.

Definition accept (p : nat) : ioM Session unit := fun s => handshake_success (stream_id s p) s.

(** [handle_tcp_stream] with the outcome of [connect_outbound_tcp]. *)
Definition handle_tcp_stream (p : nat) (connected : result unit) (relay : ioM Session unit)
  : ioM Session unit :=
  match connected with
  | Err e => refuse p e
  | Ok _ => accept p ≫= fun _ => relay
  end.

(** [handle_uot_datagram_stream] and [handle_uot_connected_stream] up to their
    loops, with the outcomes of [create_uot_udp_outbound] and of
    [ensure_uot_udp_outbound_ready]. *)
Definition handle_uot_datagram_stream (p : nat) (created : result unit) (relay : ioM Session unit)
  : ioM Session unit :=
  io_lift created ≫= fun _ => accept p ≫= fun _ => relay.

Definition handle_uot_connected_stream (p : nat) (created ready : result unit) (relay : ioM Session unit)
  : ioM Session unit :=
  io_lift created ≫= fun _ =>
  match ready with
  | Err e => refuse p e
  | Ok _ => accept p ≫= fun _ => relay
  end.

(** [handle_uot_stream] with the outcome of [uot_get_request_from_stream]. *)
Definition handle_uot_stream (p : nat) (request : result (UotRequest Address))
  (created ready : result unit) (relay : ioM Session unit) : ioM Session unit :=
  io_lift request ≫= fun request =>
  match req_mode request with
  | Connected => handle_uot_connected_stream p created ready relay
  | Datagram => handle_uot_datagram_stream p created relay
  end.

(** What a round of [handle_session] meets: whether [ctx.approved()] holds, what
    the other tasks do while the destination is read, what is read, and what
    happens to the outbound side. *)
Record Round : Type := mkRound {
  approved : bool;
  meanwhile : Session → Session;
  destination : result Address;
  request : result (UotRequest Address);
  outbound : result unit;
  ready : result unit;
  relay : ioM Session unit;
}.

Definition serve (p : nat) (r : Round) (a : Address) : ioM Session unit :=
  if uot_is_sentinel_destination a then handle_uot_stream p (request r) (outbound r) (ready r) (relay r)
  else handle_tcp_stream p (outbound r) (relay r).

(** [handle_session]; [None] while the handler still runs. *)
Fixpoint handle_session (p : nat) (rounds : list Round) (s : Session) : option (result unit) * Session :=
  if stream_is_terminated s p then (Some (Ok tt), s)
  else
    match rounds with
    | [] => (None, s)
    | r :: rounds' =>
        if approved r then
          let s1 := meanwhile r s in
          match destination r with
          | Err e =>
              (Some (if stream_is_terminated s1 p || is_error_of_session_broken e then Ok tt else Err e), s1)
          | Ok a =>
              match serve p r a s1 with
              | (Ok _, s2) => handle_session p rounds' s2
              | (Err e, s2) => (Some (Err e), s2)
              end
          end
        else (Some (Ok tt), (stream_close p s).2)
    end.

(** ** Lemmas *)

Lemma tx_send_accepted fw s :
  tx_open s = true → ended (frame_tx s) fw.1 = false → tx_send fw s = (Ok tt, add_frame fw s).
Proof. intros Ho He. unfold tx_send. by rewrite Ho, He. Qed.

Lemma stream_id_at s p st : heap s !! p = Some st → stream_id s p = id st.
Proof. unfold stream_id, stream_at. by intros ->. Qed.

(** Removing a stream's entry leaves the channel and the stream objects alone. *)
Lemma remove_stream_frame i s :
  let t := (remove_stream i s).2 in
  tx_open t = tx_open s ∧ frame_tx t = frame_tx s ∧ heap t = heap s ∧ streams t = delete i (streams s).
Proof. unfold remove_stream, remove_entry, publish_idle. by case_bool_decide. Qed.

Lemma stream_close_accepted p s st :
  heap s !! p = Some st → st_closed st = false → tx_open s = true →
  ended (frame_tx s) (Frame_new Fin (id st)) = false →
  let '(r, t) := stream_close p s in
  r = Ok tt ∧ frame_tx t = frame_tx s ++ [(Frame_new Fin (id st), false)] ∧
  streams t = delete (id st) (streams s) ∧ heap t = alter close_locally p (heap s).
Proof.
  intros Hp Hc Ho He. rewrite (stream_close_eq p s st) by done.
  destruct (remove_stream_frame (id st) s) as (R1 & R2 & R3 & R4).
  rewrite tx_send_accepted; simpl in *; [|by rewrite R1|by rewrite R2].
  split_and!; [done|by rewrite R2|done|done].
Qed.

(** A handler whose action list is one action applies it. *)
Lemma handle_frame_one f a c st :
  cmd f ≠ Alert → on_frame (protocol_state c) (is_client c) f = (st, [a]) →
  handle_frame f c = apply_action a (set_protocol_state st c).
Proof.
  intros Hc Hf. unfold handle_frame, apply_actions. rewrite decide_False, Hf by done. simpl.
  unfold mbind, ioM_bind. by destruct (apply_action a _) as [[[]|] ?].
Qed.

Lemma set_protocol_state_same c : set_protocol_state (protocol_state c) c = c.
Proof. by destruct c. Qed.

(** What the two frames of a refusal do to the session that receives them: the
    [SynAck] closes the stream with the message, the [Fin] finds it gone. *)
Lemma refusal_received i msg q c :
  utf8_valid msg = true → msg ≠ [] → streams c !! i = Some q →
  let '(r, c') := io_iter handle_frame [Frame_with_data SynAck i msg; Frame_new Fin i] c in
  r = Ok tt ∧ streams c' = delete i (streams c) ∧ frame_tx c' = frame_tx c ∧
  heap c' = alter (close_stream (Some (err_other (str "remote: " ++ msg)))) q (heap c).
Proof.
  intros Hu Hm Hq. simpl. unfold mbind, ioM_bind.
  rewrite (handle_frame_one _ (CloseRemoteStream i msg) c (protocol_state c)); [|done|].
  2:{ unfold on_frame; simpl. by rewrite bool_decide_eq_false_2, from_utf8_lossy_valid. }
  rewrite set_protocol_state_same. simpl. unfold terminate_session.
  destruct (remove_stream_frame i c) as (R1 & R2 & R3 & R4).
  assert ((remove_stream i c).1 = Some q) as R5 by done.
  destruct (remove_stream i c) as [o c1]; simpl in *. subst o. rewrite close_from_peer_eq.
  set (c2 := set_heap _ _).
  rewrite (handle_frame_one _ (CloseLocalStream i) c2 (protocol_state c2)) by done.
  rewrite set_protocol_state_same. simpl. unfold close_logical_stream.
  destruct (remove_stream_frame i c2) as (S1 & S2 & S3 & S4).
  assert ((remove_stream i c2).1 = None) as S5
    by (simpl; rewrite R4; apply lookup_delete_eq).
  destruct (remove_stream i c2) as [o c3]; simpl in *. subst o. simpl.
  split_and!; [done| |by rewrite S2, R2|by rewrite S3, R3].
  by rewrite S4, R4, delete_delete_eq.
Qed.

(** A stream whose reader has taken everything that arrived. *)
Definition drained (st : Stream) : Prop :=
  let i := inner (st_pipe st) in
  buffer i = [] ∧ queue i = [] ∧ rx_alive i = true ∧ data_receiver i = true.

(** Its next read returns the error the stream was closed with. *)
Lemma drained_read_error n st e :
  pipe_open (st_pipe st) → st_closed st = false → drained st →
  fst <$> read_now n (inner (st_pipe (close_stream (Some e) st))) = Some (Err e).
Proof.
  intros (C & Q & S & _) Hc (B & Qu & A & R). unfold close_stream. rewrite Hc. simpl.
  unfold finish_stream. rewrite C, Q. simpl. rewrite S, A. simpl.
  unfold read_now, read_check. simpl. rewrite B, C, R. simpl.
  unfold read_take. simpl. rewrite R. simpl. unfold recv. simpl. by rewrite Qu.
Qed.

(** ** Properties *)

(** C33. A target the server cannot reach is reported to the client that asked
    for it.  The handler of the stream fails with the connection error after
    queueing a [SynAck] with the error's text and a [Fin], and closes and
    forgets its stream; the client session that receives these frames closes and
    forgets its stream of that id, sends nothing, leaves its other streams alone,
    and a reader that has taken all the payload gets "remote: " and the text as
    the error of its next read. *)
Theorem refusal_reaches_client p st e relay s c q stc n :
  heap s !! p = Some st → st_closed st = false → tx_open s = true →
  (∀ l f, ended l f = false) → (MIN_PROTOCOL_VERSION ≤ peer_version (protocol_state s))%Z →
  utf8_valid (err_msg e) = true → err_msg e ≠ [] →
  sess_inv c → streams c !! id st = Some q → heap c !! q = Some stc → drained stc →
  let '(r, s') := handle_tcp_stream p (Err e) relay s in
  let remote := err_other (str "remote: " ++ err_msg e) in
  r = Err e ∧ streams s' = delete (id st) (streams s) ∧ heap s' = alter close_locally p (heap s) ∧
  ∃ fs, frame_tx s' = frame_tx s ++ fs ∧
    let '(rc, c') := io_iter handle_frame (fs.*1) c in
    rc = Ok tt ∧ streams c' = delete (id st) (streams c) ∧ frame_tx c' = frame_tx c ∧
    heap c' = alter (close_stream (Some remote)) q (heap c) ∧
    ∃ stc', heap c' !! q = Some stc' ∧ fst <$> read_now n (inner (st_pipe stc')) = Some (Err remote).
Proof.
  intros Hp Hc Ho He Hv Hu Hm Hi Hq Hstc Hd. simpl. unfold refuse, mbind, ioM_bind.
  rewrite (stream_id_at s p st Hp). unfold handshake_failure. rewrite (proj2 (Z.leb_le _ _) Hv).
  rewrite tx_send_accepted by done. set (s1 := add_frame _ s).
  pose proof (stream_close_accepted p s1 st Hp Hc Ho (He _ _)) as Hcl.
  destruct (stream_close p s1) as [rc s2]. destruct Hcl as (-> & Hf & Hs & Hh). simpl.
  split_and!; [done..|].
  exists [(Frame_with_data SynAck (id st) (err_msg e), false); (Frame_new Fin (id st), false)].
  split; [by rewrite Hf; simpl; rewrite <- app_assoc|].
  pose proof (refusal_received (id st) (err_msg e) q c Hu Hm Hq) as Hr.
  match goal with |- context [io_iter handle_frame ?l c] =>
    change l with [Frame_with_data SynAck (id st) (err_msg e); Frame_new Fin (id st)] end.
  destruct (io_iter handle_frame _ c) as [rc' c']. destruct Hr as (-> & R1 & R2 & R3).
  split_and!; [done..|]. destruct (inv_entry _ _ _ _ Hi _ _ Hq) as (_ & st' & Hst' & _ & Hc').
  simplify_eq. destruct (inv_open _ _ _ _ Hi _ _ Hstc Hc') as [_ Hpo].
  eexists. rewrite R3, list_lookup_alter_eq, Hstc. split; [done|]. by apply drained_read_error.
Qed.

(** A target that is reached is confirmed: the [SynAck] is queued before
    anything the relay does, and it changes nothing on the client. *)
Theorem acceptance_is_silent p st relay s c :
  heap s !! p = Some st → tx_open s = true →
  ended (frame_tx s) (Frame_new SynAck (id st)) = false →
  (MIN_PROTOCOL_VERSION ≤ peer_version (protocol_state s))%Z →
  handle_tcp_stream p (Ok tt) relay s = relay (add_frame (Frame_new SynAck (id st), false) s) ∧
  handle_frame (Frame_new SynAck (id st)) c = (Ok tt, c).
Proof.
  intros Hp Ho He Hv. split.
  - simpl. unfold accept, mbind, ioM_bind. rewrite (stream_id_at s p st Hp). unfold handshake_success.
    by rewrite (proj2 (Z.leb_le _ _) Hv), tx_send_accepted.
  - unfold handle_frame; simpl. unfold apply_actions; simpl. by rewrite set_protocol_state_same.
Qed.

(** A handler never serves a stream it may not serve: it returns at once on a
    terminated stream; without approval it returns and its stream is closed and
    out of the session, whatever the channel does; and as long as every round is
    approved and served, it goes on to the next one. *)
Theorem handler_polices p r rounds s st :
  sess_inv s → heap s !! p = Some st → st_closed st = false →
  (stream_is_terminated s p = true → handle_session p (r :: rounds) s = (Some (Ok tt), s)) ∧
  (stream_is_terminated s p = false → approved r = false →
     let '(res, t) := handle_session p (r :: rounds) s in
     res = Some (Ok tt) ∧ stream_is_closed t p = true ∧ streams t = delete (id st) (streams s)) ∧
  (∀ a t, stream_is_terminated s p = false → approved r = true → destination r = Ok a →
     serve p r a (meanwhile r s) = (Ok tt, t) →
     handle_session p (r :: rounds) s = handle_session p rounds t).
Proof.
  intros Hi Hp Hc. simpl. split_and!.
  - by intros ->.
  - intros -> ->. rewrite (stream_close_eq p s st) by done.
    set (u := set_heap _ _). pose proof (tx_send_same (Frame_new Fin (id st), false) u) as (Th & Ts & _).
    split_and!; [done| |].
    + unfold stream_is_closed, stream_at. rewrite Th. unfold u. simpl.
      by rewrite list_lookup_alter_eq, Hp.
    + rewrite Ts. apply (remove_stream_frame (id st) s).
  - by intros a t -> -> -> ->.
Qed.

(** A handler that fails before its target is known leaves its stream open: a
    malformed destination, a malformed UOT request or a UDP socket that cannot
    be created end the task with an error, the client is told nothing, and the
    stream stays registered with no one to read it. *)
Theorem failed_handler_leaves_stream_open p r rounds s st e :
  stream_is_terminated s p = false → approved r = true → meanwhile r s = s →
  heap s !! p = Some st → streams s !! id st = Some p →
  (destination r = Err e ∧ is_error_of_session_broken e = false ∨
   ∃ a, destination r = Ok a ∧ uot_is_sentinel_destination a = true ∧
     (request r = Err e ∨ ∃ q, request r = Ok q ∧ outbound r = Err e)) →
  handle_session p (r :: rounds) s = (Some (Err e), s) ∧ stream_is_closed s p = false.
Proof.
  intros Ht Ha Hm Hp Hs Hcase. simpl. rewrite Ht, Ha, Hm. split.
  - destruct Hcase as [[-> He]|(a & -> & Hsent & Hr)]; [by rewrite Ht, He|].
    unfold serve. rewrite Hsent. unfold handle_uot_stream, mbind, ioM_bind, io_lift.
    destruct Hr as [->|(q & -> & ->)]; [done|]. by destruct (req_mode q).
  - unfold stream_is_terminated in Ht. by apply orb_false_iff in Ht as [? _].
Qed.
End handshake.

(** *** Witnesses *)

(** A server whose peer declared its version, with one stream; the client's
    session of [Session] has that stream too. *)
Definition demo_host : Session :=
  (create_incoming_stream 1 (set_protocol_state (set_peer_version (State_new demo_factory) 2) demo_server)).2.
Definition refused : io_error := err_other (str "Connection refused").

Lemma demo_host_inv : sess_inv demo_host.
Proof. apply create_incoming_stream_inv, sess_inv_init. Qed.

Lemma refusal_reaches_client_witness :
  let '(r, s') := handle_tcp_stream (H1 := good_writer) 0 (Err refused) (mret tt) demo_host in
  let remote := err_other (str "remote: " ++ err_msg refused) in
  r = Err refused ∧ streams s' = delete (id (new_stream 1)) (streams demo_host) ∧
  heap s' = alter close_locally 0 (heap demo_host) ∧
  ∃ fs, frame_tx s' = frame_tx demo_host ++ fs ∧
    let '(rc, c') := io_iter (handle_frame (H := map_order) (H0 := toy_md5) (H1 := good_writer)) (fs.*1) demo_client in
    rc = Ok tt ∧ streams c' = delete (id (new_stream 1)) (streams demo_client) ∧
    frame_tx c' = frame_tx demo_client ∧
    heap c' = alter (close_stream (Some remote)) 0 (heap demo_client) ∧
    ∃ stc', heap c' !! 0 = Some stc' ∧ fst <$> read_now 16 (inner (st_pipe stc')) = Some (Err remote).
Proof.
  apply (refusal_reaches_client (H1 := good_writer) 0 (new_stream 1) refused (mret tt) demo_host
    demo_client 0 (new_stream 1) 16); try by vm_compute.
  apply demo_client_inv.
Defined.

(** A round that was not approved, and one whose destination is malformed. *)
Definition bad_address : io_error := IoError InvalidData (str "invalid address type").
Definition demo_round (ok : bool) : Round (Address := SocksAddress) :=
  mkRound ok (fun s => s) (Err bad_address) (Err bad_address) (Ok tt) (Ok tt) (mret tt).

Lemma handler_polices_witness :
  (stream_is_terminated demo_host 0 = true →
     handle_session (H1 := good_writer) 0 [demo_round false] demo_host = (Some (Ok tt), demo_host)) ∧
  (stream_is_terminated demo_host 0 = false → approved (demo_round false) = false →
     let '(res, t) := handle_session (H1 := good_writer) 0 [demo_round false] demo_host in
     res = Some (Ok tt) ∧ stream_is_closed t 0 = true ∧
     streams t = delete (id (new_stream 1)) (streams demo_host)) ∧
  (∀ a t, stream_is_terminated demo_host 0 = false → approved (demo_round false) = true →
     destination (demo_round false) = Ok a →
     serve (H1 := good_writer) 0 (demo_round false) a (meanwhile (demo_round false) demo_host) = (Ok tt, t) →
     handle_session (H1 := good_writer) 0 [demo_round false] demo_host =
       handle_session (H1 := good_writer) 0 [] t).
Proof.
  apply (handler_polices (H1 := good_writer) 0 (demo_round false) [] demo_host (new_stream 1));
    [apply demo_host_inv|by vm_compute..].
Defined.

Lemma failed_handler_leaves_stream_open_witness :
  handle_session (H1 := good_writer) 0 [demo_round true] demo_host = (Some (Err bad_address), demo_host) ∧
  stream_is_closed demo_host 0 = false.
Proof.
  apply (failed_handler_leaves_stream_open (H1 := good_writer) 0 (demo_round true) [] demo_host (new_stream 1));
    try by vm_compute. by left.
Defined.

Lemma acceptance_is_silent_witness :
  handle_tcp_stream (H1 := good_writer) 0 (Ok tt) (mret tt) demo_host =
    (mret tt : ioM Session unit) (add_frame (Frame_new SynAck (id (new_stream 1)), false) demo_host) ∧
  handle_frame (H := map_order) (H0 := toy_md5) (H1 := good_writer)
    (Frame_new SynAck (id (new_stream 1))) demo_client = (Ok tt, demo_client).
Proof.
  apply (acceptance_is_silent (H1 := good_writer) 0 (new_stream 1) (mret tt) demo_host demo_client); by vm_compute.
Defined.
