(* ===== verification/Races.v ===== *)
(** * Races between the tasks of a session, and what ends a session
      ([src/proxy/session/stream.rs], [src/proxy/session/inner.rs] and the relays
      of [bin/server.rs])

    [Session] runs each method of a stream in one step.  Here the two methods
    whose checks can be overtaken by another task, [Stream::write] and
    [push_stream_data], are cut at their await points: what they check is read
    in one state of a run, what they do happens in a later one.  The errors that
    end the receive loop, and with it every stream of the session, are listed
    exactly; the one of them that comes from this side is a read dropped in the
    middle. *)

From S2P Require Import Prelude RustStr StringMap Frame Padding Engine Pipe Writer Session Multiplex Connection.
From S2P Require Import Uot Relay Handshake.
From Stdlib Require Import Strings.Byte.

Section races.
  Context `{IterOrder, Md5, WriterPeer}.

(** [Stream::write] behind its check of the [closed] flag. *)
Definition write_send (p : nat) (buf : bytes) : ioM Session nat := fun s =>
  (tx_send (Frame_with_data Psh (default 0%Z (id <$> stream_at s p)) buf, false) ≫= fun _ => mret (length buf)) s.

(** [push_stream_data] cut at its await points: the map is read in [s1], the
    flag in [s2], [push_data] checks it in [s3] and reaches the pipe in [s4],
    and a failure is judged by the flag in [s5]. *)
Definition push_racing (sid : Z) (d : bytes) (s1 s2 s3 s4 s5 : Session) : result unit :=
  match streams s1 !! sid with
  | None => Ok tt
  | Some p =>
      if stream_is_closed s2 p then Ok tt
      else
        match (if stream_is_closed s3 p then Err stream_closed
               else (Pipe.write (inner (pipe_at s4 p)) d).1) with
        | Ok _ => Ok tt
        | Err e => if stream_is_closed s5 p then Ok tt else Err e
        end
  end.

(** The reader of the stream at [p] was dropped while it held the receiver. *)
Definition reader_dropped (s : Session) (p : nat) : Prop := rx_alive (inner (pipe_at s p)) = false.

(** What makes [handle_frame] fail while the writer task serves. *)
Inductive frame_failure (s : Session) (f : Frame) : io_error → Prop :=
  | ff_alert : cmd f = Alert → frame_failure s f alert_received
  | ff_early_syn :
      cmd f = Syn → is_client s = false → received_settings_from_client (protocol_state s) = false →
      frame_failure s f (err_other settings_missing)
  | ff_syn_zero :
      cmd f = Syn → is_client s = false → received_settings_from_client (protocol_state s) = true →
      sid f = 0%Z → frame_failure s f syn_sid_zero
  | ff_dropped_reader p :
      cmd f = Psh → data f ≠ [] → streams s !! sid f = Some p → reader_dropped s p →
      frame_failure s f channel_closed.

(** ** Lemmas *)

Lemma stream_write_split p buf s :
  stream_write p buf s = if stream_is_closed s p then (Err stream_closed, s) else write_send p buf s.
Proof. done. Qed.

(** A channel half that was dropped stays dropped, and only a cancelled read
    drops it. *)
Definition drops_receiver (l : plabel) : bool := if l is LCancel true then true else false.

Lemma drops_receiver_spec l : drops_receiver l = true ↔ l = LCancel true.
Proof. destruct l as [| | | | | | |[]]; naive_solver. Qed.

Lemma pstep_alive ps l ps' :
  pstep ps l ps' → rx_alive (inner ps') = rx_alive (inner ps) && negb (drops_receiver l).
Proof.
  intros Hs. destruct Hs; cbn [inner drops_receiver negb]; rewrite ?andb_true_r, ?andb_false_r;
    unfold read_check, read_take, recv, read_finish, Pipe.write, finish_stream in *; repeat case_match; by simplify_eq/=.
Qed.

Lemma psteps_alive ps tr ps' :
  psteps ps tr ps' → rx_alive (inner ps) = true →
  rx_alive (inner ps') = false ↔ LCancel true ∈ tr.
Proof.
  intros Hr Ha. induction Hr as [|tr s l s' Hr IH Hs].
  - rewrite Ha. split; [done|]. by rewrite elem_of_nil.
  - rewrite (pstep_alive _ _ _ Hs), elem_of_app, list_elem_of_singleton, <- IH, andb_false_iff, negb_false_iff.
    rewrite drops_receiver_spec. naive_solver.
Qed.

(** Streams stay where they are, and one that has been closed stays closed. *)
Lemma runs_old s tr s' p o :
  sess_inv s → sruns s tr s' → heap s !! p = Some o →
  ∃ o', heap s' !! p = Some o' ∧ (st_closed o = true → st_closed o' = true).
Proof.
  intros Hi Hr Hp. induction Hr as [|tr t l t' Hr (o1 & Ho1 & H1') Hs]; [by exists o|].
  destruct (step_old t l t' p o1 (sruns_inv _ _ _ Hi Hr) Hs Ho1) as (o2 & Ho2 & _ & Hl & _).
  exists o2. auto.
Qed.

(** Payload for a registered stream is queued, unless nobody can receive it. *)
Lemma push_result i d p s :
  sess_inv s → streams s !! i = Some p →
  if rx_alive (inner (pipe_at s p)) then (push_stream_data i d s).1 = Ok tt
  else push_stream_data i d s = (Err channel_closed, s).
Proof.
  intros Hi Hm. destruct (inv_entry _ _ _ _ Hi _ _ Hm) as (_ & st & Hp & _ & Hc).
  destruct (inv_open _ _ _ _ Hi _ _ Hp Hc) as (_ & Pc & Pq & Ps & _).
  rewrite (pipe_at_stream _ _ _ Hp). unfold push_stream_data, push_data, Pipe.write. rewrite Hm.
  unfold stream_is_closed at 1 3, stream_at. rewrite Hp. simpl. rewrite Hc, Pc, Pq, Ps. simpl.
  destruct (rx_alive (inner (st_pipe st))); [done|].
  assert (update_stream p (map_pipe (fun _ => inner (st_pipe st))) s = s) as ->.
  { unfold update_stream. replace (alter _ p (heap s)) with (heap s); [apply set_heap_same|].
    apply list_eq. intros q. destruct (decide (q = p)) as [->|]; [|by rewrite list_lookup_alter_ne].
    rewrite list_lookup_alter_eq, Hp. by destruct st as [? [] ?]. }
  unfold stream_is_closed, stream_at. rewrite Hp. simpl. by rewrite Hc.
Qed.

(** A writer task that accepts and acknowledges every frame. *)
Definition serving : Prop := (∀ l f, ended l f = false) ∧ (∀ l f, ack_error l f = None).

(** The actions that cannot fail then. *)
Definition harmless (a : ProtocolAction) : bool :=
  match a with
  | SendFrame _ | SendFrameSync _ | CloseLocalStream _ | CloseRemoteStream _ _ | ReleaseWriteBuffering => true
  | _ => false
  end.

Lemma close_results i m s :
  (∃ t, close_logical_stream i s = (Ok tt, t) ∧ tx_open t = tx_open s) ∧
  (∃ t, terminate_session i m s = (Ok tt, t) ∧ tx_open t = tx_open s).
Proof.
  unfold close_logical_stream, terminate_session. destruct (remove_stream_frame i s) as (R1 & _).
  destruct (remove_stream i s) as [[q|] t]; cbn [snd] in R1; [|by split; exists t].
  rewrite !close_from_peer_eq. by split; eexists.
Qed.

Lemma harmless_succeed acts s :
  serving → tx_open s = true → forallb harmless acts = true → (apply_actions acts s).1 = Ok tt.
Proof.
  intros [He Ha]. revert s. unfold apply_actions. induction acts as [|a acts IH]; intros s Ho Hs; [done|].
  simpl in Hs. apply andb_true_iff in Hs as [Hsa Hs]. simpl. unfold mbind at 1, ioM_bind at 1.
  assert (∃ t, apply_action a s = (Ok tt, t) ∧ tx_open t = true) as (t & -> & Ht); [|by apply IH].
  destruct a as [f|f| | |i|i m| |]; try done; simpl.
  1,2: unfold write_frame, write_frame_sync, mbind, ioM_bind; rewrite tx_send_accepted by done;
    rewrite ?Ha; simpl; by eexists.
  - rewrite <- Ho. apply (close_results i None s).
  - rewrite <- Ho. apply (close_results i (Some m) s).
  - by eexists.
Qed.

Lemma on_frame_harmless st c f :
  cmd f ≠ Psh → cmd f ≠ Syn → forallb harmless (on_frame st c f).2 = true.
Proof. intros Hp Hs. unfold on_frame, on_settings. destruct (cmd f); repeat case_match; done. Qed.

(** The result of a payload frame. *)
Lemma psh_result f s :
  sess_inv s → cmd f = Psh → data f ≠ [] →
  (handle_frame f s).1 =
    match streams s !! sid f with
    | Some p => if rx_alive (inner (pipe_at s p)) then Ok tt else Err channel_closed
    | None => Ok tt
    end.
Proof.
  intros Hi Hf Hd. rewrite (handle_frame_one f (PushStreamData (sid f) (data f)) s (protocol_state s)).
  - rewrite set_protocol_state_same. simpl. destruct (streams s !! sid f) as [p|] eqn:Hm.
    + pose proof (push_result _ (data f) _ _ Hi Hm) as Hr. destruct (rx_alive _); [done|by rewrite Hr].
    + unfold push_stream_data. by rewrite Hm.
  - by rewrite Hf.
  - unfold on_frame. rewrite Hf. by rewrite bool_decide_eq_false_2.
Qed.

(** The frames of the other commands. *)
Lemma other_result f s :
  serving → tx_open s = true → cmd f ≠ Psh → cmd f ≠ Syn → cmd f ≠ Alert → (handle_frame f s).1 = Ok tt.
Proof.
  intros Hw Ho Hp Hsy Ha. unfold handle_frame. rewrite decide_False by done.
  pose proof (on_frame_harmless (protocol_state s) (is_client s) f Hp Hsy) as Hh.
  destruct (on_frame _ _ f) as [st acts]. by apply harmless_succeed.
Qed.

Lemma syn_result f s :
  cmd f = Syn →
  (handle_frame f s).1 =
    if is_client s then Ok tt
    else if received_settings_from_client (protocol_state s)
         then if (sid f =? 0)%Z then Err syn_sid_zero else Ok tt
         else Err (err_other settings_missing).
Proof.
  intros Hf. unfold handle_frame. rewrite decide_False by by rewrite Hf. unfold on_frame. rewrite Hf.
  unfold apply_actions. destruct (is_client s); [done|].
  destruct (received_settings_from_client _); cbn [io_iter apply_action]; unfold mbind, ioM_bind, io_ignore.
  - unfold ensure_incoming_stream. by destruct (_ =? _)%Z.
  - done.
Qed.

(** [Pipe.write] on the pipe of a stream that is not marked closed. *)
Lemma write_open_pipe s p o d :
  sess_inv s → heap s !! p = Some o → st_closed o = false →
  (Pipe.write (inner (pipe_at s p)) d).1 =
    if rx_alive (inner (pipe_at s p)) then Ok (length d) else Err channel_closed.
Proof.
  intros Hi Hp Hc. destruct (inv_open _ _ _ _ Hi _ _ Hp Hc) as (_ & Pc & Pq & Ps & _).
  rewrite (pipe_at_stream _ _ _ Hp) in *. unfold Pipe.write. rewrite Pc, Pq, Ps. by destruct (rx_alive _).
Qed.

(** The receive loop at a session whose first bytes are one frame that fails. *)
Lemma recv_loop_fails f rest input s e :
  s_closed s = false → sendable f → handle_frame f s = (Err e, s) →
  recv_loop (Ok (Frame.to_bytes f ++ rest) :: input) [] s = (Some e, s).
Proof.
  intros Hc Hf He. cbn [recv_loop]. rewrite Hc. destruct (Frame.to_bytes f ++ rest) as [|b l] eqn:E.
  { apply (f_equal length) in E. rewrite length_app, length_to_bytes in E. unfold HEADER_OVERHEAD_SIZE in E. simpl in E. lia. }
  rewrite app_nil_l, <- E, frames_loop_drain. fold (drain (Frame.to_bytes f ++ rest)).
  rewrite drain_cons by done. simpl. unfold mbind, ioM_bind. by rewrite He.
Qed.

(** ** Properties *)

(** C16. What ends a session from inside, exactly.  In any reachable state of a
    session whose writer task serves, a received frame makes the receive loop
    fail if and only if it is an [Alert], a [Syn] before the settings, a [Syn]
    for stream 0, or payload for an open stream whose reader was dropped in the
    middle of a read; and a stream is in that state if and only if the run has
    such a step.  No other frame, and nothing the other tasks do to their streams,
    ends the session. *)
Theorem frame_failures_exact c cb st0 tr s f e :
  serving → sruns (new_with_protocol c cb st0) tr s → tx_open s = true →
  ((handle_frame f s).1 = Err e ↔ frame_failure s f e) ∧
  (∀ p, reader_dropped s p ↔ LCancel true ∈ stream_trace p tr).
Proof.
  intros Hw Hr Ho. pose proof (sruns_inv _ _ _ (sess_inv_init c cb st0) Hr) as Hi. split.
  2:{ intros p. eapply (psteps_alive pipe_init); [|done]. by eapply sruns_pipe; [apply sess_inv_init| |]. }
  destruct (decide (cmd f = Alert)) as [Ha|Ha].
  { unfold handle_frame. rewrite decide_True by done. simpl. split.
    - intros [= <-]. by constructor.
    - inversion 1; congruence. }
  destruct (decide (cmd f = Syn)) as [Hsy|Hsy].
  { rewrite syn_result by done. split.
    - destruct (is_client s) eqn:?; [done|].
      destruct (received_settings_from_client (protocol_state s)) eqn:?; [|intros [= <-]; by constructor].
      destruct (Z.eqb_spec (sid f) 0); [|done]. intros [= <-]. by constructor.
    - inversion 1 as [|? Hc Hs|? Hc Hs Hz|]; try congruence; by rewrite Hc, Hs, ?Hz. }
  destruct (decide (cmd f = Psh)) as [Hp|Hp].
  2:{ rewrite other_result by done. split; [done|]. inversion 1; congruence. }
  destruct (decide (data f = [])) as [Hd|Hd].
  { unfold handle_frame. rewrite decide_False by done. unfold on_frame. rewrite Hp, bool_decide_eq_true_2 by done.
    split; [done|]. inversion 1; congruence. }
  rewrite psh_result by done. split.
  - destruct (streams s !! sid f) as [p|] eqn:Hm; [|done]. destruct (rx_alive _) eqn:Hal; [done|].
    intros [= <-]. by apply (ff_dropped_reader _ _ p).
  - inversion 1 as [| | |p _ _ Hm Hal]; try congruence. rewrite Hm. unfold reader_dropped in Hal. by rewrite Hal.
Qed.

(** C17. Payload racing with the end of its stream never ends the session.
    Whatever the other tasks do between the steps of [push_stream_data], it
    fails only when the reader was dropped in the middle of a read: a stream
    closed by its user, by the peer or with the session in between makes it
    succeed and drop the payload.  Run without interruption it is
    [push_stream_data]. *)
Theorem push_survives_close i d s1 tr12 s2 tr23 s3 tr34 s4 tr45 s5 p :
  sess_inv s1 → sruns s1 tr12 s2 → sruns s2 tr23 s3 → sruns s3 tr34 s4 → sruns s4 tr45 s5 →
  streams s1 !! i = Some p →
  (∀ e, push_racing i d s1 s2 s3 s4 s5 = Err e → e = channel_closed ∧ reader_dropped s4 p) ∧
  push_racing i d s1 s1 s1 s1 (push_stream_data i d s1).2 = (push_stream_data i d s1).1.
Proof.
  intros Hi1 R12 R23 R34 R45 Hm.
  pose proof (sruns_inv _ _ _ Hi1 R12) as Hi2. pose proof (sruns_inv _ _ _ Hi2 R23) as Hi3.
  pose proof (sruns_inv _ _ _ Hi3 R34) as Hi4.
  destruct (inv_entry _ _ _ _ Hi1 _ _ Hm) as (_ & o & Hp & _ & Hc). split.
  - destruct (runs_old _ _ _ _ _ Hi1 R12 Hp) as (o2 & Hp2 & _), (runs_old _ _ _ _ _ Hi2 R23 Hp2) as (o3 & Hp3 & _),
      (runs_old _ _ _ _ _ Hi3 R34 Hp3) as (o4 & Hp4 & C34), (runs_old _ _ _ _ _ Hi4 R45 Hp4) as (o5 & Hp5 & C45).
    intros e. unfold push_racing, reader_dropped, stream_is_closed, stream_at.
    rewrite Hm, Hp2, Hp3, Hp5. simpl. destruct (st_closed o2); [done|].
    destruct (st_closed o3) eqn:C3; [by rewrite C45 by auto|].
    destruct (st_closed o4) eqn:C4; [rewrite C45 by done; by case_match|].
    rewrite (write_open_pipe s4 p o4) by done. destruct (rx_alive _); [done|].
    destruct (st_closed o5); [done|]. naive_solver.
  - assert (stream_is_closed s1 p = false) as C1 by (unfold stream_is_closed, stream_at; by rewrite Hp).
    unfold push_racing, push_stream_data. rewrite Hm, C1. unfold push_data, stream_at.
    rewrite Hp, Hc, (pipe_at_stream _ _ _ Hp).
    destruct (Pipe.write _ d) as [[n|e] i']; simpl; [done|].
    by destruct (stream_is_closed (update_stream _ _ s1) p) eqn:C; simpl; rewrite C.
Qed.

(** A read dropped in the middle ends everybody's session.  A stream whose
    reading future is dropped while it waits for data stays open and registered
    and the peer is told nothing; the next payload the peer sends on it makes the
    receive loop fail, and [run] closes every stream of the session. *)
Theorem dropped_read_ends_session n d rest input s p st :
  sess_inv s → s_closed s = false → started s = true →
  heap s !! p = Some st → st_closed st = false → phase (st_pipe st) = WaitData n →
  d ≠ [] → sendable (Frame_with_data Psh (id st) d) →
  ∃ s1, sstep s (Multiplex.SRead p (LCancel true)) s1 ∧
    stream_is_closed s1 p = false ∧ streams s1 = streams s ∧ frame_tx s1 = frame_tx s ∧
    let '(r, t) := run (Ok (Frame.to_bytes (Frame_with_data Psh (id st) d) ++ rest) :: input) s1 in
    r = Some channel_closed ∧ s_closed t = true ∧ streams t = ∅ ∧ Forall (fun o => st_closed o = true) (heap t).
Proof.
  intros Hi Hc Hst Hp Hcl Hph Hd Hf.
  set (ps := mkPS (drop_receiver (inner (st_pipe st))) Idle).
  set (s1 := update_stream p (fun o => mkStream (id o) ps (st_closed o)) s).
  assert (sstep s (Multiplex.SRead p (LCancel true)) s1) as Hs.
  { apply (ss_read s p st); [done..|]. unfold ps. destruct (st_pipe st) as [i ph]; simpl in *. subst ph. constructor. }
  assert (heap s1 !! p = Some (mkStream (id st) ps false)) as Hp1.
  { unfold s1; simpl. by rewrite list_lookup_alter_eq, Hp; simpl; rewrite Hcl. }
  pose proof (sess_inv_step _ _ _ Hs Hi) as Hi1. destruct (inv_open _ _ _ _ Hi _ _ Hp Hcl) as [Hm _].
  exists s1. split_and!; [done|unfold stream_is_closed, stream_at; by rewrite Hp1|done..|].
  assert (handle_frame (Frame_with_data Psh (id st) d) s1 = (Err channel_closed, s1)) as Hh.
  { rewrite (handle_frame_one _ (PushStreamData (id st) d) s1 (protocol_state s1)); [|done|].
    - rewrite set_protocol_state_same. simpl. pose proof (push_result (id st) d p s1 Hi1 Hm) as Hr.
      by rewrite (pipe_at_stream _ _ _ Hp1) in Hr.
    - unfold on_frame; simpl. by rewrite bool_decide_eq_false_2. }
  unfold run, ensure_started. replace (started s1) with true by done.
  rewrite (recv_loop_fails _ rest input s1 channel_closed) by done. simpl.
  rewrite terminate_eq by done. split_and!; [done..|]. simpl. apply Forall_fmap, Forall_forall.
  intros o _. apply close_stream_closed.
Qed.

(** A write overtaken by a close of its own stream reports success and is lost.
    Between the check of the flag and the send another task closes the stream:
    the payload is queued behind the [Fin], the writer is told that all of it was
    written, and a peer that handles both frames is left exactly as by the [Fin]
    alone.  Without the overtaking the write fails. *)
Theorem late_write_is_lost p buf s st :
  heap s !! p = Some st → st_closed st = false → tx_open s = true → (∀ l f, ended l f = false) →
  let '(rc, s1) := stream_close p s in
  let '(rw, s2) := write_send p buf s1 in
  let fs := [Frame_new Fin (id st); Frame_with_data Psh (id st) buf] in
  stream_is_closed s p = false ∧ rc = Ok tt ∧ rw = Ok (length buf) ∧
  frame_tx s2 = frame_tx s ++ ((fun f => (f, false)) <$> fs) ∧
  stream_write p buf s1 = (Err stream_closed, s1) ∧
  ∀ c, io_iter handle_frame fs c = handle_frame (Frame_new Fin (id st)) c.
Proof.
  intros Hp Hc Ho He. pose proof (stream_close_accepted p s st Hp Hc Ho (He _ _)) as Hcl.
  assert (tx_open (stream_close p s).2 = true) as Ho1.
  { destruct (remove_stream_frame (id st) s) as (R1 & _).
    rewrite (stream_close_eq p s st) by done. rewrite tx_send_accepted; simpl in *; [by rewrite R1..|done]. }
  destruct (stream_close p s) as [rc s1]. destruct Hcl as (-> & F1 & S1 & P1). simpl in Ho1.
  assert (heap s1 !! p = Some (close_locally st)) as Hp1 by by rewrite P1, list_lookup_alter_eq, Hp.
  unfold write_send, stream_write, stream_is_closed, stream_at, mbind, ioM_bind. rewrite Hp, Hp1.
  simpl. rewrite tx_send_accepted by done. split_and!; [done..| |done|].
  - simpl. by rewrite F1, <- app_assoc.
  - intros c. unfold mbind, ioM_bind. rewrite (handle_frame_one _ (CloseLocalStream (id st)) c (protocol_state c)) by done.
    rewrite set_protocol_state_same. simpl. destruct (close_results (id st) None c) as [(t & Ht & _) _]. rewrite Ht.
    assert (streams t !! id st = None) as Hn.
    { revert Ht. unfold close_logical_stream. destruct (remove_stream_frame (id st) c) as (_ & _ & _ & R).
      destruct (remove_stream (id st) c) as [[q|] c1]; simpl in R; rewrite ?close_from_peer_eq;
        intros [= <-]; simpl; rewrite R; apply lookup_delete_eq. }
    unfold handle_frame, on_frame; simpl. unfold apply_actions.
    case_bool_decide; rewrite set_protocol_state_same; [done|]. simpl.
    unfold push_stream_data, mbind, ioM_bind. by rewrite Hn.
Qed.
End races.

Section strand.
  Context `{IterOrder, Md5, WriterPeer} {Address : Type} `{!AddressCodec Address}.

(** A connection to the target that breaks strands its stream.  When reading
    from the target fails, the download loop only cancels the upload, which
    returns without shutting the target down; nobody closes the logical stream or
    tells the client, and the handler goes on to read a new destination from it.
    The read the upload left behind still has its buffer of 4096 bytes: as soon as
    the client sends more than the parser of the destination asked for, the
    handler panics. *)
Theorem target_error_strands_stream ctx evs st st' e c w sd more rest p r s t a n chunk :
  nonempty_downloads evs → o2s ctx evs st = (None, st') →
  stream_is_terminated s p = false → approved r = true → meanwhile r s = s →
  destination r = Ok a → uot_is_sentinel_destination a = false → outbound r = Ok tt →
  handle_tcp_stream p (Ok tt) (relay r) s = (Ok tt, t) → stream_is_terminated t p = false →
  0 < n → n < 4096 → n < length chunk →
  o2s ctx (evs ++ ORead (Err e) c w :: rest) st = (Some (Ok tt), cancel_relay st') ∧
  s2o ctx sd (SCancelled :: more) (cancel_relay st') = (Some (Ok tt), cancel_relay st') ∧
  stream_ended (cancel_relay st') = stream_ended st ∧
  handle_session p [r] s = (None, t) ∧
  (rop_run [Poll 4096; Arrive chunk; Poll n] new_reader).1 = [Pending; Panicked].
Proof.
  intros Hne Hrun Ht Ha Hm Hd Hs Ho Hserve Ht' Hn Hn' Hc.
  destruct (o2s_running _ _ _ _ Hne Hrun) as (_ & _ & H3 & _ & H5). split_and!; [by rewrite H5|done|done| |].
  - simpl. rewrite Ht, Ha, Hd, Hm. unfold serve. rewrite Hs, Ho, Hserve, Ht'. done.
  - by apply abandoned_read_panics.
Qed.
End strand.

(** *** Witnesses *)

(** A server that took the client's settings and its stream 5; the handler of
    the stream reads, finds nothing, and is dropped while it waits. *)
Definition race_frames : list Frame :=
  [Frame_with_data Settings 0 (str "v=2"); Frame_new Syn 5; Frame_new Syn 7].
Definition race_server : Session :=
  (frame_run (H := map_order) (H0 := toy_md5) (H1 := good_writer) (set_started true demo_server) race_frames).2.
Definition reading : PipeState := mkPS (set_receiver pipe false) (WaitData 64).
Definition race_reading : Session := update_stream 0 (fun o => mkStream (id o) reading (st_closed o)) race_server.

Lemma good_serving : serving (H1 := good_writer).
Proof. by split. Qed.

Lemma frame_failures_exact_witness :
  ((handle_frame (H := map_order) (H0 := toy_md5) (H1 := good_writer) (Frame_new Syn 0) demo_run.2).1 = Err syn_sid_zero
     ↔ frame_failure demo_run.2 (Frame_new Syn 0) syn_sid_zero) ∧
  (∀ p, reader_dropped demo_run.2 p ↔ LCancel true ∈ stream_trace (H1 := good_writer) p demo_run.1).
Proof.
  apply (frame_failures_exact (H := map_order) (H0 := toy_md5) (H1 := good_writer) false true (State_new demo_factory));
    [apply good_serving|apply demo_runs|by vm_compute].
Defined.

Lemma push_survives_close_witness :
  let s := demo_host in
  let t := (stream_close (H1 := good_writer) 0 s).2 in
  (∀ e, push_racing 1 (str "late") s s s t t = Err e → e = channel_closed ∧ reader_dropped t 0) ∧
  push_racing 1 (str "late") s s s s (push_stream_data 1 (str "late") s).2 = (push_stream_data 1 (str "late") s).1.
Proof.
  apply (push_survives_close (H := map_order) (H0 := toy_md5) (H1 := good_writer) 1 (str "late") demo_host [] demo_host [] demo_host
    [(demo_host, SClose 0 (Ok tt))] _ [] _ 0); [apply demo_host_inv|constructor|constructor| |constructor|by vm_compute].
  apply (sruns_snoc (H := map_order) (H0 := toy_md5) (H1 := good_writer) demo_host [] demo_host); [constructor|].
  constructor. by vm_compute.
Defined.

Lemma race_reading_inv : sess_inv race_reading.
Proof.
  apply (inv_pipe (heap race_server) (streams race_server) (idle_state race_server) (s_closed race_server) 0 (new_stream 5) reading).
  - eapply (sruns_inv (H := map_order) (H0 := toy_md5) (H1 := good_writer) (set_started true demo_server)); [|apply frame_run_runs].
    apply (sess_inv_init false true (State_new demo_factory)).
  - by vm_compute.
  - intros _. repeat split. by vm_compute.
Qed.

Definition query : Frame := Frame_with_data Psh 5 (str "query").

Lemma dropped_read_ends_session_witness :
  ∃ s1, sstep (H := map_order) (H0 := toy_md5) (H1 := good_writer) race_reading (Multiplex.SRead 0 (LCancel true)) s1 ∧
    stream_is_closed s1 0 = false ∧ streams s1 = streams race_reading ∧ frame_tx s1 = frame_tx race_reading ∧
    let '(r, t) := run (H := map_order) (H0 := toy_md5) (H1 := good_writer) [Ok (Frame.to_bytes query ++ [])] s1 in
    r = Some channel_closed ∧ s_closed t = true ∧ streams t = ∅ ∧ Forall (fun o => st_closed o = true) (heap t).
Proof.
  apply (dropped_read_ends_session (H := map_order) (H0 := toy_md5) (H1 := good_writer) 64 (str "query") [] []
    race_reading 0 (mkStream 5 reading false)); [apply race_reading_inv|by vm_compute..|].
  repeat split; vm_compute; (done || lia).
Defined.

Lemma late_write_is_lost_witness :
  let '(rc, s1) := stream_close (H1 := good_writer) 0 demo_client in
  let '(rw, s2) := write_send (H1 := good_writer) 0 (str "late") s1 in
  let fs := [Frame_new Fin (id (new_stream 1)); Frame_with_data Psh (id (new_stream 1)) (str "late")] in
  stream_is_closed demo_client 0 = false ∧ rc = Ok tt ∧ rw = Ok (length (str "late")) ∧
  frame_tx s2 = frame_tx demo_client ++ ((fun f => (f, false)) <$> fs) ∧
  stream_write (H1 := good_writer) 0 (str "late") s1 = (Err stream_closed, s1) ∧
  ∀ c, io_iter (handle_frame (H := map_order) (H0 := toy_md5) (H1 := good_writer)) fs c =
       handle_frame (H := map_order) (H0 := toy_md5) (H1 := good_writer) (Frame_new Fin (id (new_stream 1))) c.
Proof.
  apply (late_write_is_lost (H := map_order) (H0 := toy_md5) (H1 := good_writer) 0 (str "late") demo_client (new_stream 1));
    by vm_compute.
Defined.

(** A target reached and then lost: the round ends with the stream open. *)
Definition reset_round : Round (Address := SocksAddress) :=
  mkRound true (fun s => s) (Ok dns_server) (Err bad_address) (Ok tt) (Ok tt) (mret tt).
Definition target_reset : io_error := err_other (str "Connection reset by peer").

Lemma target_error_strands_stream_witness :
  o2s alice_ctx (download_ab ++ [ORead (Err target_reset) (Ok tt) (Ok 0)]) relay_start =
    (Some (Ok tt), cancel_relay after_ab) ∧
  s2o alice_ctx (Ok tt) [SCancelled] (cancel_relay after_ab) = (Some (Ok tt), cancel_relay after_ab) ∧
  stream_ended (cancel_relay after_ab) = stream_ended relay_start ∧
  handle_session (H1 := good_writer) 0 [reset_round] demo_host =
    (None, add_frame (Frame_new SynAck 1, false) demo_host) ∧
  (rop_run [Poll 4096; Arrive (str "more"); Poll 1] new_reader).1 = [Pending; Panicked].
Proof.
  apply (target_error_strands_stream (H1 := good_writer) alice_ctx download_ab relay_start after_ab target_reset (Ok tt) (Ok 0)
    (Ok tt) [] [] 0 reset_round demo_host (add_frame (Frame_new SynAck 1, false) demo_host) dns_server);
    try (by vm_compute); try (vm_compute; lia).
  repeat constructor; by vm_compute.
Defined.
