(* ===== verification/ParseUrl.v ===== *)
(** * Share links (src/src/util/parse_url.rs)

    The client's configuration as an [anytls://] link: printing, parsing through
    the [url] crate, and the program's own parser for IPv6 hosts with a zone.
    The crates [url], [percent_encoding], [uuid] and [socks5_impl] are
    parameters. *)

From S2P Require Import Prelude RustStr Panel Server Uot.
From Stdlib Require Import Strings.Byte.

(** ** Finding and slicing *)

(** [s.find(p)] for a test [p] on ASCII characters. *)
Fixpoint find (p : byte → bool) (s : bytes) : option nat :=
  match s with
  | [] => None
  | b :: s' => if p b then Some 0 else S <$> find p s'
  end.

Definition eqc (c b : byte) : bool := bool_decide (b = c).
Definition any_of (cs : bytes) (b : byte) : bool := bool_decide (b ∈ cs).

(** [s.rfind(c)]. *)
Definition rfind (c : byte) (s : bytes) : option nat :=
  (fun i => length s - S i) <$> find (eqc c) (reverse s).

(** [&s[a..b]]: panics ([None]) when [b < a] or [b] is past the end. *)
Definition slice (a b : nat) (s : bytes) : option bytes :=
  if decide (a ≤ b ≤ length s) then Some (take (b - a) (drop a s)) else None.

(** [s.replace(c, t)]. *)
Definition replace_byte (c : byte) (t : bytes) (s : bytes) : bytes :=
  concat ((fun b => if decide (b = c) then t else [b]) <$> s).

(** [s.contains("%25")]. *)
Fixpoint contains_str (t s : bytes) : bool :=
  starts_with t s || match s with [] => false | _ :: s' => contains_str t s' end.

(** ** Lemmas: finding *)

Lemma find_app_r p s t : Forall (fun b => p b = false) s → find p (s ++ t) = (fun i => length s + i) <$> find p t.
Proof.
  intros H. induction H as [|b s Hb _ IH]; simpl.
  - by destruct (find p t).
  - rewrite Hb, IH. by destruct (find p t).
Qed.

Lemma find_here p s b t : Forall (fun b => p b = false) s → p b = true → find p (s ++ b :: t) = Some (length s).
Proof. intros Hs Hb. rewrite find_app_r by done. simpl. rewrite Hb. simpl. f_equal. lia. Qed.

Lemma find_none p s : Forall (fun b => p b = false) s → find p s = None.
Proof. intros H. rewrite <- (app_nil_r s), find_app_r by done. done. Qed.

Lemma eqc_false_forall c s : c ∉ s → Forall (fun b => eqc c b = false) s.
Proof. intros H. apply Forall_forall. intros b Hb. apply bool_decide_eq_false. congruence. Qed.

Lemma any_false_forall cs s : Forall (fun b => b ∉ cs) s → Forall (fun b => any_of cs b = false) s.
Proof. intros H. eapply Forall_impl; [exact H|]. intros b Hb. by apply bool_decide_eq_false. Qed.

(** ** The libraries *)

(** What [Url::parse] exposes. *)
Record ParsedUrl : Type := mkUrl {
  u_scheme : bytes;
  u_host_str : option bytes;
  u_port : option Z;
  u_username : bytes;
  u_password : option bytes;
  u_query : option bytes;
  u_fragment : option bytes;
}.

Class UrlLib : Type := {
  percent_decode : bytes → bytes;                          (** decoded, then lossily as UTF-8 *)
  utf8_percent_encode : (byte → bool) → bytes → bytes;     (** the bytes to escape, besides non-ASCII *)
  url_parse : bytes → result ParsedUrl;
  form_parse : bytes → list (bytes * bytes);
  form_serialize : list (bytes * bytes) → bytes;
}.

(** The text side of [socks5_impl::protocol::Address]. *)
Class AddressText (Address : Type) : Type := {
  addr_host : Address → bytes;
  addr_port : Address → Z;
  addr_is_ipv6 : Address → bool;
  addr_to_string : Address → bytes;                        (** of a [SocketAddress] *)
  parse_socket_addr : bytes → option Address;              (** [parse::<SocketAddr>()] *)
  of_host_port : bytes → Z → Address;                      (** [(host, port).into()] *)
}.

(** [CONTROLS] and the two sets built on it. *)
Definition controls (b : byte) : bool := let z := byte_to_Z b in (z <? 32)%Z || (z =? 127)%Z.
Definition USERINFO_ENCODE_SET (b : byte) : bool := controls b || any_of (Byte.x22 :: str " #<>?@[\]^`{|}") b.
Definition FRAGMENT_ENCODE_SET (b : byte) : bool := controls b || any_of (Byte.x22 :: str " <>`") b.

Definition SCHEME : bytes := str "anytls://".

Definition bad_scheme : io_error := IoError InvalidInput (str "URL scheme must be anytls").
Definition no_host : io_error := IoError InvalidInput (str "AnyTLS URL must include a host").
Definition bad_ipv6 : io_error := IoError InvalidInput (str "Invalid IPv6 host in AnyTLS URL").
Definition query_password : io_error :=
  IoError InvalidInput (str "Password must be provided in the URI auth field, not in query parameters").
Definition bad_insecure (v : bytes) : io_error := IoError InvalidInput (str "Invalid insecure value in AnyTLS URL: " ++ v).
(** The text of the number parser's error is the standard library's. *)
Definition bad_port : io_error := IoError InvalidInput (str "Invalid port in AnyTLS URL: ").
Definition bad_uuid : io_error := err_other (str "invalid UUID").

Section links.
  Context {Address : Type} `{!AddressCodec Address, !AddressText Address, !UrlLib, !UuidText}.

Record ClientRuntimeConfig : Type := mkRuntime {
  rc_server : Address;
  rc_password : bytes;
  rc_sni : option bytes;
  rc_client_id : option Uuid;
  rc_insecure : bool;
  rc_display_name : option bytes;
}.

Definition format_authority (a : Address) : bytes :=
  match as_domain a with
  | None => addr_to_string a
  | Some (host, port) =>
      if contains ":"%byte host then str "[" ++ host ++ str "]:" ++ to_dec port
      else host ++ str ":" ++ to_dec port
  end.

(** [String::from(&config)]. *)
Definition link_host (a : Address) : bytes :=
  let host0 := addr_host a in
  let host := if contains "%"%byte host0 then replace_byte "%"%byte (str "%25") host0 else host0 in
  if addr_is_ipv6 a || contains ":"%byte host then str "[" ++ host ++ str "]" else host.

Definition link_authority (a : Address) : bytes :=
  if decide (addr_port a = 443%Z) then link_host a else link_host a ++ str ":" ++ to_dec (addr_port a).

Definition link_pairs (c : ClientRuntimeConfig) : list (bytes * bytes) :=
  (if rc_sni c is Some sni then [(str "sni", sni)] else []) ++
  (if rc_insecure c then [(str "insecure", str "1")] else []) ++
  (if rc_client_id c is Some id then [(str "client_id", uuid_to_string id)] else []).

Definition config_to_link (c : ClientRuntimeConfig) : bytes :=
  let query := form_serialize (link_pairs c) in
  SCHEME ++
  (if decide (rc_password c = []) then [] else utf8_percent_encode USERINFO_ENCODE_SET (rc_password c) ++ str "@") ++
  link_authority (rc_server c) ++
  (if decide (query = []) then [] else str "/?" ++ query) ++
  (if rc_display_name c is Some name then str "#" ++ utf8_percent_encode FRAGMENT_ENCODE_SET name else []).

(** The loop over the query of [build_client_runtime_config]. *)
Fixpoint query_loop (pairs : list (bytes * bytes)) (sni : option bytes) (insecure : bool) (client_id : option Uuid)
  : result (option bytes * bool * option Uuid) :=
  match pairs with
  | [] => Ok (sni, insecure, client_id)
  | (key, value) :: rest =>
      if decide (key = str "password") then Err query_password
      else if decide (key = str "sni") then query_loop rest (Some value) insecure client_id
      else if decide (key = str "insecure") then
        if decide (value = str "1") then query_loop rest sni true client_id
        else if decide (value = str "0") then query_loop rest sni false client_id
        else Err (bad_insecure value)
      else if decide (key = str "client_id" ∧ value ≠ []) then
        match parse_str value with
        | Some id => query_loop rest sni insecure (Some id)
        | None => Err bad_uuid
        end
      else query_loop rest sni insecure client_id
  end.

Definition build_client_runtime_config (server : Address) (password query : bytes) (fragment : option bytes)
  : result ClientRuntimeConfig :=
  let display_name :=
    match fragment with
    | Some frag => let d := percent_decode frag in if decide (d = []) then None else Some d
    | None => None
    end in
  '(sni, insecure, client_id) ← query_loop (form_parse query) None false None;
  Ok (mkRuntime server password sni client_id insecure display_name).

Definition is_anytls_ipv6_zone_url (raw_url : bytes) : bool :=
  let raw := default raw_url (strip_prefix SCHEME raw_url) in
  let authority := take (default (length raw) (find (any_of (str "/?#")) raw)) raw in
  let auth_and_host := match rfind "@"%byte authority with Some at_pos => drop (S at_pos) authority | None => authority end in
  match find (eqc "["%byte) auth_and_host with
  | None => false
  | Some host_start =>
      match find (eqc "]"%byte) (drop host_start auth_and_host) with
      | None => false
      | Some n => contains "%"%byte (take n (drop host_start auth_and_host))
      end
  end.

(** The password of a [user:password] pair: the user name unless it is empty. *)
Definition userinfo_password (userinfo : bytes) : bytes :=
  match find (eqc ":"%byte) userinfo with
  | Some colon_pos =>
      let username := take colon_pos userinfo in
      if decide (username = []) then drop (S colon_pos) userinfo else username
  | None => userinfo
  end.

Definition rest_query (rest : bytes) : bytes :=
  match find (eqc "?"%byte) rest with
  | Some question_pos =>
      let query_fragment := drop (S question_pos) rest in
      match find (eqc "#"%byte) query_fragment with
      | Some hash_pos => take hash_pos query_fragment
      | None => query_fragment
      end
  | None => []
  end.

Definition rest_display_name (rest : bytes) : option bytes :=
  match split_once "#"%byte rest with
  | Some (_, frag) => let frag := trim frag in if decide (frag = []) then None else Some (percent_decode frag)
  | None => None
  end.

(** What follows the closing bracket: the port, and the rest. *)
Definition after_port (after : bytes) : result (Z * bytes) :=
  match strip_prefix (str ":") after with
  | Some after_colon =>
      let delim := default (length after_colon) (find (any_of (str "/?#")) after_colon) in
      match parse_u16 (take delim after_colon) with
      | Some port => Ok (port, drop delim after_colon)
      | None => Err bad_port
      end
  | None => Ok (443%Z, after)
  end.

(** [[server_host]:port] as a socket address, else as a domain. *)
Definition bracket_server (server_host : bytes) (port : Z) : Address :=
  default (DomainAddress server_host port) (parse_socket_addr (str "[" ++ server_host ++ str "]:" ++ to_dec port)).

(** [None] is the panic of the slice [host_start + 1..host_end]. *)
Definition parse_anytls_url_ipv6_zone (raw_url : bytes) : option (result ClientRuntimeConfig) :=
  match strip_prefix SCHEME raw_url with
  | None => Some (Err bad_scheme)
  | Some without_scheme =>
      let '(userinfo, authority_and_rest) :=
        match find (eqc "@"%byte) without_scheme with
        | Some at_pos => (take at_pos without_scheme, drop (S at_pos) without_scheme)
        | None => ([], without_scheme)
        end in
      match find (eqc "["%byte) authority_and_rest with
      | None => Some (Err no_host)
      | Some host_start =>
          match find (eqc "]"%byte) authority_and_rest with
          | None => Some (Err bad_ipv6)
          | Some host_end =>
              match slice (S host_start) host_end authority_and_rest with
              | None => None
              | Some host0 =>
                  let server_host := if contains_str (str "%25") host0 then percent_decode host0 else host0 in
                  Some ('(port, rest) ← after_port (drop (S host_end) authority_and_rest);
                        build_client_runtime_config (bracket_server server_host port) (userinfo_password userinfo)
                          (rest_query rest) (rest_display_name rest))
              end
          end
      end
  end.

Definition parse_anytls_url (raw_url : bytes) : option (result ClientRuntimeConfig) :=
  if is_anytls_ipv6_zone_url raw_url then parse_anytls_url_ipv6_zone raw_url
  else Some (
    url ← url_parse raw_url;
    if decide (u_scheme url = str "anytls") then
      match u_host_str url with
      | None => Err no_host
      | Some host0 =>
          let host := default host0 (strip_prefix (str "[") host0 ≫= strip_suffix (str "]")) in
          let port := default 443%Z (u_port url) in
          let server := if contains ":"%byte host then bracket_server host port else of_host_port host port in
          let password := if decide (u_username url = []) then default [] (u_password url) else u_username url in
          build_client_runtime_config server password (default [] (u_query url)) (u_fragment url)
      end
    else Err bad_scheme).

(** ** The query *)

(** What the rules for a query say: the first pair that breaks one. *)
Definition pair_error (kv : bytes * bytes) : option io_error :=
  if decide (kv.1 = str "password") then Some query_password
  else if decide (kv.1 = str "insecure" ∧ kv.2 ≠ str "1" ∧ kv.2 ≠ str "0") then Some (bad_insecure kv.2)
  else if decide (kv.1 = str "client_id" ∧ kv.2 ≠ [] ∧ parse_str kv.2 = None) then Some bad_uuid
  else None.

(** The last value given for a key. *)
Definition last_value (key : bytes) (pairs : list (bytes * bytes)) : option bytes :=
  last (omap (fun kv => if decide (kv.1 = key) then Some kv.2 else None) pairs).

(** The last identifier that is not empty. *)
Definition last_client_id (pairs : list (bytes * bytes)) : option Uuid :=
  last (omap (fun kv => if decide (kv.1 = str "client_id" ∧ kv.2 ≠ []) then parse_str kv.2 else None) pairs).

Definition or_else {A} (x y : option A) : option A := match x with Some a => Some a | None => y end.

Lemma last_cons_or {A} (x : A) l : last (x :: l) = or_else (last l) (Some x).
Proof. rewrite last_cons. by destruct (last l). Qed.

Lemma query_loop_spec pairs sni insecure cid :
  query_loop pairs sni insecure cid =
  match omap pair_error pairs with
  | e :: _ => Err e
  | [] => Ok (or_else (last_value (str "sni") pairs) sni,
              match last_value (str "insecure") pairs with Some v => bool_decide (v = str "1") | None => insecure end,
              or_else (last_client_id pairs) cid)
  end.
Proof.
  revert sni insecure cid. induction pairs as [|[k v] rest IH]; intros sni insecure cid; [done|].
  unfold last_value, last_client_id, pair_error in *. cbn [query_loop omap list_omap fst snd].
  destruct (decide (k = str "password")) as [->|Hp]; [done|].
  destruct (decide (k = str "sni")) as [->|Hs].
  { rewrite IH. rewrite !(decide_False (P := _ ∧ _)) by (intros [? _]; done).
    rewrite (decide_False (P := str "sni" = str "insecure")) by done. destruct (omap _ rest); [|done].
    rewrite last_cons_or. by destruct (last _). }
  destruct (decide (k = str "insecure")) as [->|Hi].
  { rewrite (decide_False (P := str "insecure" = str "client_id" ∧ v ≠ [])) by (intros [? _]; done).
    destruct (decide (v = str "1")) as [->|Hv1]; [|destruct (decide (v = str "0")) as [->|Hv0]].
    - rewrite !(decide_False (P := _ ∧ _ ∧ _)) by naive_solver. rewrite IH.
      destruct (omap _ rest); [|done]. rewrite last_cons_or. unfold or_else. repeat case_match; by simplify_eq.
    - rewrite !(decide_False (P := _ ∧ _ ∧ _)) by naive_solver. rewrite IH.
      destruct (omap _ rest); [|done]. rewrite last_cons_or. unfold or_else. repeat case_match; by simplify_eq.
    - by rewrite decide_True. }
  rewrite !(decide_False (P := k = str "insecure" ∧ _)) by naive_solver.
  destruct (decide (k = str "client_id" ∧ v ≠ [])) as [[-> Hv]|Hc].
  - destruct (parse_str v) as [id|] eqn:Ei.
    + rewrite decide_False by naive_solver. rewrite IH. destruct (omap _ rest); [|done].
      rewrite last_cons_or. unfold or_else. repeat case_match; by simplify_eq.
    + by rewrite decide_True.
  - rewrite decide_False by naive_solver. apply IH.
Qed.

(** A link's query is read by these rules: the first pair that names a
    password, an [insecure] value other than 0 and 1, or an identifier that is
    no UUID, is the error; otherwise the last [sni], the last [insecure] and the
    last non-empty [client_id] count, and every other key is ignored. *)
Theorem link_query_rules server password query fragment :
  build_client_runtime_config server password query fragment =
  let pairs := form_parse query in
  match omap pair_error pairs with
  | e :: _ => Err e
  | [] => Ok (mkRuntime server password (last_value (str "sni") pairs) (last_client_id pairs)
               (bool_decide (last_value (str "insecure") pairs = Some (str "1")))
               (match fragment with
                | Some f => if decide (percent_decode f = []) then None else Some (percent_decode f)
                | None => None
                end))
  end.
Proof.
  unfold build_client_runtime_config. rewrite query_loop_spec. cbv zeta.
  destruct (omap pair_error (form_parse query)); [|done]. simpl. do 2 f_equal.
  - by destruct (last_value _ _).
  - by destruct (last_client_id _).
  - destruct (last_value (str "insecure") (form_parse query)) as [v|]; [|done].
    apply bool_decide_ext. split; [by intros ->|by intros [= ->]].
Qed.

(** ** Round trip of links with a zone *)

(** The characters that delimit the parts of a link. *)
Definition delimiters : bytes := str "[]/?#@".

(** The pieces behind the host of a printed link. *)
Definition link_userinfo (c : ClientRuntimeConfig) : bytes :=
  if decide (rc_password c = []) then [] else utf8_percent_encode USERINFO_ENCODE_SET (rc_password c) ++ str "@".
Definition link_port (a : Address) : bytes := if decide (addr_port a = 443%Z) then [] else str ":" ++ to_dec (addr_port a).
Definition link_query (c : ClientRuntimeConfig) : bytes :=
  let q := form_serialize (link_pairs c) in if decide (q = []) then [] else str "/?" ++ q.
Definition link_fragment (c : ClientRuntimeConfig) : bytes :=
  if rc_display_name c is Some name then str "#" ++ utf8_percent_encode FRAGMENT_ENCODE_SET name else [].
Definition escaped_host (a : Address) : bytes := replace_byte "%"%byte (str "%25") (addr_host a).

Lemma elem_replace_byte b t s : b ∈ replace_byte "%"%byte t s → b ∈ t ∨ b ∈ s.
Proof.
  unfold replace_byte. induction s as [|x s IH]; simpl; [by intros ?%not_elem_of_nil|].
  rewrite elem_of_app, elem_of_cons. case_decide; intros [Hb|Hb]; try tauto.
  apply list_elem_of_singleton in Hb. tauto.
Qed.

Lemma elem_replace_other b t s : b ≠ "%"%byte → b ∈ s → b ∈ replace_byte "%"%byte t s.
Proof.
  intros Hne. unfold replace_byte. induction s as [|x s IH]; [done|]. simpl.
  rewrite elem_of_cons, elem_of_app. intros [->|Hb]; [|auto].
  left. rewrite decide_False by done. by apply list_elem_of_singleton.
Qed.

Lemma contains_replaced s : "%"%byte ∈ s → contains_str (str "%25") (replace_byte "%"%byte (str "%25") s) = true.
Proof.
  unfold replace_byte. induction s as [|x s IH]; [by intros ?%not_elem_of_nil|]. intros Hx. simpl.
  destruct (decide (x = "%"%byte)) as [->|Hne].
  - assert (∀ t, contains_str (str "%25") (str "%25" ++ t) = true) as Hc; [|apply Hc].
    intros t. destruct t; done.
  - apply elem_of_cons in Hx as [Hx|Hx]; [congruence|]. specialize (IH Hx).
    change (contains_str (str "%25") (x :: concat ((fun b => if decide (b = "%"%byte) then str "%25" else [b]) <$> s)) = true).
    simpl. apply orb_true_iff. right. exact IH.
Qed.

Lemma not_any cs s : (∀ b, b ∈ s → b ∉ cs) → Forall (fun b => any_of cs b = false) s.
Proof. intros Hs. apply any_false_forall, Forall_forall. exact Hs. Qed.

Lemma not_eqc c s : c ∉ s → Forall (fun b => eqc c b = false) s.
Proof. apply eqc_false_forall. Qed.

(** Conditions under which a configuration has a faithful link: what the crates
    document about these very strings, and no delimiter where the parser would
    take it for one. *)
Record zone_config (c : ClientRuntimeConfig) : Prop := mkZone {
  zc_port : in_u 16 (addr_port (rc_server c));
  zc_host : (":"%byte ∈ addr_host (rc_server c)) ∧ ("%"%byte ∈ addr_host (rc_server c)) ∧
            ∀ b, b ∈ addr_host (rc_server c) → b ∉ delimiters;
  zc_decode : percent_decode (escaped_host (rc_server c)) = addr_host (rc_server c);
  zc_server : bracket_server (addr_host (rc_server c)) (addr_port (rc_server c)) = rc_server c;
  zc_plain : utf8_percent_encode USERINFO_ENCODE_SET (rc_password c) = rc_password c;
  zc_password : ∀ b, b ∈ rc_password c → b ∉ ":"%byte :: delimiters;
  zc_query : form_parse (form_serialize (link_pairs c)) = link_pairs c;
  zc_query_chars : ∀ b, b ∈ form_serialize (link_pairs c) → b ∉ delimiters;
  zc_client_id : ∀ id, rc_client_id c = Some id → uuid_to_string id ≠ [] ∧ parse_str (uuid_to_string id) = Some id;
  zc_name : ∀ n, rc_display_name c = Some n →
    let enc := utf8_percent_encode FRAGMENT_ENCODE_SET n in
    n ≠ [] ∧ enc ≠ [] ∧ trim enc = enc ∧ percent_decode (percent_decode enc) = n ∧
    (rc_password c ≠ [] ∨ "@"%byte ∉ enc) ∧ (form_serialize (link_pairs c) ≠ [] ∨ "?"%byte ∉ enc);
}.

(** A fact about every character of a literal, by evaluation. *)
Lemma each_char (P : byte → Prop) `{∀ b, Decision (P b)} cs : bool_decide (Forall P cs) = true → ∀ b, b ∈ cs → P b.
Proof. intros Hb. apply Forall_forall. by apply bool_decide_eq_true in Hb. Qed.

Lemma rfind_last x s t : x ∉ t → rfind x (s ++ x :: t) = Some (length s).
Proof.
  intros Hx. unfold rfind. rewrite reverse_app, reverse_cons, <- app_assoc. simpl.
  rewrite find_here.
  - simpl. rewrite length_reverse, length_app. simpl. f_equal. lia.
  - apply not_eqc. by rewrite elem_of_reverse.
  - by apply bool_decide_eq_true.
Qed.

Lemma rfind_none x s : x ∉ s → rfind x s = None.
Proof. intros Hx. unfold rfind. rewrite find_none; [done|]. apply not_eqc. by rewrite elem_of_reverse. Qed.

Section zone.
  Variable c : ClientRuntimeConfig.
  Hypothesis Hc : zone_config c.

#[local] Notation a := (rc_server c).
#[local] Notation q := (form_serialize (link_pairs c)).
#[local] Notation ending := (link_query c ++ link_fragment c).

Lemma host_chars b : b ∈ escaped_host a → b ∉ delimiters.
Proof.
  intros [Hb|Hb]%elem_replace_byte; [|by apply (zc_host _ Hc)].
  by apply (each_char (fun b => b ∉ delimiters) (str "%25")).
Qed.

Lemma port_chars b : b ∈ link_port a → b ∉ delimiters.
Proof.
  unfold link_port. case_decide; [by intros ?%not_elem_of_nil|]. rewrite elem_of_app. intros [Hb|Hb].
  - by apply (each_char (fun b => b ∉ delimiters) (str ":")).
  - destruct (zc_port _ Hc) as [Hz _].
    apply (proj1 (Forall_forall _ _) (to_dec_digits _ Hz)) in Hb.
    by apply (each_char (fun b => b ∉ delimiters) (str "0123456789")).
Qed.

Lemma link_shape :
  config_to_link c = SCHEME ++ link_userinfo c ++ (str "[" ++ escaped_host a ++ str "]" ++ link_port a) ++ ending.
Proof.
  destruct (zc_host _ Hc) as (Hcol & Hpct & _).
  assert (link_host a = str "[" ++ escaped_host a ++ str "]") as Hh.
  { assert (contains "%"%byte (addr_host a) = true) as H1 by by apply bool_decide_eq_true.
    assert (contains ":"%byte (escaped_host a) = true) as H2 by by apply bool_decide_eq_true, elem_replace_other.
    unfold link_host. rewrite H1. fold (escaped_host a). by rewrite H2, orb_true_r. }
  unfold config_to_link, link_authority, link_userinfo, link_port, link_query, link_fragment. rewrite Hh.
  do 2 f_equal. destruct (decide (addr_port a = 443%Z)); rewrite <- ?app_assoc; done.
Qed.

(** What follows the port is empty or starts with a delimiter. *)
Lemma ending_start : ending = [] ∨ ∃ b t, ending = b :: t ∧ any_of (str "/?#") b = true ∧ b ≠ ":"%byte.
Proof.
  unfold link_query, link_fragment. case_decide.
  - destruct (rc_display_name c); [right|by left]. simpl. by eexists _, _.
  - right. simpl. by eexists _, _.
Qed.

Lemma take_to_ending s : (∀ b, b ∈ s → b ∉ str "/?#") →
  default (length (s ++ ending)) (find (any_of (str "/?#")) (s ++ ending)) = length s.
Proof.
  intros Hs. apply not_any in Hs.
  destruct ending_start as [->|(b & t & -> & Hb & _)]; [by rewrite app_nil_r, find_none|by rewrite find_here].
Qed.

Lemma delimiters_sub b : b ∉ delimiters → b ∉ str "/?#".
Proof. intros Hb Hin. apply Hb. by apply (each_char (fun b => b ∈ delimiters) (str "/?#")). Qed.

Lemma password_chars b : b ∈ link_userinfo c → b ∉ str "/?#".
Proof.
  unfold link_userinfo. case_decide; [by intros ?%not_elem_of_nil|]. rewrite (zc_plain _ Hc), elem_of_app. intros [Hb|Hb].
  - apply delimiters_sub. intros Hd. apply (zc_password _ Hc b Hb). by right.
  - by apply (each_char (fun b => b ∉ str "/?#") (str "@")).
Qed.

Lemma bracket_chars b : b ∈ str "[" ++ escaped_host a ++ str "]" ++ link_port a → b ∉ str "/?#@".
Proof.
  assert (∀ b, b ∉ delimiters → b ∉ str "/?#@") as Hsub.
  { intros b' Hb Hin. apply Hb. by apply (each_char (fun b => b ∈ delimiters) (str "/?#@")). }
  rewrite !elem_of_app. intros [Hb|[Hb|[Hb|Hb]]].
  - by apply (each_char (fun b => b ∉ str "/?#@") (str "[")).
  - by apply Hsub, host_chars.
  - by apply (each_char (fun b => b ∉ str "/?#@") (str "]")).
  - by apply Hsub, port_chars.
Qed.

(** Cutting off the user information finds the bracket. *)
Lemma bracket_found t :
  find (eqc "["%byte) (str "[" ++ escaped_host a ++ str "]" ++ t) = Some 0 ∧
  find (eqc "]"%byte) (str "[" ++ escaped_host a ++ str "]" ++ t) = Some (S (length (escaped_host a))).
Proof.
  split; [done|]. change (str "[" ++ escaped_host a ++ str "]" ++ t) with (("["%byte :: escaped_host a) ++ "]"%byte :: t).
  apply (find_here (eqc "]"%byte) ("["%byte :: escaped_host a)); [|done].
  apply not_eqc. rewrite not_elem_of_cons. split; [done|].
  intros Hb%host_chars. apply Hb. by apply (bool_decide_unpack _).
Qed.

Lemma zone_recognised : is_anytls_ipv6_zone_url (config_to_link c) = true.
Proof.
  rewrite link_shape. set (br := str "[" ++ escaped_host a ++ str "]" ++ link_port a).
  unfold is_anytls_ipv6_zone_url. rewrite (proj2 (strip_prefix_spec SCHEME _ _) eq_refl).
  cbv zeta. change (default (SCHEME ++ link_userinfo c ++ br ++ ending) (Some (link_userinfo c ++ br ++ ending)))
    with (link_userinfo c ++ br ++ ending). rewrite (app_assoc _ br), take_to_ending, take_app_length.
  2:{ intros b [Hb|Hb]%elem_of_app; [by apply password_chars|].
      intros Hin. apply (bracket_chars b Hb). by apply (each_char (fun b => b ∈ str "/?#@") (str "/?#")). }
  assert (match rfind "@"%byte (link_userinfo c ++ br) with
          | Some at_pos => drop (S at_pos) (link_userinfo c ++ br)
          | None => link_userinfo c ++ br
          end = br) as ->.
  { assert ("@"%byte ∉ br) as Hat by (intros Hb%bracket_chars; apply Hb; by apply (bool_decide_unpack _)).
    unfold link_userinfo. case_decide; [by rewrite rfind_none|].
    rewrite <- app_assoc. change (str "@" ++ br) with ("@"%byte :: br). rewrite rfind_last by done.
    rewrite cons_middle, app_assoc.
    replace (S (length (utf8_percent_encode USERINFO_ENCODE_SET (rc_password c))))
      with (length (utf8_percent_encode USERINFO_ENCODE_SET (rc_password c) ++ ["@"%byte])) by (rewrite length_app; simpl; lia).
    apply drop_app_length. }
  destruct (bracket_found (link_port a)) as [H1 H2]. unfold br. rewrite H1, drop_0, H2.
  apply bool_decide_eq_true. destruct (zc_host _ Hc) as (_ & Hpct & _).
  change (str "[" ++ escaped_host a ++ str "]" ++ link_port a) with (("["%byte :: escaped_host a) ++ str "]" ++ link_port a).
  change (S (length (escaped_host a))) with (length ("["%byte :: escaped_host a)). rewrite take_app_length. right.
  unfold escaped_host, replace_byte. apply list_elem_of_In, in_concat.
  exists (str "%25"). split; [|by left].
  apply in_map_iff. exists "%"%byte. split; [done|]. by apply list_elem_of_In.
Qed.

Lemma after_port_link : after_port (link_port a ++ ending) = Ok (addr_port a, ending).
Proof.
  unfold after_port, link_port. destruct (decide (addr_port a = 443%Z)) as [->|_].
  - destruct ending_start as [E|(b & t & E & _ & Hb)]; rewrite app_nil_l, E; [done|].
    simpl. by rewrite decide_False by congruence.
  - rewrite <- app_assoc, (proj2 (strip_prefix_spec (str ":") _ _) eq_refl).
    destruct (zc_port _ Hc) as [Hz Hm]. rewrite take_to_ending.
    + rewrite take_app_length, drop_app_length. unfold parse_u16.
      rewrite parse_to_dec; [done|]. simpl in Hm. lia.
    + intros b Hb. apply (proj1 (Forall_forall _ _) (to_dec_digits _ Hz)) in Hb.
      by apply (each_char (fun b => b ∉ str "/?#") (str "0123456789")).
Qed.

Lemma userinfo_of_password : userinfo_password (rc_password c) = rc_password c.
Proof.
  unfold userinfo_password. rewrite find_none; [done|]. apply not_eqc.
  intros Hb. apply (zc_password _ Hc _ Hb). by left.
Qed.

Lemma query_no x : x ∈ delimiters → x ∉ q.
Proof. intros Hx Hq. by apply (zc_query_chars _ Hc x Hq). Qed.

Lemma rest_query_link : rest_query ending = q.
Proof.
  unfold rest_query, link_query. destruct (decide (q = [])) as [E|E].
  - rewrite E, app_nil_l. unfold link_fragment. destruct (rc_display_name c) as [n|] eqn:En; [|done].
    destruct (zc_name _ Hc n En) as (_ & _ & _ & _ & _ & [?|Hq]); [done|].
    rewrite find_none; [done|]. apply not_eqc. rewrite elem_of_app.
    intros [Hb|Hb]; [revert Hb; by apply (bool_decide_unpack _)|done].
  - assert (find (eqc "?"%byte) ((str "/?" ++ q) ++ link_fragment c) = Some 1) as -> by done.
    change (drop 2 ((str "/?" ++ q) ++ link_fragment c)) with (q ++ link_fragment c).
    assert (Forall (fun b => eqc "#"%byte b = false) q) as Hf by (apply not_eqc, query_no; by apply (bool_decide_unpack _)).
    unfold link_fragment. destruct (rc_display_name c) as [n|].
    + change (str "#" ++ ?x) with ("#"%byte :: x). rewrite find_here by done. apply take_app_length.
    + rewrite app_nil_r. by rewrite find_none.
Qed.

Lemma rest_display_name_link :
  rest_display_name ending = (fun n => percent_decode (utf8_percent_encode FRAGMENT_ENCODE_SET n)) <$> rc_display_name c.
Proof.
  unfold rest_display_name.
  assert ("#"%byte ∉ link_query c) as Hh.
  { unfold link_query. case_decide; [by apply not_elem_of_nil|]. rewrite elem_of_app. intros [Hb|Hb].
    - revert Hb. by apply (bool_decide_unpack _).
    - revert Hb. apply query_no. by apply (bool_decide_unpack _). }
  unfold link_fragment. destruct (rc_display_name c) as [n|] eqn:En.
  - destruct (zc_name _ Hc n En) as (_ & Hne & Htrim & _).
    rewrite (proj2 (split_once_spec "#"%byte _ (link_query c) (utf8_percent_encode FRAGMENT_ENCODE_SET n))) by done.
    rewrite Htrim. by rewrite decide_False.
  - rewrite app_nil_r. by rewrite (proj2 (split_once_None _ _) Hh).
Qed.

Lemma link_pairs_fields :
  omap pair_error (link_pairs c) = [] ∧ last_value (str "sni") (link_pairs c) = rc_sni c ∧
  last_client_id (link_pairs c) = rc_client_id c ∧
  bool_decide (last_value (str "insecure") (link_pairs c) = Some (str "1")) = rc_insecure c.
Proof.
  pose proof (zc_client_id _ Hc) as Hid. unfold link_pairs, last_value, last_client_id, pair_error.
  destruct (rc_client_id c) as [id|]; [destruct (Hid id eq_refl) as [Hne Hp]|];
    destruct (rc_sni c), (rc_insecure c); simpl; rewrite ?decide_False by naive_solver;
    rewrite ?decide_True by done; simpl; rewrite ?Hp; done.
Qed.

Lemma find_at :
  match find (eqc "@"%byte) (link_userinfo c ++ (str "[" ++ escaped_host a ++ str "]" ++ link_port a) ++ ending) with
  | Some at_pos =>
      (take at_pos (link_userinfo c ++ (str "[" ++ escaped_host a ++ str "]" ++ link_port a) ++ ending),
       drop (S at_pos) (link_userinfo c ++ (str "[" ++ escaped_host a ++ str "]" ++ link_port a) ++ ending))
  | None => ([], link_userinfo c ++ (str "[" ++ escaped_host a ++ str "]" ++ link_port a) ++ ending)
  end = (rc_password c, (str "[" ++ escaped_host a ++ str "]" ++ link_port a) ++ ending).
Proof.
  set (br := str "[" ++ escaped_host a ++ str "]" ++ link_port a).
  assert ("@"%byte ∈ delimiters) as Hatd by by apply (bool_decide_unpack _).
  unfold link_userinfo. destruct (decide (rc_password c = [])) as [E|E].
  - rewrite app_nil_l, find_none; [by rewrite E|]. apply not_eqc. rewrite !elem_of_app. intros [Hb|[Hb|Hb]].
    + apply (bracket_chars _ Hb). by apply (bool_decide_unpack _).
    + unfold link_query in Hb. case_decide; [by apply not_elem_of_nil in Hb|]. apply elem_of_app in Hb as [Hb|Hb].
      * revert Hb. by apply (bool_decide_unpack _).
      * by apply (query_no _ Hatd).
    + unfold link_fragment in Hb. destruct (rc_display_name c) as [n|] eqn:En; [|by apply not_elem_of_nil in Hb].
      destruct (zc_name _ Hc n En) as (_ & _ & _ & _ & [?|Hat] & _); [done|].
      apply elem_of_app in Hb as [Hb|Hb]; [|done]. revert Hb. by apply (bool_decide_unpack _).
  - rewrite (zc_plain _ Hc), <- app_assoc. change (str "@" ++ br ++ ending) with ("@"%byte :: br ++ ending).
    rewrite find_here; [|apply not_eqc; intros Hb; apply (zc_password _ Hc _ Hb); by right|done].
    rewrite take_app_length, cons_middle, app_assoc.
    replace (S (length (rc_password c))) with (length (rc_password c ++ ["@"%byte])) by (rewrite length_app; simpl; lia).
    by rewrite drop_app_length.
Qed.

Lemma zone_link_parses : parse_anytls_url (config_to_link c) = Some (Ok c).
Proof.
  unfold parse_anytls_url. rewrite zone_recognised, link_shape. unfold parse_anytls_url_ipv6_zone.
  rewrite (proj2 (strip_prefix_spec SCHEME _ _) eq_refl), find_at.
  rewrite <- !app_assoc. destruct (bracket_found (link_port a ++ ending)) as [-> ->].
  assert (slice 1 (S (length (escaped_host a))) (str "[" ++ escaped_host a ++ str "]" ++ link_port a ++ ending) = Some (escaped_host a)) as ->.
  { unfold slice. rewrite decide_True by (rewrite !length_app; simpl; lia).
    rewrite Nat.sub_succ, Nat.sub_0_r. change (drop 1 (str "[" ++ ?x)) with x. by rewrite take_app_length. }
  assert (contains_str (str "%25") (escaped_host a) = true) as -> by apply contains_replaced, (zc_host _ Hc).
  rewrite (zc_decode _ Hc).
  assert (drop (S (S (length (escaped_host a)))) (str "[" ++ escaped_host a ++ str "]" ++ link_port a ++ ending) = link_port a ++ ending) as ->.
  { change (str "[" ++ escaped_host a ++ str "]" ++ link_port a ++ ending)
      with (("["%byte :: escaped_host a) ++ "]"%byte :: link_port a ++ ending).
    rewrite cons_middle, app_assoc.
    replace (S (S (length (escaped_host a)))) with (length (("["%byte :: escaped_host a) ++ ["]"%byte]))
      by (rewrite length_app; simpl; lia).
    apply drop_app_length. }
  rewrite after_port_link. cbn [mbind result_bind].
  rewrite userinfo_of_password, rest_query_link, rest_display_name_link.
  unfold build_client_runtime_config. rewrite query_loop_spec, (zc_query _ Hc).
  destruct link_pairs_fields as (-> & Hsni & Hid & Hins). rewrite (zc_server _ Hc). f_equal. simpl.
  destruct c as [srv pw sni id ins name] eqn:Ec. simpl in *. do 2 f_equal.
  - rewrite Hsni. by destruct sni.
  - rewrite Hid. by destruct id.
  - etransitivity; [|exact Hins]. destruct (last_value (str "insecure") _) as [v|]; [|done].
    apply bool_decide_ext. split; [by intros ->|by intros [= ->]].
  - destruct name as [n|]; [|done]. simpl.
    pose proof (zc_name _ Hc n eq_refl) as (Hn & _ & _ & Hdd & _). simpl in Hdd. rewrite Hdd.
    by rewrite decide_False.
Qed.
End zone.
End links.

Arguments ClientRuntimeConfig : clear implicits.

Section link_theorems.
  Context {Address : Type} `{!AddressCodec Address, !AddressText Address, !UrlLib, !UuidText}.


(** The password of an ordinary link is not decoded: the printer escapes it,
    the [url] crate returns the user name as it stands in the link, and the
    parser takes it as it is, so a password with a character that needs escaping
    comes back changed. *)
Theorem link_password_stays_encoded (c c' : ClientRuntimeConfig Address) u :
  is_anytls_ipv6_zone_url (config_to_link c) = false →
  url_parse (config_to_link c) = Ok u →
  u_username u = utf8_percent_encode USERINFO_ENCODE_SET (rc_password c) → u_username u ≠ [] →
  parse_anytls_url (config_to_link c) = Some (Ok c') →
  rc_password c' = utf8_percent_encode USERINFO_ENCODE_SET (rc_password c).
Proof.
  intros Hz Hu Hname Hne. unfold parse_anytls_url. rewrite Hz, Hu. cbn [mbind result_bind].
  case_decide; [|done]. destruct (u_host_str u); [|done]. rewrite decide_False by done.
  rewrite link_query_rules. cbv zeta. case_match; [|done]. intros [= <-]. done.
Qed.
End link_theorems.

(** ** A concrete set of libraries, for examples *)

Definition hex_upper (z : Z) : byte := default Byte.x00 (str "0123456789ABCDEF" !! Z.to_nat z).
Definition escape (b : byte) : bytes := ["%"%byte; hex_upper (byte_to_Z b / 16); hex_upper (byte_to_Z b mod 16)].
Definition hex_any (b : byte) : option Z := hex_value (to_ascii_lowercase b).

Fixpoint decode_go (s : bytes) : bytes :=
  match s with
  | x :: ((y :: z :: s') as t) =>
      if decide (x = "%"%byte) then
        match hex_any y, hex_any z with
        | Some h, Some l => Z_to_byte (h * 16 + l) :: decode_go s'
        | _, _ => x :: decode_go t
        end
      else x :: decode_go t
  | x :: t => x :: decode_go t
  | [] => []
  end.

Definition encode_go (p : byte → bool) (s : bytes) : bytes :=
  concat ((fun b => if p b || (128 <=? byte_to_Z b)%Z then escape b else [b]) <$> s).

Definition form_safe (b : byte) : bool :=
  any_of (str "*-._0123456789ABCDEFGHIJKLMNOPQRSTUVWXYZabcdefghijklmnopqrstuvwxyz") b.
Definition form_encode (s : bytes) : bytes :=
  concat ((fun b => if decide (b = " "%byte) then str "+" else if form_safe b then [b] else escape b) <$> s).
Definition form_decode (s : bytes) : bytes := decode_go (replace_byte "+"%byte (str " ") s).

(** Links of the form [anytls://user@host], enough for the examples. *)
Definition simple_url (s : bytes) : result ParsedUrl :=
  match strip_prefix SCHEME s with
  | None => Err (err_other (str "relative URL without a base"))
  | Some t =>
      let '(user, host) := default ([], t) (split_once "@"%byte t) in
      Ok (mkUrl (str "anytls") (Some host) None user None None None)
  end.

#[global] Instance example_lib : UrlLib := {|
  percent_decode s := from_utf8_lossy (decode_go s);
  utf8_percent_encode := encode_go;
  url_parse := simple_url;
  form_parse s := if decide (s = []) then [] else
    (fun kv => match split_once "="%byte kv with Some (k, v) => (form_decode k, form_decode v) | None => (form_decode kv, []) end)
      <$> split "&"%byte s;
  form_serialize l := join "&"%byte ((fun kv => form_encode kv.1 ++ str "=" ++ form_encode kv.2) <$> l);
|}.

#[global] Instance socks_text : AddressText SocksAddress := {|
  addr_host a := match a with SocksDomain d _ => d | SocksV4 ip _ | SocksV6 ip _ => hex ip end;
  addr_port a := match a with SocksDomain _ p | SocksV4 _ p | SocksV6 _ p => p end;
  addr_is_ipv6 a := if a is SocksV6 _ _ then true else false;
  addr_to_string a := match a with SocksDomain d p | SocksV4 d p | SocksV6 d p => d ++ str ":" ++ to_dec p end;
  parse_socket_addr _ := None;
  of_host_port := SocksDomain;
|}.

(** ** Witnesses *)

Definition zone_example : ClientRuntimeConfig SocksAddress :=
  mkRuntime (SocksDomain (str "fe80::abcd:1234%eth0") 8080) (str "letmein") (Some (str "real@example.com"))
    (Some node_uuid) true (Some (str "node 1")).


Definition spaced : ClientRuntimeConfig SocksAddress :=
  mkRuntime (SocksDomain (str "example.com") 443) (str "a b") None None false None.

Lemma link_password_stays_encoded_witness :
  rc_password spaced = str "a b" ∧
  ∃ c', parse_anytls_url (config_to_link spaced) = Some (Ok c') ∧ rc_password c' = str "a%20b".
Proof.
  split; [reflexivity|].
  exists (mkRuntime (SocksDomain (str "example.com") 443) (str "a%20b") None None false None).
  split; [by vm_compute|].
  transitivity (utf8_percent_encode USERINFO_ENCODE_SET (rc_password spaced)); [|by vm_compute].
  apply (link_password_stays_encoded spaced _ (mkUrl (str "anytls") (Some (str "example.com")) None (str "a%20b") None None None));
    by vm_compute.
Defined.
