(* ===== verification/ClientRunner.v ===== *)
(** * The client program (src/src/client_runner.rs)

    The configuration from arguments and link, the listener that tells SOCKS5
    from HTTP, the CONNECT handshake with an upstream proxy, the [StreamRw]
    adapter, the relay of a SOCKS connection and the UDP association.  Loops over
    sockets are functions of what the awaited operations returned. *)

From S2P Require Import Prelude RustStr Panel Server Uot Relay ParseUrl.
From Stdlib Require Import Strings.Byte.

(** ** Configuration *)

Definition server_required : io_error := IoError InvalidInput (str "Server address is required (use --server or --url)").

Section config.
  Context {Address : Type} `{!AddressCodec Address, !AddressText Address, !UrlLib, !UuidText}.

Record ClientArgs : Type := mkClientArgs {
  ca_url : option bytes;
  ca_server : option Address;
  ca_password : option bytes;
  ca_sni : option bytes;
  ca_client_id : option Uuid;
  ca_insecure : option bool;
  ca_multiplexing : bool;
  ca_max_streams_per_session : Z;
}.

Definition no_url_config : ClientRuntimeConfig Address :=
  mkRuntime (DomainAddress [] 443) [] None None false None.

(** [None] is a panic inside the link parser. *)
Definition resolve_client_config (args : ClientArgs) : option (result (ClientRuntimeConfig Address)) :=
  match (match ca_url args with Some url => parse_anytls_url url | None => Some (Ok no_url_config) end) with
  | None => None
  | Some (Err e) => Some (Err e)
  | Some (Ok base) =>
      let config :=
        mkRuntime (default (rc_server base) (ca_server args))
                  (default (rc_password base) (ca_password args))
                  (if ca_sni args is Some sni then Some sni else rc_sni base)
                  (if ca_client_id args is Some id then Some id else rc_client_id base)
                  (default (rc_insecure base) (ca_insecure args))
                  (rc_display_name base) in
      Some (if decide (addr_host (rc_server config) = []) then Err server_required else Ok config)
  end.

Definition max_streams (args : ClientArgs) : Z :=
  if ca_multiplexing args then Z.max (ca_max_streams_per_session args) 1 else 1.

(** The name presented in the TLS handshake ([dail_out_callback]); [parse_ip] and
    [dns_name] are the standard library's and rustls's. *)
Inductive ServerName : Type := IpName (ip : bytes) | DnsName (name : bytes).

Definition server_name (parse_ip : bytes → option bytes) (dns_name : bytes → result bytes) (socket_ip : Address → bytes)
    (sni : option bytes) (server : Address) : result ServerName :=
  let named text :=
    match parse_ip text with
    | Some ip => Ok (IpName ip)
    | None => match dns_name text with Ok n => Ok (DnsName n) | Err e => Err (IoError InvalidInput (err_msg e)) end
    end in
  match sni with
  | Some sni => named sni
  | None => match as_domain server with Some (domain, _) => named domain | None => Ok (IpName (socket_ip server)) end
  end.
End config.
Arguments ClientArgs : clear implicits.

(** ** The listener *)

Inductive Listener : Type := LClosed | LSocks5 | LSocks4 | LHttp | LUnknown | LPanics.

#[global] Instance listener_eq_dec : EqDecision Listener.
Proof. solve_decision. Defined.

Definition http_methods : list bytes :=
  [str "CONNECT"; str "GET"; str "POST"; str "HEAD"; str "PUT"; str "OPTIONS"; str "DELETE"; str "TRACE"; str "PATCH";
   str "LOCK"; str "UNLOCK"; str "PROPFIND"; str "MKCOL"; str "COPY"; str "MOVE"].

(** [str::is_char_boundary] inside a valid string. *)
Definition is_char_boundary (i : nat) (text : bytes) : bool :=
  match text !! i with Some b => negb (is_cont (byte_to_Z b)) | None => true end.

(** [methods.iter().any(..)]; [None] is the panic of [text[..method.len()]]. *)
Fixpoint any_method (ms : list bytes) (text : bytes) : option bool :=
  match ms with
  | [] => Some false
  | m :: ms' =>
      if length m <=? length text then
        if is_char_boundary (length m) text then
          if eq_ignore_ascii_case (take (length m) text) m && bool_decide (text !! length m = Some " "%byte)
          then Some true else any_method ms' text
        else None
      else any_method ms' text
  end.

(** [handle_listener_stream] on the bytes of the peek, at most ten. *)
Definition detect_client (first_bytes : bytes) : Listener :=
  match first_bytes with
  | [] => LClosed
  | b :: _ =>
      if decide (byte_to_Z b = 5%Z) then LSocks5
      else if decide (byte_to_Z b = 4%Z) then LSocks4
      else if utf8_valid first_bytes then
        match any_method http_methods first_bytes with
        | Some true => LHttp
        | Some false => LUnknown
        | None => LPanics
        end
      else LUnknown
  end.

(** ** CONNECT through an upstream proxy *)

Definition connect_request (target : bytes) : bytes :=
  let crlf := [cr; nl] in
  str "CONNECT " ++ target ++ str " HTTP/1.1" ++ crlf ++ str "Host: " ++ target ++ crlf ++
  str "Proxy-Connection: Keep-Alive" ++ crlf ++ crlf.

Definition invalid_utf8 : io_error := IoError InvalidData (str "stream did not contain valid UTF-8").

(** [AsyncBufReadExt::read_line] on what the proxy sends before it closes. *)
Definition read_line : ioM bytes bytes := fun s =>
  let n := match find (eqc nl) s with Some i => S i | None => length s end in
  (if utf8_valid (take n s) then Ok (take n s) else Err invalid_utf8, drop n s).

(** The loop over the header lines.  Every round that does not end it takes at
    least one byte, so the number of bytes left is fuel enough. *)
Fixpoint skip_headers (fuel : nat) : ioM bytes unit :=
  match fuel with
  | O => io_fail invalid_utf8
  | S f =>
      line ← read_line;
      if decide (line = [] ∨ line = [cr; nl] ∨ line = [nl]) then mret tt else skip_headers f
  end.

Definition skip_all_headers : ioM bytes unit := fun s => skip_headers (S (length s)) s.

(** [connect_via_mitm_proxy]: the request written and the outcome. *)
Definition connect_via_mitm_proxy (target_authority : bytes) : ioM bytes bytes :=
  status_line ← read_line;
  if starts_with (str "HTTP/1.1 200") status_line || starts_with (str "HTTP/1.0 200") status_line
  then skip_all_headers ≫= fun _ => mret (connect_request target_authority)
  else io_fail (err_other (str "HTTP proxy CONNECT failed: " ++ trim_end status_line)).

(** ** StreamRw: writing

    [rw_fut] holds the data of a write that was started and is still pending; the
    environment says whether the frame channel took it. *)
Inductive ChannelAnswer : Type := NotYet | Taken | ChannelClosed (e : io_error).

#[global] Instance channel_answer_eq_dec : EqDecision ChannelAnswer.
Proof. solve_decision. Defined.

Definition rw_poll_write (buf : bytes) (ans : ChannelAnswer) (rw_fut : option bytes)
  : option (result nat) * option bytes * bytes :=
  let data := default buf rw_fut in
  match ans with
  | NotYet => (None, Some data, [])
  | Taken => (Some (Ok (length data)), None, data)
  | ChannelClosed e => (Some (Err e), None, [])
  end.

(** The reading side, which polls the stored future once. *)
Definition rw_poll_read (remaining : nat) (s : StreamReader) : Polled * StreamReader :=
  match read_fut s with
  | None =>
      if decide (remaining = 0) then (Ready (Ok []), s)
      else poll_fut remaining remaining (mkReader (sr_queue s) (sr_end s) (Some remaining))
  | Some m => poll_fut m remaining s
  end.

(** [StreamReader::poll_read] of the client, a loop: a round either polls the
    stored future and returns, or stores one; [None] when out of rounds. *)
Fixpoint poll_loop (fuel remaining : nat) (s : StreamReader) : option (Polled * StreamReader) :=
  match fuel with
  | O => None
  | S f =>
      match read_fut s with
      | Some m => Some (poll_fut m remaining s)
      | None =>
          if decide (remaining = 0) then Some (Ready (Ok []), s)
          else poll_loop f remaining (mkReader (sr_queue s) (sr_end s) (Some remaining))
      end
  end.

(** [StreamRw::poll_shutdown]: [fut] tells whether a [close] was started and is
    pending; the last component counts the calls of [close] this poll makes. *)
Inductive CloseAnswer : Type := CloseLater | CloseDone (r : result unit).

Definition rw_poll_shutdown (ans : CloseAnswer) (fut : bool) : option (result unit) * bool * nat :=
  let started := if fut then 0 else 1 in
  match ans with
  | CloseLater => (None, true, started)
  | CloseDone r => (Some r, false, started)
  end.

(** [AsyncWriteExt::write_all] on the adapter: its result, and what was sent. *)
Fixpoint rw_write_all (buf : bytes) (answers : list ChannelAnswer) (fut : option bytes) : option (result unit) * bytes :=
  if decide (buf = []) then (Some (Ok tt), [])
  else match answers with
  | [] => (None, [])
  | ans :: answers' =>
      match rw_poll_write buf ans fut with
      | (None, fut', _) => rw_write_all buf answers' fut'
      | (Some (Err e), _, _) => (Some (Err e), [])
      | (Some (Ok n), fut', d) =>
          let '(r, sent) := rw_write_all (drop n buf) answers' fut' in (r, d ++ sent)
      end
  end.

(** A history of polls: what the caller believes written, what was sent, what is
    pending. *)
Fixpoint rw_run (polls : list (bytes * ChannelAnswer)) (fut : option bytes) : bytes * bytes * option bytes :=
  match polls with
  | [] => ([], [], fut)
  | (buf, ans) :: rest =>
      let '(r, fut', sent) := rw_poll_write buf ans fut in
      let believed := match r with Some (Ok n) => take n buf | _ => [] end in
      let '(b, s, f) := rw_run rest fut' in (believed ++ b, sent ++ s, f)
  end.

(** The caller polls a pending write with the buffer it started with. *)
Fixpoint rw_resumes (polls : list (bytes * ChannelAnswer)) (fut : option bytes) : bool :=
  match polls with
  | [] => true
  | (buf, ans) :: rest =>
      bool_decide (default buf fut = buf) && rw_resumes rest (rw_poll_write buf ans fut).1.2
  end.

(** ** The relay of a SOCKS connection ([s5_connect]) *)

Inductive StreamEnd : Type := StillOpen | Closed | Terminated.

#[global] Instance stream_end_eq_dec : EqDecision StreamEnd.
Proof. solve_decision. Defined.

(** Client to proxy: what was read from the local side, and the stream write's
    result. *)
Fixpoint c2p (evs : list (result bytes * result nat)) (sent : bytes) : bytes * StreamEnd :=
  match evs with
  | [] => (sent, StillOpen)
  | (Ok [], _) :: _ => (sent, Closed)
  | (Ok d, Ok _) :: evs' => c2p evs' (sent ++ d)
  | (Ok _, Err _) :: _ => (sent, Terminated)
  | (Err _, _) :: _ => (sent, Terminated)
  end.

(** Proxy to client: what was read from the stream, and the local write's result;
    the second component tells whether the local side was shut down. *)
Fixpoint p2c (evs : list (result bytes * WriteResult)) (got : bytes) : bytes * bool :=
  match evs with
  | [] => (got, false)
  | (Ok [], _) :: _ => (got, true)
  | (Ok d, Written) :: evs' => p2c evs' (got ++ d)
  | (Ok d, WriteFailed k _) :: _ => (got ++ take k d, true)
  | (Err _, _) :: _ => (got, true)
  end.

Section client_relay.
  Context {Address : Type} `{!AddressCodec Address}.

(** The bytes a SOCKS connection puts on its stream: the target, then the data. *)
Definition s5_upload (target : Address) (evs : list (result bytes * result nat)) : bytes * StreamEnd :=
  c2p evs (write_to_buf target).

(** The requests of a SOCKS client ([handle_connection]): [authenticated] and
    [request] are what its handshake gave, [replied] the answer to writing the
    success reply, which precedes the connection; [connect] is [s5_connect]. *)
Inductive SocksRequest : Type := Connect (a : Address) | UdpAssociate | Bind.

Definition handle_connection (authenticated : result unit) (request : result SocksRequest) (replied : result unit)
    (connect : Address → result unit) (associate : result unit) : result unit :=
  _ ← authenticated;
  client_conn ← request;
  match client_conn with
  | Connect addr => _ ← replied; connect addr
  | UdpAssociate => associate
  | Bind => Err (err_other (str "Bind command is not supported"))
  end.

(** The connector the HTTP service is given: the stream is opened and the
    destination written to it with [write_all] on the adapter; [answers] are the
    channel's, [None] while it waits. *)
Definition http_connect (created : result unit) (dst : Address) (answers : list ChannelAnswer) : option (result unit) * bytes :=
  match created with
  | Err e => (Some (Err e), [])
  | Ok _ => rw_write_all (write_to_buf dst) answers None
  end.

(** ** The UDP association ([handle_udp_associate]) after its opening *)

Definition no_fragments : io_error := IoError InvalidData (str "UDP fragmentation is not supported").

Record Association : Type := mkAssoc {
  as_incoming : bytes * Z;                       (** the SOCKS client's address and port *)
  as_frames : list bytes;                        (** written to the stream *)
  as_delivered : list (Address * bytes * (bytes * Z));   (** sent to the SOCKS client *)
  as_stream : StreamEnd;
  as_reply_shut : bool;
}.

Inductive assoc_event : Type :=
  | ARecv (r : result (bytes * Z * Address * (bytes * Z))) (w : result nat)
  | APacket (r : result (option Address * bytes)) (sent : result unit)
  | AControl (r : result unit).

(** The end after [break]: close or terminate, then shut the control connection. *)
Definition assoc_finish (result : result unit) (st : Association) : option (Prelude.result unit) * Association :=
  (Some result, mkAssoc (as_incoming st) (as_frames st) (as_delivered st)
     (if is_ok result then Closed else Terminated) true).

(** [?] in the loop leaves the function at once. *)
Definition assoc_return (e : io_error) (st : Association) : option (result unit) * Association := (Some (Err e), st).

Fixpoint assoc_loop (evs : list assoc_event) (st : Association) : option (result unit) * Association :=
  match evs with
  | [] => (None, st)
  | ARecv (Err e) _ :: _ => assoc_return e st
  | ARecv (Ok (pkt, frag, destination, src)) w :: evs' =>
      if decide (frag ≠ 0%Z) then assoc_finish (Err no_fragments) st
      else
        let st1 := mkAssoc src (as_frames st) (as_delivered st) (as_stream st) (as_reply_shut st) in
        match uot_encode_packet Datagram (Some destination) pkt with
        | Err e => assoc_return e st1
        | Ok frame =>
            match w with
            | Err e => assoc_return e st1
            | Ok _ => assoc_loop evs' (mkAssoc src (as_frames st ++ [frame]) (as_delivered st) (as_stream st) (as_reply_shut st))
            end
        end
  | APacket (Err e) _ :: _ => assoc_return e st
  | APacket (Ok (source, payload)) sent :: evs' =>
      if decide ((as_incoming st).2 = 0%Z) then assoc_loop evs' st
      else
        match source, sent with
        | None, _ => assoc_return (err_other (str "called `Option::unwrap()` on a `None` value")) st
        | Some _, Err e => assoc_return e st
        | Some src, Ok _ =>
            assoc_loop evs' (mkAssoc (as_incoming st) (as_frames st) (as_delivered st ++ [(src, payload, as_incoming st)])
              (as_stream st) (as_reply_shut st))
        end
  | AControl (Err e) :: _ => assoc_return e st
  | AControl (Ok _) :: _ => assoc_finish (Ok tt) st
  end.

(** The beginning of [handle_udp_associate]: the outcomes of binding the UDP
    socket, of [create_stream], of the two writes that open the association, of
    the reply to the SOCKS client and of shutting the control connection. *)
Record AssocCalls : Type := mkCalls {
  bound : result unit;
  created : result unit;
  wrote_sentinel : result nat;
  wrote_request : result nat;
  replied : result unit;
  shut_down : result unit;
}.

Inductive Reply : Type := Succeeded | GeneralFailure.

(** The failure paths: reply, shut the control connection, return [e]. *)
Definition assoc_refuse (c : AssocCalls) (e : io_error) : option (result unit) * list Reply :=
  match replied c with
  | Err e' => (Some (Err e'), [])
  | Ok _ => (Some (Err (match shut_down c with Err e' => e' | Ok _ => e end)), [GeneralFailure])
  end.

(** The stream after [frames] were written and its end, before any event. *)
Definition assoc_new (frames : list bytes) (e : StreamEnd) : Association := mkAssoc ([], 0%Z) frames [] e false.

(** The whole handler: the result, the replies sent, and the association if a
    stream was created. *)
Definition handle_udp_associate (c : AssocCalls) (evs : list assoc_event)
  : option (result unit) * list Reply * option Association :=
  let outer_addr := write_to_buf uot_sentinel_destination in
  let request_bytes := request_into (mkRequest Datagram unspecified) in
  match bound c, created c with
  | Err e, _ | Ok _, Err e => (assoc_refuse c e, None)
  | Ok _, Ok _ =>
      match wrote_sentinel c, wrote_request c with
      | Err e, _ => (assoc_refuse c e, Some (assoc_new [] Terminated))
      | Ok _, Err e => (assoc_refuse c e, Some (assoc_new [outer_addr] Terminated))
      | Ok _, Ok _ =>
          let a := assoc_new [outer_addr; request_bytes] StillOpen in
          match replied c with
          | Err e => (Some (Err e), [], Some a)
          | Ok _ => let '(r, a') := assoc_loop evs a in (r, [Succeeded], Some a')
          end
      end
  end.
End client_relay.
Arguments Association : clear implicits.
Arguments assoc_event : clear implicits.

(** ** Theorems *)

(** *** The listener *)

Lemma boundary_ascii i text : ascii_only text = true → is_char_boundary i text = true.
Proof.
  intros Ha. unfold is_char_boundary. destruct (text !! i) as [b|] eqn:E; [|done].
  apply list_elem_of_lookup_2, list_elem_of_In in E. unfold ascii_only in Ha. rewrite forallb_forall in Ha.
  apply Ha, Z.ltb_lt in E. unfold is_cont. destruct (Z.leb_spec 128 (byte_to_Z b)); [lia|done].
Qed.

Lemma any_method_ascii ms text :
  ascii_only text = true →
  any_method ms text = Some (existsb (fun m => (length m <=? length text) &&
    (eq_ignore_ascii_case (take (length m) text) m && bool_decide (text !! length m = Some " "%byte))) ms).
Proof.
  intros Ha. induction ms as [|m ms IH]; [done|]. simpl. rewrite boundary_ascii by done.
  destruct (length m <=? length text); simpl; [|done]. by destruct (_ && _); simpl.
Qed.

(** A request line starts with method [m], in any case, and a space. *)
Definition request_of (m text : bytes) : Prop :=
  ∃ m' rest, text = m' ++ " "%byte :: rest ∧ eq_ignore_ascii_case m' m = true.

Lemma eq_ignore_length s t : eq_ignore_ascii_case s t = true → length s = length t.
Proof.
  unfold eq_ignore_ascii_case. intros H%bool_decide_eq_true. apply (f_equal length) in H.
  by rewrite !length_fmap in H.
Qed.

Lemma request_test m text :
  request_of m text ↔
  (length m <=? length text) && (eq_ignore_ascii_case (take (length m) text) m && bool_decide (text !! length m = Some " "%byte)) = true.
Proof.
  rewrite !andb_true_iff, Nat.leb_le, bool_decide_eq_true. split.
  - intros (m' & rest & -> & He). pose proof (eq_ignore_length _ _ He) as Hl. rewrite <- Hl.
    rewrite take_app_length, length_app. split_and!; [lia|done|]. rewrite lookup_app_r, Nat.sub_diag by lia. done.
  - intros (Hl & He & Hs). exists (take (length m) text), (drop (S (length m)) text). split; [|done].
    rewrite <- (take_drop (length m) text) at 1. f_equal. by apply drop_S.
Qed.

(** The listener recognises HTTP exactly: on ASCII input, whose first ten
    bytes it looks at, a connection is handed to the HTTP proxy if and only if it
    starts with one of the known methods, in any case, followed by a space; a
    first byte 5 or 4 means SOCKS, nothing at all a closed connection, and the
    look at the bytes never panics. *)
Theorem listener_http_exact text :
  ascii_only text = true →
  (detect_client text = LHttp ↔ ∃ m, m ∈ http_methods ∧ request_of m text) ∧
  (detect_client text = LSocks5 ↔ head text = Some Byte.x05) ∧
  (detect_client text = LSocks4 ↔ head text = Some Byte.x04) ∧
  (detect_client text = LClosed ↔ text = []) ∧ detect_client text ≠ LPanics.
Proof.
  intros Ha. unfold detect_client. destruct text as [|b text].
  { split_and!; try done. split; [done|]. intros (m & _ & m' & rest & H & _). by destruct m'. }
  assert (∀ x, byte_to_Z b = byte_to_Z x ↔ b = x) as Hb by (intros x; split; [apply byte_to_Z_inj|by intros ->]).
  pose proof (Hb Byte.x05) as H5. pose proof (Hb Byte.x04) as H4. simpl in H5, H4.
  rewrite any_method_ascii by done. rewrite utf8_valid_ascii by done. simpl head.
  assert ((∃ m, m ∈ http_methods ∧ request_of m (b :: text)) → b ≠ Byte.x05 ∧ b ≠ Byte.x04) as Hfirst.
  { intros (m & Hm & [|x m'] & rest & Heq & He); simplify_eq/=.
    - apply eq_ignore_length in He. destruct m; [|done].
      exfalso. revert Hm. by apply (bool_decide_unpack _).
    - apply bool_decide_eq_true in He. destruct m as [|y m]; [done|]. simpl in He. simplify_eq.
      assert (Forall (fun m => Byte.x05 ∉ to_ascii_lowercase <$> take 1 m ∧ Byte.x04 ∉ to_ascii_lowercase <$> take 1 m)
        http_methods) as Hall by (apply (bool_decide_unpack _); by vm_compute).
      apply (proj1 (Forall_forall _ _) Hall) in Hm. simpl in Hm. rewrite !list_elem_of_singleton in Hm.
      destruct Hm as [Hm5 Hm4]. split; intros ->; [apply Hm5|apply Hm4]; rewrite <- H; done. }
  assert (existsb (fun m => (length m <=? length (b :: text)) && (eq_ignore_ascii_case (take (length m) (b :: text)) m &&
    bool_decide ((b :: text) !! length m = Some " "%byte))) http_methods = true ↔ ∃ m, m ∈ http_methods ∧ request_of m (b :: text)) as Hex.
  { rewrite existsb_exists. setoid_rewrite <- request_test. by setoid_rewrite list_elem_of_In. }
  destruct (decide (byte_to_Z b = 5%Z)) as [E5|E5]; [|destruct (decide (byte_to_Z b = 4%Z)) as [E4|E4]].
  - apply H5 in E5 as ->. split_and!; try done. split; [done|]. intros Hm%Hfirst. naive_solver.
  - apply H4 in E4 as ->. split_and!; try done. split; [done|]. intros Hm%Hfirst. naive_solver.
  - destruct (existsb _ http_methods); split_and!; try done; try naive_solver.
Qed.

(** A multi-byte character across the length of a method name panics. *)
Lemma listener_panics_on_utf8 : detect_client (str "ab" ++ [Byte.xc3; Byte.xa9]) = LPanics.
Proof. reflexivity. Qed.

(** *** The CONNECT handshake *)

Lemma read_line_length s r s' : read_line s = (Ok r, s') → length s = length r + length s' ∧ (r = [] → s = []).
Proof.
  unfold read_line. destruct (utf8_valid _); [|done]. intros [= <- <-]. split.
  - rewrite length_take, length_drop. lia.
  - destruct (find (eqc nl) s); destruct s; done.
Qed.

Lemma skip_headers_S f s :
  skip_headers (S f) s =
  (line ← read_line; if decide (line = [] ∨ line = [cr; nl] ∨ line = [nl]) then mret tt else skip_headers f) s.
Proof. done. Qed.

Lemma skip_headers_fuel f g s : length s < f → length s < g → skip_headers f s = skip_headers g s.
Proof.
  revert g s. induction f as [|f IH]; intros g s Hf Hg; [lia|]. destruct g as [|g]; [lia|]. simpl.
  destruct (read_line s) as [[line|e] s'] eqn:El.
  - rewrite !(ioM_bind_run _ _ _ _ _ El). case_decide as Hd; [done|].
    destruct (read_line_length _ _ _ El) as [Hl _].
    assert (length line ≠ 0) by (intros H0%nil_length_inv; apply Hd; by left). apply IH; lia.
  - by rewrite !(ioM_bind_fail _ _ _ _ _ El).
Qed.

(** C37. The header loop of the CONNECT handshake terminates: each line but the
    last takes at least one byte, so one round more than there are bytes is
    always enough, and allowing more changes nothing; the only failure is a line
    that is not UTF-8. *)
Theorem header_loop_terminates s fuel :
  length s < fuel →
  skip_headers fuel s = skip_all_headers s ∧
  ((skip_all_headers s).1 = Ok tt ∨ ∃ s1 s2, (read_line s1) = (Err invalid_utf8, s2) ∧ s1 `suffix_of` s).
Proof.
  intros Hf. split; [apply skip_headers_fuel; lia|].
  unfold skip_all_headers. clear Hf fuel. remember (length s) as n eqn:En.
  assert (length s ≤ n) as Hn by lia. clear En. revert s Hn.
  induction n as [|n IH]; intros s Hn.
  - destruct s; [|simpl in Hn; lia]. by left.
  - rewrite skip_headers_S. destruct (read_line s) as [[line|e] s'] eqn:El.
    + rewrite (ioM_bind_run _ _ _ _ _ El). case_decide as Hd; [by left|].
      destruct (read_line_length _ _ _ El) as [Hl _].
      assert (length line ≠ 0) by (intros H0%nil_length_inv; apply Hd; by left).
      destruct (IH s') as [|(s1 & s2 & H1 & H2)]; [lia|by left|right].
      exists s1, s2. split; [done|]. etransitivity; [exact H2|].
      unfold read_line in El. simplify_eq. apply suffix_drop.
    + right. exists s, s'. split; [|done].
      revert El. unfold read_line. destruct (utf8_valid _); [done|]. by intros [= _ <-].
Qed.

(** *** The StreamRw adapter *)

(** The write side of the HTTP adapter sends what its caller believes to
    have written: as long as a pending write is polled again with the same
    buffer, the bytes reported as written are the bytes handed to the stream,
    one frame per write. *)
Theorem stream_rw_writes polls :
  rw_resumes polls None = true → (rw_run polls None).1.1 = (rw_run polls None).1.2.
Proof.
  generalize (@None bytes). induction polls as [|[buf ans] rest IH]; intros fut H; [done|].
  simpl in H. apply andb_true_iff in H as [Hb Hr]. apply bool_decide_eq_true in Hb.
  simpl. unfold rw_poll_write in *. rewrite Hb in *.
  destruct ans; simpl in *;
    (destruct (rw_run rest _) as [[b s] f] eqn:E; specialize (IH _ Hr); rewrite E in IH; simpl in *; subst b; try done).
  by rewrite firstn_all.
Qed.

(** [write_all] on the adapter sends its buffer once or fails: however often the
    channel makes it wait, what was sent is the whole buffer when it returns
    success, and nothing of it when it returns an error or is still waiting. *)
Theorem write_all_exact buf answers :
  rw_write_all buf answers None =
    if decide (buf = []) then (Some (Ok tt), [])
    else match filter (fun a => a ≠ NotYet) answers with
         | [] => (None, [])
         | ChannelClosed e :: _ => (Some (Err e), [])
         | _ :: _ => (Some (Ok tt), buf)
         end.
Proof.
  destruct (decide (buf = [])) as [->|Hne]; [by destruct answers|].
  assert (∀ fut, default buf fut = buf → rw_write_all buf answers fut =
    match filter (fun a => a ≠ NotYet) answers with
    | [] => (None, [])
    | ChannelClosed e :: _ => (Some (Err e), [])
    | _ :: _ => (Some (Ok tt), buf)
    end) as H; [|by apply H].
  induction answers as [|ans answers IH]; intros fut Hf; simpl; rewrite (decide_False (P := buf = [])) by done; [done|].
  unfold rw_poll_write. rewrite Hf. destruct ans as [| |e].
  - rewrite filter_cons_False by tauto. by apply IH.
  - rewrite filter_cons_True by done. rewrite drop_all. destruct answers; simpl; by rewrite app_nil_r.
  - by rewrite filter_cons_True.
Qed.

(** The three adapters read alike: the loop of the client's [StreamReader]
    ends after at most two rounds, and it, the [StreamRw] adapter and the
    server's reader return the same and keep the same state.  So what is shown of
    [poll_read] holds of all three. *)
Theorem adapters_read_alike fuel remaining s :
  2 ≤ fuel →
  poll_loop fuel remaining s = Some (poll_read remaining s) ∧ rw_poll_read remaining s = poll_read remaining s.
Proof.
  intros Hf. destruct fuel as [|[|f]]; [lia|lia|]. unfold rw_poll_read, poll_read. simpl.
  destruct (read_fut s); [done|]. by case_decide.
Qed.

(** *** From the SOCKS client to the target *)

Definition upload_events (ds : list bytes) : list (result bytes * result nat) := (fun d => (Ok d, Ok (length d))) <$> ds.

Lemma c2p_events ds sent evs :
  Forall (fun d => d ≠ []) ds → c2p (upload_events ds ++ evs) sent = c2p evs (sent ++ concat ds).
Proof.
  intros Hd. revert sent. induction Hd as [|d ds Hd _ IH]; intros sent; simpl; [by rewrite app_nil_r|].
  destruct d as [|b d]; [done|]. by rewrite IH, <- app_assoc.
Qed.

Section client_theorems.
  Context {Address : Type} `{!AddressCodec Address, !AddressLaws Address}.

(** What a SOCKS client sends reaches its target: the client program writes
    the target's address and then the data to the stream; the server reads the
    address back, takes the stream for a TCP relay to that target, and the
    relay, however the data is cut into reads, hands the target exactly those
    bytes; a local end of file closes the stream, a local error terminates it. *)
Theorem socks_bytes_reach_target (target : Address) ds r w ctx reads st st' :
  addr_wire target → uot_is_sentinel_destination target = false →
  Forall (fun d => d ≠ []) ds →
  nonempty_reads reads → concat (upload_data reads) = concat ds →
  s2o ctx (Ok tt) reads st = (None, st') →
  ∃ wire, s5_upload target (upload_events ds ++ [(r, w)]) =
            (match r, w with Ok ((_ :: _) as d), Ok _ => wire ++ d | _, _ => wire end,
             match r, w with Ok [], _ => Closed | Ok _, Ok _ => StillOpen | _, _ => Terminated end) ∧
    read_opening wire = (Ok (inl target), concat ds) ∧
    outbound st' = outbound st ++ concat ds.
Proof.
  intros Hw Hs Hd Hne Hcat Hrun. exists (write_to_buf target ++ concat ds). split_and!.
  - unfold s5_upload. rewrite c2p_events by done. simpl. by destruct r as [[|? ?]|], w.
  - unfold read_opening. rewrite (ioM_bind_run _ _ _ _ _ (retrieve_write target (concat ds) Hw)). by rewrite Hs.
  - destruct (s2o_running _ _ _ _ _ Hne Hrun) as (_ & Hout & _). by rewrite Hout, Hcat.
Qed.

(** The datagrams of the SOCKS client, and the packets from the stream. *)
Definition assoc_uploads (evs : list (assoc_event Address)) : list (option Address * bytes) :=
  omap (fun e => if e is ARecv (Ok (pkt, _, dest, _)) _ then Some (Some dest, pkt) else None) evs.

Definition dests_on_wire (evs : list (assoc_event Address)) : Prop :=
  Forall (fun e => if e is ARecv (Ok (_, _, dest, _)) _ then addr_wire dest else True) evs.

(** What must have gone to the SOCKS client: the packets that came after its
    first datagram, each to the address its latest datagram came from. *)
Fixpoint assoc_downloads (incoming : bytes * Z) (evs : list (assoc_event Address)) : list (Address * bytes * (bytes * Z)) :=
  match evs with
  | ARecv (Ok (_, _, _, src)) _ :: evs' => assoc_downloads src evs'
  | APacket (Ok (Some src, payload)) _ :: evs' =>
      (if decide (incoming.2 = 0%Z) then [] else [(src, payload, incoming)]) ++ assoc_downloads incoming evs'
  | _ :: evs' => assoc_downloads incoming evs'
  | [] => []
  end.

Lemma assoc_running evs st st' :
  assoc_loop evs st = (None, st') →
  as_delivered st' = as_delivered st ++ assoc_downloads (as_incoming st) evs ∧ as_stream st' = as_stream st ∧
  (∃ new, as_frames st' = as_frames st ++ new ∧
    Forall2 (fun p buf => uot_encode_packet Datagram p.1 p.2 = Ok buf) (assoc_uploads evs) new) ∧
  ∀ more, assoc_loop (evs ++ more) st = assoc_loop more st'.
Proof.
  revert st. induction evs as [|e evs IH]; intros st Hrun.
  { simpl in Hrun. simplify_eq. simpl. rewrite app_nil_r. split_and!; [done|done| |done]. exists []. by rewrite app_nil_r. }
  destruct e as [[[[[pkt frag] dest] src]|e] w|[[source payload]|e] sent|[[]|e]];
    cbn [assoc_loop] in Hrun; cbn [app assoc_loop assoc_downloads]; try done.
  - destruct (decide (frag ≠ 0%Z)); [done|].
    destruct (uot_encode_packet Datagram (Some dest) pkt) as [frame|] eqn:Ee; [|done]. destruct w; [|done].
    destruct (IH _ Hrun) as (H1 & H2 & (new & H3 & H3') & H4). simpl in *. split_and!; try done.
    exists (frame :: new). rewrite H3, <- app_assoc. split; [done|]. by constructor.
  - destruct (decide ((as_incoming st).2 = 0%Z)) as [Hz|Hz].
    + destruct (IH _ Hrun) as (H1 & H2 & H3 & H4). split_and!; try done. by destruct source.
    + destruct source as [src|]; [|done]. destruct sent; [|done].
      destruct (IH _ Hrun) as (H1 & H2 & H3 & H4). simpl in *. split_and!; try done.
      by rewrite H1, <- app_assoc.
Qed.

Lemma assoc_uploads_ok evs :
  dests_on_wire evs → Forall (fun p => dest_ok Datagram addr_wire p.1) (assoc_uploads evs).
Proof.
  induction 1 as [|e evs He _ IH]; [constructor|].
  destruct e as [[[[[pkt frag] dest] src]|] w| |]; simpl; try done. by constructor.
Qed.

(** A UDP association carries datagrams both ways: while it runs, the stream
    has been given every datagram of the SOCKS client, which the server's decoder
    reads back with its destination, in order; every packet that came over the
    stream after the client's first datagram has gone to the address its latest
    datagram came from, and earlier ones to nobody; when the control connection
    closes the stream is closed, and a fragment terminates it. *)
Theorem association_carries_datagrams evs (st st' : Association Address) pkt dest src frag w more :
  dests_on_wire evs → assoc_loop evs st = (None, st') →
  as_delivered st' = as_delivered st ++ assoc_downloads (as_incoming st) evs ∧
  (∃ new, as_frames st' = as_frames st ++ new ∧
    ∀ rest, get_packets Datagram (length (assoc_uploads evs)) (concat new ++ rest) = (Ok (assoc_uploads evs), rest)) ∧
  as_stream (assoc_loop (evs ++ AControl (Ok tt) :: more) st).2 = Closed ∧
  (frag ≠ 0%Z → (assoc_loop (evs ++ ARecv (Ok (pkt, frag, dest, src)) w :: more) st).1 = Some (Err no_fragments) ∧
    as_stream (assoc_loop (evs ++ ARecv (Ok (pkt, frag, dest, src)) w :: more) st).2 = Terminated).
Proof.
  intros Hd Hrun. destruct (assoc_running _ _ _ Hrun) as (H1 & _ & (new & H3 & H3') & H4).
  split_and!; [done| |by rewrite H4|].
  - exists new. split; [done|]. intros rest. by apply get_packets_encoded; [apply assoc_uploads_ok|].
  - intros Hf. rewrite H4. simpl. by rewrite decide_True.
Qed.


(** An error of an association leaves its stream open: where the loop leaves
    through [?] (the UDP socket, the stream write, a packet that cannot be
    decoded, the control connection), neither close nor terminate is called, and
    nothing else closes a stream that is dropped. *)
Theorem association_error_leaks_stream evs (st st' : Association Address) e w more :
  assoc_loop evs st = (None, st') → as_stream st = StillOpen →
  assoc_loop (evs ++ ARecv (Err e) w :: more) st = (Some (Err e), st') ∧ as_stream st' = StillOpen.
Proof.
  intros Hrun Hs. destruct (assoc_running _ _ _ Hrun) as (_ & H2 & _ & H4). rewrite H4, H2. done.
Qed.
End client_theorems.

(** ** Witnesses *)

Lemma listener_http_exact_witness :
  detect_client (str "get / HTTP") = LHttp ↔ ∃ m, m ∈ http_methods ∧ request_of m (str "get / HTTP").
Proof. apply (listener_http_exact (str "get / HTTP")). reflexivity. Defined.

Lemma header_loop_terminates_witness : skip_headers 40 (str "Via: x" ++ [cr; nl; cr; nl]) = skip_all_headers (str "Via: x" ++ [cr; nl; cr; nl]).
Proof. refine (proj1 (header_loop_terminates (str "Via: x" ++ [cr; nl; cr; nl]) 40 _)). vm_compute. lia. Defined.

Lemma stream_rw_writes_witness :
  (rw_run [(str "abc", NotYet); (str "abc", Taken); (str "d", Taken)] None).1.1 =
  (rw_run [(str "abc", NotYet); (str "abc", Taken); (str "d", Taken)] None).1.2.
Proof. apply stream_rw_writes. reflexivity. Defined.

Lemma adapters_read_alike_witness :
  poll_loop 2 3 new_reader = Some (poll_read 3 new_reader) ∧ rw_poll_read 3 new_reader = poll_read 3 new_reader.
Proof. apply adapters_read_alike. lia. Defined.

Definition web_server : SocksAddress := SocksDomain (str "example.com") 80.
Definition web_reads : list s2o_event := [SRead (Ok (str "GE")) Written; STick 0; SRead (Ok (str "T /")) Written].

Lemma socks_bytes_reach_target_witness :
  ∃ wire, s5_upload web_server (upload_events [str "GET"; str " /"] ++ [(Ok [], Ok 0)]) = (wire, Closed) ∧
    read_opening wire = (Ok (inl web_server), str "GET /") ∧
    outbound (s2o alice_ctx (Ok tt) web_reads relay_start).2 = str "GET /".
Proof.
  apply (socks_bytes_reach_target web_server [str "GET"; str " /"] (Ok []) (Ok 0) alice_ctx web_reads relay_start).
  - vm_compute. intuition (congruence || lia).
  - reflexivity.
  - repeat constructor; discriminate.
  - repeat constructor; discriminate.
  - reflexivity.
  - reflexivity.
Defined.

Definition assoc_start : Association SocksAddress := mkAssoc ([], 0%Z) [] [] StillOpen false.
Definition udp_client : bytes * Z := (str "127.0.0.1", 5353%Z).
Definition assoc_events : list (assoc_event SocksAddress) :=
  [APacket (Ok (Some dns_server, str "early")) (Ok tt); ARecv (Ok (str "query", 0%Z, dns_server, udp_client)) (Ok 14);
   APacket (Ok (Some dns_server, str "answer")) (Ok tt)].
Definition assoc_after : Association SocksAddress := (assoc_loop assoc_events assoc_start).2.

Lemma association_carries_datagrams_witness :
  as_delivered assoc_after = [(dns_server, str "answer", udp_client)] ∧
  as_stream (assoc_loop (assoc_events ++ [AControl (Ok tt)]) assoc_start).2 = Closed.
Proof.
  destruct (association_carries_datagrams assoc_events assoc_start assoc_after [] dns_server udp_client 1 (Ok 0) []) as (H1 & _ & H3 & _).
  - repeat constructor; vm_compute; intuition congruence.
  - reflexivity.
  - split; [rewrite H1; reflexivity|exact H3].
Defined.

Lemma association_error_leaks_stream_witness :
  assoc_loop (assoc_events ++ [ARecv (Err early_eof) (Ok 0)]) assoc_start = (Some (Err early_eof), assoc_after) ∧
  as_stream assoc_after = StillOpen.
Proof.
  apply (association_error_leaks_stream assoc_events assoc_start assoc_after early_eof (Ok 0) []); reflexivity.
Defined.

Definition good_calls : AssocCalls := mkCalls (Ok tt) (Ok tt) (Ok 30) (Ok 8) (Ok tt) (Ok tt).

