(* ===== verification/TrojanKiller.v ===== *)
(** * The auditing proxy (examples/trojan-killer.rs)

    An HTTP CONNECT proxy that tunnels a connection between two threads and
    watches the sizes of the first exchange after the TLS handshake.  The threads
    share a [State] behind a mutex, so the tunnel is a function of the order in
    which their reads took it. *)

From S2P Require Import Prelude RustStr ParseUrl Relay ClientRunner.
From Stdlib Require Import Strings.Byte.

(** ** The watcher *)

(** The ChangeCipherSpec record a TLS client sends before its encrypted data. *)
Definition CCS : bytes := [Byte.x14; Byte.x03; Byte.x03; Byte.x00; Byte.x01; Byte.x01].

Record State : Type := mkState {
  uploading : bool;
  up_count : Z;
  downloading : bool;
  down_count : Z;
}.

Definition State_default : State := mkState false 0 false 0.

(** [buf[..6] == CCS] for a read of at least six bytes. *)
Definition is_ccs (d : bytes) : bool := bool_decide (6 ≤ length d ∧ take 6 d = CCS).

Definition size (d : bytes) : Z := Z.of_nat (length d).

(** The sizes that are reported. *)
Definition suspicious (up down : Z) : bool :=
  ((650 <=? up) && (up <=? 750) &&
   (((170 <=? down) && (down <=? 180)) || ((3000 <=? down) && (down <=? 7500))))%Z.

(** A read of the client's data, and whether it printed the verdict. *)
Definition on_upload (d : bytes) (s : State) : bool * State :=
  let s1 := if bool_decide (up_count s = 0%Z) && is_ccs d
            then mkState true (up_count s) (downloading s) (down_count s) else s in
  let s2 := if uploading s1
            then mkState (uploading s1) (wrap 64 (up_count s1 + size d)) (downloading s1) (down_count s1) else s1 in
  if downloading s2
  then (suspicious (up_count s2) (down_count s2), mkState (uploading s2) (up_count s2) false (down_count s2))
  else (false, s2).

(** A read of the server's data. *)
Definition on_download (d : bytes) (s : State) : State :=
  let s1 := if uploading s then mkState false (up_count s) true (down_count s) else s in
  if downloading s1
  then mkState (uploading s1) (up_count s1) (downloading s1) (wrap 64 (down_count s1 + size d)) else s1.

(** ** The tunnel *)

(** A round of one of the two threads: its read, and the answer to the write. *)
Inductive tk_event : Type :=
  | Up (r : result bytes) (w : WriteResult)
  | Down (r : result bytes) (w : WriteResult).

Record Tunnel : Type := mkTunnel {
  tk_state : State;
  reports : nat;
  to_server : bytes;
  up_over : bool;       (** the client-to-server thread has returned *)
  to_client : bytes;
  down_over : bool;
}.

Definition tunnel_start : Tunnel := mkTunnel State_default 0 [] false [] false.

Definition tk_step (e : tk_event) (t : Tunnel) : Tunnel :=
  match e with
  | Up r w =>
      if up_over t then t
      else match r with
      | Ok [] | Err _ => mkTunnel (tk_state t) (reports t) (to_server t) true (to_client t) (down_over t)
      | Ok d =>
          let '(verdict, s) := on_upload d (tk_state t) in
          let n := if verdict then S (reports t) else reports t in
          match w with
          | Written => mkTunnel s n (to_server t ++ d) false (to_client t) (down_over t)
          | WriteFailed k _ => mkTunnel s n (to_server t ++ take k d) true (to_client t) (down_over t)
          end
      end
  | Down r w =>
      if down_over t then t
      else match r with
      | Ok [] | Err _ => mkTunnel (tk_state t) (reports t) (to_server t) (up_over t) (to_client t) true
      | Ok d =>
          let s := on_download d (tk_state t) in
          match w with
          | Written => mkTunnel s (reports t) (to_server t) (up_over t) (to_client t ++ d) false
          | WriteFailed k _ => mkTunnel s (reports t) (to_server t) (up_over t) (to_client t ++ take k d) true
          end
      end
  end.

Definition tk_run (evs : list tk_event) (t : Tunnel) : Tunnel := foldl (fun t e => tk_step e t) t evs.

(** ** The request *)

(** The next word of [str::split_whitespace] and what follows it. *)
Fixpoint until_space (s : bytes) : bytes * bytes :=
  match s with
  | [] => ([], [])
  | b :: s' =>
      match strip_any ws_chars s with
      | Some _ => ([], s)
      | None => let '(w, r) := until_space s' in (b :: w, r)
      end
  end.

Definition next_word (s : bytes) : bytes * bytes := until_space (trim_start s).

Definition empty_request : io_error := IoError UnexpectedEof (str "empty request").

(** The method and the target; what is left unread is the reader's buffer. *)
Definition read_request : ioM bytes (bytes * bytes) :=
  first_line ← read_line;
  if decide (first_line = []) then io_fail empty_request
  else
    let '(method, parts) := next_word first_line in
    let target := (next_word parts).1 in
    skip_all_headers ≫= fun _ => mret (method, target).

(** ** A connection *)

Inductive Handled : Type :=
  | Refused (target : bytes)
  | Tunnelled (target : bytes) (t : Tunnel).

Definition established : bytes := str "HTTP/1.1 200 Connection established" ++ [cr; nl; cr; nl].

(** [connect] and [replied] are the answers to connecting to the target and to
    writing the reply; the reads of the tunnel start with what the request left
    in the buffer. *)
Definition handle (input : bytes) (connect : bytes → result unit) (replied : result unit) (evs : list tk_event)
  : result Handled :=
  match read_request input with
  | (Err e, _) => Err e
  | (Ok (method, target), _) =>
      if eq_ignore_ascii_case method (str "CONNECT") then
        match connect target with
        | Err e => Err e
        | Ok _ =>
            match replied with
            | Err e => Err e
            | Ok _ => Ok (Tunnelled target (tk_run evs tunnel_start))
            end
        end
      else Ok (Refused target)
  end.

(** ** Lemmas *)

(** The reads that took the mutex, in that order: those of a thread that has not
    returned. *)
Inductive tk_data : Type := DUp (d : bytes) | DDown (d : bytes).

Fixpoint taken (u d : bool) (evs : list tk_event) : list tk_data :=
  match evs with
  | [] => []
  | Up r w :: evs' =>
      if u then taken u d evs'
      else match r with
      | Ok [] | Err _ => taken true d evs'
      | Ok x => DUp x :: taken (if w is Written then false else true) d evs'
      end
  | Down r w :: evs' =>
      if d then taken u d evs'
      else match r with
      | Ok [] | Err _ => taken u true evs'
      | Ok x => DDown x :: taken u (if w is Written then false else true) evs'
      end
  end.

Definition ups (ds : list tk_data) : bytes := concat ((fun x => if x is DUp d then d else []) <$> ds).
Definition downs (ds : list tk_data) : bytes := concat ((fun x => if x is DDown d then d else []) <$> ds).

Definition total (ds : list tk_data) : Z := (size (ups ds) + size (downs ds))%Z.

Lemma size_app a b : size (a ++ b) = (size a + size b)%Z.
Proof. unfold size. rewrite length_app. lia. Qed.
Lemma size_nonneg a : (0 ≤ size a)%Z.
Proof. unfold size. lia. Qed.

Lemma total_cons x ds :
  total (x :: ds) = (match x with DUp d | DDown d => size d end + total ds)%Z.
Proof. unfold total, ups, downs. destruct x; rewrite !fmap_cons; cbn [concat app]; rewrite size_app; lia. Qed.

Lemma total_nonneg ds : (0 ≤ total ds)%Z.
Proof. unfold total, size. lia. Qed.

(** A thread that has returned reads nothing. *)
Lemma taken_over_up d evs : ups (taken true d evs) = [].
Proof. revert d. induction evs as [|[r w|[[|b x]|e] w] evs IH]; intros [|]; simpl; try done; apply IH. Qed.
Lemma taken_over_down u evs : downs (taken u true evs) = [].
Proof. revert u. induction evs as [|[[[|b x]|e] w|r w] evs IH]; intros [|]; simpl; try done; apply IH. Qed.

(** How often the verdict is printed over these reads. *)
Fixpoint watch (ds : list tk_data) (s : State) : nat :=
  match ds with
  | [] => 0
  | DUp d :: ds' => let '(v, s') := on_upload d s in (if v then 1 else 0) + watch ds' s'
  | DDown d :: ds' => watch ds' (on_download d s)
  end.

Lemma prefix_after (a b c m : bytes) : (∃ k, m = (a ++ b) ++ take k c) → ∃ k, m = a ++ take k (b ++ c).
Proof. intros [k ->]. exists (length b + k). by rewrite take_app_add, app_assoc. Qed.

Lemma prefix_cut (a b c m : bytes) n : c = [] → (∃ k, m = (a ++ take n b) ++ take k c) → ∃ k, m = a ++ take k (b ++ c).
Proof. intros -> [k ->]. exists n. by rewrite take_nil, !app_nil_r. Qed.

Lemma tk_run_taken evs t :
  let ds := taken (up_over t) (down_over t) evs in
  reports (tk_run evs t) = reports t + watch ds (tk_state t) ∧
  (∃ k, to_server (tk_run evs t) = to_server t ++ take k (ups ds)) ∧
  (∃ k, to_client (tk_run evs t) = to_client t ++ take k (downs ds)).
Proof.
  revert t. induction evs as [|e evs IH]; intros t; cbv zeta.
  { simpl. split_and!; [lia|exists 0..]; by rewrite take_0, app_nil_r. }
  change (tk_run (e :: evs) t) with (tk_run evs (tk_step e t)). specialize (IH (tk_step e t)). cbv zeta in IH.
  destruct e as [r w|r w]; cbn [taken tk_step] in *.
  - destruct (up_over t) eqn:Eo; [by rewrite Eo in IH|].
    destruct r as [[|b d]|e]; [done| |done]. cbn [watch].
    destruct (on_upload (b :: d) (tk_state t)) as [v s1].
    destruct w as [|n e]; destruct IH as (Hr & Hs & Hc); cbn [reports tk_state up_over down_over to_server to_client] in *;
      (split_and!; [rewrite Hr; destruct v; lia| |done]); [by apply prefix_after|].
    apply (prefix_cut _ (b :: d) _ _ n); [apply taken_over_up|done].
  - destruct (down_over t) eqn:Eo; [by rewrite Eo in IH|].
    destruct r as [[|b d]|e]; [done| |done]. cbn [watch].
    destruct w as [|n e]; destruct IH as (Hr & Hs & Hc); cbn [reports tk_state up_over down_over to_server to_client] in *;
      (split_and!; [done|done|]); [by apply prefix_after|].
    apply (prefix_cut _ (b :: d) _ _ n); [apply taken_over_down|done].
Qed.

(** *** The four phases of a connection *)

(** After the verdict nothing more is reported. *)
Lemma watch_done ds u d : (0 < u)%Z → watch ds (mkState false u false d) = 0.
Proof.
  intros Hu. induction ds as [|[x|x] ds IH]; [done| |exact IH]. simpl. unfold on_upload. simpl.
  rewrite bool_decide_eq_false_2 by lia. exact IH.
Qed.

(** Reading the answer, until the client speaks again. *)
Lemma watch_down ds u d :
  (0 < u)%Z → (0 ≤ d)%Z → (d + total ds < 2 ^ 64)%Z →
  (watch ds (mkState false u true d) = 0 ∨ watch ds (mkState false u true d) = 1) ∧
  (watch ds (mkState false u true d) = 1 ↔
   ∃ dn x rest, ds = (DDown <$> dn) ++ DUp x :: rest ∧ suspicious u (d + size (concat dn)) = true).
Proof.
  intros Hu. revert d. induction ds as [|[x|x] ds IH]; intros d Hd Hb.
  - split; [by left|]. split; [done|]. intros ([|] & x & rest & ? & _); done.
  - simpl. unfold on_upload. simpl. rewrite bool_decide_eq_false_2 by lia. simpl. rewrite watch_done by done.
    assert (suspicious u d = true ↔ ∃ dn y rest, DUp x :: ds = (DDown <$> dn) ++ DUp y :: rest ∧ suspicious u (d + size (concat dn)) = true) as H.
    { split; [intros H; exists [], x, ds; unfold size; simpl; by rewrite Z.add_0_r|].
      intros ([|y0 dn] & y & rest & Hds & Hs); [|done]. unfold size in Hs; simpl in Hs. by rewrite Z.add_0_r in Hs. }
    rewrite <- H. destruct (suspicious u d); split; auto; split; done.
  - rewrite total_cons in Hb. pose proof (size_nonneg x). pose proof (total_nonneg ds). simpl.
    unfold on_download. simpl. rewrite wrap_small by (unfold in_u; lia).
    destruct (IH (d + size x)%Z) as [H1 H2]; [lia|lia|]. split; [done|]. rewrite H2. split.
    + intros (dn & y & rest & -> & Hs). exists (x :: dn), y, rest. split; [done|].
      cbn [concat]. by rewrite size_app, Z.add_assoc.
    + intros ([|x' dn] & y & rest & Hds & Hs); [done|]. injection Hds as <- ->. exists dn, y, rest.
      split; [done|]. cbn [concat] in Hs. by rewrite size_app, Z.add_assoc in Hs.
Qed.

(** Sending, until the server answers. *)
Lemma watch_up ds u :
  (0 < u)%Z → (u + total ds < 2 ^ 64)%Z →
  (watch ds (mkState true u false 0) = 0 ∨ watch ds (mkState true u false 0) = 1) ∧
  (watch ds (mkState true u false 0) = 1 ↔
   ∃ up dn x rest, ds = (DUp <$> up) ++ (DDown <$> dn) ++ DUp x :: rest ∧ dn ≠ [] ∧
     suspicious (u + size (concat up)) (size (concat dn)) = true).
Proof.
  revert u. induction ds as [|[x|x] ds IH]; intros u Hu Hb.
  - split; [by left|]. split; [done|]. intros ([|] & [|] & x & rest & ? & _); done.
  - rewrite total_cons in Hb. pose proof (size_nonneg x). pose proof (total_nonneg ds). simpl. unfold on_upload. simpl.
    rewrite bool_decide_eq_false_2 by lia. simpl. rewrite wrap_small by (unfold in_u; lia).
    destruct (IH (u + size x)%Z) as [H1 H2]; [lia|lia|]. split; [done|]. rewrite H2. split.
    + intros (up & dn & y & rest & -> & Hdn & Hs). exists (x :: up), dn, y, rest. split_and!; [done|done|].
      cbn [concat]. by rewrite size_app, Z.add_assoc.
    + intros ([|x' up] & dn & y & rest & Hds & Hdn & Hs); [by destruct dn|]. injection Hds as <- ->. exists up, dn, y, rest.
      split_and!; [done|done|]. cbn [concat] in Hs. by rewrite size_app, Z.add_assoc in Hs.
  - rewrite total_cons in Hb. pose proof (size_nonneg x). pose proof (total_nonneg ds). simpl. unfold on_download. simpl.
    rewrite wrap_small by (unfold in_u; lia). destruct (watch_down ds u (size x)) as [H1 H2]; [lia..|].
    split; [done|]. rewrite H2. split.
    + intros (dn & y & rest & -> & Hs). exists [], (x :: dn), y, rest. split_and!; [done|done|].
      cbn [concat]. rewrite size_app. unfold size at 1. simpl. by rewrite Z.add_0_r.
    + intros ([|x' up] & dn & y & rest & Hds & Hdn & Hs); [|done]. destruct dn as [|x' dn]; [done|].
      injection Hds as <- ->. exists dn, y, rest. split; [done|]. cbn [concat] in Hs.
      rewrite size_app in Hs. unfold size at 1 in Hs. simpl in Hs. by rewrite Z.add_0_r in Hs.
Qed.

(** The exchange that is reported: [first] is the first read of the client that
    starts with a ChangeCipherSpec. *)
Definition reported (ds : list tk_data) : Prop :=
  ∃ pre first up dn x rest,
    ds = pre ++ DUp first :: (DUp <$> up) ++ (DDown <$> dn) ++ DUp x :: rest ∧
    Forall (fun y => if y is DUp d then is_ccs d = false else True) pre ∧ is_ccs first = true ∧ dn ≠ [] ∧
    suspicious (size (first ++ concat up)) (size (concat dn)) = true.

Lemma is_ccs_size d : is_ccs d = true → (0 < size d)%Z.
Proof. intros H%bool_decide_eq_true. unfold size. lia. Qed.

Lemma watch_start ds :
  (total ds < 2 ^ 64)%Z →
  (watch ds State_default = 0 ∨ watch ds State_default = 1) ∧ (watch ds State_default = 1 ↔ reported ds).
Proof.
  unfold State_default. induction ds as [|y ds IH]; intros Hb.
  { split; [by left|]. split; [done|]. intros ([|] & ? & ? & ? & ? & ? & ? & _); done. }
  rewrite total_cons in Hb.
  assert (match y with DUp d => is_ccs d = false | DDown _ => True end → (total ds < 2 ^ 64)%Z →
    (watch ds (mkState false 0 false 0) = 0 ∨ watch ds (mkState false 0 false 0) = 1) ∧
    (watch ds (mkState false 0 false 0) = 1 ↔ reported (y :: ds))) as Hskip.
  { intros Hy Hb'. destruct (IH Hb') as [H1 H2]. split; [done|]. rewrite H2. split.
    - intros (pre & first & up & dn & x & rest & -> & Hp & H). exists (y :: pre), first, up, dn, x, rest.
      split; [done|]. split; [|done]. constructor; [by destruct y|done].
    - intros ([|y' pre] & first & up & dn & x & rest & Hds & Hp & Hc & H); injection Hds as -> ->; [congruence|].
      inversion Hp; subst. by exists pre, first, up, dn, x, rest. }
  destruct y as [d|d]; cbn [watch].
  - pose proof (size_nonneg d). unfold on_upload. cbn [up_count]. rewrite bool_decide_eq_true_2 by done. cbn [andb].
    destruct (is_ccs d) eqn:Ec; cbn [uploading downloading up_count down_count]; [|apply Hskip; [done|lia]].
    pose proof (is_ccs_size d Ec). rewrite Z.add_0_l, wrap_small by (unfold in_u; pose proof (total_nonneg ds); lia).
    destruct (watch_up ds (size d)) as [H1 H2]; [lia..|]. split; [exact H1|]. simpl. rewrite H2. split.
    + intros (up & dn & x & rest & -> & Hdn & Hs). exists [], d, up, dn, x, rest. by rewrite size_app.
    + intros ([|y' pre] & first & up & dn & x & rest & Hds & Hp & Hc & Hdn & Hs); simplify_eq/=.
      * exists up, dn, x, rest. by rewrite size_app in Hs.
      * inversion Hp; subst. congruence.
  - apply Hskip; [done|]. pose proof (size_nonneg d). lia.
Qed.

(** *** Words *)

(** A visible ASCII character. *)
Definition visible (b : byte) : bool := ((33 <=? byte_to_Z b) && (byte_to_Z b <=? 126))%Z.

Lemma visible_not_space b s : visible b = true → strip_any ws_chars (b :: s) = None.
Proof.
  intros Hb. apply strip_any_head; [|done]. intros c [= <-].
  assert (∀ c, visible c = true → forallb (fun p => if head p is Some d then negb (bool_decide (d = c)) else false) ws_chars = true) as H.
  { intros c Hc. destruct c; try (vm_compute in Hc; discriminate); vm_compute; reflexivity. }
  apply Forall_forall. intros p Hp.
  pose proof (proj1 (forallb_forall _ ws_chars) (H b Hb) p (proj1 (list_elem_of_In _ _) Hp)) as Hh.
  destruct p as [|d p]; simpl in Hh; [done|]. split; [done|]. intros [= ->]. by rewrite bool_decide_eq_true_2 in Hh.
Qed.

Lemma until_space_word w s :
  Forall (fun b => visible b = true) w → until_space (w ++ " "%byte :: s) = (w, " "%byte :: s).
Proof. intros Hw. induction Hw as [|b w Hb _ IH]; [done|]. cbn [app until_space]. rewrite visible_not_space by done. by rewrite IH. Qed.

Lemma trim_start_word w s : Forall (fun b => visible b = true) w → w ≠ [] → trim_start (w ++ s) = w ++ s.
Proof.
  intros Hw Hne. destruct w as [|b w]; [done|]. inversion Hw; subst. unfold trim_start.
  cbn [app length strip_all]. by rewrite visible_not_space.
Qed.

Lemma next_word_visible w s :
  Forall (fun b => visible b = true) w → w ≠ [] → next_word (w ++ " "%byte :: s) = (w, " "%byte :: s).
Proof. intros Hw Hne. unfold next_word. rewrite trim_start_word by done. by apply until_space_word. Qed.

Lemma next_word_after_space w s :
  Forall (fun b => visible b = true) w → w ≠ [] → next_word (" "%byte :: w ++ " "%byte :: s) = (w, " "%byte :: s).
Proof.
  intros Hw Hne. rewrite <- next_word_visible by done. unfold next_word. f_equal.
Qed.

(** ** Theorems *)

(** C40. The auditing proxy reports an exchange at most once, and exactly the one
    it is after: the client's first read that starts with a ChangeCipherSpec and
    what follows up to the server's answer are 650 to 750 bytes, the answer is 170
    to 180 or 3000 to 7500 bytes, and the client then sends again; whatever the
    threads' order, and whatever fails, each side is passed a prefix of what the
    other sent. *)
Theorem trojan_verdict_exact evs :
  let ds := taken false false evs in
  let t := tk_run evs tunnel_start in
  (total ds < 2 ^ 64)%Z →
  (reports t = 0 ∨ reports t = 1) ∧ (reports t = 1 ↔ reported ds) ∧
  to_server t `prefix_of` ups ds ∧ to_client t `prefix_of` downs ds.
Proof.
  intros ds t Hb. destruct (tk_run_taken evs tunnel_start) as (Hr & [k Hs] & [j Hc]).
  destruct (watch_start ds Hb) as [H1 H2]. unfold t. rewrite Hr, Hs, Hc. simpl.
  split_and!; [done|done|apply prefix_take|apply prefix_take].
Qed.

Lemma read_line_line l s :
  nl ∉ l → ascii_only l = true → read_line (l ++ nl :: s) = (Ok (l ++ [nl]), s).
Proof.
  intros Hn Ha. unfold read_line. rewrite find_here by (done || by apply not_eqc).
  replace (l ++ nl :: s) with ((l ++ [nl]) ++ s) by (by rewrite <- app_assoc).
  assert (S (length l) = length (l ++ [nl])) as -> by (rewrite length_app; simpl; lia).
  rewrite take_app_length, drop_app_length. rewrite utf8_valid_ascii; [done|].
  unfold ascii_only in *. by rewrite forallb_app, Ha.
Qed.

Lemma visible_facts w : Forall (fun b => visible b = true) w → nl ∉ w ∧ ascii_only w = true.
Proof.
  intros Hw. split.
  - intros Hn. rewrite Forall_forall in Hw. by specialize (Hw nl Hn).
  - apply forallb_forall. intros b Hb%list_elem_of_In. rewrite Forall_forall in Hw.
    specialize (Hw b Hb). unfold visible in Hw. apply andb_true_iff in Hw. apply Z.ltb_lt. lia.
Qed.

(** A header line is skipped. *)
Lemma skip_headers_line f l s :
  nl ∉ l → ascii_only l = true → l ≠ [] → l ≠ [cr] → skip_headers (S f) (l ++ nl :: s) = skip_headers f s.
Proof.
  intros Hn Ha Hne Hcr. rewrite skip_headers_S. rewrite (ioM_bind_run _ _ _ _ _ (read_line_line l s Hn Ha)).
  rewrite decide_False; [done|]. intros [H|[H|H]].
  - by destruct l.
  - apply (app_inj_2 l [cr] [nl] [nl]) in H as [H _]; done.
  - by apply (app_inj_2 l [] [nl] [nl]) in H as [H _].
Qed.

Lemma skip_headers_end f s : skip_headers (S f) ([cr; nl] ++ s) = (Ok tt, s).
Proof. rewrite skip_headers_S. by rewrite (ioM_bind_run _ _ _ _ _ (read_line_line [cr] s ltac:(set_solver) eq_refl)). Qed.

(** The client gets through the auditing proxy: the CONNECT request of
    [connect_via_mitm_proxy] is read back as a CONNECT to that authority, every
    byte behind it left for the tunnel, so the proxy connects and tunnels; and its
    reply is one the client accepts, every byte behind it left for the TLS
    handshake. *)
Theorem audit_proxy_accepts_client target rest more connect evs :
  Forall (fun b => visible b = true) target → target ≠ [] → connect target = Ok tt →
  read_request (connect_request target ++ rest) = (Ok (str "CONNECT", target), rest) ∧
  handle (connect_request target ++ rest) connect (Ok tt) evs = Ok (Tunnelled target (tk_run evs tunnel_start)) ∧
  connect_via_mitm_proxy target (established ++ more) = (Ok (connect_request target), more).
Proof.
  intros Hv Hne Hc. destruct (visible_facts target Hv) as [Hn Ha].
  assert (∀ a b, ascii_only a = true → ascii_only b = true → ascii_only (a ++ target ++ b) = true) as Hasc.
  { intros a b H1 H2. unfold ascii_only in *. by rewrite !forallb_app, H1, Ha, H2. }
  assert (∀ a b, nl ∉ a → nl ∉ b → nl ∉ a ++ target ++ b) as Hnl by (intros a b H1 H2; rewrite !elem_of_app; tauto).
  assert (read_request (connect_request target ++ rest) = (Ok (str "CONNECT", target), rest)) as Hr.
  { assert (connect_request target ++ rest =
      (str "CONNECT " ++ target ++ str " HTTP/1.1" ++ [cr]) ++ nl :: (str "Host: " ++ target ++ [cr]) ++ nl ::
      (str "Proxy-Connection: Keep-Alive" ++ [cr]) ++ nl :: [cr; nl] ++ rest) as ->
      by (unfold connect_request; cbv zeta; by rewrite <- !app_assoc).
    unfold read_request. erewrite ioM_bind_run
      by (apply read_line_line; [apply (Hnl (str "CONNECT ")); set_solver|by apply (Hasc (str "CONNECT "))]).
    rewrite decide_False by done.
    change (str "CONNECT " ++ target ++ str " HTTP/1.1" ++ [cr]) with (str "CONNECT" ++ " "%byte :: target ++ str " HTTP/1.1" ++ [cr]).
    rewrite <- (app_assoc (str "CONNECT")). cbn [app]. rewrite next_word_visible by (done || by repeat constructor).
    cbn iota beta.
    rewrite <- (app_assoc target), <- (app_assoc (str " HTTP/1.1")).
    change (str " HTTP/1.1" ++ [cr] ++ [nl]) with (" "%byte :: str "HTTP/1.1" ++ [cr] ++ [nl]).
    rewrite next_word_after_space by done. cbn [fst].
    erewrite ioM_bind_run; [reflexivity|]. unfold skip_all_headers.
    match goal with |- skip_headers _ ?x = _ => rewrite (skip_headers_fuel _ (3 + S (length x)) x) by lia end.
    cbn [plus]. rewrite skip_headers_line by (done || (apply Hnl; set_solver) || (apply (Hasc (str "Host: ")); done)).
    rewrite skip_headers_line by (done || set_solver). apply skip_headers_end. }
  split_and!; [done|unfold handle; by rewrite Hr, Hc|].
  unfold connect_via_mitm_proxy, established. rewrite <- app_assoc.
  change (str "HTTP/1.1 200 Connection established" ++ [cr; nl; cr; nl] ++ more)
    with ((str "HTTP/1.1 200 Connection established" ++ [cr]) ++ nl :: [cr; nl] ++ more).
  erewrite ioM_bind_run by (apply read_line_line; [vm_compute; set_solver|reflexivity]).
  match goal with |- context [starts_with ?p ?x] => change (starts_with p x) with true end. cbn [orb].
  erewrite ioM_bind_run by (unfold skip_all_headers; apply skip_headers_end). done.
Qed.

(** ** Witnesses *)

(** A Trojan-like exchange: 700 bytes up, 175 down, and up again. *)
Definition trojan_events : list tk_event :=
  [Up (Ok (str "hello")) Written; Down (Ok (str "world")) Written;
   Up (Ok (CCS ++ replicate 594 Byte.x61)) Written; Up (Ok (replicate 100 Byte.x61)) Written;
   Down (Ok (replicate 175 Byte.x62)) Written; Up (Ok (str "GET")) Written; Up (Ok []) Written].

Lemma trojan_verdict_exact_witness :
  (reports (tk_run trojan_events tunnel_start) = 1 ↔ reported (taken false false trojan_events)) ∧
  reports (tk_run trojan_events tunnel_start) = 1.
Proof.
  destruct (trojan_verdict_exact trojan_events) as (_ & H & _); [vm_compute; reflexivity|].
  split; [exact H|vm_compute; reflexivity].
Defined.

Definition demo_authority : bytes := str "[2001:db8::1]:8443".

Lemma audit_proxy_accepts_client_witness :
  read_request (connect_request demo_authority ++ str "tls") = (Ok (str "CONNECT", demo_authority), str "tls") ∧
  connect_via_mitm_proxy demo_authority established = (Ok (connect_request demo_authority), []).
Proof.
  destruct (audit_proxy_accepts_client demo_authority (str "tls") [] (fun _ => Ok tt) []) as (H1 & _ & H2).
  - repeat constructor.
  - discriminate.
  - reflexivity.
  - split; [exact H1|exact H2].
Defined.
