(* ===== verification/Programs.v ===== *)
(** * The two programs (bin/server.rs, bin/client.rs, src/src/client_runner.rs,
      src/src/node_api/mod.rs, src/src/util/retrieve_public_ip.rs)

    What happens around the components: [main] and [run] of the server and of the
    client up to their accept loops, the users file read at boot, the management
    listener, the printed share link and the address it advertises.  Files,
    sockets and HTTP answers are arguments. *)

From S2P Require Import Prelude RustStr Padding Client Users Api Panel Uot Server ParseUrl ClientRunner.
From Stdlib Require Import Strings.Byte.

(** ** [main]

    The worker's answer is that of joining its task, then its own; [ctrlc] is the
    answer of the signal handler when it fires first. *)
Definition server_main (ctrlc : option (result unit)) (worker : result (result unit)) : result unit :=
  match ctrlc with
  | None => match worker with Err e => Err e | Ok r => r end
  | Some (Err e) => Err e
  | Some (Ok _) => match worker with Err e => Err e | Ok _ => Ok tt end
  end.

Definition client_main (ctrlc : option unit) (worker : result (result unit)) : result unit :=
  match worker with Err e => Err e | Ok _ => Ok tt end.

(** ** The accept loops *)

Section accept.
  Context {Conn : Type}.

Inductive accept_event : Type :=
  | Cancelled
  | Accepted (c : Conn)
  | AcceptFails (e : io_error).

(** The server's: the connections it has spawned a handler for, and its result
    once it has ended; an error of [accept] is returned. *)
Fixpoint accept_loop (evs : list accept_event) : list Conn * option (result unit) :=
  match evs with
  | [] => ([], None)
  | Cancelled :: _ => ([], Some (Ok tt))
  | AcceptFails e :: _ => ([], Some (Err e))
  | Accepted c :: evs' => let '(cs, r) := accept_loop evs' in (c :: cs, r)
  end.

(** The management listener's: an error of [accept] is logged. *)
Fixpoint api_accept_loop (evs : list accept_event) : list Conn * bool :=
  match evs with
  | [] => ([], false)
  | Cancelled :: _ => ([], true)
  | AcceptFails _ :: evs' => api_accept_loop evs'
  | Accepted c :: evs' => let '(cs, r) := api_accept_loop evs' in (c :: cs, r)
  end.

(** The client's: cancelling closes the client, [closing] answers; the last
    component tells whether [close] was called. *)
Fixpoint runner_loop (closing : result unit) (evs : list accept_event) : list Conn * option (result unit) * bool :=
  match evs with
  | [] => ([], None, false)
  | Cancelled :: _ => ([], Some closing, true)
  | AcceptFails e :: _ => ([], Some (Err e), false)
  | Accepted c :: evs' => let '(cs, r, closed) := runner_loop closing evs' in (c :: cs, r, closed)
  end.
End accept.
Arguments accept_event : clear implicits.

(** ** The management listener and the users file *)

Definition no_bind : io_error := err_other (str "management API bind address not set").

Record ApiConfig : Type := mkApi { api_bind : option bytes; api_token : option bytes }.

(** [serve]: the address it listens on and the token its handlers check. *)
Definition serve (config : ApiConfig) (listen : bytes → result bytes) : result (bytes * option bytes) :=
  match api_bind config with
  | None => Err no_bind
  | Some bind => local_addr ← listen bind; Ok (local_addr, api_token config)
  end.

Section programs.
  Context `{Sha256, ApiCodec, Md5}.
  Context {Address : Type} `{!AddressCodec Address, !AddressText Address, !UrlLib, !UuidText}.

(** The requests of all connections, in the order in which they reach [route]. *)
Fixpoint serve_requests (token : option bytes) (reqs : list Api.Request) (r : Registry) : list Api.Response * Registry :=
  match reqs with
  | [] => ([], r)
  | req :: reqs' =>
      let '(a, r1) := route req token r in
      let '(rest, r2) := serve_requests token reqs' r1 in (a :: rest, r2)
  end.

Definition load_users_file (path : bytes) (content : result bytes) : result (list UserSpec) :=
  match content with
  | Err e => Err e
  | Ok c => match json_users c with
            | Some b => Ok (into_specs b)
            | None => Err (err_other (path ++ str ": invalid JSON"))
            end
  end.

(** ** The public address *)

Definition ipv4_urls : list bytes :=
  [str "https://api.ipify.org?format=text"; str "https://ifconfig.me"; str "https://icanhazip.com"; str "https://api-ipv4.ip.sb/ip"].
Definition ipv6_urls : list bytes :=
  [str "https://api6.ipify.org?format=text"; str "https://ipv6.icanhazip.com"; str "https://api-ipv6.ip.sb/ip"].

Definition looks_ipv4 (ip : bytes) : bool := contains "."%byte ip && negb (contains ":"%byte ip).
Definition looks_ipv6 (ip : bytes) : bool := contains ":"%byte ip.

Definition no_public_ip : io_error := err_other (str "Cannot retrieve public IP").

(** One of the two loops: [get] is the text a URL answers with, if it does. *)
Fixpoint ask_urls (get : bytes → option bytes) (parse_ip : bytes → result bytes) (accept : bytes → bool) (urls : list bytes)
  : option (result bytes) :=
  match urls with
  | [] => None
  | url :: urls' =>
      match get url with
      | Some text =>
          let ip := trim text in
          if accept ip then Some (map_err (fun e => err_other (err_msg e)) (parse_ip ip))
          else ask_urls get parse_ip accept urls'
      | None => ask_urls get parse_ip accept urls'
      end
  end.

Definition retrieve_public_ip (get : bytes → option bytes) (parse_ip : bytes → result bytes) : result bytes :=
  match ask_urls get parse_ip looks_ipv4 ipv4_urls with
  | Some r => r
  | None => match ask_urls get parse_ip looks_ipv6 ipv6_urls with Some r => r | None => Err no_public_ip end
  end.

(** ** The server's [run] *)

(** The arguments [run] reads besides those of [startup]. *)
Record ServerArgs : Type := mkServerArgs {
  sa_args : Args;
  sa_print_args : bool;
  sa_print_url : bool;
  sa_listen_port : Z;
  sa_sni : option bytes;
  sa_padding_scheme : option bytes;
}.

Definition panel_link : bytes := str "Cannot print AnyTLS URL when panel sync is enabled".
Definition link_password : bytes := str "Password is required to print AnyTLS URL".

(** [address] is [SocketAddr::new(ip, port).into()]. *)
Definition link_config (address : bytes → Z → Address) (a : ServerArgs) (password ip : bytes) : ClientRuntimeConfig Address :=
  mkRuntime (address ip (sa_listen_port a)) password (sa_sni a) None false None.

Definition print_anytls_url (address : bytes → Z → Address) (public_ip : result bytes) (a : ServerArgs) : result bytes :=
  if panel_sync_enabled (sa_args a) then Err (err_other panel_link)
  else
    let password := default [] (a_password (sa_args a)) in
    if decide (password = []) then Err (err_other link_password)
    else ip ← public_ip; Ok (config_to_link (link_config address a password ip)).

(** Where [run] gets to. *)
Inductive ServerRun : Type :=
  | PrintedArgs (ip : bytes) (port : Z)
  | PrintedUrl (link : bytes)
  | RunFails (message : bytes)
  | ExitsWithOne
  | Serving (auth : Authenticator) (registry : Registry) (api_token : option (option bytes)) (panel : bool).

(** [public_ip] is asked for when a branch needs it; [read] reads a file, [api]
    is the answer of [serve], [tls] and [listen] of the certificate and of the
    listening socket.  The second component is the process-wide padding. *)
Definition server_run (address : bytes → Z → Address) (public_ip : result bytes) (read : bytes → result bytes)
    (env_token : option bytes) (api : option bytes → result unit) (tls listen : result unit)
    (a : ServerArgs) (padding : option PaddingFactory) : ServerRun * option PaddingFactory :=
  if sa_print_args a then
    (match public_ip with Err e => RunFails (err_msg e) | Ok ip => PrintedArgs ip (sa_listen_port a) end, padding)
  else if sa_print_url a then
    (match print_anytls_url address public_ip a with Err e => RunFails (err_msg e) | Ok link => PrintedUrl link end, padding)
  else
    match startup (sa_args a) (fun path => load_users_file path (read path)) env_token api with
    | StartFails m => (RunFails m, padding)
    | Exits => (ExitsWithOne, padding)
    | Starts auth registry token =>
        let finish padding' :=
          match (_ ← tls; listen) with
          | Err e => (RunFails (err_msg e), padding')
          | Ok _ => (Serving auth registry token (panel_sync_enabled (sa_args a)), DefaultPaddingFactory_load padding')
          end in
        match sa_padding_scheme a with
        | None => finish padding
        | Some path =>
            match read path with
            | Err e => (RunFails (err_msg e), padding)
            | Ok content =>
                let '(ok, padding') := DefaultPaddingFactory_update padding content in
                if ok then finish padding' else (ExitsWithOne, padding')
            end
        end
    end.

(** ** The client's [run] and [runner_execute] *)

Record RunArgs : Type := mkRunArgs {
  ra_client : ClientArgs Address;
  ra_listen_is_proxy : bool;          (** the listen URL is SOCKS5 or HTTP *)
  ra_print_url : bool;
  ra_padding_scheme : option bytes;
}.

Definition listen_type : io_error :=
  IoError InvalidInput (str "Only SOCKS5 or HTTP (both mixed actually) proxy type is supported for listen address").
Definition wrong_padding (path : bytes) : io_error := IoError InvalidInput (str "Wrong format padding scheme file: " ++ path).

(** [load] never fails, the built-in scheme parses ([load_ok]): this is never used. *)
Definition no_factory : PaddingFactory := mkPadding ∅ [] 0 [].

(** [runner_execute] up to its loop: the client it serves with; times in seconds.
    [None] is a panic inside the link parser. *)
Definition runner_execute (read : bytes → result bytes) (tls listen : result unit) (a : RunArgs) (padding : option PaddingFactory)
  : option (result Client * option PaddingFactory) :=
  match resolve_client_config (ra_client a) with
  | None => None
  | Some (Err e) => Some (Err e, padding)
  | Some (Ok config) =>
      let finish (padding' : option PaddingFactory) : result Client * option PaddingFactory :=
        match tls with
        | Err e => (Err e, padding')
        | Ok _ =>
            let loaded := DefaultPaddingFactory_load padding' in
            (_ ← listen; Ok (Client_new (default no_factory loaded) 30 5 (Z.to_nat (max_streams (ra_client a)))), loaded)
        end in
      Some match ra_padding_scheme a with
      | None => finish padding
      | Some path =>
          match read path with
          | Err e => (Err e, padding)
          | Ok content =>
              let '(ok, padding') := DefaultPaddingFactory_update padding content in
              if ok then finish padding' else (Err (wrong_padding path), padding')
          end
      end
  end.

(** ** The client's TLS configuration *)

(** What a server certificate is checked against: root certificates, or nothing
    ([AllowAnyCertVerifier]). *)
Inductive Verifier : Type := Roots (roots : list bytes) | AllowAny.

Definition no_roots : io_error := IoError InvalidInput (str "No root certificates available for TLS verification").

(** [pem] reads the certificates of a PEM file, [native] are the system's; [add]
    answers for each certificate put into the store. *)
Definition create_tls_config (pem : bytes → result (list bytes)) (native : list bytes) (add : bytes → result unit)
    (root_cert : option bytes) (insecure : bool) : result Verifier :=
  if insecure then Ok AllowAny
  else
    certs ← match root_cert with Some path => pem path | None => Ok native end;
    _ ← foldr (fun c (r : result unit) => _ ← add c; r) (Ok tt) certs;
    if decide (certs = []) then Err no_roots else Ok (Roots certs).

(** [verify_server_cert]: [check] is rustls's verification against roots. *)
Definition verify_server_cert (check : list bytes → bytes → bool) (v : Verifier) (cert : bytes) : bool :=
  match v with Roots roots => check roots cert | AllowAny => true end.

Inductive ClientRun : Type := ClientPrinted (link : bytes) | ClientFails (e : io_error) | ClientServing (c : Client).

Definition client_run (read : bytes → result bytes) (tls listen : result unit) (a : RunArgs) (padding : option PaddingFactory)
  : option (ClientRun * option PaddingFactory) :=
  match resolve_client_config (ra_client a) with
  | None => None
  | Some (Err e) => Some (ClientFails e, padding)
  | Some (Ok config) =>
      if negb (ra_listen_is_proxy a) then Some (ClientFails listen_type, padding)
      else if ra_print_url a then Some (ClientPrinted (config_to_link config), padding)
      else
        '(r, padding') ← runner_execute read tls listen a padding;
        Some (match r with Ok c => ClientServing c | Err e => ClientFails e end, padding')
  end.
End programs.
Arguments RunArgs : clear implicits.

(** ** Lemmas *)

(** A link whose authority holds no percent sign is left to the [url] crate. *)
Lemma zone_url_no_percent A rest :
  (∀ b, b ∈ A → b ∉ str "/?#%") → (rest = [] ∨ ∃ t, rest = "/"%byte :: t) →
  is_anytls_ipv6_zone_url (SCHEME ++ A ++ rest) = false.
Proof.
  intros HA Hrest. unfold is_anytls_ipv6_zone_url.
  assert (strip_prefix SCHEME (SCHEME ++ A ++ rest) = Some (A ++ rest)) as -> by (by apply strip_prefix_spec).
  change (default ?x (Some (A ++ rest))) with (A ++ rest). cbv zeta. assert (Forall (fun b => any_of (str "/?#") b = false) A) as Hf.
  { apply not_any. intros b Hb Hin. apply (HA b Hb).
    clear Hb. revert b Hin. apply (each_char (fun b => b ∈ str "/?#%")). by vm_compute. }
  assert (take (default (length (A ++ rest)) (find (any_of (str "/?#")) (A ++ rest))) (A ++ rest) = A) as ->.
  { destruct Hrest as [->|[t ->]].
    - rewrite app_nil_r, find_none by done. apply firstn_all.
    - rewrite find_here by done. apply take_app_length. }
  assert ("%"%byte ∉ A) as Hp by (intros Hp; apply (HA _ Hp); by apply (bool_decide_unpack _)).
  assert (∀ x, (∀ b, b ∈ x → b ∈ A) → contains "%"%byte x = false) as Hsub.
  { intros x Hx. apply bool_decide_eq_false_2. intros Hb. by apply Hp, Hx. }
  assert (∀ x, (∀ b, b ∈ x → b ∈ A) → match find (eqc "["%byte) x with
    | None => false
    | Some host_start => match find (eqc "]"%byte) (drop host_start x) with
        | None => false | Some n => contains "%"%byte (take n (drop host_start x)) end end = false) as Hfin.
  { intros x Hx. destruct (find _ x) as [i|]; [|done]. destruct (find _ (drop i x)) as [j|]; [|done].
    apply Hsub. intros b Hb. apply Hx. eapply subseteq_drop, subseteq_take, Hb. }
  destruct (rfind "@"%byte A) as [i|]; apply Hfin; [|done]. intros b Hb. by eapply subseteq_drop.
Qed.

Section program_lemmas.
  Context {Address : Type} `{!AddressCodec Address, !AddressText Address, !UrlLib, !UuidText}.

(** What the crates document about a printed link: [url] takes it apart again,
    [form_urlencoded] undoes itself, and the address is what its text says. *)
Record link_readable (c : ClientRuntimeConfig Address) : Prop := mkReadable {
  lr_host : addr_host (rc_server c) ≠ [] ∧ ∀ b, b ∈ addr_host (rc_server c) → b ∉ str "/?#%[]@";
  lr_port : in_u 16 (addr_port (rc_server c));
  lr_ipv6 : addr_is_ipv6 (rc_server c) = contains ":"%byte (addr_host (rc_server c));
  lr_server : (if contains ":"%byte (addr_host (rc_server c)) then bracket_server (addr_host (rc_server c)) (addr_port (rc_server c))
               else of_host_port (addr_host (rc_server c)) (addr_port (rc_server c))) = rc_server c;
  lr_plain : rc_password c ≠ [] ∧ utf8_percent_encode USERINFO_ENCODE_SET (rc_password c) = rc_password c ∧
             ∀ b, b ∈ rc_password c → b ∉ str "/?#%:@";
  lr_query : form_parse (form_serialize (link_pairs c)) = link_pairs c;
  lr_url : url_parse (config_to_link c) =
    Ok (mkUrl (str "anytls") (Some (link_host (rc_server c)))
          (if decide (addr_port (rc_server c) = 443%Z) then None else Some (addr_port (rc_server c)))
          (rc_password c) None
          (if decide (form_serialize (link_pairs c) = []) then None else Some (form_serialize (link_pairs c))) None);
}.

(** The host as the parser gets it back. *)
Lemma link_host_unbracketed (c : ClientRuntimeConfig Address) :
  link_readable c →
  default (link_host (rc_server c)) (strip_prefix (str "[") (link_host (rc_server c)) ≫= strip_suffix (str "]"))
    = addr_host (rc_server c).
Proof.
  intros Hc. destruct (lr_host _ Hc) as [Hne Hh]. unfold link_host.
  assert (contains "%"%byte (addr_host (rc_server c)) = false) as ->
    by (apply bool_decide_eq_false_2; intros Hb; apply (Hh _ Hb); by apply (bool_decide_unpack _)).
  rewrite (lr_ipv6 _ Hc), orb_diag. destruct (contains ":"%byte (addr_host (rc_server c))) eqn:Ec.
  - rewrite (proj2 (strip_prefix_spec (str "[") _ (addr_host (rc_server c) ++ str "]"))) by done. simpl.
    by rewrite (proj2 (strip_suffix_spec (str "]") _ (addr_host (rc_server c)))).
  - destruct (addr_host (rc_server c)) as [|b h]; [done|].
    assert (b ≠ "["%byte) by (intros ->; apply (Hh "["%byte); [left|by apply (bool_decide_unpack _)]).
    simpl. by rewrite decide_False by congruence.
Qed.

Lemma authority_chars (c : ClientRuntimeConfig Address) b :
  link_readable c → b ∈ link_authority (rc_server c) → b ∉ str "/?#%".
Proof.
  intros Hc. destruct (lr_host _ Hc) as [_ Hh].
  assert (∀ x, x ∈ str "/?#%" → x ∈ str "/?#%[]@") as Hmore
    by (apply (each_char (fun x => x ∈ str "/?#%[]@")); by vm_compute).
  assert (∀ x, x ∈ str "[]:" → x ∉ str "/?#%") as Hbr by (apply (each_char (fun x => x ∉ str "/?#%")); by vm_compute).
  assert (∀ x, x ∈ link_host (rc_server c) → x ∉ str "/?#%") as Hhost.
  { intros x. unfold link_host.
    assert (contains "%"%byte (addr_host (rc_server c)) = false) as ->
      by (apply bool_decide_eq_false_2; intros Hb; apply (Hh _ Hb); by apply (bool_decide_unpack _)).
    assert (x ∈ addr_host (rc_server c) → x ∉ str "/?#%") as Hx by (intros Hx Hs; by apply (Hh x Hx), Hmore).
    case_match; [|done]. rewrite !elem_of_app. intros [Hb|[Hb|Hb]]; [|by apply Hx|]; apply Hbr; clear Hx; revert x Hb;
      apply (each_char (fun x => x ∈ str "[]:")); by vm_compute. }
  unfold link_authority. case_decide; [apply Hhost|]. rewrite !elem_of_app. intros [Hb|[Hb|Hb]]; [by apply Hhost| |].
  - apply Hbr. revert b Hb. apply (each_char (fun x => x ∈ str "[]:")). by vm_compute.
  - pose proof (to_dec_digits (addr_port (rc_server c)) ltac:(destruct (lr_port _ Hc); lia)) as Hd.
    rewrite Forall_forall in Hd. specialize (Hd b Hb). clear Hb. revert b Hd.
    apply (each_char (fun x => x ∉ str "/?#%")). by vm_compute.
Qed.

(** A readable link without flags or identifier parses back. *)
Lemma link_parses (c : ClientRuntimeConfig Address) :
  link_readable c → rc_client_id c = None → rc_insecure c = false → rc_display_name c = None →
  parse_anytls_url (config_to_link c) = Some (Ok c).
Proof.
  intros Hc Hid Hins Hname. destruct (lr_plain _ Hc) as (Hpne & Henc & Hpw). destruct (lr_host _ Hc) as [Hhne Hh].
  unfold parse_anytls_url.
  assert (is_anytls_ipv6_zone_url (config_to_link c) = false) as ->.
  { unfold config_to_link. rewrite decide_False by done. rewrite Henc, Hname, app_nil_r.
    rewrite (app_assoc (rc_password c ++ str "@")). apply zone_url_no_percent.
    - intros b. rewrite elem_of_app. intros [Hb|Hb]; [|by apply (authority_chars c)].
      apply elem_of_app in Hb as [Hb|Hb]; [|revert b Hb; apply (each_char (fun b => b ∉ str "/?#%")); by vm_compute].
      intros Hx. apply (Hpw b Hb). clear Hb. revert b Hx. apply (each_char (fun b => b ∈ str "/?#%:@")). by vm_compute.
    - case_decide; [by left|right]. by eexists. }
  rewrite (lr_url _ Hc). cbn [mbind result_bind]. rewrite decide_True by done. cbn [u_host_str u_port u_username u_query u_fragment].
  rewrite link_host_unbracketed by done. rewrite (decide_False (P := rc_password c = [])) by done.
  assert (default 443%Z (if decide (addr_port (rc_server c) = 443%Z) then None else Some (addr_port (rc_server c)))
          = addr_port (rc_server c)) as -> by (case_decide; simpl; congruence).
  rewrite (lr_server _ Hc).
  assert (default [] (if decide (form_serialize (link_pairs c) = []) then None else Some (form_serialize (link_pairs c)))
          = form_serialize (link_pairs c)) as -> by (case_decide; simpl; congruence).
  unfold build_client_runtime_config. rewrite (lr_query _ Hc).
  destruct c as [srv pw sni id ins name]. simpl in *. subst. by destruct sni.
Qed.
End program_lemmas.

Section run_lemmas.
  Context `{Sha256, ApiCodec, Md5}.
  Context {Address : Type} `{!AddressCodec Address, !AddressText Address, !UrlLib, !UuidText}.

Lemma server_run_serving (address : bytes → Z → Address) public_ip read env_token api tls listen a padding auth r tok panel padding' :
  server_run address public_ip read env_token api tls listen a padding = (Serving auth r tok panel, padding') →
  startup (sa_args a) (fun path => load_users_file path (read path)) env_token api = Starts auth r tok ∧
  panel = panel_sync_enabled (sa_args a).
Proof.
  unfold server_run. destruct (sa_print_args a); [by destruct public_ip|].
  destruct (sa_print_url a); [by destruct (print_anytls_url address public_ip a)|].
  destruct (startup _ _ _ _) as [| |au re to]; try done.
  assert (∀ pad pad', match (_ ← tls; listen) with
    | Err e => (RunFails (err_msg e), pad)
    | Ok _ => (Serving au re to (panel_sync_enabled (sa_args a)), DefaultPaddingFactory_load pad)
    end = (Serving auth r tok panel, pad') → Starts au re to = Starts auth r tok ∧ panel = panel_sync_enabled (sa_args a)) as Hf.
  { intros pad pad'. destruct (_ ← tls; listen); [|done]. by intros [= -> -> -> ->]. }
  destruct (sa_padding_scheme a) as [path|]; [|by apply Hf]. destruct (read path) as [content|]; [|done].
  destruct (DefaultPaddingFactory_update padding content) as [[] pad]; [by apply Hf|done].
Qed.

Lemma startup_from_file a load env_token api auth r tok path :
  startup a load env_token api = Starts auth r tok → a_users_file a = Some path →
  auth = ByUser ∧ panel_sync_enabled a = false ∧ ∃ specs, load path = Ok specs ∧ r = with_users specs.
Proof.
  intros Hs Hf. unfold startup in Hs. case_decide; [done|]. cbv zeta in Hs.
  assert (multi_user_enabled a = true) as Hm by (unfold multi_user_enabled; rewrite Hf; by rewrite bool_decide_eq_true_2).
  rewrite Hm, Hf in Hs. case_match; [done|]. rewrite andb_false_r in Hs. cbn [andb] in Hs.
  destruct (panel_sync_enabled a); [done|]. destruct (load path) as [specs|]; [|done].
  case_match; [|done]. simplify_eq. split_and!; [done|done|]. by exists specs.
Qed.

Definition default_load_ok (pad : option PaddingFactory) : Prop := ∃ pf, DefaultPaddingFactory_load pad = Some pf.

Lemma load_ok pad : default_load_ok pad.
Proof. destruct pad as [pf|]; [by exists pf|]. destruct default_is_some as (pf & Hpf & _). by exists pf. Qed.

Lemma client_run_serving read tls listen (a : RunArgs Address) padding c padding' :
  client_run read tls listen a padding = Some (ClientServing c, padding') →
  ∃ pf, c = Client_new pf 30 5 (Z.to_nat (max_streams (ra_client a))) ∧ padding' = Some pf ∧
    ∀ path, ra_padding_scheme a = Some path → ∃ content, read path = Ok content ∧ PaddingFactory_new content = Some pf.
Proof.
  unfold client_run, runner_execute. destruct (resolve_client_config (ra_client a)) as [[config|e]|]; try done.
  destruct (ra_listen_is_proxy a), (ra_print_url a); cbn [negb]; try done.
  set (mx := Z.to_nat (max_streams (ra_client a))).
  assert (∀ pad, default_load_ok pad → ('(r, p') ← Some (match tls with
      | Err e => (Err e, pad)
      | Ok _ => (_ ← listen; Ok (Client_new (default no_factory (DefaultPaddingFactory_load pad)) 30 5 mx), DefaultPaddingFactory_load pad)
      end); Some (match r with Ok c => ClientServing c | Err e => ClientFails e end, p')) = Some (ClientServing c, padding') →
    ∃ pf, c = Client_new pf 30 5 mx ∧ padding' = Some pf ∧ DefaultPaddingFactory_load pad = Some pf) as Hf.
  { intros pad [pf Hpf]. rewrite Hpf. destruct tls; [|done]. destruct listen; [|done]. simpl. intros [= <- <-]. by exists pf. }
  destruct (ra_padding_scheme a) as [path|].
  - destruct (read path) as [content|] eqn:Er; [|done]. unfold DefaultPaddingFactory_update.
    destruct (PaddingFactory_new content) as [pf|] eqn:En; [|done]. intros Hrun.
    destruct (Hf _ (load_ok (Some pf)) Hrun) as (pf' & -> & -> & [= ->]). exists pf'. split_and!; [done|done|].
    intros ? [= <-]. by exists content.
  - intros Hrun. destruct (Hf _ (load_ok padding) Hrun) as (pf & -> & -> & _). by exists pf.
Qed.
End run_lemmas.

(** ** Theorems *)

Section program_theorems.
  Context `{Sha256, ApiCodec, Md5}.
  Context {Address : Type} `{!AddressCodec Address, !AddressText Address, !UrlLib, !UuidText}.

(** The client's command line with nothing but a link. *)
Definition only_url (link : bytes) : ClientArgs Address := mkClientArgs (Some link) None None None None None false 5.


(** C39. A users file boots the node into the same state as pushing it: when the
    server starts from a file, its registry is the one an empty node has after a
    [PUT /users] of the very bytes of the file, answered with their number. *)
Theorem boot_file_equals_push (address : bytes → Z → Address) public_ip read env_token api tls listen a padding auth r tok panel padding' path :
  server_run address public_ip read env_token api tls listen a padding = (Serving auth r tok panel, padding') →
  a_users_file (sa_args a) = Some path →
  auth = ByUser ∧ panel = false ∧
  ∃ content, read path = Ok content ∧
    ∀ (req : Api.Request) token, Api.method req = PUT → Api.path req = str "/users" → authorized req token = true → Api.body req = Ok content →
      (default u64_max (body_upper req) ≤ MAX_BODY_BYTES)%Z →
      route req token Registry_new = (Api.mkResponse 200 (UsersBody (size (by_email r))), r).
Proof.
  intros Hrun Hfile. destruct (server_run_serving _ _ _ _ _ _ _ _ _ _ _ _ _ _ Hrun) as [Hstart ->].
  destruct (startup_from_file _ _ _ _ _ _ _ _ Hstart Hfile) as (-> & -> & specs & Hload & ->).
  split_and!; [done|done|]. unfold load_users_file in Hload. destruct (read path) as [content|]; [|done].
  exists content. split; [done|]. destruct (json_users content) as [b|] eqn:Ej; [|done]. apply Ok_inj in Hload as <-.
  intros req token Hm Hp Ha Hb Hu. unfold route. rewrite Ha, Hm, Hp, Hb, Ej. simpl.
  rewrite (proj2 (Z.ltb_ge _ _)) by lia. done.
Qed.

(** An error of [accept] ends the programs but not the management API: the
    server and the client have served the connections before it and then return
    it, the client without closing its sessions, so no later connection is
    accepted; the management listener serves every connection up to the
    cancellation, whatever fails in between. *)
Theorem accept_errors {Conn : Type} (cs : list Conn) e rest evs closing :
  accept_loop ((Accepted <$> cs) ++ AcceptFails e :: rest) = (cs, Some (Err e)) ∧
  runner_loop closing ((Accepted <$> cs) ++ AcceptFails e :: rest) = (cs, Some (Err e), false) ∧
  (Cancelled ∉ evs →
    (api_accept_loop (evs ++ Cancelled :: rest)).1 = omap (fun x => if x is Accepted c then Some c else None) evs ∧
    (api_accept_loop (evs ++ Cancelled :: rest)).2 = true ∧ (api_accept_loop evs).2 = false).
Proof.
  split_and!.
  - induction cs as [|c cs IH]; [done|]. rewrite fmap_cons. cbn [app accept_loop runner_loop]. by rewrite IH.
  - induction cs as [|c cs IH]; [done|]. rewrite fmap_cons. cbn [app accept_loop runner_loop]. by rewrite IH.
  - induction evs as [|[|c|e'] evs IH]; [done| | |]; rewrite not_elem_of_cons; intros [Hne Hin]; [done| |by apply IH].
    destruct (IH Hin) as (H1' & H2' & H3'). simpl.
    destruct (api_accept_loop (evs ++ _)) as [l b], (api_accept_loop evs) as [l' b']. simpl in *. by subst.
Qed.

(** The acceptable answers, in the order in which they are asked for. *)
Definition candidates (get : bytes → option bytes) : list bytes :=
  omap (fun u => get u ≫= fun t => if looks_ipv4 (trim t) then Some (trim t) else None) ipv4_urls ++
  omap (fun u => get u ≫= fun t => if looks_ipv6 (trim t) then Some (trim t) else None) ipv6_urls.

(** The public address is the first acceptable answer: the IPv4 services come
    first, services that fail or answer with something else are skipped, but an
    answer of the right shape that is no address ends the search with an error,
    later services unasked. *)
Theorem public_ip_first get parse_ip :
  retrieve_public_ip get parse_ip =
    match head (candidates get) with
    | Some ip => map_err (fun e => err_other (err_msg e)) (parse_ip ip)
    | None => Err no_public_ip
    end.
Proof.
  assert (∀ accept urls, ask_urls get parse_ip accept urls =
    (fun ip => map_err (fun e => err_other (err_msg e)) (parse_ip ip)) <$>
    head (omap (fun u => get u ≫= fun t => if accept (trim t) then Some (trim t) else None) urls)) as Hask.
  { intros accept urls. induction urls as [|u urls IH]; [done|]. cbn [ask_urls]. cbn [omap list_omap].
    destruct (get u) as [t|]; simpl; [|exact IH]. destruct (accept (trim t)); [done|exact IH]. }
  unfold retrieve_public_ip, candidates. rewrite !Hask.
  rewrite head_app. by repeat match goal with |- context [head ?l] => destruct (head l); simpl end.
Qed.

(** A client that starts serving has no session yet, streams limited to one per
    session unless multiplexing was asked for, and the process-wide padding: the
    scheme file's when there is one. *)
Theorem client_starts_fresh read tls listen (a : RunArgs Address) padding c padding' :
  client_run read tls listen a padding = Some (ClientServing c, padding') →
  active_sessions c = [] ∧ idle_sessions c = [] ∧ closed_flag c = false ∧ 1 ≤ max_streams_per_session c ∧
  (ca_multiplexing (ra_client a) = false → max_streams_per_session c = 1) ∧
  padding' = Some (client_padding c) ∧
  ∀ path, ra_padding_scheme a = Some path → ∃ content, read path = Ok content ∧ PaddingFactory_new content = Some (client_padding c).
Proof.
  intros (pf & -> & -> & Hfile)%client_run_serving. simpl. split_and!; [done|done|done|lia| |done|].
  - intros Hm. unfold max_streams. by rewrite Hm.
  - exact Hfile.
Qed.

(** The client checks the server's certificate unless it was told not to: with
    neither [--insecure] nor [insecure=1] in a link, a configuration is only built
    from a non-empty set of roots (those of the given file, else the system's, each
    accepted by the store), and a certificate those roots do not vouch for is
    refused; without roots there is no configuration. *)
Theorem certificates_checked pem native add check (args : ClientArgs Address) config root_cert v :
  resolve_client_config args = Some (Ok config) →
  create_tls_config pem native add root_cert (rc_insecure config) = Ok v →
  ca_insecure args = Some false ∨ (ca_insecure args = None ∧ ca_url args = None) →
  ∃ roots, v = Roots roots ∧ roots ≠ [] ∧ Forall (fun c => add c = Ok tt) roots ∧
    match root_cert with Some path => pem path = Ok roots | None => roots = native end ∧
    ∀ cert, check roots cert = false → verify_server_cert check v cert = false.
Proof.
  intros Hres Htls Hins.
  assert (rc_insecure config = false) as Hi.
  { revert Hres. unfold resolve_client_config. destruct Hins as [Hi|[Hi Hu]].
    - destruct (match ca_url args with Some url => parse_anytls_url url | None => _ end) as [[base|]|]; [|done..].
      cbv zeta. case_decide; [done|]. intros [= <-]. simpl. by rewrite Hi.
    - rewrite Hu. cbv zeta. case_decide; [done|]. intros [= <-]. simpl. by rewrite Hi. }
  rewrite Hi in Htls. unfold create_tls_config in Htls.
  destruct (match root_cert with Some path => pem path | None => Ok native end) as [certs|] eqn:Ec; [|done]. cbn [mbind result_bind] in Htls.
  assert (∀ u, foldr (fun c (r : result unit) => _ ← add c; r) (Ok tt) certs = Ok u → Forall (fun c => add c = Ok tt) certs) as Hadd.
  { clear. induction certs as [|c cs IH]; intros u; simpl; [constructor|]. destruct (add c) as [[]|] eqn:Ea; [|done].
    intros Hf. constructor; [done|]. by eapply IH. }
  destruct (foldr _ _ certs) as [u|]; [|done]. simpl in Htls. case_decide as Hne; [done|]. injection Htls as <-.
  exists certs. split_and!; [done|done|by eapply Hadd|destruct root_cert; [done|by injection Ec]|done].
Qed.
End program_theorems.

(** ** Witnesses *)

Definition plain_args : Args := mkArgs (Some (str "letmein")) None None None None None None None None.
Definition file_args : Args := mkArgs None None None None None None (Some (str "users.json")) None None.
Definition print_args : ServerArgs := mkServerArgs plain_args false true 443 None None.
Definition boot_args : ServerArgs := mkServerArgs file_args false false 443 None None.
Definition demo_read (path : bytes) : result bytes := Ok (str "alice").

#[local] Existing Instance toy_sha256.
#[local] Existing Instance toy_codec.
#[local] Existing Instance toy_md5.


Definition booted : Registry := with_users [mkSpec (str "alice") (str "alice") 0 0].

Lemma boot_file_equals_push_witness :
  route (Api.mkRequest PUT (str "/users") None (Some 5%Z) (Ok (str "alice"))) None Registry_new
    = (Api.mkResponse 200 (UsersBody 1), booted).
Proof.
  destruct (boot_file_equals_push (Address := SocksAddress) SocksDomain (Ok []) demo_read None (fun _ => Ok tt) (Ok tt) (Ok tt)
    boot_args None ByUser booted None false PaddingFactory_default (str "users.json")) as (_ & _ & content & Hc & Hroute).
  - reflexivity.
  - reflexivity.
  - injection Hc as <-. rewrite Hroute; [vm_compute; reflexivity..|vm_compute; discriminate].
Defined.

Lemma accept_errors_witness :
  accept_loop [Accepted 1; AcceptFails early_eof; Accepted 2] = ([1], Some (Err early_eof)) ∧
  (api_accept_loop [Accepted 1; AcceptFails early_eof; Accepted 2; Cancelled]).1 = [1; 2].
Proof.
  destruct (accept_errors [1] early_eof [Accepted 2] [Accepted 1; AcceptFails early_eof; Accepted 2] (Ok tt)) as (H1 & _ & _).
  destruct (accept_errors [1] early_eof [] [Accepted 1; AcceptFails early_eof; Accepted 2] (Ok tt)) as (_ & _ & H2).
  split; [exact H1|]. apply H2. rewrite !not_elem_of_cons. split_and!; try discriminate. apply not_elem_of_nil.
Defined.

Definition demo_run : RunArgs SocksAddress :=
  mkRunArgs (mkClientArgs None (Some (SocksDomain (str "s.example") 443)) None None None None false 5) true false None.

Definition demo_client : Client := Client_new (default no_factory PaddingFactory_default) 30 5 1.

Lemma client_starts_fresh_witness : max_streams_per_session demo_client = 1.
Proof.
  destruct (client_starts_fresh demo_read (Ok tt) (Ok tt) demo_run None demo_client PaddingFactory_default) as (_ & _ & _ & _ & H & _).
  - reflexivity.
  - apply H. reflexivity.
Defined.

Lemma certificates_checked_witness :
  verify_server_cert (fun roots cert => bool_decide (cert ∈ roots)) (Roots [str "ca"]) (str "other") = false.
Proof.
  destruct (certificates_checked (Address := SocksAddress) (fun _ => Ok []) [str "ca"] (fun _ => Ok tt)
    (fun roots cert => bool_decide (cert ∈ roots)) (ra_client demo_run)
    (mkRuntime (SocksDomain (str "s.example") 443) [] None None false None) None (Roots [str "ca"])) as (roots & [= <-] & _ & _ & _ & H).
  - vm_compute. reflexivity.
  - reflexivity.
  - right. split; reflexivity.
  - apply H. vm_compute. reflexivity.
Defined.
