(* ===== verification/EndToEnd.v ===== *)
(** * From the SOCKS client to the target and back

    The whole path of a TCP connection: what the client program writes to its
    stream ([ClientRunner]), the two sessions ([Connection]), what the server's
    handler makes of the bytes it reads and what its relay hands on ([Relay]).
    And below it: the TLS connection from the client's authentication block to the
    frames its session handles ([Server], [Writer], [Multiplex]). *)

From S2P Require Import Prelude RustStr StringMap Frame Padding Engine Pipe Writer Session Multiplex Connection Users Panel Server Uot Relay ClientRunner.
From Stdlib Require Import Strings.Byte.

Section tunnel.
  Context {O : IterOrder} {M : Md5} (Wc Ws : WriterPeer).
  Context {Address : Type} `{!AddressCodec Address, !AddressLaws Address}.

(** What the reader of stream [q] of a session has been handed. *)
Definition handed (W : WriterPeer) (q : nat) (tr : list (Session * slabel)) : bytes :=
  delivered (stream_trace (H1 := W) q tr).

(** The data behind the destination in what a SOCKS connection has written. *)
Definition socks_data (target : Address) (evs : list (result bytes * result nat)) : bytes :=
  drop (length (write_to_buf target)) (s5_upload target evs).1.

(** ** Lemmas *)

(** Parsing a first part of what was written: the destination, or nothing. *)
Lemma retrieve_prefix (target a : Address) got rest data :
  addr_wire target → got `prefix_of` write_to_buf target ++ data → retrieve_from_async_stream got = (Ok a, rest) →
  a = target ∧ got = write_to_buf target ++ rest ∧ rest `prefix_of` data.
Proof.
  intros Hw [k Hk] Hr. destruct (decide (length got < length (write_to_buf target))) as [Hl|Hl].
  - assert (got = take (length got) (write_to_buf target)) as Hg.
    { rewrite <- (take_app_le _ data) by lia. by rewrite Hk, take_app_length. }
    destruct (retrieve_cut target (length got) Hw Hl) as (e & s & He & _). rewrite <- Hg in He. congruence.
  - assert (got = write_to_buf target ++ drop (length (write_to_buf target)) got) as Hg.
    { rewrite <- (take_drop (length (write_to_buf target)) got) at 1. f_equal.
      rewrite <- (take_app_le got k) by lia. by rewrite <- Hk, take_app_length. }
    rewrite Hg, retrieve_write in Hr by done. injection Hr as <- <-. split_and!; [done|done|].
    exists k. apply (app_inv_head (write_to_buf target)). by rewrite app_assoc, <- Hg.
Qed.

Lemma s5_upload_data (target : Address) evs :
  (s5_upload target evs).1 = write_to_buf target ++ socks_data target evs.
Proof.
  unfold socks_data. assert (write_to_buf target `prefix_of` (s5_upload target evs).1) as [k Hk].
  { unfold s5_upload. generalize (write_to_buf target) as sent.
    induction evs as [|[[[|b d]|e] [n|e']] evs IH]; intros sent; simpl; try done.
    etrans; [apply prefix_app_r; reflexivity|apply IH]. }
  rewrite Hk. by rewrite drop_app_length.
Qed.

(** ** Theorems *)

(** C13. What a SOCKS client sends reaches the target it named, and nothing else
    does.  In any run of the two sessions of a connection, let the client program
    write to a stream what a SOCKS connection to [target] makes it write, and let
    the server's handler read the destination and relay what follows, in whatever
    pieces.  Then the destination it reads is [target], the target has received a
    first part of the SOCKS client's data, and that much has been counted; and
    when nobody on the server ended the stream and nothing is left on the way, the
    target has received all of it. *)
Theorem socks_upload_end_to_end pfc pfs tr x q o (target a : Address) evs rest ctx reads st st' :
  cruns Wc Ws (conn_start pfc pfs) tr x → ids_left tr → heap (sv x) !! q = Some o →
  quiet_trace (stream_trace (H1 := Ws) q (server_trace tr)) = true →
  addr_wire target → written_by (id o) (client_trace tr) `prefix_of` (s5_upload target evs).1 →
  retrieve_from_async_stream (handed Ws q (server_trace tr)) = (Ok a, rest) →
  nonempty_reads reads → concat (upload_data reads) `prefix_of` rest → s2o ctx (Ok tt) reads st = (None, st') →
  a = target ∧
  (∃ got, outbound st' = outbound st ++ got ∧ got `prefix_of` socks_data target evs ∧
     got = concat (upload_data reads) ∧ shared st' = count_up ctx (shared st) (upload_data reads)) ∧
  (Forall (undisturbed q) (server_trace tr) → written_by (id o) (client_trace tr) = (s5_upload target evs).1 →
   concat (upload_data reads) = rest →
   buffer (inner (pipe_at (sv x) q)) = [] → pending (pipe_at (sv x) q) = [] → psh (id o) (drop (Connection.up x) (tx (cl x))) = [] →
   outbound st' = outbound st ++ socks_data target evs).
Proof.
  intros Hr Hids Ho Hq Hw Hwr Hret Hne Hpre Hrun.
  destruct (upload_bytes Wc Ws pfc pfs tr x q o Hr Hids Ho Hq) as [H1 H2]. fold (handed Ws q (server_trace tr)) in H1, H2.
  destruct (s2o_running _ _ _ _ _ Hne Hrun) as (Hsh & Hout & _).
  rewrite s5_upload_data in Hwr.
  destruct (retrieve_prefix target a _ rest _ Hw (transitivity H1 Hwr) Hret) as (-> & Hgot & Hrest).
  split; [done|]. split.
  - exists (concat (upload_data reads)). split_and!; [done|by etrans|done|done].
  - intros Hu Hall Hcat Hb Hp Hc. destruct (H2 Hu) as [Heq _]. rewrite Hb, Hp, Hc, !app_nil_r in Heq.
    rewrite Hall, s5_upload_data, Hgot in Heq. apply app_inv_head in Heq. by rewrite Hout, Hcat, Heq.
Qed.

(** The bytes a run of the client's download loop has read from the stream. *)
Definition p2c_reads (evs : list (result bytes * WriteResult)) : bytes :=
  concat (omap (fun e => if e.1 is Ok d then Some d else None) evs).

Lemma p2c_prefix evs got : ∃ k, (p2c evs got).1 = got ++ take k (p2c_reads evs).
Proof.
  revert got. induction evs as [|[[[|b d]|e] w] evs IH]; intros got; simpl.
  - exists 0. by rewrite app_nil_r.
  - exists 0. by rewrite take_0, app_nil_r.
  - destruct w as [|n e].
    + destruct (IH (got ++ b :: d)) as [k ->]. exists (length (b :: d) + k).
      change (p2c_reads ((Ok (b :: d), Written) :: evs)) with ((b :: d) ++ p2c_reads evs).
      by rewrite take_app_add, app_assoc.
    + exists (n `min` length (b :: d)). change (p2c_reads ((Ok (b :: d), WriteFailed n e) :: evs)) with ((b :: d) ++ p2c_reads evs).
      rewrite take_app_le by lia. cbn [fst]. by rewrite <- take_take, firstn_all.
  - exists 0. by rewrite take_0, app_nil_r.
Qed.

(** C14. And back: what a SOCKS client receives is what its target sent, in order
    and from the beginning.  When the server's relay writes to the stream what it
    read from the target, and the client's relay writes to the SOCKS client what
    it reads from the stream, the SOCKS client has, at any time and whatever
    fails, a first part of the target's data. *)
Theorem socks_download_end_to_end pfc pfs tr x q o ctx evs st st' back :
  cruns Wc Ws (conn_start pfc pfs) tr x → ids_left tr → heap (cl x) !! q = Some o →
  quiet_trace (stream_trace (H1 := Wc) q (client_trace tr)) = true →
  nonempty_downloads evs → o2s ctx evs st = (None, st') → inbound st = [] →
  written_by (id o) (server_trace tr) `prefix_of` inbound st' →
  p2c_reads back `prefix_of` handed Wc q (client_trace tr) →
  (p2c back []).1 `prefix_of` concat (download_data evs) ∧
  shared st' = count_down ctx (shared st) (download_data evs).
Proof.
  intros Hr Hids Ho Hq Hne Hrun Hin Hwr Hback.
  destruct (download_bytes Wc Ws pfc pfs tr x q o Hr Hids Ho Hq) as [H1 _]. fold (handed Wc q (client_trace tr)) in H1.
  destruct (o2s_running _ _ _ _ Hne Hrun) as (Hsh & Hout & _). split; [|done].
  destruct (p2c_prefix back []) as [k ->]. rewrite app_nil_l. etrans; [apply prefix_take|].
  etrans; [exact Hback|]. etrans; [exact H1|]. etrans; [exact Hwr|]. by rewrite Hout, Hin.
Qed.
End tunnel.

(** ** Below the sessions: the TLS connection *)

(** C15. An admitted client's frames reach the server's session.  Of a TLS
    connection that carries the client's authentication block and then the padded
    records of its writer task, let any part that holds the block have arrived, cut
    in any way.  If the password is known and the connection approved, the server
    serves it under the client's identifier, and its receive loop, started on what
    the authentication left, handles a first part of the frames the client queued,
    all of them once everything has arrived. *)
Theorem admitted_frames_reach_session (O : IterOrder) (M : Md5) (R : Rng) (T : Transport) (W : WriterPeer) (U : UuidText) (L : UuidLaws)
    auth forward_target probe_target allowlist panel_sync now1 now2 h id sizes g queue cs arrived shared0 outcome shared1 s :
  length h = 32 → (∀ u, id = Some u → length u = 16) →
  never_fails → Forall (fun x => scheme_bounded x.1 ∧ sendable x.2.1) queue →
  nonempty cs → concat cs = auth_preamble h id sizes ++ arrived →
  arrived `prefix_of` concat (sent (writer_task queue (WState_new true g)).2) →
  Authenticator_authenticate auth now1 h shared0 = (outcome, shared1) → outcome ≠ Rejected →
  ctx_approved now2 (mkCtx (outcome_user outcome) id panel_sync) shared1 = true → s_closed s = false →
  ∃ input k,
    Server.handle_connection auth forward_target probe_target allowlist panel_sync now1 now2 (chunked cs) shared0
      = (Serving (mkCtx (outcome_user outcome) id panel_sync) input, shared1) ∧
    recv_loop input [] s =
      match io_iter handle_frame (take k (queue_frames queue)) s with
      | (Ok _, s') => (None, s')
      | (Err e, s') => (Some e, s')
      end ∧
    (arrived = concat (sent (writer_task queue (WState_new true g)).2) → k = length (queue_frames queue)).
Proof.
  intros Hh Hid Hn Hq Hne Hcat Harr Ha Ho Happ Hc.
  destruct (preamble_admitted auth forward_target probe_target allowlist panel_sync now1 now2
    h id sizes cs shared0 arrived outcome shared1 Hh Hid Hne Hcat Ha Ho Happ) as (rest & Hserve & Hrest & Hdata).
  rewrite <- Hdata in Harr.
  destruct (decide (arrived = concat (sent (writer_task queue (WState_new true g)).2))) as [Hall|Hall].
  - exists (chunked rest), (length (queue_frames queue)). split_and!; [exact Hserve| |done].
    rewrite firstn_all. apply (wire_transparent O M R T W true g); try done. by rewrite Hdata.
  - destruct (wire_cut_anywhere O M R T W true g queue rest s Hn Hq Harr Hrest Hc) as [k Hk].
    exists (chunked rest), k. split_and!; [exact Hserve|exact Hk|done].
Qed.

(** ** Witnesses *)

(** A SOCKS connection to [web_server]: the destination and a request upwards, an
    answer downwards. *)
Definition tunnel_commands : list cdo :=
  [OnClient DoStart; OnClient (DoOpen 4); OnClient (DoWrite 0 (write_to_buf web_server)); OnClient (DoWrite 0 (str "GET /"));
   Upward; Upward; Upward; Upward; OnServer (DoAck 0 None)] ++ replicate 20 (OnServer (DoRead 0 64)) ++
  [OnServer (DoWrite 0 (str "hello"))] ++ replicate 5 Downward ++ replicate 10 (OnClient (DoRead 0 64)).

Definition tunnel_demo : list (Conn * clabel) * Conn :=
  conn_exec (O := map_order) (M := toy_md5) good_writer good_writer tunnel_commands [] (conn_start demo_factory demo_factory).

Lemma tunnel_demo_runs :
  cruns (O := map_order) (M := toy_md5) good_writer good_writer (conn_start demo_factory demo_factory) tunnel_demo.1 tunnel_demo.2.
Proof.
  exact (conn_exec_runs (O := map_order) (M := toy_md5) good_writer good_writer tunnel_commands _ [] _ (cruns_nil _ _ _)).
Qed.

Lemma tunnel_demo_ids : ids_left tunnel_demo.1.
Proof. apply (bool_decide_unpack _). vm_compute. exact I. Qed.

Definition get_events : list (result bytes * result nat) := upload_events [str "GET /"].
Definition get_reads : list s2o_event := [SRead (Ok (str "GET")) Written; STick 0; SRead (Ok (str " /")) Written].
Definition after_get : RelayState := (s2o alice_ctx (Ok tt) get_reads relay_start).2.

Lemma socks_upload_end_to_end_witness :
  outbound after_get = outbound relay_start ++ socks_data web_server get_events ∧ outbound after_get = str "GET /".
Proof.
  split; [|vm_compute; reflexivity].
  destruct (heap (sv tunnel_demo.2) !! 0) as [o|] eqn:Ho; [|vm_compute in Ho; discriminate].
  assert (id o = 1%Z) as Hid.
  { assert (id <$> heap (sv tunnel_demo.2) !! 0 = Some 1%Z) as E by (vm_compute; reflexivity). rewrite Ho in E. by injection E. }
  destruct (socks_upload_end_to_end (O := map_order) (M := toy_md5) good_writer good_writer demo_factory demo_factory
    tunnel_demo.1 tunnel_demo.2 0 o web_server web_server get_events (str "GET /") alice_ctx get_reads relay_start after_get)
    as (_ & _ & H).
  - exact tunnel_demo_runs.
  - exact tunnel_demo_ids.
  - exact Ho.
  - vm_compute. reflexivity.
  - vm_compute. intuition (congruence || lia).
  - rewrite Hid. apply (bool_decide_unpack _). vm_compute. exact I.
  - vm_compute. reflexivity.
  - repeat constructor; discriminate.
  - reflexivity.
  - reflexivity.
  - apply H; rewrite ?Hid; try (vm_compute; reflexivity). apply (bool_decide_unpack _). vm_compute. exact I.
Defined.

Definition hello_back : list o2s_event := [ORead (Ok (str "hello")) (Ok tt) (Ok 5)].
Definition after_hello : RelayState := (o2s alice_ctx hello_back relay_start).2.

Lemma socks_download_end_to_end_witness :
  (p2c [(Ok (str "hel"), Written); (Ok (str "lo"), Written)] []).1 `prefix_of` str "hello".
Proof.
  destruct (heap (cl tunnel_demo.2) !! 0) as [o|] eqn:Ho; [|vm_compute in Ho; discriminate].
  assert (id o = 1%Z) as Hid.
  { assert (id <$> heap (cl tunnel_demo.2) !! 0 = Some 1%Z) as E by (vm_compute; reflexivity). rewrite Ho in E. by injection E. }
  refine (proj1 (socks_download_end_to_end (O := map_order) (M := toy_md5) good_writer good_writer demo_factory demo_factory
    tunnel_demo.1 tunnel_demo.2 0 o alice_ctx hello_back relay_start after_hello
    [(Ok (str "hel"), Written); (Ok (str "lo"), Written)] _ _ _ _ _ _ _ _ _)).
  - exact tunnel_demo_runs.
  - exact tunnel_demo_ids.
  - exact Ho.
  - vm_compute. reflexivity.
  - repeat constructor; discriminate.
  - reflexivity.
  - reflexivity.
  - rewrite Hid. apply (bool_decide_unpack _). vm_compute. exact I.
  - apply (bool_decide_unpack _). vm_compute. exact I.
Defined.

Lemma admitted_frames_reach_session_witness :
  let wire := concat (sent (H0 := counter_rng) (writer_task (H0 := counter_rng) (H1 := good_transport) small_queue
                (WState_new (H0 := counter_rng) true 3%Z)).2) in
  ∃ input k,
    Server.handle_connection shared_auth None None [] false 0 0 (chunked [opening ++ take 10 wire; drop 10 wire]) demo_shared
      = (Serving (mkCtx None (Some node_uuid) false) input, demo_shared) ∧
    recv_loop (H := map_order) (H0 := toy_md5) (H1 := good_writer) input [] demo_server =
      match io_iter (handle_frame (H := map_order) (H0 := toy_md5) (H1 := good_writer)) (take k (queue_frames small_queue)) demo_server with
      | (Ok _, s') => (None, s')
      | (Err e, s') => (Some e, s')
      end ∧ (wire = wire → k = length (queue_frames small_queue)).
Proof.
  intros wire.
  apply (admitted_frames_reach_session map_order toy_md5 counter_rng good_transport good_writer _ _ shared_auth None None [] false 0 0
    alice_hash (Some node_uuid) [30%Z] 3%Z small_queue [opening ++ take 10 wire; drop 10 wire] wire demo_shared Anonymous demo_shared demo_server).
  - reflexivity.
  - intros u [= <-]. reflexivity.
  - by split.
  - eapply Forall_impl; [apply small_queue_ok|]. naive_solver.
  - repeat constructor; by vm_compute.
  - cbn [concat]. rewrite app_nil_r, <- app_assoc. by rewrite take_drop.
  - done.
  - reflexivity.
  - discriminate.
  - reflexivity.
  - reflexivity.
Defined.
